(* ===== verification/_CoqProject ===== *)
-Q . S2P
Prelude.v
GoStrings.v
BigInt.v
Asn1.v
Slices.v
Shuffle.v
Switch.v
Toggle.v
ModArith.v
Galois.v
Bufio.v
Csv.v
Memconv.v
Eth.v
Nullable.v
FlagType.v
EthProto.v
Firehose.v
Pipeline.v
SolCover.v
Erc721.v
Rarity.v
Attach.v
Secrets.v
Signer.v
EntropyServer.v
Wallet.v
Tracking.v
Kms.v
Dbtx.v
SimBackend.v
FirehoseFake.v
Collect.v
Delegations.v
Holders.v
Polling.v
Flipside.v
FlipsideV1.v
Ipfs.v
Spawner.v
Tenderly.v
Oauth.v
Protovalid.v
Demo.v
Gnosis.v
Discord.v
Dialer.v
Commands.v
Hydrant.v
GcsTest.v
GrpcTest.v
FakeSetup.v
GrpcGenTs.v
