(* ===== verification/Prelude.v ===== *)
(** * solgo: a verification library

    solgo is a monorepo of Go libraries and small servers around Ethereum: NFT
    metadata, event streams of the chain, signers, hardware wallets, test doubles for
    contracts and services, and the shuffling and finite-field arithmetic with which
    collections are generated.  This library translates that Go code into executable
    definitions and proves what makes it correct.

    ** How the code is translated

    - A call that returns [(T, error)] and may panic is an [outcome]: [Ret], [Fail] with
      an error of the component, or [Panic] (this file).  Code that keeps state takes and
      returns it; a pointer receiver is a record, and objects that are shared through
      pointers are positions in a heap ([Wallet]) or cells of a store ([Dialer], [Oauth],
      [Hydrant]).
    - A slice is its contents where nothing else can see its array; where a caller can
      ([Convolve] in [Galois]) it is a window of an array in memory ([Slices]).
    - Machine integers are [Z] with the wrap-around written out ([uwrap], [swrap]).  A
      [*big.Int] is a [Z], bytes are numbers and strings are byte strings.  The scores of
      [Rarity] work over any type of floats; [Polling] uses the binary64 floats of the
      Standard Library.
    - Goroutines are lists of atomic steps that a schedule interleaves: [Toggle],
      [EntropyServer], [Delegations], [Wallet], [Discord], [Pipeline] and [Tracking] quantify
      over every schedule.  Where only the order in which a lock is taken matters
      ([Holders]) the order is the argument.  A channel between one producer and one
      consumer is the list of what passes through it; for the block streams [Pipeline]
      shows that this loses nothing.  The order in which a map is ranged over is an argument, or does
      not change the result.
    - Code outside the repository is a class or an argument: go-ethereum, Kubo, Docker,
      gRPC, holiman/uint256, the generated bindings of contracts.  The laws that a proof
      needs are a second class ([...Law], [...Laws]), which the witnesses instantiate
      with concrete functions.  The Go standard library is modelled ([GoStrings],
      [BigInt], [Bufio], [Csv], [Asn1], [sort.Search] in [Eth], [fs.WalkDir] in [Ipfs], [net]
      and [net/url] in [Spawner], base64 and PEM in [GcsTest], the kinds and calls of
      [reflect] in [GrpcTest]), except [encoding/json], RSA, the random sources and SHA-256,
      which are classes or stand on the far side of an interface.

    ** Files

    Shared: [Prelude] (outcomes, widths, generic lemmas, tactics), [GoStrings] ([strings],
    [strconv], [encoding/hex], [sort]), [BigInt] ([math/big]), [Bufio] ([bufio.Scanner]),
    [Csv] ([encoding/csv]), [Polling] (durations, binary64 and the loop with a growing
    backoff that both Flipside clients have), [Slices] (slices that share arrays), [Asn1] ([encoding/asn1]), [ModArith] (arithmetic for the proofs about [galois]),
    [Switch] (what [Toggle] promises its clients).

    Generation of collections
    - [Shuffle]: [go/shuffle/shuffle.go].  [Permute], [PermuteUpTo], [Grow], [GrowTo],
      [Permutation_] and [swap] are the methods of the same names.
    - [Galois]: [go/galois/galois.go], [fft.go], [convolution.go].
    - [Erc721]: [go/erc721/tokenid.go], [server.go], the display types and the JSON of
      metadata in [erc721.go], and [go/httperr/httperr.go]; [Attach]: registration and
      mounting in [erc721.go]; [Rarity]: [rarity.go].  [Attach] mounts the servers that
      [Erc721] defines.

    The chain
    - [Eth]: [go/eth/eth.go], [converters.go], [go/ethtest/ethtest.go];
      [Memconv]: [go/memconv/memconv.go], with which [Eth] and [Dbtx] reinterpret words;
      [Nullable]: [go/eth/nullable.go]; [Signer]: [go/eth/signer.go]; [Dialer]:
      [go/eth/client.go].
    - [EthProto]: [proto/eth/eth.go], [convert.go] and the [Value] of [eth.proto].
    - [Firehose]: [go/firehose/ethservice.go] and [firehose.go]; [FirehoseFake]: the test
      double [go/firehose/firehosetest/firehosetest.go], mined on [SimBackend]
      ([go/ethtest/simbackend.go]).  The fake, the block stream and the event service are
      composed: a request goes through [hose_Blocks], [proxy_Blocks], [events] and
      [CollectAll] in [collect_events].  [Pipeline] has the goroutines of the block stream
      and of the in-process client, [Collect] runs them on the fake, [Hydrant] the
      connections, the constructors and methods of server and client and the binary
      [go/firehose/hydrant/main.go], over [Secrets] and [Oauth]; [FakeSetup] is what a test
      with a fake opens and closes, over [GrpcTest] and [Hydrant].
    - [SolCover]: [go/solcover/solcover.go], [coverage.go].
    - [Delegations]: [contracts/delegate/delegate.go], [go/cmd/delegations/main.go];
      [Holders]: [go/cmd/holders/main.go], both of which read addresses with
      [AddressPerLine] of [Eth] and are started by [Commands] ([run] and [main], with the
      node of [Dialer]); [Gnosis]: [go/gnosis/csv.go].

    Servers, keys and services
    - [Toggle]: [go/sync/toggle.go], an instance of [Switch], against which [Wallet] proves
      its [Wait]; [Wallet]: [go/usbwallet/eventloop.go], [accounts.go], [wallet.go];
      [Tracking]: [listen] and [trackExistingWallets] of [eventloop.go].
    - [EntropyServer]: [contracts/entropy/entropyserver/main.go], which signs with
      [Signer]; [Kms]: [go/ethkms/gcp.go]; [Secrets]: [go/secrets]; [Oauth]:
      [go/oauthsrc/oauthsrc.go].
    - [GrpcTest]: [go/grpctest/grpctest.go]; [GcsTest]: [go/gcstest/gcstest.go]; [GrpcGenTs]: the generator
      [bazel/ts_proto_library/grpc_gen_ts] with its template.
    - [Dbtx]: [go/dbtx/dbtx.go]; [Spawner]: [go/spawner]; [Ipfs]: [go/ipfs/ipfs.go];
      [Tenderly]: [go/tenderly/tenderly.go]; [Flipside]: [go/flipside], whose older client
      [flipside.go], in no build target, is [FlipsideV1]; [Discord]:
      [go/discordbot]; [FlagType]: [go/flagtype/flagtype.go]; [Protovalid]:
      [go/protovalid/protovalid.go]; [Demo]: [demo/server/server.go].

    ** What the theorems show

    - Reference definitions.  [FFT] computes the discrete Fourier transform and
      [FFTInverse] undoes it; [Convolve] is the product of polynomials, of which the second is
      what padding the first in its array leaves of it ([Galois]).  A
      shuffle is a permutation of its pool, and over the random tapes each outcome
      arises from exactly one tape ([Shuffle]).  [LastBlockBy] returns the last block at
      or before a time ([Eth]).  [parseCode] finds the instruction boundaries and
      [parseSrcMap] the locations ([SolCover]).
    - Refinement.  What a client collects from the fake Firehose is the specification
      [respond] applied to the mined blocks ([FirehoseFake]), where [asEvent] and
      [extract] are characterised on their own ([Firehose]).  The wallet's event loop
      over pointers implements a map of statuses ([Wallet]).  A [Toggle] without [Close] is
      linearizable to a boolean, and the goroutines between a block stream and its client
      give what the sequential description gives, however they are scheduled ([Pipeline]);
      so collecting from the fake ends with the same result under every schedule
      ([Collect]).
    - Concurrency.  No schedule without a [Close] crashes a [Toggle], its signals balance
      and every configuration settles; what a [Close] may break is stated too.  The
      entropy server signs only blocks that were mined, and every request is answered.
      The delegations command exports every answer of every query exactly once, whatever
      the schedule, or reports an error.  The goroutines of a block stream end, but for one
      that a silent stream keeps ([Pipeline]); those that track wallets end or, after
      [Close], may crash ([Tracking]).  A [Wait] of the wallet that gets through means that the
      event loop holds a device to be open, which is connected with its app online but for
      devices that could not be closed or went offline without a drop.  [Connect] of the
      Discord bot returns when its event comes or its context ends, but not always with the
      event.
    - Invariants of state: containers that were spawned are accounted for ([Spawner]),
      mined blocks stay sorted, and agree with the chain ([FirehoseFake]), a pool stays
      a permutation ([Shuffle]), trait counts add up to the collection ([Rarity]), a
      transaction commits all of its work or none ([Dbtx]).
    - Round trips: [Nullable] values, [EthProto] values, secrets and flags, the Fourier
      transform, addresses printed one per line, tables in CSV ([Csv]; so the output of
      [Commands] and [FlipsideV1] is stated as what a reader finds in it), keys in ASN.1 and
      PEM, casts of memory ([Memconv]).  Bounds: the width of seeds
      ([Eth]) and of signatures ([Kms]).
    - Errors: the handlers of [Erc721] hide metadata that must not be seen and answer each
      request once, unless they panic, and where a connection breaks with an error after a
      part of the body; [AttachServers] stops at the first server that is refused ([Attach]);
      [AddFS] stops at the first path that it cannot read and hides the
      failure ([Ipfs]); the event stream delivers a prefix before it fails ([Firehose]);
      a signature with a short half is not sent as Ethereum encodes it ([Kms]); a panic
      while a service is registered is an error ([GrpcTest]); the TypeScript generator
      stops at the first field that is not set or write that fails ([GrpcGenTs]).
    - Resources: [hydrant] closes the connection that it opened ([Hydrant]), and what a
      [GrpcTest] server starts is stopped; a test with a fake Firehose closes all but the
      connections of its in-memory servers and, when the Hydrant server cannot be dialled,
      the connection behind it ([FakeSetup]); a request, and a configuration of a node,
      serves for one call ([Hydrant], [Ipfs]).

    ** Fuel

    Recursion that is not structural takes fuel.  Mostly a definition computes its own
    fuel from its input, and a theorem shows that it is enough: the digits of a number
    ([BigInt]), the length of a string or of byte code ([GoStrings], [SolCover]), the
    logarithm of the range in [sort.Search] ([Eth]), the distance to the target in
    [FastForward] ([SimBackend]), one call per response in [CollectAll].  Some loops have no
    bound in the code.  [cooleyTukey] does not return on the empty slice; on the
    lengths that [FFT] accepts, powers of two, the fuel it is given suffices.
    [RootOfUnity] draws until a candidate is accepted: its fuel is the number of draws,
    and the result is shown for every fuel above the first accepted draw.
    [poll] asks until a poll is final: it takes a fuel for each poll, with more than that it is
    done, and without a final poll it has polled once for each and is still at it.  Its waits
    grow by a fifth each and leave the range of [int64] after 126 of them, where what the
    conversion gives is up to the machine ([Machine]).

    ** Not modelled

    - Wiring of libraries without state of its own: methods that only forward to an embedded
      value or name its type for a flag, options that wrap a value, and the [main] functions
      of the servers, which parse flags.  The layouts of floats in [Memconv].
    - [go/galois/polynomial.go], which does not compile: it calls [f.convolve], which exists
      nowhere, and gives [f.twiddleFactors] a number in place of a slice.
    - Solidity, TypeScript and generated code, which are not Go sources of the program. *)

From stdpp Require Export base tactics list option numbers relations.

(** ** Outcomes of a Go call

    A Go function that returns [(T, error)] and may panic yields one of three
    results: a value, an error value, or a panic.  [outcome E A] keeps the three
    apart; the error type [E] is chosen per component. *)

Inductive outcome (E A : Type) : Type :=
| Ret (a : A)
| Fail (e : E)
| Panic.
Arguments Ret {E A} a.
Arguments Fail {E A} e.
Arguments Panic {E A}.

#[export] Instance outcome_mret {E} : MRet (outcome E) := fun A a => Ret a.
#[export] Instance outcome_mbind {E} : MBind (outcome E) := fun A B f c =>
  match c with
  | Ret a => f a
  | Fail e => Fail e
  | Panic => Panic
  end.
#[export] Instance outcome_fmap {E} : FMap (outcome E) := fun A B f c =>
  match c with
  | Ret a => Ret (f a)
  | Fail e => Fail e
  | Panic => Panic
  end.

(** Changing the error value, as [fmt.Errorf("...: %v", err)] does. *)
Definition map_err {E E' A} (f : E → E') (c : outcome E A) : outcome E' A :=
  match c with
  | Ret a => Ret a
  | Fail e => Fail (f e)
  | Panic => Panic
  end.

(** Indexing a slice or dereferencing a pointer that is not there panics. *)
Definition or_panic {E A} (o : option A) : outcome E A :=
  match o with
  | Some a => Ret a
  | None => Panic
  end.

(** A Go [range] loop whose body may fail: left to right, stops at the first
    error or panic. *)
Fixpoint omapM {E A B} (f : A → outcome E B) (l : list A) : outcome E (list B) :=
  match l with
  | [] => Ret []
  | x :: l => y ← f x; ys ← omapM f l; mret (y :: ys)
  end.

Ltac solve_outcome :=
  repeat match goal with
  | H : _ ∧ _ |- _ => destruct H
  | H : _ ∨ _ |- _ => destruct H
  | H : ∃ _, _ |- _ => destruct H
  | _ => progress simplify_eq/=
  end; eauto.

Section outcome_laws.
Context {E : Type}.

Lemma bind_Ret {A B} (c : outcome E A) (f : A → outcome E B) b :
  c ≫= f = Ret b ↔ ∃ a, c = Ret a ∧ f a = Ret b.
Proof. destruct c; simpl; split; intros; solve_outcome. Qed.

Lemma bind_Fail {A B} (c : outcome E A) (f : A → outcome E B) e :
  c ≫= f = Fail e ↔ c = Fail e ∨ ∃ a, c = Ret a ∧ f a = Fail e.
Proof. destruct c; simpl; split; intros; solve_outcome. Qed.

Lemma map_err_Ret {A E'} (f : E → E') (c : outcome E A) a :
  map_err f c = Ret a ↔ c = Ret a.
Proof. destruct c; simpl; split; intros; solve_outcome. Qed.

Lemma or_panic_Ret {A} (o : option A) a : or_panic (E:=E) o = Ret a ↔ o = Some a.
Proof. destruct o; simpl; split; intros; simplify_eq; eauto. Qed.

Lemma omapM_Ret {A B} (f : A → outcome E B) l k :
  omapM f l = Ret k ↔ Forall2 (λ x y, f x = Ret y) l k.
Proof.
  revert k. induction l as [|x l IH]; intros k; cbn [omapM].
  - split; [intros [= <-]; constructor | by inversion_clear 1].
  - rewrite bind_Ret. setoid_rewrite bind_Ret. setoid_rewrite IH. split.
    + intros (y & ? & ys & ? & [= <-]). by constructor.
    + inversion_clear 1. eauto 10.
Qed.

Lemma omapM_not_Fail {A B} (f : A → outcome E B) l e :
  (∀ x, x ∈ l → f x ≠ Fail e) → omapM f l ≠ Fail e.
Proof.
  induction l as [|x l IH]; intros Hf; cbn [omapM]; [done|].
  intros [Hx|(y & _ & [Hl|(ys & _ & [=])]%bind_Fail)]%bind_Fail; [by apply (Hf x); [left|]|].
  apply IH; [|done]. intros z Hz. apply Hf. by right.
Qed.
End outcome_laws.

(** ** Fixed-width integers

    Go's [intN]/[uintN] are [Z] with the conversion written out; a conversion
    keeps the low bits. *)

Definition uwrap (w : Z) (x : Z) : Z := x mod 2 ^ w.
Definition swrap (w : Z) (x : Z) : Z := (x + 2 ^ (w - 1)) mod 2 ^ w - 2 ^ (w - 1).

(** Closes conjunctions of comparisons between integer constants. *)
Ltac zconst := repeat split; vm_compute; congruence.

Abbreviation u8 := (uwrap 8).
Abbreviation u32 := (uwrap 32).
Abbreviation u64 := (uwrap 64).
Abbreviation i32 := (swrap 32).
Abbreviation i64 := (swrap 64).

Section widths.
Context (w : Z) (Hw : (0 < w)%Z).

Lemma uwrap_range x : (0 ≤ uwrap w x < 2 ^ w)%Z.
Proof using Hw. apply Z.mod_pos_bound; lia. Qed.

Lemma uwrap_small x : (0 ≤ x < 2 ^ w)%Z → uwrap w x = x.
Proof. apply Z.mod_small. Qed.

Lemma swrap_range x : (- 2 ^ (w - 1) ≤ swrap w x < 2 ^ (w - 1))%Z.
Proof using Hw.
  unfold swrap. pose proof (Z.mod_pos_bound (x + 2 ^ (w - 1)) (2 ^ w)).
  assert (2 ^ w = 2 * 2 ^ (w - 1))%Z; [|lia].
  rewrite <-Z.pow_succ_r by lia. f_equal; lia.
Qed.

Lemma swrap_small x : (- 2 ^ (w - 1) ≤ x < 2 ^ (w - 1))%Z → swrap w x = x.
Proof using Hw.
  intros ?. unfold swrap. rewrite Z.mod_small; [lia|].
  assert (2 ^ w = 2 * 2 ^ (w - 1))%Z; [|lia].
  rewrite <-Z.pow_succ_r by lia. f_equal; lia.
Qed.
End widths.

Lemma u64_small x : (0 ≤ x < 2 ^ 64)%Z → u64 x = x.
Proof. apply uwrap_small. Qed.
Lemma i64_small x : (- 2 ^ 63 ≤ x < 2 ^ 63)%Z → i64 x = x.
Proof. by apply (swrap_small 64). Qed.

(** ** Termination *)

(** Steps that lower a measure cannot go on for ever. *)
Lemma measure_terminates {A} (R : relation A) (f : A → nat) :
  (∀ x y, R x y → f y < f x) → ∀ x, Acc (flip R) x.
Proof. intros Hf. apply (wf_projected lt f); [|apply lt_wf]. intros x y. apply Hf. Qed.

(** ** Lists *)

Lemma sum_list_with_insert {A} (f : A → nat) l i x y :
  l !! i = Some x → sum_list_with f (<[i:=y]> l) + f x = sum_list_with f l + f y.
Proof.
  revert i. induction l as [|z l IH]; intros [|i] Hl; simplify_eq/=; [lia|].
  specialize (IH _ Hl). lia.
Qed.

Lemma sum_list_with_elem {A} (f : A → nat) l i x :
  l !! i = Some x → f x ≤ sum_list_with f l.
Proof.
  revert i. induction l as [|z l IH]; intros [|i] Hl; simplify_eq/=; [lia|].
  specialize (IH _ Hl). lia.
Qed.

Lemma sum_list_with_pos {A} (f : A → nat) l :
  0 < sum_list_with f l → ∃ i x, l !! i = Some x ∧ 0 < f x.
Proof.
  induction l as [|z l IH]; simpl; [lia|]. intros H.
  destruct (decide (0 < f z)); [by exists 0, z|].
  destruct IH as (i & x & ? & ?); [lia|]. by exists (S i), x.
Qed.

Lemma filter_none {A} (P : A → Prop) `{∀ x, Decision (P x)} l : Forall (λ x, ¬ P x) l → filter P l = [].
Proof. induction 1 as [|x l Hx _ IH]; [done|]. by rewrite filter_cons_False. Qed.

(** [omap] after an update that concerns it or not. *)
Section omap_insert.
Context {A B} (f : A → option B).

Lemma omap_insert_None (l : list A) i x y : l !! i = Some x → f x = None → f y = None →
  omap f (<[i:=y]> l) = omap f l.
Proof.
  intros Hi Hx Hy. revert i Hi. induction l as [|z l IH]; intros [|i] Hi; simplify_eq/=; [by rewrite Hx, Hy|].
  by rewrite IH.
Qed.

Lemma omap_insert_Some (l : list A) i x y b : l !! i = Some x → f x = None → f y = Some b →
  omap f (<[i:=y]> l) ≡ₚ b :: omap f l.
Proof.
  intros Hi Hx Hy. revert i Hi. induction l as [|z l IH]; intros [|i] Hi; simplify_eq/=; [by rewrite Hx, Hy|].
  destruct (f z) as [c|]; [|by apply IH]. rewrite (IH i Hi). apply Permutation_swap.
Qed.
End omap_insert.
