(* ===== verification/GoStrings.v ===== *)
(** * GoStrings: the string functions of Go's standard library

    What the components use of [strings], [strconv] and [encoding/hex], on byte
    strings, with the round trips their theorems rest on. *)

From S2P Require Export Prelude.
From stdpp Require Export strings sorting.
From stdpp Require Import pretty.
From Stdlib Require Export Ascii.

(** ** Splitting and joining *)

(** [strings.Split(s, sep)] for a separator of one byte. *)
Fixpoint Split (sep : ascii) (s : string) : list string :=
  match s with
  | EmptyString => [EmptyString]
  | String c s =>
      if decide (c = sep) then EmptyString :: Split sep s
      else match Split sep s with
           | [] => [String c EmptyString]
           | w :: ws => String c w :: ws
           end
  end.

(** [strings.Cut(s, sep)], also [strings.SplitN(s, sep, 2)]: the part before the
    first separator and, when there is one, the part after it. *)
Fixpoint Cut (sep : ascii) (s : string) : string * option string :=
  match s with
  | EmptyString => (EmptyString, None)
  | String c s =>
      if decide (c = sep) then (EmptyString, Some s)
      else let '(w, r) := Cut sep s in (String c w, r)
  end.

(** [strings.strings_Join(ws, sep)]. *)
Fixpoint strings_Join (sep : ascii) (ws : list string) : string :=
  match ws with
  | [] => EmptyString
  | [w] => w
  | w :: ws => w +:+ String sep (strings_Join sep ws)
  end.

Fixpoint mentions (c : ascii) (s : string) : bool :=
  match s with
  | EmptyString => false
  | String c' s => bool_decide (c' = c) || mentions c s
  end.

Lemma Split_nonempty sep s : Split sep s ≠ [].
Proof. destruct s as [|c s]; simpl; [done|]. case_decide; [done|]. by destruct (Split sep s). Qed.

Lemma Split_word sep s : mentions sep s = false → Split sep s = [s].
Proof.
  induction s as [|c s IH]; simpl; [done|]. intros [Hc Hs]%orb_false_iff.
  rewrite bool_decide_eq_false in Hc. rewrite decide_False by done. by rewrite IH.
Qed.

Lemma Split_app sep w s : mentions sep w = false →
  Split sep (w +:+ String sep s) = w :: Split sep s.
Proof.
  induction w as [|c w IH]; simpl; intros H; [by rewrite decide_True|].
  apply orb_false_iff in H as [Hc Hs]. rewrite bool_decide_eq_false in Hc.
  rewrite decide_False by done. by rewrite IH.
Qed.

(** Splitting undoes joining, for words without the separator. *)
Lemma Split_Join sep ws : ws ≠ [] → Forall (λ w, mentions sep w = false) ws →
  Split sep (strings_Join sep ws) = ws.
Proof.
  induction ws as [|w [|w' ws] IH]; [done| |]; intros _ H; inversion_clear H as [|? ? Hw Hws].
  - by apply Split_word.
  - change (strings_Join sep (w :: w' :: ws)) with (w +:+ String sep (strings_Join sep (w' :: ws))).
    rewrite Split_app by done. by rewrite IH.
Qed.

Lemma Cut_app sep w s : mentions sep w = false → Cut sep (w +:+ String sep s) = (w, Some s).
Proof.
  induction w as [|c w IH]; simpl; intros H; [by rewrite decide_True|].
  apply orb_false_iff in H as [Hc Hs]. rewrite bool_decide_eq_false in Hc.
  rewrite decide_False by done. by rewrite IH.
Qed.

Lemma Cut_word sep w : mentions sep w = false → Cut sep w = (w, None).
Proof.
  induction w as [|c w IH]; simpl; [done|]. intros [Hc Hs]%orb_false_iff.
  rewrite bool_decide_eq_false in Hc. rewrite decide_False by done. by rewrite IH.
Qed.

Lemma string_app_assoc (s t u : string) : s +:+ t +:+ u = (s +:+ t) +:+ u.
Proof. induction s as [|c s IH]; [done|]. change (String c (s +:+ t +:+ u) = String c ((s +:+ t) +:+ u)). by rewrite IH. Qed.

Lemma string_length_app s t : String.length (s +:+ t) = (String.length s + String.length t)%nat.
Proof. induction s as [|c s IH]; [done|]. change (S (String.length (s +:+ t)) = S (String.length s + String.length t)). by rewrite IH. Qed.

Lemma mentions_app c s t : mentions c (s +:+ t) = mentions c s || mentions c t.
Proof. induction s as [|a s IH]; simpl; [done|]. by rewrite IH, orb_assoc. Qed.

Lemma mentions_Join c sep ws : c ≠ sep →
  mentions c (strings_Join sep ws) = existsb (mentions c) ws.
Proof.
  intros Hne. induction ws as [|w [|w' ws] IH]; [done|by simpl; rewrite orb_false_r|].
  change (strings_Join sep (w :: w' :: ws)) with (w +:+ String sep (strings_Join sep (w' :: ws))).
  rewrite mentions_app. cbn [mentions]. rewrite IH, bool_decide_eq_false_2 by done. done.
Qed.

(** ** Prefixes and surrounding space *)

(** [strings.TrimPrefix(s, p)]. *)
Fixpoint cut_prefix (p s : string) : option string :=
  match p, s with
  | EmptyString, _ => Some s
  | String a p, String b s => if decide (a = b) then cut_prefix p s else None
  | _, _ => None
  end.

Definition TrimPrefix (p s : string) : string := default s (cut_prefix p s).

Definition HasPrefix (p s : string) : bool := bool_decide (is_Some (cut_prefix p s)).

Lemma cut_prefix_app p s : cut_prefix p (p +:+ s) = Some s.
Proof. induction p as [|a p IH]; simpl; [by destruct s|]. by rewrite decide_True. Qed.

Definition bytes (l : list nat) : string := String.string_of_list_ascii (ascii_of_nat <$> l).

(** The UTF-8 encodings of the runes that [unicode.IsSpace] accepts. *)
Definition spaces : list string :=
  map bytes
    ([[9]; [10]; [11]; [12]; [13]; [32]; [194; 133]; [194; 160]; [225; 154; 128];
      [226; 128; 168]; [226; 128; 169]; [226; 128; 175]; [226; 129; 159]; [227; 128; 128]]
     ++ map (λ n, [226; 128; 128 + n]) (seq 0 11)).

Fixpoint first_prefix (ps : list string) (s : string) : option string :=
  match ps with
  | [] => None
  | p :: ps => match cut_prefix p s with Some r => Some r | None => first_prefix ps s end
  end.

(** Cut leading members of [ps]; each round shortens the string. *)
Fixpoint trim_left (fuel : nat) (ps : list string) (s : string) : string :=
  match fuel with
  | O => s
  | S fuel => match first_prefix ps s with Some r => trim_left fuel ps r | None => s end
  end.

(** [strings.TrimSpace(s)]. *)
Definition TrimSpace (s : string) : string :=
  let s := trim_left (String.length s) spaces s in
  String.rev (trim_left (String.length s) (map String.rev spaces) (String.rev s)).

(** Trimming keeps a string whose characters are not of spaces. *)
Definition opens (c : ascii) (p : string) : bool :=
  match p with EmptyString => true | String d _ => bool_decide (d = c) end.

Definition of_space (c : ascii) : bool := existsb (opens c) (spaces ++ map String.rev spaces).

Lemma first_prefix_None ps c s : existsb (opens c) ps = false → first_prefix ps (String c s) = None.
Proof.
  induction ps as [|[|d p] ps IH]; [done|done|]. cbn [existsb opens]. intros [Hd Hps]%orb_false_iff.
  rewrite bool_decide_eq_false in Hd. cbn [first_prefix cut_prefix]. rewrite decide_False by done. by apply IH.
Qed.

Lemma trim_left_id fuel ps s : s ≠ EmptyString → (∀ c, mentions c s = true → existsb (opens c) ps = false) →
  trim_left fuel ps s = s.
Proof.
  intros Hne Hs. destruct fuel as [|fuel]; [done|]. destruct s as [|c s]; [done|]. cbn [trim_left].
  rewrite first_prefix_None; [done|]. apply Hs. simpl. by rewrite bool_decide_eq_true_2.
Qed.

Lemma rev_app_rev_app (s t u : string) : String.rev_app (String.rev_app s t) u = String.rev_app t (s +:+ u).
Proof. revert t. induction s as [|c s IH]; intros t; [done|]. cbn [String.rev_app]. by rewrite IH. Qed.

Lemma string_app_nil_r s : s +:+ EmptyString = s.
Proof. induction s as [|c s IH]; [done|]. change (String c (s +:+ EmptyString) = String c s). by rewrite IH. Qed.

Lemma string_rev_involutive s : String.rev (String.rev s) = s.
Proof. unfold String.rev. rewrite rev_app_rev_app. apply string_app_nil_r. Qed.

Lemma mentions_rev c s : mentions c (String.rev s) = mentions c s.
Proof.
  unfold String.rev. rewrite <-(orb_false_r (mentions c s)). change false with (mentions c EmptyString).
  generalize EmptyString. induction s as [|d s IH]; intros t; [done|]. cbn [String.rev_app mentions]. rewrite IH. cbn [mentions].
  by rewrite !orb_assoc, (orb_comm (mentions c s)).
Qed.

Lemma TrimSpace_id s : (∀ c, mentions c s = true → of_space c = false) → TrimSpace s = s.
Proof.
  intros Hs. destruct (decide (s = EmptyString)) as [->|Hne]; [done|].
  assert (∀ c, mentions c s = true → existsb (opens c) spaces = false ∧ existsb (opens c) (map String.rev spaces) = false) as Hc.
  { intros c Hc%Hs. unfold of_space in Hc. rewrite existsb_app in Hc. by apply orb_false_iff in Hc. }
  unfold TrimSpace. cbv zeta. rewrite (trim_left_id _ spaces s), trim_left_id; [apply string_rev_involutive| | |done|by apply Hc].
  - intros Hr. apply Hne. by rewrite <-(string_rev_involutive s), Hr.
  - intros c. rewrite mentions_rev. apply Hc.
Qed.

(** ** Numbers in strings *)

Definition digit_value (c : ascii) : option Z :=
  let n := Z.of_N (N_of_ascii c) in
  if (48 <=? n)%Z && (n <=? 57)%Z then Some (n - 48)%Z else None.

Fixpoint parse_digits (acc : Z) (s : string) : option Z :=
  match s with
  | EmptyString => Some acc
  | String c s => d ← digit_value c; parse_digits (acc * 10 + d) s
  end.

(** [strconv.Atoi]: an optional sign and at least one digit, within an int. *)
Definition Atoi (s : string) : option Z :=
  let '(neg, ds) :=
    match s with
    | String c s' => if decide (c = "-"%char) then (true, s')
                     else if decide (c = "+"%char) then (false, s') else (false, s)
    | EmptyString => (false, s)
    end in
  if decide (ds = EmptyString) then None
  else n ← parse_digits 0 ds;
       let n := if (neg : bool) then (- n)%Z else n in
       if decide (- 2 ^ 63 ≤ n < 2 ^ 63)%Z then Some n else None.

(** The value of a hexadecimal digit. *)
Definition hex_value (c : ascii) : option Z :=
  let n := Z.of_N (N_of_ascii c) in
  if (48 <=? n)%Z && (n <=? 57)%Z then Some (n - 48)%Z
  else if (97 <=? n)%Z && (n <=? 102)%Z then Some (n - 87)%Z
  else if (65 <=? n)%Z && (n <=? 70)%Z then Some (n - 55)%Z
  else None.

Definition is_xdigit (c : ascii) : bool := bool_decide (is_Some (hex_value c)).

(** [[]byte(s)]. *)
Definition string_bytes (s : string) : list Z := (λ c, Z.of_N (N_of_ascii c)) <$> String.list_ascii_of_string s.

Lemma string_bytes_inj s t : string_bytes s = string_bytes t → s = t.
Proof.
  unfold string_bytes. intros E. apply list_fmap_eq_inj in E.
  - by rewrite <-(String.string_of_list_ascii_of_string s), E, String.string_of_list_ascii_of_string.
  - intros a b Hab. rewrite <-(ascii_N_embedding a), <-(ascii_N_embedding b). f_equal. lia.
Qed.

Lemma string_bytes_length s : length (string_bytes s) = String.length s.
Proof. unfold string_bytes. rewrite length_fmap. induction s as [|c s IH]; simpl; [done|]. by rewrite IH. Qed.

(** [hex.DecodeString]. *)
Fixpoint DecodeString (s : string) : option (list Z) :=
  match s with
  | EmptyString => Some []
  | String a (String b s) =>
      x ← hex_value a; y ← hex_value b; r ← DecodeString s; Some (x * 16 + y :: r)%Z
  | String _ EmptyString => None
  end.

Definition hex_char (n : Z) : ascii :=
  ascii_of_N (Z.to_N (if (n <? 10)%Z then n + 48 else n + 87)).

(** [hex.EncodeToString]. *)
Fixpoint EncodeToString (b : list Z) : string :=
  match b with
  | [] => EmptyString
  | x :: b => String (hex_char (x / 16)%Z) (String (hex_char (x mod 16)%Z) (EncodeToString b))
  end.

Lemma hex_value_char n : (0 ≤ n < 16)%Z → hex_value (hex_char n) = Some n.
Proof.
  intros Hn. assert (n ∈ seqZ 0 16) as Hin by (apply elem_of_seqZ; lia).
  clear Hn. revert n Hin. apply Forall_forall. by repeat constructor.
Qed.

(** Decoding undoes encoding. *)
Lemma DecodeString_Encode b : Forall (λ x, 0 ≤ x < 256)%Z b → DecodeString (EncodeToString b) = Some b.
Proof.
  induction 1 as [|x b Hx _ IH]; [done|]. simpl.
  pose proof (Z.mod_pos_bound x 16). pose proof (Z.div_mod x 16).
  rewrite (hex_value_char (x / 16)%Z) by (split; [apply Z.div_pos|apply Z.div_lt_upper_bound]; lia).
  rewrite hex_value_char, IH by lia. simpl. do 2 f_equal. lia.
Qed.

(** ** Sorting *)

(** [sort.Strings]. *)
Definition string_le (s t : string) : Prop := String.leb s t = true.
#[export] Instance string_le_dec : RelDecision string_le.
Proof. intros s t. unfold string_le. apply _. Defined.
#[export] Instance string_le_total : Total string_le.
Proof. intros s t. unfold string_le. destruct (String.leb_total s t); auto. Qed.

Definition sort_Strings (l : list string) : list string := merge_sort string_le l.

Lemma sort_Strings_Permutation l : sort_Strings l ≡ₚ l.
Proof. apply merge_sort_Permutation. Qed.

(** ** Decimal numbers *)

Lemma mentions_pretty_N_go c x s : (∀ d, (d < 10)%N → pretty_N_char d ≠ c) →
  mentions c s = false → mentions c (pretty_N_go x s) = false.
Proof.
  intros Hc. revert s. induction (N.lt_wf_0 x) as [x _ IH]. intros s Hs.
  destruct (decide (0 < x)%N) as [Hx|Hx].
  - rewrite pretty_N_go_step by done. apply IH; [apply N.div_lt; lia|]. simpl.
    rewrite bool_decide_eq_false_2; [done|]. apply Hc. by apply N.mod_lt.
  - assert (x = 0%N) as -> by lia. by rewrite pretty_N_go_0.
Qed.

Lemma mentions_pretty c (n : N) : (∀ d, (d < 10)%N → pretty_N_char d ≠ c) → c ≠ "0"%char →
  mentions c (pretty n) = false.
Proof.
  intros Hc H0. unfold pretty, pretty_N. case_decide.
  - simpl. by rewrite bool_decide_eq_false_2.
  - by apply mentions_pretty_N_go.
Qed.

(** Numbers that are not negative print as digits only. *)
Lemma mentions_pretty_Z c (n : Z) : (0 <= n)%Z → (∀ d, (d < 10)%N → pretty_N_char d ≠ c) → c ≠ "0"%char →
  mentions c (pretty n) = false.
Proof. intros Hn Hc H0. unfold pretty, pretty_Z. destruct n; [|by apply mentions_pretty|lia]. simpl. by rewrite bool_decide_eq_false_2. Qed.
