(* ===== verification/BigInt.v ===== *)
(** * BigInt: the byte conversions of [math/big]

    Byte slices are lists of numbers; [SetBytes] and [Bytes] are big-endian. *)

From S2P Require Export Prelude.
From stdpp Require Import strings.
From Stdlib Require Ascii String.
Local Open Scope Z_scope.

Abbreviation bytes := (list Z).

Definition is_byte (b : Z) : Prop := 0 ≤ b < 256.

(** [new(big.Int).SetBytes(b)]. *)
Definition SetBytes (b : bytes) : Z := foldl (λ n x, n * 256 + x) 0 b.

Fixpoint digits (fuel : nat) (n : Z) : bytes :=
  match fuel with
  | O => []
  | S fuel => if n =? 0 then [] else digits fuel (n / 256) ++ [n mod 256]
  end.

(** [n.Bytes()]: the absolute value, without leading zeros.  A digit takes at
    least a bit off the number, so the fuel is enough. *)
Definition big_Bytes (n : Z) : bytes := digits (S (Z.to_nat (Z.log2 (Z.abs n)))) (Z.abs n).

Lemma SetBytes_snoc b x : SetBytes (b ++ [x]) = SetBytes b * 256 + x.
Proof. unfold SetBytes. by rewrite foldl_app. Qed.

Lemma SetBytes_app a b : SetBytes (a ++ b) = SetBytes a * 256 ^ Z.of_nat (length b) + SetBytes b.
Proof.
  induction b as [|x b IH] using rev_ind; [rewrite app_nil_r; cbn; lia|].
  rewrite app_assoc, !SetBytes_snoc, IH, length_app. simpl.
  rewrite Nat2Z.inj_add, Z.pow_add_r by lia. lia.
Qed.

Lemma SetBytes_zeros n b : SetBytes (replicate n 0 ++ b) = SetBytes b.
Proof.
  rewrite SetBytes_app. assert (SetBytes (replicate n 0) = 0) as ->; [|done].
  induction n as [|n IH]; [done|]. by rewrite replicate_S_end, SetBytes_snoc, IH.
Qed.

Lemma SetBytes_range b : Forall is_byte b → 0 ≤ SetBytes b < 256 ^ Z.of_nat (length b).
Proof.
  induction b as [|x b IH] using rev_ind; [done|].
  intros [Hb Hx]%Forall_app. apply Forall_inv in Hx. unfold is_byte in Hx. specialize (IH Hb).
  rewrite SetBytes_snoc, length_app. simpl. rewrite Nat2Z.inj_add, Z.pow_add_r by lia. lia.
Qed.

Lemma digits_spec fuel n k : 0 ≤ n < 2 ^ Z.of_nat fuel → n < 256 ^ Z.of_nat k →
  SetBytes (digits fuel n) = n ∧ Forall is_byte (digits fuel n) ∧ (length (digits fuel n) ≤ k)%nat.
Proof.
  revert n k. induction fuel as [|fuel IH]; intros n k Hn Hk.
  { assert (n = 0) as -> by (simpl in Hn; lia). split; [done|]. split; [done|simpl; lia]. }
  cbn [digits]. destruct (Z.eqb_spec n 0) as [->|Hnz]; [split; [done|]; split; [done|simpl; lia]|].
  destruct k as [|k]; [simpl in Hk; lia|].
  rewrite Nat2Z.inj_succ, Z.pow_succ_r in Hn, Hk by lia.
  pose proof (Z.div_mod n 256). pose proof (Z.mod_pos_bound n 256).
  destruct (IH (n / 256) k) as (Hs & Hf & Hl).
  - split; [apply Z.div_pos; lia|]. nia.
  - nia.
  - rewrite SetBytes_snoc, Hs, length_app. split; [lia|]. split; [|simpl; lia].
    apply Forall_app. split; [done|]. repeat constructor; lia.
Qed.

Lemma abs_lt_log2 n : 0 ≤ Z.abs n < 2 ^ Z.of_nat (S (Z.to_nat (Z.log2 (Z.abs n)))).
Proof.
  split; [lia|]. rewrite Nat2Z.inj_succ, Z2Nat.id by apply Z.log2_nonneg.
  destruct (decide (n = 0)) as [->|]; [done|]. apply Z.log2_spec. lia.
Qed.

(** Reading back what [Bytes] writes. *)
Lemma SetBytes_big_Bytes n : SetBytes (big_Bytes n) = Z.abs n ∧ Forall is_byte (big_Bytes n).
Proof.
  pose proof (abs_lt_log2 n) as Hn.
  destruct (digits_spec _ _ (S (Z.to_nat (Z.log2 (Z.abs n)))) Hn) as (?&?&?); [|done].
  eapply Z.lt_le_trans; [apply Hn|]. apply Z.pow_le_mono_l. lia.
Qed.

Lemma big_Bytes_length n k : Z.abs n < 256 ^ Z.of_nat k → (length (big_Bytes n) ≤ k)%nat.
Proof. intros Hk. by destruct (digits_spec _ _ k (abs_lt_log2 n) Hk) as (?&?&?). Qed.

Lemma big_Bytes_length_inv n k : (length (big_Bytes n) ≤ k)%nat → Z.abs n < 256 ^ Z.of_nat k.
Proof.
  intros Hk. destruct (SetBytes_big_Bytes n) as [<- Hf]. apply SetBytes_range in Hf as [_ Hf].
  eapply Z.lt_le_trans; [done|]. apply Z.pow_le_mono_r; lia.
Qed.

(** Reading is injective on slices of one length. *)
Lemma SetBytes_inj a b : length a = length b → Forall is_byte a → Forall is_byte b →
  SetBytes a = SetBytes b → a = b.
Proof.
  revert b. induction a as [|x a IH] using rev_ind; intros b Hl Ha Hb E.
  { by destruct b. }
  destruct b as [|y b _] using rev_ind; [rewrite length_app in Hl; simpl in Hl; lia|].
  rewrite !length_app in Hl. simpl in Hl. rewrite !SetBytes_snoc in E.
  apply Forall_app in Ha as [Ha Hx%Forall_inv]. apply Forall_app in Hb as [Hb Hy%Forall_inv].
  unfold is_byte in *. assert (SetBytes a = SetBytes b ∧ x = y) as [E' ->] by lia.
  by rewrite (IH b) by (done || lia).
Qed.

(** ** Text *)

(** The digits of [SetString] and [Text]: 0 to 9, then the lower-case letters; up to
    base 36 an upper-case letter is read like the lower-case one, above it counts
    from 36. *)
Definition digit_of (base : Z) (c : Ascii.ascii) : option Z :=
  let n := Z.of_N (Ascii.N_of_ascii c) in
  let d := if (48 <=? n) && (n <=? 57) then Some (n - 48)
           else if (97 <=? n) && (n <=? 122) then Some (n - 87)
           else if (65 <=? n) && (n <=? 90) then Some (if base <=? 36 then n - 55 else n - 29)
           else None in
  match d with Some d => if d <? base then Some d else None | None => None end.

Definition digit_char (d : Z) : Ascii.ascii :=
  Ascii.ascii_of_N (Z.to_N (if d <? 10 then d + 48 else if d <? 36 then d + 87 else d + 29)).

Fixpoint parse_base (base acc : Z) (s : String.string) : option Z :=
  match s with
  | String.EmptyString => Some acc
  | String.String c s => d ← digit_of base c; parse_base base (acc * base + d) s
  end.

(** [new(big.Int).SetString(s, base)] for a base from 2 to 62. *)
Definition SetString (s : String.string) (base : Z) : option Z :=
  let '(neg, ds) :=
    match s with
    | String.String c s' =>
        if decide (c = Ascii.ascii_of_nat 45) then (true, s')
        else if decide (c = Ascii.ascii_of_nat 43) then (false, s') else (false, s)
    | String.EmptyString => (false, s)
    end in
  if decide (ds = String.EmptyString) then None
  else n ← parse_base base 0 ds; Some (if (neg : bool) then - n else n).

Fixpoint text_digits (fuel : nat) (base n : Z) (acc : String.string) : String.string :=
  match fuel with
  | O => acc
  | S fuel =>
      let acc := String.String (digit_char (n mod base)) acc in
      if n <? base then acc else text_digits fuel base (n / base) acc
  end.

(** [n.Text(base)] of a number that is not negative. *)
Definition Text (n base : Z) : String.string :=
  text_digits (S (Z.to_nat (Z.log2 n))) base n String.EmptyString.

Lemma digit_of_char base d : 2 ≤ base ≤ 62 → 0 ≤ d < base →
  digit_of base (digit_char d) = Some d ∧
  digit_char d ≠ Ascii.ascii_of_nat 45 ∧ digit_char d ≠ Ascii.ascii_of_nat 43.
Proof.
  intros Hb Hd. assert (base ∈ seqZ 2 61 ∧ d ∈ seqZ 0 62) as [Hb' Hd'] by (rewrite !elem_of_seqZ; lia).
  assert (Forall (λ base, Forall (λ d, d < base →
    digit_of base (digit_char d) = Some d ∧
    digit_char d ≠ Ascii.ascii_of_nat 45 ∧ digit_char d ≠ Ascii.ascii_of_nat 43) (seqZ 0 62)) (seqZ 2 61)) as HF.
  { apply (bool_decide_unpack _). by vm_compute. }
  rewrite Forall_forall in HF. specialize (HF base Hb'). rewrite Forall_forall in HF.
  apply HF; [done|lia].
Qed.

Lemma text_digits_spec fuel base n acc : 2 ≤ base ≤ 62 → 0 ≤ n < 2 ^ Z.of_nat fuel → (0 < fuel)%nat →
  ∃ c s, text_digits fuel base n acc = String.String c s ∧
    c ≠ Ascii.ascii_of_nat 45 ∧ c ≠ Ascii.ascii_of_nat 43 ∧
    ∀ a, 0 ≤ a → ∃ k, 0 ≤ k ∧
      parse_base base a (String.String c s) = parse_base base (a * base ^ k + n) acc.
Proof.
  intros Hb. revert n acc. induction fuel as [|fuel IH]; intros n acc Hn Hf; [lia|].
  cbn [text_digits]. pose proof (Z.mod_pos_bound n base). pose proof (Z.div_mod n base).
  destruct (digit_of_char base (n mod base) Hb) as (Hd & Hm & Hp); [lia|].
  destruct (Z.ltb_spec n base) as [Hlt|Hge].
  - eexists _, _. split; [reflexivity|]. split; [done|]. split; [done|]. intros a Ha. exists 1.
    split; [lia|]. cbn [parse_base]. rewrite Hd. cbn [mbind option_bind]. f_equal.
    rewrite Z.mod_small by lia. lia.
  - rewrite Nat2Z.inj_succ, Z.pow_succ_r in Hn by lia.
    assert (0 < n / base) by (apply Z.div_str_pos; lia).
    assert (n / base < 2 ^ Z.of_nat fuel) by nia.
    destruct (IH (n / base) (String.String (digit_char (n mod base)) acc)) as (c & s & Ht & Hc1 & Hc2 & Ha).
    { lia. } { destruct fuel; [simpl in *; lia|lia]. }
    exists c, s. split; [done|]. split; [done|]. split; [done|]. intros a Ha0.
    destruct (Ha a Ha0) as (k & Hk & ->). exists (k + 1). split; [lia|].
    cbn [parse_base]. rewrite Hd. cbn [mbind option_bind]. f_equal.
    rewrite Z.pow_add_r by lia. lia.
Qed.

(** Reading what [Text] prints. *)
Lemma SetString_Text n base : 2 ≤ base ≤ 62 → 0 ≤ n → SetString (Text n base) base = Some n.
Proof.
  intros Hb Hn. pose proof (abs_lt_log2 n) as Hl. rewrite Z.abs_eq in Hl by done.
  unfold Text. destruct (text_digits_spec _ base n String.EmptyString Hb Hl) as (c & s & -> & Hm & Hp & Ha);
    [lia|]. unfold SetString. rewrite !decide_False by done.
  destruct (Ha 0) as (k & _ & ->); [done|]. simpl. f_equal.
Qed.

(** Longer numbers have longer texts. *)
Lemma text_digits_grow fuel base n acc :
  (String.length acc ≤ String.length (text_digits fuel base n acc))%nat.
Proof.
  revert n acc. induction fuel as [|fuel IH]; intros n acc; cbn [text_digits]; [done|].
  case_match; [simpl; lia|]. etrans; [|apply IH]. simpl. lia.
Qed.

Lemma text_digits_length f g base m n acc acc' : 2 ≤ base → 0 ≤ m ≤ n →
  m < 2 ^ Z.of_nat f → n < 2 ^ Z.of_nat g → (0 < f)%nat → (0 < g)%nat →
  (String.length (text_digits f base m acc) + String.length acc'
   ≤ String.length (text_digits g base n acc') + String.length acc)%nat.
Proof.
  intros Hb. revert g m n acc acc'. induction f as [|f IH]; intros [|g] m n acc acc' Hmn Hf Hg; try lia.
  intros _ _. cbn [text_digits]. rewrite Nat2Z.inj_succ, Z.pow_succ_r in Hf, Hg by lia.
  destruct (Z.ltb_spec m base) as [Hm|Hm].
  - destruct (n <? base); [simpl; lia|].
    pose proof (text_digits_grow g base (n / base) (String.String (digit_char (n mod base)) acc')). simpl in *. lia.
  - rewrite (proj2 (Z.ltb_ge n base)) by lia.
    assert (0 < m / base) by (apply Z.div_str_pos; lia).
    assert (m / base ≤ n / base) by (apply Z.div_le_mono; lia).
    pose proof (Z.div_mod m base). pose proof (Z.mod_pos_bound m base).
    pose proof (Z.div_mod n base). pose proof (Z.mod_pos_bound n base).
    assert (m / base < 2 ^ Z.of_nat f) as Hmf by nia. assert (n / base < 2 ^ Z.of_nat g) as Hng by nia.
    specialize (IH g (m / base) (n / base) (String.String (digit_char (m mod base)) acc)
      (String.String (digit_char (n mod base)) acc') ltac:(lia) Hmf Hng).
    simpl in IH. destruct f; [simpl in *; lia|]. destruct g; [simpl in *; lia|]. lia.
Qed.

Lemma Text_length base m n : 2 ≤ base → 0 ≤ m ≤ n →
  (String.length (Text m base) ≤ String.length (Text n base))%nat.
Proof.
  intros Hb Hmn. unfold Text. pose proof (abs_lt_log2 m) as Hm. pose proof (abs_lt_log2 n) as Hn.
  rewrite Z.abs_eq in Hm, Hn by lia.
  pose proof (text_digits_length _ _ base m n String.EmptyString String.EmptyString Hb Hmn
    (proj2 Hm) (proj2 Hn) ltac:(lia) ltac:(lia)). simpl in *. lia.
Qed.
