(* ===== verification/Asn1.v ===== *)
(** * Asn1: what [encoding/asn1] does for keys and signatures

    Elements, integers, object identifiers and bit strings as Go's standard library parses
    them, with the DER encodings that they invert.  [Kms] uses it. *)

From S2P Require Import Prelude BigInt.
Local Open Scope Z_scope.

(** ** Parsing *)

(** The bytes of a long length. *)
Fixpoint long_length (n : nat) (acc : Z) (b : bytes) : option (Z * bytes) :=
  match n, b with
  | O, _ => if acc <? 128 then None else Some (acc, b)   (* not minimal *)
  | S n, x :: b =>
      if 2 ^ 23 <=? acc then None
      else let acc := acc * 256 + x in
           if acc =? 0 then None else long_length n acc b
  | S _, [] => None
  end.

Definition parse_length (b : bytes) : option (Z * bytes) :=
  match b with
  | [] => None
  | x :: b =>
      if x <? 128 then Some (x, b)
      else if x =? 128 then None
      else long_length (Z.to_nat (x - 128)) 0 b
  end.

(** Length and contents, and what follows. *)
Definition parse_contents (b : bytes) : option (bytes * bytes) :=
  '(len, b) ← parse_length b;
  if Z.of_nat (length b) <? len then None
  else Some (take (Z.to_nat len) b, drop (Z.to_nat len) b).

(** An element with the tag: its contents and what follows. *)
Definition parse_element (tag : Z) (b : bytes) : option (bytes * bytes) :=
  match b with
  | t :: b => if negb (t =? tag) then None else parse_contents b
  | [] => None
  end.

(** [parseBigInt]: minimal two's complement. *)
Definition parse_int (b : bytes) : option Z :=
  match b with
  | [] => None
  | [x] => Some (if 128 <=? x then x - 256 else x)
  | x :: y :: _ =>
      if ((x =? 0) && (y <? 128)) || ((x =? 255) && (128 <=? y)) then None
      else Some (if 128 <=? x then SetBytes b - 256 ^ Z.of_nat (length b) else SetBytes b)
  end.

(** [parseBase128Int]: at most five bytes, minimal, an int32. *)
Fixpoint parse_base128 (n : nat) (acc : Z) (b : bytes) : option (Z * bytes) :=
  match n, b with
  | S n, x :: b =>
      if (acc =? 0) && (x =? 128) then None
      else let acc := acc * 128 + x mod 128 in
           if x <? 128 then (if 2 ^ 31 <=? acc then None else Some (acc, b)) else parse_base128 n acc b
  | _, _ => None
  end.

(** Any element, skipped: what follows it.  A tag number from 31 on has its own bytes. *)
Definition skip_element (b : bytes) : option bytes :=
  match b with
  | [] => None
  | t :: b =>
      b ← (if t mod 32 =? 31 then '(n, b) ← parse_base128 5 0 b; if n <? 31 then None else Some b else Some b);
      '(_, rest) ← parse_contents b; Some rest
  end.

Fixpoint parse_arcs (fuel : nat) (b : bytes) : option (list Z) :=
  match fuel, b with
  | _, [] => Some []
  | O, _ => None
  | S fuel, _ => '(x, b) ← parse_base128 5 0 b; l ← parse_arcs fuel b; Some (x :: l)
  end.

(** [parseObjectIdentifier]: the first number holds two arcs. *)
Definition parse_oid (b : bytes) : option (list Z) :=
  match parse_arcs (length b) b with
  | Some (x :: l) => Some (if x <? 80 then x / 40 :: x mod 40 :: l else 2 :: x - 80 :: l)
  | _ => None
  end.

(** [asn1.BitString]. *)
Record BitString := mkBits { Bytes : bytes; BitLength : Z }.

Definition parse_bits (b : bytes) : option BitString :=
  match b with
  | [] => None
  | padding :: b =>
      if 7 <? padding then None
      else if bool_decide (b = []) && (0 <? padding) then None
      else if negb (Z.land (default 0 (last b)) (2 ^ padding - 1) =? 0) then None
      else Some (mkBits b (Z.of_nat (length b) * 8 - padding))
  end.

(** [RightAlign]: the bytes shifted so that the padding is in front. *)
Definition RightAlign (s : BitString) : bytes :=
  let shift := 8 - BitLength s mod 8 in
  if (shift =? 8) || bool_decide (Bytes s = []) then Bytes s
  else zip_with (λ hi lo, Z.lor (Z.land (Z.shiftl hi (8 - shift)) 255) (Z.shiftr lo shift))
         (0 :: removelast (Bytes s)) (Bytes s).

(** ** DER *)

(** An element with less than 128 bytes. *)
Definition der_element (tag : Z) (contents : bytes) : bytes := [tag; Z.of_nat (length contents)] ++ contents.

(** A positive integer. *)
Definition der_int (n : Z) : bytes :=
  let b := big_Bytes n in der_element 2 (if 128 <=? b !!! 0%nat then 0 :: b else b).

Lemma parse_der_element tag c rest : (length c < 128)%nat → parse_element tag (der_element tag c ++ rest) = Some (c, rest).
Proof.
  intros Hc. unfold parse_element, parse_contents, der_element. simpl. rewrite Z.eqb_refl. simpl.
  rewrite (proj2 (Z.ltb_lt _ 128)) by lia. simpl. rewrite length_app, (proj2 (Z.ltb_ge _ _)) by lia.
  by rewrite Nat2Z.id, take_app_length, drop_app_length.
Qed.

Lemma big_Bytes_head n x b : big_Bytes n = x :: b → 0 < n → 0 < x < 256 ∧ SetBytes (x :: b) = n.
Proof.
  intros E Hn. destruct (SetBytes_big_Bytes n) as [Hs Hf]. rewrite Z.abs_eq in Hs by lia. rewrite E in Hs, Hf.
  apply Forall_cons in Hf as [Hx Hb]. unfold is_byte in Hx. split; [|done]. split; [|lia].
  destruct (decide (x = 0)) as [->|]; [exfalso|lia].
  assert (SetBytes b = n) as Hb' by (by rewrite <-Hs).
  pose proof (SetBytes_range b Hb) as Hr. rewrite Hb' in Hr.
  assert (length (big_Bytes n) ≤ length b)%nat as Hl by (apply big_Bytes_length; rewrite Z.abs_eq; lia).
  rewrite E in Hl. simpl in Hl. lia.
Qed.

Lemma parse_int_der n : 0 < n →
  parse_int (let b := big_Bytes n in if 128 <=? b !!! 0%nat then 0 :: b else b) = Some n.
Proof.
  intros Hn. destruct (big_Bytes n) as [|x b] eqn:E.
  { destruct (SetBytes_big_Bytes n) as [Hs _]. rewrite E, Z.abs_eq in Hs by lia. change (SetBytes []) with 0 in Hs. lia. }
  destruct (big_Bytes_head n x b E Hn) as [Hx <-]. simpl. destruct (Z.leb_spec 128 x) as [Hge|Hlt].
  - unfold parse_int. rewrite (proj2 (Z.ltb_ge x 128)) by lia. done.
  - destruct b as [|y b]; simpl; [by rewrite (proj2 (Z.leb_gt 128 x)) by lia|].
    rewrite (proj2 (Z.eqb_neq x 0)), (proj2 (Z.eqb_neq x 255)), (proj2 (Z.leb_gt 128 x)) by lia. done.
Qed.

Lemma der_int_short n : 0 < n < 2 ^ 256 → (length (der_int n) ≤ 35)%nat.
Proof.
  intros Hn. assert (length (big_Bytes n) ≤ 32)%nat as Hl by (apply big_Bytes_length; rewrite Z.abs_eq; [apply Hn|lia]).
  unfold der_int, der_element. rewrite length_app. simpl. destruct (128 <=? _); simpl; lia.
Qed.

(** An encoded integer is read back, and leaves what follows it. *)
Lemma parse_der_int n rest : 0 < n < 2 ^ 256 →
  ∃ c, parse_element 2 (der_int n ++ rest) = Some (c, rest) ∧ parse_int c = Some n.
Proof.
  intros Hn. pose proof (der_int_short n Hn) as Hs. unfold der_int in *. eexists.
  split; [apply parse_der_element|exact (parse_int_der n (proj1 Hn))].
  unfold der_element in Hs. rewrite length_app in Hs. simpl in Hs. lia.
Qed.

(** Whole bytes need no alignment. *)
Lemma parse_bits_bytes b : b ≠ [] → parse_bits (0 :: b) = Some (mkBits b (Z.of_nat (length b) * 8)) ∧
  RightAlign (mkBits b (Z.of_nat (length b) * 8)) = b.
Proof.
  intros Hb. split.
  - simpl. rewrite bool_decide_eq_false_2 by done. simpl. rewrite Z.land_0_r. simpl. by rewrite Z.sub_0_r.
  - unfold RightAlign. simpl. by rewrite Z.mod_mul.
Qed.

Example oid_example : parse_oid [42; 134; 72; 206; 61; 2; 1] = Some [1; 2; 840; 10045; 2; 1].
Proof. by vm_compute. Qed.

(** 1011 with four bits of padding. *)
Example bits_example : RightAlign <$> parse_bits [4; 176] = Some [11] ∧ parse_bits [4; 177] = None.
Proof. by vm_compute. Qed.
