(* ===== verification/Slices.v ===== *)
(** * Slices: Go slices over arrays that they may share

    A slice is a window of an array: its position, its length and its capacity, up to which
    [append] writes into the array and beyond which it copies.  Two slices of one array see
    what is written through either. *)

From S2P Require Import Prelude.

Record slice := mkSlice { array : nat; offset : nat; len : nat; cap : nat }.

Section memory.
Context {A : Type}.

(** The arrays that were allocated, in order. *)
Abbreviation memory := (list (list A)).

Definition contents (m : memory) (x : slice) : list A := take (len x) (drop (offset x) (m !!! array x)).

(** A new array may be larger than needed; what [append] returns here is not appended to
    again. *)
Definition append (m : memory) (x : slice) (ys : list A) : memory * slice :=
  let n := (len x + length ys)%nat in
  if decide (n ≤ cap x)%nat
  then (alter (list_inserts (offset x + len x) ys) (array x) m, mkSlice (array x) (offset x) n (cap x))
  else (m ++ [contents m x ++ ys], mkSlice (length m) 0 n n).

Definition valid (m : memory) (x : slice) : Prop :=
  (len x ≤ cap x)%nat ∧ ∃ l, m !! array x = Some l ∧ (offset x + cap x ≤ length l)%nat.

(** A position in memory that [append] of [n] elements to [x] writes to. *)
Definition written (x : slice) (n arr i : nat) : Prop :=
  (len x + n ≤ cap x)%nat ∧ arr = array x ∧ (offset x + len x ≤ i < offset x + len x + n)%nat.

#[export] Instance written_dec x n arr i : Decision (written x n arr i).
Proof. unfold written. apply _. Defined.

Definition at_ (m : memory) (arr i : nat) : option A := m !! arr ≫= (.!! i).

Lemma contents_length m x : valid m x → length (contents m x) = len x.
Proof.
  intros (Hc & l & Hl & Ho). unfold contents. rewrite (list_lookup_total_correct _ _ _ Hl), length_take, length_drop. lia.
Qed.

Lemma contents_lookup m x j : valid m x → (j < len x)%nat → contents m x !! j = at_ m (array x) (offset x + j).
Proof.
  intros (Hc & l & Hl & Ho) Hj. unfold contents, at_. rewrite Hl. simpl.
  by rewrite (list_lookup_total_correct _ _ _ Hl), lookup_take_lt, lookup_drop by lia.
Qed.

Lemma append_at m x ys : valid m x → ∀ arr i, is_Some (at_ m arr i) →
  at_ (append m x ys).1 arr i =
    if decide (written x (length ys) arr i) then ys !! (i - (offset x + len x))%nat else at_ m arr i.
Proof.
  intros (Hc & l & Hl & Ho) arr i Hi. unfold append, written. cbv zeta.
  destruct (decide (len x + length ys ≤ cap x)%nat) as [Hn|Hn]; cbn [fst].
  - unfold at_. destruct (decide (arr = array x)) as [->|Ha].
    + rewrite list_lookup_alter_eq, Hl. simpl.
      destruct (decide _) as [(_ & _ & Hr)|Hr].
      * rewrite list_lookup_inserts by lia. done.
      * destruct (decide (i < offset x + len x)%nat); [by apply list_lookup_inserts_lt|].
        apply list_lookup_inserts_ge. lia.
    + rewrite list_lookup_alter_ne by done. rewrite decide_False; [done|]. tauto.
  - rewrite decide_False by tauto. unfold at_ in *. destruct (m !! arr) as [l'|] eqn:E; [|by destruct Hi].
    by rewrite (lookup_app_l_Some _ _ _ _ E).
Qed.

Lemma append_length m x ys arr l : m !! arr = Some l → valid m x →
  ∃ l', (append m x ys).1 !! arr = Some l' ∧ length l' = length l.
Proof.
  intros Hl _. unfold append. cbv zeta. destruct (decide _); cbn [fst].
  - destruct (decide (arr = array x)) as [->|Ha].
    + eexists. rewrite list_lookup_alter_eq, Hl. split; [done|]. apply length_inserts.
    + exists l. by rewrite list_lookup_alter_ne.
  - exists l. split; [by apply lookup_app_l_Some|done].
Qed.

Lemma append_valid m x ys y : valid m x → valid m y → valid (append m x ys).1 y.
Proof.
  intros Hx (Hc & l & Hl & Ho). destruct (append_length m x ys _ _ Hl Hx) as (l' & Hl' & E).
  split; [done|]. exists l'. split; [done|lia].
Qed.

(** The result holds both parts, whether or not there was room. *)
Lemma append_contents m x ys : valid m x → contents (append m x ys).1 (append m x ys).2 = contents m x ++ ys.
Proof.
  intros Hx. pose proof (contents_length m x Hx) as Hlen. destruct Hx as (Hc & l & Hl & Ho).
  unfold append in *. cbv zeta in *. destruct (decide (len x + length ys ≤ cap x)%nat) as [Hn|Hn]; cbn [fst snd].
  - apply list_eq. intros j. unfold contents at 1. cbn [array offset len].
    rewrite (list_lookup_total_correct _ _ (list_inserts (offset x + len x) ys l)) by by rewrite list_lookup_alter_eq, Hl.
    destruct (decide (j < len x + length ys)%nat) as [Hj|Hj].
    + rewrite lookup_take_lt, lookup_drop by done. destruct (decide (j < len x)%nat) as [Hj'|Hj'].
      * rewrite list_lookup_inserts_lt, lookup_app_l by lia. unfold contents.
        by rewrite (list_lookup_total_correct _ _ _ Hl), lookup_take_lt, lookup_drop by lia.
      * rewrite list_lookup_inserts, lookup_app_r, Hlen by lia. f_equal. lia.
    + rewrite lookup_take_ge by lia. rewrite lookup_ge_None_2; [done|]. rewrite length_app. lia.
  - unfold contents at 1. cbn [array offset len]. rewrite drop_0.
    rewrite (list_lookup_total_correct _ _ (contents m x ++ ys)) by by apply list_lookup_middle.
    apply take_ge. rewrite length_app. lia.
Qed.

(** What another slice sees. *)
Definition after_append (x y : slice) (ys ws : list A) : list A :=
  imap (λ j w, if decide (written x (length ys) (array y) (offset y + j)) then default w (ys !! (offset y + j - (offset x + len x))%nat) else w) ws.

Lemma append_other m x y ys : valid m x → valid m y →
  contents (append m x ys).1 y = after_append x y ys (contents m y).
Proof.
  intros Hx Hy. pose proof (append_valid m x ys y Hx Hy) as Hy'. apply list_eq. intros j.
  unfold after_append. rewrite list_lookup_imap.
  destruct (decide (j < len y)%nat) as [Hj|Hj].
  - assert (is_Some (contents m y !! j)) as [w Hw] by (apply lookup_lt_is_Some; by rewrite contents_length).
    rewrite contents_lookup by done. rewrite Hw. rewrite contents_lookup in Hw by done.
    rewrite append_at by (done || by eexists). cbn [fmap option_fmap option_map]. destruct (decide _) as [Hwr|]; [|by rewrite Hw].
    destruct Hwr as (_ & _ & Hr). destruct (lookup_lt_is_Some_2 ys (offset y + j - (offset x + len x))%nat) as [v Hv]; [lia|].
    by rewrite Hv.
  - rewrite (lookup_ge_None_2 (contents (append m x ys).1 y)) by (rewrite contents_length by done; lia).
    by rewrite (lookup_ge_None_2 (contents m y)) by (rewrite contents_length by done; lia).
Qed.

Definition separate (x y : slice) (n : nat) : Prop :=
  (len x + n ≤ cap x)%nat → array y = array x →
  (offset y + len y ≤ offset x + len x)%nat ∨ (offset x + len x + n ≤ offset y)%nat.

Lemma after_append_separate x y ys ws : length ws = len y → separate x y (length ys) → after_append x y ys ws = ws.
Proof.
  intros Hl Hs. unfold after_append. apply list_eq. intros j. rewrite list_lookup_imap.
  destruct (ws !! j) as [w|] eqn:Hw; [|done]. simpl. rewrite decide_False; [done|].
  apply lookup_lt_Some in Hw. intros (Hc & Ha & Hr). destruct (Hs Hc Ha); lia.
Qed.
End memory.
