(* ===== verification/Shuffle.v ===== *)
(** * Shuffle: the extendable Fisher-Yates permuter of [go/shuffle/shuffle.go] *)

From S2P Require Import Prelude.

(** The [Rand] interface: [Intn r n] draws an integer and advances the source. *)
Class Rand (R : Type) := Intn : R → Z → Z * R.

(** What the interface's comment promises: the draw lies in [0,n). *)
Class RandLaw (R : Type) `{Rand R} :=
  Intn_range : ∀ r n, (0 < n)%Z → (0 ≤ (Intn r n).1 < n)%Z.

(** A tape of draws made in advance; a draw from an empty tape is 0. *)
#[export] Instance tape_rand : Rand (list nat) := λ t _,
  match t with
  | [] => (0%Z, [])
  | x :: t => (Z.of_nat x, t)
  end.

(** A lawful source: the state modulo the bound, counting up. *)
#[export] Instance mod_rand : Rand Z := λ r n, ((r mod n)%Z, (r + 1)%Z).
#[export] Instance mod_rand_law : RandLaw Z.
Proof. intros r n ?. by apply Z.mod_pos_bound. Qed.

Record FisherYates := mkFY { perm : list Z; shuffled : nat }.

Record permuteTooMany := mkTooMany { too_n : Z; too_remain : Z }.

Definition NewFisherYates (n : Z) : FisherYates := mkFY (seqZ 0 n) 0.

Definition Permutation_ (f : FisherYates) : list Z := take (shuffled f) (perm f).

Definition Size (f : FisherYates) : nat := length (perm f).

Definition Remaining (f : FisherYates) : Z :=
  u32 (Z.of_nat (length (perm f)) - Z.of_nat (shuffled f)).

(** [p[a], p[b] = p[b], p[a]]; an index outside the slice panics. *)
Definition swap (p : list Z) (a : nat) (b : Z) : option (list Z) :=
  if decide (b < 0)%Z then None
  else x ← p !! a; y ← p !! Z.to_nat b; Some (<[Z.to_nat b := x]> (<[a := y]> p)).

Section permute.
Context {R : Type} `{Rand R}.

(** The loop [for i := f.shuffled; i < max; i++], [k] iterations from [i]. *)
Fixpoint permute_loop (k i : nat) (p : list Z) (r : R) : option (list Z * R) :=
  match k with
  | O => Some (p, r)
  | S k =>
      let '(j, r) := Intn r (Z.of_nat (length p) - Z.of_nat i) in
      p ← swap p i (j + Z.of_nat i)%Z;
      permute_loop k (S i) p r
  end.

(** [Permute]: on an error the permuter is left as it was. *)
Definition Permute (f : FisherYates) (n : Z) (r : R)
    : outcome permuteTooMany (list Z * FisherYates * R) :=
  if decide (Remaining f < n)%Z then Fail (mkTooMany n (Remaining f))
  else
    let max := (shuffled f + Z.to_nat n)%nat in
    '(p, r) ← or_panic (permute_loop (Z.to_nat n) (shuffled f) (perm f) r);
    Ret (drop (shuffled f) (take max p), mkFY p max, r).

(** [PermuteUpTo] panics if [Permute] errs. *)
Definition PermuteUpTo (f : FisherYates) (n : Z) (r : R)
    : outcome permuteTooMany (list Z * FisherYates * R) :=
  match Permute f (if decide (Remaining f < n)%Z then Remaining f else n) r with
  | Fail _ => Panic
  | c => c
  end.
End permute.

Definition Grow (f : FisherYates) (delta : Z) : FisherYates :=
  let size := length (perm f) in
  mkFY (perm f ++ seqZ (Z.of_nat size) delta) (shuffled f).

Definition GrowTo (f : FisherYates) (n : Z) : FisherYates :=
  let sz := u32 (Z.of_nat (length (perm f))) in
  if decide (n < sz)%Z then f else Grow f (n - sz)%Z.

(** ** Well-formedness: the pool is a permutation of its own indices. *)

Definition wf (f : FisherYates) : Prop :=
  perm f ≡ₚ seqZ 0 (Z.of_nat (length (perm f))) ∧ shuffled f ≤ length (perm f).

Lemma swap_spec p a (b : nat) :
  a < length p → b < length p →
  ∃ p', swap p a (Z.of_nat b) = Some p' ∧ p' ≡ₚ p ∧ p' !! a = p !! b ∧
    ∀ i, i ≠ a → i ≠ b → p' !! i = p !! i.
Proof.
  intros Ha Hb. unfold swap. rewrite decide_False by lia. rewrite Nat2Z.id.
  destruct (lookup_lt_is_Some_2 p a Ha) as [x Hx].
  destruct (lookup_lt_is_Some_2 p b Hb) as [y Hy].
  rewrite Hx, Hy. simpl. eexists. split; [done|]. split_and!.
  - destruct (decide (a = b)) as [->|Hne].
    + rewrite list_insert_insert_eq. simplify_eq. by rewrite list_insert_id.
    + apply Permutation_inj. rewrite !length_insert. split; [done|].
      exists (λ i, if decide (i = a) then b else if decide (i = b) then a else i).
      split.
      * intros i j. repeat case_decide; congruence.
      * intros i. repeat case_decide; subst.
        -- rewrite list_lookup_insert_ne, list_lookup_insert_eq by done. done.
        -- rewrite list_lookup_insert_eq by (by rewrite length_insert). done.
        -- by rewrite !list_lookup_insert_ne by done.
  - destruct (decide (a = b)) as [->|Hne].
    + rewrite list_lookup_insert_eq by (by rewrite length_insert). congruence.
    + by rewrite list_lookup_insert_ne, list_lookup_insert_eq by done.
  - intros i ??. by rewrite !list_lookup_insert_ne by done.
Qed.

Lemma take_eq_lookup {A} (k : nat) (l l' : list A) :
  length l = length l' → (∀ i, i < k → l !! i = l' !! i) → take k l = take k l'.
Proof.
  intros Hlen H. apply list_eq. intros i.
  destruct (decide (i < k)).
  - rewrite !lookup_take_lt by lia. auto.
  - by rewrite !lookup_take_ge by lia.
Qed.

Lemma swap_take p a (b : nat) p' k :
  a < length p → b < length p → k ≤ a → k ≤ b →
  swap p a (Z.of_nat b) = Some p' → take k p' = take k p.
Proof.
  intros Ha Hb ?? Hs. destruct (swap_spec p a b Ha Hb) as (p'' & ? & HP & _ & Hl).
  simplify_eq. apply take_eq_lookup; [by rewrite HP|].
  intros i ?. apply Hl; lia.
Qed.

Section loop.
Context {R : Type} `{RandLaw R}.

Lemma permute_loop_spec k i p r :
  i + k ≤ length p →
  ∃ p' r', permute_loop k i p r = Some (p', r') ∧ p' ≡ₚ p ∧ take i p' = take i p.
Proof.
  revert i p r. induction k as [|k IH]; intros i p r Hk; cbn [permute_loop].
  { eauto. }
  pose proof (Intn_range r (Z.of_nat (length p) - Z.of_nat i)) as Hj.
  destruct (Intn r _) as [j r1]; simpl in *.
  destruct (swap_spec p i (Z.to_nat j + i)) as (p1 & Hs & HP & _ & Hl); [lia..|].
  replace (Z.of_nat (Z.to_nat j + i)) with (j + Z.of_nat i)%Z in Hs by lia.
  rewrite Hs. simpl.
  destruct (IH (S i) p1 r1) as (p2 & r2 & -> & HP2 & Ht).
  { rewrite HP. lia. }
  exists p2, r2. split_and!; [done|by rewrite HP2|].
  apply (f_equal (take i)) in Ht. rewrite !take_take, !Nat.min_l in Ht by lia.
  rewrite Ht. apply (swap_take p i (Z.to_nat j + i)); [lia..|].
  by replace (Z.of_nat (Z.to_nat j + i)) with (j + Z.of_nat i)%Z by lia.
Qed.
End loop.

Lemma Remaining_range f : (0 ≤ Remaining f < 2 ^ 32)%Z.
Proof. by apply uwrap_range. Qed.

Lemma Remaining_le f :
  shuffled f ≤ length (perm f) →
  (Remaining f ≤ Z.of_nat (length (perm f)) - Z.of_nat (shuffled f))%Z.
Proof. intros. unfold Remaining, uwrap. apply Z.mod_le; lia. Qed.

Lemma Remaining_small f :
  shuffled f ≤ length (perm f) → (Z.of_nat (length (perm f)) < 2 ^ 32)%Z →
  Remaining f = (Z.of_nat (length (perm f)) - Z.of_nat (shuffled f))%Z.
Proof. intros. apply uwrap_small. lia. Qed.

Lemma wf_New n : (0 ≤ n)%Z → wf (NewFisherYates n).
Proof. intros. split; simpl; [|lia]. rewrite length_seqZ. by rewrite Z2Nat.id. Qed.

Lemma wf_Grow f d : (0 ≤ d)%Z → wf f → wf (Grow f d).
Proof.
  intros Hd [HP Hs]. split; simpl; [|rewrite length_app; lia].
  rewrite length_app, length_seqZ, Nat2Z.inj_add, Z2Nat.id by done.
  rewrite seqZ_app by lia. by apply Permutation_app_tail.
Qed.

Lemma Grow_Permutation f d : shuffled f ≤ length (perm f) →
  Permutation_ (Grow f d) = Permutation_ f.
Proof. intros. unfold Permutation_. simpl. by rewrite take_app_le. Qed.

Lemma wf_GrowTo f n : wf f → wf (GrowTo f n).
Proof. intros. unfold GrowTo. case_decide; [done|]. apply wf_Grow; [lia|done]. Qed.

Lemma GrowTo_Permutation f n : wf f → Permutation_ (GrowTo f n) = Permutation_ f.
Proof. intros [_ ?]. unfold GrowTo. case_decide; [done|]. by apply Grow_Permutation. Qed.

Section permute_props.
Context {R : Type} `{RandLaw R}.

Lemma Permute_ok f n r :
  wf f → (0 ≤ n ≤ Remaining f)%Z →
  ∃ chosen f' r', Permute f n r = Ret (chosen, f', r') ∧ wf f' ∧
    length chosen = Z.to_nat n ∧ Size f' = Size f ∧
    Permutation_ f' = Permutation_ f ++ chosen.
Proof.
  intros [HP Hs] Hn. unfold Permute. pose proof (Remaining_le f Hs).
  rewrite decide_False by lia.
  destruct (permute_loop_spec (Z.to_nat n) (shuffled f) (perm f) r)
    as (p & r' & Hl & HPp & Ht); [lia|].
  rewrite Hl. simpl. eexists _, _, _. split; [done|].
  assert (length p = length (perm f)) as Hlen by (by rewrite HPp).
  split_and!.
  - split; simpl; rewrite Hlen; [by rewrite HPp|lia].
  - rewrite length_drop, length_take. lia.
  - done.
  - unfold Permutation_. simpl. rewrite <-Ht.
    rewrite <-(take_drop (shuffled f) (take _ p)) at 1. rewrite take_take.
    by rewrite Nat.min_l by lia.
Qed.

Lemma Permute_too_many f n r :
  (Remaining f < n)%Z → Permute f n r = Fail (mkTooMany n (Remaining f)).
Proof. intros. unfold Permute. by rewrite decide_True. Qed.

Lemma PermuteUpTo_eq f n r :
  wf f → (0 ≤ n)%Z → PermuteUpTo f n r = Permute f (n `min` Remaining f) r.
Proof.
  intros Hwf Hn. unfold PermuteUpTo. pose proof (Remaining_range f).
  replace (if decide _ then _ else _) with (n `min` Remaining f)%Z
    by (case_decide; lia).
  by destruct (Permute_ok f (n `min` Remaining f) r Hwf) as (?&?&?&->&_); [lia|].
Qed.

(** One call of the exported API; arguments are uint32. *)
Inductive step : FisherYates * R → FisherYates * R → Prop :=
| step_Permute f r n c f' r' : (0 ≤ n < 2 ^ 32)%Z →
    Permute f n r = Ret (c, f', r') → step (f, r) (f', r')
| step_PermuteUpTo f r n c f' r' : (0 ≤ n < 2 ^ 32)%Z →
    PermuteUpTo f n r = Ret (c, f', r') → step (f, r) (f', r')
| step_Grow f r d : (0 ≤ d < 2 ^ 32)%Z → step (f, r) (Grow f d, r)
| step_GrowTo f r n : (0 ≤ n < 2 ^ 32)%Z → step (f, r) (GrowTo f n, r).

Lemma Permute_Ret f n r c f' r' :
  wf f → (0 ≤ n)%Z → Permute f n r = Ret (c, f', r') →
  wf f' ∧ Permutation_ f' = Permutation_ f ++ c.
Proof.
  intros Hwf ? HR. destruct (decide (Remaining f < n)%Z).
  { by rewrite Permute_too_many in HR. }
  destruct (Permute_ok f n r Hwf) as (?&?&?&He&?&?&?&?); [lia|].
  rewrite HR in He. by simplify_eq.
Qed.

Lemma step_wf s s' : step s s' → wf s.1 → wf s'.1 ∧
  Permutation_ s.1 `prefix_of` Permutation_ s'.1.
Proof.
  destruct 1 as [f r n c f' r' Hn HP|f r n c f' r' Hn HP|f r d|f r n]; intros Hwf; simpl in *.
  - apply Permute_Ret in HP as [? ->]; [|done|lia]. split; [done|by eexists].
  - rewrite PermuteUpTo_eq in HP by (done || lia).
    pose proof (Remaining_range f).
    apply Permute_Ret in HP as [? ->]; [|done|lia]. split; [done|by eexists].
  - split; [apply wf_Grow; [lia|done]|]. by rewrite Grow_Permutation by apply Hwf.
  - split; [by apply wf_GrowTo|]. by rewrite GrowTo_Permutation.
Qed.

Lemma steps_wf s s' : rtc step s s' → wf s.1 → wf s'.1 ∧
  Permutation_ s.1 `prefix_of` Permutation_ s'.1.
Proof.
  induction 1 as [s|s s1 s' Hs _ IH]; intros Hwf; [done|].
  destruct (step_wf _ _ Hs Hwf) as [H1 ?]. destruct (IH H1) as [? ?].
  split; [done|]. by etrans.
Qed.

Lemma wf_Permutation f : wf f → NoDup (Permutation_ f) ∧
  ∀ x, x ∈ Permutation_ f → (0 ≤ x < Z.of_nat (Size f))%Z.
Proof.
  intros [HP Hs]. unfold Permutation_, Size. split.
  - eapply (NoDup_app _ (drop (shuffled f) (perm f))).
    rewrite take_drop. rewrite HP. apply NoDup_seqZ.
  - intros x Hx. enough (x ∈ seqZ 0 (Z.of_nat (length (perm f)))) as ?%elem_of_seqZ by lia.
    rewrite <-HP.
    rewrite <-(take_drop (shuffled f) (perm f)). set_solver.
Qed.
End permute_props.

(** ** Every result is reached by exactly one tape of draws *)

(** Draws a lawful source can make when the first of them is from [m]. *)
Fixpoint valid_tape (m : nat) (t : list nat) : Prop :=
  match t with
  | [] => True
  | x :: t => x < m ∧ valid_tape (m - 1) t
  end.

Lemma swap_front_drop p i c y p' :
  i + c < length p → NoDup p → p !! (i + c) = Some y →
  swap p i (Z.of_nat (i + c)) = Some p' →
  drop i p ≡ₚ y :: drop (S i) p' ∧ NoDup p' ∧ length p' = length p ∧ p' !! i = Some y ∧
  take i p' = take i p.
Proof.
  intros Hlt Hnd Hy Hs.
  destruct (swap_spec p i (i + c)) as (p1 & Hs1 & HP & Hi & Hl); [lia..|].
  assert (p1 = p') as -> by congruence. clear Hs1.
  assert (Ht : take i p' = take i p) by (apply (swap_take p i (i + c)); lia || done).
  split_and!; [|by rewrite HP|by rewrite HP|congruence|done].
  apply (Permutation_app_inv_l (take i p)). rewrite take_drop, <-HP at 1.
  rewrite <-(take_drop i p') at 1. rewrite Ht. f_equiv.
  by rewrite (drop_S p' y i) by congruence.
Qed.

Lemma NoDup_lookup_drop (p : list Z) i y :
  NoDup p → y ∈ drop i p → ∃ c, i + c < length p ∧ p !! (i + c) = Some y ∧
    ∀ c', p !! (i + c') = Some y → c' = c.
Proof.
  intros Hnd [c Hc]%list_elem_of_lookup. rewrite lookup_drop in Hc.
  exists c. split_and!; [by eapply lookup_lt_Some|done|].
  intros c' Hc'. pose proof (NoDup_lookup _ _ _ _ Hnd Hc Hc'). lia.
Qed.

Lemma loop_keeps_tape k i p t p' r' :
  i + k ≤ length p → length t = k → valid_tape (length p - i) t →
  permute_loop k i p t = Some (p', r') → r' = [] ∧ take i p' = take i p ∧ length p' = length p.
Proof.
  revert i p t. induction k as [|k IH]; intros i p t Hk Hlen Hv; cbn [permute_loop].
  { intros [= <- <-]. by destruct t. }
  destruct t as [|x t]; [done|]. simpl in *. destruct Hv as [Hx Hv].
  destruct (swap_spec p i (i + x)) as (p1 & Hs & HP & _ & _); [lia..|].
  rewrite Z.add_comm, <-Nat2Z.inj_add, Hs. simpl. intros Hl.
  assert (length p1 = length p) as Hlp by by rewrite HP.
  destruct (IH (S i) p1 t) as (-> & Ht & ->); [lia..| |done|].
  { rewrite Hlp. by replace (length p - S i) with (length p - i - 1) by lia. }
  split_and!; [done| |done].
  apply (f_equal (take i)) in Ht. rewrite !take_take, !Nat.min_l in Ht by lia.
  rewrite Ht. by apply (swap_take p i (i + x)); [lia..|].
Qed.

Lemma loop_head (q p' : list Z) i k y :
  q !! i = Some y → length p' = length q → i + S k ≤ length q →
  take (S i) p' = take (S i) q →
  drop i (take (i + S k) p') = y :: drop (S i) (take (S i + k) p').
Proof.
  intros Hq Hl ? Hp. replace (i + S k) with (S i + k) by lia. apply drop_S.
  rewrite lookup_take_lt by lia.
  by rewrite <-(lookup_take_lt p' (S i)), Hp, lookup_take_lt by lia.
Qed.

Lemma loop_exists k i p ys :
  i + k ≤ length p → NoDup p → length ys = k → NoDup ys →
  (∀ y, y ∈ ys → y ∈ drop i p) →
  ∃ t p', length t = k ∧ valid_tape (length p - i) t ∧
    permute_loop k i p t = Some (p', []) ∧ drop i (take (i + k) p') = ys.
Proof.
  revert i p ys. induction k as [|k IH]; intros i p ys Hk Hnd Hlen Hndy Hin.
  { destruct ys; [|done]. exists [], p. split_and!; [done..|].
    apply skipn_all2. rewrite length_take. lia. }
  destruct ys as [|y ys]; [done|]. simpl in Hlen. apply NoDup_cons in Hndy as [Hy Hndy].
  destruct (NoDup_lookup_drop p i y Hnd) as (c & Hc & Hpc & _); [apply Hin; left|].
  destruct (swap_spec p i (i + c)) as (p1 & Hs & _); [lia..|].
  destruct (swap_front_drop p i c y p1 Hc Hnd Hpc Hs) as (HP & Hnd1 & Hl1 & Hi & Ht).
  destruct (IH (S i) p1 ys) as (t & p' & Hlt & Hv & Hloop & Hd); [lia|done|lia|done| |].
  { intros z Hz. assert (z ∈ drop i p) as Hz' by (apply Hin; by right).
    rewrite HP in Hz'. apply elem_of_cons in Hz' as [->|]; done. }
  rewrite Hl1 in Hv.
  exists (c :: t), p'. simpl. split; [lia|]. split; [split; [lia|]|split].
  - by replace (length p - i - 1) with (length p - S i) by lia.
  - by rewrite Z.add_comm, <-Nat2Z.inj_add, Hs.
  - destruct (loop_keeps_tape k (S i) p1 t p' []) as (_ & Ht' & Hl'); [lia|done|by rewrite Hl1|done|].
    by rewrite (loop_head p1 p' i k y), Hd by (done || lia).
Qed.

Lemma loop_unique k i p ys t1 t2 p1 p2 :
  i + k ≤ length p → NoDup p → length t1 = k → length t2 = k →
  valid_tape (length p - i) t1 → valid_tape (length p - i) t2 →
  permute_loop k i p t1 = Some (p1, []) → permute_loop k i p t2 = Some (p2, []) →
  drop i (take (i + k) p1) = ys → drop i (take (i + k) p2) = ys → t1 = t2.
Proof.
  revert i p ys t1 t2. induction k as [|k IH]; intros i p ys t1 t2 Hk Hnd H1 H2 V1 V2.
  { by destruct t1, t2. }
  destruct t1 as [|x1 t1], t2 as [|x2 t2]; [done..|]. simpl in *.
  destruct V1 as [Hx1 V1], V2 as [Hx2 V2].
  rewrite !(Z.add_comm _ (Z.of_nat i)), <-!Nat2Z.inj_add.
  destruct (lookup_lt_is_Some_2 p (i + x1)) as [y1 Hy1]; [lia|].
  destruct (lookup_lt_is_Some_2 p (i + x2)) as [y2 Hy2]; [lia|].
  destruct (swap_spec p i (i + x1)) as (q1 & Hs1 & _); [lia..|].
  destruct (swap_spec p i (i + x2)) as (q2 & Hs2 & _); [lia..|].
  rewrite Hs1, Hs2. simpl. intros L1 L2 D1 D2.
  destruct (swap_front_drop p i x1 y1 q1) as (_ & N1 & E1 & I1 & _); [lia|done..|].
  destruct (swap_front_drop p i x2 y2 q2) as (_ & N2 & E2 & I2 & _); [lia|done..|].
  replace (length p - i - 1) with (length p - S i) in V1, V2 by lia.
  rewrite <-E1 in V1. rewrite <-E2 in V2.
  destruct (loop_keeps_tape k (S i) q1 t1 p1 []) as (_ & T1 & G1); [lia|lia|done..|].
  destruct (loop_keeps_tape k (S i) q2 t2 p2 []) as (_ & T2 & G2); [lia|lia|done..|].
  rewrite (loop_head q1 p1 i k y1) in D1 by (done || lia).
  rewrite (loop_head q2 p2 i k y2) in D2 by (done || lia).
  assert (y1 = y2) as -> by congruence.
  assert (x1 = x2) as -> by (pose proof (NoDup_lookup _ _ _ _ Hnd Hy1 Hy2); lia).
  assert (q1 = q2) as -> by congruence. f_equal.
  eapply (IH (S i) q2 (drop (S i) (take (S i + k) p2))); try done; try lia; congruence.
Qed.

Lemma wf_NoDup f : wf f → NoDup (perm f).
Proof. intros [-> _]. apply NoDup_seqZ. Qed.

Lemma wf_210 : wf (mkFY [2; 1; 0]%Z 1).
Proof.
  split; [|simpl; lia]. change (seqZ 0 _) with (reverse [2; 1; 0]%Z).
  symmetry. apply reverse_Permutation.
Qed.

Lemma length_drop_sub {A} i (l : list A) : i ≤ length l → i + length (drop i l) = length l.
Proof. rewrite length_drop. lia. Qed.

Lemma NoDup_subset_length (l k : list Z) :
  NoDup l → (∀ x, x ∈ l → x ∈ k) → length l ≤ length k.
Proof. intros ??. by apply submseteq_length, NoDup_submseteq. Qed.

(** ** Properties *)

(** C15. [Permute(n)] errs exactly when fewer than [n] values are unshuffled (the
    error carries both numbers); otherwise it returns exactly [n] values, which
    are appended to [Permutation()], keeps the pool size and keeps the pool a
    permutation of its indices.  With a lawful source it never panics. *)
Theorem Permute_correct {R} `{RandLaw R} f n (r : R) :
  wf f → (0 ≤ n)%Z → (Z.of_nat (Size f) < 2 ^ 32)%Z →
  let remain := (Z.of_nat (Size f) - Z.of_nat (shuffled f))%Z in
  match Permute f n r with
  | Ret (chosen, f', r') =>
      (n ≤ remain)%Z ∧ Z.of_nat (length chosen) = n ∧ wf f' ∧ Size f' = Size f ∧
      Permutation_ f' = Permutation_ f ++ chosen ∧ NoDup (Permutation_ f')
  | Fail e => (remain < n)%Z ∧ e = mkTooMany n remain
  | Panic => False
  end.
Proof.
  intros Hwf Hn Hsz remain.
  assert (Remaining f = remain) as Hr by (apply Remaining_small; [apply Hwf|done]).
  destruct (decide (Remaining f < n)%Z).
  - rewrite Permute_too_many by done. rewrite Hr in *. done.
  - destruct (Permute_ok f n r Hwf) as (c&f'&r'&->&Hwf'&?&?&?); [lia|].
    split_and!; try done; [lia..|]. by apply wf_Permutation.
Qed.

Lemma Permute_correct_witness :
  match Permute (mkFY [2; 1; 0]%Z 1) 2%Z 7%Z with
  | Ret (chosen, f', _) => (2 ≤ 2)%Z ∧ Z.of_nat (length chosen) = 2%Z ∧ wf f' ∧
      Size f' = 3 ∧ Permutation_ f' = [2%Z] ++ chosen ∧ NoDup (Permutation_ f')
  | Fail e => (2 < 2)%Z ∧ e = mkTooMany 2 2
  | Panic => False
  end.
Proof.
  exact (Permute_correct (mkFY [2; 1; 0]%Z 1) 2 7%Z wf_210 ltac:(lia) ltac:(zconst)).
Defined.

(** C16. Over every sequence of [Permute], [PermuteUpTo], [Grow] and [GrowTo] calls
    (any sizes, also past 2^32, where [Remaining] wraps) the pool stays a
    permutation of [0, Size()); [Permutation()] never repeats a value, only holds
    indices of the pool, and is only ever extended at its end. *)
Theorem pool_invariant {R} `{RandLaw R} n (r0 : R) f r f' r' :
  (0 ≤ n < 2 ^ 32)%Z →
  rtc step (NewFisherYates n, r0) (f, r) → rtc step (f, r) (f', r') →
  perm f ≡ₚ seqZ 0 (Z.of_nat (Size f)) ∧ NoDup (Permutation_ f) ∧
  (∀ x, x ∈ Permutation_ f → (0 ≤ x < Z.of_nat (Size f))%Z) ∧
  Permutation_ f `prefix_of` Permutation_ f'.
Proof.
  intros Hn H1 H2. destruct (steps_wf _ _ H1) as [Hwf _]; [apply wf_New; lia|].
  destruct (steps_wf _ _ H2 Hwf) as [_ ?]. destruct (wf_Permutation _ Hwf).
  split_and!; try done. apply Hwf.
Qed.

Lemma pool_invariant_witness :
  let f := mkFY [1; 0; 2]%Z 2 in
  perm f ≡ₚ seqZ 0 3 ∧ NoDup (Permutation_ f) ∧
  (∀ x, x ∈ Permutation_ f → (0 ≤ x < 3)%Z) ∧
  Permutation_ f `prefix_of` [1; 0; 2]%Z.
Proof.
  apply (pool_invariant 2 5%Z (mkFY [1; 0; 2]%Z 2) 7%Z (mkFY [1; 0; 2]%Z 3) 8%Z); [zconst| |].
  - eapply rtc_l; [eapply (step_Permute _ 5%Z 2); [zconst|vm_compute; reflexivity]|].
    apply rtc_once. exact (step_Grow (mkFY [1; 0]%Z 2) 7%Z 1 ltac:(zconst)).
  - apply rtc_once. by eapply (step_PermuteUpTo _ 7%Z 9); [zconst|vm_compute].
Defined.

(** C35. The shuffle can yield every outcome, each in exactly one way: for every
    duplicate-free list of [n] values from the unshuffled part of the pool there
    is exactly one sequence of draws (the k-th from [0, Remaining()-k)) for which
    [Permute(n)] returns that list; uniform draws therefore give a uniform
    permutation. *)
Theorem Permute_bijective f n ys :
  wf f → (Z.of_nat (Size f) < 2 ^ 32)%Z → length ys = n → NoDup ys →
  (∀ y, y ∈ ys → y ∈ drop (shuffled f) (perm f)) →
  exists! t : list nat, length t = n ∧ valid_tape (Size f - shuffled f) t ∧
    ∃ f', Permute f (Z.of_nat n) t = Ret (ys, f', []).
Proof.
  intros Hwf Hsz Hn Hnd Hin. pose proof (wf_NoDup f Hwf) as Hp. destruct Hwf as [HP Hs].
  assert (shuffled f + n ≤ length (perm f)) as Hle.
  { rewrite <-Hn, <-(length_drop_sub (shuffled f) (perm f) Hs).
    apply Nat.add_le_mono_l. by apply NoDup_subset_length. }
  assert (tape_ret : ∀ t, length t = n → valid_tape (Size f - shuffled f) t →
    (∃ f', Permute f (Z.of_nat n) t = Ret (ys, f', [])) ↔
    ∃ p', permute_loop n (shuffled f) (perm f) t = Some (p', []) ∧
          drop (shuffled f) (take (shuffled f + n) p') = ys).
  { intros t _ _. unfold Permute. rewrite Remaining_small, decide_False, Nat2Z.id by (done || lia).
    destruct (permute_loop _ _ _ _) as [[p r]|]; simpl; split; intros; solve_outcome. }
  destruct (loop_exists n (shuffled f) (perm f) ys) as (t & p' & Ht & Hv & Hl & Hd); [done..|].
  exists t. split.
  - split_and!; [done..|]. apply tape_ret; eauto.
  - intros t' (Ht' & Hv' & (p'' & Hl' & Hd')%tape_ret); [|done..].
    by eapply (loop_unique n (shuffled f) (perm f) ys).
Qed.

Lemma Permute_bijective_witness :
  exists! t : list nat, length t = 2 ∧ valid_tape 3 t ∧
    ∃ f', Permute (NewFisherYates 3) 2 t = Ret ([2; 0]%Z, f', []).
Proof.
  apply (Permute_bijective (NewFisherYates 3) 2 [2; 0]%Z).
  - apply wf_New; lia.
  - zconst.
  - reflexivity.
  - apply NoDup_cons; split; [set_solver|apply NoDup_singleton].
  - simpl. set_solver.
Defined.
