(* ===== verification/Switch.v ===== *)
(** * Switch: what an on/off switch promises the goroutines that share it

    The specification of [go/sync/toggle.go] as its clients see it: the calls of all
    goroutines take effect one at a time, in some order, on a single boolean.  [Toggle]
    implements it; [Wallet] relies on it. *)

From S2P Require Import Prelude.

(** A call that took effect: [Set(b)], a [Wait] that got through, a [Wait] whose context was
    cancelled, and a [State] that returned [b]. *)
Inductive event := ESet (b : bool) | EWait | ECancel | EState (b : bool).

(** The event on a switch that is [on]; [None] when the switch forbids it. *)
Definition effect (on : bool) (e : event) : option bool :=
  match e with
  | ESet b => Some b
  | EWait => if on then Some on else None
  | ECancel => Some on
  | EState b => if Bool.eqb b on then Some on else None
  end.

(** A history: events with the goroutines that called. *)
Abbreviation history := (list (nat * event)).

Fixpoint replay (on : bool) (h : history) : option bool :=
  match h with
  | [] => Some on
  | (_, e) :: h => on ← effect on e; replay on h
  end.

Definition events_of (i : nat) (h : history) : list event := snd <$> filter (λ ie, ie.1 = i) h.

(** The values that were set. *)
Definition sets (h : history) : list bool := omap (λ ie, match ie.2 with ESet b => Some b | _ => None end) h.

(** What a shared switch is to a client: the histories that its runs can have, and that each
    of them is one of a switch that starts off. *)
Class Switch (C : Type) := histories : C → history → Prop.
Class SwitchLaws (C : Type) `{Switch C} := histories_replay : ∀ c h, histories c h → is_Some (replay false h).

Lemma replay_app on h h' : replay on (h ++ h') = on' ← replay on h; replay on' h'.
Proof. revert on. induction h as [|[i e] h IH]; intros on; simpl; [done|]. destruct (effect on e); simpl; auto. Qed.

Lemma sets_app h h' : sets (h ++ h') = sets h ++ sets h'.
Proof. apply omap_app. Qed.

Lemma events_of_app i h h' : events_of i (h ++ h') = events_of i h ++ events_of i h'.
Proof. unfold events_of. by rewrite filter_app, fmap_app. Qed.

Lemma events_of_other i j o : i ≠ j → events_of j (option_list (pair i <$> o)) = [].
Proof. intros Hij. destruct o; [|done]. unfold events_of. simpl. by rewrite filter_cons_False. Qed.

Lemma events_of_same i o : events_of i (option_list (pair i <$> o)) = option_list o.
Proof. destruct o; [|done]. unfold events_of. simpl. by rewrite filter_cons_True. Qed.

(** A switch is as it was last set. *)
Lemma replay_last on h on' : replay on h = Some on' → on' = default on (last (sets h)).
Proof.
  revert on'. induction h as [|[i e] h IH] using rev_ind; intros on'; [by intros [= <-]|].
  rewrite replay_app, sets_app. destruct (replay on h) as [on1|] eqn:E; [|done].
  specialize (IH on1 eq_refl). destruct e as [b| | |b]; cbn -[sets]; unfold sets; simpl.
  - intros [= <-]. by rewrite last_snoc.
  - rewrite app_nil_r. destruct on1; [|done]. by intros [= <-].
  - rewrite app_nil_r. by intros [= <-].
  - rewrite app_nil_r. destruct (Bool.eqb b on1); [|done]. by intros [= <-].
Qed.

(** A [Wait] gets through only after the switch was turned on and before it is turned off. *)
Lemma wait_after_set {C} `{SwitchLaws C} (c : C) h1 i h2 :
  histories c (h1 ++ (i, EWait) :: h2) → last (sets h1) = Some true.
Proof.
  intros [on Hr]%histories_replay. rewrite replay_app in Hr. destruct (replay false h1) as [on1|] eqn:E; [|done].
  apply replay_last in E. simpl in Hr. destruct on1; [|done]. destruct (last (sets h1)); simpl in E; congruence.
Qed.
