(* ===== verification/Toggle.v ===== *)
(** * Toggle: the concurrent on/off switch of [go/sync/toggle.go]

    Goroutines run lists of calls on one shared [Toggle].  A configuration holds
    the mutex, the state, the one-item channel and the goroutines; a step lets one
    goroutine execute up to its next blocking point.  A send on a closed channel
    or a second close crashes the process. *)

From S2P Require Import Prelude Switch.

(** The channel made with [make(chan struct{}, 1)]: is the item in the buffer,
    and is the channel closed. *)
Record chan := mkChan { buf : bool; closed : bool }.

Record Toggle := mkToggle {
  mu : option nat;        (* the goroutine that holds the mutex *)
  state : bool;
  signal : option chan    (* [None] is the nil channel *)
}.

(** The zero value. *)
Definition newToggle : Toggle := mkToggle None false None.

Definition with_signal (t : Toggle) (ch : chan) : Toggle := mkToggle (mu t) (state t) (Some ch).

(** [CWait c]: the context may be cancelled at any time if [c], never otherwise. *)
Inductive call := CSet (b : bool) | CWait (cancellable : bool) | CClose | CState.

Inductive result := RSet | RWaitNil | RWaitClosed | RWaitCtx | RClose | RState (b : bool).

(** Where a goroutine is: between calls, in [Set] holding the mutex before its
    channel operation, in [Wait] at the select, in [Wait] holding the received
    item, in [Close] before the close. *)
Inductive pc := Idle | InSet (b : bool) | InWait (cancellable : bool) | Holding | InClose.

Record thread := mkThread { at_ : pc; todo : list call; rets : list result }.

Inductive tstep_result := Blocked | Crash | Stepped (t : Toggle) (th : thread).

Definition sigChanWhenAlreadyLocked (t : Toggle) : Toggle :=
  match signal t with
  | None => with_signal t (mkChan false false)
  | Some _ => t
  end.

(** [sigChan] locks, makes the channel if it is nil, and unlocks: it runs only
    while no [Set] holds the mutex. *)
Definition sigChan (t : Toggle) : option Toggle :=
  match mu t with
  | Some _ => None
  | None => Some (sigChanWhenAlreadyLocked t)
  end.

Definition finish (th : thread) (r : result) : thread := mkThread Idle (todo th) (rets th ++ [r]).

(** [ch <- struct{}{}] *)
Definition send (t : Toggle) : option (option Toggle) :=
  match signal t with
  | None => None
  | Some ch =>
      if closed ch then Some None
      else if buf ch then None
      else Some (Some (with_signal t (mkChan true false)))
  end.

(** [x, ok := <-ch]: the item and [ok]; [None] blocks. *)
Definition recv (t : Toggle) : option (bool * Toggle) :=
  match signal t with
  | None => None
  | Some ch =>
      if buf ch then Some (true, with_signal t (mkChan false (closed ch)))
      else if closed ch then Some (false, t)
      else None
  end.

Definition unlock (t : Toggle) : Toggle := mkToggle None (state t) (signal t).

(** [Set(b)] up to its channel operation. *)
Definition Set_lock (i : nat) (b : bool) (t : Toggle) (th : thread) : tstep_result :=
  match mu t with
  | Some _ => Blocked
  | None =>
      if Bool.eqb b (state t) then Stepped t (finish th RSet)
      else Stepped (sigChanWhenAlreadyLocked (mkToggle (Some i) b (signal t)))
             (mkThread (InSet b) (todo th) (rets th))
  end.

(** The send or receive of [Set(b)], then the deferred unlock. *)
Definition Set_signal (b : bool) (t : Toggle) (th : thread) : tstep_result :=
  if b then
    match send t with
    | None => Blocked
    | Some None => Crash
    | Some (Some t) => Stepped (unlock t) (finish th RSet)
    end
  else
    match recv t with
    | None => Blocked
    | Some (_, t) => Stepped (unlock t) (finish th RSet)
    end.

(** The select of [Wait]; [alt] takes the [ctx.Done()] branch. *)
Definition Wait_select (cancellable alt : bool) (t : Toggle) (th : thread) : tstep_result :=
  if alt then if cancellable then Stepped t (finish th RWaitCtx) else Blocked
  else
    match recv t with
    | None => Blocked
    | Some (false, t) => Stepped t (finish th RWaitClosed)
    | Some (true, t) => Stepped t (mkThread Holding (todo th) (rets th))
    end.

(** [ch <- x; return nil] *)
Definition Wait_return (t : Toggle) (th : thread) : tstep_result :=
  match send t with
  | None => Blocked
  | Some None => Crash
  | Some (Some t) => Stepped t (finish th RWaitNil)
  end.

Definition Close_chan (t : Toggle) (th : thread) : tstep_result :=
  match signal t with
  | None => Crash
  | Some ch =>
      if closed ch then Crash
      else Stepped (with_signal t (mkChan (buf ch) true)) (finish th RClose)
  end.

Definition start (i : nat) (c : call) (t : Toggle) (th : thread) : tstep_result :=
  match c with
  | CSet b => Set_lock i b t th
  | CWait cc =>
      match sigChan t with
      | None => Blocked
      | Some t => Stepped t (mkThread (InWait cc) (todo th) (rets th))
      end
  | CClose =>
      match sigChan t with
      | None => Blocked
      | Some t => Stepped t (mkThread InClose (todo th) (rets th))
      end
  | CState =>
      match mu t with
      | Some _ => Blocked
      | None => Stepped t (finish th (RState (state t)))
      end
  end.

(** One step of goroutine [i]; [alt] is the [ctx.Done()] branch of a select. *)
Definition tstep (i : nat) (alt : bool) (t : Toggle) (th : thread) : tstep_result :=
  match at_ th, alt with
  | InWait c, _ => Wait_select c alt t th
  | _, true => Blocked
  | Idle, false =>
      match todo th with
      | [] => Blocked
      | c :: cs => start i c t (mkThread Idle cs (rets th))
      end
  | InSet b, false => Set_signal b t th
  | Holding, false => Wait_return t th
  | InClose, false => Close_chan t th
  end.

(** [None] is the crashed process. *)
Definition config : Type := option (Toggle * list thread).

Definition cstep (i : nat) (alt : bool) (c : config) : option config :=
  match c with
  | None => None
  | Some (t, ths) =>
      th ← ths !! i;
      match tstep i alt t th with
      | Blocked => None
      | Crash => Some None
      | Stepped t th' => Some (Some (t, <[i := th']> ths))
      end
  end.

Definition step (c c' : config) : Prop := ∃ i alt, cstep i alt c = Some c'.

Definition init (progs : list (list call)) : config :=
  Some (newToggle, (λ p, mkThread Idle p []) <$> progs).

Definition final (c : config) : Prop := ∀ c', ¬ step c c'.

(** ** Invariant of runs in which nobody calls [Close] *)

Definition held (th : thread) : nat := match at_ th with Holding => 1 | _ => 0 end.
Definition tokens (ths : list thread) : nat := sum_list_with held ths.
Definition bufn (t : Toggle) : nat :=
  match signal t with Some ch => Nat.b2n (buf ch) | None => 0 end.
Definition in_set (th : thread) : bool := match at_ th with InSet _ => true | _ => false end.
Definition uses_chan (th : thread) : bool :=
  match at_ th with Idle => false | _ => true end.

Definition close_free_call (c : call) : Prop := match c with CClose => False | _ => True end.
Definition close_free (th : thread) : Prop :=
  Forall close_free_call (todo th) ∧ at_ th ≠ InClose.

(** The single item is in the buffer, with a [Wait] that is about to put it back,
    or absent, according to the state; while a [Set] is under way the channel
    still shows the previous state. *)
Definition balanced (t : Toggle) (ths : list thread) : Prop :=
  match mu t with
  | None => bufn t + tokens ths = Nat.b2n (state t) ∧
      ∀ j th, ths !! j = Some th → in_set th = false
  | Some i => bufn t + tokens ths = Nat.b2n (negb (state t)) ∧
      (∃ th, ths !! i = Some th ∧ at_ th = InSet (state t)) ∧
      ∀ j th, ths !! j = Some th → in_set th = true → j = i
  end.

Record tog_inv (t : Toggle) (ths : list thread) : Prop := {
  inv_free : Forall close_free ths;
  inv_open : ∀ ch, signal t = Some ch → closed ch = false;
  inv_made : ∀ j th, ths !! j = Some th → uses_chan th = true → is_Some (signal t);
  inv_bal : balanced t ths
}.

Lemma tokens_insert ths i th th' :
  ths !! i = Some th → tokens (<[i:=th']> ths) + held th = tokens ths + held th'.
Proof. apply sum_list_with_insert. Qed.

Lemma tog_inv_init progs :
  Forall (Forall close_free_call) progs →
  tog_inv newToggle ((λ p, mkThread Idle p []) <$> progs).
Proof.
  intros H. constructor.
  - apply Forall_fmap. eapply Forall_impl; [done|]. intros p ?. split; [done|by simpl].
  - done.
  - intros j th Hj. apply list_lookup_fmap_Some in Hj as (p & -> & ?). done.
  - simpl. split.
    + unfold tokens, bufn. simpl. induction progs; simpl; [done|].
      apply Forall_cons in H as [_ ?]. auto.
    + intros j th Hj. by apply list_lookup_fmap_Some in Hj as (p & -> & ?).
Qed.

(** Case analysis on the channel operations of one step. *)
Ltac toggle_cases :=
  repeat match goal with
  | H : context [match ?x with _ => _ end] |- _ =>
      match x with context [match _ with _ => _ end] => fail 1 | _ => destruct x eqn:? end
  | _ => progress simplify_eq/=
  end.

Lemma tstep_close_free i alt t th t' th' :
  close_free th → tstep i alt t th = Stepped t' th' → close_free th'.
Proof.
  intros [Ht Hp] Hs. destruct th as [p td rs]. simpl in *.
  unfold tstep, start, Set_lock, Set_signal, Wait_select, Wait_return, Close_chan in Hs; simpl in *.
  destruct p; simpl in *; toggle_cases; try (inversion_clear Ht); split; simpl; eauto; done.
Qed.

Lemma lookup_insert_cases (ths : list thread) i th' j x :
  <[i:=th']> ths !! j = Some x → (j = i ∧ x = th') ∨ (j ≠ i ∧ ths !! j = Some x).
Proof.
  intros H. destruct (decide (i = j)) as [->|Hne].
  - left. assert (j < length ths).
    { rewrite <-(length_insert ths j th'). by eapply lookup_lt_Some. }
    rewrite list_lookup_insert_eq in H by done. by simplify_eq.
  - right. by rewrite list_lookup_insert_ne in H.
Qed.

Ltac unfold_step Hs :=
  unfold tstep, start, Set_lock, Set_signal, Wait_select, Wait_return, Close_chan, send, recv,
    sigChan, sigChanWhenAlreadyLocked, finish, unlock, with_signal in Hs; simpl in Hs.

Lemma tstep_no_crash i alt t th :
  close_free th → (∀ ch, signal t = Some ch → closed ch = false) → tstep i alt t th ≠ Crash.
Proof.
  intros [Hcf Hnc] Ho Hs. destruct th as [p td rs]. unfold_step Hs. simpl in *.
  destruct p; simpl in *; toggle_cases; try done; pose proof (Ho _ eq_refl); congruence.
Qed.

Lemma tstep_open i alt t th t' th' :
  close_free th → (∀ ch, signal t = Some ch → closed ch = false) →
  tstep i alt t th = Stepped t' th' → ∀ ch, signal t' = Some ch → closed ch = false.
Proof.
  intros [Hcf Hnc] Ho Hs ch Hch. destruct t as [m b sg], th as [p td rs]. unfold_step Hs. simpl in *.
  destruct p; simpl in *; toggle_cases; eauto; try done; pose proof (Ho _ eq_refl); congruence.
Qed.

Lemma tstep_made i alt t th t' th' :
  (uses_chan th = true → is_Some (signal t)) →
  tstep i alt t th = Stepped t' th' →
  (is_Some (signal t) → is_Some (signal t')) ∧ (uses_chan th' = true → is_Some (signal t')).
Proof.
  intros Hm Hs. destruct t as [m b sg], th as [p td rs]. unfold_step Hs. simpl in *.
  destruct p; simpl in *; toggle_cases; eauto.
Qed.

(** What a step does to the count of items, by the goroutine's role. *)
Lemma tstep_count i alt t th t' th' :
  close_free th → (∀ ch, signal t = Some ch → closed ch = false) →
  tstep i alt t th = Stepped t' th' →
  match at_ th, mu t with
  | InSet b, _ => mu t' = None ∧ state t' = state t ∧ in_set th' = false ∧ held th' = 0 ∧
      bufn t + Nat.b2n b = bufn t' + Nat.b2n (negb b)
  | _, Some k => mu t' = Some k ∧ state t' = state t ∧ in_set th' = false ∧
      bufn t' + held th' = bufn t + held th
  | _, None => bufn t' + held th' = bufn t + held th ∧
      ((mu t' = None ∧ state t' = state t ∧ in_set th' = false) ∨
       (mu t' = Some i ∧ state t' = negb (state t) ∧ at_ th' = InSet (state t')))
  end.
Proof.
  intros [Hcf Hnc] Ho Hs. destruct t as [[k|] b sg], th as [p td rs]; unfold_step Hs;
    unfold bufn, held, in_set in *; simpl in *;
    destruct p; simpl in *; toggle_cases; try done; try (pose proof (Ho _ eq_refl));
    repeat match goal with |- _ ∧ _ => split end; try done; try lia; try congruence;
    first [left; by repeat split | right; repeat split; by destruct b0, b].
Qed.

Lemma in_set_spec th : in_set th = true ↔ ∃ b, at_ th = InSet b.
Proof. unfold in_set. destruct (at_ th); naive_solver. Qed.

Lemma balanced_step i alt t ths th t' th' :
  tog_inv t ths → ths !! i = Some th → tstep i alt t th = Stepped t' th' →
  balanced t' (<[i:=th']> ths).
Proof.
  intros [Hf Ho Hm Hb] Hi Hs.
  assert (close_free th) as Hcf by by eapply Forall_lookup_1.
  pose proof (tokens_insert ths i th th' Hi) as Htok.
  pose proof (tstep_count i alt t th t' th' Hcf Ho Hs) as Hc.
  assert (i < length ths) as Hlt by by eapply lookup_lt_Some.
  unfold balanced in *. destruct (mu t) as [k|] eqn:Hmu.
  - destruct Hb as (Hn & (tk & Hk & Hatk) & Huniq). destruct (in_set th) eqn:Hin.
    + pose proof (Huniq i th Hi Hin) as ->. simplify_eq. rewrite Hatk in Hc.
      destruct Hc as (-> & -> & Hin' & Hh & Hbuf). unfold held in Htok at 1; rewrite Hatk in Htok.
      split; [destruct (state t); simpl in *; lia|].
      intros j x [[-> ->]|[Hne Hj]]%lookup_insert_cases; [done|].
      destruct (in_set x) eqn:?; [by destruct Hne; eapply Huniq|done].
    + assert (mu t' = Some k ∧ state t' = state t ∧ in_set th' = false ∧
        bufn t' + held th' = bufn t + held th) as (-> & -> & Hin' & Hbuf).
      { unfold in_set in Hin. by destruct (at_ th). }
      assert (i ≠ k) by (intros ->; simplify_eq; unfold in_set in Hin; by rewrite Hatk in Hin).
      split; [lia|]. split; [exists tk; by rewrite list_lookup_insert_ne|].
      intros j x [[-> ->]|[Hne Hj]]%lookup_insert_cases Hx; [congruence|by eapply Huniq].
  - destruct Hb as (Hn & Hnone).
    assert (bufn t' + held th' = bufn t + held th ∧
      ((mu t' = None ∧ state t' = state t ∧ in_set th' = false) ∨
       (mu t' = Some i ∧ state t' = negb (state t) ∧ at_ th' = InSet (state t'))))
      as (Hbuf & [(-> & -> & Hin')|(-> & Hst & Hat)]).
    { specialize (Hnone _ _ Hi). unfold in_set in Hnone. by destruct (at_ th). }
    + split; [lia|]. intros j x [[-> ->]|[_ Hj]]%lookup_insert_cases; [done|by eapply Hnone].
    + split; [rewrite Hst, negb_involutive; lia|].
      split; [exists th'; split; [by apply list_lookup_insert_eq|done]|].
      intros j x [[-> ->]|[_ Hj]]%lookup_insert_cases Hx; [done|].
      by rewrite (Hnone _ _ Hj) in Hx.
Qed.

Lemma tog_inv_step i alt t ths th t' th' :
  tog_inv t ths → ths !! i = Some th → tstep i alt t th = Stepped t' th' →
  tog_inv t' (<[i:=th']> ths).
Proof.
  intros Hinv Hi Hs. pose proof Hinv as [Hf Ho Hm Hb].
  assert (close_free th) as Hcf by by eapply Forall_lookup_1.
  destruct (tstep_made i alt t th t' th' (Hm _ _ Hi) Hs) as [Hm1 Hm2].
  constructor; [|by eapply tstep_open| |by eapply balanced_step].
  - apply Forall_insert; [done|]. by eapply tstep_close_free.
  - intros j x [[-> ->]|[_ Hj]]%lookup_insert_cases; [done|]. intros; by eapply Hm1, Hm.
Qed.

Definition conf_inv (c : config) : Prop :=
  match c with None => False | Some (t, ths) => tog_inv t ths end.

Lemma conf_inv_step c c' : conf_inv c → step c c' → conf_inv c'.
Proof.
  destruct c as [[t ths]|]; [|done]. intros Hinv (i & alt & Hs). simpl in *.
  destruct (ths !! i) as [th|] eqn:Hi; simplify_eq/=.
  destruct (tstep i alt t th) as [| |t' th'] eqn:Ht; simplify_eq.
  - pose proof Hinv as [Hf Ho _ _]. exfalso.
    eapply tstep_no_crash; [|done..]. by eapply Forall_lookup_1.
  - by eapply tog_inv_step.
Qed.

Lemma conf_inv_reach progs c :
  Forall (Forall close_free_call) progs → rtc step (init progs) c → conf_inv c.
Proof.
  intros Hp Hr. remember (init progs) as c0 eqn:He.
  assert (conf_inv c0) as Hc by (subst; by apply tog_inv_init). clear He.
  induction Hr; eauto using conf_inv_step.
Qed.

(** A run under a fixed schedule. *)
Fixpoint drive (l : list nat) (c : config) : option config :=
  match l with
  | [] => Some c
  | i :: l => c' ← cstep i false c; drive l c'
  end.

Lemma drive_steps l c c' : drive l c = Some c' → rtc step c c'.
Proof.
  revert c. induction l as [|i l IH]; intros c Hd; simplify_eq/=; [done|].
  destruct (cstep i false c) as [c1|] eqn:Hs; [|done].
  eapply rtc_l; [by exists i, false|by apply IH].
Qed.

(** ** Termination: every step consumes part of some goroutine's program *)

Definition work (th : thread) : nat :=
  3 * length (todo th) +
  match at_ th with Idle => 0 | InSet _ | Holding | InClose => 1 | InWait _ => 2 end.

Definition work_left (c : config) : nat :=
  match c with None => 0 | Some (_, ths) => S (sum_list_with work ths) end.

Lemma tstep_work i alt t th t' th' : tstep i alt t th = Stepped t' th' → work th' < work th.
Proof.
  intros Hs. destruct t as [m b sg], th as [p td rs]. unfold_step Hs. unfold work. simpl in *.
  destruct p; simpl in *; toggle_cases; lia.
Qed.

Lemma step_work c c' : step c c' → work_left c' < work_left c.
Proof.
  destruct c as [[t ths]|]; [|by intros (?&?&?)]. intros (i & alt & Hs). simpl in *.
  destruct (ths !! i) as [th|] eqn:Hi; simplify_eq/=.
  destruct (tstep i alt t th) as [| |t' th'] eqn:Ht; simplify_eq/=; [lia|].
  pose proof (sum_list_with_insert work ths i th th' Hi).
  pose proof (tstep_work _ _ _ _ _ _ Ht). lia.
Qed.

Lemma step_terminates c : Acc (flip step) c.
Proof. apply (measure_terminates step work_left), step_work. Qed.

(** All successors of a configuration. *)
Definition succs (c : config) : list config :=
  match c with
  | None => []
  | Some (_, ths) =>
      i ← seq 0 (length ths); alt ← [false; true];
      match cstep i alt c with Some c' => [c'] | None => [] end
  end.

Lemma succs_spec c c' : c' ∈ succs c ↔ step c c'.
Proof.
  unfold step. destruct c as [[t ths]|]; [|simpl; split; [by inversion 1|by intros (?&?&?)]].
  unfold succs. rewrite list_elem_of_bind. setoid_rewrite list_elem_of_bind. split.
  - intros (i & (alt & Hc & _) & _). exists i, alt.
    destruct (cstep i alt (Some (t, ths))); [|by apply elem_of_nil in Hc].
    by apply list_elem_of_singleton in Hc as ->.
  - intros (i & alt & Hs). exists i. split.
    + exists alt. rewrite Hs. split; [set_solver|]. destruct alt; set_solver.
    + apply elem_of_seq. split; [lia|]. simpl in Hs.
      destruct (ths !! i) eqn:Hi; simplify_eq/=. apply lookup_lt_Some in Hi. lia.
Qed.

Lemma final_spec c : final c ↔ succs c = [].
Proof.
  unfold final. setoid_rewrite <-succs_spec. split.
  - destruct (succs c) as [|x l]; [done|]. intros H. destruct (H x). by left.
  - intros -> ? ?%elem_of_nil. done.
Qed.

(** All configurations in which a run from [c] can stop. *)
Fixpoint outcomes (n : nat) (c : config) : list config :=
  match succs c, n with
  | [], _ => [c]
  | _, O => []
  | l, S n => l ≫= outcomes n
  end.

Lemma outcomes_complete n c c' :
  work_left c ≤ n → rtc step c c' → final c' → c' ∈ outcomes n c.
Proof.
  revert c. induction n as [|n IH]; intros c Hn Hr Hf;
    (inversion Hr as [|? c1 ? Hs Hr']; subst;
      [apply final_spec in Hf; simpl; rewrite Hf; set_solver|]);
    pose proof (step_work _ _ Hs); [lia|].
  apply succs_spec in Hs. cbn [outcomes]. destruct (succs c) as [|x l] eqn:E; [set_solver|].
  apply list_elem_of_bind. exists c1. split; [|done]. apply IH; [lia|done..].
Qed.

(** ** Progress *)

(** A goroutine that has run its program, or waits for the toggle with a context
    nobody cancels. *)
Definition settled (t : Toggle) (th : thread) : Prop :=
  (at_ th = Idle ∧ todo th = []) ∨ (at_ th = InWait false ∧ state t = false).

Lemma stuck t ths i th alt : final (Some (t, ths)) → ths !! i = Some th →
  tstep i alt t th = Blocked.
Proof.
  intros Hf Hi. destruct (tstep i alt t th) as [| |t' th'] eqn:Hs; [done|exfalso..].
  all: eapply Hf; exists i, alt; simpl; rewrite Hi; simpl; by rewrite Hs.
Qed.

Lemma holding_stuck t ths : tog_inv t ths → final (Some (t, ths)) →
  bufn t + tokens ths ≤ 1 → tokens ths = 0.
Proof.
  intros [_ Ho Hm _] Hf Hle. destruct (tokens ths) eqn:Ht; [done|exfalso].
  destruct (sum_list_with_pos held ths) as (i & th & Hi & Hh); [unfold tokens in Ht; lia|].
  pose proof (stuck _ _ _ _ false Hf Hi) as Hs. destruct th as [p td rs].
  unfold held in Hh; simpl in Hh. destruct p; try lia.
  destruct (Hm _ _ Hi eq_refl) as [ch Hch]. unfold_step Hs. unfold bufn in Hle.
  rewrite Hch in *. rewrite (Ho _ eq_refl) in Hs. destruct (buf ch); [simpl in *; lia|done].
Qed.

Lemma final_settled t ths : tog_inv t ths → final (Some (t, ths)) →
  mu t = None ∧ Forall (settled t) ths.
Proof.
  intros Hinv Hf. pose proof Hinv as [Hcf Ho Hm Hb].
  assert (tokens ths = 0) as Htok.
  { apply (holding_stuck t); [done..|]. unfold balanced in Hb.
    destruct (mu t); [destruct Hb as [-> _]; destruct (state t); simpl; lia|].
    destruct Hb as [-> _]; destruct (state t); simpl; lia. }
  unfold balanced in Hb. destruct (mu t) as [k|] eqn:Hmu.
  - exfalso. destruct Hb as (Hn & (th & Hk & Hat) & _).
    pose proof (stuck _ _ _ _ false Hf Hk) as Hs.
    destruct (Hm _ _ Hk) as [ch Hch]; [unfold uses_chan; by rewrite Hat|].
    rewrite Htok in Hn. unfold tstep in Hs; rewrite Hat in Hs. unfold_step Hs. unfold bufn in Hn.
    rewrite Hch in *. rewrite (Ho _ eq_refl) in Hs.
    destruct (state t), (buf ch); simpl in *; (done || lia).
  - split; [done|]. destruct Hb as [Hn Hnone]. apply Forall_lookup. intros i th Hi.
    pose proof (Hnone _ _ Hi) as Hin. pose proof (stuck _ _ _ _ false Hf Hi) as Hs.
    pose proof (stuck _ _ _ _ true Hf Hi) as Hs'.
    pose proof (sum_list_with_elem held ths i th Hi) as Hh. fold (tokens ths) in Hh.
    pose proof (Forall_lookup_1 _ _ _ _ Hcf Hi) as [Htd Hnc].
    pose proof (Hm _ _ Hi) as Hmi.
    destruct th as [p td rs]. unfold held in Hh. unfold_step Hs. unfold_step Hs'. simpl in *.
    rewrite Hmu in *. destruct p as [|b|c| |]; simpl in *; try done; try lia.
    + left. split; [done|]. simpl. destruct td as [|[b| | |] td]; [done|..|done];
        simpl in *; try done. by destruct (Bool.eqb b (state t)).
    + destruct c; [done|]. right. split; [done|].
      destruct Hmi as [ch Hch]; [done|]. rewrite Hch in Hs. unfold bufn in Hn; rewrite Hch in Hn.
      rewrite (Ho _ Hch) in Hs. destruct (buf ch); [done|]. destruct (state t); simpl in *; [lia|done].
Qed.

(** ** Linearization

    When the calls take effect: [Set] at its channel operation, or at once when it changes
    nothing; a [Wait] when it receives the item; [State] under the mutex. *)

Definition tevent (alt : bool) (t : Toggle) (th : thread) : option event :=
  match at_ th with
  | InWait c => if alt then (if c then Some ECancel else None)
                else match recv t with Some (true, _) => Some EWait | _ => None end
  | InSet b => if alt then None else Some (ESet b)
  | Idle => if alt then None else
      match todo th with
      | CSet b :: _ => if Bool.eqb b (state t) then Some (ESet b) else None
      | CState :: _ => Some (EState (state t))
      | _ => None
      end
  | _ => None
  end.

(** The steps, recording what takes effect. *)
Definition hcstep (i : nat) (alt : bool) (ch : config * history) : option (config * history) :=
  c' ← cstep i alt ch.1;
  Some (c', ch.2 ++ match ch.1 with
                    | Some (t, ths) => option_list (pair i <$> (th ← ths !! i; tevent alt t th))
                    | None => []
                    end).

Definition hstep (c c' : config * history) : Prop := ∃ i alt, hcstep i alt c = Some c'.

(** Every run has a history. *)
Lemma step_hstep c c' h : rtc step c c' → ∃ h', rtc hstep (c, h) (c', h').
Proof.
  intros Hr. revert h. induction Hr as [c|c c1 c' (i & alt & Hs) _ IH]; intros h; [by exists h|].
  edestruct IH as [h' Hh]. exists h'. eapply rtc_l; [|exact Hh].
  exists i, alt. unfold hcstep. simpl. by rewrite Hs.
Qed.

(** A history under a fixed schedule. *)
Fixpoint hdrive (l : list nat) (ch : config * history) : option (config * history) :=
  match l with
  | [] => Some ch
  | i :: l => ch ← hcstep i false ch; hdrive l ch
  end.

Lemma hdrive_steps l ch ch' : hdrive l ch = Some ch' → rtc hstep ch ch'.
Proof.
  revert ch. induction l as [|i l IH]; intros ch Hd; simplify_eq/=; [done|].
  destruct (hcstep i false ch) as [ch1|] eqn:Hs; [|done].
  eapply rtc_l; [by exists i, false|by apply IH].
Qed.

(** The call whose effect is still to come. *)
Definition pending (th : thread) : list call :=
  match at_ th with InSet b => [CSet b] | InWait c => [CWait c] | InClose => [CClose] | _ => [] end.

Definition result_of (e : event) : result :=
  match e with ESet _ => RSet | EWait => RWaitNil | ECancel => RWaitCtx | EState b => RState b end.

Definition answers (c : call) (e : event) : Prop :=
  match c, e with
  | CSet b, ESet b' => b = b'
  | CWait _, EWait | CState, EState _ => True
  | CWait c, ECancel => c = true
  | _, _ => False
  end.

(** A goroutine's events are its calls up to the pending one, with the results that it got
    or, holding the item, is about to get. *)
Definition agrees (p : list call) (es : list event) (th : thread) : Prop :=
  ∃ finished, p = finished ++ pending th ++ todo th ∧ Forall2 answers finished es ∧
    result_of <$> es = rets th ++ match at_ th with Holding => [RWaitNil] | _ => [] end.

(** One more call has been answered. *)
Lemma agrees_snoc c e (fin td : list call) es rs : Forall2 answers fin es → answers c e → result_of <$> es = rs →
  ∃ fin', fin ++ c :: td = fin' ++ td ∧ Forall2 answers fin' (es ++ [e]) ∧ result_of <$> es ++ [e] = rs ++ [result_of e].
Proof.
  intros Hf Hc <-. exists (fin ++ [c]). rewrite <-app_assoc, fmap_app.
  split; [done|split; [|done]]. apply Forall2_app; [done|by constructor].
Qed.

Lemma tstep_agrees i alt t th t' th' p es : close_free th → (∀ ch, signal t = Some ch → closed ch = false) →
  tstep i alt t th = Stepped t' th' → agrees p es th → agrees p (es ++ option_list (tevent alt t th)) th'.
Proof.
  intros [Hcf Hnc] Ho Hs (fin & -> & Hf & Hr). destruct t as [m b sg], th as [q td rs].
  unfold_step Hs. unfold tevent, recv, agrees, pending in *. simpl in *.
  destruct q; simpl in *; toggle_cases; rewrite ?app_nil_r in *; try (by exists fin);
    try (pose proof (Ho _ eq_refl); congruence); by (eapply agrees_snoc).
Qed.

(** What the clients see is on while the item is in the buffer or with a [Wait]. *)
Definition shown (t : Toggle) (ths : list thread) : bool := 0 <? bufn t + tokens ths.

Lemma shown_balanced t ths b : bufn t + tokens ths = Nat.b2n b → shown t ths = b.
Proof. unfold shown. intros ->. by destruct b. Qed.

Lemma shown_item t ths ch : signal t = Some ch → buf ch = true → shown t ths = true.
Proof. intros E Hb. unfold shown, bufn. by rewrite E, Hb. Qed.

Lemma tstep_effect i alt t ths th t' th' : tog_inv t ths → ths !! i = Some th →
  tstep i alt t th = Stepped t' th' →
  match tevent alt t th with
  | Some e => effect (shown t ths) e
  | None => Some (shown t ths)
  end = Some (shown t' (<[i:=th']> ths)).
Proof.
  intros Hinv Hi Hs. pose proof (tog_inv_step _ _ _ _ _ _ _ Hinv Hi Hs) as [_ _ _ Hb'].
  destruct Hinv as [Hf Ho _ Hb]. pose proof (tokens_insert ths i th th' Hi) as Htok.
  pose proof (tstep_count i alt t th t' th' (Forall_lookup_1 _ _ _ _ Hf Hi) Ho Hs) as Hc.
  destruct (in_set th) eqn:Hin.
  - pose proof (proj1 (in_set_spec th) Hin) as [b Hat]. rewrite Hat in Hc. destruct Hc as (Hmu & Hst & _).
    unfold balanced in Hb, Hb'. rewrite Hmu in Hb'. destruct Hb' as [Hn _]. rewrite (shown_balanced t' _ _ Hn), Hst.
    destruct alt; [unfold tstep in Hs; by rewrite Hat in Hs|]. unfold tevent. rewrite Hat. simpl.
    destruct (mu t) as [k|]; destruct Hb as (_ & Hb); [|by rewrite (Hb _ _ Hi) in Hin].
    destruct Hb as [(tk & Hk & Hatk) Hu]. pose proof (Hu i th Hi Hin) as ->.
    congruence.
  - assert (bufn t' + tokens (<[i:=th']> ths) = bufn t + tokens ths) as Hsame.
    { unfold in_set in Hin. destruct (at_ th), (mu t); try done; lia. }
    unfold shown at 3. rewrite Hsame. fold (shown t ths).
    assert (mu t = None → shown t ths = state t) as Hshown.
    { intros Hmu. unfold balanced in Hb. rewrite Hmu in Hb. destruct Hb as [Hb _]. by apply shown_balanced. }
    destruct t as [m b sg], th as [q td rs]. unfold_step Hs. unfold tevent, recv. simpl in *.
    destruct q; simpl in *; toggle_cases; try done;
      try (by rewrite (shown_item _ _ c) by done); rewrite Hshown by done.
    + f_equal. by apply Bool.eqb_prop.
    + by rewrite Bool.eqb_reflx.
Qed.

(** The invariant of a run and its history. *)
Record linear (progs : list (list call)) (t : Toggle) (ths : list thread) (h : history) : Prop := {
  lin_inv : tog_inv t ths;
  lin_replay : replay false h = Some (shown t ths);
  lin_length : length ths = length progs;
  lin_agrees : ∀ i p th, progs !! i = Some p → ths !! i = Some th → agrees p (events_of i h) th;
}.

Lemma linear_init progs : Forall (Forall close_free_call) progs →
  linear progs newToggle ((λ p, mkThread Idle p []) <$> progs) [].
Proof.
  intros Hp. pose proof (tog_inv_init progs Hp) as Hinv. split; [done| |by rewrite length_fmap|].
  - destruct Hinv as [_ _ _ Hb]. unfold balanced in Hb. simpl in *. destruct Hb as [Hn _].
    by rewrite (shown_balanced newToggle _ false Hn).
  - intros i p th Hi Hth. apply list_lookup_fmap_Some in Hth as (p' & -> & Hi'). simplify_eq. by exists [].
Qed.

Lemma linear_step progs t ths h i alt th t' th' : linear progs t ths h → ths !! i = Some th →
  tstep i alt t th = Stepped t' th' →
  linear progs t' (<[i:=th']> ths) (h ++ option_list (pair i <$> tevent alt t th)).
Proof.
  intros [Hinv Hr Hl Ha] Hi Hs. pose proof Hinv as [Hf Ho _ _].
  pose proof (Forall_lookup_1 _ _ _ _ Hf Hi) as Hcf. split; [by eapply tog_inv_step| |by rewrite length_insert|].
  - rewrite replay_app, Hr. simpl. rewrite <-(tstep_effect i alt t ths th t' th') by done.
    destruct (tevent alt t th); [|done]. simpl. by destruct (effect _ _).
  - intros j p x Hp [[-> ->]|[Hne Hj]]%lookup_insert_cases; rewrite events_of_app.
    + rewrite events_of_same. eapply tstep_agrees; [done..|by apply Ha].
    + rewrite events_of_other, app_nil_r by done. by apply Ha.
Qed.

Lemma linear_reach progs c h : Forall (Forall close_free_call) progs → rtc hstep (init progs, []) (c, h) →
  ∃ t ths, c = Some (t, ths) ∧ linear progs t ths h.
Proof.
  intros Hp Hr. remember (c, h) as ch eqn:E. revert ch Hr c h E. apply (rtc_ind_r (λ ch, ∀ c h, ch = (c, h) → _)).
  - intros c h [= <- <-]. eexists _, _. split; [done|]. by apply linear_init.
  - intros [c1 h1] c2 _ (i & alt & Hs) IH c h ->. destruct (IH c1 h1 eq_refl) as (t & ths & -> & Hlin).
    unfold hcstep in Hs. simpl in Hs. destruct (ths !! i) as [th|] eqn:Hi; [|done]. simpl in Hs.
    destruct (tstep i alt t th) as [| |t' th'] eqn:Ht; simplify_eq/=.
    + destruct Hlin as [[Hf Ho _ _] _ _ _]. exfalso. eapply tstep_no_crash; [|done..]. by eapply Forall_lookup_1.
    + eexists _, _. split; [done|]. by apply linear_step.
Qed.

(** Programs as clients of a switch. *)
#[export] Instance toggle_switch : Switch (list (list call)) := λ progs h,
  Forall (Forall close_free_call) progs ∧ ∃ c, rtc hstep (init progs, []) (c, h).

#[export] Instance toggle_switch_laws : SwitchLaws (list (list call)).
Proof.
  intros progs h [Hp [c Hr]]. destruct (linear_reach progs c h Hp Hr) as (t & ths & _ & [_ Hrep _ _]). by eexists.
Qed.

(** ** Properties *)

(** In every interleaving of [Set], [Wait] and [State] calls (no [Close]) the
    process never crashes; at most one goroutine is inside [Set]; and no [Wait]
    can get through while the toggle is off: when no [Set] is in progress and the
    state is false, the buffer is empty and no [Wait] is about to return, so a
    step that lets a [Wait] through implies that the state is true or that a
    [Set] is still in progress. *)
Theorem toggle_safe progs c :
  Forall (Forall close_free_call) progs → rtc step (init progs) c →
  ∃ t ths, c = Some (t, ths) ∧
    (∀ i j th th', ths !! i = Some th → ths !! j = Some th' →
       in_set th = true → in_set th' = true → i = j) ∧
    (mu t = None → state t = false → bufn t = 0 ∧ tokens ths = 0) ∧
    (∀ i th alt t' th', ths !! i = Some th → tstep i alt t th = Stepped t' th' →
       held th' = 1 → state t = true ∨ is_Some (mu t)).
Proof.
  intros Hp Hr. pose proof (conf_inv_reach _ _ Hp Hr) as Hinv.
  destruct c as [[t ths]|]; [|done]. exists t, ths. destruct Hinv as [Hcf Ho Hm Hb].
  split; [done|]. split; [|split].
  - intros i j th th' Hi Hj H1 H2. unfold balanced in Hb. destruct (mu t).
    + destruct Hb as (_ & _ & Hu). by rewrite (Hu _ _ Hi H1), (Hu _ _ Hj H2).
    + destruct Hb as [_ Hn]. by rewrite (Hn _ _ Hi) in H1.
  - intros Hmu Hst. unfold balanced in Hb. rewrite Hmu, Hst in Hb. simpl in Hb. lia.
  - intros i th alt t' th' Hi Hs Hh. destruct (mu t) eqn:Hmu; [by right; eexists|left].
    unfold balanced in Hb. rewrite Hmu in Hb. destruct Hb as [Hn Hnone].
    destruct (state t) eqn:Hst; [done|exfalso]. simpl in Hn.
    pose proof (tokens_insert _ _ _ th' Hi).
    pose proof (tstep_count i alt t th t' th' (Forall_lookup_1 _ _ _ _ Hcf Hi) Ho Hs) as Hc.
    pose proof (sum_list_with_elem held ths i th Hi) as Hle. fold (tokens ths) in Hle.
    rewrite Hmu in Hc. specialize (Hnone _ _ Hi). unfold in_set in Hnone.
    destruct (at_ th); try done; lia.
Qed.

Lemma toggle_safe_witness :
  ∃ t ths, (init [[CSet true; CSet false]; [CWait false]]) = Some (t, ths) ∧
    (∀ i j th th', ths !! i = Some th → ths !! j = Some th' →
       in_set th = true → in_set th' = true → i = j) ∧
    (mu t = None → state t = false → bufn t = 0 ∧ tokens ths = 0) ∧
    (∀ i th alt t' th', ths !! i = Some th → tstep i alt t th = Stepped t' th' →
       held th' = 1 → state t = true ∨ is_Some (mu t)).
Proof.
  apply (toggle_safe [[CSet true; CSet false]; [CWait false]]); [|constructor].
  repeat constructor.
Defined.

(** C8. Without [Close], every run ends (the step relation is well-founded from
    any configuration), and when no goroutine can move the mutex is free and each
    goroutine has finished its calls, except for [Wait]s without cancellation
    while the state is false: [Set] never deadlocks, and no [Wait] is left behind
    by a toggle that is on. *)
Theorem toggle_live progs c :
  Forall (Forall close_free_call) progs → rtc step (init progs) c →
  Acc (flip step) c ∧
  (final c → ∃ t ths, c = Some (t, ths) ∧ mu t = None ∧ Forall (settled t) ths).
Proof.
  intros Hp Hr. split; [apply step_terminates|]. intros Hf.
  pose proof (conf_inv_reach _ _ Hp Hr) as Hinv. destruct c as [[t ths]|]; [|done].
  exists t, ths. split; [done|]. by apply final_settled.
Qed.

Lemma toggle_live_witness :
  let c := Some (mkToggle None true (Some (mkChan true false)), [mkThread Idle [] [RSet]]) in
  Acc (flip step) c ∧
  (final c → ∃ t ths, c = Some (t, ths) ∧ mu t = None ∧ Forall (settled t) ths).
Proof.
  apply (toggle_live [[CSet true]]); [repeat constructor|].
  eapply rtc_l; [by exists 0, false|]. apply rtc_once. by exists 0, false.
Defined.

(** C7. Without [Close] a [Toggle] is a switch: in every run the calls take effect one at a
    time, each while it is being made, as the calls of a single boolean that starts off.
    Each goroutine gets for its calls, in order, the results that the switch gives; a
    [Wait] gets through while the switch is on, which is what [State] reads. *)
Theorem toggle_linearizable progs c :
  Forall (Forall close_free_call) progs → rtc step (init progs) c →
  ∃ h t ths, rtc hstep (init progs, []) (c, h) ∧ c = Some (t, ths) ∧
    replay false h = Some (shown t ths) ∧ (mu t = None → shown t ths = state t) ∧
    ∀ i p th, progs !! i = Some p → ths !! i = Some th → agrees p (events_of i h) th.
Proof.
  intros Hp Hr. destruct (step_hstep _ _ [] Hr) as [h Hh].
  destruct (linear_reach progs c h Hp Hh) as (t & ths & -> & [[_ _ _ Hb] Hrep _ Ha]).
  exists h, t, ths. split_and!; [done..| |done].
  intros Hmu. unfold balanced in Hb. rewrite Hmu in Hb. destruct Hb as [Hb _]. by apply shown_balanced.
Qed.

Lemma toggle_linearizable_witness :
  let progs := [[CSet true; CState]; [CWait false]] in
  let c := Some (mkToggle None true (Some (mkChan true false)),
                 [mkThread Idle [] [RSet; RState true]; mkThread Idle [] [RWaitNil]]) in
  rtc step (init progs) c ∧ ∃ h, rtc hstep (init progs, []) (c, h) ∧ replay false h = Some true.
Proof.
  assert (rtc step (init [[CSet true; CState]; [CWait false]])
    (Some (mkToggle None true (Some (mkChan true false)),
       [mkThread Idle [] [RSet; RState true]; mkThread Idle [] [RWaitNil]]))) as Hr
    by by apply (drive_steps [1; 0; 0; 1; 1; 0]).
  split; [exact Hr|].
  destruct (toggle_linearizable [[CSet true; CState]; [CWait false]] _ ltac:(repeat constructor) Hr)
    as (h & t & ths & Hh & [= <- <-] & Hrep & _). by exists h.
Defined.

(** [Close] keeps its promise that a later [Wait] returns [ErrToggleClosed]
    only if the toggle was off.  For the goroutine that runs [Set(b)], [Close()]
    and [Wait(ctx)] with a context that is never cancelled, every complete run
    with [b = false] ends with [ErrToggleClosed], and every complete run with
    [b = true] crashes: [Wait] receives the item left in the closed channel and
    panics when it sends it back. *)
Theorem close_then_wait b c :
  rtc step (init [[CSet b; CClose; CWait false]]) c → final c →
  if b then c = None
  else ∃ t, c = Some (t, [mkThread Idle [] [RSet; RClose; RWaitClosed]]).
Proof.
  intros Hr Hf. apply (outcomes_complete 10) in Hr; [|simpl; lia|done].
  revert c Hr Hf. destruct b; intros c Hr _; revert c Hr; apply Forall_forall; vm_compute;
    repeat (constructor; [by (done || eexists)|]); constructor.
Qed.

Lemma close_then_wait_witness :
  let c0 := init [[CSet true; CClose; CWait false]] in
  rtc step c0 None ∧ ∀ c, rtc step c0 c → final c → c = None.
Proof.
  split; [by apply (drive_steps [0; 0; 0; 0; 0; 0; 0])|].
  intros c. apply (close_then_wait true).
Defined.

(** The crash needs no misuse: with one goroutine that calls [Set(true)] and
    then [Close()] while another waits, an interleaving lets the [Wait] return
    nil, another one crashes the process, and there is no third outcome: the
    waiter never gets [ErrToggleClosed]. *)
Theorem close_races_with_wait :
  let c0 := init [[CSet true; CClose]; [CWait false]] in
  rtc step c0 None ∧
  (∃ t, rtc step c0 (Some (t, [mkThread Idle [] [RSet; RClose]; mkThread Idle [] [RWaitNil]]))) ∧
  ∀ c, rtc step c0 c → final c →
    c = None ∨ ∃ t, c = Some (t, [mkThread Idle [] [RSet; RClose]; mkThread Idle [] [RWaitNil]]).
Proof.
  split; [|split].
  - by apply (drive_steps [0; 0; 1; 1; 0; 0; 1]).
  - eexists. by apply (drive_steps [0; 0; 1; 1; 1; 0; 0]).
  - intros c Hr Hf. apply (outcomes_complete 20) in Hr; [|simpl; lia|done].
    clear Hf. revert c Hr. apply Forall_forall. vm_compute.
    repeat (constructor; [by (left + (right; eexists))|]); constructor.
Qed.
