(* ===== verification/ModArith.v ===== *)
(** * ModArith: congruences, finite sums and Fermat's little theorem over [Z]

    Nothing here is about the program; the file carries the arithmetic used by
    the proofs about [go/galois]. *)

From Stdlib Require Import Zdivisibility Zcong Zcomplements.
From S2P Require Import Prelude.
Local Open Scope Z_scope.

(** A record, so that rewriting with a congruence is never read as an equation. *)
Record eqm (q a b : Z) : Prop := mk_eqm { eqm_eq : a mod q = b mod q }.
Arguments mk_eqm {q a b} _.
Arguments eqm_eq {q a b} _.

Notation "a =[ q ] b" := (eqm q a b) (at level 70, q at level 200).

#[export] Instance eqm_equiv q : Equivalence (eqm q).
Proof. split; [done|by intros ?? [?]|intros ??? [] []; constructor; congruence]. Qed.
#[export] Instance eqm_add q : Proper (eqm q ==> eqm q ==> eqm q) Z.add.
Proof. intros a b [H] c d [H']. constructor. by rewrite Zplus_mod, H, H', <-Zplus_mod. Qed.
#[export] Instance eqm_mul q : Proper (eqm q ==> eqm q ==> eqm q) Z.mul.
Proof. intros a b [H] c d [H']. constructor. by rewrite Zmult_mod, H, H', <-Zmult_mod. Qed.
#[export] Instance eqm_sub q : Proper (eqm q ==> eqm q ==> eqm q) Z.sub.
Proof. intros a b [H] c d [H']. constructor. by rewrite Zminus_mod, H, H', <-Zminus_mod. Qed.
#[export] Instance eqm_opp q : Proper (eqm q ==> eqm q) Z.opp.
Proof. intros a b H. rewrite <-!Z.sub_0_l. by rewrite H. Qed.

#[export] Instance eqm_dec q a b : Decision (a =[q] b).
Proof.
  refine (cast_if (decide (a mod q = b mod q))); [by constructor|by intros [?]].
Defined.

Lemma eqm_eq_Z q a b : a = b → a =[q] b.
Proof. by intros ->. Qed.

Lemma eqm_mod q a : a mod q =[q] a.
Proof. constructor. apply Zmod_mod. Qed.

Lemma eqm_0 q a : a =[q] 0 ↔ (q | a).
Proof.
  split; [intros [H]|intros H; constructor; by rewrite (Z.mod0_divide a q H)].
  rewrite Zmod_0_l in H. destruct (decide (q = 0)) as [->|]; [|by apply Z.mod_divide].
  rewrite Z.mod_0_r in H. subst. apply Z.divide_0_r.
Qed.

Lemma eqm_sub_0 q a b : a =[q] b ↔ (q | a - b).
Proof.
  rewrite <-eqm_0. split; intros H; [rewrite H; by rewrite Z.sub_diag|].
  replace a with (a - b + b) by lia. by rewrite H.
Qed.

Lemma eqm_small q a b : 0 ≤ a < q → 0 ≤ b < q → a =[q] b → a = b.
Proof. intros ?? [H]. by rewrite !Z.mod_small in H by lia. Qed.

Lemma eqm_pow q a b n : 0 ≤ n → a =[q] b → a ^ n =[q] b ^ n.
Proof.
  intros Hn H. revert n Hn. apply natlike_ind; [done|].
  intros n Hn IH. rewrite !Z.pow_succ_r by done. by rewrite IH, H.
Qed.

Lemma eqm_cancel q a b c : Z.prime q → ¬ (q | c) → c * a =[q] c * b → a =[q] b.
Proof.
  rewrite !eqm_sub_0. intros Hq Hc H. rewrite <-Z.mul_sub_distr_l in H.
  by apply Z.divide_prime_mul in H as [|].
Qed.

(** ** Finite sums *)

Fixpoint sumn (n : nat) (f : nat → Z) : Z :=
  match n with O => 0 | S n => sumn n f + f n end.

Lemma sumn_eqm q n f g : (∀ i, (i < n)%nat → f i =[q] g i) → sumn n f =[q] sumn n g.
Proof.
  induction n as [|n IH]; simpl; [done|]. intros H. rewrite IH, (H n); [done|lia|].
  intros; apply H; lia.
Qed.
Lemma sumn_ext n f g : (∀ i, (i < n)%nat → f i = g i) → sumn n f = sumn n g.
Proof.
  induction n as [|n IH]; simpl; [done|]. intros H. rewrite IH, (H n); [done|lia|].
  intros; apply H; lia.
Qed.
Lemma sumn_add n f g : sumn n (λ i, f i + g i) = sumn n f + sumn n g.
Proof. induction n as [|n IH]; simpl; lia. Qed.
Lemma sumn_mul_l n c f : c * sumn n f = sumn n (λ i, c * f i).
Proof. induction n as [|n IH]; simpl; [lia|]. rewrite <-IH. lia. Qed.
Lemma sumn_mul_r n c f : sumn n f * c = sumn n (λ i, f i * c).
Proof. rewrite Z.mul_comm, sumn_mul_l. apply sumn_ext. intros; lia. Qed.
Lemma sumn_prod n m f g :
  sumn n f * sumn m g = sumn n (λ i, sumn m (λ j, f i * g j)).
Proof. rewrite sumn_mul_r. apply sumn_ext. intros i _. apply sumn_mul_l. Qed.
Lemma sumn_0 n : sumn n (λ _, 0) = 0.
Proof. induction n; simpl; lia. Qed.
Lemma sumn_const n c : sumn n (λ _, c) = Z.of_nat n * c.
Proof. induction n; simpl; lia. Qed.
Lemma sumn_swap n m f : sumn n (λ i, sumn m (f i)) = sumn m (λ j, sumn n (λ i, f i j)).
Proof.
  induction n as [|n IH]; simpl; [by rewrite sumn_0|]. rewrite IH. by rewrite <-sumn_add.
Qed.
Lemma sumn_app n m f : sumn (n + m) f = sumn n f + sumn m (λ i, f (n + i)%nat).
Proof.
  induction m as [|m IH]; simpl; [rewrite Nat.add_0_r; lia|].
  rewrite Nat.add_succ_r. simpl. lia.
Qed.
(** Even and odd terms apart. *)
Lemma sumn_parity n f :
  sumn (n * 2) f = sumn n (λ i, f (i * 2)%nat) + sumn n (λ i, f (i * 2 + 1)%nat).
Proof. induction n as [|n IH]; [done|]. cbn [sumn Nat.mul Nat.add]. rewrite IH, Nat.add_1_r. lia. Qed.
(** Only one index contributes. *)
Lemma sumn_single q n k f : (k < n)%nat → (∀ i, (i < n)%nat → i ≠ k → f i =[q] 0) →
  sumn n f =[q] f k.
Proof.
  induction n as [|n IH]; simpl; [lia|]. intros Hk H. destruct (decide (k = n)) as [->|Hne].
  - assert (sumn n f =[q] 0) as ->.
    { rewrite (sumn_eqm q n f (λ _, 0)); [by rewrite sumn_0|]. intros; apply H; lia. }
    by rewrite Z.add_0_l.
  - rewrite IH by (lia || (intros; apply H; lia)).
    by rewrite (H n), Z.add_0_r by lia.
Qed.
Lemma sumn_geometric n (w : Z) : (w - 1) * sumn n (λ i, w ^ Z.of_nat i) = w ^ Z.of_nat n - 1.
Proof.
  induction n as [|n IH]; [simpl; lia|]. simpl sumn.
  rewrite Nat2Z.inj_succ, Z.pow_succ_r by lia. lia.
Qed.

(** ** Primes *)

(** A prime test by trial division. *)
Definition primeb (p : Z) : bool :=
  (1 <? p) && forallb (λ n, negb (p mod n =? 0)) (seqZ 2 (p - 2)).

Lemma primeb_prime p : primeb p = true → Z.prime p.
Proof.
  unfold primeb. rewrite andb_true_iff, Z.ltb_lt, forallb_forall. intros [Hp H].
  split; [done|]. intros n Hn Hd.
  assert (In n (seqZ 2 (p - 2))) as Hin.
  { apply list_elem_of_In, elem_of_seqZ. lia. }
  apply H in Hin. rewrite negb_true_iff, Z.eqb_neq in Hin. by apply Hin, Z.mod0_divide.
Qed.

Fixpoint prodl (l : list Z) : Z := match l with [] => 1 | x :: l => x * prodl l end.

Lemma prodl_perm l k : l ≡ₚ k → prodl l = prodl k.
Proof. induction 1; simpl; lia. Qed.

Lemma prodl_map q a l :
  prodl ((λ x, (a * x) mod q) <$> l) =[q] a ^ Z.of_nat (length l) * prodl l.
Proof.
  induction l as [|x l IH]; [done|]. cbn [fmap list_fmap prodl length].
  rewrite IH, eqm_mod, Nat2Z.inj_succ, Z.pow_succ_r by lia.
  apply eq_subrelation; [apply _|]. lia.
Qed.

Lemma prodl_prime p l : Z.prime p → (∀ x, x ∈ l → 0 < x < p) → ¬ (p | prodl l).
Proof.
  intros Hp. induction l as [|x l IH]; intros Hl Hd; cbn [prodl] in Hd.
  - apply Z.divide_pos_le in Hd; pose proof (Z.prime_ge_2 _ Hp); lia.
  - apply Z.divide_prime_mul in Hd as [Hd|Hd]; [| |done].
    + apply Z.divide_pos_le in Hd; specialize (Hl x ltac:(left)); lia.
    + apply IH in Hd; [done|]. intros y Hy. apply Hl. by right.
Qed.

Theorem fermat_little p a : Z.prime p → ¬ (p | a) → a ^ (p - 1) =[p] 1.
Proof.
  intros Hp Ha. pose proof (Z.prime_ge_2 _ Hp) as Hp2.
  pose (l := seqZ 1 (p - 1)).
  assert (Hl : ∀ x, x ∈ l → 0 < x < p) by (intros x ?%elem_of_seqZ; lia).
  assert (Hsub : (λ x, (a * x) mod p) <$> l ⊆ l).
  { intros y (x & -> & Hx)%list_elem_of_fmap. specialize (Hl x Hx). apply elem_of_seqZ.
    assert ((a * x) mod p ≠ 0); [|pose proof (Z.mod_pos_bound (a * x) p); lia].
    intros Hd. apply Z.mod_divide in Hd; [|lia]. apply Z.divide_prime_mul in Hd as [|Hd]; [done| |done].
    apply Z.divide_pos_le in Hd; lia. }
  assert (Hnd : NoDup ((λ x, (a * x) mod p) <$> l)).
  { apply NoDup_fmap_2_strong; [|apply NoDup_seqZ]. intros x y Hx Hy Heq.
    apply (eqm_small p); [specialize (Hl x Hx); lia|specialize (Hl y Hy); lia|].
    by apply (eqm_cancel p x y a). }
  assert (Hperm : (λ x, (a * x) mod p) <$> l ≡ₚ l).
  { apply submseteq_length_Permutation; [by apply NoDup_submseteq|by rewrite length_fmap]. }
  apply (eqm_cancel p _ _ (prodl l)); [done|by apply prodl_prime|].
  transitivity (prodl ((λ x, (a * x) mod p) <$> l)).
  - rewrite prodl_map, Z.mul_comm. unfold l. by rewrite length_seqZ, Z2Nat.id by lia.
  - by rewrite (prodl_perm _ _ Hperm), Z.mul_1_r.
Qed.
