(* ===== verification/Galois.v ===== *)
(** * Galois: field operations, FFT and convolution of [go/galois]

    A [*big.Int] is a [Z] and a [Field] its order [q].  The numbers are never changed in
    place, except those that the transforms made themselves, so the transforms are on
    values; [Convolve] pads its arguments with [append], which may write into arrays that
    they share, so it is on the slices of [Slices].  [cooleyTukey] recurses on
    the length of its input and has no base case for the empty slice, so its model
    takes fuel; [OutOfFuel] says that the call has not returned yet. *)

From S2P Require Import Prelude Slices ModArith.
Local Open Scope Z_scope.

Inductive galois_err :=
| NotPowerOfTwo
| RootIsOne
| NotRootOfUnity (root n : Z)
| FFTOfA (e : galois_err)
| FFTOfB (e : galois_err)
| FFTInverseOf (e : galois_err)
| OddRoot (n : Z)
| ReadError
| OutOfFuel.

(** [crypto/rand.Int(r, q)]: a number in [0,q), or an error of the reader. *)
Class Reader (R : Type) := rand_Int : R → Z → option (Z * R).
Class ReaderLaw (R : Type) `{Reader R} :=
  rand_Int_range : ∀ r q x r', 0 < q → rand_Int r q = Some (x, r') → 0 ≤ x < q.

(** ** Field *)

Definition Exp (q x y : Z) : Z := (x ^ y) mod q.
Definition Mul (q x y : Z) : Z := (x * y) mod q.

(** [ModInverse]: nil when [x] and the order are not coprime. *)
Definition MultInverse (q x : Z) : option Z :=
  if decide (Z.gcd x q = 1) then Some (Z.invmod x q) else None.

Definition Random {R} `{Reader R} (q : Z) (r : R) : outcome galois_err (Z * R) :=
  match rand_Int r q with
  | None => Fail ReadError
  | Some xr => Ret xr
  end.

(** The rejection loop of [RootOfUnity], one draw per unit of fuel. *)
Fixpoint root_loop {R} `{Reader R} (fuel : nat) (q n : Z) (primitive : bool) (r : R)
    : outcome galois_err (Z * R) :=
  match fuel with
  | O => Fail OutOfFuel
  | S fuel =>
      '(x, r) ← Random q r;
      let root := Exp q x ((q - 1) / n) in
      if negb primitive || negb (Exp q root (Z.shiftr n 1) =? 1) then Ret (root, r)
      else root_loop fuel q n primitive r
  end.

(** [n] is a uint64; [DivMod] by zero panics. *)
Definition RootOfUnity {R} `{Reader R} (fuel : nat) (q : Z) (r : R) (n : Z) (primitive : bool)
    : outcome galois_err (Z * R) :=
  if n mod 2 =? 1 then Fail (OddRoot n)
  else if n =? 0 then Panic
  else if negb ((q - 1) mod n =? 0) then Ret (1, r)
  else root_loop fuel q n primitive r.

(** ** FFT *)

Definition twiddleFactors (q : Z) (xs : list Z) (root : Z) : outcome galois_err (list Z) :=
  let n := u64 (Z.of_nat (length xs)) in
  if negb (Z.land n (u64 (n - 1)) =? 0) then Fail NotPowerOfTwo
  else if root =? 1 then Fail RootIsOne
  else if negb (Exp q root n =? 1) then Fail (NotRootOfUnity root n)
  else Ret ((λ i, Exp q root (Z.of_nat i)) <$> seq 0 (length xs)).

(** The index into [roots] used for frequency [k]: Go's [%] truncates. *)
Definition root_index (n stride k : nat) (inverse : bool) : nat :=
  let root := if inverse then Z.rem (Z.of_nat k * Z.of_nat stride) (Z.of_nat n)
              else let r := Z.rem (- Z.of_nat k * Z.of_nat stride) (Z.of_nat n) in
                   if r <? 0 then r + Z.of_nat n else r in
  Z.to_nat root.

(** The length of [xs] is a power of two, or zero, when this is called. *)
Fixpoint cooleyTukey (fuel : nat) (xs roots : list Z) (stride : nat) (inverse : bool)
    : outcome galois_err (list Z) :=
  match fuel with
  | O => Fail OutOfFuel
  | S fuel =>
      if decide (length xs = 1%nat) then Ret xs
      else
        let halfLen := Nat.div (length xs) 2 in
        let even := (λ i, xs !!! (i * 2)%nat) <$> seq 0 halfLen in
        let odd := (λ i, xs !!! (i * 2 + 1)%nat) <$> seq 0 halfLen in
        freqEven ← cooleyTukey fuel even roots (stride * 2) inverse;
        freqOdd ← cooleyTukey fuel odd roots (stride * 2) inverse;
        let o (k : nat) : Z := freqOdd !!! k * roots !!! root_index (length roots) stride k inverse in
        Ret (imap (λ k e, e + o k) freqEven ++ imap (λ k e, e - o k) freqEven)
  end.

Definition fft (fuel : nat) (q : Z) (xs : list Z) (primitiveRoot : Z) (inverse : bool)
    : outcome galois_err (list Z) :=
  roots ← twiddleFactors q xs primitiveRoot;
  freq ← cooleyTukey fuel xs roots 1 inverse;
  Ret (fmap (M:=list) (λ fr, Z.abs (fr mod q)) freq).

Definition FFT (fuel : nat) (q : Z) (x : list Z) (primitiveRoot : Z) : outcome galois_err (list Z) :=
  fft fuel q x primitiveRoot false.

(** Multiplying by the nil inverse panics. *)
Definition FFTInverse (fuel : nat) (q : Z) (X : list Z) (primitiveRoot : Z)
    : outcome galois_err (list Z) :=
  time ← fft fuel q X primitiveRoot true;
  omapM (λ t, inv ← or_panic (MultInverse q (Z.of_nat (length X))); Ret (Mul q t inv)) time.

(** ** Convolution *)

(** [64 - bits.LeadingZeros64(n)]. *)
Definition bit_length (n : Z) : Z := if n =? 0 then 0 else Z.log2 n + 1.

Definition convolutionSize (a b : slice) : Z :=
  let n := u64 (Z.of_nat (len a) + Z.of_nat (len b) - 1) in
  if Z.land n (u64 (n - 1)) =? 0 then n else u64 (Z.shiftl 1 (bit_length n)).

(** [make] with a negative length panics.  Where the capacity suffices, [append] writes the
    zeros behind [x], into its array. *)
Definition zeroPad (m : list (list Z)) (x : slice) (size : Z) : outcome galois_err (list (list Z) * slice) :=
  let pad := size - Z.of_nat (len x) in
  if pad <? 0 then Panic else Ret (append m x (replicate (Z.to_nat pad) 0)).

Definition ConvolutionRoot {R} `{Reader R} (fuel : nat) (q : Z) (r : R) (a b : slice)
    : outcome galois_err (Z * R) :=
  RootOfUnity fuel q r (convolutionSize a b) true.

(** The memory is left as it is when the call ends; the result is a new slice. *)
Definition Convolve (fuel : nat) (q : Z) (m : list (list Z)) (a b : slice) (primitiveRoot : Z)
    : list (list Z) * outcome galois_err (list Z) :=
  let n := i64 (convolutionSize a b) in
  match zeroPad m a n with
  | Ret (m, pa) =>
      match map_err FFTOfA (FFT fuel q (contents m pa) primitiveRoot) with
      | Ret aFreq =>
          match zeroPad m b n with
          | Ret (m, pb) =>
              (m,
               bFreq ← map_err FFTOfB (FFT fuel q (contents m pb) primitiveRoot);
               let product := imap (λ i (x : Z), x * bFreq !!! i) aFreq in
               result ← map_err FFTInverseOf (FFTInverse fuel q product primitiveRoot);
               Ret (take (len a + len b - 1) result))
          | Fail e => (m, Fail e)
          | Panic => (m, Panic)
          end
      | Fail e => (m, Fail e)
      | Panic => (m, Panic)
      end
  | Fail e => (m, Fail e)
  | Panic => (m, Panic)
  end.

(** ** Powers of a root of unity *)

Section roots.
Context (q root : Z) (N : nat).
Hypothesis (Hq : 1 < q) (HN : (0 < N)%nat).
Hypothesis (Hroot : root ^ Z.of_nat N =[q] 1).

(** The power of the root that a twiddle factor of exponent [i] stands for. *)
Definition tw (i : Z) : Z := Exp q root (i mod Z.of_nat N).

Definition twiddles : list Z := (λ i, Exp q root (Z.of_nat i)) <$> seq 0 N.

Lemma Exp_eqm x y : Exp q x y =[q] x ^ y.
Proof. apply eqm_mod. Qed.

Lemma tw_add a b : tw (a + b) =[q] tw a * tw b.
Proof.
  unfold tw. rewrite !Exp_eqm.
  pose proof (Z.mod_pos_bound a (Z.of_nat N)). pose proof (Z.mod_pos_bound b (Z.of_nat N)).
  pose proof (Z.mod_pos_bound (a + b) (Z.of_nat N)).
  rewrite <-Z.pow_add_r by lia. rewrite Zplus_mod.
  set (s := a mod Z.of_nat N + b mod Z.of_nat N) in *.
  assert (0 ≤ s / Z.of_nat N) by (apply Z.div_pos; lia).
  pose proof (Z.mod_pos_bound s (Z.of_nat N)).
  rewrite (Z.div_mod s (Z.of_nat N)) at 2 by lia.
  rewrite Z.pow_add_r, Z.pow_mul_r by nia.
  rewrite (eqm_pow q (root ^ Z.of_nat N) 1) by done.
  by rewrite Z.pow_1_l, Z.mul_1_l by done.
Qed.

Lemma tw_0 : tw 0 =[q] 1.
Proof. unfold tw. by rewrite Exp_eqm, Zmod_0_l. Qed.

Lemma tw_period a k : tw (a + Z.of_nat N * k) = tw a.
Proof.
  unfold tw. f_equal. rewrite (Z.mul_comm _ k). apply Z_mod_plus_full.
Qed.

Lemma tw_pow i (n : nat) : tw (i * Z.of_nat n) =[q] tw i ^ Z.of_nat n.
Proof.
  induction n as [|n IH]; [by rewrite Z.mul_0_r, tw_0|].
  rewrite Nat2Z.inj_succ, Z.mul_succ_r, tw_add, IH, Z.pow_succ_r by lia.
  by rewrite Z.mul_comm.
Qed.

Lemma length_twiddles : length twiddles = N.
Proof. unfold twiddles. by rewrite length_fmap, length_seq. Qed.

Lemma twiddles_lookup (i : Z) : twiddles !!! Z.to_nat (i mod Z.of_nat N) = tw i.
Proof.
  pose proof (Z.mod_pos_bound i (Z.of_nat N)).
  apply list_lookup_total_correct. unfold twiddles. rewrite list_lookup_fmap, lookup_seq_lt by lia.
  simpl. unfold tw. do 2 f_equal. lia.
Qed.

Definition dir (inverse : bool) : Z := if inverse then 1 else -1.

Lemma root_index_spec stride k inverse :
  root_index N stride k inverse
  = Z.to_nat ((dir inverse * (Z.of_nat k * Z.of_nat stride)) mod Z.of_nat N).
Proof.
  unfold root_index, dir. destruct inverse.
  - by rewrite Z.rem_mod_nonneg, Z.mul_1_l by lia.
  - rewrite Z.mul_opp_l. set (a := Z.of_nat k * Z.of_nat stride).
    replace (-1 * a) with (- a) by lia. assert (0 ≤ a) by lia. rewrite Z.rem_opp_l, Z.rem_mod_nonneg by lia.
    pose proof (Z.mod_pos_bound a (Z.of_nat N)).
    destruct (Z.eq_dec (a mod Z.of_nat N) 0) as [E|E].
    + rewrite Z.mod_opp_l_z, E by lia. done.
    + rewrite Z.mod_opp_l_nz by lia. destruct (Z.ltb_spec (- (a mod Z.of_nat N)) 0); lia.
Qed.
End roots.

(** ** The recursion computes the transform *)

Section fft_correct.
Context (q root : Z) (N : nat).
Hypothesis (Hq : 1 < q) (HN : (0 < N)%nat).
Hypothesis (Hroot : root ^ Z.of_nat N =[q] 1).
(** The root is primitive: half-way round it is -1. *)
Hypothesis (Hhalf : ∀ m, N = (m * 2)%nat → root ^ Z.of_nat m =[q] -1).

Abbreviation tw := (tw q root N).

Lemma tw_add_N a b : tw (a + Z.of_nat N * b) =[q] tw a.
Proof. by rewrite tw_period. Qed.

(** Half a turn negates, in either direction. *)
Lemma tw_half inverse m a : N = (m * 2)%nat → tw (a + dir inverse * Z.of_nat m) =[q] - tw a.
Proof.
  intros Hm. rewrite tw_add by done.
  assert (tw (dir inverse * Z.of_nat m) =[q] -1) as ->; [|by replace (tw a * -1) with (- tw a) by lia].
  assert (tw (Z.of_nat m) =[q] -1) as Hpos.
  { unfold Galois.tw. rewrite Exp_eqm, Z.mod_small by lia. by apply Hhalf. }
  destruct inverse; simpl dir; [by rewrite Z.mul_1_l|].
  replace (-1 * Z.of_nat m) with (Z.of_nat m + Z.of_nat N * -1) by lia. by rewrite tw_add_N.
Qed.

Definition spectrum (inverse : bool) (len stride : nat) (xs : list Z) (k : nat) : Z :=
  sumn len (λ n, xs !!! n * tw (dir inverse * (Z.of_nat k * Z.of_nat stride * Z.of_nat n))).

Lemma spectrum_split inverse len stride xs k (e o : Z) :
  let even := (λ i, xs !!! (i * 2)%nat) <$> seq 0 len in
  let odd := (λ i, xs !!! (i * 2 + 1)%nat) <$> seq 0 len in
  e =[q] spectrum inverse len (stride * 2) even k →
  o =[q] spectrum inverse len (stride * 2) odd k →
  spectrum inverse (len * 2) stride xs k
  =[q] e + o * tw (dir inverse * (Z.of_nat k * Z.of_nat stride)).
Proof.
  intros even odd -> ->. unfold spectrum. rewrite sumn_parity, sumn_mul_r.
  assert (∀ (f : nat → Z) n, (n < len)%nat → ((λ i, f i) <$> seq 0 len) !!! n = f n) as Hl.
  { intros f n Hn. apply list_lookup_total_correct. by rewrite list_lookup_fmap, lookup_seq_lt. }
  apply eqm_add; apply sumn_eqm; intros n Hn.
  - subst even. rewrite Hl by done.
    replace (Z.of_nat k * Z.of_nat (stride * 2) * Z.of_nat n)
      with (Z.of_nat k * Z.of_nat stride * Z.of_nat (n * 2)) by lia. done.
  - subst odd. rewrite Hl, <-(Z.mul_assoc (xs !!! _)), <-tw_add by done.
    by replace (dir inverse * (Z.of_nat k * Z.of_nat stride * Z.of_nat (n * 2 + 1)))
      with (dir inverse * (Z.of_nat k * Z.of_nat (stride * 2) * Z.of_nat n)
            + dir inverse * (Z.of_nat k * Z.of_nat stride)) by lia.
Qed.

(** The second half of the frequencies: [tw] changes sign. *)
Lemma spectrum_half inverse len stride xs k (e o : Z) :
  (len * 2 * stride)%nat = N →
  let even := (λ i, xs !!! (i * 2)%nat) <$> seq 0 len in
  let odd := (λ i, xs !!! (i * 2 + 1)%nat) <$> seq 0 len in
  e =[q] spectrum inverse len (stride * 2) even k →
  o =[q] spectrum inverse len (stride * 2) odd k →
  spectrum inverse (len * 2) stride xs (k + len)
  =[q] e - o * tw (dir inverse * (Z.of_nat k * Z.of_nat stride)).
Proof.
  intros HNe even odd He Ho.
  assert (∀ ys, spectrum inverse len (stride * 2) ys k =[q] spectrum inverse len (stride * 2) ys (k + len)) as Hper.
  { intros ys. apply sumn_eqm. intros n Hn.
    replace (dir inverse * (Z.of_nat (k + len) * Z.of_nat (stride * 2) * Z.of_nat n))
      with (dir inverse * (Z.of_nat k * Z.of_nat (stride * 2) * Z.of_nat n)
            + Z.of_nat N * (dir inverse * Z.of_nat n)) by lia.
    by rewrite tw_add_N. }
  rewrite Hper in He, Ho. rewrite spectrum_split by done.
  replace (dir inverse * (Z.of_nat (k + len) * Z.of_nat stride))
    with (dir inverse * (Z.of_nat k * Z.of_nat stride) + dir inverse * Z.of_nat (len * stride)) by lia.
  rewrite tw_half by lia. by rewrite Z.mul_opp_r, Z.add_opp_r.
Qed.

Theorem ct_spec inverse h : ∀ fuel xs stride,
  length xs = (2 ^ h)%nat → (2 ^ h * stride)%nat = N → (h < fuel)%nat →
  ∃ ys, cooleyTukey fuel xs (twiddles q root N) stride inverse = Ret ys ∧ length ys = (2 ^ h)%nat ∧
    ∀ k, (k < 2 ^ h)%nat → ys !!! k =[q] spectrum inverse (2 ^ h) stride xs k.
Proof.
  induction h as [|h IH]; intros [|fuel] xs stride Hl HNe Hf; try lia.
  { simpl in Hl. exists xs. split; [simpl; by rewrite decide_True|]. split; [done|].
    intros k Hk. assert (k = 0%nat) as -> by (simpl in Hk; lia).
    unfold spectrum. simpl. by rewrite Z.mul_0_r, tw_0, Z.mul_1_r. }
  rewrite Nat.pow_succ_r' in Hl. rewrite Nat.pow_succ_r', (Nat.mul_comm 2) in HNe |- *.
  pose proof (Nat.pow_nonzero 2 h ltac:(lia)).
  cbn [cooleyTukey]. rewrite decide_False by lia. cbv zeta.
  replace (Nat.div (length xs) 2) with (2 ^ h)%nat
    by (rewrite Hl, Nat.mul_comm, Nat.div_mul; lia).
  set (even := fmap (M:=list) (λ i, xs !!! (i * 2)%nat) (seq 0 (2 ^ h))).
  set (odd := fmap (M:=list) (λ i, xs !!! (i * 2 + 1)%nat) (seq 0 (2 ^ h))).
  destruct (IH fuel even (stride * 2)%nat) as (fe & -> & Lfe & He);
    [unfold even; by rewrite length_fmap, length_seq|lia|lia|].
  destruct (IH fuel odd (stride * 2)%nat) as (fo & -> & Lfo & Ho);
    [unfold odd; by rewrite length_fmap, length_seq|lia|lia|].
  cbn [mbind outcome_mbind]. eexists. split; [reflexivity|].
  rewrite length_app, !length_imap. split; [lia|]. intros k Hk.
  assert (∀ k, (k < 2 ^ h)%nat → twiddles q root N !!! root_index (length (twiddles q root N)) stride k inverse
    = tw (dir inverse * (Z.of_nat k * Z.of_nat stride))) as Htw.
  { intros j Hj. by rewrite length_twiddles, root_index_spec, twiddles_lookup. }
  destruct (decide (k < 2 ^ h)%nat) as [Hlt|Hge].
  - rewrite lookup_total_app_l by (rewrite length_imap; lia).
    destruct (lookup_lt_is_Some_2 fe k) as [e Hek]; [lia|].
    erewrite list_lookup_total_correct by (rewrite list_lookup_imap, Hek; reflexivity).
    rewrite Htw by done. symmetry. apply spectrum_split; [|by apply Ho].
    rewrite <-(list_lookup_total_correct _ _ _ Hek). by apply He.
  - rewrite lookup_total_app_r by (rewrite length_imap; lia).
    destruct (Nat.le_exists_sub (2 ^ h) k) as (j & -> & _); [lia|].
    rewrite length_imap, Lfe, Nat.add_sub. assert (j < 2 ^ h)%nat as Hj by lia.
    destruct (lookup_lt_is_Some_2 fe j) as [e Hek]; [lia|].
    erewrite list_lookup_total_correct by (rewrite list_lookup_imap, Hek; reflexivity).
    rewrite Htw by done. symmetry. apply spectrum_half; [done| |by apply Ho].
    rewrite <-(list_lookup_total_correct _ _ _ Hek). by apply He.
Qed.
End fft_correct.

(** ** Primitive roots *)

(** What [RootOfUnity] tests of a root it is asked to be primitive. *)
Definition primitive_root (q : Z) (N : nat) (root : Z) : Prop :=
  root ^ Z.of_nat N =[q] 1 ∧ ∀ m, N = (m * 2)%nat → ¬ root ^ Z.of_nat m =[q] 1.

(** The naive transforms that the package's tests compare with. *)
Definition dft (q root : Z) (xs : list Z) : list Z :=
  (λ k, sumn (length xs)
    (λ n, xs !!! n * Exp q root ((- Z.of_nat k * Z.of_nat n) mod Z.of_nat (length xs))) mod q)
  <$> seq 0 (length xs).

Definition convolution (q : Z) (a b : list Z) : list Z :=
  (λ k, sumn (S k) (λ i, nth i a 0 * nth (k - i) b 0) mod q)
  <$> seq 0 (length a + length b - 1).

Lemma primitive_half q N root m : Z.prime q → primitive_root q N root → N = (m * 2)%nat →
  root ^ Z.of_nat m =[q] -1.
Proof.
  intros Hq [H1 H2] Hm. specialize (H2 m Hm). set (w := root ^ Z.of_nat m) in *.
  assert ((w - 1) * (w + 1) =[q] 0) as Hz.
  { replace ((w - 1) * (w + 1)) with (w ^ 2 - 1) by lia. unfold w.
    rewrite <-Z.pow_mul_r by lia. replace (Z.of_nat m * 2) with (Z.of_nat N) by lia. by rewrite H1. }
  apply eqm_0 in Hz. apply Z.divide_prime_mul in Hz as [Hz|Hz]; [| |done].
  - by rewrite <-eqm_sub_0 in Hz.
  - apply eqm_sub_0. by replace (w - -1) with (w + 1) by lia.
Qed.

(** Some multiple of every exponent below [2 ^ h] is half of [2 ^ h]. *)
Lemma half_multiple h j : (0 < j < 2 ^ S h)%nat → ∃ c t : nat, (c * j = 2 ^ h + 2 ^ S h * t)%nat.
Proof.
  revert j. induction h as [|h IH]; intros j Hj.
  { exists 1%nat, 0%nat. simpl in *. lia. }
  rewrite (Nat.pow_succ_r' 2 (S h)) in Hj.
  destruct (Nat.Even_or_Odd j) as [[i ->]|[i ->]].
  - destruct (IH i) as (c & t & E); [lia|]. exists c, t.
    rewrite (Nat.pow_succ_r' 2 (S h)), (Nat.pow_succ_r' 2 h) in *. lia.
  - exists (2 ^ S h)%nat, i. rewrite (Nat.pow_succ_r' 2 (S h)). lia.
Qed.

Section orthogonality.
Context (q root : Z) (h : nat).
Abbreviation N := (2 ^ h)%nat.
Hypothesis (Hq : Z.prime q) (Hroot : primitive_root q N root).

Lemma prime_gt_1 : 1 < q.
Proof. by destruct Hq. Qed.

Lemma N_pos : (0 < N)%nat.
Proof. pose proof (Nat.pow_nonzero 2 h ltac:(lia)). lia. Qed.

Lemma root_N : root ^ Z.of_nat N =[q] 1.
Proof. by destruct Hroot. Qed.

Lemma root_half m : N = (m * 2)%nat → root ^ Z.of_nat m =[q] -1.
Proof. by apply primitive_half. Qed.

(** A proper power of the root differs from 1. *)
Lemma tw_neq_1 j : (0 < j < N)%nat → ¬ (q | tw q root N (Z.of_nat j) - 1).
Proof.
  intros Hj Hd. apply eqm_sub_0 in Hd. destruct h as [|h'] eqn:Eh; [simpl in Hj; lia|].
  destruct (half_multiple h' j Hj) as (c & t & E).
  destruct Hroot as [H1 H2]. apply (H2 (2 ^ h')%nat); [rewrite Nat.pow_succ_r'; lia|].
  transitivity (tw q root (2 ^ S h')%nat (Z.of_nat (2 ^ h'))).
  { unfold tw. rewrite Exp_eqm, Z.mod_small; [done|]. rewrite (Nat.pow_succ_r' 2 h').
    pose proof (Nat.pow_nonzero 2 h' ltac:(lia)). lia. }
  rewrite <-(tw_period q root (2 ^ S h')%nat (Z.of_nat (2 ^ h')) (Z.of_nat t)).
  pose proof N_pos as HN. rewrite Eh in HN.
  replace (Z.of_nat (2 ^ h') + Z.of_nat (2 ^ S h') * Z.of_nat t) with (Z.of_nat j * Z.of_nat c) by lia.
  rewrite tw_pow, (eqm_pow q _ 1) by (done || lia || apply prime_gt_1). by rewrite Z.pow_1_l by lia.
Qed.

Lemma orthogonal j : (Z.abs j < Z.of_nat N) →
  sumn N (λ k, tw q root N (Z.of_nat k * j)) =[q] if decide (j = 0) then Z.of_nat N else 0.
Proof.
  intros Hj. pose proof N_pos as HN. pose proof prime_gt_1 as Hq1. pose proof root_N as Hr.
  destruct (decide (j = 0)) as [->|Hne].
  { rewrite (sumn_eqm q _ _ (λ _, 1)); [by rewrite sumn_const, Z.mul_1_r|].
    intros i _. by rewrite Z.mul_0_r, tw_0. }
  set (i := Z.to_nat (j mod Z.of_nat N)).
  pose proof (Z.mod_pos_bound j (Z.of_nat N)).
  assert (j mod Z.of_nat N ≠ 0) as Hnz.
  { intros [c Hc]%Z.mod_divide; [|lia]. destruct (decide (c = 0)); nia. }
  assert (tw q root N (Z.of_nat i) = tw q root N j) as Hi.
  { unfold tw, i. rewrite Z2Nat.id, Zmod_mod by lia. done. }
  apply (eqm_cancel q _ _ (tw q root N (Z.of_nat i) - 1)); [done|apply tw_neq_1; lia|].
  rewrite Hi, Z.mul_0_r.
  transitivity ((tw q root N j - 1) * sumn N (λ k, tw q root N j ^ Z.of_nat k)).
  { apply eqm_mul; [done|]. apply sumn_eqm. intros k _. by rewrite Z.mul_comm, tw_pow. }
  rewrite sumn_geometric, <-tw_pow by done.
  rewrite <-(Z.add_0_l (j * _)), (Z.mul_comm j), tw_period by done.
  by rewrite tw_0.
Qed.

(** [len] divides into the sum of all entries of a row. *)
Lemma sumn_orthogonal m (f : nat → Z) (g : nat → Z) :
  (∀ i, (i < N)%nat → f i =[q] 0 ∨ Z.abs (g i - Z.of_nat m) < Z.of_nat N) →
  sumn N (λ k, sumn N (λ i, f i * tw q root N (Z.of_nat k * (Z.of_nat m - g i))))
  =[q] Z.of_nat N * sumn N (λ i, if decide (g i = Z.of_nat m) then f i else 0).
Proof.
  intros Hg. rewrite sumn_swap, sumn_mul_l. apply sumn_eqm. intros i Hi.
  rewrite <-sumn_mul_l. destruct (Hg i Hi) as [Hz|Hb].
  { destruct (decide (g i = Z.of_nat m)); by rewrite Hz, Z.mul_0_l, Z.mul_0_r. }
  rewrite orthogonal by lia.
  destruct (decide (g i = Z.of_nat m)) as [E|E].
  - rewrite decide_True by lia. by rewrite Z.mul_comm.
  - rewrite decide_False by lia. by rewrite !Z.mul_0_r.
Qed.
End orthogonality.

(** ** Sizes *)

Lemma land_pred_pow2 h : Z.land (2 ^ Z.of_nat h) (2 ^ Z.of_nat h - 1) = 0.
Proof.
  rewrite Z.sub_1_r, <-Z.ones_equiv, Z.land_ones by lia. by rewrite Z.mod_same by (apply Z.pow_nonzero; lia).
Qed.

(** [n & (n-1)] is zero on the powers of two only. *)
Lemma land_pred_zero n : 0 < n → Z.land n (n - 1) = 0 → n = 2 ^ Z.log2 n.
Proof.
  intros Hn HL. destruct (Z.eq_dec n (2 ^ Z.log2 n)) as [|Hne]; [done|exfalso].
  pose proof (Z.log2_spec n Hn) as [Hlo Hhi]. pose proof (Z.log2_nonneg n) as Hl0.
  assert (Z.log2 (n - 1) = Z.log2 n) as Hl by (apply Z.log2_unique; lia).
  assert (Z.testbit (Z.land n (n - 1)) (Z.log2 n) = true) as Hb; [|by rewrite HL, Z.bits_0 in Hb].
  assert (0 < 2 ^ Z.log2 n) by (apply Z.pow_pos_nonneg; lia).
  rewrite Z.land_spec, Z.bit_log2, <-Hl, Z.bit_log2 by lia. done.
Qed.

Lemma of_nat_pow2 h : Z.of_nat (2 ^ h) = 2 ^ Z.of_nat h.
Proof. by rewrite Nat2Z.inj_pow. Qed.

Lemma pow2_of_Z n : 0 < n → n = 2 ^ Z.log2 n → Z.to_nat n = (2 ^ Z.to_nat (Z.log2 n))%nat.
Proof.
  intros Hn E. pose proof (Z.log2_nonneg n). apply Nat2Z.inj.
  rewrite of_nat_pow2, !Z2Nat.id by lia. done.
Qed.

Lemma u64_len n : 0 < n < 2 ^ 63 → u64 n = n ∧ u64 (n - 1) = n - 1.
Proof. intros Hn. assert (2 ^ 63 < 2 ^ 64) by done. split; apply uwrap_small; lia. Qed.

Lemma twiddleFactors_pow2 q root h xs :
  1 < q → length xs = (2 ^ h)%nat → Z.of_nat (length xs) < 2 ^ 63 →
  twiddleFactors q xs root =
    if root =? 1 then Fail RootIsOne
    else if decide (root ^ Z.of_nat (2 ^ h) =[q] 1) then Ret (twiddles q root (2 ^ h))
    else Fail (NotRootOfUnity root (Z.of_nat (2 ^ h))).
Proof.
  intros Hq Hl Hb. unfold twiddleFactors. pose proof (Nat.pow_nonzero 2 h ltac:(lia)).
  destruct (u64_len (Z.of_nat (length xs))) as [-> ->]; [lia|].
  rewrite Hl, of_nat_pow2, land_pred_pow2. cbn [Z.eqb negb]. destruct (root =? 1); [done|].
  unfold Exp. rewrite <-of_nat_pow2. case_decide as E.
  - destruct E as [E]. rewrite E, Zmod_1_l by done. done.
  - destruct (Z.eqb_spec ((root ^ Z.of_nat (2 ^ h)) mod q) 1) as [E'|]; [|done].
    destruct E. constructor. by rewrite E', Zmod_1_l.
Qed.

(** ** The transform and its inverse *)

Lemma pow2_even h : (0 < h)%nat → (2 ^ h = 2 ^ (h - 1) * 2)%nat.
Proof. destruct h as [|h]; [lia|]. rewrite Nat.pow_succ_r', Nat.sub_1_r. simpl Nat.pred. lia. Qed.

Lemma pow2_bound h : (h < 63)%nat → Z.of_nat (2 ^ h) < 2 ^ 63.
Proof. intros. rewrite of_nat_pow2. apply Z.pow_lt_mono_r; lia. Qed.

Section transforms.
Context (q root : Z) (h : nat).
Abbreviation N := (2 ^ h)%nat.
Hypothesis (Hq : Z.prime q) (Hroot : primitive_root q N root) (Hh : (0 < h < 63)%nat).

Lemma primitive_neq_1 : root ≠ 1.
Proof.
  intros E. destruct Hroot as [_ H2]. apply (H2 _ (pow2_even h ltac:(lia))). by rewrite E, Z.pow_1_l by lia.
Qed.

Lemma fft_spec fuel inverse xs : (h < fuel)%nat → length xs = N →
  fft fuel q xs root inverse
  = Ret ((λ k, spectrum q root N inverse N 1 xs k mod q) <$> seq 0 N).
Proof.
  intros Hf Hl. pose proof (prime_gt_1 q Hq) as Hq1. pose proof (N_pos h) as HN.
  unfold fft. rewrite (twiddleFactors_pow2 _ _ h) by (done || rewrite Hl; apply pow2_bound; lia).
  pose proof primitive_neq_1. pose proof (root_N q root h Hroot) as Hr.
  destruct (Z.eqb_spec root 1); [done|]. rewrite decide_True by done. cbn [mbind outcome_mbind].
  destruct (ct_spec q root N Hq1 HN Hr (root_half q root h Hq Hroot) inverse h fuel xs 1)
    as (ys & -> & Ly & Hy); [done|lia|done|]. cbn [mbind outcome_mbind]. f_equal.
  apply list_eq. intros k. rewrite !list_lookup_fmap.
  destruct (decide (k < N)%nat) as [Hk|Hk].
  - destruct (lookup_lt_is_Some_2 ys k) as [y E]; [lia|].
    rewrite E, lookup_seq_lt by done. simpl. f_equal.
    pose proof (Z.mod_pos_bound y q). rewrite Z.abs_eq by lia.
    apply eqm_eq. rewrite <-(list_lookup_total_correct _ _ _ E). by apply Hy.
  - rewrite lookup_ge_None_2, lookup_seq_ge by lia. done.
Qed.

Lemma N_coprime : Z.gcd (Z.of_nat N) q = 1.
Proof.
  assert (¬ (q | Z.of_nat N)) as Hn.
  { rewrite of_nat_pow2. intros Hd.
    assert (∀ i, (q | 2 ^ Z.of_nat i) → (q | 2)) as H2.
    { induction i as [|i IH]; intros Hi.
      - destruct Hq as [H1 _]. simpl in Hi. apply Z.divide_1_r_nonneg in Hi; lia.
      - rewrite Nat2Z.inj_succ, Z.pow_succ_r in Hi by lia.
        apply Z.divide_prime_mul in Hi as [Hi|Hi]; auto. }
    apply H2 in Hd. destruct Hroot as [_ H]. apply (H _ (pow2_even h ltac:(lia))).
    rewrite (primitive_half q N root _ Hq Hroot (pow2_even h ltac:(lia))). apply eqm_sub_0.
    by apply Z.divide_opp_r. }
  rewrite Z.gcd_comm. by apply Z.coprime_prime_l.
Qed.

Lemma FFTInverse_spec fuel X : (h < fuel)%nat → length X = N →
  ∃ ys, FFTInverse fuel q X root = Ret ys ∧ length ys = N ∧
    ∀ m, (m < N)%nat → 0 ≤ ys !!! m < q ∧
      Z.of_nat N * ys !!! m =[q] spectrum q root N true N 1 X m.
Proof.
  intros Hf Hl. pose proof (prime_gt_1 q Hq) as Hq1.
  unfold FFTInverse. rewrite (fft_spec fuel true X) by done. cbn [mbind outcome_mbind].
  rewrite Hl. unfold MultInverse. rewrite decide_True by apply N_coprime.
  set (inv := Z.invmod (Z.of_nat N) q). set (spec := spectrum q root N true N 1 X).
  exists ((λ k, Mul q (spec k mod q) inv) <$> seq 0 N).
  split; [|split].
  - apply omapM_Ret. apply Forall2_fmap. apply Forall_Forall2_diag, Forall_true. done.
  - by rewrite length_fmap, length_seq.
  - intros m Hm. erewrite list_lookup_total_correct
      by (rewrite list_lookup_fmap, lookup_seq_lt by done; reflexivity).
    simpl. unfold Mul. split; [apply Z.mod_pos_bound; lia|].
    rewrite !eqm_mod. rewrite Z.mul_comm, <-Z.mul_assoc.
    assert (inv * Z.of_nat N =[q] 1) as ->; [|by rewrite Z.mul_1_r].
    constructor. rewrite Zmod_1_l by done. apply Z.invmod_coprime; [lia|apply N_coprime].
Qed.
End transforms.

(** C3. For a prime order, a power-of-two length and a root that passes the
    primitivity test of [RootOfUnity], [FFT] returns, and what it returns is the
    naive discrete Fourier transform (the reference of the package's tests). *)
Theorem FFT_correct q root h xs fuel :
  Z.prime q → primitive_root q (2 ^ h) root → (0 < h < 63)%nat → length xs = (2 ^ h)%nat →
  (h < fuel)%nat → FFT fuel q xs root = Ret (dft q root xs).
Proof.
  intros Hq Hr Hh Hl Hf. unfold FFT. rewrite (fft_spec q root h) by done. f_equal.
  unfold dft. rewrite Hl. apply list_fmap_ext. intros _ k _. f_equal. unfold spectrum.
  apply sumn_ext. intros n _. unfold tw. simpl dir.
  replace (-1 * (Z.of_nat k * Z.of_nat 1 * Z.of_nat n)) with (- Z.of_nat k * Z.of_nat n) by lia.
  done.
Qed.

Lemma FFT_correct_witness :
  FFT 9 17 [3; 1; 4; 1; 5; 9; 2; 6] 9 = Ret (dft 17 9 [3; 1; 4; 1; 5; 9; 2; 6]).
Proof.
  apply (FFT_correct 17 9 3); try (simpl; lia); [by apply primeb_prime|].
  split; [by constructor|]. intros m Hm.
  assert (m = 4)%nat as -> by (simpl in Hm; lia). by intros [H].
Defined.

(** The values [FFTInverse] returns are determined by their multiples. *)
Lemma FFTInverse_unique q root h fuel X zs :
  Z.prime q → primitive_root q (2 ^ h) root → (0 < h < 63)%nat → length X = (2 ^ h)%nat →
  (h < fuel)%nat → length zs = (2 ^ h)%nat →
  (∀ m, (m < 2 ^ h)%nat →
    spectrum q root (2 ^ h) true (2 ^ h) 1 X m =[q] Z.of_nat (2 ^ h) * zs !!! m) →
  FFTInverse fuel q X root = Ret ((λ z, z mod q) <$> zs).
Proof.
  intros Hq Hr Hh Hl Hf Hz Hs.
  destruct (FFTInverse_spec q root h Hq Hr Hh fuel X Hf Hl) as (ys & -> & Ly & Hy).
  f_equal. apply list_eq. intros m. rewrite list_lookup_fmap.
  destruct (decide (m < 2 ^ h)%nat) as [Hm|Hm].
  - destruct (lookup_lt_is_Some_2 ys m) as [y E]; [lia|].
    destruct (lookup_lt_is_Some_2 zs m) as [z Ez]; [lia|].
    destruct (Hy m Hm) as [Hb Hq1]. specialize (Hs m Hm). rewrite Hs in Hq1.
    rewrite (list_lookup_total_correct _ _ _ E) in Hb, Hq1.
    rewrite (list_lookup_total_correct _ _ _ Ez) in Hq1.
    apply eqm_cancel in Hq1; [|done|].
    + rewrite E, Ez. simpl. f_equal. destruct Hq1 as [<-]. by rewrite Z.mod_small.
    + pose proof (N_coprime q root h Hq Hr Hh) as Hc. rewrite Z.gcd_comm in Hc.
      by apply Z.coprime_prime_l_iff in Hc.
  - by rewrite !lookup_ge_None_2 by lia.
Qed.

Lemma fmap_seq_total (f : nat → Z) n k : (k < n)%nat → ((λ i, f i) <$> seq 0 n) !!! k = f k.
Proof. intros Hk. apply list_lookup_total_correct. by rewrite list_lookup_fmap, lookup_seq_lt. Qed.

(** The inverse spectrum only depends on the frequencies modulo the order. *)
Lemma spectrum_inverse q root h (X : nat → Z) m Xs :
  (∀ k, (k < 2 ^ h)%nat → Xs !!! k =[q] X k) →
  spectrum q root (2 ^ h) true (2 ^ h) 1 Xs m
  =[q] sumn (2 ^ h) (λ k, X k * tw q root (2 ^ h) (Z.of_nat k * Z.of_nat m)).
Proof.
  intros HX. unfold spectrum. apply sumn_eqm. intros k Hk. rewrite HX by done. simpl dir.
  by replace (1 * (Z.of_nat m * Z.of_nat 1 * Z.of_nat k)) with (Z.of_nat k * Z.of_nat m) by lia.
Qed.

(** C4. [FFTInverse] inverts [FFT]: the composition returns the values it was
    given, reduced modulo the order. *)
Theorem FFT_roundtrip q root h xs fuel :
  Z.prime q → primitive_root q (2 ^ h) root → (0 < h < 63)%nat → length xs = (2 ^ h)%nat →
  (h < fuel)%nat →
  (X ← FFT fuel q xs root; FFTInverse fuel q X root) = Ret ((λ x, x mod q) <$> xs).
Proof.
  intros Hq Hr Hh Hl Hf. pose proof (prime_gt_1 q Hq). pose proof (N_pos h).
  pose proof (root_N q root h Hr). unfold FFT.
  rewrite (fft_spec q root h) by done. cbn [mbind outcome_mbind].
  apply (FFTInverse_unique q root h); try done; [by rewrite length_fmap, length_seq|].
  intros m Hm. rewrite (spectrum_inverse q root h (spectrum q root (2 ^ h) false (2 ^ h) 1 xs))
    by (intros; rewrite fmap_seq_total by done; apply eqm_mod). unfold spectrum.
  transitivity (sumn (2 ^ h) (λ k, sumn (2 ^ h)
    (λ n, xs !!! n * tw q root (2 ^ h) (Z.of_nat k * (Z.of_nat m - Z.of_nat n))))).
  { apply sumn_eqm. intros k _. rewrite sumn_mul_r. apply sumn_eqm. intros n _.
    rewrite <-(Z.mul_assoc (xs !!! n)), <-tw_add by done. simpl dir.
    by replace (-1 * (Z.of_nat k * Z.of_nat 1 * Z.of_nat n) + Z.of_nat k * Z.of_nat m)
      with (Z.of_nat k * (Z.of_nat m - Z.of_nat n)) by lia. }
  rewrite (sumn_orthogonal q root h Hq Hr m (λ n, xs !!! n) Z.of_nat) by (intros; right; lia).
  apply eqm_mul; [done|].
  rewrite (sumn_single q _ m) by (done || (intros; rewrite decide_False by lia; done)).
  by rewrite decide_True.
Qed.

Lemma FFT_roundtrip_witness :
  (X ← FFT 9 17 [3; 1; 4; 1; 5; 9; 2; 60] 9; FFTInverse 9 17 X 9)
  = Ret ((λ x, x mod 17) <$> [3; 1; 4; 1; 5; 9; 2; 60]).
Proof.
  apply (FFT_roundtrip 17 9 3); try (simpl; lia); [by apply primeb_prime|].
  split; [by constructor|]. intros m Hm.
  assert (m = 4)%nat as -> by (simpl in Hm; lia). by intros [H].
Defined.

(** ** Convolution *)

(** [convolutionSize] is the smallest power of two that holds
    [len(a)+len(b)-1] values, without overflow. *)
Theorem convolutionSize_spec a b :
  (0 < len a + len b - 1)%nat → Z.of_nat (len a + len b) < 2 ^ 62 →
  ∃ h, convolutionSize a b = Z.of_nat (2 ^ h) ∧ (h < 63)%nat ∧
    (len a + len b - 1 ≤ 2 ^ h)%nat ∧
    (∀ k, (len a + len b - 1 ≤ 2 ^ k)%nat → (h ≤ k)%nat).
Proof.
  intros Hpos Hlt. set (s := (len a + len b - 1)%nat) in *.
  assert (2 ^ 62 < 2 ^ 63) by done.
  unfold convolutionSize. cbv zeta.
  replace (Z.of_nat (len a) + Z.of_nat (len b) - 1) with (Z.of_nat s) by lia.
  destruct (u64_len (Z.of_nat s)) as [-> ->]; [lia|].
  pose proof (Z.log2_spec (Z.of_nat s)) as [Hlo Hhi]; [lia|].
  pose proof (Z.log2_nonneg (Z.of_nat s)) as Hl0. set (l := Z.to_nat (Z.log2 (Z.of_nat s))).
  assert (Z.of_nat l = Z.log2 (Z.of_nat s)) as El by lia. rewrite <-El in *.
  assert (l < 62)%nat as Hl62.
  { apply Nat2Z.inj_lt. apply (Z.pow_lt_mono_r_iff 2); lia. }
  rewrite <-Nat2Z.inj_succ, <-!of_nat_pow2 in *.
  assert (2 ^ S l = 2 * 2 ^ l)%nat as ES by apply Nat.pow_succ_r'.
  destruct (Z.eqb_spec (Z.land (Z.of_nat s) (Z.of_nat s - 1)) 0) as [HL|HL].
  - apply land_pred_zero in HL; [|lia]. rewrite <-El, <-of_nat_pow2 in HL.
    exists l. split_and!; [lia|lia|lia|]. intros k Hk.
    apply (Nat.pow_le_mono_r_iff 2); lia.
  - assert (s ≠ 2 ^ l)%nat as Hne.
    { intros E. apply HL. rewrite E, of_nat_pow2. apply land_pred_pow2. }
    exists (S l). unfold bit_length. destruct (Z.eqb_spec (Z.of_nat s) 0); [lia|].
    rewrite <-El. split_and!; [|lia|lia|].
    + rewrite Z.shiftl_1_l, of_nat_pow2 by lia.
      replace (Z.of_nat l + 1) with (Z.of_nat (S l)) by lia. apply uwrap_small.
      split; [lia|apply Z.pow_lt_mono_r; lia].
    + intros k Hk. assert (l < k)%nat; [|lia]. apply (Nat.pow_lt_mono_r_iff 2); lia.
Qed.

Lemma convolutionSize_spec_witness :
  let x := mkSlice 0 0 2 2 in
  ∃ h, convolutionSize x x = Z.of_nat (2 ^ h) ∧ (h < 63)%nat ∧ (3 ≤ 2 ^ h)%nat ∧
    (∀ k, (3 ≤ 2 ^ k)%nat → (h ≤ k)%nat).
Proof. apply (convolutionSize_spec (mkSlice 0 0 2 2) (mkSlice 0 0 2 2)); simpl; lia. Defined.

Lemma zeroPad_spec m a N : (len a ≤ N)%nat → zeroPad m a (Z.of_nat N) = Ret (append m a (replicate (N - len a) 0)).
Proof.
  intros H. unfold zeroPad. destruct (Z.ltb_spec (Z.of_nat N - Z.of_nat (len a)) 0); [lia|].
  by rewrite <-Nat2Z.inj_sub, Nat2Z.id by lia.
Qed.

Lemma pad_lookup (a : list Z) n i : (i < length a + n)%nat → (a ++ replicate n 0) !!! i = nth i a 0.
Proof.
  intros Hi. destruct (decide (i < length a)%nat) as [H|H].
  - rewrite lookup_total_app_l by lia. apply list_lookup_total_correct. destruct (lookup_lt_is_Some_2 a i H) as [x E].
    rewrite E. f_equal. symmetry. by apply nth_lookup_Some.
  - rewrite lookup_total_app_r, nth_overflow by lia.
    apply list_lookup_total_correct, lookup_replicate_2. lia.
Qed.

(** Products of spectra are spectra of convolutions: there is room for all the
    terms, so nothing wraps around. *)
Lemma spectra_product q root h a b N m :
  Z.prime q → primitive_root q (2 ^ h) root → N = (2 ^ h)%nat →
  (0 < length a)%nat → (0 < length b)%nat → (length a + length b - 1 ≤ N)%nat → (m < N)%nat →
  let A := spectrum q root N false N 1 (a ++ replicate (N - length a) 0) in
  let B := spectrum q root N false N 1 (b ++ replicate (N - length b) 0) in
  sumn N (λ k, A k * B k * tw q root N (Z.of_nat k * Z.of_nat m))
  =[q] Z.of_nat N * sumn (S m) (λ i, nth i a 0 * nth (m - i) b 0).
Proof.
  intros Hq Hr -> Ha Hb Hab Hm A B. set (N := (2 ^ h)%nat) in *.
  pose proof (prime_gt_1 q Hq). pose proof (N_pos h). pose proof (root_N q root h Hr).
  assert (∀ (x : list Z) k, (length x ≤ N)%nat →
    spectrum q root N false N 1 (x ++ replicate (N - length x) 0) k
    = sumn N (λ i, nth i x 0 * tw q root N (- (Z.of_nat k * Z.of_nat i)))) as HS.
  { intros x k Hx. unfold spectrum. apply sumn_ext. intros i Hi. rewrite pad_lookup by lia.
    do 2 f_equal. simpl dir. lia. }
  transitivity (sumn N (λ i, sumn N (λ k, sumn N (λ j, nth i a 0 * nth j b 0
    * tw q root N (Z.of_nat k * (Z.of_nat m - (Z.of_nat i + Z.of_nat j))))))).
  { rewrite (sumn_swap N N). apply sumn_eqm. intros k _. unfold A, B. rewrite !HS by lia.
    rewrite sumn_prod, sumn_mul_r. apply sumn_eqm. intros i _.
    rewrite sumn_mul_r. apply sumn_eqm. intros j _.
    replace (Z.of_nat k * (Z.of_nat m - (Z.of_nat i + Z.of_nat j)))
      with (- (Z.of_nat k * Z.of_nat i) + - (Z.of_nat k * Z.of_nat j) + Z.of_nat k * Z.of_nat m) by lia.
    rewrite !tw_add by done.
    apply eqm_eq_Z. lia. }
  transitivity (sumn N (λ i, Z.of_nat N * if decide (i < S m)%nat then nth i a 0 * nth (m - i) b 0 else 0)).
  { apply sumn_eqm. intros i Hi. unfold N. rewrite (sumn_orthogonal q root h Hq Hr m
      (λ j, nth i a 0 * nth j b 0) (λ j, Z.of_nat i + Z.of_nat j)).
    - apply eqm_mul; [done|]. case_decide as Hc.
      + rewrite (sumn_single q _ (m - i)) by (fold N; lia || (intros; rewrite decide_False by lia; done)).
        by rewrite decide_True by lia.
      + rewrite (sumn_ext _ _ (λ _, 0)); [by rewrite sumn_0|]. intros; by rewrite decide_False by lia.
    - intros j Hj. fold N. destruct (decide (i < length a)%nat); [|rewrite (nth_overflow a) by lia; by left].
      destruct (decide (j < length b)%nat); [right; lia|].
      left. by rewrite (nth_overflow b), Z.mul_0_r by lia. }
  rewrite <-sumn_mul_l. apply eqm_mul; [done|].
  replace N with (S m + (N - S m))%nat at 1 by lia. rewrite sumn_app.
  rewrite (sumn_ext (N - S m) _ (λ _, 0)) by (intros; by rewrite decide_False by lia).
  rewrite sumn_0, Z.add_0_r. apply sumn_eqm. intros i Hi. by rewrite decide_True.
Qed.

(** Pointwise products of the two transforms, transformed back. *)
Lemma transforms_product q root h a b fuel :
  let pad (x : list Z) := x ++ replicate (2 ^ h - length x) 0 in
  Z.prime q → primitive_root q (2 ^ h) root → (0 < h < 63)%nat → (h < fuel)%nat →
  (0 < length a)%nat → (0 < length b)%nat → (length a + length b - 1 ≤ 2 ^ h)%nat →
  ∃ aFreq bFreq result, FFT fuel q (pad a) root = Ret aFreq ∧ FFT fuel q (pad b) root = Ret bFreq ∧
    FFTInverse fuel q (imap (λ i (x : Z), x * bFreq !!! i) aFreq) root = Ret result ∧
    take (length a + length b - 1) result = convolution q a b.
Proof.
  intros pad Hq Hr Hh Hf Ha Hb Hab. pose proof (pow2_bound h ltac:(lia)).
  assert (∀ x, (length x ≤ 2 ^ h)%nat → length (pad x) = (2 ^ h)%nat) as Hp.
  { intros x Hx. unfold pad. rewrite length_app, length_replicate. lia. }
  unfold FFT. eexists _, _, ((λ m, sumn (S m) (λ i, nth i a 0 * nth (m - i) b 0) mod q) <$> seq 0 (2 ^ h)).
  do 2 (split; [apply (fft_spec q root h); done || apply Hp; lia|]). split.
  - rewrite (FFTInverse_unique q root h _ _
      ((λ m, sumn (S m) (λ i, nth i a 0 * nth (m - i) b 0)) <$> seq 0 (2 ^ h))); try done.
    + by rewrite <-list_fmap_compose.
    + by rewrite length_imap, length_fmap, length_seq.
    + by rewrite length_fmap, length_seq.
    + intros m Hm. rewrite fmap_seq_total by done.
      rewrite <-(spectra_product q root h a b (2 ^ h)) by done.
      apply spectrum_inverse. intros k Hk.
      erewrite list_lookup_total_correct
        by (rewrite list_lookup_imap, list_lookup_fmap, lookup_seq_lt by done; reflexivity).
      simpl. rewrite fmap_seq_total by done. by rewrite !eqm_mod.
  - unfold convolution. apply list_eq. intros k.
    destruct (decide (k < length a + length b - 1)%nat) as [Hk|Hk].
    + rewrite lookup_take_lt, !list_lookup_fmap, !lookup_seq_lt by lia. done.
    + rewrite lookup_take_ge, list_lookup_fmap, lookup_seq_ge by lia. done.
Qed.

(** ** Roots of unity *)

Section root_of_unity.
Context {R : Type} `{Reader R}.

(** The values a reader hands out. *)
Inductive draws (q : Z) : R → list Z → R → Prop :=
| draws_nil r : draws q r [] r
| draws_cons r x r' xs r'' :
    rand_Int r q = Some (x, r') → draws q r' xs r'' → draws q r (x :: xs) r''.

Definition candidate (q n x : Z) : Z := Exp q x ((q - 1) / n).

Definition accepted (q n : Z) (primitive : bool) (x : Z) : bool :=
  negb primitive || negb (Exp q (candidate q n x) (Z.shiftr n 1) =? 1).

Lemma root_loop_first fuel q n primitive r bad x r' :
  draws q r (bad ++ [x]) r' → Forall (λ y, accepted q n primitive y = false) bad →
  accepted q n primitive x = true → (length bad < fuel)%nat →
  root_loop fuel q n primitive r = Ret (candidate q n x, r').
Proof.
  revert r fuel. induction bad as [|y bad IH]; intros r [|fuel] Hd Hb Hx Hf; simpl in *; try lia;
    inversion_clear Hd as [|? ? r1 ? ? Hy Hd']; unfold Random; rewrite Hy; cbn [mbind outcome_mbind].
  - inversion_clear Hd'. fold (candidate q n x). unfold accepted in Hx. by rewrite Hx.
  - inversion_clear Hb as [|? ? Hy' Hb']. fold (candidate q n y). unfold accepted in Hy'.
    rewrite Hy'. apply IH; (done || lia).
Qed.

(** [RootOfUnity] returns as soon as the reader produces a field element it
    accepts: elements that do not give a primitive root are passed over and the
    first one that does decides the root. *)
Theorem RootOfUnity_first fuel q n primitive r bad x r' :
  n mod 2 = 0 → n ≠ 0 → (q - 1) mod n = 0 →
  draws q r (bad ++ [x]) r' → Forall (λ y, accepted q n primitive y = false) bad →
  accepted q n primitive x = true → (length bad < fuel)%nat →
  RootOfUnity fuel q r n primitive = Ret (candidate q n x, r').
Proof.
  intros He Hn Hd ????. unfold RootOfUnity. rewrite He, Hd. simpl.
  destruct (Z.eqb_spec n 0); [done|]. simpl. by eapply root_loop_first.
Qed.

Lemma root_loop_accepted `{!ReaderLaw R} fuel q n primitive r root r' : 0 < q →
  root_loop fuel q n primitive r = Ret (root, r') →
  ∃ x, 0 ≤ x < q ∧ root = candidate q n x ∧ accepted q n primitive x = true.
Proof.
  intros Hq. revert r. induction fuel as [|fuel IH]; intros r Hr; [done|].
  cbn [root_loop] in Hr. unfold Random in Hr. destruct (rand_Int r q) as [[x r1]|] eqn:E; [|done].
  cbn [mbind outcome_mbind] in Hr. fold (candidate q n x) in Hr. cbv zeta in Hr.
  fold (accepted q n primitive x) in Hr. destruct (accepted q n primitive x) eqn:Ea.
  - injection Hr as <- <-. exists x. split; [by eapply rand_Int_range|done].
  - by eapply IH.
Qed.
End root_of_unity.

(** A reader that replays a list of numbers, for the examples. *)
#[local] Instance script_reader : Reader (list Z) := λ l q,
  match l with [] => None | x :: l => Some (x mod q, l) end.

#[local] Instance script_reader_law : ReaderLaw (list Z).
Proof. intros [|y l] q x r' Hq; [done|]. intros [= <- <-]. apply Z.mod_pos_bound. lia. Qed.

Lemma RootOfUnity_first_witness :
  RootOfUnity 3 17 [1; 16; 3; 5] 8 true = Ret (candidate 17 8 3, [5]).
Proof.
  eapply (RootOfUnity_first 3 17 8 true [1; 16; 3; 5] [1; 16] 3); try done; try (simpl; lia).
  - repeat (econstructor; [done|]). constructor.
  - by repeat constructor.
Defined.

(** Whatever [RootOfUnity] returns is reduced; when [n] does not divide the
    multiplicative order it is 1; otherwise it is an nth root of unity, unless it
    is 0, and a root asked to be primitive is not 1 at half of [n]. *)
Theorem RootOfUnity_sound {R} `{ReaderLaw R} fuel q n primitive (r : R) root r' :
  Z.prime q → 0 ≤ n → RootOfUnity fuel q r n primitive = Ret (root, r') →
  n mod 2 = 0 ∧ 0 ≤ root < q ∧
  if decide ((q - 1) mod n = 0)
  then (root = 0 ∨ root ^ n =[q] 1) ∧ (primitive = true → ¬ root ^ (n / 2) =[q] 1)
  else root = 1.
Proof.
  intros Hq Hn0. pose proof (prime_gt_1 q Hq) as Hq1. unfold RootOfUnity.
  destruct (Z.eqb_spec (n mod 2) 1) as [|Hodd]; [done|].
  assert (n mod 2 = 0) as He by (pose proof (Z.mod_pos_bound n 2); lia).
  destruct (Z.eqb_spec n 0) as [|Hn]; [done|].
  destruct (Z.eqb_spec ((q - 1) mod n) 0) as [Hd|Hd]; simpl.
  2:{ intros [= <- <-]. rewrite decide_False by done. split; [done|split; [lia|done]]. }
  intros Hr. apply root_loop_accepted in Hr as (x & Hx & -> & Ha); [|lia].
  rewrite decide_True by done. split; [done|]. unfold candidate, Exp.
  split; [apply Z.mod_pos_bound; lia|]. split.
  - assert (q - 1 = n * ((q - 1) / n)) as Hk by (apply Z.div_exact; done).
    assert (0 < (q - 1) / n) by nia.
    destruct (decide (x = 0)) as [->|Hx0]; [left; by rewrite Z.pow_0_l|right].
    rewrite (eqm_pow q _ (x ^ ((q - 1) / n))), <-Z.pow_mul_r by (lia || apply eqm_mod).
    rewrite Z.mul_comm, <-Hk. apply fermat_little; [done|].
    intros Hdiv%Z.divide_pos_le; lia.
  - intros ->. unfold accepted in Ha. simpl in Ha. apply negb_true_iff, Z.eqb_neq in Ha.
    rewrite Z.shiftr_div_pow2, Z.pow_1_r in Ha by done. intros [E]. apply Ha.
    unfold candidate, Exp in *. by rewrite E, Zmod_1_l.
Qed.

Lemma RootOfUnity_sound_witness :
  8 mod 2 = 0 ∧ 0 ≤ 9 < 17 ∧
  if decide ((17 - 1) mod 8 = 0)
  then (9 = 0 ∨ 9 ^ 8 =[17] 1) ∧ (true = true → ¬ 9 ^ (8 / 2) =[17] 1) else 9 = 1.
Proof.
  apply (RootOfUnity_sound 3 17 8 true [1; 16; 3; 5] 9 [5]); [|lia|done].
  by apply primeb_prime.
Defined.

(** ** Convolution in memory *)

(** What is left of the values of [b] after [a] was padded to [n] in place. *)
Definition overwritten (a : slice) (n : nat) (b : slice) (values : list Z) : list Z :=
  imap (λ j w, if decide (written a (n - len a) (array b) (offset b + j)) then 0 else w) values.

Lemma after_padding a n b values : after_append a b (replicate (n - len a) 0) values = overwritten a n b values.
Proof.
  apply imap_ext. intros j w _. rewrite length_replicate. destruct (decide _) as [(_ & _ & Hr)|]; [|done].
  by rewrite lookup_replicate_2 by lia.
Qed.

(** Padding changes nothing but the room behind the slice, where it writes zeros. *)
Lemma padding_writes (m : list (list Z)) x n arr i v : valid m x → at_ m arr i = Some v →
  let m' := (append m x (replicate n 0)).1 in
  at_ m' arr i = Some v ∨ at_ m' arr i = Some 0 ∧ written x n arr i.
Proof.
  intros Hx Hv. cbv zeta. rewrite append_at by (done || by eexists). rewrite length_replicate.
  destruct (decide _) as [Hw|]; [|by left]. right. split; [|done]. apply lookup_replicate_2. destruct Hw as (_ & _ & ?). lia.
Qed.

Lemma Convolve_product q root h m a b fuel :
  Z.prime q → primitive_root q (2 ^ h) root → (0 < h < 63)%nat → (h < fuel)%nat →
  valid m a → valid m b → (0 < len a)%nat → (0 < len b)%nat → convolutionSize a b = Z.of_nat (2 ^ h) →
  (len a + len b - 1 ≤ 2 ^ h)%nat →
  let m1 := (append m a (replicate (2 ^ h - len a) 0)).1 in
  Convolve fuel q m a b root = ((append m1 b (replicate (2 ^ h - len b) 0)).1,
    Ret (convolution q (contents m a) (overwritten a (2 ^ h) b (contents m b)))).
Proof.
  intros Hq Hr Hh Hf Va Vb Ha Hb Hn Hab m1. unfold Convolve. rewrite Hn.
  pose proof (pow2_bound h ltac:(lia)). rewrite swrap_small by lia. cbv zeta. rewrite zeroPad_spec by lia.
  pose proof (append_contents m a (replicate (2 ^ h - len a) 0) Va) as Ca.
  pose proof (append_other m a b (replicate (2 ^ h - len a) 0) Va Vb) as Cb. rewrite after_padding in Cb.
  pose proof (append_valid m a (replicate (2 ^ h - len a) 0) b Va Vb) as Vb1. fold m1 in Cb, Vb1.
  pose proof (append_contents m1 b (replicate (2 ^ h - len b) 0) Vb1) as Cb'. rewrite Cb in Cb'.
  destruct (append m a _) as [m1' pa] eqn:E1. subst m1. cbn [fst snd] in *. rewrite Ca.
  pose proof (contents_length m a Va) as La. pose proof (contents_length m1' b Vb1) as Lb. rewrite Cb in Lb.
  destruct (transforms_product q root h (contents m a) (overwritten a (2 ^ h) b (contents m b)) fuel)
    as (aFreq & bFreq & result & Ea & Eb & Er & Et); rewrite ?La, ?Lb; [done|done|done|done|done|done|done|].
  rewrite ?La, ?Lb in *. rewrite Ea. cbn [map_err]. rewrite zeroPad_spec by lia.
  destruct (append m1' b _) as [m2 pb]. cbn [fst snd] in *. rewrite Cb', Eb.
  cbn [map_err mbind outcome_mbind]. rewrite Er. cbn [map_err mbind outcome_mbind]. by rewrite Et.
Qed.

(** C1. [Convolve] with the root that [ConvolutionRoot] found, in every case: the
    product of the polynomials modulo the order when the field has enough roots
    of unity, an error when it has not, or when the reader drew zero.  The second polynomial is
    what is left of [b] after [a] was padded: where [a] has room behind it the zeros go into
    its array, and [b] is as the caller gave it only if it does not lie there.  The call
    changes nothing else of the memory of its caller than the room behind [a] and [b]. *)
Theorem Convolve_correct {R} `{ReaderLaw R} fuel fuel' q m a b (r : R) root r' :
  Z.prime q → valid m a → valid m b → (0 < len a)%nat → (0 < len b)%nat → (2 < len a + len b)%nat →
  Z.of_nat (len a + len b) < 2 ^ 62 → (len a + len b < fuel')%nat →
  ConvolutionRoot fuel q r a b = Ret (root, r') →
  let n := Z.to_nat (convolutionSize a b) in
  let b_seen := overwritten a n b (contents m b) in
  (separate a b (n - len a) → b_seen = contents m b) ∧
  ∃ m', Convolve fuel' q m a b root = (m',
    if decide ((q - 1) mod convolutionSize a b = 0) then
      if decide (root = 0) then Fail (FFTOfA (NotRootOfUnity 0 (convolutionSize a b)))
      else Ret (convolution q (contents m a) b_seen)
    else Fail (FFTOfA RootIsOne)) ∧
  ∀ arr i x, at_ m arr i = Some x → at_ m' arr i = Some x ∨
    at_ m' arr i = Some 0 ∧ (written a (n - len a) arr i ∨ written b (n - len b) arr i).
Proof.
  intros Hq Va Vb Ha Hb Hab Hlt Hf Hr. pose proof (prime_gt_1 q Hq) as Hq1.
  destruct (convolutionSize_spec a b) as (h & Hn & Hh63 & Hle & Hmin); [lia|done|].
  unfold ConvolutionRoot in Hr. rewrite Hn in *. cbv zeta. rewrite Nat2Z.id.
  split.
  { intros Hs. rewrite <-after_padding. apply after_append_separate; [by apply contents_length|].
    by rewrite length_replicate. }
  assert (0 < h)%nat as Hh0 by (destruct h; [simpl in Hle; lia|lia]).
  assert (h < fuel')%nat as Hhf.
  { specialize (Hmin (len a + len b - 1)%nat).
    pose proof (Nat.pow_gt_lin_r 2 (len a + len b - 1)). lia. }
  pose proof (pow2_bound h Hh63) as Hbd.
  apply RootOfUnity_sound in Hr as (_ & Hrange & Hcase); [|done|lia].
  set (m1 := (append m a (replicate (2 ^ h - len a) 0)).1).
  pose proof (λ arr i x, padding_writes m a (2 ^ h - len a) arr i x Va) as W1. cbv zeta in W1. fold m1 in W1.
  pose proof (append_valid m a (replicate (2 ^ h - len a) 0) b Va Vb) as Vb1. fold m1 in Vb1.
  assert (∀ e, twiddleFactors q (contents m a ++ replicate (2 ^ h - len a) 0) root = Fail e →
    Convolve fuel' q m a b root = (m1, Fail (FFTOfA e))) as HF.
  { intros e He. unfold Convolve. rewrite Hn, swrap_small by lia. cbv zeta. rewrite zeroPad_spec by lia.
    pose proof (append_contents m a (replicate (2 ^ h - len a) 0) Va) as Ca. unfold m1.
    destruct (append m a _) as [m1' pa]. cbn [fst snd] in *. unfold FFT, fft. by rewrite Ca, He. }
  assert (length (contents m a ++ replicate (2 ^ h - len a) 0%Z) = 2 ^ h)%nat as Hlen
    by (rewrite length_app, length_replicate, contents_length by done; lia).
  case_decide as Hd.
  - destruct Hcase as [Hcase Hprim]. specialize (Hprim eq_refl). case_decide as Hz.
    + exists m1. split; [apply HF|intros arr i x Hx; destruct (W1 arr i x Hx) as [|[? ?]]; auto].
      rewrite (twiddleFactors_pow2 _ _ h) by (done || lia).
      subst root. simpl (0 =? 1). cbv iota. rewrite decide_False; [done|].
      rewrite Z.pow_0_l by lia. intros [E]. rewrite Zmod_1_l, Zmod_0_l in E by done. done.
    + eexists. split.
      * apply (Convolve_product q root h); try done. split; [by destruct Hcase|].
        intros k Hk. rewrite Hk in Hprim. rewrite Nat2Z.inj_mul, Z.div_mul in Hprim by done. done.
      * fold m1. intros arr i x Hx. destruct (W1 arr i x Hx) as [Hx1|[Hx1 Hw]];
          destruct (padding_writes m1 b (2 ^ h - len b) arr i _ Vb1 Hx1) as [|[? ?]]; auto.
  - exists m1. split; [apply HF|intros arr i x Hx; destruct (W1 arr i x Hx) as [|[? ?]]; auto].
    rewrite (twiddleFactors_pow2 _ _ h) by (done || lia). by subst root.
Qed.

(** The product of two slices of their own, and of the two halves of one: the second half is
    zeros when it is transformed, and so is the result. *)
Lemma Convolve_correct_witness :
  (Convolve 9 17 [[1; 2; -1]; [2; -3; 6]] (mkSlice 0 0 3 3) (mkSlice 1 0 3 3) 9).2
    = Ret (convolution 17 [1; 2; -1] [2; -3; 6]) ∧
  Convolve 9 17 [[1; 2; 3; 4; 5; 6; 7; 8]] (mkSlice 0 0 4 8) (mkSlice 0 4 4 4) 9 =
    ([[1; 2; 3; 4; 0; 0; 0; 0]; [0; 0; 0; 0; 0; 0; 0; 0]], Ret (replicate 7 0)) ∧
  overwritten (mkSlice 0 0 4 8) 8 (mkSlice 0 4 4 4) [5; 6; 7; 8] = [0; 0; 0; 0].
Proof.
  assert (∀ m x l, m !! array x = Some l → (len x ≤ cap x)%nat → (offset x + cap x ≤ length l)%nat → valid (A:=Z) m x) as HV
    by (intros m x l ???; split; [done|by exists l]).
  destruct (Convolve_correct 3 9 17 [[1; 2; -1]; [2; -3; 6]] (mkSlice 0 0 3 3) (mkSlice 1 0 3 3) [1; 16; 3; 5] 9 [5]
    (primeb_prime 17 eq_refl)) as (Hs & m' & -> & _);
    [by eapply HV|by eapply HV|simpl; lia..|by vm_compute|]. split; [|split; by vm_compute].
  cbv zeta in Hs. cbn [snd]. rewrite Hs; [by vm_compute|]. by intros ?.
Defined.

Lemma cooleyTukey_nil fuel roots stride inverse :
  cooleyTukey fuel [] roots stride inverse = Fail OutOfFuel.
Proof.
  revert stride. induction fuel as [|fuel IH]; intros stride; [done|].
  simpl. by rewrite IH.
Qed.

(** The lengths [FFT] does not transform: one that is not a power of two is an
    error, and on the empty slice, which passes the bit test, the recursion has
    no base case and no amount of fuel is enough. *)
Theorem FFT_bad_length fuel q xs root :
  1 < q → root ≠ 1 → Z.of_nat (length xs) < 2 ^ 63 → (∀ h, length xs ≠ (2 ^ h)%nat) →
  FFT fuel q xs root = Fail (if decide (xs = []) then OutOfFuel else NotPowerOfTwo).
Proof.
  intros Hq Hr Hb Hl. unfold FFT, fft, twiddleFactors. case_decide as Hx.
  - subst xs. simpl (length []). change (Z.land (u64 (Z.of_nat 0)) _) with 0. simpl (negb (0 =? 0)).
    cbv iota. destruct (Z.eqb_spec root 1); [done|]. unfold Exp at 1.
    change (root ^ u64 (Z.of_nat 0)) with 1. rewrite Zmod_1_l by done. simpl.
    by rewrite cooleyTukey_nil.
  - destruct (u64_len (Z.of_nat (length xs))) as [-> ->]; [destruct xs; simpl in *; [done|lia]|].
    destruct (Z.eqb_spec (Z.land (Z.of_nat (length xs)) (Z.of_nat (length xs) - 1)) 0) as [E|]; [|done].
    apply land_pred_zero in E; [|destruct xs; simpl in *; [done|lia]].
    apply pow2_of_Z in E; [|destruct xs; simpl in *; [done|lia]].
    rewrite Nat2Z.id in E. by apply Hl in E.
Qed.

Lemma FFT_bad_length_witness :
  FFT 100 17 [] 9 = Fail OutOfFuel ∧ FFT 100 17 [1; 2; 3] 9 = Fail NotPowerOfTwo.
Proof.
  split.
  - apply (FFT_bad_length 100 17 [] 9); try done. intros h. pose proof (Nat.pow_nonzero 2 h ltac:(lia)). simpl; lia.
  - apply (FFT_bad_length 100 17 [1; 2; 3] 9); try done. intros h Hh. destruct h; [done|].
    rewrite Nat.pow_succ_r' in Hh. simpl length in Hh. lia.
Defined.

(** The test for a primitive root is exact for powers of two only: in the field of
    order 7 it accepts a sixth root of unity whose order is 2. *)
Example RootOfUnity_not_primitive :
  RootOfUnity 1 7 [6] 6 true = Ret (6, []) ∧ Exp 7 6 2 = 1.
Proof. done. Qed.

(** Two sequences of one element have no convolution root: the size is odd. *)
Example ConvolutionRoot_singletons : ConvolutionRoot 1 17 [3] (mkSlice 0 0 1 1) (mkSlice 1 0 1 1) = Fail (OddRoot 1).
Proof. done. Qed.
