(* ===== verification/Bufio.v ===== *)
(** * Bufio: lines of a reader

    [bufio.Scanner] with [bufio.ScanLines], of the standard library, as far as the code
    uses it: the whole input of a reader and the error that it ends with, if any.  A line
    that does not fit the scanner's buffer stops it. *)

From S2P Require Import Prelude GoStrings.
Local Open Scope Z_scope.

Definition LF : ascii := "010".
Definition CR : ascii := "013".
Definition MaxScanTokenSize : Z := 64 * 1024.

(** A [bufio.Scanner]: the chunks of [Scan] and whether it stopped on an error. *)
Record Scanner := mkScanner { chunks : list string; failed : bool }.

(** What an [io.Reader] delivers, and whether it ends with an error other than [io.EOF]. *)
Record Reader := mkReader { content : string; broken : bool }.

Fixpoint dropCR (s : string) : string :=
  match s with
  | EmptyString => EmptyString
  | String c EmptyString => if decide (c = CR) then EmptyString else s
  | String c s => String c (dropCR s)
  end.

(** A line fits with its newline; the last one must leave room to see that it ends. *)
Definition fits (line : string) : bool := Z.of_nat (String.length line) <? MaxScanTokenSize.

(** The tokens of the lines, and whether one is too long: after the last newline there is
    one only if something is left. *)
Fixpoint scan_lines (lines : list string) : list string * bool :=
  match lines with
  | [] | [EmptyString] => ([], false)
  | line :: lines =>
      if fits line then let '(tokens, e) := scan_lines lines in (dropCR line :: tokens, e) else ([], true)
  end.

Definition ScanLines (r : Reader) : Scanner :=
  let '(tokens, too_long) := scan_lines (Split LF (content r)) in mkScanner tokens (too_long || broken r).

(** The lines before the first that does not fit. *)
Fixpoint fitting (lines : list string) : list string :=
  match lines with
  | [] => []
  | line :: lines => if fits line then line :: fitting lines else []
  end.

(** The tokens are the lines without the carriage return, as far as they fit; an empty one
    may be missing at the end. *)
Lemma scan_lines_spec lines :
  (scan_lines lines).2 = negb (forallb fits lines) ∧
  ∃ l, fitting lines = l ++ [EmptyString] ∧ (scan_lines lines).1 = dropCR <$> l ∨
       fitting lines = l ∧ (scan_lines lines).1 = dropCR <$> l.
Proof.
  induction lines as [|line lines IH]; [split; [done|]; exists []; by right|].
  destruct IH as [IH2 (l & IH1)].
  assert (scan_lines (line :: lines) = ([], false) ∧ line = EmptyString ∧ lines = [] ∨
    scan_lines (line :: lines) = if fits line then let '(ts, e) := scan_lines lines in (dropCR line :: ts, e) else ([], true))
    as [(E & -> & ->)|E] by (destruct line, lines; auto).
  - rewrite E. split; [done|]. exists []. by left.
  - rewrite E. cbn [forallb fitting]. destruct (fits line); [|split; [done|]; exists []; by right].
    destruct (scan_lines lines) as [ts e]. simpl in *. split; [done|].
    destruct IH1 as [[-> ->]|[-> ->]]; exists (line :: l); [left|right]; done.
Qed.

(** ** Lines that were printed *)

(** Lines with either ending. *)
Definition newline (crlf : bool) : string := if crlf then String CR (String LF EmptyString) else String LF EmptyString.

Definition print_lines (crlf : bool) (lines : list string) : string :=
  foldr (λ line s, line +:+ newline crlf +:+ s) EmptyString lines.

Definition printable (line : string) : Prop :=
  mentions LF line = false ∧ mentions CR line = false ∧ Z.of_nat (String.length line) < MaxScanTokenSize - 1.

Lemma dropCR_id s : mentions CR s = false → dropCR s = s.
Proof.
  induction s as [|c s IH]; [done|]. cbn [mentions dropCR]. intros [Hc Hs]%orb_false_iff.
  rewrite bool_decide_eq_false in Hc. destruct s; [by rewrite decide_False|]. by rewrite IH.
Qed.

Lemma dropCR_CR s : mentions CR s = false → dropCR (s +:+ String CR EmptyString) = s.
Proof.
  induction s as [|c s IH]; [done|]. cbn [mentions]. intros [_ Hs]%orb_false_iff.
  change (String c s +:+ String CR EmptyString) with (String c (s +:+ String CR EmptyString)).
  cbn [dropCR]. rewrite IH by done. by destruct s.
Qed.

Lemma Split_print crlf lines : Forall printable lines →
  Split LF (print_lines crlf lines) = ((λ line, if crlf then line +:+ String CR EmptyString else line) <$> lines) ++ [EmptyString].
Proof.
  induction 1 as [|line lines (Hl & _ & _) Hs IH]; [done|]. cbn [fmap list_fmap app]. rewrite <-IH.
  change (print_lines crlf (line :: lines)) with (line +:+ newline crlf +:+ print_lines crlf lines). destruct crlf.
  - replace (line +:+ newline true +:+ print_lines true lines)
      with ((line +:+ String CR EmptyString) +:+ String LF (print_lines true lines))
      by (by rewrite <-string_app_assoc).
    rewrite Split_app; [done|]. by rewrite mentions_app, Hl.
  - change (newline false +:+ print_lines false lines) with (String LF (print_lines false lines)). by rewrite Split_app.
Qed.

(** Printed lines are read back. *)
Lemma ScanLines_print crlf lines e : Forall printable lines →
  ScanLines (mkReader (print_lines crlf lines) e) = mkScanner lines e.
Proof.
  intros Hp. unfold ScanLines. cbn [content broken]. rewrite Split_print by done.
  match goal with |- context [scan_lines ?ls] => enough (scan_lines ls = (lines, false)) as -> by done end.
  induction Hp as [|line lines (_ & Hc & Hl) _ IH]; [done|]. cbn [fmap list_fmap app].
  assert (∀ l ls, fits l = true → scan_lines ls = (lines, false) → dropCR l = line → ls ≠ [] →
    scan_lines (l :: ls) = (line :: lines, false)) as Hstep.
  { intros l ls Hf Hs Hd Hne. destruct ls as [|l' ls]; [done|].
    assert (scan_lines (l :: l' :: ls) = let '(ts, e) := scan_lines (l' :: ls) in (dropCR l :: ts, e)) as ->
      by (destruct l; cbn [scan_lines]; by rewrite Hf).
    by rewrite Hs, Hd. }
  apply Hstep; [|exact IH| |by destruct (_ <$> lines)]; unfold fits; destruct crlf.
  - apply Z.ltb_lt. rewrite string_length_app. simpl. lia.
  - apply Z.ltb_lt. lia.
  - by apply dropCR_CR.
  - by apply dropCR_id.
Qed.
