(* ===== verification/Csv.v ===== *)
(** * Csv: [encoding/csv] of the standard library

    The [Writer] with its default settings, which writes the tables of the commands and
    of [flipside], and the [Reader] with its, which is what reads such a file.  Reading
    undoes writing up to what CSV cannot say: a line break of two characters comes back
    as one, and a record that is empty, or has one empty field, does not come back. *)

From S2P Require Import Prelude GoStrings.
From stdpp Require Import strings.

Definition dquote : ascii := "034"%char.
Definition comma : ascii := ",".
Definition LF : ascii := "010"%char.
Definition CR : ascii := "013"%char.

(** ** The writer *)

(** [unicode.IsSpace] of the first rune: the white space of Unicode in UTF-8. *)
Definition bytes_string (l : list nat) : string := foldr (λ b, String (ascii_of_nat b)) EmptyString l.
Definition space_runes : list string := bytes_string <$>
  [[9]; [10]; [11]; [12]; [13]; [32]; [194; 133]; [194; 160]; [225; 154; 128];
   [226; 128; 128]; [226; 128; 129]; [226; 128; 130]; [226; 128; 131]; [226; 128; 132]; [226; 128; 133];
   [226; 128; 134]; [226; 128; 135]; [226; 128; 136]; [226; 128; 137]; [226; 128; 138];
   [226; 128; 168]; [226; 128; 169]; [226; 128; 175]; [226; 129; 159]; [227; 128; 128]].
Definition starts_with_space (s : string) : bool := existsb (λ p, HasPrefix p s) space_runes.

Definition is_special (c : ascii) : bool :=
  bool_decide (c = LF) || bool_decide (c = CR) || bool_decide (c = dquote) || bool_decide (c = comma).

Fixpoint has_special (s : string) : bool :=
  match s with EmptyString => false | String c s => is_special c || has_special s end.

Definition fieldNeedsQuotes (field : string) : bool :=
  if decide (field = EmptyString) then false
  else if decide (field = "\."%string) then true
  else has_special field || starts_with_space field.

(** Quotation marks are doubled. *)
Fixpoint escape (field : string) : string :=
  match field with
  | EmptyString => EmptyString
  | String c s => if decide (c = dquote) then String dquote (String dquote (escape s)) else String c (escape s)
  end.

Definition write_field (field : string) : string :=
  if fieldNeedsQuotes field then String dquote (escape field +:+ String dquote EmptyString) else field.

(** [Writer.Write] and [Writer.WriteAll]: the text. *)
Definition Write (record : list string) : string := strings_Join comma (write_field <$> record) +:+ String LF EmptyString.
Definition WriteAll (records : list (list string)) : string := foldr (λ r s, Write r +:+ s) EmptyString records.

(** ** The reader *)

(** Where the reader is: at the start of a line, of a field, in a field without or with
    quotation marks, or after a mark in the latter. *)
Inductive mode := LineStart | FieldStart | InBare | InQuoted | AfterQuote.

(** A carriage return before the end of a line, or of the file, is dropped. *)
Definition drops (c : ascii) (s : string) : bool :=
  bool_decide (c = CR) && match s with EmptyString => true | String d _ => bool_decide (d = LF) end.

(** The records from here on, with the field and the record so far; [None] is a bare
    quotation mark in a field, a text after a quoted field, or a quoted field without end. *)
Fixpoint scan (m : mode) (field : string) (record : list string) (s : string) : option (list (list string)) :=
  match s with
  | EmptyString =>
      match m with
      | LineStart => Some []
      | FieldStart => Some [record ++ [EmptyString]]
      | InBare | AfterQuote => Some [record ++ [field]]
      | InQuoted => None
      end
  | String c s =>
      if drops c s then scan m field record s
      else
        let end_field := match m with FieldStart | LineStart => EmptyString | _ => field end in
        match m with
        | InQuoted =>
            if decide (c = dquote) then scan AfterQuote field record s
            else scan InQuoted (field +:+ String c EmptyString) record s
        | _ =>
            if decide (c = LF) then
              match m with
              | LineStart => scan LineStart EmptyString [] s
              | _ => cons (record ++ [end_field]) <$> scan LineStart EmptyString [] s
              end
            else if decide (c = comma) then scan FieldStart EmptyString (record ++ [end_field]) s
            else if decide (c = dquote) then
              match m with
              | AfterQuote => scan InQuoted (field +:+ String dquote EmptyString) record s
              | InBare => None
              | _ => scan InQuoted EmptyString record s
              end
            else
              match m with
              | AfterQuote => None
              | _ => scan InBare (end_field +:+ String c EmptyString) record s
              end
        end
  end.

(** Every record has as many fields as the first. *)
Definition uniform (records : list (list string)) : bool :=
  match records with
  | [] => true
  | r :: rs => forallb (λ r', (length r' =? length r)%nat) rs
  end.

(** [Reader.ReadAll]. *)
Definition ReadAll (s : string) : option (list (list string)) :=
  records ← scan LineStart EmptyString [] s; if uniform records then Some records else None.

(** ** Reading back *)

(** A field as it is read: line breaks are one character. *)
Fixpoint unCRLF (s : string) : string :=
  match s with
  | EmptyString => EmptyString
  | String c s =>
      if bool_decide (c = CR) && match s with String d _ => bool_decide (d = LF) | EmptyString => false end
      then unCRLF s else String c (unCRLF s)
  end.

(** Records that leave a blank line. *)
Definition blank (r : list string) : Prop := r = [] ∨ r = [EmptyString].
#[export] Instance blank_dec r : Decision (blank r).
Proof. unfold blank. apply _. Defined.

Definition read_back (records : list (list string)) : list (list string) :=
  (fmap unCRLF : list string → list string) <$> filter (λ r, ¬ blank r) records.

Lemma snoc_app f c w : (f +:+ String c EmptyString) +:+ w = f +:+ String c w.
Proof. by rewrite <-string_app_assoc. Qed.

Lemma not_drops c s : c ≠ CR → drops c s = false.
Proof. intros Hc. unfold drops. by rewrite bool_decide_eq_false_2. Qed.

Lemma special_false c : is_special c = false → c ≠ LF ∧ c ≠ CR ∧ c ≠ dquote ∧ c ≠ comma.
Proof. unfold is_special. rewrite !orb_false_iff, !bool_decide_eq_false. tauto. Qed.

Lemma unCRLF_plain w : has_special w = false → unCRLF w = w.
Proof.
  induction w as [|c w IH]; [done|]. simpl. intros [Hc Hw]%orb_false_iff.
  apply special_false in Hc. rewrite bool_decide_eq_false_2 by tauto. simpl. by rewrite IH.
Qed.

(** The rest of a bare field. *)
Lemma scan_bare f r w s : has_special w = false → scan InBare f r (w +:+ s) = scan InBare (f +:+ w) r s.
Proof.
  revert f. induction w as [|c w IH]; intros f; cbn [has_special].
  { intros _. by rewrite string_app_nil_r. }
  intros [(?&?&?&?)%special_false Hw]%orb_false_iff.
  change (String c w +:+ s) with (String c (w +:+ s)). cbn [scan]. rewrite not_drops by done.
  rewrite !decide_False by naive_solver. rewrite IH by done. by rewrite snoc_app.
Qed.

(** A quoted field up to its closing mark. *)
Lemma scan_quoted f r w s :
  scan InQuoted f r (escape w +:+ String dquote s) = scan AfterQuote (f +:+ unCRLF w) r s.
Proof.
  revert f. induction w as [|c w IH]; intros f.
  { simpl. by rewrite string_app_nil_r. }
  cbn [escape]. destruct (decide (c = dquote)) as [->|Hc].
  - change (String dquote (String dquote (escape w)) +:+ String dquote s)
      with (String dquote (String dquote (escape w +:+ String dquote s))).
    cbn [scan]. simpl. rewrite IH. by rewrite snoc_app.
  - change (String c (escape w) +:+ String dquote s) with (String c (escape w +:+ String dquote s)).
    assert (drops c (escape w +:+ String dquote s)
      = bool_decide (c = CR) && match w with String d _ => bool_decide (d = LF) | EmptyString => false end) as Ed.
    { unfold drops. f_equal. destruct w as [|d w]; [done|]. cbn [escape].
      destruct (decide (d = dquote)) as [->|]; done. }
    cbn [scan]. rewrite Ed. cbn [unCRLF]. destruct (_ && _); [by rewrite IH|].
    rewrite decide_False by done. rewrite IH. by rewrite snoc_app.
Qed.

(** One field and what ends it, at the beginning of a field. *)
Lemma scan_field m r w c s : (m = FieldStart ∨ m = LineStart ∧ (w ≠ EmptyString ∨ c ≠ LF)) → c = LF ∨ c = comma →
  scan m EmptyString r (write_field w +:+ String c s) =
  if decide (c = LF) then cons (r ++ [unCRLF w]) <$> scan LineStart EmptyString [] s
  else scan FieldStart EmptyString (r ++ [unCRLF w]) s.
Proof.
  intros Hm Hc. assert (c ≠ CR) as Hcr by (by destruct Hc as [->| ->]).
  assert (∀ f, scan InBare f r (String c s) =
    if decide (c = LF) then cons (r ++ [f]) <$> scan LineStart EmptyString [] s
    else scan FieldStart EmptyString (r ++ [f]) s) as Hbare.
  { intros f. cbn [scan]. rewrite not_drops by done. destruct (decide (c = LF)); [done|].
    by rewrite decide_True by tauto. }
  unfold write_field. destruct (fieldNeedsQuotes w) eqn:Eq.
  - change (String dquote (escape w +:+ String dquote EmptyString) +:+ String c s)
      with (String dquote ((escape w +:+ String dquote EmptyString) +:+ String c s)).
    rewrite <-string_app_assoc. change (String dquote EmptyString +:+ String c s) with (String dquote (String c s)).
    assert (scan m EmptyString r (String dquote (escape w +:+ String dquote (String c s)))
      = scan InQuoted EmptyString r (escape w +:+ String dquote (String c s))) as ->.
    { by destruct Hm as [->|[-> _]]. }
    rewrite scan_quoted. change (EmptyString +:+ unCRLF w) with (unCRLF w).
    cbn [scan]. rewrite not_drops by done. destruct (decide (c = LF)); [done|]. by rewrite decide_True by tauto.
  - assert (has_special w = false) as Hw.
    { unfold fieldNeedsQuotes in Eq. destruct (decide (w = EmptyString)) as [->|]; [done|].
      destruct (decide (w = _)); [done|]. by apply orb_false_iff in Eq as [? _]. }
    rewrite unCRLF_plain by done. destruct w as [|d w].
    + change (EmptyString +:+ String c s) with (String c s). cbn [scan]. rewrite not_drops by done.
      destruct Hm as [->|[-> [?|Hlf]]]; [|done|].
      * destruct (decide (c = LF)); [done|]. by rewrite decide_True by tauto.
      * rewrite decide_False by done. rewrite decide_True by tauto. by rewrite decide_False.
    + rewrite <-Hbare. cbn [has_special] in Hw. apply orb_false_iff in Hw as [(?&?&?&?)%special_false Hw].
      change (String d w +:+ String c s) with (String d (w +:+ String c s)).
      assert (scan m EmptyString r (String d (w +:+ String c s)) = scan InBare (String d EmptyString) r (w +:+ String c s)) as ->.
      { cbn [scan]. rewrite not_drops by done. destruct Hm as [->|[-> _]]; by rewrite !decide_False by done. }
      by rewrite scan_bare.
Qed.

(** One record. *)
Lemma scan_record m r w ws s : (m = FieldStart ∨ m = LineStart ∧ (w ≠ EmptyString ∨ ws ≠ [])) →
  scan m EmptyString r (strings_Join comma (write_field <$> w :: ws) +:+ String LF s)
  = cons (r ++ (unCRLF <$> w :: ws)) <$> scan LineStart EmptyString [] s.
Proof.
  revert m r w. induction ws as [|w' ws IH]; intros m r w Hm.
  - change (strings_Join comma (write_field <$> [w])) with (write_field w).
    rewrite scan_field; [|naive_solver|by left]. by rewrite decide_True by done.
  - change (strings_Join comma (write_field <$> w :: w' :: ws))
      with (write_field w +:+ String comma (strings_Join comma (write_field <$> w' :: ws))).
    rewrite <-string_app_assoc.
    change (String comma (strings_Join comma (write_field <$> w' :: ws)) +:+ String LF s)
      with (String comma (strings_Join comma (write_field <$> w' :: ws) +:+ String LF s)).
    rewrite scan_field; [|naive_solver|by right]. rewrite decide_False by done.
    rewrite IH by by left. by rewrite <-app_assoc.
Qed.

Lemma scan_WriteAll rs : scan LineStart EmptyString [] (WriteAll rs) = Some (read_back rs).
Proof.
  unfold read_back. induction rs as [|r rs IH]; [done|].
  change (WriteAll (r :: rs)) with (Write r +:+ WriteAll rs). unfold Write. rewrite <-string_app_assoc.
  change (String LF EmptyString +:+ WriteAll rs) with (String LF (WriteAll rs)). rewrite filter_cons.
  destruct (decide (¬ blank r)) as [Hb|Hb].
  - destruct r as [|w ws]; [by destruct Hb; left|]. rewrite scan_record; [by rewrite IH|].
    right. split; [done|]. unfold blank in Hb. destruct w, ws; naive_solver.
  - apply dec_stable in Hb as [->| ->]; exact IH.
Qed.

(** The table of a file: what is read back has the same number of fields everywhere
    when the table has. *)
Lemma ReadAll_WriteAll rs n : Forall (λ r, length r = n) rs → ReadAll (WriteAll rs) = Some (read_back rs).
Proof.
  intros Hn. unfold ReadAll. rewrite scan_WriteAll. cbn [mbind option_bind].
  assert (Forall (λ r, length r = n) (read_back rs)) as Hl.
  { unfold read_back. apply Forall_fmap, Forall_forall. intros r [_ Hr]%list_elem_of_filter.
    simpl. rewrite length_fmap. by eapply Forall_forall in Hn. }
  destruct (read_back rs) as [|r rs']; [done|]. apply Forall_cons in Hl as [Hr Hrs]. cbn [uniform].
  assert (forallb (λ r' : list string, (length r' =? length r)%nat) rs' = true) as ->; [|done].
  rewrite Hr. clear -Hrs. induction Hrs as [|r1 rs1 Hr1 _ IH]; [done|]. simpl. by rewrite Hr1, Nat.eqb_refl, IH.
Qed.

(** Tables without blank records and without line breaks of two characters are read as
    they were written. *)
Definition plain (r : list string) : Prop := ¬ blank r ∧ Forall (λ f, unCRLF f = f) r.

Lemma read_back_plain rs : Forall plain rs → read_back rs = rs.
Proof.
  unfold read_back. induction 1 as [|r rs [Hb Hr] _ IH]; [done|]. rewrite filter_cons_True by done.
  rewrite fmap_cons, IH. f_equal. clear -Hr. induction Hr as [|f r E _ IH]; [done|]. by rewrite fmap_cons, E, IH.
Qed.

Lemma unCRLF_no_CR f : mentions CR f = false → unCRLF f = f.
Proof.
  induction f as [|c f IH]; [done|]. cbn [mentions unCRLF]. intros [Hc Hf]%orb_false_iff.
  rewrite Hc. simpl. by rewrite IH.
Qed.

(** A record is plain when no field has a carriage return and the first is not empty. *)
Lemma plain_fields f r : f ≠ EmptyString → Forall (λ f, mentions CR f = false) (f :: r) → plain (f :: r).
Proof.
  intros Hf Hr. split; [intros [?|[=]]; done|]. eapply Forall_impl; [exact Hr|]. apply unCRLF_no_CR.
Qed.

Example csv_table :
  let text := WriteAll [["a"; "b c"]; [" x"; bytes_string [34; 44; 13; 10]]; ["\."; ""]; ["";""]]%string in
  text = bytes_string [97; 44; 98; 32; 99; 10; 34; 32; 120; 34; 44; 34; 34; 34; 44; 13; 10; 34; 10; 34; 92; 46; 34; 44; 10; 44; 10] ∧
  ReadAll text = Some [["a"; "b c"]; [" x"; bytes_string [34; 44; 10]]; ["\."; ""]; ["";""]]%string.
Proof. by vm_compute. Qed.
