(* ===== verification/Memconv.v ===== *)
(** * Memconv: reinterpreting memory ([go/memconv/memconv.go])

    Memory is a list of bytes; a type is the layout of its values in memory, on a
    little-endian machine, and a pointer is an address with such a type.  [CastPtr] keeps the
    address and changes the type.  The constraints [B64] and [B32] are classes of layouts;
    those of integers and byte arrays are given, floats may be any layout of their size. *)

From S2P Require Import Prelude BigInt.
Local Open Scope Z_scope.

(** ** Bytes of numbers *)

(** Least significant byte first. *)
Fixpoint le_bytes (n : nat) (x : Z) : bytes :=
  match n with
  | O => []
  | S n => x mod 256 :: le_bytes n (x / 256)
  end.

Fixpoint le_value (b : bytes) : Z :=
  match b with
  | [] => 0
  | x :: b => x + 256 * le_value b
  end.

Lemma le_bytes_spec n x : length (le_bytes n x) = n ∧ Forall is_byte (le_bytes n x).
Proof.
  revert x. induction n as [|n IH]; intros x; [done|]. destruct (IH (x / 256)) as [Hl Hf].
  cbn [le_bytes length]. split; [by rewrite Hl|]. constructor; [|done]. by apply Z.mod_pos_bound.
Qed.

Lemma le_value_bytes n x : le_value (le_bytes n x) = x mod 256 ^ Z.of_nat n.
Proof.
  revert x. induction n as [|n IH]; intros x; [by rewrite Z.mod_1_r|].
  cbn [le_bytes le_value]. rewrite IH, Nat2Z.inj_succ, Z.pow_succ_r by lia.
  rewrite Z.rem_mul_r; [done|done|]. apply Z.pow_pos_nonneg; lia.
Qed.

Lemma le_value_range b : Forall is_byte b → 0 ≤ le_value b < 256 ^ Z.of_nat (length b).
Proof.
  induction 1 as [|x b Hx _ IH]; [done|]. unfold is_byte in Hx.
  cbn [le_value length]. rewrite Nat2Z.inj_succ, Z.pow_succ_r by lia. lia.
Qed.

Lemma le_bytes_value b : Forall is_byte b → le_bytes (length b) (le_value b) = b.
Proof.
  induction 1 as [|x b Hx _ IH]; [done|]. unfold is_byte in Hx. cbn [le_bytes le_value length].
  rewrite (Z.mul_comm 256), Z.div_add, Z_mod_plus_full, (Z.mod_small x), (Z.div_small x) by lia. by rewrite Z.add_0_l, IH.
Qed.

Lemma le_bytes_mod n x : le_bytes n (x mod 256 ^ Z.of_nat n) = le_bytes n x.
Proof. destruct (le_bytes_spec n x) as [Hl Hf]. apply le_bytes_value in Hf. by rewrite Hl, le_value_bytes in Hf. Qed.

(** ** Layouts *)

Record layout (T : Type) := mkLayout { width : nat; to_bytes : T → bytes; of_bytes : bytes → T }.
Arguments mkLayout {T} width to_bytes of_bytes.
Arguments width {T}.
Arguments to_bytes {T}.
Arguments of_bytes {T}.

(** Values and contents of memory of the right width are the same thing. *)
Class Layout {T} (L : layout T) (valid : T → Prop) := {
  to_bytes_spec v : valid v → length (to_bytes L v) = width L ∧ Forall is_byte (to_bytes L v);
  of_to_bytes v : valid v → of_bytes L (to_bytes L v) = v;
  of_bytes_valid b : length b = width L → Forall is_byte b → valid (of_bytes L b);
  to_of_bytes b : length b = width L → Forall is_byte b → to_bytes L (of_bytes L b) = b;
}.

Class B64 {T} (L : layout T) := B64_width : width L = 8%nat.
Class B32 {T} (L : layout T) := B32_width : width L = 4%nat.

Definition uint_layout (n : nat) : layout Z := mkLayout n (le_bytes n) le_value.
Definition int_layout (n : nat) : layout Z := mkLayout n (le_bytes n) (λ b, swrap (8 * Z.of_nat n) (le_value b)).
Definition array_layout (n : nat) : layout bytes := mkLayout n id id.

Abbreviation uint64 := (uint_layout 8).
Abbreviation int64 := (int_layout 8).
Abbreviation array8 := (array_layout 8).
Abbreviation uint32 := (uint_layout 4).
Abbreviation int32 := (int_layout 4).
Abbreviation array4 := (array_layout 4).

#[export] Instance uint64_B64 : B64 uint64 := eq_refl.
#[export] Instance int64_B64 : B64 int64 := eq_refl.
#[export] Instance array8_B64 : B64 array8 := eq_refl.
#[export] Instance uint32_B32 : B32 uint32 := eq_refl.
#[export] Instance int32_B32 : B32 int32 := eq_refl.
#[export] Instance array4_B32 : B32 array4 := eq_refl.

(** ** Pointers *)

(** [None] is nil. *)
Record pointer {T} (L : layout T) := Pointer { address : option nat }.
Arguments Pointer {T} L address.
Arguments address {T L}.

(** Reading and writing through a pointer; nil panics, which is [None]. *)
Definition mem_load {T} {L : layout T} (m : bytes) (x : pointer L) : option T :=
  a ← address x;
  if decide (a + width L ≤ length m)%nat then Some (of_bytes L (take (width L) (drop a m))) else None.

Definition mem_store {T} {L : layout T} (m : bytes) (x : pointer L) (v : T) : option bytes :=
  a ← address x;
  if decide (a + width L ≤ length m)%nat then Some (take a m ++ to_bytes L v ++ drop (a + width L) m) else None.

Definition cast {T U} (From : layout T) (To : layout U) (x : pointer From) : pointer To := Pointer To (address x).

Definition CastPtr {T U} (From : layout T) (To : layout U) `{!B64 From, !B64 To} (x : pointer From) : pointer To := cast From To x.
Definition Cast {T U} (From : layout T) (To : layout U) `{!B64 From, !B64 To} (m : bytes) (x : pointer From) : option U :=
  mem_load m (cast From To x).

Definition CastPtr32 {T U} (From : layout T) (To : layout U) `{!B32 From, !B32 To} (x : pointer From) : pointer To := cast From To x.
Definition Cast32 {T U} (From : layout T) (To : layout U) `{!B32 From, !B32 To} (m : bytes) (x : pointer From) : option U :=
  mem_load m (cast From To x).

(** What [Cast] gives for a variable that holds [v]. *)
Definition Cast_of {T U} (From : layout T) (To : layout U) (v : T) : U := of_bytes To (to_bytes From v).

(** ** Integers *)

Lemma pow_bytes n : 256 ^ Z.of_nat n = 2 ^ (8 * Z.of_nat n).
Proof. rewrite Z.pow_mul_r by lia. done. Qed.

Lemma swrap_eqm w x y : x mod 2 ^ w = y mod 2 ^ w → swrap w x = swrap w y.
Proof. intros E. unfold swrap. by rewrite <-Zplus_mod_idemp_l, E, Zplus_mod_idemp_l. Qed.

Lemma swrap_mod w x : 0 ≤ w → swrap w x mod 2 ^ w = x mod 2 ^ w.
Proof. intros Hw. unfold swrap. by rewrite Zminus_mod_idemp_l, Z.add_simpl_r. Qed.

Lemma swrap_of_small w x : 0 < w → - 2 ^ (w - 1) ≤ x < 2 ^ (w - 1) → swrap w (x mod 2 ^ w) = x.
Proof. intros Hw Hx. rewrite (swrap_eqm w _ x) by by rewrite Z.mod_mod by lia. by apply swrap_small. Qed.

#[export] Instance uint_Layout n : Layout (uint_layout n) (λ x, 0 ≤ x < 2 ^ (8 * Z.of_nat n)).
Proof.
  split; simpl.
  - intros v _. apply le_bytes_spec.
  - intros v Hv. rewrite le_value_bytes, pow_bytes. by apply Z.mod_small.
  - intros b <- Hb. rewrite <-pow_bytes. by apply le_value_range.
  - intros b <- Hb. by apply le_bytes_value.
Qed.

#[export] Instance int_Layout n : Layout (int_layout (S n)) (λ x, - 2 ^ (8 * Z.of_nat (S n) - 1) ≤ x < 2 ^ (8 * Z.of_nat (S n) - 1)).
Proof.
  split; cbn [to_bytes of_bytes width int_layout].
  - intros v _. apply le_bytes_spec.
  - intros v Hv. rewrite le_value_bytes, pow_bytes. apply swrap_of_small; [lia|done].
  - intros b _ _. apply swrap_range. lia.
  - intros b Hl Hb. rewrite <-le_bytes_mod, pow_bytes, swrap_mod, <-pow_bytes, le_bytes_mod, <-Hl by lia.
    by apply le_bytes_value.
Qed.

#[export] Instance array_Layout n : Layout (array_layout n) (λ b, length b = n ∧ Forall is_byte b).
Proof. split; simpl; unfold id; naive_solver. Qed.

(** ** Shared memory and copies *)

Section pointers.
Context {T U} (From : layout T) (To : layout U) {vf : T → Prop} {vt : U → Prop} `{!Layout From vf, !Layout To vt}.

(** Reading back what was written, at either type, and nothing else changes. *)
Lemma store_cast m (x : pointer From) (u : U) m' : width From = width To → vt u →
  mem_store m (cast From To x) u = Some m' →
  mem_load m' x = Some (Cast_of To From u) ∧ mem_load m' (cast From To x) = Some u ∧ length m' = length m ∧
  ∀ i, match address x with Some a => (i < a)%nat ∨ (a + width From ≤ i)%nat | None => True end → m' !! i = m !! i.
Proof.
  intros Hw Hu. destruct (to_bytes_spec (L:=To) (valid:=vt) u Hu) as [Hl _]. destruct x as [[a|]]; [|done].
  unfold mem_store, mem_load, cast, Cast_of. cbn [address mbind option_bind]. destruct (decide _) as [Hle|]; [|done].
  intros [= <-]. 
  assert (length (take a m) = a) as Ha by (rewrite length_take; lia).
  assert (length (take a m ++ to_bytes To u ++ drop (a + width To) m) = length m) as Hm.
  { rewrite !length_app, Ha, Hl, length_drop. lia. }
  assert (take (width To) (drop a (take a m ++ to_bytes To u ++ drop (a + width To) m)) = to_bytes To u) as Hr.
  { rewrite drop_app_length' by done. by apply take_app_length'. }
  rewrite Hm, !decide_True by lia. rewrite Hw, Hr. split_and!; [done|by rewrite (of_to_bytes (L:=To) (valid:=vt))|done|].
  intros i [Hi|Hi].
  - rewrite lookup_app_l by lia. by apply lookup_take_lt.
  - rewrite lookup_app_r, lookup_app_r by lia. rewrite lookup_drop. f_equal. lia.
Qed.
End pointers.

(** A value that is written through the pointer that [CastPtr] returns is what both pointers
    point to, each at its type; [Cast] of a variable is a copy of its bytes, and casting back
    gives the value that it held. *)
Theorem CastPtr_shares {T U} (From : layout T) (To : layout U) {vf : T → Prop} {vt : U → Prop}
    `{!Layout From vf, !Layout To vt, !B64 From, !B64 To} m (x : pointer From) :
  (∀ u m', vt u → mem_store m (CastPtr From To x) u = Some m' →
     mem_load m' x = Some (Cast_of To From u) ∧ Cast From To m' x = Some u) ∧
  (∀ v m', vf v → mem_store m x v = Some m' →
     mem_load m' (CastPtr From To x) = Some (Cast_of From To v) ∧ Cast From To m' x = Some (Cast_of From To v)) ∧
  (∀ v, vf v → vt (Cast_of From To v) ∧ Cast_of To From (Cast_of From To v) = v).
Proof.
  assert (width From = width To) as Hw by by rewrite B64_width, B64_width. split_and!.
  - intros u m' Hu Hs. by destruct (store_cast (vt:=vt) From To m x u m' Hw Hu Hs) as (? & ? & _).
  - intros v m' Hv Hs. assert (x = cast To From (CastPtr From To x)) as Ex by by destruct x.
    rewrite Ex in Hs.
    by destruct (store_cast (vt:=vf) To From m _ v m' (eq_sym Hw) Hv Hs) as (? & _).
  - intros v Hv. destruct (to_bytes_spec (L:=From) (valid:=vf) v Hv) as [Hl Hf]. rewrite Hw in Hl. unfold Cast_of. split.
    + by apply of_bytes_valid.
    + rewrite (to_of_bytes (L:=To) (valid:=vt)) by done. by apply (of_to_bytes (valid:=vf)).
Qed.

(** ** The casts that the program uses *)

Lemma Cast_u64_i64 x : Cast_of uint64 int64 x = i64 x.
Proof.
  unfold Cast_of. cbn [of_bytes to_bytes int_layout uint_layout]. rewrite le_value_bytes. apply (swrap_eqm 64).
  apply (Z.mod_mod x (2 ^ 64)). done.
Qed.

Lemma Cast_array8_i64_inj b b' : length b = 8%nat → Forall is_byte b → length b' = 8%nat → Forall is_byte b' →
  Cast_of array8 int64 b = Cast_of array8 int64 b' → b = b'.
Proof.
  intros Hl Hb Hl' Hb' E. unfold Cast_of in E. cbn [to_bytes array_layout id] in E.
  apply (f_equal (to_bytes int64)) in E. by rewrite !(to_of_bytes (L:=int64)) in E.
Qed.

(** ** Examples *)

(** The examples of the package: [42] and its negation, and a pointer through which an
    increment is seen. *)
Example cast_42 : Cast_of int64 uint64 42 = 42 ∧ Cast_of int64 uint64 (-42) = 2 ^ 64 - 42.
Proof. by vm_compute. Qed.

Definition posInt : pointer int64 := Pointer int64 (Some 3%nat).

Example shared_increment :
  (m ← mem_store (replicate 16 7) posInt 42; v ← mem_load m posInt; m ← mem_store m posInt (v + 1);
   u ← mem_load m (CastPtr int64 uint64 posInt); m ← mem_store m (CastPtr int64 uint64 posInt) (2 ^ 64 - 1);
   v ← mem_load m posInt; Some (u, v, m)) = Some (43, -1, [7; 7; 7; 255; 255; 255; 255; 255; 255; 255; 255; 7; 7; 7; 7; 7]).
Proof. by vm_compute. Qed.

Example nil_panics : Cast int64 uint64 [] (Pointer int64 None) = None.
Proof. done. Qed.
