(* ===== verification/Eth.v ===== *)
(** * Eth: [go/eth] (eth.go, converters.go)

    Block search by time, address lists, random seeds from hashes, Ether amounts.
    A block is its number and time.  The node, the address parser of go-ethereum
    and the 256-bit integer library are classes whose laws are their documented
    behaviour. *)

From S2P Require Import Prelude GoStrings Bufio Memconv.
Local Open Scope Z_scope.

(** ** [sort.Search] *)

(** The loop of [sort.Search], with the state and the panics of the closure it
    calls; [oof] reports that the fuel ran out. *)
Fixpoint search_loop {E St} (oof : E) (fuel : nat) (f : Z → St → outcome E (bool * St))
    (i j : Z) (s : St) : outcome E (Z * St) :=
  if i <? j then
    match fuel with
    | O => Fail oof
    | S fuel =>
        let h := Z.shiftr (u64 (i + j)) 1 in
        '(found, s) ← f h s;
        if (found : bool) then search_loop oof fuel f i h s
        else search_loop oof fuel f (h + 1) j s
    end
  else Ret (i, s).

(** Each round halves the interval, so 64 rounds do for any [int]. *)
Definition Search {E St} (oof : E) (n : Z) (f : Z → St → outcome E (bool * St)) (s : St)
    : outcome E (Z * St) :=
  search_loop oof 64 f 0 n s.

Section search.
Context {E St : Type} (oof : E) (f : Z → St → outcome E (bool * St)).
Context (Inv : Z → Z → St → Prop) (Err : E → Prop) (Pan : Prop) (lo hi : Z).
Hypothesis (Hrange : 0 ≤ lo ∧ hi < 2 ^ 63).
Hypothesis (Hf : ∀ i j h s, lo ≤ i ≤ h → h < j ≤ hi → Inv i j s →
  match f h s with
  | Ret (true, s') => Inv i h s'
  | Ret (false, s') => Inv (h + 1) j s'
  | Fail e => Err e
  | Panic => Pan
  end).

(** What holds of the interval while it shrinks holds of the point it ends at. *)
Lemma search_loop_inv fuel i j s :
  lo ≤ i → i ≤ j → j ≤ hi → j - i < 2 ^ Z.of_nat fuel → Inv i j s →
  match search_loop oof fuel f i j s with
  | Ret (k, s') => i ≤ k ≤ j ∧ Inv k k s'
  | Fail e => Err e
  | Panic => Pan
  end.
Proof.
  revert i j s. induction fuel as [|fuel IH]; intros i j s Hi Hij Hj Hfuel HI.
  { assert (i = j) as -> by (simpl in Hfuel; lia). simpl. rewrite Z.ltb_irrefl. by split; [lia|]. }
  cbn [search_loop]. destruct (Z.ltb_spec i j) as [Hlt|Hge].
  2:{ assert (i = j) as -> by lia. by split; [lia|]. }
  assert (2 ^ 63 < 2 ^ 64) by done. assert (2 ^ 63 + 2 ^ 63 = 2 ^ 64) by done.
  cbv zeta. rewrite uwrap_small, Z.shiftr_div_pow2 by lia. change (2 ^ 1) with 2.
  set (h := (i + j) / 2). assert (i + j - 1 ≤ 2 * h ≤ i + j) as Hh.
  { unfold h. pose proof (Z.div_mod (i + j) 2). pose proof (Z.mod_pos_bound (i + j) 2). lia. }
  rewrite Nat2Z.inj_succ, Z.pow_succ_r in Hfuel by lia.
  clearbody h. specialize (Hf i j h s ltac:(lia) ltac:(lia) HI).
  destruct (f h s) as [[[] s']| |]; cbn [mbind outcome_mbind]; [| |done|done].
  - specialize (IH i h s' ltac:(lia) ltac:(lia) ltac:(lia) ltac:(lia) Hf).
    destruct (search_loop _ _ _ _ _ _) as [[k s'']| |]; [|done|done].
    destruct IH. by split; [lia|].
  - specialize (IH (h + 1) j s' ltac:(lia) ltac:(lia) ltac:(lia) ltac:(lia) Hf).
    destruct (search_loop _ _ _ _ _ _) as [[k s'']| |]; [|done|done].
    destruct IH. by split; [lia|].
Qed.
End search.

(** ** [LastBlockBy] *)

Record Block := mkBlock { NumberU64 : Z; Time : Z }.
Record BlockRange := mkBlockRange { First : Z; Last : Z }.

Inductive eth_err :=
| NodeError
| BlockNumberErr (e : eth_err)
| BlockTooLarge (curr : Z)
| BlockByNumberErr (num : Z) (e : eth_err)
| ErrBlockNotFound
| BrokenInvariant (firstMinedAfter got : Z)
| InvalidAddress (raw : string)
| ScanError
| Recovered
| OutOfFuel.

(** What [LastBlockBy] sees of a node while it runs. *)
Class BlockFetcher (B : Type) := {
  BlockNumber : B → outcome eth_err Z;
  BlockByNumber : B → Z → outcome eth_err Block;
}.

Definition MaxInt : Z := 2 ^ 63 - 1.

(** The closure given to [sort.Search]; [result] is the variable it captures. *)
Definition probe {B} `{BlockFetcher B} (blocks : B) (minedBy first : Z) (num : Z)
    (result : option Block) : outcome eth_err (bool * option Block) :=
  let num := i64 (num + i64 first) in
  b ← map_err (BlockByNumberErr num) (BlockByNumber blocks num);
  let mined := Time b <=? minedBy in
  let result :=
    if mined && match result with None => true | Some r => Time r <? Time b end
    then Some b else result in
  Ret (negb mined, result).

(** The range to search: the hint, completed with the latest block. *)
Definition search_range {B} `{BlockFetcher B} (blocks : B) (hint : option BlockRange)
    : outcome eth_err BlockRange :=
  let hint := default (mkBlockRange 0 0) hint in
  if Last hint =? 0 then
    curr ← map_err BlockNumberErr (BlockNumber blocks);
    if MaxInt <=? curr then Fail (BlockTooLarge curr)
    else Ret (mkBlockRange (First hint) curr)
  else Ret hint.

(** The deferred [recover]: a panic of the fetcher becomes an error. *)
Definition recovered {A} (c : outcome eth_err A) : outcome eth_err A :=
  match c with Panic => Fail Recovered | c => c end.

Definition LastBlockBy {B} `{BlockFetcher B} (blocks : B) (minedBy : Z) (hint : option BlockRange)
    : outcome eth_err Block :=
  hint ← search_range blocks hint;
  recovered
    (let n := i64 (u64 (Last hint - First hint + 1)) in
     '(firstMinedAfter, result) ← Search OutOfFuel n (probe blocks minedBy (First hint)) None;
     match result with
     | None => Fail ErrBlockNotFound
     | Some result =>
         let firstMinedAfter := i64 (firstMinedAfter + i64 (First hint)) in
         if negb (NumberU64 result =? u64 (i64 (firstMinedAfter - 1)))
         then Fail (BrokenInvariant firstMinedAfter (NumberU64 result))
         else Ret result
     end).

(** ** Search over a chain *)

Section chain.
Context {B : Type} `{BlockFetcher B} (blocks : B) (minedBy lo hi : Z).
Hypothesis (Hrange : 0 ≤ lo ≤ hi) (Hhi : hi < MaxInt).

Lemma probe_shift h : 0 ≤ h ≤ hi - lo → i64 (h + i64 lo) = lo + h.
Proof.
  unfold MaxInt in *. intros Hh. rewrite (i64_small lo), i64_small by lia. lia.
Qed.

Lemma search_size : i64 (u64 (hi - lo + 1)) = hi - lo + 1.
Proof.
  unfold MaxInt in *. assert (2 ^ 63 < 2 ^ 64) by done.
  by rewrite u64_small, i64_small by lia.
Qed.

Definition latest (lo i : Z) (time : Z → Z) : option Block :=
  if i =? 0 then None else Some (mkBlock (lo + i - 1) (time (lo + i - 1))).

(** On a chain whose times strictly increase the search finds the boundary and
    the captured block is the one before it. *)
Lemma search_chain (time : Z → Z) :
  (∀ n, lo ≤ n ≤ hi → BlockByNumber blocks n = Ret (mkBlock n (time n))) →
  (∀ n m, lo ≤ n → n < m ≤ hi → time n < time m) →
  ∃ k, Search OutOfFuel (hi - lo + 1) (probe blocks minedBy lo) None = Ret (k, latest lo k time) ∧
    0 ≤ k ≤ hi - lo + 1 ∧
    (∀ m, lo ≤ m < lo + k → time m ≤ minedBy) ∧ (∀ m, lo + k ≤ m ≤ hi → minedBy < time m).
Proof.
  intros Hf Ht. unfold MaxInt, Search in *. assert (2 ^ 63 < 2 ^ Z.of_nat 64) by done.
  set (Inv := λ i j (s : option Block), (∀ m, lo ≤ m < lo + i → time m ≤ minedBy) ∧
    (∀ m, lo + j ≤ m ≤ hi → minedBy < time m) ∧ s = latest lo i time).
  assert (match search_loop OutOfFuel 64 (probe blocks minedBy lo) 0 (hi - lo + 1) None with
    | Ret (k, s') => 0 ≤ k ≤ hi - lo + 1 ∧ Inv k k s' | _ => False end) as Hs.
  { apply (search_loop_inv OutOfFuel _ Inv (λ _, False) False 0 (hi - lo + 1)); try lia.
    - unfold Inv. intros i j h s Hi Hj (H1 & H2 & ->). unfold probe. rewrite probe_shift, Hf by lia.
      cbn [map_err mbind outcome_mbind Time].
      destruct (Z.leb_spec (time (lo + h)) minedBy) as [Hm|Hm]; simpl.
      + split; [|split; [intros m Hlm; apply H2; lia|]].
        * intros m Hlm. destruct (decide (m = lo + h)) as [->|]; [done|].
          pose proof (Ht m (lo + h)). lia.
        * unfold latest. destruct (Z.eqb_spec (h + 1) 0); [lia|].
          replace (lo + (h + 1) - 1) with (lo + h) by lia.
          destruct (Z.eqb_spec i 0); simpl; [done|].
          rewrite (proj2 (Z.ltb_lt _ _)); [done|]. apply Ht; lia.
      + split; [done|]. split; [|done]. intros m Hlm.
        destruct (decide (m = lo + h)) as [->|]; [done|]. pose proof (Ht (lo + h) m). lia.
    - unfold Inv. split; [lia|]. split; [lia|done]. }
  destruct (search_loop _ _ _ _ _ _) as [[k s]| |]; [|done|done].
  destruct Hs as (Hk & H1 & H2 & ->). by exists k.
Qed.
End chain.

(** C19. On a chain whose block times strictly increase, [LastBlockBy] returns
    [ErrBlockNotFound] when the first block of the range was mined too late, and
    otherwise the last block of the range mined by the requested time. *)
Theorem LastBlockBy_correct {B} `{BlockFetcher B} (blocks : B) minedBy hint lo hi time :
  search_range blocks hint = Ret (mkBlockRange lo hi) → 0 ≤ lo ≤ hi → hi < MaxInt →
  (∀ n, lo ≤ n ≤ hi → BlockByNumber blocks n = Ret (mkBlock n (time n))) →
  (∀ n m, lo ≤ n → n < m ≤ hi → time n < time m) →
  (minedBy < time lo → LastBlockBy blocks minedBy hint = Fail ErrBlockNotFound) ∧
  (∀ k, lo ≤ k ≤ hi → time k ≤ minedBy → (k < hi → minedBy < time (k + 1)) →
     LastBlockBy blocks minedBy hint = Ret (mkBlock k (time k))).
Proof.
  intros Hs Hr Hhi Hf Ht. unfold LastBlockBy. rewrite Hs. cbn [mbind outcome_mbind First Last].
  rewrite search_size by done. cbv zeta.
  destruct (search_chain blocks minedBy lo hi Hr Hhi time Hf Ht) as (k & -> & Hk & Hle & Hgt).
  cbn [mbind outcome_mbind]. unfold latest, MaxInt in *. split.
  - intros Hlo. assert (k = 0) as ->; [|done]. destruct (decide (k = 0)); [done|].
    pose proof (Hle lo). lia.
  - intros k' Hk' Hm Hnext.
    assert (lo + k = k' + 1) as Ek.
    { destruct (decide (lo + k ≤ k')); [pose proof (Hgt k'); lia|].
      destruct (decide (k' + 1 < lo + k)); [|lia]. pose proof (Hle (k' + 1)). lia. }
    destruct (Z.eqb_spec k 0); [lia|]. cbn [NumberU64].
    rewrite (i64_small lo), (i64_small (k + lo)), i64_small, u64_small by lia.
    replace (lo + k - 1) with k' by lia. replace (k + lo - 1) with k' by lia.
    by rewrite Z.eqb_refl.
Qed.

(** A chain given by the times of its blocks, as [ethtest.BlockTimes]. *)
Definition BlockTimes : Type := list Z.

(** The bound check is [i > len(t)]: the index that equals the length panics. *)
#[export] Instance BlockTimes_fetcher : BlockFetcher BlockTimes := {
  BlockNumber t := let n := Z.of_nat (length t) in if n =? 0 then Fail NodeError else Ret (n - 1);
  BlockByNumber t num :=
    if negb (i64 num =? num) then Fail NodeError
    else if Z.of_nat (length t) <? num then Fail NodeError
    else if num <? 0 then Panic
    else mkBlock num <$> or_panic (t !! Z.to_nat num);
}.

Lemma LastBlockBy_correct_witness :
  (20 < 10 → LastBlockBy ([10; 20; 30; 40] : BlockTimes) 20 None = Fail ErrBlockNotFound) ∧
  LastBlockBy ([10; 20; 30; 40] : BlockTimes) 35 (Some (mkBlockRange 1 0)) = Ret (mkBlock 2 30).
Proof.
  assert (∀ n, 0 ≤ n ≤ 3 → BlockByNumber ([10; 20; 30; 40] : BlockTimes) n = Ret (mkBlock n (10 * n + 10))) as Hf.
  { intros n Hn. assert (n = 0 ∨ n = 1 ∨ n = 2 ∨ n = 3) as [->|[->|[->| ->]]] by lia; done. }
  split.
  - apply (LastBlockBy_correct _ 20 None 0 3 (λ n, 10 * n + 10)); try done; intros; lia.
  - apply (LastBlockBy_correct _ 35 _ 1 3 (λ n, 10 * n + 10)); try done; try lia.
    intros n Hn. apply Hf; lia.
Defined.

(** Whatever the times of the blocks: a returned block was fetched from the
    node, lies in the range, was mined in time, and the next block of the range
    was not; [ErrBlockNotFound] means that the first block of the range was mined
    too late; an error of the node is reported with the number asked for. *)
Theorem LastBlockBy_sound {B} `{BlockFetcher B} (blocks : B) minedBy hint lo hi :
  search_range blocks hint = Ret (mkBlockRange lo hi) → 0 ≤ lo ≤ hi → hi < MaxInt →
  (∀ n b, BlockByNumber blocks n = Ret b → NumberU64 b = n) →
  match LastBlockBy blocks minedBy hint with
  | Ret b => lo ≤ NumberU64 b ≤ hi ∧ BlockByNumber blocks (NumberU64 b) = Ret b ∧
      Time b ≤ minedBy ∧
      (NumberU64 b < hi → ∃ b', BlockByNumber blocks (NumberU64 b + 1) = Ret b' ∧ minedBy < Time b')
  | Fail ErrBlockNotFound => ∃ b, BlockByNumber blocks lo = Ret b ∧ minedBy < Time b
  | Fail (BlockByNumberErr n e) => lo ≤ n ≤ hi ∧ BlockByNumber blocks n = Fail e
  | Fail Recovered => ∃ n, BlockByNumber blocks n = Panic
  | Fail (BrokenInvariant _ _) => True
  | _ => False
  end.
Proof.
  intros Hs Hr Hhi Hnum. unfold LastBlockBy. rewrite Hs. cbn [mbind outcome_mbind First Last].
  rewrite search_size by done. cbv zeta. unfold MaxInt, Search in *.
  assert (2 ^ 63 < 2 ^ Z.of_nat 64) by done.
  set (Inv := λ i j (s : option Block),
    (0 < i → ∃ b, BlockByNumber blocks (lo + i - 1) = Ret b ∧ Time b ≤ minedBy) ∧
    (j < hi - lo + 1 → ∃ b, BlockByNumber blocks (lo + j) = Ret b ∧ minedBy < Time b) ∧
    match s with None => i = 0
    | Some b => ∃ m, lo ≤ m < lo + i ∧ BlockByNumber blocks m = Ret b end).
  set (Err := λ e, match e with
    | BlockByNumberErr n e => lo ≤ n ≤ hi ∧ BlockByNumber blocks n = Fail e | _ => False end).
  assert (match search_loop OutOfFuel 64 (probe blocks minedBy lo) 0 (hi - lo + 1) None with
    | Ret (k, s') => 0 ≤ k ≤ hi - lo + 1 ∧ Inv k k s' | Fail e => Err e
    | Panic => ∃ n, BlockByNumber blocks n = Panic end) as HS.
  { apply (search_loop_inv OutOfFuel _ Inv Err _ 0 (hi - lo + 1)); try lia; [|split; [lia|split; [lia|done]]].
    intros i j h s Hi Hj (H1 & H2 & H3). unfold probe. rewrite (probe_shift lo hi) by (done || lia).
    destruct (BlockByNumber blocks (lo + h)) as [b|e|] eqn:E; [|split; [lia|done]|by eexists].
    cbn [map_err mbind outcome_mbind]. destruct (Z.leb_spec (Time b) minedBy) as [Hm|Hm]; simpl.
    - split; [intros _; exists b; by replace (lo + (h + 1) - 1) with (lo + h) by lia|]. split; [done|].
      assert (∀ r, s = Some r → ∃ m, lo ≤ m < lo + (h + 1) ∧ BlockByNumber blocks m = Ret r) as Hold.
      { intros r ->. destruct H3 as (m & Hm' & Er). exists m. split; [lia|done]. }
      destruct s as [r|]; [destruct (Time r <? Time b)|]; try (exists (lo + h); split; [lia|done]).
      by apply Hold.
    - split; [done|]. split; [by exists b|done]. }
  destruct (search_loop _ _ _ _ _ _) as [[k s]|e|]; cbn [mbind outcome_mbind recovered]; [|by destruct e|done].
  destruct HS as (Hk & H1 & H2 & H3). destruct s as [r|].
  - destruct H3 as (m & Hm & Er). pose proof (Hnum _ _ Er) as En.
    rewrite (i64_small lo), (i64_small (k + lo)), i64_small, u64_small by lia.
    destruct (Z.eqb_spec (NumberU64 r) (k + lo - 1)) as [Ek|]; [|done]. simpl.
    rewrite En in *. destruct H1 as (b & Eb & Htb); [lia|].
    replace (lo + k - 1) with m in Eb by lia. rewrite Er in Eb. injection Eb as <-.
    split; [lia|]. split; [done|]. split; [done|]. intros Hlt. replace (m + 1) with (lo + k) by lia.
    apply H2. lia.
  - subst k. rewrite Z.add_0_r in H2. apply H2. lia.
Qed.

Lemma LastBlockBy_sound_witness :
  match LastBlockBy ([5; 5; 9; 7] : BlockTimes) 8 (Some (mkBlockRange 0 2)) with
  | Ret b => 0 ≤ NumberU64 b ≤ 2 ∧ BlockByNumber ([5; 5; 9; 7] : BlockTimes) (NumberU64 b) = Ret b ∧
      Time b ≤ 8 ∧ (NumberU64 b < 2 →
        ∃ b', BlockByNumber ([5; 5; 9; 7] : BlockTimes) (NumberU64 b + 1) = Ret b' ∧ 8 < Time b')
  | Fail ErrBlockNotFound => ∃ b, BlockByNumber ([5; 5; 9; 7] : BlockTimes) 0 = Ret b ∧ 8 < Time b
  | Fail (BlockByNumberErr n e) => 0 ≤ n ≤ 2 ∧ BlockByNumber ([5; 5; 9; 7] : BlockTimes) n = Fail e
  | Fail Recovered => ∃ n, BlockByNumber ([5; 5; 9; 7] : BlockTimes) n = Panic
  | Fail (BrokenInvariant _ _) => True
  | _ => False
  end.
Proof.
  apply (LastBlockBy_sound ([5; 5; 9; 7] : BlockTimes) 8 (Some (mkBlockRange 0 2)) 0 2); try done.
  intros n b. simpl. destruct (_ =? n); [|done]. destruct (_ <? n); [done|]. destruct (n <? 0); [done|].
  simpl. destruct (_ !! _); [|done]. by intros [= <-].
Defined.

(** Blocks that share a time make the search fail although the answer exists. *)
Example LastBlockBy_same_time :
  LastBlockBy ([5; 5; 5; 5] : BlockTimes) 7 None = Fail (BrokenInvariant 4 2).
Proof. done. Qed.

(** ** Addresses *)

(** go-ethereum's address type, with the parser and the checksummed printer that
    the code uses: what is printed is an address and parses back. *)
Class EthAddress (A : Type) := {
  IsHexAddress : string → bool;
  HexToAddress : string → A;
  Hex : A → string;
}.

Class EthAddressLaws (A : Type) `{EthAddress A} := {
  Hex_is_address : ∀ a : A, IsHexAddress (Hex a) = true;
  HexToAddress_Hex : ∀ a : A, HexToAddress (Hex a) = a;
  (** Addresses are 40 hex digits, possibly after 0x or 0X. *)
  IsHexAddress_chars : ∀ s : string, IsHexAddress (A:=A) s = true →
    s ≠ EmptyString ∧ Z.of_nat (String.length s) ≤ 42 ∧
    ∀ c, mentions c s = true → (is_xdigit c || bool_decide (c = "x"%char) || bool_decide (c = "X"%char)) = true;
}.

Lemma address_char_not_space c :
  (is_xdigit c || bool_decide (c = "x"%char) || bool_decide (c = "X"%char)) = true → of_space c = false.
Proof. destruct c as [[] [] [] [] [] [] [] []]; by vm_compute. Qed.

Lemma IsHexAddress_clean {A} `{EthAddressLaws A} (s : string) : IsHexAddress (A:=A) s = true →
  s ≠ EmptyString ∧ mentions (ascii_of_nat 44) s = false ∧ TrimSpace s = s ∧ printable s.
Proof.
  intros (Hne & Hl & Hc)%IsHexAddress_chars.
  assert (∀ c, (is_xdigit c || bool_decide (c = "x"%char) || bool_decide (c = "X"%char)) = false → mentions c s = false) as Hm.
  { intros c Hx. destruct (mentions c s) eqn:E; [|done]. by rewrite Hc in Hx. }
  split_and!; [done|by apply Hm|by apply TrimSpace_id; intros c ?%Hc%address_char_not_space|].
  split_and!; [by apply Hm..|]. unfold MaxScanTokenSize. lia.
Qed.

Definition scan_chunk {A} `{EthAddress A} (addrs : list A) (text : string)
    : outcome eth_err (list A) :=
  let raw := TrimSpace text in
  if decide (raw = EmptyString) then Ret addrs
  else if negb (IsHexAddress raw) then Fail (InvalidAddress raw)
  else Ret (addrs ++ [HexToAddress raw]).

Fixpoint scan_loop {A} `{EthAddress A} (addrs : list A) (cs : list string) : outcome eth_err (list A) :=
  match cs with
  | [] => Ret addrs
  | c :: cs => addrs ← scan_chunk addrs c; scan_loop addrs cs
  end.

Definition AddressesFromReader {A} `{EthAddress A} (s : Scanner) : outcome eth_err (list A) :=
  addrs ← scan_loop [] (chunks s);
  if failed s then Fail ScanError else Ret addrs.

Definition AddressPerLine {A} `{EthAddress A} (r : Reader) : outcome eth_err (list A) := AddressesFromReader (ScanLines r).

(** The words a reader finds in the chunks: trimmed and not empty. *)
Definition words (cs : list string) : list string :=
  filter (λ w, w ≠ EmptyString) (map TrimSpace cs).

Lemma scan_loop_spec {A} `{EthAddress A} (addrs : list A) cs :
  scan_loop addrs cs =
    match find (λ w, negb (IsHexAddress w)) (words cs) with
    | Some w => Fail (InvalidAddress w)
    | None => Ret (addrs ++ map HexToAddress (words cs))
    end.
Proof.
  revert addrs. induction cs as [|c cs IH]; intros addrs; simpl; [by rewrite app_nil_r|].
  unfold scan_chunk, words. cbv zeta. simpl map. rewrite filter_cons. case_decide as E.
  - rewrite decide_False by (intros H'; by apply H'). cbn [mbind outcome_mbind]. apply IH.
  - rewrite decide_True by done. simpl. destruct (IsHexAddress (TrimSpace c)); simpl; [|done].
    rewrite IH. unfold words. destruct (find _ _); [done|]. by rewrite <-app_assoc.
Qed.

(** [AddressesFromReader] fails on the first chunk that is neither blank nor
    an address, naming it after trimming; otherwise it returns the addresses in
    order, unless the scanner stopped early. *)
Theorem AddressesFromReader_correct {A} `{EthAddress A} cs e :
  AddressesFromReader (A:=A) (mkScanner cs e) =
    match find (λ w, negb (IsHexAddress w)) (words cs) with
    | Some w => Fail (InvalidAddress w)
    | None => if e then Fail ScanError else Ret (map HexToAddress (words cs))
    end.
Proof.
  unfold AddressesFromReader. simpl. rewrite scan_loop_spec.
  destruct (find _ _); [done|]. by destruct e.
Qed.

(** The words do not depend on blank lines. *)
Lemma words_app cs cs' : words (cs ++ cs') = words cs ++ words cs'.
Proof. unfold words. by rewrite map_app, filter_app. Qed.

(** [AddressPerLine] reads the lines up to the first of 64 KiB or more: it fails on the
    first word among them that is no address, then on such a line or on a failing reader,
    and otherwise returns the addresses in order. *)
Theorem AddressPerLine_correct {A} `{EthAddress A} text e :
  let lines := Split LF text in
  AddressPerLine (A:=A) (mkReader text e) =
    match find (λ w, negb (IsHexAddress (A:=A) w)) (words (dropCR <$> fitting lines)) with
    | Some w => Fail (InvalidAddress w)
    | None => if negb (forallb fits lines) || e then Fail ScanError
              else Ret (map HexToAddress (words (dropCR <$> lines)))
    end.
Proof.
  intros lines. unfold AddressPerLine, ScanLines. cbn [content broken]. fold lines.
  destruct (scan_lines_spec lines) as [Hb (l & Hl)]. destruct (scan_lines lines) as [ts b]. simpl in Hb, Hl. subst b.
  assert (words ts = words (dropCR <$> fitting lines)) as Hw.
  { destruct Hl as [[-> ->]|[-> ->]]; [|done]. by rewrite fmap_app, words_app, (app_nil_r (words _)). }
  rewrite AddressesFromReader_correct, Hw. destruct (find _ _); [done|].
  destruct (forallb fits lines) eqn:Ef; [|done]. simpl. destruct e; [done|]. do 4 f_equal.
  clear -Ef. induction lines as [|line lines IH]; [done|]. cbn [forallb fitting] in *.
  apply andb_true_iff in Ef as [-> Hf]. by rewrite IH.
Qed.

(** Addresses that are printed one per line, with either line ending and any blank lines
    between them, are read back. *)
Theorem AddressPerLine_roundtrip {A} `{EthAddressLaws A} crlf (lines : list (option A)) :
  AddressPerLine (mkReader (print_lines crlf (from_option Hex EmptyString <$> lines)) false) = Ret (omap id lines).
Proof.
  unfold AddressPerLine. rewrite ScanLines_print.
  - rewrite AddressesFromReader_correct. induction lines as [|[a|] lines IH]; [done| |exact IH]. 
    pose proof (IsHexAddress_clean (A:=A) (Hex a) (Hex_is_address a)) as (Hne & _ & Ht & _).
    unfold words in *. cbn [fmap list_fmap map from_option]. rewrite Ht, filter_cons, decide_True by done.
    cbn [find]. rewrite Hex_is_address. simpl. revert IH. destruct (find _ _); [done|]. intros [= ->].
    by rewrite HexToAddress_Hex.
  - apply Forall_fmap, Forall_true. intros [a|]; [|by split_and!].
    apply (IsHexAddress_clean (A:=A) (Hex a)), Hex_is_address.
Qed.

(** ** Seeds and amounts *)

(** [uint256.Int] is four 64-bit words, least significant first. *)
Class Uint256 := FromBig : Z → Z * Z * Z * Z.
Class Uint256Law `{Uint256} := FromBig_words : ∀ x i, 0 ≤ x < 2 ^ 256 → 0 ≤ i < 64 →
  let '(u0, u1, u2, u3) := FromBig x in
  (0 ≤ u0 < 2 ^ 64 ∧ 0 ≤ u1 < 2 ^ 64 ∧ 0 ≤ u2 < 2 ^ 64 ∧ 0 ≤ u3 < 2 ^ 64) ∧
  Z.testbit u0 i = Z.testbit x i ∧ Z.testbit u1 i = Z.testbit x (i + 64) ∧
  Z.testbit u2 i = Z.testbit x (i + 128) ∧ Z.testbit u3 i = Z.testbit x (i + 192).

(** The seed that [RandFromHash] gives to [rand.NewSource]. *)
Definition RandFromHash `{Uint256} (h : Z) : Z :=
  let '(u0, u1, u2, u3) := FromBig h in
  Cast_of uint64 int64 (Z.lxor (Z.lxor (Z.lxor u0 u1) u2) u3).

Lemma lxor_range a b : 0 ≤ a < 2 ^ 64 → 0 ≤ b < 2 ^ 64 → 0 ≤ Z.lxor a b < 2 ^ 64.
Proof.
  intros Ha Hb. split; [by apply Z.lxor_nonneg; lia|].
  destruct (decide (Z.lxor a b = 0)) as [->|]; [done|].
  assert (0 < Z.lxor a b) by (pose proof (proj2 (Z.lxor_nonneg a b)); lia).
  apply Z.log2_lt_pow2; [done|].
  pose proof (Z.log2_lxor a b ltac:(lia) ltac:(lia)).
  assert (∀ c, 0 ≤ c < 2 ^ 64 → Z.log2 c < 64) as Hl.
  { intros c Hc. destruct (decide (c = 0)) as [->|]; [done|]. apply Z.log2_lt_pow2; lia. }
  pose proof (Hl a Ha). pose proof (Hl b Hb). lia.
Qed.

(** The seed is an int64 whose every bit, read as two's complement, is the
    parity of the four bits of the hash that lie 64 apart: each bit of the hash
    counts and none is lost by the conversion to a signed word. *)
Theorem RandFromHash_bits `{Uint256Law} h i : 0 ≤ h < 2 ^ 256 → 0 ≤ i < 64 →
  - 2 ^ 63 ≤ RandFromHash h < 2 ^ 63 ∧
  Z.testbit (RandFromHash h) i =
    xorb (xorb (xorb (Z.testbit h i) (Z.testbit h (i + 64))) (Z.testbit h (i + 128)))
         (Z.testbit h (i + 192)).
Proof.
  intros Hh Hi. unfold RandFromHash.
  pose proof (FromBig_words h i Hh Hi) as Hw.
  destruct (FromBig h) as [[[u0 u1] u2] u3]. destruct Hw as ((R0 & R1 & R2 & R3) & <- & <- & <- & <-).
  rewrite Cast_u64_i64. split; [apply (swrap_range 64); lia|]. set (x := Z.lxor (Z.lxor (Z.lxor u0 u1) u2) u3).
  assert (0 ≤ x < 2 ^ 64) as Hx by (by repeat apply lxor_range).
  transitivity (Z.testbit x i); [|unfold x; by rewrite !Z.lxor_spec].
  rewrite <-(Z.mod_pow2_bits_low (i64 x) 64), <-(Z.mod_pow2_bits_low x 64) by lia. f_equal. by apply swrap_mod.
Qed.

(** [params.Ether]. *)
Definition Ether_wei : Z := 10 ^ 18.

(** [big.Int.Div]: Euclidean division. *)
Definition Div (x y : Z) : Z := Z.sgn y * (x / Z.abs y).

Lemma Div_spec x y : y ≠ 0 → 0 ≤ x - Div x y * y < Z.abs y.
Proof.
  intros Hy. unfold Div. pose proof (Z.div_mod x (Z.abs y)).
  pose proof (Z.mod_pos_bound x (Z.abs y)). pose proof (Z.abs_sgn y).
  replace (Z.sgn y * (x / Z.abs y) * y) with (Z.abs y * (x / Z.abs y)) by nia. lia.
Qed.

(** [Div] panics on a zero denominator. *)
Definition EtherFraction (numerator denominator : Z) : outcome eth_err Z :=
  if denominator =? 0 then Panic
  else Ret (Div (numerator * Ether_wei) denominator).

Definition Ether (e : Z) : outcome eth_err Z := EtherFraction e 1.

(** [EtherFraction] is exact up to less than one Wei per denominator, rounds
    down for positive denominators, and agrees with [Ether] on whole amounts. *)
Theorem EtherFraction_spec numerator denominator : denominator ≠ 0 →
  ∃ wei, EtherFraction numerator denominator = Ret wei ∧
    0 ≤ numerator * 10 ^ 18 - wei * denominator < Z.abs denominator ∧
    ∀ e, numerator = e * denominator → Ether e = Ret wei.
Proof.
  intros Hd. unfold EtherFraction, Ether, EtherFraction, Ether_wei.
  destruct (Z.eqb_spec denominator 0) as [|_]; [done|]. set (n := numerator * 10 ^ 18) in *.
  pose proof (Div_spec n denominator Hd). eexists. split; [done|]. split; [lia|].
  intros e He. simpl (1 =? 0). cbv iota. f_equal.
  pose proof (Div_spec (e * 10 ^ 18) 1 ltac:(done)). simpl (Z.abs 1) in *.
  assert (n = e * 10 ^ 18 * denominator) by (unfold n; lia). nia.
Qed.

Lemma EtherFraction_spec_witness :
  ∃ wei, EtherFraction (-3) (-2) = Ret wei ∧ 0 ≤ -3 * 10 ^ 18 - wei * -2 < 2 ∧
    ∀ e, -3 = e * -2 → Ether e = Ret wei.
Proof. by apply (EtherFraction_spec (-3) (-2)). Defined.

#[local] Instance words_uint256 : Uint256 := λ x,
  (x mod 2 ^ 64, Z.shiftr x 64 mod 2 ^ 64, Z.shiftr x 128 mod 2 ^ 64, Z.shiftr x 192 mod 2 ^ 64).

#[local] Instance words_uint256_law : Uint256Law.
Proof.
  intros x i Hx Hi. unfold FromBig, words_uint256. split; [split_and!; by apply Z.mod_pos_bound|].
  rewrite !Z.mod_pow2_bits_low, !Z.shiftr_spec by lia. done.
Qed.

Lemma RandFromHash_bits_witness :
  - 2 ^ 63 ≤ RandFromHash (2 ^ 255 + 5) < 2 ^ 63 ∧
  Z.testbit (RandFromHash (2 ^ 255 + 5)) 63 =
    xorb (xorb (xorb (Z.testbit (2 ^ 255 + 5) 63) (Z.testbit (2 ^ 255 + 5) (63 + 64)))
      (Z.testbit (2 ^ 255 + 5) (63 + 128))) (Z.testbit (2 ^ 255 + 5) (63 + 192)).
Proof. by apply (RandFromHash_bits (2 ^ 255 + 5) 63). Defined.

(** Two addresses, for the examples. *)
#[local] Instance two_addresses : EthAddress bool := {
  IsHexAddress s := bool_decide (s = "0xA" ∨ s = "0xB")%string;
  HexToAddress s := bool_decide (s = "0xA")%string;
  Hex a := if a then "0xA"%string else "0xB"%string;
}.

#[local] Instance two_addresses_laws : EthAddressLaws bool.
Proof.
  split; [by intros []|by intros []|]. intros s Hs. simpl in Hs.
  apply bool_decide_eq_true in Hs as [-> | ->]; (split; [done|]; split; [done|]; intros c Hc; simpl in Hc;
    repeat (apply orb_true_iff in Hc as [Hc|Hc]; [by apply bool_decide_eq_true in Hc as <-|]); done).
Qed.
