(* ===== verification/Nullable.v ===== *)
(** * Nullable: the nullable values of [go/eth/nullable.go]

    One model for both types: a [NullableAddress] is a [Nullable] of addresses, a
    [NullableUint256] a [Nullable] of numbers.  The wire formats are strings; the
    payload's printer and parser and the string coder of [encoding/json] are
    classes with their documented laws. *)

From S2P Require Import Prelude GoStrings Eth.

Inductive nullable_err := JSONError (data : string) | FromHexError (s : string).

(** [json.Marshal] of a string and [json.Unmarshal] into a zero string. *)
Class JSON := {
  json_Marshal : string → string;
  json_Unmarshal : string → option string;
}.

Definition null : string := "null".

(** ASCII strings, which JSON carries unchanged. *)
Definition ascii_only (s : string) : bool :=
  forallb (λ c, nat_of_ascii c <? 128)%nat (String.list_ascii_of_string s).

Class JSONLaws `{JSON} := {
  json_roundtrip : ∀ s, ascii_only s = true → json_Unmarshal (json_Marshal s) = Some s;
  json_nonempty : ∀ s, json_Marshal s ≠ EmptyString;
  (** The JSON null has no effect on a string. *)
  json_null : json_Unmarshal null = Some EmptyString;
}.

(** A payload: how it prints, and how it is read from a string. *)
Class Payload (P : Type) := {
  zero : P;
  String_ : P → string;
  stringToPayload : string → outcome nullable_err P;
}.

Class PayloadLaws (P : Type) `{Payload P} := {
  stringToPayload_String : ∀ p, stringToPayload (String_ p) = Ret p;
  String_nonempty : ∀ p, String_ p ≠ EmptyString;
  String_ascii : ∀ p, ascii_only (String_ p) = true;
}.

Record Nullable (P : Type) := mkNullable { payload : P; Valid : bool }.
Arguments mkNullable {P} payload Valid.
Arguments payload {P}.
Arguments Valid {P}.

(** A nil pointer is [None]. *)
Definition marshalNullable {P} `{Payload P} (n : option (Nullable P))
    (fn : string → outcome nullable_err string) (empty : string) : outcome nullable_err string :=
  match n with
  | None => Ret empty
  | Some n => if negb (Valid n) then Ret empty else fn (String_ (payload n))
  end.

(** The receiver afterwards, and the error. *)
Definition unmarshalNullable {P} `{Payload P} (n : Nullable P) (data : string)
    (wireToString : string → outcome nullable_err string) : Nullable P * option nullable_err :=
  if decide (data = EmptyString) then (mkNullable zero false, None)
  else match wireToString data with
       | Ret s => match stringToPayload s with
                  | Ret p => (mkNullable p true, None)
                  | Fail e => (n, Some e)
                  | Panic => (n, None)
                  end
       | Fail e => (n, Some e)
       | Panic => (n, None)
       end.

Definition unmarshalJSONToString `{JSON} (data : string) : outcome nullable_err string :=
  match json_Unmarshal data with Some s => Ret s | None => Fail (JSONError data) end.

Definition echo (s : string) : outcome nullable_err string := Ret s.

Section methods.
Context {P} `{Payload P, JSON}.

Definition MarshalJSON (n : option (Nullable P)) : outcome nullable_err string :=
  marshalNullable n (λ s, Ret (json_Marshal s)) null.
Definition MarshalCSV (n : option (Nullable P)) : outcome nullable_err string :=
  marshalNullable n echo EmptyString.
Definition UnmarshalJSON (n : Nullable P) (data : string) : Nullable P * option nullable_err :=
  unmarshalNullable n data unmarshalJSONToString.
Definition UnmarshalCSV (n : Nullable P) (s : string) : Nullable P * option nullable_err :=
  unmarshalNullable n s echo.
End methods.

(** ** The two payloads *)

(** [addressFromString] accepts every string. *)
Definition addressFromString {A} `{EthAddress A} (s : string) : outcome nullable_err A :=
  Ret (HexToAddress s).

Definition NullableAddress_payload {A} `{EthAddress A} : Payload A := {|
  zero := HexToAddress EmptyString;
  String_ := Hex;
  stringToPayload := addressFromString;
|}.

(** [uint256.FromHex] and [Int.String]. *)
Class Uint256Hex := {
  FromHex : string → option Z;
  Uint256_String : Z → string;
}.

Definition uint256FromString `{Uint256Hex} (s : string) : outcome nullable_err Z :=
  match FromHex s with Some u => Ret u | None => Fail (FromHexError s) end.

Definition NullableUint256_payload `{Uint256Hex} : Payload Z := {|
  zero := 0%Z;
  String_ := Uint256_String;
  stringToPayload := uint256FromString;
|}.

(** ** Properties *)

Section properties.
Context {P} `{PayloadLaws P, JSONLaws}.

Lemma unmarshal_valid (n m : Nullable P) data s w :
  data ≠ EmptyString → w data = Ret s → stringToPayload s = Ret (payload m) → Valid m = true →
  unmarshalNullable n data w = (m, None).
Proof.
  intros Hd Hw Hp Hv. unfold unmarshalNullable. rewrite decide_False, Hw, Hp by done.
  destruct m; simpl in *. by subst.
Qed.
End properties.

(** Marshalling and unmarshalling: a valid value comes back from JSON and from
    CSV, and a null value comes back null from CSV, whatever the receiver held. *)
Theorem Nullable_roundtrip {P} `{PayloadLaws P, JSONLaws} (n m : Nullable P) :
  (Valid m = true →
    (UnmarshalJSON n <$> MarshalJSON (Some m)) = Ret (m, None) ∧
    (UnmarshalCSV n <$> MarshalCSV (Some m)) = Ret (m, None)) ∧
  (Valid m = false →
    (UnmarshalCSV n <$> MarshalCSV (Some m)) = Ret (mkNullable zero false, None)).
Proof.
  unfold MarshalJSON, MarshalCSV, marshalNullable. split; intros Hv; rewrite Hv; simpl.
  - split; cbn; f_equal; unfold UnmarshalJSON, UnmarshalCSV; eapply unmarshal_valid; try done.
    + apply json_nonempty.
    + unfold unmarshalJSONToString. by rewrite json_roundtrip by apply String_ascii.
    + apply stringToPayload_String.
    + apply String_nonempty.
    + apply stringToPayload_String.
  - done.
Qed.

(** A null value does not come back from its JSON form: the string coder turns
    the JSON null into the empty string, so the receiver becomes a valid zero
    address, or, for a number, unmarshalling fails and leaves the receiver alone. *)
Theorem Nullable_null_JSON {P} `{PayloadLaws P, JSONLaws} (n m : Nullable P) :
  Valid m = false →
  ∃ data, MarshalJSON (Some m) = Ret data ∧
    UnmarshalJSON n data = match stringToPayload (P:=P) EmptyString with
      | Ret p => (mkNullable p true, None)
      | Fail e => (n, Some e)
      | Panic => (n, None) end.
Proof.
  intros Hv. unfold MarshalJSON, marshalNullable. rewrite Hv. exists null. split; [done|].
  unfold UnmarshalJSON, unmarshalNullable. rewrite decide_False by done.
  unfold unmarshalJSONToString. by rewrite json_null.
Qed.

(** Errors leave the receiver as it was; without an error the receiver is valid
    exactly when there was data. *)
Theorem unmarshalNullable_atomic {P} `{Payload P} (n n' : Nullable P) data w e :
  unmarshalNullable n data w = (n', e) →
  (∀ d, w d ≠ Panic) → (∀ s, stringToPayload (P:=P) s ≠ Panic) →
  match e with
  | Some _ => n' = n
  | None => Valid n' = bool_decide (data ≠ EmptyString) ∧ (Valid n' = false → payload n' = zero)
  end.
Proof.
  unfold unmarshalNullable. intros Hu Hw Hs. case_decide as Hd.
  - injection Hu as <- <-. rewrite bool_decide_eq_false_2; naive_solver.
  - rewrite bool_decide_eq_true_2 by done. specialize (Hw data).
    destruct (w data) as [s| |]; simplify_eq/=; [|done].
    specialize (Hs s). destruct (stringToPayload s); by simplify_eq/=.
Qed.

(** ** An instance, for the examples *)

#[local] Instance quoted : JSON := {
  json_Marshal s := ("#" +:+ s)%string;
  json_Unmarshal s := if decide (s = null) then Some EmptyString else cut_prefix "#" s;
}.

#[local] Instance quoted_laws : JSONLaws.
Proof.
  by split.
Qed.

#[local] Instance bit_addresses : EthAddress bool := {
  IsHexAddress s := bool_decide (s = "0x1" ∨ s = "0x0")%string;
  HexToAddress s := bool_decide (s = "0x1")%string;
  Hex a := if a then "0x1"%string else "0x0"%string;
}.

#[local] Instance bit_payload : Payload bool := NullableAddress_payload.

#[local] Instance bit_payload_laws : PayloadLaws bool.
Proof. by split; intros []. Qed.

Lemma Nullable_roundtrip_witness :
  UnmarshalJSON (mkNullable false false) <$> MarshalJSON (Some (mkNullable true true))
    = Ret (mkNullable true true, None) ∧
  UnmarshalCSV (mkNullable true true) <$> MarshalCSV (Some (mkNullable true false))
    = Ret (mkNullable false false, None).
Proof.
  split.
  - by apply (proj1 (Nullable_roundtrip (mkNullable false false) (mkNullable true true)) eq_refl).
  - exact (proj2 (Nullable_roundtrip (mkNullable true true) (mkNullable true false)) eq_refl).
Defined.

Lemma Nullable_null_JSON_witness :
  ∃ data, MarshalJSON (Some (mkNullable true false)) = Ret data ∧
    UnmarshalJSON (mkNullable true false) data = (mkNullable false true, None).
Proof. exact (Nullable_null_JSON (mkNullable true false) (mkNullable true false) eq_refl). Defined.

Lemma unmarshalNullable_atomic_witness :
  Valid (mkNullable true true) = bool_decide ("0x1"%string ≠ EmptyString) ∧
  (Valid (mkNullable true true) = false → payload (mkNullable true true) = (zero : bool)).
Proof.
  apply (unmarshalNullable_atomic (mkNullable false false) (mkNullable true true) "0x1"%string echo None);
    [done|by intros d|by intros s].
Defined.
