(* ===== verification/FlagType.v ===== *)
(** * FlagType: the command-line flag types of [go/flagtype]

    A [StringSet] is a [gset string], a [StringToStringSet] a [gmap] of them; Go
    iterates over maps in any order, so printing sorts.  [Set] clears the
    receiver first. *)

From S2P Require Import Prelude GoStrings Eth.
From stdpp Require Import gmap sorting strings.

Definition comma : ascii := ascii_of_nat 44.
Definition semicolon : ascii := ascii_of_nat 59.
Definition equals : ascii := ascii_of_nat 61.

(** ** StringSet *)

Abbreviation StringSet := (gset string).

Definition NewStringSet (vals : list string) : StringSet := list_to_set vals.

Definition StringSet_String (s : StringSet) : string := strings_Join comma (sort_Strings (elements s)).

(** It never fails; the receiver's old elements are deleted. *)
Definition StringSet_Set (s : StringSet) (raw : string) : StringSet :=
  let s := s ∖ s in
  if decide (raw = EmptyString) then s
  else foldl (λ s v, {[v]} ∪ s) s (Split comma raw).

Lemma StringSet_Set_alt s raw : StringSet_Set s raw =
  if decide (raw = EmptyString) then ∅ else list_to_set (Split comma raw).
Proof.
  unfold StringSet_Set. replace (s ∖ s) with (∅ : StringSet) by set_solver. cbv zeta.
  case_decide; [done|].
  assert (∀ l (t : StringSet), foldl (λ s v, {[v]} ∪ s) t l = t ∪ list_to_set l) as ->; [|set_solver].
  induction l as [|v l IH]; intros t; simpl; [set_solver|]. rewrite IH. set_solver.
Qed.

(** The sets that a flag can express. *)
Definition printable (c : ascii) (w : string) : Prop := mentions c w = false.
#[export] Instance printable_dec c w : Decision (printable c w).
Proof. unfold printable. apply _. Defined.
Definition flag_set (s : StringSet) : Prop := set_Forall (printable comma) s ∧ s ≠ {[EmptyString]}.

Lemma Join_empty sep ws : strings_Join sep ws = EmptyString → ws = [] ∨ ws = [EmptyString].
Proof. destruct ws as [|w [|w' ws]]; simpl; [by left|intros ->; by right|]. by destruct w. Qed.

Lemma elements_singleton_perm (s : StringSet) w : sort_Strings (elements s) = [w] → s = {[w]}.
Proof.
  intros E. apply leibniz_equiv. rewrite <-(list_to_set_elements s).
  rewrite <-(sort_Strings_Permutation (elements s)), E. set_solver.
Qed.

Lemma StringSet_Set_String s t : flag_set s → StringSet_Set t (StringSet_String s) = s.
Proof.
  intros [Hc Hne]. rewrite StringSet_Set_alt. unfold StringSet_String.
  pose proof (sort_Strings_Permutation (elements s)) as Hp. case_decide as E.
  - apply Join_empty in E as [E|E]; [|by apply elements_singleton_perm in E].
    rewrite E in Hp. apply Permutation_nil_l in Hp.
    symmetry in Hp. apply elements_empty_inv in Hp. set_solver.
  - rewrite Split_Join; [| |].
    + apply leibniz_equiv. by rewrite Hp, list_to_set_elements.
    + intros E'. by rewrite E' in E.
    + rewrite Hp. apply Forall_forall. intros w Hw. by apply Hc, elem_of_elements.
Qed.

(** ** StringToStringSet *)

Abbreviation StringToStringSet := (gmap string (gset string)).

Definition print_part (kv : string * StringSet) : string :=
  kv.1 +:+ String equals (StringSet_String kv.2).

Definition StringToStringSet_String (s : StringToStringSet) : string :=
  let keys := sort_Strings (elements (dom s)) in
  strings_Join semicolon (map (λ k, print_part (k, default ∅ (s !! k))) keys).

(** [kv[1]] panics when the part has no equals sign. *)
Definition set_part (s : StringToStringSet) (part : string) : outcome Empty_set StringToStringSet :=
  let '(k, v) := Cut equals part in
  v ← or_panic v;
  Ret (<[k := StringSet_Set ∅ v]> s).

Fixpoint set_parts (s : StringToStringSet) (parts : list string) : outcome Empty_set StringToStringSet :=
  match parts with
  | [] => Ret s
  | p :: parts => s ← set_part s p; set_parts s parts
  end.

Definition StringToStringSet_Set (s : StringToStringSet) (raw : string)
    : outcome Empty_set StringToStringSet :=
  let s := ∅ in
  if decide (raw = EmptyString) then Ret s else set_parts s (Split semicolon raw).

(** The maps that a flag can express. *)
Definition flag_map (m : StringToStringSet) : Prop :=
  map_Forall (λ k s, printable equals k ∧ printable semicolon k ∧
    flag_set s ∧ set_Forall (printable semicolon) s) m.

(** ** Addresses *)

Inductive flag_err := notETHAddressErr (raw : string).

Section addresses.
Context {A : Type} `{EthAddress A}.

Definition ETHAddress_Set (raw : string) : outcome flag_err A :=
  if negb (IsHexAddress (A:=A) raw) then Fail (notETHAddressErr raw) else Ret (HexToAddress raw).

(** The addresses parsed before an error stay appended. *)
Fixpoint append_addresses (addrs : list A) (parts : list string) : list A * option flag_err :=
  match parts with
  | [] => (addrs, None)
  | p :: parts =>
      match ETHAddress_Set p with
      | Ret a => append_addresses (addrs ++ [a]) parts
      | Fail e => (addrs, Some e)
      | Panic => (addrs, None)
      end
  end.

Definition ETHAddressSlice_Set (addrs : list A) (raw : string) : list A * option flag_err :=
  if decide (raw = EmptyString) then (addrs, None) else append_addresses addrs (Split comma raw).

Definition ETHAddressSlice_String (addrs : list A) : string := strings_Join comma (map Hex addrs).
End addresses.

Lemma mentions_StringSet c s : c ≠ comma → set_Forall (printable c) s →
  mentions c (StringSet_String s) = false.
Proof.
  intros Hne Hs. unfold StringSet_String. rewrite mentions_Join by done.
  apply not_true_iff_false. rewrite existsb_exists. intros (w & Hw & Hm).
  apply list_elem_of_In in Hw. rewrite sort_Strings_Permutation in Hw.
  apply elem_of_elements, Hs in Hw. unfold printable in Hw. by rewrite Hw in Hm.
Qed.

Lemma set_part_print s k v : printable equals k → flag_set v →
  set_part s (print_part (k, v)) = Ret (<[k := v]> s).
Proof.
  intros Hk Hv. unfold set_part, print_part. simpl fst. simpl snd. rewrite Cut_app by done.
  simpl. by rewrite StringSet_Set_String.
Qed.

Lemma set_parts_print (m : StringToStringSet) keys s : flag_map m → (∀ k, k ∈ keys → k ∈ dom m) →
  set_parts s (map (λ k, print_part (k, default ∅ (m !! k))) keys)
  = Ret (foldl (λ s k, <[k := default ∅ (m !! k)]> s) s keys).
Proof.
  intros Hm. revert s. induction keys as [|k keys IH]; intros s Hk; [done|]. cbn [map set_parts foldl].
  assert (k ∈ dom m) as [v Ev]%elem_of_dom by (apply Hk; left).
  destruct (Hm k v Ev) as (Hk1 & _ & Hv & _). rewrite Ev. simpl.
  rewrite set_part_print by done. cbn [mbind outcome_mbind]. apply IH.
  intros k' Hk'. apply Hk. by right.
Qed.

Lemma foldl_inserts (m : StringToStringSet) keys s :
  (∀ k, k ∈ dom m ↔ k ∈ keys ∨ k ∈ dom s) → (∀ k, k ∈ dom s → s !! k = m !! k) →
  foldl (λ s k, <[k := default ∅ (m !! k)]> s) s keys = m.
Proof.
  revert s. induction keys as [|k keys IH]; intros s Hd Hs; simpl.
  - apply map_eq. intros k. destruct (decide (k ∈ dom s)) as [Hin|Hout]; [by apply Hs|].
    assert (k ∉ dom m) as Hout' by (rewrite Hd; set_solver).
    apply not_elem_of_dom in Hout, Hout'. congruence.
  - assert (k ∈ dom m) as [v Ev]%elem_of_dom by (apply Hd; set_solver).
    apply IH; rewrite Ev; simpl.
    + intros k'. rewrite dom_insert, Hd. set_solver.
    + intros k'. rewrite dom_insert. destruct (decide (k' = k)) as [->|].
      * by rewrite lookup_insert_eq, Ev.
      * intros Hk'. rewrite lookup_insert_ne by done. apply Hs. set_solver.
Qed.

(** Printing a flag value and setting a flag to what was printed are inverse:
    a [StringSet] whose strings have no comma (and that is not the singleton of
    the empty string) and a [StringToStringSet] whose keys and values keep to the
    delimiters are restored whatever the flag held before. *)
Theorem flag_roundtrip (s t : StringSet) (m n : StringToStringSet) :
  flag_set s → flag_map m →
  StringSet_Set t (StringSet_String s) = s ∧
  StringToStringSet_Set n (StringToStringSet_String m) = Ret m.
Proof.
  intros Hs Hm. split; [by apply StringSet_Set_String|].
  unfold StringToStringSet_Set, StringToStringSet_String. cbv zeta.
  set (keys := sort_Strings (elements (dom m))).
  assert (∀ k, k ∈ keys ↔ k ∈ dom m) as Hkeys.
  { intros k. unfold keys. by rewrite sort_Strings_Permutation, elem_of_elements. }
  case_decide as E.
  - apply Join_empty in E as [E|E].
    + apply map_eq_nil in E. f_equal. symmetry. apply map_empty. intros k.
      apply not_elem_of_dom. rewrite <-Hkeys, E. set_solver.
    + destruct keys as [|k [|]]; simpl in E; [done| |done]. injection E as E.
      unfold print_part in E. simpl in E. by destruct k.
  - rewrite Split_Join.
    + rewrite set_parts_print by (done || intros k; apply Hkeys). f_equal.
      apply foldl_inserts; [|set_solver]. intros k. rewrite dom_empty, Hkeys. set_solver.
    + intros E'. by rewrite E' in E.
    + apply Forall_forall. intros w Hw. apply list_elem_of_In, in_map_iff in Hw as (k & <- & Hk).
      apply list_elem_of_In, Hkeys, elem_of_dom in Hk as [v Ev]. rewrite Ev.
      destruct (Hm k v Ev) as (_ & Hk & _ & Hv). unfold print_part. simpl.
      rewrite mentions_app. rewrite Hk. simpl. apply mentions_StringSet; done.
Qed.

Lemma flag_roundtrip_witness :
  let s : StringSet := {["a"; "b"; ""]}%string in
  let m : StringToStringSet := {["foo" := {["a"; "b"]}; "baz" := ∅]}%string in
  StringSet_Set {["x"]}%string (StringSet_String s) = s ∧
  StringToStringSet_Set ∅ (StringToStringSet_String m) = Ret m.
Proof.
  apply flag_roundtrip.
  - split; [apply (bool_decide_unpack _); by vm_compute|]. intros E. apply (f_equal size) in E. by vm_compute in E.
  - intros k v. rewrite lookup_insert_Some, lookup_singleton_Some.
    intros [[<- <-]|[_ [<- <-]]].
    + split_and!; [done|done| |apply (bool_decide_unpack _); by vm_compute].
      split; [apply (bool_decide_unpack _); by vm_compute|]. intros E. apply (f_equal size) in E. by vm_compute in E.
    + split_and!; [done|done| |set_solver]. split; [set_solver|].
      intros E. apply (f_equal size) in E. by vm_compute in E.
Defined.

Lemma Cut_None sep s : (Cut sep s).2 = None ↔ mentions sep s = false.
Proof.
  induction s as [|c s IH]; simpl; [done|]. case_decide as Hc.
  - rewrite bool_decide_eq_true_2 by done. done.
  - rewrite bool_decide_eq_false_2 by done. simpl. rewrite <-IH. by destruct (Cut sep s).
Qed.

(** Setting a [StringToStringSet] panics exactly when the raw value is not
    empty and one of its parts has no equals sign; it returns no error. *)
Theorem StringToStringSet_Set_panics m raw :
  (StringToStringSet_Set m raw = Panic ↔
    raw ≠ EmptyString ∧ ∃ p, p ∈ Split semicolon raw ∧ mentions equals p = false) ∧
  ∀ e, StringToStringSet_Set m raw ≠ Fail e.
Proof.
  split; [|by intros []]. unfold StringToStringSet_Set. cbv zeta.
  case_decide as E; [naive_solver|].
  assert (∀ parts s, set_parts s parts = Panic ↔ ∃ p, p ∈ parts ∧ mentions equals p = false) as ->;
    [|naive_solver].
  induction parts as [|p parts IH]; intros s; cbn [set_parts]; [set_solver|].
  unfold set_part. pose proof (Cut_None equals p) as Hc.
  destruct (Cut equals p) as [k [v|]]; simpl in *.
  - rewrite IH. split; [intros (p' & ? & ?); exists p'; set_solver|].
    intros (p' & [->|Hp]%elem_of_cons & Hm); [|by exists p']. by apply Hc in Hm.
  - split; [|done]. intros _. exists p. split; [left|by apply Hc].
Qed.

Lemma append_addresses_spec {A} `{EthAddress A} (addrs : list A) good bad :
  Forall (λ p, IsHexAddress (A:=A) p = true) good →
  (∀ p, bad = Some p → IsHexAddress (A:=A) p = false) →
  append_addresses addrs (good ++ option_list bad)
  = (addrs ++ map HexToAddress good, notETHAddressErr <$> bad).
Proof.
  intros Hg Hb. revert addrs.
  induction Hg as [|p good Hp _ IH]; intros addrs; simpl.
  - rewrite app_nil_r. destruct bad as [p|]; simpl; [|done].
    unfold ETHAddress_Set. by rewrite (Hb p).
  - unfold ETHAddress_Set. rewrite Hp. simpl. by rewrite IH, <-app_assoc.
Qed.

(** Setting an [ETHAddressSlice] appends to it: all the addresses of the raw
    value, or those before the first part that is not an address, with an error
    that quotes the part.  What is printed for a slice appends that slice. *)
Theorem ETHAddressSlice_Set_spec {A} `{EthAddressLaws A} (addrs bs : list A) good bad :
  Forall (λ p, IsHexAddress (A:=A) p = true) good →
  (∀ p, bad = Some p → IsHexAddress (A:=A) p = false ∧ mentions comma p = false ∧ p ≠ EmptyString) →
  ETHAddressSlice_Set addrs (strings_Join comma (good ++ option_list bad))
    = (addrs ++ map HexToAddress good, notETHAddressErr <$> bad) ∧
  ETHAddressSlice_Set addrs (ETHAddressSlice_String bs) = (addrs ++ bs, None).
Proof.
  assert (∀ good bad, Forall (λ p, IsHexAddress (A:=A) p = true) good →
    (∀ p, bad = Some p → IsHexAddress (A:=A) p = false ∧ mentions comma p = false ∧ p ≠ EmptyString) →
    ETHAddressSlice_Set addrs (strings_Join comma (good ++ option_list bad))
    = (addrs ++ map HexToAddress good, notETHAddressErr <$> bad)) as Hspec.
  { clear good bad. intros good bad Hg Hb. unfold ETHAddressSlice_Set.
    assert (Forall (λ w, mentions comma w = false ∧ w ≠ EmptyString) (good ++ option_list bad)) as Hw.
    { apply Forall_app. split.
      - eapply Forall_impl; [exact Hg|]. intros p Hp. simpl. by apply IsHexAddress_clean in Hp as (? & ? & _).
      - destruct bad as [p|]; [|done]. repeat constructor; by destruct (Hb p eq_refl) as (?&?&?). }
    case_decide as E.
    - apply Join_empty in E as [E|E].
      + apply app_nil in E as [-> E]. destruct bad; [done|]. simpl. by rewrite app_nil_r.
      + rewrite E in Hw. by apply Forall_inv in Hw as [].
    - rewrite Split_Join.
      + apply append_addresses_spec; [done|]. intros p Hp. by apply Hb.
      + intros E'. by rewrite E' in E.
      + eapply Forall_impl; [exact Hw|]. by intros ? []. }
  intros Hg Hb. split; [by apply Hspec|].
  pose proof (Hspec (map Hex bs) None) as Hbs. simpl in Hbs. rewrite app_nil_r, map_map in Hbs.
  unfold ETHAddressSlice_String. rewrite Hbs; [| |done].
  - clear Hbs. do 2 f_equal. induction bs as [|b bs IH]; simpl; [done|]. by rewrite HexToAddress_Hex, IH.
  - apply Forall_forall. intros p (b & <- & _)%list_elem_of_In%in_map_iff. apply Hex_is_address.
Qed.

#[local] Existing Instance two_addresses.
#[local] Existing Instance two_addresses_laws.

Lemma ETHAddressSlice_Set_spec_witness :
  ETHAddressSlice_Set [true] "0xB,0xA,zz"%string = ([true; false; true], Some (notETHAddressErr "zz")) ∧
  ETHAddressSlice_Set [true] (ETHAddressSlice_String [false; true]) = ([true; false; true], None).
Proof.
  refine (ETHAddressSlice_Set_spec [true] [false; true] ["0xB"; "0xA"]%string (Some "zz"%string) _ _).
  - by repeat constructor.
  - by intros p [= <-].
Defined.

(** ** Dates *)

(** A [Date] is midnight UTC of a day; the zero [time.Time] is in year 1. *)
Record Date := mkDate { year : Z; month : Z; day : Z }.

Definition zero_time : Date := mkDate 1 1 1.

Definition isLeap (y : Z) : bool := (y mod 4 =? 0)%Z && (negb (y mod 100 =? 0)%Z || (y mod 400 =? 0)%Z).

Definition daysIn (m y : Z) : Z :=
  if (m =? 2)%Z then if isLeap y then 29 else 28
  else if bool_decide (m ∈ [4; 6; 9; 11]%Z) then 30 else 31.

Definition valid_date (d : Date) : Prop :=
  (0 ≤ year d < 10000 ∧ 1 ≤ month d ≤ 12 ∧ 1 ≤ day d ≤ daysIn (month d) (year d))%Z.
#[export] Instance valid_date_dec d : Decision (valid_date d).
Proof. unfold valid_date. apply _. Defined.

Definition dash : ascii := ascii_of_nat 45.

(** [time.Parse] with the layout of four digits for the year and two for the month and
    the day. *)
Definition time_Parse (raw : string) : option Date :=
  match raw with
  | String y1 (String y2 (String y3 (String y4 (String h1 (String m1 (String m2 (String h2
      (String d1 (String d2 EmptyString))))))))) =>
      if decide (h1 = dash ∧ h2 = dash) then
        y ← parse_digits 0 (String y1 (String y2 (String y3 (String y4 EmptyString))));
        m ← parse_digits 0 (String m1 (String m2 EmptyString));
        d ← parse_digits 0 (String d1 (String d2 EmptyString));
        if decide (valid_date (mkDate y m d)) then Some (mkDate y m d) else None
      else None
  | _ => None
  end.

Definition digit_of (n : Z) : ascii := ascii_of_N (Z.to_N (48 + n mod 10)).

(** [Time.Format], for the years that have four digits. *)
Definition time_Format (d : Date) : string :=
  String (digit_of (year d / 1000)) (String (digit_of (year d / 100)) (String (digit_of (year d / 10))
    (String (digit_of (year d)) (String dash
    (String (digit_of (month d / 10)) (String (digit_of (month d)) (String dash
    (String (digit_of (day d / 10)) (String (digit_of (day d)) EmptyString))))))))).

Definition AsTime (d : option Date) : Date := default zero_time d.

Definition Date_String (d : option Date) : string := time_Format (AsTime d).

(** The receiver is written only when the date parses. *)
Definition Date_Set (d : Date) (raw : string) : Date * bool :=
  match time_Parse raw with Some t => (t, true) | None => (d, false) end.

Lemma digit_value_of n : (0 ≤ n < 10)%Z → digit_value (digit_of n) = Some n.
Proof.
  intros Hn. assert (n ∈ seqZ 0 10) as Hin by (apply elem_of_seqZ; lia). clear Hn. revert n Hin.
  apply Forall_forall. by repeat constructor.
Qed.

Lemma digit_value_mod n : digit_value (digit_of n) = Some (n mod 10)%Z.
Proof.
  rewrite <-(digit_value_of (n mod 10)) by (apply Z.mod_pos_bound; lia). f_equal. unfold digit_of. by rewrite Z.mod_mod.
Qed.

Lemma digit_value_inv c n : digit_value c = Some n → (0 ≤ n < 10)%Z ∧ c = digit_of n.
Proof.
  unfold digit_value. destruct (andb _ _) eqn:E; [|done]. intros [= <-].
  apply andb_true_iff in E as [E1 E2]. split; [lia|]. unfold digit_of.
  rewrite Z.mod_small by lia. rewrite <-(ascii_N_embedding c) at 1. f_equal. lia.
Qed.

Lemma time_Parse_Format t : valid_date t → time_Parse (time_Format t) = Some t.
Proof.
  destruct t as [y m d]. intros Hv. pose proof Hv as (Hy & Hm & Hd). simpl in Hy, Hm, Hd.
  assert (d ≤ 31)%Z as Hd31 by (revert Hd; unfold daysIn; repeat case_match; lia).
  unfold time_Parse, time_Format. cbn [year month day]. rewrite decide_True by done.
  cbn [parse_digits]. rewrite !digit_value_mod. cbn [mbind option_bind parse_digits].
  replace ((((0 * 10 + (y / 1000) mod 10) * 10 + (y / 100) mod 10) * 10 + (y / 10) mod 10) * 10 + y mod 10)%Z
    with y by (Z.to_euclidean_division_equations; lia).
  replace ((0 * 10 + (m / 10) mod 10) * 10 + m mod 10)%Z with m by (Z.to_euclidean_division_equations; lia).
  replace ((0 * 10 + (d / 10) mod 10) * 10 + d mod 10)%Z with d by (Z.to_euclidean_division_equations; lia).
  by rewrite decide_True.
Qed.

Lemma digit_of_eq a b : (a mod 10 = b mod 10)%Z → digit_of a = digit_of b.
Proof. intros E. unfold digit_of. by rewrite E. Qed.

Lemma time_Parse_inv raw t : time_Parse raw = Some t → valid_date t ∧ raw = time_Format t.
Proof.
  unfold time_Parse. do 10 (destruct raw as [|? raw]; [done|]). destruct raw; [|done].
  case_decide as Hh; [destruct Hh as [-> ->]|done]. cbn [parse_digits]. intros Hp.
  repeat match type of Hp with context [digit_value ?c] =>
    destruct (digit_value c) as [?n|] eqn:?; [cbn [mbind option_bind] in Hp|done]
  end.
  case_decide as Hv; [|done]. injection Hp as <-. split; [done|].
  repeat match goal with
  | H : digit_value _ = Some _ |- _ => apply digit_value_inv in H as [? ->]
  end.
  unfold time_Format. cbn [year month day].
  repeat match goal with
  | |- digit_of _ = digit_of _ => apply digit_of_eq
  | |- String _ _ = String _ _ => f_equal
  end; Z.to_euclidean_division_equations; lia.
Qed.

(** A [Date] flag takes exactly the dates that it prints: what it accepts is a day of the
    calendar in its one form, which it prints back, and anything else leaves it as it
    was. *)
Theorem Date_flag (d : Date) raw :
  match Date_Set d raw with
  | (t, true) => valid_date t ∧ Date_String (Some t) = raw
  | (t, false) => t = d ∧ ∀ t', valid_date t' → Date_String (Some t') ≠ raw
  end.
Proof.
  unfold Date_Set. destruct (time_Parse raw) as [t|] eqn:E.
  - apply time_Parse_inv in E as [Hv ->]. done.
  - split; [done|]. intros t' Hv <-. by rewrite (time_Parse_Format t' Hv : time_Parse (Date_String (Some t')) = Some t') in E.
Qed.

Example leap_days :
  (λ raw, (Date_Set zero_time raw).2) <$> ["2024-02-29"; "2023-02-29"; "1900-02-29"; "2000-02-29"; "2024-2-29"]%string
  = [true; false; false; true; false].
Proof. by vm_compute. Qed.

Example Date_nil : Date_String None = "0001-01-01"%string.
Proof. by vm_compute. Qed.
