(* ===== verification/EthProto.v ===== *)
(** * EthProto: Ethereum values and events of [proto/eth]

    [eth.go], [convert.go] and the [Value] message of [eth.proto] with its
    validation rules.  The numbered families of the oneof ([bytes1] to [bytes32]
    and the integer types) are one constructor each, indexed by their size;
    [bytes32], [uint8] and [uint256], which the code treats specially, are members
    of their families.  go-ethereum's byte helpers are a class. *)

From S2P Require Import Prelude GoStrings BigInt.
From stdpp Require Import gmap strings pretty.
Local Open Scope Z_scope.

(** ** The oneof *)

Inductive Payload :=
| Value_Address (Address : option bytes)
| Value_Bool (Bool : bool)
| Value_Bytes (Bytes : bytes)
| Value_String_ (String_ : string)
| Value_Bytes32 (Bytes32 : bytes)
| Value_Uint8 (Uint8 : Z)
| Value_Uint256 (Uint256 : bytes)
| Value_BytesN (n : N) (Bytes : bytes)
| Value_Int64 (w : N) (Int : Z)
| Value_IntN (w : N) (Bytes : bytes)
| Value_Uint64 (w : N) (Uint : Z)
| Value_UintN (w : N) (Bytes : bytes).

Definition Value : Type := option Payload.

(** The members of the families: sizes in bytes, then in bits. *)
Definition field_exists (p : Payload) : bool :=
  match p with
  | Value_BytesN n _ => (1 <=? n)%N && (n <=? 31)%N
  | Value_Int64 w _ => (8 <=? w)%N && (w <=? 64)%N && (w mod 8 =? 0)%N
  | Value_IntN w _ => (72 <=? w)%N && (w <=? 256)%N && (w mod 8 =? 0)%N
  | Value_Uint64 w _ => (16 <=? w)%N && (w <=? 64)%N && (w mod 8 =? 0)%N
  | Value_UintN w _ => (72 <=? w)%N && (w <=? 248)%N && (w mod 8 =? 0)%N
  | _ => true
  end.

(** The rules of [eth.proto], which the generated [Validate] checks. *)
Definition Validate (v : Value) : bool :=
  match v with
  | None => false
  | Some p =>
      match p with
      | Value_Address (Some b) => (length b <=? 20)%nat
      | Value_Address None | Value_Bool _ | Value_Bytes _ | Value_String_ _ => true
      | Value_Bytes32 b => bool_decide (b = []) || (length b =? 32)%nat
      | Value_Uint8 z => z <=? 255
      | Value_Uint256 b => (length b <=? 32)%nat
      | Value_BytesN n b => bool_decide (b = []) || (length b =? N.to_nat n)%nat
      | Value_Int64 w z => (- 2 ^ (Z.of_N w - 1) <=? z) && (z <? 2 ^ (Z.of_N w - 1))
      | Value_IntN w b => bool_decide (b = []) || (length b =? N.to_nat (w / 8))%nat
      | Value_Uint64 w z => z <? 2 ^ Z.of_N w
      | Value_UintN w b => (length b <=? N.to_nat (w / 8))%nat
      end
  end.

(** The name of the field, which is the Solidity type. *)
Definition field_name (p : Payload) : string :=
  match p with
  | Value_Address _ => "address"
  | Value_Bool _ => "bool"
  | Value_Bytes _ => "bytes"
  | Value_String_ _ => "string"
  | Value_Bytes32 _ => "bytes32"
  | Value_Uint8 _ => "uint8"
  | Value_Uint256 _ => "uint256"
  | Value_BytesN n _ => "bytes" +:+ pretty n
  | Value_Int64 w _ | Value_IntN w _ => "int" +:+ pretty w
  | Value_Uint64 w _ | Value_UintN w _ => "uint" +:+ pretty w
  end.

(** ** Go values *)

(** The dynamic types that [interface{}] holds here. *)
Inductive any :=
| AnyNil
| AnyAddress (a : bytes)
| AnyBool (b : bool)
| AnyString (s : string)
| AnyBytes32 (b : bytes)
| AnyBytes (b : bytes)
| AnyUint256 (u : Z)
| AnyBig (z : Z)
| AnyUint8 (u : Z)
| AnyPayload (p : Payload)
| AnyOther.

(** A Go value of its type: arrays have their length, integers their range. *)
Definition any_ok (a : any) : Prop :=
  match a with
  | AnyAddress b => length b = 20%nat
  | AnyBytes32 b => length b = 32%nat
  | AnyUint256 u => 0 ≤ u < 2 ^ 256
  | AnyUint8 u => 0 ≤ u < 256
  | _ => True
  end.

(** [common.BytesToAddress], [common.LeftPadBytes] and [uint256.FromBig]. *)
Class EthCommon := {
  BytesToAddress : bytes → bytes;
  LeftPadBytes : bytes → nat → bytes;
  FromBig : Z → Z * bool;
}.

Class EthCommonLaws `{EthCommon} := {
  BytesToAddress_exact : ∀ b, length b = 20%nat → BytesToAddress b = b;
  BytesToAddress_short : ∀ b, (length b < 20)%nat →
    BytesToAddress b = replicate (20 - length b) 0 ++ b;
  LeftPadBytes_spec : ∀ b n, LeftPadBytes b n = replicate (n - length b) 0 ++ b;
  FromBig_spec : ∀ x, FromBig x = (x mod 2 ^ 256, bool_decide (2 ^ 256 ≤ Z.abs x));
}.

Inductive proto_err :=
| ValidationError
| CannotMap (a : any)
| ErrSetNilPayload
| CannotSet (p : Payload) (a : any)
| WrongPayload (p : Value)
| OverflowsUint256 (b : Z)
| ArgumentErr (name : string) (e : proto_err)
| NewTypeErr (param : string).

(** [copy(c[:], b)] into a fresh array of [n] bytes. *)
Definition copy_into (n : nat) (b : bytes) : bytes :=
  take n b ++ replicate (n - length b) 0.

Section values.
Context `{EthCommon}.

(** A nil [Address] message is dereferenced. *)
Definition MustParseWithoutValidation (v : Value) : outcome proto_err any :=
  match v with
  | None => Ret AnyNil
  | Some p =>
      match p with
      | Value_Address a => a ← or_panic a; Ret (AnyAddress (BytesToAddress a))
      | Value_Bool b => Ret (AnyBool b)
      | Value_String_ s => Ret (AnyString s)
      | Value_Bytes32 b => Ret (AnyBytes32 (copy_into 32 b))
      | Value_Uint256 b =>
          let '(u, overflow) := FromBig (SetBytes b) in
          if overflow then Panic else Ret (AnyUint256 u)
      | p => Ret (AnyPayload p)
      end
  end.

Definition Parse (v : Value) : outcome proto_err any :=
  if negb (Validate v) then Fail ValidationError else MustParseWithoutValidation v.

Definition AsValue (p : any) : outcome proto_err Value :=
  match p with
  | AnyAddress a => Ret (Some (Value_Address (Some a)))
  | AnyBool b => Ret (Some (Value_Bool b))
  | AnyString s => Ret (Some (Value_String_ s))
  | AnyBytes32 b => Ret (Some (Value_Bytes32 b))
  | AnyUint256 u => Ret (Some (Value_Uint256 (big_Bytes u)))
  | AnyUint8 u => Ret (Some (Value_Uint8 u))
  | p => Fail (CannotMap p)
  end.

(** The value afterwards, and the error: the payload may have been replaced when
    validation fails. *)
Definition SetPayload (v : Value) (to : any) : Value * option proto_err :=
  let checked (v : Value) := (v, if Validate v then None else Some ValidationError) in
  match v with
  | None => (v, Some ErrSetNilPayload)
  | Some p =>
      match p, to with
      | Value_Address _, AnyAddress a => (Some (Value_Address (Some a)), None)
      | Value_Address _, AnyBytes b => checked (Some (Value_Address (Some (LeftPadBytes b 20))))
      | Value_Bool _, AnyBool b => (Some (Value_Bool b), None)
      | Value_Bytes _, AnyBytes b => (Some (Value_Bytes b), None)
      | Value_String_ _, AnyString s => (Some (Value_String_ s), None)
      | Value_Uint8 _, AnyUint8 u => (Some (Value_Uint8 u), None)
      | Value_Uint256 _, AnyUint256 u => (Some (Value_Uint256 (big_Bytes u)), None)
      | Value_Uint256 _, AnyBig z => checked (Some (Value_Uint256 (big_Bytes z)))
      | p, to => (v, Some (CannotSet p to))
      end
  end.

(** ** Conversions *)

(** [conv] is tried on payloads of the expected type; [None] is another type. *)
Definition Convert {T} (v : Value) (conv : Payload → option (outcome proto_err T))
    : outcome proto_err T :=
  match v ≫= conv with
  | None => Fail (WrongPayload v)
  | Some r => r
  end.

Definition AsAddress (v : Value) : outcome proto_err bytes :=
  Convert v (λ p, match p with
    | Value_Address a => Some (a ← or_panic a; Ret (copy_into 20 a))
    | _ => None end).

Definition AsBig256 (v : Value) : outcome proto_err Z :=
  Convert v (λ p, match p with Value_Uint256 b => Some (Ret (SetBytes b)) | _ => None end).

Definition AsUint256 (v : Value) : outcome proto_err Z :=
  Convert v (λ p, match p with
    | Value_Uint256 _ => Some (
        b ← AsBig256 v;
        let '(u, overflow) := FromBig b in
        if overflow then Fail (OverflowsUint256 b) else Ret u)
    | _ => None end).

Definition AsUint8 (v : Value) : outcome proto_err Z :=
  Convert v (λ p, match p with Value_Uint8 u => Some (Ret (u8 u)) | _ => None end).
End values.

(** ** Events *)

Record Argument := mkArgument { arg_Name : string; arg_Value : Value; Indexed : bool }.

(** [ArgumentsByName] points to members of [Arguments]: the model keeps indices. *)
Record Event := mkEvent {
  Name : string;
  Arguments : list Argument;
  ArgumentsByName : gmap string nat;
  Emitter : option bytes;
  LogIndex : Z;
}.

Definition NewArgument (name : string) (typ : Payload) (indexed : bool) : Argument :=
  mkArgument name (Some typ) indexed.

(** The map that a loop over the arguments fills: the last of a name stays. *)
Fixpoint index_names (i : nat) (args : list Argument) (m : gmap string nat) : gmap string nat :=
  match args with
  | [] => m
  | a :: args => index_names (S i) args (<[arg_Name a := i]> m)
  end.

Definition NewEvent (name : string) (emitter : bytes) (args : list Argument) : Event :=
  mkEvent name args (index_names 0 args ∅) (Some emitter) 0.

(** [fld.Name()] of a nil field panics. *)
Definition params (ev : Event) : outcome proto_err (list string) :=
  omapM (λ a, or_panic (field_name <$> arg_Value a)) (Arguments ev).

Definition comma : ascii := ascii_of_nat 44.

Definition EVMString (ev : Event) : outcome proto_err string :=
  ps ← params ev; Ret (Name ev +:+ "(" +:+ strings_Join comma ps +:+ ")")%string.

(** [abi.NewType] and [crypto.Keccak256Hash]. *)
Class ABI (T H : Type) := {
  NewType : string → option T;
  Keccak256Hash : string → H;
}.

Definition EVMHash {T H} `{ABI T H} (ev : Event) : outcome proto_err H :=
  s ← EVMString ev; Ret (Keccak256Hash s).

Record abi_argument (T : Type) := mkABIArgument { abi_Name : string; abi_Type : T; abi_Indexed : bool }.
Arguments mkABIArgument {T} abi_Name abi_Type abi_Indexed.
Arguments abi_Name {T}.
Arguments abi_Type {T}.
Arguments abi_Indexed {T}.

Definition ABIArguments {T H} `{ABI T H} (ev : Event) : outcome proto_err (list (abi_argument T)) :=
  ps ← params ev;
  omapM (λ pa : string * Argument,
    match NewType pa.1 with
    | Some t => Ret (mkABIArgument (arg_Name pa.2) t (Indexed pa.2))
    | None => Fail (NewTypeErr pa.1)
    end) (zip ps (Arguments ev)).

Section arguments.
Context `{EthCommon}.

Definition Argument_AsAddress (a : Argument) : outcome proto_err bytes :=
  map_err (ArgumentErr (arg_Name a)) (AsAddress (arg_Value a)).
Definition Argument_AsUint256 (a : Argument) : outcome proto_err Z :=
  map_err (ArgumentErr (arg_Name a)) (AsUint256 (arg_Value a)).
Definition Argument_AsUint8 (a : Argument) : outcome proto_err Z :=
  map_err (ArgumentErr (arg_Name a)) (AsUint8 (arg_Value a)).
End arguments.

(** ** Properties of values *)

Lemma pow_256_32 : 256 ^ Z.of_nat 32 = 2 ^ 256.
Proof. done. Qed.

Lemma copy_into_exact n b : length b = n → copy_into n b = b.
Proof. intros <-. unfold copy_into. by rewrite firstn_all, Nat.sub_diag, app_nil_r. Qed.

Section value_properties.
Context `{EthCommonLaws}.

Lemma FromBig_Bytes z : Z.abs z < 2 ^ 256 → FromBig (SetBytes (big_Bytes z)) = (Z.abs z, false).
Proof.
  intros Hz. destruct (SetBytes_big_Bytes z) as [-> _]. rewrite FromBig_spec.
  by rewrite Z.mod_small, bool_decide_eq_false_2 by lia.
Qed.

Lemma Validate_Uint256 z : Validate (Some (Value_Uint256 (big_Bytes z))) = (Z.abs z <? 2 ^ 256).
Proof.
  cbn [Validate]. apply eq_true_iff_eq.
  rewrite Nat.leb_le, Z.ltb_lt, <-pow_256_32. split.
  - apply big_Bytes_length_inv.
  - apply big_Bytes_length.
Qed.

Lemma Validate_address b n : length b = 20%nat → n = 20%nat → Validate (Some (Value_Address (Some b))) = true.
Proof. intros Hb ->. simpl. rewrite Hb. done. Qed.
End value_properties.

(** [AsValue] maps Go values of the supported types to valid values, and
    [Parse] maps these back to what they came from, except that a uint8 comes
    back as the payload itself; every other type is rejected. *)
Theorem AsValue_Parse `{EthCommonLaws} a : any_ok a →
  match AsValue a with
  | Ret v => Validate v = true ∧
      Parse v = Ret (match a with AnyUint8 u => AnyPayload (Value_Uint8 u) | a => a end)
  | Fail e => e = CannotMap a ∧ match a with
      | AnyAddress _ | AnyBool _ | AnyString _ | AnyBytes32 _ | AnyUint256 _ | AnyUint8 _ => False
      | _ => True end
  | Panic => False
  end.
Proof.
  intros Ha. destruct a as [|b|b|s|b|b|u|z|u|p|]; try done; cbn [AsValue any_ok] in *; unfold Parse.
  - rewrite (Validate_address b 20) by done. simpl. by rewrite BytesToAddress_exact.
  - simpl. rewrite Ha, orb_true_r. simpl. by rewrite copy_into_exact.
  - rewrite Validate_Uint256. rewrite (proj2 (Z.ltb_lt _ _)) by lia. split; [done|].
    simpl. rewrite FromBig_Bytes by lia. simpl. do 2 f_equal. lia.
  - simpl. rewrite (proj2 (Z.leb_le _ _)) by lia. done.
Qed.

(** What an updated value reads as. *)
Definition reads_as `{EthCommon} (v : Value) (to : any) : Prop :=
  match to with
  | AnyAddress a => AsAddress v = Ret a
  | AnyBytes b => v = Some (Value_Bytes b) ∨ AsAddress v = Ret (LeftPadBytes b 20)
  | AnyBool b => v = Some (Value_Bool b)
  | AnyString s => v = Some (Value_String_ s)
  | AnyUint8 u => AsUint8 v = Ret u
  | AnyUint256 u => AsUint256 v = Ret u
  | AnyBig z => AsUint256 v = Ret z
  | _ => False
  end.

(** A [*big.Int] has a sign, which its bytes have not. *)
Definition negative (to : any) : Prop := match to with AnyBig z => z < 0 | _ => False end.

(** C33. [SetPayload] keeps the type of the value; when it reports no error the
    value is valid, and it reads as what was set exactly if that is not a negative big
    integer: one of those is accepted and reads as its absolute value.  When it fails without
    checking the result, the value is as before. *)
Theorem SetPayload_spec `{EthCommonLaws} v to v' e : any_ok to → SetPayload v to = (v', e) →
  (field_name <$> v') = (field_name <$> v) ∧
  match e with
  | None => Validate v' = true ∧ (reads_as v' to ↔ ¬ negative to) ∧ ∀ z, to = AnyBig z → AsUint256 v' = Ret (Z.abs z)
  | Some ValidationError => Validate v' = false
  | Some _ => v' = v
  end.
Proof.
  intros Hto Hs. unfold SetPayload in Hs.
  assert (∀ w, Validate w = true → ¬ negative to → (∀ z, to ≠ AnyBig z) → reads_as w to →
    Validate w = true ∧ (reads_as w to ↔ ¬ negative to) ∧ ∀ z, to = AnyBig z → AsUint256 w = Ret (Z.abs z)) as Hplain.
  { intros w Hw Hn Hz Hr. split_and!; [done|tauto|]. intros z E. by destruct (Hz z). }
  destruct v as [p|]; [|by injection Hs as <- <-].
  destruct p, to as [|a'|b'|s'|b'|b'|u'|z'|u'|p'|];
    try (injection Hs as <- <-; done); cbn [any_ok] in Hto; injection Hs as <- <-;
    (split; [done|]).
  - apply Hplain; [by apply (Validate_address a' 20)|by intros ?|done|].
    unfold reads_as, AsAddress, Convert. simpl. by rewrite copy_into_exact.
  - change (length (LeftPadBytes b' 20) <=? 20)%nat with (Validate (Some (Value_Address (Some (LeftPadBytes b' 20))))).
    destruct (Validate _) eqn:E; [|done]. split; [done|]. apply (Hplain _ E); [by intros ?|done|]. right. cbn [Validate] in E.
    unfold AsAddress, Convert. simpl. rewrite copy_into_exact; [done|].
    apply Nat.leb_le in E.
    rewrite LeftPadBytes_spec, length_app, length_replicate in *. lia.
  - by apply Hplain; [|intros ?| |].
  - apply Hplain; [done|by intros ?|done|by left].
  - by apply Hplain; [|intros ?| |].
  - apply Hplain; [simpl; apply Z.leb_le; lia|by intros ?|done|]. unfold reads_as, AsUint8, Convert. simpl. f_equal.
    apply uwrap_small. simpl. lia.
  - apply Hplain; [by rewrite Validate_Uint256, (proj2 (Z.ltb_lt _ _)) by lia|by intros ?|done|].
    unfold reads_as, AsUint256, Convert. simpl. rewrite FromBig_Bytes by lia. simpl. f_equal. lia.
  - change (length (big_Bytes z') <=? 32)%nat with (Validate (Some (Value_Uint256 (big_Bytes z')))).
    rewrite Validate_Uint256. destruct (Z.ltb_spec (Z.abs z') (2 ^ 256)); [|done].
    assert (AsUint256 (Some (Value_Uint256 (big_Bytes z'))) = Ret (Z.abs z')) as Er
      by (unfold AsUint256, Convert; simpl; by rewrite FromBig_Bytes by lia).
    split_and!; [done| |by intros z [= ->]]. unfold reads_as, negative. rewrite Er. split; [intros [= E]; lia|].
    intros Hz. f_equal. lia.
Qed.

(** The two ways to read an address agree on 20 bytes only: a shorter slice,
    which validation accepts, is padded on the left by [Parse] and on the right by
    [AsAddress]. *)
Theorem AsAddress_vs_Parse `{EthCommonLaws} b :
  Validate (Some (Value_Address (Some b))) = true →
  let pad := replicate (20 - length b) 0 in
  AsAddress (Some (Value_Address (Some b))) = Ret (b ++ pad) ∧
  Parse (Some (Value_Address (Some b))) = Ret (AnyAddress (pad ++ b)).
Proof.
  intros Hv pad. unfold Parse. rewrite Hv. cbn [Validate] in Hv. apply Nat.leb_le in Hv.
  unfold AsAddress, Convert. simpl. unfold copy_into. rewrite take_ge by lia. split; [done|].
  do 2 f_equal. destruct (decide (length b = 20%nat)) as [E|E].
  - unfold pad. by rewrite BytesToAddress_exact, E by done.
  - by rewrite BytesToAddress_short by lia.
Qed.

(** Conversions of arguments succeed on the right type only; an oversized uint8,
    which only an unvalidated value holds, is truncated. *)
Theorem As_total `{EthCommonLaws} (a : Argument) :
  Argument_AsUint8 a = match arg_Value a with
    | Some (Value_Uint8 u) => Ret (u8 u)
    | v => Fail (ArgumentErr (arg_Name a) (WrongPayload v)) end ∧
  (∀ b, Forall is_byte b → arg_Value a = Some (Value_Uint256 b) →
    Argument_AsUint256 a = if decide (SetBytes b < 2 ^ 256) then Ret (SetBytes b)
      else Fail (ArgumentErr (arg_Name a) (OverflowsUint256 (SetBytes b)))) ∧
  ((∀ b, arg_Value a ≠ Some (Value_Uint256 b)) →
    Argument_AsUint256 a = Fail (ArgumentErr (arg_Name a) (WrongPayload (arg_Value a)))).
Proof.
  destruct a as [name v i]. unfold Argument_AsUint8, Argument_AsUint256, AsUint8, AsUint256, AsBig256, Convert.
  simpl. split; [by destruct v as [[]|]|]. split.
  - intros b Hb ->. simpl. pose proof (SetBytes_range b Hb). rewrite FromBig_spec.
    case_decide as Hd.
    + by rewrite Z.mod_small, bool_decide_eq_false_2 by lia.
    + by rewrite bool_decide_eq_true_2 by lia.
  - intros Hne. destruct v as [[]|]; try done. by destruct (Hne Uint256).
Qed.

(** ** Properties of signatures *)

Definition paren : ascii := ascii_of_nat 40.

Lemma digit_not c : c = comma ∨ c = paren → ∀ d, (d < 10)%N → pretty_N_char d ≠ c.
Proof. intros [-> | ->] d _; unfold pretty_N_char; repeat case_match; done. Qed.

Lemma field_name_clean p : mentions comma (field_name p) = false ∧ field_name p ≠ EmptyString.
Proof.
  assert (∀ n : N, mentions comma (pretty n) = false) as Hp.
  { intros n. apply mentions_pretty; [apply digit_not; by left|done]. }
  split; [|by destruct p]. destruct p; try done; unfold field_name; rewrite mentions_app, Hp; done.
Qed.

Lemma append_char_inj c s t : s +:+ String c EmptyString = t +:+ String c EmptyString → s = t.
Proof.
  revert t. induction s as [|a s IH]; intros [|b t] E; simpl in E; [done| | |].
  - injection E as <- E. by destruct t.
  - injection E as -> E. by destruct s.
  - injection E as <- E. by rewrite (IH t).
Qed.

Lemma params_names ev ps : params ev = Ret ps →
  Forall (λ p, mentions comma p = false ∧ p ≠ EmptyString) ps ∧
  (λ a, field_name <$> arg_Value a) <$> Arguments ev = Some <$> ps.
Proof.
  unfold params. rewrite omapM_Ret. intros Hps.
  induction Hps as [|a p args ps Ha _ [IH1 IH2]]; [done|].
  destruct (arg_Value a) as [v|] eqn:Ev; [|done]. injection Ha as <-. split.
  - constructor; [apply field_name_clean|done].
  - cbn. rewrite Ev. simpl. f_equal. exact IH2.
Qed.

Lemma strings_Join_inj ps qs :
  Forall (λ p, mentions comma p = false ∧ p ≠ EmptyString) ps →
  Forall (λ p, mentions comma p = false ∧ p ≠ EmptyString) qs →
  strings_Join comma ps = strings_Join comma qs → ps = qs.
Proof.
  assert (∀ ps, Forall (λ p, mentions comma p = false ∧ p ≠ EmptyString) ps → ps ≠ [] →
    strings_Join comma ps ≠ EmptyString ∧ Split comma (strings_Join comma ps) = ps) as Hj.
  { intros [|p [|p' rs]] Hf Hne; [done| |].
    - apply Forall_inv in Hf as [? ?]. split; [done|]. apply Split_Join; [done|by repeat constructor].
    - split; [by destruct p|]. apply Split_Join; [done|]. eapply Forall_impl; [done|]. by intros ? []. }
  intros Hp Hq E. destruct (decide (ps = [])) as [->|Hps], (decide (qs = [])) as [->|Hqs]; [done| | |].
  - by destruct (Hj qs Hq Hqs).
  - by destruct (Hj ps Hp Hps).
  - destruct (Hj ps Hp Hps) as [_ <-], (Hj qs Hq Hqs) as [_ <-]. by rewrite E.
Qed.

(** The EVM string of an event identifies its signature: two events whose names
    have no parenthesis and that print alike have the same name and argument
    types, in the same order. *)
Theorem EVMString_inj ev ev' s :
  mentions paren (Name ev) = false → mentions paren (Name ev') = false →
  EVMString ev = Ret s → EVMString ev' = Ret s →
  Name ev = Name ev' ∧
  (λ a, field_name <$> arg_Value a) <$> Arguments ev
  = (λ a, field_name <$> arg_Value a) <$> Arguments ev'.
Proof.
  unfold EVMString. intros Hn Hn' H1 H2.
  destruct (params ev) as [ps| |] eqn:Hp; [|done|done].
  destruct (params ev') as [qs| |] eqn:Hq; [|done|done]. simpl in H1, H2.
  apply params_names in Hp as [Hps ->]. apply params_names in Hq as [Hqs ->].
  injection H1 as H1. injection H2 as H2. rewrite <-H2 in H1. clear H2.
  change (Name ev +:+ String paren (strings_Join comma ps +:+ ")")
    = Name ev' +:+ String paren (strings_Join comma qs +:+ ")"))%string in H1.
  apply (f_equal (Cut paren)) in H1. rewrite !Cut_app in H1 by done. injection H1 as -> E.
  apply append_char_inj, strings_Join_inj in E as ->; done.
Qed.

Lemma index_names_spec i args m k j : index_names i args m !! k = Some j ↔
  (∃ n a, args !! n = Some a ∧ arg_Name a = k ∧ j = i + n ∧
    ∀ n' a', args !! n' = Some a' → arg_Name a' = k → n' ≤ n)%nat ∨
  m !! k = Some j ∧ ∀ a, a ∈ args → arg_Name a ≠ k.
Proof.
  revert i m. induction args as [|a args IH]; intros i m; simpl.
  { split; [intros ?; right; set_solver|]. intros [(n & a & ? & _)|[? _]]; done. }
  rewrite IH. split.
  - intros [(n & b & Hn & Hb & -> & Hlast)|[Hm Hno]].
    + left. exists (S n), b. split; [done|]. split; [done|]. split; [lia|].
      intros [|n'] a' Hn' Ha'; [lia|]. simpl in Hn'. specialize (Hlast n' a' Hn' Ha'). lia.
    + destruct (decide (arg_Name a = k)) as [<-|Hk].
      * rewrite lookup_insert_eq in Hm. injection Hm as <-. left. exists 0%nat, a.
        split; [done|]. split; [done|]. split; [lia|]. intros [|n'] a' Hn' Ha'; [lia|].
        simpl in Hn'. destruct (Hno a'); [|done]. by eapply list_elem_of_lookup_2.
      * rewrite lookup_insert_ne in Hm by done. right. split; [done|].
        intros b [->|Hb]%elem_of_cons; [done|by apply Hno].
  - intros [(n & b & Hn & Hb & -> & Hlast)|[Hm Hno]].
    + destruct n as [|n]; simpl in Hn.
      * injection Hn as ->. right. split; [by rewrite Hb, lookup_insert_eq, Nat.add_0_r|].
        intros c Hc Hck. apply list_elem_of_lookup_1 in Hc as [n' Hn'].
        specialize (Hlast (S n') c Hn' Hck). lia.
      * left. exists n, b. split; [done|]. split; [done|]. split; [lia|].
        intros n' a' Hn' Ha'. specialize (Hlast (S n') a' Hn' Ha'). lia.
    + right. rewrite lookup_insert_ne by (apply Hno; left). split; [done|].
      intros b Hb. apply Hno. by right.
Qed.

(** [ArgumentsByName] of a new event holds, for exactly the names that occur,
    the last argument of that name. *)
Theorem NewEvent_ArgumentsByName name emitter args k j :
  ArgumentsByName (NewEvent name emitter args) !! k = Some j ↔
  (∃ a, args !! j = Some a ∧ arg_Name a = k) ∧
  ∀ j' a', args !! j' = Some a' → arg_Name a' = k → (j' ≤ j)%nat.
Proof.
  simpl. rewrite index_names_spec, lookup_empty. split.
  - intros [(n & a & Hn & Ha & -> & Hlast)|[? _]]; [|done]. split; [by exists a|done].
  - intros [(a & Hj & Ha) Hlast]. left. by exists j, a.
Qed.

(** ** Examples *)

#[local] Instance common : EthCommon := {
  BytesToAddress b := replicate (20 - length b) 0 ++ drop (length b - 20) b;
  LeftPadBytes b n := replicate (n - length b) 0 ++ b;
  FromBig x := (x mod 2 ^ 256, bool_decide (2 ^ 256 ≤ Z.abs x));
}.

#[local] Instance common_laws : EthCommonLaws.
Proof.
  split; try done.
  - intros b Hb. simpl. by rewrite Hb.
  - intros b Hb. simpl. by replace (length b - 20)%nat with 0%nat by lia.
Qed.

Lemma AsValue_Parse_witness :
  match AsValue (AnyUint256 (2 ^ 200 + 7)) with
  | Ret v => Validate v = true ∧ Parse v = Ret (AnyUint256 (2 ^ 200 + 7))
  | _ => False
  end.
Proof. refine (AsValue_Parse (AnyUint256 (2 ^ 200 + 7)) _). simpl. lia. Defined.

Lemma SetPayload_spec_witness :
  let v := Some (Value_Uint256 [5]) in
  SetPayload (Some (Value_Uint256 [])) (AnyBig (-5)) = (v, None) ∧ ¬ reads_as v (AnyBig (-5)) ∧
  SetPayload (Some (Value_Uint256 [])) (AnyBig 5) = (v, None) ∧ reads_as v (AnyBig 5).
Proof.
  destruct (SetPayload_spec (Some (Value_Uint256 [])) (AnyBig (-5)) (Some (Value_Uint256 [5])) None I eq_refl) as (_ & _ & Hn & _).
  destruct (SetPayload_spec (Some (Value_Uint256 [])) (AnyBig 5) (Some (Value_Uint256 [5])) None I eq_refl) as (_ & _ & Hp & _).
  split; [done|]. split; [intros Hr; by apply Hn in Hr|]. split; [done|]. by apply Hp.
Defined.

Lemma AsAddress_vs_Parse_witness :
  AsAddress (Some (Value_Address (Some [171]))) = Ret ([171] ++ replicate 19 0) ∧
  Parse (Some (Value_Address (Some [171]))) = Ret (AnyAddress (replicate 19 0 ++ [171])).
Proof. exact (AsAddress_vs_Parse [171] eq_refl). Defined.

Definition Transfer_example : Event :=
  NewEvent "Transfer" (replicate 20 7)
    [NewArgument "from" (Value_Address None) true; NewArgument "to" (Value_Address None) true;
     NewArgument "tokenId" (Value_Uint256 []) true].

Example Transfer_EVMString : EVMString Transfer_example = Ret "Transfer(address,address,uint256)"%string.
Proof. done. Qed.

Lemma EVMString_inj_witness :
  Name Transfer_example = "Transfer"%string ∧
  (λ a, field_name <$> arg_Value a) <$> Arguments Transfer_example
  = [Some "address"; Some "address"; Some "uint256"]%string.
Proof.
  exact (EVMString_inj Transfer_example
    (NewEvent "Transfer" [] [NewArgument "" (Value_Address None) false;
      NewArgument "" (Value_Address None) false; NewArgument "" (Value_Uint256 [1]) false])
    "Transfer(address,address,uint256)"%string eq_refl eq_refl eq_refl eq_refl).
Defined.
