(* ===== verification/Firehose.v ===== *)
(** * Firehose: the Ethereum event service of [go/firehose]

    [ethservice.go] (extraction of events from blocks, the request loop, the
    in-process client) and the block stream of [firehose.go].  go-ethereum's ABI
    decoder and hashes are classes.  A channel that one goroutine fills and another
    drains is the sequence of what passes through it, which [Pipeline] justifies. *)

From S2P Require Import Prelude GoStrings BigInt EthProto.
From stdpp Require Import gmap strings pretty.
Local Open Scope Z_scope.

(** ** Blocks as Firehose delivers them *)

Record Log := mkLog { Address : bytes; Topics : list bytes; Data : bytes; Index : Z }.
(** A receipt and a header are pointers that the code follows. *)
Record TransactionTrace := mkTrace { trace_Hash : bytes; Receipt : option (list Log) }.
Record SFBlock := mkSFBlock {
  sf_Number : Z; Header : option Z; sf_Hash : bytes; TransactionTraces : list TransactionTrace
}.

(** ** Blocks as Hydrant returns them *)

Record Transaction := mkTransaction { tx_Hash : bytes; tx_Logs : list Event }.
Record Block := mkBlock {
  Number : Z; TimeStamp : Z; block_Hash : bytes; Transactions : list Transaction
}.

Inductive hose_err :=
| ProtoError (e : proto_err)
| DuplicateArgument (n : string)
| TopicCount (n m : Z)
| ABIError
| UnknownArgument (name : string)
| SettingTopic (e : hose_err)
| SettingData (i : nat) (e : hose_err)
| TxLogError (tx : bytes) (log : Z) (e : hose_err)
| AlreadySigned
| InvalidRequest
| InvalidSignature (e : hose_err)
| BlocksError
| StreamRecv
| UnmarshalError
| WrongBlockType
| Canceled
| SendError
| EOF.

(** The gRPC status code of an error; an error without one is unknown. *)
Inductive code := OK | Unknown | InvalidArgument | Internal.

Fixpoint status_code (e : hose_err) : code :=
  match e with
  | UnknownArgument _ => Internal
  | SettingTopic e | SettingData _ e => status_code e
  | AlreadySigned | InvalidRequest | InvalidSignature _ => InvalidArgument
  | _ => Unknown
  end.

(** What the extractor uses of go-ethereum beyond [ABI]. *)
Class Decoder (T H : Type) := {
  BytesToHash : bytes → H;
  NonIndexed : list (abi_argument T) → list (abi_argument T);
  ParseTopicsIntoMap : list (abi_argument T) → list H → option (gmap string any);
  Unpack : list (abi_argument T) → bytes → option (list any);
}.

Class DecoderLaws (T H : Type) `{Decoder T H} := {
  NonIndexed_spec : ∀ args, NonIndexed args = filter (λ a, abi_Indexed a = false) args;
  ParseTopics_names : ∀ args topics m, ParseTopicsIntoMap args topics = Some m →
    ∀ n, is_Some (m !! n) ↔ n ∈ (abi_Name <$> args);
  Unpack_length : ∀ args data vals, Unpack args data = Some vals →
    length vals = length (NonIndexed args);
}.

Section extractor.
Context {T H : Type} `{Countable H, ABI T H, Decoder T H, EthCommon}.

(** ** Extractors *)

Record ethEventExtractor := mkExtractor {
  sig : Event;
  hash : H;
  args : list (abi_argument T);
  indexed : list (abi_argument T);
  nonIndexed : list (abi_argument T);
  argIndexByName : gmap string nat;
}.

Definition unnamed (i : nat) : string := ":unnamed_arg:[" +:+ pretty i +:+ "]".

Fixpoint index_arguments (i : nat) (l : list (abi_argument T)) (byName : gmap string nat)
    : outcome hose_err (gmap string nat) :=
  match l with
  | [] => Ret byName
  | a :: l =>
      let n := if decide (abi_Name a = EmptyString) then unnamed i else abi_Name a in
      match byName !! n with
      | Some _ => Fail (DuplicateArgument n)
      | None => index_arguments (S i) l (<[n := i]> byName)
      end
  end.

Definition newEthEventExtractor (sig : Event) : outcome hose_err ethEventExtractor :=
  args ← map_err ProtoError (ABIArguments sig);
  byName ← index_arguments 0 args ∅;
  h ← map_err ProtoError (EVMHash sig);
  Ret (mkExtractor sig h args (filter (λ a, abi_Indexed a = true) args) (NonIndexed args) byName).

Definition with_argument (ev : Event) (i : nat) (a : Argument) : Event :=
  mkEvent (Name ev) (<[i := a]> (Arguments ev)) (ArgumentsByName ev) (Emitter ev) (LogIndex ev).

(** The event is dropped by the callers when this fails. *)
Definition setArgument (e : ethEventExtractor) (ev : Event) (name : string) (val : any)
    : outcome hose_err Event :=
  match argIndexByName e !! name with
  | None => Fail (UnknownArgument name)
  | Some idx =>
      a ← or_panic (Arguments ev !! idx);
      let '(v, err) := SetPayload (arg_Value a) val in
      match err with
      | Some err => Fail (ProtoError err)
      | None => Ret (with_argument ev idx (mkArgument (arg_Name a) v (Indexed a)))
      end
  end.

Fixpoint set_topics (e : ethEventExtractor) (ev : Event) (parsed : list (string * any))
    : outcome hose_err Event :=
  match parsed with
  | [] => Ret ev
  | (name, val) :: parsed =>
      ev ← map_err SettingTopic (setArgument e ev name val); set_topics e ev parsed
  end.

Fixpoint set_data (e : ethEventExtractor) (ev : Event) (i : nat) (data : list any)
    : outcome hose_err Event :=
  match data with
  | [] => Ret ev
  | val :: data =>
      a ← or_panic (nonIndexed e !! i);
      ev ← map_err (SettingData i) (setArgument e ev (abi_Name a) val);
      set_data e ev (S i) data
  end.

(** [range_map] is the order in which Go ranges over the map of parsed topics. *)
Definition asEvent (range_map : gmap string any → list (string * any))
    (e : ethEventExtractor) (log : Log) : outcome hose_err Event :=
  let n := Z.of_nat (length (Topics log)) in
  let m := Z.of_nat (length (indexed e)) in
  if negb (n =? m + 1) then Fail (TopicCount n m)
  else
    let event := mkEvent (Name (sig e)) (Arguments (sig e)) (ArgumentsByName (sig e))
                   (Some (Address log)) (Index log) in
    match ParseTopicsIntoMap (indexed e) (BytesToHash <$> tail (Topics log)) with
    | None => Fail ABIError
    | Some parsed =>
        event ← set_topics e event (range_map parsed);
        match Unpack (args e) (Data log) with
        | None => Fail ABIError
        | Some data =>
            event ← set_data e event 0 data;
            Ret (mkEvent (Name event) (Arguments event) (index_names 0 (Arguments event) ∅)
                   (Emitter event) (LogIndex event))
        end
    end.

(** ** Blocks *)

Definition addressSet : Type := gset bytes.
Definition ethEventExtractors : Type := gmap H ethEventExtractor.

(** A slice of another length ends the process ([glog.Fatalf]). *)
Definition contains (s : gset bytes) (b : bytes) : outcome hose_err bool :=
  if negb (length b =? 20)%nat then Panic else Ret (bool_decide (b ∈ s)).

Section blocks.
Context (range_map : gmap string any → list (string * any)).

Fixpoint extract_logs (exs : gmap H ethEventExtractor) (contracts : gset bytes) (tx : bytes)
    (logs : list Log) : outcome hose_err (list Event) :=
  match logs with
  | [] => Ret []
  | log :: logs =>
      inside ← contains contracts (Address log);
      match (inside : bool), Topics log with
      | true, topic :: _ =>
          match exs !! BytesToHash topic with
          | Some x =>
              ev ← map_err (TxLogError tx (Index log)) (asEvent range_map x log);
              evs ← extract_logs exs contracts tx logs;
              Ret (ev :: evs)
          | None => extract_logs exs contracts tx logs
          end
      | _, _ => extract_logs exs contracts tx logs
      end
  end.

Fixpoint extract_txs (exs : gmap H ethEventExtractor) (contracts : gset bytes)
    (txs : list TransactionTrace) : outcome hose_err (list Transaction) :=
  match txs with
  | [] => Ret []
  | tx :: txs =>
      logs ← or_panic (Receipt tx);
      events ← extract_logs exs contracts (trace_Hash tx) logs;
      rest ← extract_txs exs contracts txs;
      Ret (match events with [] => rest | _ => mkTransaction (trace_Hash tx) events :: rest end)
  end.

Definition extract (exs : gmap H ethEventExtractor) (b : SFBlock) (contracts : gset bytes)
    : outcome hose_err Block :=
  timestamp ← or_panic (Header b);
  txs ← extract_txs exs contracts (TransactionTraces b);
  Ret (mkBlock (sf_Number b) timestamp (sf_Hash b) txs).

(** ** Requests *)

(** [Contracts] are the bytes of the addresses; [Valid] is the outcome of the
    generated [Validate]. *)
Record EventsRequest := mkEventsRequest {
  Signatures : list Event; Contracts : list bytes;
  StartBlockNum : Z; StopBlockNum : Z; req_Cursor : string; req_Valid : bool
}.

(** The request to Firehose, with the one log filter of its transform. *)
Record Request := mkRequest {
  StartBlock : Z; StopBlock : Z; filter_Signatures : list H; filter_Addresses : list bytes;
  hose_Cursor : string
}.

Record BlockResponse := mkBlockResponse {
  resp_Block : Block; Cursor : string; FirehoseBlock : SFBlock; FirehoseStep : Z
}.

(** What the request loop meets: a block of the stream or the end of the context. *)
Inductive stream_input := Received (b : SFBlock) (cursor : string) (step : Z) | CtxDone.

(** The extractors by hash, and the hashes in the order of the request. *)
Fixpoint make_extractors (sigs : list Event) (exs : gmap H ethEventExtractor)
    : outcome hose_err (gmap H ethEventExtractor * list H) :=
  match sigs with
  | [] => Ret (exs, [])
  | sig :: sigs =>
      x ← map_err InvalidSignature (newEthEventExtractor sig);
      '(exs, hs) ← make_extractors sigs (<[hash x := x]> exs);
      Ret (exs, hash x :: hs)
  end.

(** The loop over [blocks.C], which is closed after the inputs with [end_err].
    [send] says whether each response is taken.  Result: the responses that were
    sent, and the error returned. *)
Fixpoint events_loop (exs : gmap H ethEventExtractor) (contracts : gset bytes)
    (inputs : list stream_input) (end_err : option hose_err)
    (send : BlockResponse → option hose_err) : list BlockResponse * outcome hose_err unit :=
  match inputs with
  | [] => ([], match end_err with None => Ret tt | Some e => Fail e end)
  | CtxDone :: _ => ([], Fail Canceled)
  | Received b cursor step :: inputs =>
      match extract exs b contracts with
      | Ret block =>
          let out := mkBlockResponse block cursor b step in
          match send out with
          | Some err => ([], Fail err)
          | None => let '(outs, r) := events_loop exs contracts inputs end_err send in (out :: outs, r)
          end
      | Fail e => ([], Fail e)
      | Panic => ([], Panic)
      end
  end.

(** [Blocks]: what [proxy.Blocks] yields for a request, if it can be opened. *)
Definition events (req : EventsRequest)
    (Blocks : Request → option (list stream_input * option hose_err))
    (send : BlockResponse → option hose_err) : list BlockResponse * outcome hose_err unit :=
  if negb (req_Valid req) then ([], Fail InvalidRequest)
  else match make_extractors (Signatures req) ∅ with
       | Fail e => ([], Fail e)
       | Panic => ([], Panic)
       | Ret (exs, sigs) =>
           let contracts := list_to_set (BytesToAddress <$> Contracts req) in
           match Blocks (mkRequest (StartBlockNum req) (StopBlockNum req) sigs (Contracts req)
                           (req_Cursor req)) with
           | None => ([], Fail BlocksError)
           | Some (inputs, end_err) => events_loop exs contracts inputs end_err send
           end
       end.
End blocks.
End extractor.

(** ** ERC721 transfers *)

(** [&ethpb.Value_Address{}] has no message, [&ethpb.Value_Uint256{}] no bytes. *)
Definition ERC721TransferEvent : Event :=
  mkEvent "Transfer"
    [NewArgument "from" (Value_Address None) true;
     NewArgument "to" (Value_Address None) true;
     NewArgument "tokenId" (Value_Uint256 []) true] ∅ None 0.

Definition withERC721TransferSig (req : EventsRequest) : outcome hose_err EventsRequest :=
  if negb (length (Signatures req) =? 0)%nat then Fail AlreadySigned
  else Ret (mkEventsRequest [ERC721TransferEvent] (Contracts req) (StartBlockNum req)
              (StopBlockNum req) (req_Cursor req) (req_Valid req)).

(** ** The in-process client *)

(** What the goroutine of [newETHAdaptor] puts on the channel, and the error it
    sets before closing it. *)
Record ethAdaptor := mkAdaptor { blocks : list BlockResponse; err : hose_err }.

Definition newETHAdaptor (run : list BlockResponse * outcome hose_err unit) : option ethAdaptor :=
  match run.2 with
  | Ret _ => Some (mkAdaptor run.1 EOF)
  | Fail e => Some (mkAdaptor run.1 e)
  | Panic => None
  end.

Definition Recv (a : ethAdaptor) : outcome hose_err BlockResponse * ethAdaptor :=
  match blocks a with
  | [] => (Fail (err a), a)
  | b :: bs => (Ret b, mkAdaptor bs (err a))
  end.

(** ** The block stream *)

(** What the gRPC stream yields: a block, a block of another chain, an
    undecodable one, or a failure. *)
Inductive stream_recv (B : Type) := RecvBlock (b : B) | RecvOther | RecvGarbage | RecvErr.
Arguments RecvBlock {B} b.
Arguments RecvOther {B}.
Arguments RecvGarbage {B}.
Arguments RecvErr {B}.

(** Which case of the [select] fires when a block is ready. *)
Inductive select := Deliver | Quit | Done.

(** The goroutine of [Proxy.Blocks]: the blocks sent on [C] and the error stored
    before [C] is closed.  The stream ends after its items ([io.EOF]); the choices
    decide the selects, [Deliver] when they run out. *)
Fixpoint Blocks {B} (stream : list (stream_recv B)) (choices : list select)
    : list B * option hose_err :=
  match stream with
  | [] => ([], None)
  | RecvErr :: _ => ([], Some StreamRecv)
  | RecvGarbage :: _ => ([], Some UnmarshalError)
  | RecvOther :: _ => ([], Some WrongBlockType)
  | RecvBlock b :: stream =>
      match choices with
      | Quit :: _ => ([], None)
      | Done :: _ => ([], Some Canceled)
      | _ => let '(bs, e) := Blocks stream (tail choices) in (b :: bs, e)
      end
  end.

(** ** Which logs become events *)

Section extraction.
Context {T H : Type} `{Countable H, ABI T H, Decoder T H, EthCommon}.
Context (range_map : gmap string any → list (string * any)).
Context (exs : gmap H (ethEventExtractor (T:=T) (H:=H))) (contracts : gset bytes).

(** The extractor of a log that an observed contract emitted. *)
Definition relevant (log : Log) : option (ethEventExtractor (T:=T) (H:=H)) :=
  if decide (Address log ∈ contracts) then
    match Topics log with [] => None | topic :: _ => exs !! BytesToHash topic end
  else None.

Definition event_of (log : Log) : option Event :=
  match relevant log with
  | Some x => match asEvent range_map x log with Ret ev => Some ev | _ => None end
  | None => None
  end.

Definition transaction_of (tx : TransactionTrace) : option Transaction :=
  match omap event_of (default [] (Receipt tx)) with
  | [] => None
  | evs => Some (mkTransaction (trace_Hash tx) evs)
  end.

Definition convertible (log : Log) : Prop :=
  ∀ x, relevant log = Some x → ∃ ev, asEvent range_map x log = Ret ev.

Lemma extract_logs_spec tx logs : Forall (λ l, length (Address l) = 20%nat) logs →
  match extract_logs range_map exs contracts tx logs with
  | Ret evs => evs = omap event_of logs ∧ Forall convertible logs
  | Fail e => ∃ l x e', l ∈ logs ∧ relevant l = Some x ∧ asEvent range_map x l = Fail e' ∧
      e = TxLogError tx (Index l) e'
  | Panic => ∃ l x, l ∈ logs ∧ relevant l = Some x ∧ asEvent range_map x l = Panic
  end.
Proof.
  induction 1 as [|l logs Hl _ IH]; cbn [extract_logs]; [done|].
  unfold contains. rewrite Hl. simpl.
  assert (relevant l = None →
    match extract_logs range_map exs contracts tx logs with
    | Ret evs => evs = omap event_of (l :: logs) ∧ Forall convertible (l :: logs)
    | Fail e => ∃ l' x e', l' ∈ l :: logs ∧ relevant l' = Some x ∧ asEvent range_map x l' = Fail e' ∧
        e = TxLogError tx (Index l') e'
    | Panic => ∃ l' x, l' ∈ l :: logs ∧ relevant l' = Some x ∧ asEvent range_map x l' = Panic
    end) as Hskip.
  { intros Hr. destruct (extract_logs _ _ _ _ logs).
    - destruct IH as [-> Hc]. simpl. unfold event_of at 2. rewrite Hr. split; [done|].
      constructor; [|done]. intros x Hx. congruence.
    - destruct IH as (l' & x & e' & ? & IH). exists l', x, e'. split; [by right|done].
    - destruct IH as (l' & x & ? & IH). exists l', x. split; [by right|done]. }
  unfold relevant in Hskip. case_bool_decide as Hin; [|rewrite decide_False in Hskip by done; by apply Hskip].
  rewrite decide_True in Hskip by done. destruct (Topics l) as [|topic ts] eqn:Et; [by apply Hskip|].
  destruct (exs !! BytesToHash topic) as [x|] eqn:Ex; [|by apply Hskip]. clear Hskip.
  assert (relevant l = Some x) as Hr by (unfold relevant; by rewrite decide_True, Et, Ex by done).
  destruct (asEvent range_map x l) as [ev|e|] eqn:Ea; cbn [map_err mbind outcome_mbind].
  - destruct (extract_logs _ _ _ _ logs); cbn [map_err mbind outcome_mbind].
    + destruct IH as [-> Hc]. simpl. unfold event_of at 2. rewrite Hr, Ea. split; [done|].
      constructor; [|done]. intros y Hy. exists ev. congruence.
    + destruct IH as (l' & y & e' & ? & IH). exists l', y, e'. split; [by right|done].
    + destruct IH as (l' & y & ? & IH). exists l', y. split; [by right|done].
  - exists l, x, e. split; [left|done].
  - exists l, x. split; [left|done].
Qed.

(** The receipts that the extraction follows are there. *)
Definition has_receipt (tx : TransactionTrace) : Prop :=
  ∃ logs, Receipt tx = Some logs ∧ Forall (λ l, length (Address l) = 20%nat) logs.

Lemma extract_txs_spec txs : Forall has_receipt txs →
  match extract_txs range_map exs contracts txs with
  | Ret out => out = omap transaction_of txs ∧ Forall (λ tx, Forall convertible (default [] (Receipt tx))) txs
  | Fail e => ∃ tx l x e', tx ∈ txs ∧ l ∈ default [] (Receipt tx) ∧
      relevant l = Some x ∧ asEvent range_map x l = Fail e' ∧ e = TxLogError (trace_Hash tx) (Index l) e'
  | Panic => ∃ tx l x, tx ∈ txs ∧ l ∈ default [] (Receipt tx) ∧
      relevant l = Some x ∧ asEvent range_map x l = Panic
  end.
Proof.
  intros Htxs. induction Htxs as [|tx txs (logs & Hr & Hl) _ IH]; cbn [extract_txs]; [done|].
  rewrite Hr. cbn [or_panic mbind outcome_mbind].
  pose proof (extract_logs_spec (trace_Hash tx) logs Hl) as Hs.
  destruct (extract_logs _ _ _ _ logs) as [evs|e|]; cbn [mbind outcome_mbind].
  - destruct Hs as [Hevs Hc]. destruct (extract_txs _ _ _ txs) as [rest|e|]; cbn [mbind outcome_mbind].
    + destruct IH as [-> HF]. split; [|constructor; [by rewrite Hr|done]].
      assert (transaction_of tx
        = match evs with [] => None | _ => Some (mkTransaction (trace_Hash tx) evs) end) as Ht
        by (unfold transaction_of; rewrite Hr; simpl; rewrite <-Hevs; by destruct evs).
      simpl. rewrite Ht. by destruct evs.
    + destruct IH as (tx' & l & x & e' & ? & IH). exists tx', l, x, e'. split; [by right|done].
    + destruct IH as (tx' & l & x & ? & IH). exists tx', l, x. split; [by right|done].
  - destruct Hs as (l & x & e' & ? & ? & ? & ->). exists tx, l, x, e'. rewrite Hr.
    split; [left|]. by split_and!.
  - destruct Hs as (l & x & ? & ? & ?). exists tx, l, x. rewrite Hr.
    split; [left|]. by split_and!.
Qed.

Definition well_formed (b : SFBlock) : Prop :=
  is_Some (Header b) ∧ Forall has_receipt (TransactionTraces b).

(** Without contracts no log is relevant and no transaction is kept. *)
Lemma transaction_of_no_contracts tx : contracts = ∅ → transaction_of tx = None.
Proof.
  intros Hc. unfold transaction_of.
  replace (omap event_of (default [] (Receipt tx))) with (@nil Event); [done|].
  induction (default [] (Receipt tx)) as [|l logs IH]; [done|]. simpl.
  unfold event_of at 1, relevant. by rewrite Hc, decide_False by set_solver.
Qed.

Lemma extract_no_contracts b : contracts = ∅ → well_formed b →
  ∃ t, Header b = Some t ∧ extract range_map exs b contracts = Ret (mkBlock (sf_Number b) t (sf_Hash b) []).
Proof.
  intros Hc [[t Ht] Htxs]. exists t. split; [done|]. unfold extract. rewrite Ht. cbn [or_panic mbind outcome_mbind].
  pose proof (extract_txs_spec (TransactionTraces b) Htxs) as Hx. assert (∀ l, relevant l = None) as Hr.
  { intros l. unfold relevant. by rewrite Hc, decide_False by set_solver. }
  destruct (extract_txs _ _ _ _) as [txs|e|]; cbn [mbind outcome_mbind].
  - destruct Hx as [-> _]. replace (omap transaction_of _) with (@nil Transaction); [done|].
    induction (TransactionTraces b) as [|tx ts IH]; [done|]. simpl. rewrite transaction_of_no_contracts by done.
    apply IH. by inversion Htxs.
  - destruct Hx as (? & l & x & ? & ? & ? & Hl & _). by rewrite Hr in Hl.
  - destruct Hx as (? & l & x & ? & ? & Hl & _). by rewrite Hr in Hl.
Qed.
End extraction.

(** C14. [extract] keeps every relevant log (emitted by an observed contract, its
    first topic a requested signature) and nothing else, in order, and drops the
    transactions without any; it fails only on a relevant log that does not
    decode, naming its transaction and index.  Observing no contract is observing none,
    and not all of them as the description of the request says: no log is kept. *)
Theorem extract_correct {T H} `{Countable H, ABI T H, Decoder T H, EthCommon}
    range_map (exs : gmap H (ethEventExtractor (T:=T) (H:=H))) b contracts : well_formed b →
  match extract range_map exs b contracts with
  | Ret blk => Number blk = sf_Number b ∧ Some (TimeStamp blk) = Header b ∧ block_Hash blk = sf_Hash b ∧
      Transactions blk = omap (transaction_of range_map exs contracts) (TransactionTraces b) ∧
      Forall (λ tx, Forall (convertible range_map exs contracts) (default [] (Receipt tx)))
        (TransactionTraces b)
  | Fail e => ∃ tx l x e', tx ∈ TransactionTraces b ∧ l ∈ default [] (Receipt tx) ∧
      relevant exs contracts l = Some x ∧ asEvent range_map x l = Fail e' ∧
      e = TxLogError (trace_Hash tx) (Index l) e'
  | Panic => ∃ tx l x, tx ∈ TransactionTraces b ∧ l ∈ default [] (Receipt tx) ∧
      relevant exs contracts l = Some x ∧ asEvent range_map x l = Panic
  end ∧
  (contracts = ∅ → ∃ blk, extract range_map exs b contracts = Ret blk ∧ Transactions blk = []).
Proof.
  intros Hwf. split; [|intros Hc; destruct (extract_no_contracts range_map exs contracts b Hc Hwf) as (t & _ & ->); by eexists].
  destruct Hwf as [[t Ht] Htxs]. unfold extract. rewrite Ht. cbn [or_panic mbind outcome_mbind].
  pose proof (extract_txs_spec range_map exs contracts _ Htxs) as Hx.
  destruct (extract_txs _ _ _ _) as [txs|e|]; cbn [mbind outcome_mbind]; [|done|done].
  destruct Hx as [-> HF]. by split_and!.
Qed.

(** ** Setting arguments *)

Section setting.
Context {T H : Type} `{Countable H, ABI T H, Decoder T H, EthCommon}.
Abbreviation extractor := (ethEventExtractor (T:=T) (H:=H)).

Definition key (i : nat) (a : abi_argument T) : string :=
  if decide (abi_Name a = EmptyString) then unnamed i else abi_Name a.

Lemma index_arguments_spec i l m m' : index_arguments i l m = Ret m' →
  (∀ n j, m' !! n = Some j ↔
    m !! n = Some j ∨ ∃ k a, l !! k = Some a ∧ j = (i + k)%nat ∧ n = key (i + k) a) ∧
  (∀ k a, l !! k = Some a → m !! key (i + k) a = None) ∧
  (∀ k k' a a', l !! k = Some a → l !! k' = Some a' → key (i + k) a = key (i + k') a' → k = k').
Proof.
  revert i m. induction l as [|a l IH]; intros i m; cbn [index_arguments].
  { intros [= <-]. split; [|done]. intros n j. split; [by left|]. by intros [?|(?&?&?&_)]. }
  fold (key i a). cbv zeta. destruct (m !! key i a) as [|] eqn:Em; [done|].
  intros (Hm & Hn & Hd)%IH. assert (∀ k, S i + k = i + S k)%nat as Hik by lia.
  setoid_rewrite Hik in Hm. setoid_rewrite Hik in Hn. setoid_rewrite Hik in Hd.
  split; [|split].
  - intros n j. rewrite Hm, lookup_insert_Some. split.
    + intros [[[<- <-]|[? ?]]|(k & b & ? & -> & ->)]; [|by left|].
      * right. exists 0%nat, a. by rewrite Nat.add_0_r.
      * right. by exists (S k), b.
    + intros [Hj|([|k] & b & Hk & -> & ->)].
      * left. right. split; [|done]. intros <-. congruence.
      * simpl in Hk. injection Hk as ->. left. left. by rewrite Nat.add_0_r.
      * right. by exists k, b.
  - intros [|k] b Hk; simpl in Hk.
    + injection Hk as ->. by rewrite Nat.add_0_r.
    + apply Hn, lookup_insert_None in Hk as [? _]. done.
  - intros [|k] [|k'] b b' Hk Hk' E; simpl in Hk, Hk'; [done| | |].
    + injection Hk as ->. rewrite Nat.add_0_r in E. apply Hn in Hk'. rewrite <-E in Hk'.
      by rewrite lookup_insert_eq in Hk'.
    + injection Hk' as ->. rewrite Nat.add_0_r in E. apply Hn in Hk. rewrite E in Hk.
      by rewrite lookup_insert_eq in Hk.
    + f_equal. by eapply Hd.
Qed.

Lemma ABIArguments_spec (ev : Event) (args : list (abi_argument T)) : ABIArguments ev = Ret args →
  Forall2 (λ a b, abi_Name b = arg_Name a ∧ abi_Indexed b = Indexed a) (Arguments ev) args.
Proof.
  unfold ABIArguments. destruct (params ev) as [ps| |] eqn:Hp; [|done|done]. cbn [mbind outcome_mbind].
  unfold params in Hp. apply omapM_Ret in Hp. rewrite omapM_Ret.
  intros Ha. revert args Ha. induction Hp as [|a p l ps _ _ IH]; intros args Ha; simpl in Ha.
  - inversion_clear Ha. constructor.
  - inversion_clear Ha as [|? b ? args' Hb Ha']. constructor; [|by apply IH].
    simpl in Hb. destruct (NewType p); [|done]. by injection Hb as <-.
Qed.

(** Setting a list of named values one after the other. *)
Fixpoint set_list (e : extractor) (ev : Event) (l : list (string * any)) : outcome hose_err Event :=
  match l with
  | [] => Ret ev
  | (n, v) :: l => ev ← setArgument e ev n v; set_list e ev l
  end.

Lemma set_list_app (e : extractor) ev l l' :
  set_list e ev (l ++ l') = (ev ← set_list e ev l; set_list e ev l').
Proof.
  revert ev. induction l as [|[n v] l IH]; intros ev; [done|]. cbn [set_list app].
  destruct (setArgument e ev n v); cbn [mbind outcome_mbind]; [apply IH|done|done].
Qed.

Lemma set_topics_Ret (e : extractor) ev l ev' : set_topics e ev l = Ret ev' ↔ set_list e ev l = Ret ev'.
Proof.
  revert ev. induction l as [|[n v] l IH]; intros ev; [done|]. cbn [set_list set_topics].
  destruct (setArgument e ev n v); cbn [map_err mbind outcome_mbind]; [apply IH|done|done].
Qed.

Lemma set_data_Ret (e : extractor) ev i vals ev' : (i + length vals ≤ length (nonIndexed e))%nat →
  set_data e ev i vals = Ret ev' ↔
  set_list e ev (zip (abi_Name <$> drop i (nonIndexed e)) vals) = Ret ev'.
Proof.
  revert ev i. induction vals as [|v vals IH]; intros ev i Hl.
  { by rewrite zip_with_nil_r. }
  cbn [set_data length] in *. destruct (lookup_lt_is_Some_2 (nonIndexed e) i) as [a Ea]; [lia|].
  rewrite Ea, (drop_S _ a) by done. cbn [or_panic mbind outcome_mbind]. simpl.
  destruct (setArgument e ev (abi_Name a) v); cbn [map_err mbind outcome_mbind]; [|done|done].
  apply IH. lia.
Qed.

Lemma setArgument_Ret (e : extractor) ev n v ev' : setArgument e ev n v = Ret ev' →
  ∃ i a val, argIndexByName e !! n = Some i ∧ Arguments ev !! i = Some a ∧
    SetPayload (arg_Value a) v = (val, None) ∧
    ev' = with_argument ev i (mkArgument (arg_Name a) val (Indexed a)).
Proof.
  unfold setArgument. destruct (argIndexByName e !! n) as [i|] eqn:Ei; [|done].
  destruct (Arguments ev !! i) as [a|] eqn:Ea; [|done]. cbn [or_panic mbind outcome_mbind].
  destruct (SetPayload (arg_Value a) v) as [val [err|]] eqn:Es; [done|]. intros [= <-].
  by exists i, a, val.
Qed.

(** Where a list of names is set, each argument is set at most once, to the value
    of its name, and the others stay. *)
Lemma set_list_spec (e : extractor) l : NoDup l.*1 →
  (∀ n n' i, argIndexByName e !! n = Some i → argIndexByName e !! n' = Some i → n = n') →
  ∀ ev ev', set_list e ev l = Ret ev' →
  Name ev' = Name ev ∧ Emitter ev' = Emitter ev ∧ LogIndex ev' = LogIndex ev ∧
  length (Arguments ev') = length (Arguments ev) ∧
  (∀ n v, (n, v) ∈ l → is_Some (argIndexByName e !! n)) ∧
  ∀ i a, Arguments ev !! i = Some a → ∃ a', Arguments ev' !! i = Some a' ∧
    arg_Name a' = arg_Name a ∧ Indexed a' = Indexed a ∧
    (∀ n v, (n, v) ∈ l → argIndexByName e !! n = Some i →
      SetPayload (arg_Value a) v = (arg_Value a', None)) ∧
    ((∀ n v, (n, v) ∈ l → argIndexByName e !! n ≠ Some i) → a' = a).
Proof.
  intros Hnd Hinj. induction l as [|[n v] l IH]; intros ev ev'; cbn [set_list].
  { intros [= <-]. split_and!; try done; [intros ? ? ?%elem_of_nil; done|].
    intros i a Ha. exists a. split_and!; try done. intros ? ? ?%elem_of_nil. done. }
  apply NoDup_cons in Hnd as [Hn Hnd]. specialize (IH Hnd).
  destruct (setArgument e ev n v) as [ev1| |] eqn:Es; cbn [mbind outcome_mbind]; [|done|done].
  intros (Q1 & Q2 & Q3 & Q4 & Q5 & Q6)%IH.
  apply setArgument_Ret in Es as (i & a & val & Ei & Ea & Hset & ->). simpl in *.
  rewrite length_insert in Q4. split_and!; try done.
  { intros n' v' [[= -> ->]|Hin]%elem_of_cons; [by eexists|by eapply Q5]. }
  intros j b Hb. destruct (decide (i = j)) as [<-|Hij].
  - rewrite Ea in Hb. injection Hb as <-.
    destruct (Q6 i (mkArgument (arg_Name a) val (Indexed a))) as (a' & Ha' & Hn' & Hi' & _ & Hsame).
    { apply list_lookup_insert_eq. by eapply lookup_lt_Some. }
    assert (a' = mkArgument (arg_Name a) val (Indexed a)) as ->.
    { apply Hsame. intros n' v' Hin Hi. apply Hn. rewrite (Hinj n n' i Ei Hi).
      apply list_elem_of_fmap. by exists (n', v'). }
    eexists. split; [done|]. split; [done|]. split; [done|]. split.
    + intros n' v' [[= -> ->]|Hin]%elem_of_cons Hi; [done|]. exfalso. apply Hn.
      rewrite (Hinj n n' i Ei Hi). apply list_elem_of_fmap. by exists (n', v').
    + intros Hno. destruct (Hno n v); [left|done].
  - destruct (Q6 j b) as (a' & Ha' & Hn' & Hi' & Hval & Hsame).
    { by rewrite list_lookup_insert_ne. }
    exists a'. split; [done|]. split; [done|]. split; [done|]. split.
    + intros n' v' [[= -> ->]|Hin]%elem_of_cons Hi; [congruence|by eapply Hval].
    + intros Hno. apply Hsame. intros n' v' Hin. apply (Hno n' v'). by right.
Qed.
End setting.

Lemma filter_lookup_rank {A} (P : A → Prop) `{∀ x, Decision (P x)} (l : list A) i b :
  l !! i = Some b → P b → filter P l !! length (filter P (take i l)) = Some b.
Proof.
  intros Hl Hb. pose proof (take_drop_middle l i b Hl) as E. revert E.
  generalize (take i l), (drop (S i) l). intros l1 l2 <-.
  rewrite filter_app, filter_cons_True by done. by apply list_lookup_middle.
Qed.

Lemma Forall2_filter_length {A B} (R : A → B → Prop) P Q `{∀ x, Decision (P x), ∀ x, Decision (Q x)} l k :
  Forall2 R l k → (∀ x y, R x y → P x ↔ Q y) → length (filter P l) = length (filter Q k).
Proof.
  intros HR HPQ. induction HR as [|x y l k Hxy _ IH]; [done|]. rewrite !filter_cons.
  specialize (HPQ x y Hxy). do 2 case_decide; simpl; naive_solver.
Qed.

Lemma zip_elem_of_iff {A B} (l : list A) (k : list B) j x y :
  l !! j = Some x → k !! j = Some y → (x, y) ∈ zip l k.
Proof. intros Hx Hy. apply list_elem_of_lookup. exists j. by rewrite lookup_zip_with, Hx, Hy. Qed.

Lemma NoDup_fmap_filter {A B} (f : A → B) (P : A → Prop) `{∀ x, Decision (P x)} l :
  NoDup (f <$> l) → NoDup (f <$> filter P l).
Proof.
  induction l as [|x l IH]; [done|]. rewrite filter_cons, fmap_cons, NoDup_cons.
  intros [Hx Hl]. case_decide; [|by apply IH]. rewrite fmap_cons, NoDup_cons. split; [|by apply IH].
  intros (y & E & [_ Hy]%list_elem_of_filter)%list_elem_of_fmap. apply Hx. rewrite E. by apply list_elem_of_fmap_2.
Qed.

Section as_event.
Context {T H : Type} `{Countable H, ABI T H, !Decoder T H, !DecoderLaws T H, EthCommon}.

(** An extractor whose arguments all have names knows each under its own. *)
Lemma extractor_names (sg : Event) (e : ethEventExtractor (T:=T) (H:=H)) :
  newEthEventExtractor sg = Ret e → (∀ a, a ∈ Arguments sg → arg_Name a ≠ EmptyString) →
  sig e = sg ∧ nonIndexed e = NonIndexed (args e) ∧
  indexed e = filter (λ a, abi_Indexed a = true) (args e) ∧
  Forall2 (λ a b, abi_Name b = arg_Name a ∧ abi_Indexed b = Indexed a) (Arguments sg) (args e) ∧
  NoDup (abi_Name <$> args e) ∧
  ∀ n i, argIndexByName e !! n = Some i ↔ ∃ a, args e !! i = Some a ∧ n = abi_Name a.
Proof.
  unfold newEthEventExtractor. intros He Hne.
  destruct (ABIArguments sg) as [l| |] eqn:Ha; [|done|done]. cbn [map_err mbind outcome_mbind] in He.
  destruct (index_arguments 0 l ∅) as [byName| |] eqn:Hb; [|done|done]. cbn [mbind outcome_mbind] in He.
  destruct (EVMHash sg) as [hh| |]; cbn [map_err mbind outcome_mbind] in He; [|done|done]. injection He as <-. simpl.
  apply ABIArguments_spec in Ha. apply index_arguments_spec in Hb as (Hidx & _ & Hd). simpl in *.
  assert (∀ i a, l !! i = Some a → key i a = abi_Name a) as Hkey.
  { intros i a Hi. unfold key. rewrite decide_False; [done|].
    destruct (Forall2_lookup_r _ _ _ _ _ Ha Hi) as (b & Hb & -> & _).
    apply Hne. by eapply list_elem_of_lookup_2. }
  split_and!; try done.
  - apply NoDup_alt. intros i j n. rewrite !list_lookup_fmap.
    destruct (l !! i) as [a|] eqn:Ei; [|done]. destruct (l !! j) as [b|] eqn:Ej; [|done].
    intros [= <-] [= E]. apply (Hd i j a b Ei Ej). by rewrite !Hkey.
  - intros n i. rewrite Hidx, lookup_empty. split.
    + intros [?|(k & a & Hk & -> & ->)]; [done|]. exists a. by rewrite Hkey.
    + intros (a & Hi & ->). right. exists i, a. by rewrite Hkey.
Qed.

Lemma NoDup_set_list (l : list (abi_argument T)) (topics : list (string * any)) (data : list any)
    (parsed : gmap string any) :
  NoDup (abi_Name <$> l) → topics ≡ₚ map_to_list parsed →
  (∀ n, is_Some (parsed !! n) ↔ n ∈ (abi_Name <$> filter (λ a, abi_Indexed a = true) l)) →
  length data = length (NonIndexed l) →
  NoDup (topics ++ zip (abi_Name <$> NonIndexed l) data).*1.
Proof.
  intros Hnd Ht Hdom Hl. rewrite fmap_app, fst_zip by (rewrite length_fmap; lia).
  rewrite Ht, NonIndexed_spec. apply NoDup_app. split; [apply NoDup_fst_map_to_list|]. split.
  - intros n Hn Hn'. apply list_elem_of_fmap in Hn as ([n' v] & -> & Hn). simpl in *.
    apply elem_of_map_to_list in Hn. assert (is_Some (parsed !! n')) as Hs by (by eexists).
    apply Hdom, list_elem_of_fmap in Hs as (a & -> & [Hia Ha]%list_elem_of_filter).
    apply list_elem_of_fmap in Hn' as (b & Eab & [Hib Hb]%list_elem_of_filter).
    apply list_elem_of_lookup in Ha as [i Hi]. apply list_elem_of_lookup in Hb as [j Hj].
    assert (i = j) as ->; [|congruence].
    eapply (proj1 (NoDup_alt _) Hnd i j (abi_Name a)); rewrite list_lookup_fmap; [by rewrite Hi|].
    by rewrite Hj, Eab.
  - by apply NoDup_fmap_filter.
Qed.
End as_event.

(** C11. An event that [asEvent] returns is the requested signature with the name,
    emitter and index of the log filled in, and every argument set through
    [SetPayload] without error: an indexed one to the topic parsed under its name,
    the others to the decoded data in their order. *)
Theorem asEvent_correct {T H} `{Countable H, ABI T H, !Decoder T H, !DecoderLaws T H, EthCommon}
    range_map sg (e : ethEventExtractor (T:=T) (H:=H)) log ev parsed data :
  newEthEventExtractor sg = Ret e → (∀ a, a ∈ Arguments sg → arg_Name a ≠ EmptyString) →
  (∀ m : gmap string any, range_map m ≡ₚ map_to_list m) →
  ParseTopicsIntoMap (indexed e) (BytesToHash <$> tail (Topics log)) = Some parsed →
  Unpack (args e) (Data log) = Some data →
  asEvent range_map e log = Ret ev →
  Name ev = Name sg ∧ Emitter ev = Some (Address log) ∧ LogIndex ev = Index log ∧
  ArgumentsByName ev = index_names 0 (Arguments ev) ∅ ∧
  length (Arguments ev) = length (Arguments sg) ∧
  ∀ i a, Arguments sg !! i = Some a → ∃ a' val, Arguments ev !! i = Some a' ∧
    arg_Name a' = arg_Name a ∧ Indexed a' = Indexed a ∧
    SetPayload (arg_Value a) val = (arg_Value a', None) ∧
    if Indexed a then parsed !! arg_Name a = Some val
    else data !! length (filter (λ b, Indexed b = false) (take i (Arguments sg))) = Some val.
Proof.
  intros He Hne Hrange Hp Hu. unfold asEvent. rewrite Hp, Hu.
  destruct (extractor_names sg e He Hne) as (Hsig & Hnon & Hind & HA & Hnd & Hidx).
  destruct (negb _); [done|]. cbv zeta. set (ev0 := mkEvent _ _ _ _ _).
  destruct (set_topics e ev0 (range_map parsed)) as [ev1| |] eqn:Ht; [|done|done].
  cbn [mbind outcome_mbind]. destruct (set_data e ev1 0 data) as [ev2| |] eqn:Hd; [|done|done].
  cbn [mbind outcome_mbind]. intros [= <-]. apply Unpack_length in Hu as Hlen.
  apply set_topics_Ret in Ht. apply set_data_Ret in Hd; [|rewrite Hnon; simpl; lia].
  rewrite drop_0, Hnon in Hd. set (L := range_map parsed ++ zip (abi_Name <$> NonIndexed (args e)) data).
  assert (set_list e ev0 L = Ret ev2) as HL by (unfold L; rewrite set_list_app, Ht; exact Hd).
  pose proof (ParseTopics_names _ _ _ Hp) as Hdom. rewrite Hind in Hdom.
  apply set_list_spec in HL as (E1 & E2 & E3 & E4 & _ & Hargs).
  2:{ apply NoDup_set_list with parsed; done. }
  2:{ intros n n' i (a & Ha & ->)%Hidx (a' & Ha' & ->)%Hidx. congruence. }
  simpl in *. rewrite Hsig in *. split_and!; try done. intros i a Ha.
  destruct (Hargs i a Ha) as (a' & Ha' & Hn' & Hi' & Hval & _).
  destruct (Forall2_lookup_l _ _ _ _ _ HA Ha) as (b & Hb & Hbn & Hbi).
  assert (argIndexByName e !! arg_Name a = Some i) as Hi by (apply Hidx; exists b; by rewrite Hbn).
  destruct (Indexed a) eqn:Ei.
  - destruct (proj2 (Hdom (arg_Name a))) as [val Hv].
    { apply list_elem_of_fmap. exists b. split; [done|]. apply list_elem_of_filter.
      split; [done|]. by eapply list_elem_of_lookup_2. }
    exists a', val. split_and!; try (done || congruence). eapply Hval; [|done].
    apply elem_of_app. left. rewrite Hrange. by apply elem_of_map_to_list.
  - assert (NonIndexed (args e) !! length (filter (λ b, Indexed b = false) (take i (Arguments sg))) = Some b) as Hj.
    { rewrite NonIndexed_spec, (Forall2_filter_length
        (λ a b, abi_Name b = arg_Name a ∧ abi_Indexed b = Indexed a) _ (λ a, abi_Indexed a = false)
        _ (take i (args e))); [by apply filter_lookup_rank|by apply Forall2_take|].
      intros x y [_ ->]. done. }
    destruct (lookup_lt_is_Some_2 data (length (filter (λ b, Indexed b = false) (take i (Arguments sg)))))
      as [val Hv].
    { rewrite Hlen. by eapply lookup_lt_Some. }
    exists a', val. split_and!; try (done || congruence). eapply Hval; [|done].
    apply elem_of_app. right. eapply zip_elem_of_iff; [|done]. by rewrite list_lookup_fmap, Hj, <-Hbn.
Qed.

Lemma set_list_known {T H} `{Countable H, ABI T H, EthCommon}
    (e : ethEventExtractor (T:=T) (H:=H)) l ev ev' n v :
  set_list e ev l = Ret ev' → (n, v) ∈ l → is_Some (argIndexByName e !! n).
Proof.
  intros Hs (l1 & l2 & ->)%list_elem_of_split. rewrite set_list_app in Hs.
  destruct (set_list e ev l1); cbn [mbind outcome_mbind set_list] in Hs; [|done|done].
  destruct (setArgument e a n v) as [ev1| |] eqn:Ea; [|done|done].
  apply setArgument_Ret in Ea as (i & ? & ? & Hi & _). by exists i.
Qed.

(** A signature with an argument that has no name is accepted but useless:
    the argument is registered under a made-up name and looked up under the empty
    one, so no log of it is ever converted. *)
Theorem unnamed_argument {T H} `{Countable H, ABI T H, !Decoder T H, !DecoderLaws T H, EthCommon}
    range_map sg (e : ethEventExtractor (T:=T) (H:=H)) a log ev :
  newEthEventExtractor sg = Ret e → a ∈ Arguments sg → arg_Name a = EmptyString →
  (∀ m : gmap string any, range_map m ≡ₚ map_to_list m) →
  asEvent range_map e log ≠ Ret ev.
Proof.
  intros He Ha Hname Hrange Has. unfold newEthEventExtractor in He.
  destruct (ABIArguments sg) as [l| |] eqn:Habi; [|done|done]. cbn [map_err mbind outcome_mbind] in He.
  destruct (index_arguments 0 l ∅) as [byName| |] eqn:Hb; [|done|done]. cbn [mbind outcome_mbind] in He.
  destruct (EVMHash sg) as [hh| |]; cbn [map_err mbind outcome_mbind] in He; [|done|done].
  injection He as <-. apply ABIArguments_spec in Habi.
  assert (byName !! EmptyString = None) as Hnone.
  { destruct (byName !! EmptyString) as [j|] eqn:E; [|done].
    apply (index_arguments_spec _ _ _ _ Hb) in E as [?|(k & b & _ & _ & E)]; [done|].
    unfold key, unnamed in E. case_decide; [done|congruence]. }
  assert (∃ b, b ∈ l ∧ abi_Name b = EmptyString) as (b & Hbl & Hbn).
  { apply list_elem_of_lookup in Ha as [i Hi].
    destruct (Forall2_lookup_l _ _ _ _ _ Habi Hi) as (b & Hb' & Hn & _).
    exists b. split; [by eapply list_elem_of_lookup_2|congruence]. }
  unfold asEvent in Has. simpl in Has. destruct (negb _); [done|].
  destruct (ParseTopicsIntoMap _ _) as [parsed|] eqn:Hp; [|done].
  destruct (set_topics _ _ _) as [ev1| |] eqn:Ht; cbn [mbind outcome_mbind] in Has; [|done|done].
  destruct (Unpack l (Data log)) as [data|] eqn:Hu; [|done].
  destruct (set_data _ _ _ _) as [ev2| |] eqn:Hd; cbn [mbind outcome_mbind] in Has; [|done|done].
  apply Unpack_length in Hu. apply set_topics_Ret in Ht.
  apply set_data_Ret in Hd; [|simpl; lia]. rewrite drop_0 in Hd. simpl in Hd.
  destruct (abi_Indexed b) eqn:Ei.
  - destruct (proj2 (ParseTopics_names _ _ _ Hp (abi_Name b))) as [v Hv].
    { apply list_elem_of_fmap_2. by apply list_elem_of_filter. }
    apply (set_list_known _ _ _ _ (abi_Name b) v) in Ht as [j Hj]; [simpl in Hj; congruence|].
    rewrite Hrange. by apply elem_of_map_to_list.
  - assert (b ∈ NonIndexed l) as [j Hj]%list_elem_of_lookup
      by (rewrite NonIndexed_spec; by apply list_elem_of_filter).
    destruct (lookup_lt_is_Some_2 data j) as [v Hv]; [rewrite Hu; by eapply lookup_lt_Some|].
    apply (set_list_known _ _ _ _ (abi_Name b) v) in Hd as [i Hi]; [simpl in Hi; congruence|].
    eapply zip_elem_of_iff; [|done]. by rewrite list_lookup_fmap, Hj.
Qed.

(** ** The service *)

Section service.
Context {T H : Type} `{Countable H, ABI T H, Decoder T H, EthCommon}.
Context (range_map : gmap string any → list (string * any)).

(** The responses of a request are the conversions of the first blocks of the
    stream, one per block, with their cursors and steps; when the request ends
    without an error, every block was converted and sent. *)
Theorem events_prefix req exs sigs Blocks send outs r :
  make_extractors (T:=T) (H:=H) (Signatures req) ∅ = Ret (exs, sigs) →
  events (T:=T) (H:=H) range_map req Blocks send = (outs, r) →
  let inputs := Blocks (mkRequest (StartBlockNum req) (StopBlockNum req) sigs (Contracts req) (req_Cursor req)) in
  Forall2 (λ inp out, inp = Received (FirehoseBlock out) (Cursor out) (FirehoseStep out) ∧
      extract range_map exs (FirehoseBlock out) (list_to_set (BytesToAddress <$> Contracts req))
      = Ret (resp_Block out) ∧ send out = None)
    (take (length outs) (default [] (fst <$> inputs))) outs ∧
  (r = Ret tt → ∃ bs, inputs = Some (bs, None) ∧ length outs = length bs).
Proof.
  intros Hx. unfold events. rewrite Hx. destruct (negb (req_Valid req)).
  { intros [= <- <-]. by split; [constructor|]. }
  cbv zeta. destruct (Blocks _) as [[inputs end_err]|]; [|intros [= <- <-]; by split; [constructor|]].
  set (contracts := list_to_set (BytesToAddress <$> Contracts req)). simpl.
  assert (∀ outs r, events_loop range_map exs contracts inputs end_err send = (outs, r) →
    Forall2 (λ inp out, inp = Received (FirehoseBlock out) (Cursor out) (FirehoseStep out) ∧
      extract range_map exs (FirehoseBlock out) contracts = Ret (resp_Block out) ∧ send out = None)
      (take (length outs) inputs) outs ∧
    (r = Ret tt → end_err = None ∧ length outs = length inputs)) as Hloop.
  { clear. induction inputs as [|[b cursor step|] inputs IH]; intros outs r; cbn [events_loop].
    - intros [= <- <-]. split; [constructor|]. by destruct end_err.
    - destruct (extract range_map exs b contracts) as [blk|e|] eqn:Ee;
        [|intros [= <- <-]; split; [constructor|done]..].
      cbv zeta. set (out := mkBlockResponse blk cursor b step).
      destruct (send out) as [err|] eqn:Es; [intros [= <- <-]; split; [constructor|done]|].
      destruct (events_loop _ _ _ _ _ _) as [outs' r'] eqn:El. intros [= <- <-].
      destruct (IH outs' r' eq_refl) as [IH1 IH2]. simpl. split.
      + constructor; [|exact IH1]. by split_and!.
      + intros [-> ->]%IH2. done.
    - intros [= <- <-]. split; [constructor|done]. }
  intros [Hpre Hall]%Hloop. split; [done|]. intros [-> Hl]%Hall. by exists inputs.
Qed.
End service.

(** The results of the first [n] calls of [Recv]. *)
Fixpoint recvs (n : nat) (a : ethAdaptor) : list (outcome hose_err BlockResponse) :=
  match n with O => [] | S n => let '(r, a) := Recv a in r :: recvs n a end.

(** The in-process client delivers the server's responses: calling [Recv] n
    times gives the first n responses in order and, once they run out, the error
    of the request every time, [io.EOF] when it had none. *)
Theorem adaptor_correct run a n : newETHAdaptor run = Some a →
  recvs n a = take n ((Ret <$> run.1) ++ replicate n (Fail (err a))) ∧
  (err a = match run.2 with Fail e => e | _ => EOF end).
Proof.
  destruct run as [outs r]. unfold newETHAdaptor. simpl. intros Ha.
  assert (∀ bs e, recvs n (mkAdaptor bs e) = take n ((Ret <$> bs) ++ replicate n (Fail e))) as Hr.
  { clear. induction n as [|n IH]; intros bs e; [done|]. cbn [recvs]. unfold Recv. simpl.
    destruct bs as [|b bs]; simpl; rewrite IH; [done|]. f_equal.
    change (Fail e :: replicate n (Fail e)) with (replicate (S n) (@Fail hose_err BlockResponse e)).
    rewrite replicate_S_end, app_assoc, (take_app_le (_ ++ _)); [done|]. rewrite length_app, length_replicate. lia. }
  destruct r; [| |done]; injection Ha as <-; by split.
Qed.

(** The blocks that the stream goroutine sends are the first blocks received,
    unchanged and in order, and the error it leaves says why it stopped. *)
Theorem Blocks_prefix {B} (stream : list (stream_recv B)) choices bs e :
  Blocks stream choices = (bs, e) →
  RecvBlock <$> bs = take (length bs) stream ∧
  match e with
  | None => length bs = length stream ∨ choices !! length bs = Some Quit
  | Some Canceled => choices !! length bs = Some Done
  | Some StreamRecv => stream !! length bs = Some RecvErr
  | Some UnmarshalError => stream !! length bs = Some RecvGarbage
  | Some WrongBlockType => stream !! length bs = Some RecvOther
  | Some _ => False
  end.
Proof.
  revert choices bs e. induction stream as [|[b| | |] stream IH]; intros choices bs e; cbn [Blocks];
    try (intros [= <- <-]; by auto).
  assert (∀ bs' e', Blocks stream (tail choices) = (bs', e') → (b :: bs', e') = (bs, e) →
    (choices = [] ∨ ∃ cs, choices = Deliver :: cs) →
    RecvBlock <$> bs = take (length bs) (RecvBlock b :: stream) ∧
    match e with
    | None => length bs = length (RecvBlock b :: stream) ∨ choices !! length bs = Some Quit
    | Some Canceled => choices !! length bs = Some Done
    | Some StreamRecv => (RecvBlock b :: stream) !! length bs = Some RecvErr
    | Some UnmarshalError => (RecvBlock b :: stream) !! length bs = Some RecvGarbage
    | Some WrongBlockType => (RecvBlock b :: stream) !! length bs = Some RecvOther
    | Some _ => False
    end) as Hstep.
  { intros bs' e' HB [= <- <-] Hc. destruct (IH _ _ _ HB) as [IH1 IH2]. cbn [fmap list_fmap length take].
    split; [f_equal; exact IH1|].
    destruct Hc as [-> |[cs ->]]; simpl in *; destruct e' as [[]|]; try done;
      by (destruct IH2 as [->|?]; auto). }
  destruct choices as [|[] cs].
  - destruct (Blocks stream (tail [])) as [bs' e'] eqn:HB. intros E. eapply Hstep; [done|done|by left].
  - destruct (Blocks stream _) as [bs' e'] eqn:HB. intros E. eapply Hstep; [done|done|by right; eexists].
  - intros [= <- <-]. by auto.
  - intros [= <- <-]. by auto.
Qed.

(** ** Examples *)

#[local] Existing Instance common.
#[local] Existing Instance common_laws.

(** Types by their names, hashes by the characters, topics as addresses. *)
#[local] Instance example_abi : ABI string bytes := {
  NewType s := Some s;
  Keccak256Hash s := (λ c, Z.of_N (N_of_ascii c)) <$> String.list_ascii_of_string s;
}.

#[local] Instance example_decoder : Decoder string bytes := {
  BytesToHash b := b;
  NonIndexed := filter (λ a, abi_Indexed a = false);
  ParseTopicsIntoMap args topics :=
    if decide (length args = length topics)
    then Some (list_to_map (zip (abi_Name <$> args) (AnyAddress <$> topics))) else None;
  Unpack args data := Some ((λ _, AnyUint256 (SetBytes data)) <$> filter (λ a, abi_Indexed a = false) args);
}.

#[local] Instance example_decoder_laws : DecoderLaws string bytes.
Proof.
  split.
  - done.
  - simpl. intros args topics m. case_decide as Hl; [|done]. intros [= <-] n.
    rewrite <-not_eq_None_Some, <-not_elem_of_list_to_map, fst_zip by (rewrite !length_fmap; lia).
    split; [apply dec_stable|auto].
  - simpl. intros args data vals [= <-]. by rewrite length_fmap.
Qed.

Definition example_sig : Event :=
  mkEvent "Paid" [NewArgument "to" (Value_Address None) true; NewArgument "wei" (Value_Uint256 []) false] ∅ None 0.

Definition example_topic : bytes := Keccak256Hash (T:=string) "Paid(address,uint256)"%string.

Definition example_log : Log := mkLog (replicate 20 9) [example_topic; replicate 20 5] [1; 0] 3.

Definition example_block : SFBlock :=
  mkSFBlock 7 (Some 1000) [1; 2] [mkTrace [4] (Some [example_log]); mkTrace [5] (Some [])].

Definition example_extractor : ethEventExtractor (T:=string) (H:=bytes) :=
  match newEthEventExtractor (T:=string) (H:=bytes) example_sig with
  | Ret e => e
  | _ => mkExtractor example_sig [] [] [] [] ∅
  end.

Definition example_event : Event :=
  mkEvent "Paid" [mkArgument "to" (Some (Value_Address (Some (replicate 20 5)))) true;
    mkArgument "wei" (Some (Value_Uint256 [1; 0])) false]
    (index_names 0 (Arguments example_sig) ∅) (Some (replicate 20 9)) 3.

Lemma extract_correct_witness :
  extract map_to_list {[example_topic := example_extractor]} example_block {[replicate 20 9]}
  = Ret (mkBlock 7 1000 [1; 2] [mkTransaction [4] [example_event]]) ∧
  7 = sf_Number example_block ∧ Some 1000 = Header example_block ∧ [1; 2] = sf_Hash example_block ∧
  [mkTransaction [4] [example_event]]
  = omap (transaction_of map_to_list {[example_topic := example_extractor]} {[replicate 20 9]})
      (TransactionTraces example_block).
Proof.
  assert (extract map_to_list {[example_topic := example_extractor]} example_block {[replicate 20 9]}
    = Ret (mkBlock 7 1000 [1; 2] [mkTransaction [4] [example_event]])) as E by (by vm_compute).
  split; [exact E|].
  pose proof (extract_correct map_to_list {[example_topic := example_extractor]} example_block
    {[replicate 20 9]}) as W. rewrite E in W. destruct W as [(W1 & W2 & W3 & W4 & _) _]; [|by split_and!].
  split; [by eexists|]. repeat constructor; by (eexists; split; [done|]; repeat constructor).
Defined.

Lemma asEvent_correct_witness :
  asEvent map_to_list example_extractor example_log = Ret example_event ∧
  Name example_event = Name example_sig ∧ Emitter example_event = Some (Address example_log).
Proof.
  assert (asEvent map_to_list example_extractor example_log = Ret example_event) as E by (by vm_compute).
  split; [exact E|].
  destruct (asEvent_correct map_to_list example_sig example_extractor example_log example_event
    {["to"%string := AnyAddress (replicate 20 5)]} [AnyUint256 256]) as (W1 & W2 & _);
    [by vm_compute| |done|by vm_compute|by vm_compute|exact E|by split].
  intros a [-> |[-> |[]%elem_of_nil]%elem_of_cons]%elem_of_cons; done.
Defined.

Definition unnamed_sig : Event :=
  mkEvent "Paid" [NewArgument "" (Value_Address None) true] ∅ None 0.

Lemma unnamed_argument_witness :
  ∃ e, newEthEventExtractor (T:=string) (H:=bytes) unnamed_sig = Ret e ∧
    asEvent map_to_list e example_log ≠ Ret example_event.
Proof.
  eexists. split; [by vm_compute|].
  apply (unnamed_argument map_to_list unnamed_sig _ (NewArgument "" (Value_Address None) true)); try done.
  left.
Defined.

Lemma events_prefix_witness :
  let req := mkEventsRequest [example_sig] [replicate 20 9] 0 0 "" true in
  let out := mkBlockResponse (mkBlock 7 1000 [1; 2] [mkTransaction [4] [example_event]])
    "c"%string example_block 1 in
  events (T:=string) (H:=bytes) map_to_list req
    (λ _, Some ([Received example_block "c" 1], None)) (λ _, None) = ([out], Ret tt) ∧
  ∃ bs, Some ([Received example_block "c"%string 1], None) = Some (bs, None : option hose_err) ∧
    length [out] = length bs.
Proof.
  intros req out.
  assert (events (T:=string) (H:=bytes) map_to_list req
    (λ _, Some ([Received example_block "c" 1], None)) (λ _, None) = ([out], Ret tt)) as E by (by vm_compute).
  split; [exact E|].
  refine (proj2 (events_prefix (T:=string) (H:=bytes) map_to_list req {[example_topic := example_extractor]}
    [example_topic] _ (λ _, None) [out] (Ret tt) _ E) eq_refl). vm_compute. reflexivity.
Defined.

Lemma adaptor_correct_witness :
  let out := mkBlockResponse (mkBlock 7 1000 [] []) "c"%string example_block 1 in
  recvs 3 (mkAdaptor [out] EOF) = [Ret out; Fail EOF; Fail EOF] ∧ EOF = EOF.
Proof.
  exact (adaptor_correct ([mkBlockResponse (mkBlock 7 1000 [] []) "c"%string example_block 1], Ret tt)
    _ 3 eq_refl).
Defined.

Lemma Blocks_prefix_witness :
  RecvBlock <$> [1; 2] = take 2 [RecvBlock 1; RecvBlock 2; RecvOther; RecvBlock 4] ∧
  [RecvBlock 1; RecvBlock 2; RecvOther; RecvBlock 4] !! 2%nat = Some RecvOther.
Proof.
  exact (Blocks_prefix [RecvBlock 1; RecvBlock 2; RecvOther; RecvBlock 4] [Deliver] [1; 2]
    (Some WrongBlockType) eq_refl).
Defined.
