(* ===== verification/Pipeline.v ===== *)
(** * Pipeline: the goroutines between a block stream and its client

    The goroutine of [Proxy.Blocks] ([firehose.go]), the loop of [events] and the client of
    [newETHAdaptor] ([ethservice.go]) run concurrently, joined by two unbuffered channels
    and a context.  [Firehose] describes them one after the other; here they are a step
    relation, every run of which agrees with that description. *)

From S2P Require Import Prelude GoStrings BigInt EthProto Firehose.
From stdpp Require Import gmap strings.

Section pipeline.
(** [A]: what the stream delivers, [B]: responses; [convert] is the body of the loop of
    [events].  After its items the stream ends, or stays open.  The client stops after
    [patience] calls of [Recv], or reads until an error. *)
Context {A B : Type} (convert : A → outcome hose_err B).
Context (stream : list (stream_recv A)) (ends : bool) (patience : option nat).

(** The goroutine of [Proxy.Blocks]: in [stream.Recv], in its [select], or returned, the
    error stored and the channel closed. *)
Inductive producer := Receiving | Offering (a : A) | Closed (e : option hose_err).

(** The goroutine of [newETHAdaptor]: in the [select] of [events], in that of [send], or
    returned with the streamer closed, [a.err] set and the channel closed. *)
Inductive forwarder := Ranging | Sending (b : B) | Returned (e : option hose_err).

Record pipeline := mkPipeline {
  items : list (stream_recv A); cancelled : bool; prod : producer; fwd : forwarder;
  got : list B; client_err : option hose_err   (* what the calls of [Recv] returned *)
}.

Definition start : pipeline := mkPipeline stream false Receiving Ranging [] None.

(** The client is in [Recv]. *)
Definition reading (p : pipeline) : Prop :=
  client_err p = None ∧ match patience with None => True | Some n => (length (got p) < n)%nat end.

Definition with_prod (p : pipeline) l x := mkPipeline l (cancelled p) x (fwd p) (got p) (client_err p).
Definition with_fwd (p : pipeline) x := mkPipeline (items p) (cancelled p) (prod p) x (got p) (client_err p).

(** Why [Proxy.Blocks] stops at something that is not a block. *)
Definition stream_error (x : stream_recv A) : option hose_err :=
  match x with
  | RecvBlock _ => None
  | RecvErr => Some StreamRecv
  | RecvGarbage => Some UnmarshalError
  | RecvOther => Some WrongBlockType
  end.

Inductive cancels : pipeline → pipeline → Prop :=
| ctx_cancel p : cancelled p = false →
    cancels p (mkPipeline (items p) true (prod p) (fwd p) (got p) (client_err p)).

(** A step of the goroutines; [None] is the process that panicked. *)
Inductive moves : pipeline → option pipeline → Prop :=
| recv_block p a l : prod p = Receiving → items p = RecvBlock a :: l →
    moves p (Some (with_prod p l (Offering a)))
| recv_bad p x l e : prod p = Receiving → items p = x :: l → stream_error x = Some e →
    moves p (Some (with_prod p l (Closed (Some e))))
| recv_EOF p : prod p = Receiving → items p = [] → ends = true →
    moves p (Some (with_prod p [] (Closed None)))
| recv_ctx p : prod p = Receiving → cancelled p = true →
    moves p (Some (with_prod p (items p) (Closed (Some StreamRecv))))
| offer_quit p a e : prod p = Offering a → fwd p = Returned e →
    moves p (Some (with_prod p (items p) (Closed None)))
| offer_ctx p a : prod p = Offering a → cancelled p = true →
    moves p (Some (with_prod p (items p) (Closed (Some Canceled))))
| range_block p a : prod p = Offering a → fwd p = Ranging →
    moves p match convert a with
            | Ret b => Some (with_fwd (with_prod p (items p) Receiving) (Sending b))
            | Fail e => Some (with_fwd (with_prod p (items p) Receiving) (Returned (Some e)))
            | Panic => None
            end
| range_closed p e : prod p = Closed e → fwd p = Ranging → moves p (Some (with_fwd p (Returned e)))
| range_ctx p : fwd p = Ranging → cancelled p = true → moves p (Some (with_fwd p (Returned (Some Canceled))))
| send_block p b : fwd p = Sending b → reading p →
    moves p (Some (mkPipeline (items p) (cancelled p) (prod p) Ranging (got p ++ [b]) (client_err p)))
| send_ctx p b : fwd p = Sending b → cancelled p = true →
    moves p (Some (with_fwd p (Returned (Some Canceled))))
| client_end p e : fwd p = Returned e → reading p →
    moves p (Some (mkPipeline (items p) (cancelled p) (prod p) (fwd p) (got p) (Some (default EOF e)))).

Definition step (c c' : option pipeline) : Prop :=
  ∃ p, c = Some p ∧ ((∃ p', c' = Some p' ∧ cancels p p') ∨ moves p c').

(** ** The sequential description *)

(** A block before the responses to what follows it. *)
Definition respond_first (a : A) (rest : list B * option (outcome hose_err ())) : list B * option (outcome hose_err ()) :=
  match convert a with
  | Ret b => (b :: rest.1, rest.2)
  | Fail e => ([], Some (Fail e))
  | Panic => ([], Some Panic)
  end.

(** The responses to what the stream still has, and how the request ends; [None] when it
    does not. *)
Fixpoint responses (l : list (stream_recv A)) : list B * option (outcome hose_err ()) :=
  match l with
  | [] => ([], if ends then Some (Ret ()) else None)
  | RecvBlock a :: l => respond_first a (responses l)
  | RecvErr :: _ => ([], Some (Fail StreamRecv))
  | RecvGarbage :: _ => ([], Some (Fail UnmarshalError))
  | RecvOther :: _ => ([], Some (Fail WrongBlockType))
  end.

(** ** Every run agrees with it *)

Definition ended (e : option hose_err) : outcome hose_err () := match e with None => Ret () | Some e => Fail e end.

(** The responses still to come, if the context is not cancelled. *)
Definition offered (p : pipeline) : list B * option (outcome hose_err ()) :=
  match prod p with
  | Receiving => responses (items p)
  | Offering a => respond_first a (responses (items p))
  | Closed e => ([], Some (ended e))
  end.

Definition to_come (p : pipeline) : list B * option (outcome hose_err ()) :=
  match fwd p with
  | Ranging => offered p
  | Sending b => (b :: (offered p).1, (offered p).2)
  | Returned e => ([], Some (ended e))
  end.

(** Nothing is lost, repeated or reordered; a cancelled context only cuts the end off. *)
Definition on_track (p : pipeline) : Prop :=
  (got p ++ (to_come p).1 = (responses stream).1 ∧ (to_come p).2 = (responses stream).2) ∨
  (cancelled p = true ∧ got p ++ (to_come p).1 `prefix_of` (responses stream).1 ∧
   ((to_come p).2 = Some (Fail Canceled) ∨ (to_come p).2 = Some (Fail StreamRecv))).

Definition told (p : pipeline) : Prop :=
  ∀ e, client_err p = Some e → ∃ e', fwd p = Returned e' ∧ e = default EOF e'.

Definition pipeline_ok (c : option pipeline) : Prop :=
  match c with
  | None => (responses stream).2 = Some Panic
  | Some p => on_track p ∧ told p
  end.

Lemma pipeline_start_ok : pipeline_ok (Some start).
Proof. split; [by left|by intros e [=]]. Qed.

(** A step that leaves the responses to come as they were. *)
Lemma on_track_same p p' : on_track p → cancelled p' = cancelled p →
  got p' ++ (to_come p').1 = got p ++ (to_come p).1 → (to_come p').2 = (to_come p).2 → on_track p'.
Proof. unfold on_track. by intros Ho -> -> ->. Qed.

(** A step that gives up because the context was cancelled. *)
Lemma on_track_cut p p' : on_track p → cancelled p = true → cancelled p' = true →
  got p' ++ (to_come p').1 `prefix_of` got p ++ (to_come p).1 →
  (to_come p').2 = Some (Fail Canceled) ∨ (to_come p').2 = Some (Fail StreamRecv) → on_track p'.
Proof.
  intros Ho _ Hc Hp He. right. split; [done|split; [|done]]. etrans; [exact Hp|].
  by destruct Ho as [[-> _]|(_ & ? & _)].
Qed.

(** The producer's steps change what is offered, which matters until [events] returns. *)
Lemma on_track_producer p l x : on_track p →
  (offered (with_prod p l x) = offered p ∨
   (∃ e, fwd p = Returned e) ∨
   (cancelled p = true ∧ (x = Closed (Some Canceled) ∨ x = Closed (Some StreamRecv)))) →
  on_track (with_prod p l x).
Proof.
  intros Ho Hx. destruct p as [l0 c pr f g ce]. unfold with_prod in *. simpl in *.
  destruct Hx as [E|[[e ->]|[-> Hx]]].
  - apply (on_track_same _ _ Ho); [done|..]; unfold to_come; simpl; by rewrite E.
  - by apply (on_track_same _ _ Ho).
  - destruct f as [|b|e]; [| |by apply (on_track_same _ _ Ho)]; apply (on_track_cut _ _ Ho); try done;
      unfold to_come; simpl; destruct Hx as [-> | ->]; simpl;
      try (by left); try (by right); apply prefix_app; [by apply prefix_nil..| |];
      by apply prefix_cons, prefix_nil.
Qed.

Lemma told_running p p' : told p → client_err p' = client_err p → (∀ e, fwd p ≠ Returned e) → told p'.
Proof. intros Ht Hc Hf e. rewrite Hc. intros (e' & He & _)%Ht. by destruct (Hf e'). Qed.

(** [events] returns because of the context. *)
Lemma forward_cut p : on_track p → told p → cancelled p = true → (∀ e, fwd p ≠ Returned e) →
  pipeline_ok (Some (with_fwd p (Returned (Some Canceled)))).
Proof.
  intros Ho Ht Hc Hf. split; [|by apply (told_running p)].
  apply (on_track_cut p); [done..| |by left]. simpl. rewrite app_nil_r. by apply prefix_app_r.
Qed.

Lemma moves_ok p c : on_track p → told p → moves p c → pipeline_ok c.
Proof.
  intros Ho Ht Hm. destruct Hm.
  1-6: (split; [|exact Ht]); apply on_track_producer; [done|]; unfold offered; simpl;
    repeat match goal with H : prod _ = _ |- _ => rewrite H | H : items _ = _ |- _ => rewrite H end; eauto.
  - left. destruct x; simplify_eq/=; done.
  - left. simpl. by destruct ends.
  - assert (∀ e, fwd p ≠ Returned e) as Hf by congruence.
    destruct p as [l c pr f g ce]; simpl in *; subst. unfold on_track, to_come, offered, respond_first in Ho. simpl in Ho.
    destruct (convert a) as [b|e|]; simpl in *; [split; [exact Ho|by eapply told_running]..|].
    by destruct Ho as [[_ Ho]|(_ & _ & [Ho|Ho])].
  - split; [|apply (told_running p); [done..|congruence]]. apply (on_track_same p); [done..| |];
      unfold to_come, offered; simpl; by rewrite H, H0.
  - apply forward_cut; [done..|congruence].
  - split; [|apply (told_running p); [done..|congruence]]. apply (on_track_same p); [done..| |];
      unfold to_come, offered; simpl; rewrite H; [by rewrite <-app_assoc|done].
  - apply forward_cut; [done..|congruence].
  - split; [by apply (on_track_same p)|]. intros e' [= <-]. by exists e.
Qed.

Lemma pipeline_step_ok c c' : pipeline_ok c → step c c' → pipeline_ok c'.
Proof.
  intros Hc (p & -> & [(p' & -> & Hs)|Hs]); destruct Hc as [Ho Ht]; [|by apply (moves_ok p)].
  destruct Hs. split; [|done]. destruct Ho as [Ho|(Hc & _)]; [by left|congruence].
Qed.

Lemma pipeline_reach_ok c : rtc step (Some start) c → pipeline_ok c.
Proof. intros Hr. revert c Hr. apply rtc_ind_r; [apply pipeline_start_ok|]. intros ?????. by eapply pipeline_step_ok. Qed.

(** ** Every run ends *)

Definition work (c : option pipeline) : nat :=
  match c with
  | None => 0
  | Some p => S ((if cancelled p then 0 else 1) + 4 * length (items p) +
      match prod p with Receiving => 1 | Offering _ => 4 | Closed _ => 0 end +
      match fwd p with Ranging => 1 | Sending _ => 2 | Returned _ => 0 end +
      match client_err p with None => 1 | Some _ => 0 end)
  end.

Lemma pipeline_step_work c c' : step c c' → work c' < work c.
Proof.
  intros (p & -> & [(p' & -> & Hs)|Hs]); destruct Hs; destruct p; unfold reading in *; simpl in *; destruct_and?;
    simplify_eq/=; try lia. destruct (convert a); simpl; lia.
Qed.

(** ** Goroutines at rest *)

Definition at_rest (p : pipeline) : Prop := ∀ c, ¬ moves p c.

(** The stream has delivered everything and stays open: nobody will call back. *)
Definition waits_for_stream (p : pipeline) : Prop :=
  prod p = Receiving ∧ items p = [] ∧ ends = false ∧ cancelled p = false.

Lemma producer_rest p : at_rest p →
  (∃ e, prod p = Closed e) ∨ waits_for_stream p ∨
  (∃ a b, prod p = Offering a ∧ fwd p = Sending b ∧ cancelled p = false).
Proof.
  intros Hr. unfold waits_for_stream. destruct (prod p) as [|a|e] eqn:Ep; [| |by left; exists e].
  - right; left. destruct (cancelled p) eqn:Ec; [by destruct (Hr _ (recv_ctx p Ep Ec))|].
    destruct (items p) as [|x l] eqn:El.
    + destruct ends eqn:Ee; [|done]. by destruct (Hr _ (recv_EOF p Ep El Ee)).
    + destruct x; [by destruct (Hr _ (recv_block p _ _ Ep El))|..];
        by destruct (Hr _ (recv_bad p _ _ _ Ep El eq_refl)).
  - right; right. destruct (cancelled p) eqn:Ec; [by destruct (Hr _ (offer_ctx p a Ep Ec))|].
    destruct (fwd p) as [|b|e] eqn:Ef; [|by exists a, b|]; edestruct Hr; [by eapply range_block|by eapply offer_quit].
Qed.

Lemma forwarder_rest p : at_rest p →
  match fwd p with
  | Returned e => ¬ reading p
  | Sending b => cancelled p = false ∧ ¬ reading p
  | Ranging => waits_for_stream p
  end.
Proof.
  intros Hr. destruct (fwd p) as [|b|e] eqn:Ef.
  - destruct (cancelled p) eqn:Ec; [by destruct (Hr _ (range_ctx p Ef Ec))|].
    destruct (producer_rest p Hr) as [[e He]|[?|(a & b & _ & ? & _)]]; [|done|congruence].
    by destruct (Hr _ (range_closed p e He Ef)).
  - split; [|intros Hd; by destruct (Hr _ (send_block p b Ef Hd))].
    destruct (cancelled p) eqn:Ec; [by destruct (Hr _ (send_ctx p b Ef Ec))|done].
  - intros Hd. by destruct (Hr _ (client_end p e Ef Hd)).
Qed.

(** A client that reads until an error waits only for the stream. *)
Lemma reader_rest p : told p → at_rest p → patience = None →
  match fwd p with
  | Returned _ => is_Some (client_err p)
  | Sending _ => False
  | Ranging => waits_for_stream p
  end.
Proof.
  intros Ht Hr Hp. pose proof (forwarder_rest p Hr) as Hf. unfold reading in Hf. rewrite Hp in Hf.
  destruct (fwd p) as [|b|e] eqn:Ef, (client_err p) as [e'|] eqn:Ec; try done; try (by apply Hf); try tauto.
  destruct (Ht e' Ec) as (? & ? & _). congruence.
Qed.

End pipeline.

(** The converted blocks as the request loop of [Firehose] sees them. *)
Section service.
Context {T H : Type} `{Countable H, ABI T H, Decoder T H, EthCommon}.
Context (range_map : gmap string any → list (string * any)).
Context (exs : gmap H (ethEventExtractor (T:=T) (H:=H))) (contracts : gset bytes).

Definition received (x : SFBlock * string * Z) : stream_input := let '(b, cursor, step) := x in Received b cursor step.

(** The body of the loop of [events]. *)
Definition respond_block (x : SFBlock * string * Z) : outcome hose_err BlockResponse :=
  let '(b, cursor, step) := x in
  block ← extract range_map exs b contracts; Ret (mkBlockResponse block cursor b step).

Definition sequential (stream : list (stream_recv (SFBlock * string * Z))) : list BlockResponse * outcome hose_err () :=
  let '(bs, e) := Blocks stream [] in events_loop range_map exs contracts (received <$> bs) e (λ _, None).

Lemma responses_sequential stream :
  responses respond_block true stream = ((sequential stream).1, Some (sequential stream).2).
Proof.
  unfold sequential. induction stream as [|[[[b cursor] step]| | |] stream IH]; [done| |done..].
  cbn [responses Blocks tail]. rewrite IH. destruct (Blocks stream []) as [bs e]. simpl.
  unfold respond_first, respond_block. destruct (extract _ _ b contracts); simpl; [|done..].
  by destruct (events_loop _ _ _ _ _ _).
Qed.

(** What a client has when it has got an error. *)
Lemma client_result stream patience p e :
  rtc (step respond_block true patience) (Some (start stream)) (Some p) → client_err p = Some e →
  newETHAdaptor (sequential stream) = Some (mkAdaptor (got p) e) ∨ cancelled p = true ∧ (e = Canceled ∨ e = StreamRecv).
Proof.
  intros [Ho Ht]%pipeline_reach_ok He. unfold on_track in Ho. rewrite responses_sequential in Ho. simpl in Ho.
  destruct (Ht e He) as (e' & Hf & ->). unfold to_come in Ho. rewrite Hf in Ho. simpl in Ho.
  unfold newETHAdaptor. destruct Ho as [[<- [= <-]]|(Hc & _ & Hc')].
  - left. rewrite app_nil_r. by destruct e'.
  - right. split; [done|]. destruct e' as [e'|]; simpl in *; naive_solver.
Qed.

(** C5. The goroutines compute what the sequential description says, however they are
    scheduled: a client has got the first responses of the request, in order and each
    once; an error that it gets is the one that follows all of them, as if the responses
    had been made in advance, or says that its context was cancelled; and the process
    panics only where the sequential run does. *)
Theorem pipeline_refines stream patience c :
  rtc (step respond_block true patience) (Some (start stream)) c →
  match c with
  | None => (sequential stream).2 = Panic
  | Some p => got p `prefix_of` (sequential stream).1 ∧
      ∀ e, client_err p = Some e →
        newETHAdaptor (sequential stream) = Some (mkAdaptor (got p) e) ∨
        cancelled p = true ∧ (e = Canceled ∨ e = StreamRecv)
  end.
Proof.
  intros Hr. pose proof (pipeline_reach_ok _ _ _ _ _ Hr) as Hok. unfold pipeline_ok, on_track in Hok.
  rewrite responses_sequential in Hok. simpl in Hok. destruct c as [p|]; [|congruence].
  split; [|intros e; by apply (client_result stream patience)].
  destruct Hok as [[[<- _]|(_ & Hp & _)] _]; [by apply prefix_app_r|]. etrans; [|exact Hp]. by apply prefix_app_r.
Qed.
End service.

(** ** Examples *)

(** One step of a run, by the rule named. *)
Ltac step_by r := eapply rtc_l; [eexists; split; [reflexivity|right; eapply r; reflexivity]|cbn].
Ltac read_by r := eapply rtc_l; [eexists; split; [reflexivity|right; eapply r; [reflexivity|split; [done|cbn; try lia]]]|cbn].

(** The client got an error, which its comment calls a proof that the goroutine has
    finished; but a block that cannot be converted, on a stream that is silent after it,
    leaves the streaming goroutine in [stream.Recv]. *)
Example streamer_left_behind :
  let p := mkPipeline [] false Receiving (Returned (Some ABIError)) [] (Some ABIError) in
  rtc (step (λ _ : nat, Fail (A:=nat) ABIError) false None) (Some (start [RecvBlock 7])) (Some p) ∧
  at_rest (λ _ : nat, Fail (A:=nat) ABIError) false None p.
Proof.
  split.
  - step_by (@recv_block nat nat). step_by (@range_block nat nat). read_by (@client_end nat nat). done.
  - intros c Hm. inversion Hm as [| | | | | | | | | | |? ? ? [? _]]; simplify_eq/=.
Qed.


#[local] Existing Instance common.
#[local] Existing Instance example_abi.
#[local] Existing Instance example_decoder.

Local Open Scope Z_scope.

Definition example_response : BlockResponse :=
  mkBlockResponse (mkBlock 7 1000 [1; 2] [mkTransaction [4] [example_event]]) "c" example_block 1.

Definition example_respond : SFBlock * string * Z → outcome hose_err BlockResponse :=
  respond_block map_to_list {[example_topic := example_extractor]} {[replicate 20 9]}.

Example example_responds : example_respond (example_block, "c"%string, 1) = Ret example_response.
Proof. vm_compute. reflexivity. Qed.

Definition example_stream : list (stream_recv (SFBlock * string * Z)) := [RecvBlock (example_block, "c"%string, 1)].

Lemma pipeline_refines_witness :
  newETHAdaptor (sequential map_to_list {[example_topic := example_extractor]} {[replicate 20 9]} example_stream)
    = Some (mkAdaptor [example_response] EOF) ∨ false = true ∧ (EOF = Canceled ∨ EOF = StreamRecv).
Proof.
  refine (proj2 (pipeline_refines map_to_list {[example_topic := example_extractor]} {[replicate 20 9]}
    example_stream None
    (Some (mkPipeline [] false (Closed None) (Returned None) [example_response] (Some EOF))) _) EOF eq_refl).
  fold example_respond. unfold example_stream, start.
  step_by (@recv_block (SFBlock * string * Z) BlockResponse).
  eapply rtc_l; [eexists; split; [reflexivity|right; by eapply (@range_block (SFBlock * string * Z) BlockResponse)]|].
  cbn -[example_respond]. rewrite example_responds. cbn.
  read_by (@send_block (SFBlock * string * Z) BlockResponse).
  step_by (@recv_EOF (SFBlock * string * Z) BlockResponse).
  step_by (@range_closed (SFBlock * string * Z) BlockResponse).
  read_by (@client_end (SFBlock * string * Z) BlockResponse). done.
Defined.
