(* ===== verification/SolCover.v ===== *)
(** * SolCover: source maps and coverage of [go/solcover]

    [solcover.go] (byte code and source-map parsing, the registry of contracts)
    and [coverage.go] (the trace collector and its LCOV report).  The package-level
    maps are one [registry]; go-ethereum's opcodes, the offset mapper, SHA-256 and
    the regular expressions for deployed libraries are classes. *)

From S2P Require Import Prelude GoStrings BigInt.
From stdpp Require Import gmap strings pretty sorting.
Local Open Scope Z_scope.

Definition semicolon : ascii := ascii_of_nat 59.
Definition colon : ascii := ascii_of_nat 58.

Inductive cov_err :=
| DecodeError
| ParseField (f : string) (raw : string)
| LineAndColumnErr (offset : Z) (file : string)
| ParsingRuntimeCode (name : string) (e : cov_err)
| ParsingSrcMap (name : string) (e : cov_err).

(** ** Byte code *)

(** [vm.OpCode.IsPush] and the constant [vm.PUSH0]. *)
Class OpCodes := { IsPush : Z → bool; PUSH0 : Z }.
Class OpCodesLaws `{OpCodes} :=
  IsPush_spec : ∀ op, IsPush op = true ↔ PUSH0 ≤ op ≤ PUSH0 + 32.

(** [libraryPlaceholder]: [73__$], 34 hexadecimal digits, [$__]. *)
Fixpoint skip_xdigits (n : nat) (s : string) : option string :=
  match n, s with
  | O, s => Some s
  | S n, String c s => if is_xdigit c then skip_xdigits n s else None
  | S _, EmptyString => None
  end.

Definition match_placeholder (s : string) : option string :=
  s ← cut_prefix "73__$" s; s ← skip_xdigits 34 s; cut_prefix "$__" s.

(** [ReplaceAllString]: leftmost matches, one after the other. *)
Fixpoint ReplaceAllString (fuel : nat) (s repl : string) : string :=
  match fuel, s with
  | O, _ | _, EmptyString => s
  | S fuel, String c s' =>
      match match_placeholder s with
      | Some rest => repl +:+ ReplaceAllString fuel rest repl
      | None => String c (ReplaceAllString fuel s' repl)
      end
  end.

Fixpoint has_placeholder (s : string) : bool :=
  match s with
  | EmptyString => false
  | String _ s' => bool_decide (is_Some (match_placeholder s)) || has_placeholder s'
  end.

Definition pushZeroAddress : string :=
  "730000000000000000000000000000000000000000".

Abbreviation pcToInstruction := (gmap Z nat).

(** The loop over the program counter; each round consumes a byte of code. *)
Fixpoint parse_loop `{OpCodes} (fuel : nat) (code : bytes) (pc : Z) (instruction : nat)
    (instructions : pcToInstruction) (opCodes : list Z) : pcToInstruction * list Z :=
  match fuel with
  | O => (instructions, opCodes)
  | S fuel =>
      match code !! Z.to_nat pc with
      | None => (instructions, opCodes)
      | Some c =>
          parse_loop fuel code (if IsPush c then pc + (c - PUSH0) + 1 else pc + 1)
            (S instruction) (<[pc := instruction]> instructions) (opCodes ++ [c])
      end
  end.

Definition parseCode `{OpCodes} (RuntimeCode : string) : outcome cov_err (pcToInstruction * list Z) :=
  let rawCode := TrimPrefix "0x" RuntimeCode in
  let rawCode := ReplaceAllString (String.length rawCode) rawCode pushZeroAddress in
  match DecodeString rawCode with
  | None => Fail DecodeError
  | Some code => Ret (parse_loop (length code) code 0 0 ∅ [])
  end.

(** ** Source maps *)

Record Location := mkLocation {
  InstructionNumber : nat; OpCode : Z; FileIdx : Z; Source : string;
  Start : Z; Length : Z; Line : Z; Col : Z; EndLine : Z; EndCol : Z;
  Jump : string; ModifierDepth : Z
}.

(** [offset.Mapper] of a file's contents: its length, and zero-based lines and
    columns of offsets within it. *)
Class Mapper := {
  mapper_Len : string → Z;
  LineAndColumn : string → Z → option (Z * Z);
}.

Record sourceFile := mkSourceFile { contents : string; isExternal : bool }.

Definition nMappingFields : nat := 5.

(** The fields of a node, five of them. *)
Abbreviation srcMapNode := (list string).

(** [copy(curr[:], fields)]: the rest of [curr] stays. *)
Definition copy_fields (curr fields : srcMapNode) : srcMapNode :=
  take nMappingFields fields ++ drop (length fields) curr.

(** The inner loop over [j]: both arrays afterwards. *)
Definition merge_field (last curr : string) : string :=
  if decide (curr = EmptyString) then last else curr.

Fixpoint decompress (last curr : srcMapNode) (instrs : list string) : list srcMapNode :=
  match instrs with
  | [] => []
  | instr :: instrs =>
      let curr := copy_fields curr (Split colon instr) in
      let merged := zip_with merge_field last curr in
      merged :: decompress merged merged instrs
  end.

Definition zeroNode : srcMapNode := replicate nMappingFields EmptyString.

Definition MaxInt64 : Z := 2 ^ 63 - 1.

Definition parse_field (f raw : string) : outcome cov_err Z :=
  match Atoi raw with Some n => Ret n | None => Fail (ParseField f raw) end.

(** The map literal keyed by offsets: one entry when they coincide, for the end.
    Go visits two entries in either order, which only decides the error reported
    when both fail. *)
Definition set_lines `{Mapper} (text : string) (file : string) (start stop : Z) (loc : Location)
    : outcome cov_err Location :=
  let lookup (o : Z) := match LineAndColumn text o with
    | Some lc => Ret lc | None => Fail (LineAndColumnErr o file) end in
  loc ← (if decide (start = stop) then Ret loc
         else '(l, c) ← lookup start;
              Ret (mkLocation (InstructionNumber loc) (OpCode loc) (FileIdx loc) (Source loc)
                (Start loc) (Length loc) (l + 1) (c + 1) (EndLine loc) (EndCol loc)
                (Jump loc) (ModifierDepth loc)));
  '(l, c) ← lookup stop;
  Ret (mkLocation (InstructionNumber loc) (OpCode loc) (FileIdx loc) (Source loc)
    (Start loc) (Length loc) (Line loc) (Col loc) (l + 1) (c + 1) (Jump loc) (ModifierDepth loc)).

(** An unregistered source file is a nil pointer. *)
Definition locationFromNode `{Mapper} (sourceCode : gmap string sourceFile) (node : srcMapNode)
    (sourceList : list string) : outcome cov_err Location :=
  start ← parse_field "s" (node !!! 0%nat);
  len ← parse_field "l" (node !!! 1%nat);
  fileIdx ← parse_field "f" (node !!! 2%nat);
  modDepth ← parse_field "m" (node !!! 4%nat);
  let fileIdx := if (start <? 0) || (len <? 0) || (fileIdx <? 0) then MaxInt64 else fileIdx in
  let loc := mkLocation 0 0 fileIdx EmptyString start len 0 0 0 0 (node !!! 3%nat) modDepth in
  if Z.of_nat (length sourceList) <=? fileIdx then Ret loc
  else
    let file := sourceList !!! Z.to_nat fileIdx in
    let loc := mkLocation 0 0 fileIdx file start len 0 0 0 0 (node !!! 3%nat) modDepth in
    c ← or_panic (sourceCode !! file);
    if mapper_Len (contents c) =? 0 then Ret loc
    else set_lines (contents c) file start (i64 (start + len)) loc.

Definition with_instruction (i : nat) (loc : Location) : Location :=
  mkLocation i (OpCode loc) (FileIdx loc) (Source loc) (Start loc) (Length loc) (Line loc) (Col loc)
    (EndLine loc) (EndCol loc) (Jump loc) (ModifierDepth loc).

Definition with_opcode (op : Z) (loc : Location) : Location :=
  mkLocation (InstructionNumber loc) op (FileIdx loc) (Source loc) (Start loc) (Length loc)
    (Line loc) (Col loc) (EndLine loc) (EndCol loc) (Jump loc) (ModifierDepth loc).

Definition parseSrcMap `{Mapper} (sourceCode : gmap string sourceFile) (SrcMapRuntime : string)
    (sourceList : list string) : outcome cov_err (list Location) :=
  let nodes := decompress zeroNode zeroNode (Split semicolon SrcMapRuntime) in
  omapM (λ inode : nat * srcMapNode,
    with_instruction inode.1 <$> locationFromNode sourceCode inode.2 sourceList)
    (zip (seq 0 (length nodes)) nodes).

(** ** The registry *)

(** [sha256.Sum256] and matching against a compiled pattern of [regexp]. *)
Class Sha256 (H : Type) := Sum256 : bytes → H.
Class Regexp := { MustCompile : string → bool; MatchString : string → string → bool }.

(** What the registry uses of a [compiler.Contract]. *)
Record Contract := mkContract { Code : string; RuntimeCode : string; SrcMapRuntime : string }.

Record compiledContract := mkCompiled {
  contract : Contract;
  name : string;
  sourceList : list string;
  locations : list Location;
  instructions : pcToInstruction;
}.

Section registry.
Context {H : Type} `{Countable H, Sha256 H, Regexp, OpCodes, Mapper}.

Record registry := mkRegistry {
  sourceCode : gmap string sourceFile;
  contractsByName : gmap string compiledContract;
  contractsByHash : gmap H compiledContract;
  contractMatchers : gmap H (string * compiledContract);
  deployedContracts : gmap bytes compiledContract;
}.

Definition RegisterSourceCode (fileName text : string) (isExternal : bool) (r : registry) : registry :=
  mkRegistry (<[fileName := mkSourceFile text isExternal]> (sourceCode r)) (contractsByName r)
    (contractsByHash r) (contractMatchers r) (deployedContracts r).

(** The index [locations[i]] is out of range when the source map is shorter than
    the code. *)
Definition location (cc : option compiledContract) (pc : Z) : outcome cov_err (option Location) :=
  match cc with
  | None => Ret None
  | Some cc =>
      match instructions cc !! pc with
      | None => Ret None
      | Some i => Some <$> or_panic (locations cc !! i)
      end
  end.

Definition registerContractByRegexp (cc : compiledContract) (r : registry) : outcome cov_err registry :=
  let code := TrimPrefix "0x" (Code (contract cc)) in
  let pattern := ReplaceAllString (String.length code) code "73[[:xdigit:]]{40}" in
  if negb (MustCompile pattern) then Panic
  else Ret (mkRegistry (sourceCode r) (contractsByName r) (contractsByHash r)
         (<[Sum256 (string_bytes pattern) := (pattern, cc)]> (contractMatchers r)) (deployedContracts r)).

Definition registerContractByHash (cc : compiledContract) (r : registry) : outcome cov_err registry :=
  match DecodeString (TrimPrefix "0x" (Code (contract cc))) with
  | None => Panic
  | Some bin =>
      Ret (mkRegistry (sourceCode r) (contractsByName r) (<[Sum256 bin := cc]> (contractsByHash r))
        (contractMatchers r) (deployedContracts r))
  end.

(** The loop that copies opcodes into the locations: it indexes [opCodes] by
    location. *)
Definition set_opcodes (locs : list Location) (opCodes : list Z) : outcome cov_err (list Location) :=
  omapM (λ il : nat * Location, op ← or_panic (opCodes !! il.1); Ret (with_opcode op il.2))
    (zip (seq 0 (length locs)) locs).

(** A [Fail] is a panic whose message carries the error. *)
Definition RegisterContract (n : string) (c : Contract) (sourceList : list string) (r : registry)
    : outcome cov_err registry :=
  '(instrs, opCodes) ← map_err (ParsingRuntimeCode n) (parseCode (RuntimeCode c));
  locs ← map_err (ParsingSrcMap n) (parseSrcMap (sourceCode r) (SrcMapRuntime c) sourceList);
  locs ← set_opcodes locs opCodes;
  let cc := mkCompiled c n sourceList locs instrs in
  let r := mkRegistry (sourceCode r) (<[n := cc]> (contractsByName r)) (contractsByHash r)
             (contractMatchers r) (deployedContracts r) in
  if has_placeholder (Code c) then registerContractByRegexp cc r else registerContractByHash cc r.

Definition deploy (addr : bytes) (cc : compiledContract) (r : registry) : registry :=
  mkRegistry (sourceCode r) (contractsByName r) (contractsByHash r) (contractMatchers r)
    (<[addr := cc]> (deployedContracts r)).

(** [matchers] is the order in which Go ranges over [contractMatchers]. *)
Definition RegisterDeployedContract (matchers : list (string * compiledContract)) (addr code : bytes)
    (r : registry) : registry :=
  match contractsByHash r !! Sum256 code with
  | Some cc => deploy addr cc r
  | None =>
      match find (λ m : string * compiledContract, MatchString m.1 (EncodeToString code)) matchers with
      | Some m => deploy addr m.2 r
      | None => r
      end
  end.

Definition Source_at (r : registry) (contract : bytes) (pc : Z) : outcome cov_err (option Location) :=
  location (deployedContracts r !! contract) pc.

Definition SourceByName (r : registry) (contractName : string) (pc : Z) : outcome cov_err (option Location) :=
  location (contractsByName r !! contractName) pc.

(** ** The coverage collector *)

Record coverageCollector := mkCollector {
  contracts : list bytes;
  lineHits : gmap string (gmap Z Z);
  last_loc : Z * Z;  (* file index and line of the last location *)
}.

(** Assigning into the nil map of an unknown file panics. *)
Definition hit (f : string) (line : Z) (upd : Z → Z) (hits : gmap string (gmap Z Z))
    : outcome cov_err (gmap string (gmap Z Z)) :=
  lines ← or_panic (hits !! f);
  Ret (<[f := <[line := upd (default 0 (lines !! line))]> lines]> hits).

Fixpoint zero_lines (locs : list (list string * Location)) (hits : gmap string (gmap Z Z))
    : outcome cov_err (gmap string (gmap Z Z)) :=
  match locs with
  | [] => Ret hits
  | (files, l) :: locs =>
      if Z.of_nat (length files) <=? FileIdx l then zero_lines locs hits
      else hits ← hit (files !!! Z.to_nat (FileIdx l)) (Line l) (λ _, 0) hits; zero_lines locs hits
  end.

Definition Collector (r : registry) : outcome cov_err coverageCollector :=
  let ccs := (map_to_list (contractsByHash r)).*2 ++ ((map_to_list (contractMatchers r)).*2).*2 in
  hits ← zero_lines (ccs ≫= λ cc, pair (sourceList cc) <$> locations cc) ((λ _, ∅) <$> sourceCode r);
  Ret (mkCollector [] hits (0, 0)).

Definition CaptureState (r : registry) (pc : Z) (cc : coverageCollector)
    : outcome cov_err coverageCollector :=
  addr ← or_panic (last (contracts cc));
  loc ← Source_at r addr pc;
  match loc with
  | None => Ret cc
  | Some loc =>
      if bool_decide (Source loc = EmptyString) || (Line loc =? 0) then Ret cc
      else
        hits ← (if negb (FileIdx loc =? (last_loc cc).1) || negb (Line loc =? (last_loc cc).2)
                then hit (Source loc) (Line loc) (λ n, n + 1) (lineHits cc) else Ret (lineHits cc));
        Ret (mkCollector (contracts cc) hits (FileIdx loc, Line loc))
  end.

Inductive trace_event :=
| CaptureStart (to : bytes) (create : bool) (input : bytes)
| CaptureStep (pc : Z)
| CaptureEnter (to : bytes)
| CaptureExit.

Definition capture (matchers : list (string * compiledContract)) (r : registry)
    (cc : coverageCollector) (ev : trace_event) : outcome cov_err (registry * coverageCollector) :=
  match ev with
  | CaptureStart to create input =>
      let r := if (create : bool) then RegisterDeployedContract matchers to input r else r in
      Ret (r, mkCollector [to] (lineHits cc) (last_loc cc))
  | CaptureStep pc => cc ← CaptureState r pc cc; Ret (r, cc)
  | CaptureEnter to => Ret (r, mkCollector (contracts cc ++ [to]) (lineHits cc) (last_loc cc))
  | CaptureExit =>
      if decide (contracts cc = []) then Panic
      else Ret (r, mkCollector (removelast (contracts cc)) (lineHits cc) (last_loc cc))
  end.

Fixpoint run_trace matchers (r : registry) (cc : coverageCollector) (evs : list trace_event)
    : outcome cov_err (registry * coverageCollector) :=
  match evs with
  | [] => Ret (r, cc)
  | ev :: evs => '(r, cc) ← capture matchers r cc ev; run_trace matchers r cc evs
  end.
End registry.
Arguments registry H {_ _}.

(** ** The LCOV report *)

Definition line_le (a b : Z * Z) : Prop := a.1 ≤ b.1.
#[export] Instance line_le_dec : RelDecision line_le.
Proof. intros a b. unfold line_le. apply _. Defined.
#[export] Instance line_le_total : Total line_le.
Proof. intros a b. unfold line_le. lia. Qed.
#[export] Instance line_le_trans : Transitive line_le.
Proof. intros a b c. unfold line_le. lia. Qed.

(** The counts of a file, sorted by line. *)
Definition file_counts (lh : gmap Z Z) : list (Z * Z) := merge_sort line_le (map_to_list lh).

Definition print_count (c : Z * Z) : string := "DA:" +:+ pretty c.1 +:+ "," +:+ pretty c.2.

Definition nonZero (counts : list (Z * Z)) : nat := length (filter (λ c : Z * Z, 0 < c.2) counts).

Definition file_record (file : string) (counts : list (Z * Z)) : list string :=
  ["SF:" +:+ file; "FNF:0"; "FNH:0"]%string ++ (print_count <$> counts)
  ++ ["LH:" +:+ pretty (nonZero counts); "LF:" +:+ pretty (length counts); "end_of_record"]%string.

(** The lines of [lcovTraceFile]. *)
Definition lcovTraceFile {H} `{Countable H, Mapper} (r : registry H) (cc : coverageCollector)
    : list string :=
  let files := sort_Strings (map_to_list (sourceCode r)).*1 in
  files ≫= λ file,
    match sourceCode r !! file with
    | None => []
    | Some c =>
        if isExternal c || (mapper_Len (contents c) =? 0) then []
        else file_record file (file_counts (default ∅ (lineHits cc !! file)))
    end.

(** ** Instruction boundaries *)

Section boundaries.
Context `{OpCodesLaws}.

Definition op_width (op : Z) : Z := if IsPush op then op - PUSH0 + 1 else 1.

(** [starts code i pc]: the i-th instruction begins at [pc]. *)
Inductive starts (code : bytes) : nat → Z → Prop :=
| starts_first : code ≠ [] → starts code 0 0
| starts_next i pc op : starts code i pc → code !! Z.to_nat pc = Some op →
    pc + op_width op < Z.of_nat (length code) → starts code (S i) (pc + op_width op).

Lemma op_width_pos op : 1 ≤ op_width op ≤ 33.
Proof.
  unfold op_width. destruct (IsPush op) eqn:E; [|lia]. apply IsPush_spec in E. lia.
Qed.

Lemma starts_range code i pc : starts code i pc → 0 ≤ pc < Z.of_nat (length code).
Proof.
  induction 1 as [Hne|i pc op _ IH _ Hlt]; [destruct code; simpl in *; [done|lia]|].
  pose proof (op_width_pos op). lia.
Qed.

Lemma starts_fun code i pc pc' : starts code i pc → starts code i pc' → pc = pc'.
Proof.
  intros Hs. revert pc'. induction Hs as [|i pc op _ IH Hop _]; intros pc' Hs'.
  - by inversion Hs'.
  - inversion Hs' as [|? pc2 op2 Hs2 Hop2]; subst. apply IH in Hs2 as <-. congruence.
Qed.

Lemma starts_lt code i j pc pc' : starts code i pc → starts code j pc' → (i < j)%nat → pc < pc'.
Proof.
  intros Hi Hj. revert i pc Hi. induction Hj as [|j pc' op Hj IH Hop Hlt]; intros i pc Hi Hlt'; [lia|].
  pose proof (op_width_pos op). destruct (decide (i = j)) as [->|].
  - rewrite (starts_fun _ _ _ _ Hi Hj). lia.
  - specialize (IH i pc Hi ltac:(lia)). lia.
Qed.

(** The state of the loop after [k] instructions. *)
Definition parsed (code : bytes) (k : nat) (m : pcToInstruction) (ops : list Z) : Prop :=
  length ops = k ∧ (∀ pc i, m !! pc = Some i ↔ (i < k)%nat ∧ starts code i pc) ∧
  (∀ i pc, (i < k)%nat → starts code i pc → ops !! i = code !! Z.to_nat pc) ∧
  (∀ i, (i < k)%nat → ∃ pc, starts code i pc).

Lemma parse_loop_spec fuel code pc k m ops m' ops' :
  parse_loop fuel code pc k m ops = (m', ops') →
  parsed code k m ops → 0 ≤ pc → Z.of_nat (length code) - pc ≤ Z.of_nat fuel →
  (∀ q, starts code k q ↔ q = pc ∧ pc < Z.of_nat (length code)) →
  ∃ n, parsed code n m' ops' ∧ ∀ q, ¬ starts code n q.
Proof.
  revert pc k m ops. induction fuel as [|fuel IH]; intros pc k m ops; cbn [parse_loop].
  { intros [= <- <-] Hp Hpc Hf Hnext. exists k. split; [done|]. intros q [_ Hq]%Hnext. simpl in Hf. lia. }
  destruct (code !! Z.to_nat pc) as [c|] eqn:Ec.
  2:{ intros [= <- <-] Hp Hpc Hf Hnext. exists k. split; [done|]. intros q [_ Hq]%Hnext.
      apply lookup_ge_None in Ec. lia. }
  intros Hloop (Hlen & Hm & Ho & He) Hpc Hf Hnext.
  assert (pc < Z.of_nat (length code)) as Hlt by (apply lookup_lt_Some in Ec; lia).
  assert (starts code k pc) as Hk by (apply Hnext; done).
  replace (if IsPush c then pc + (c - PUSH0) + 1 else pc + 1) with (pc + op_width c) in Hloop
    by (unfold op_width; destruct (IsPush c); lia).
  pose proof (op_width_pos c). apply IH in Hloop; [done| |lia|lia|].
  - split; [rewrite length_app; simpl; lia|]. split; [|split].
    + intros q i. rewrite lookup_insert_Some, Hm. split.
      * intros [[<- <-]|[_ [? ?]]]; split; (done || lia).
      * intros [Hi Hs]. destruct (decide (i = k)) as [->|].
        { left. split; [|done]. by apply Hnext in Hs as [-> _]. }
        right. split; [|split; [lia|done]]. pose proof (starts_lt _ _ _ _ _ Hs Hk). lia.
    + intros i q Hi Hs. destruct (decide (i = k)) as [->|].
      * apply Hnext in Hs as [-> _]. by rewrite lookup_app_r, Hlen, Nat.sub_diag, Ec by lia.
      * rewrite lookup_app_l by lia. apply Ho; (done || lia).
    + intros i Hi. destruct (decide (i = k)) as [->|]; [by exists pc|]. apply He. lia.
  - intros q. split.
    + intros Hs. inversion Hs as [|? q' op Hs' Hop Hlt']; subst.
      apply Hnext in Hs' as [-> _]. rewrite Ec in Hop. injection Hop as ->. done.
    + intros [-> Hq]. by apply starts_next.
Qed.
End boundaries.

(** C20. Parsing byte code finds exactly the instruction boundaries: a program
    counter is in the map, with the number of its instruction, when and only when
    an instruction starts there, and the opcodes listed are those at these
    positions, in order. *)
Theorem parseCode_spec `{OpCodesLaws} RuntimeCode instrs opCodes :
  parseCode RuntimeCode = Ret (instrs, opCodes) →
  ∃ code, DecodeString (ReplaceAllString (String.length (TrimPrefix "0x" RuntimeCode))
      (TrimPrefix "0x" RuntimeCode) pushZeroAddress) = Some code ∧
    (∀ pc i, instrs !! pc = Some i ↔ starts code i pc) ∧
    (∀ pc i, starts code i pc → ∃ op, opCodes !! i = Some op ∧ code !! Z.to_nat pc = Some op) ∧
    (∀ i, (i < length opCodes)%nat → ∃ pc, starts code i pc).
Proof.
  unfold parseCode. cbv zeta. destruct (DecodeString _) as [code|]; [|done]. intros [= Hp].
  exists code. split; [done|].
  destruct (parse_loop_spec (length code) code 0 0 ∅ [] instrs opCodes Hp) as (n & (Hl & Hm & Ho & He) & Hend);
    [|lia|lia| |].
  { split; [done|]. split; [|split; lia]. intros pc i. rewrite lookup_empty. split; [done|lia]. }
  { intros q. split.
    - intros Hs. pose proof (starts_range _ _ _ Hs). inversion Hs; subst. lia.
    - intros [-> Hlt]. apply starts_first. intros ->. simpl in Hlt. lia. }
  assert (∀ i pc, starts code i pc → (i < n)%nat) as Hlt.
  { intros i pc Hs. destruct (decide (i < n)%nat) as [|Hge]; [done|exfalso].
    assert (∀ j pc, starts code j pc → (n ≤ j)%nat → ∃ q, starts code n q) as Hdown.
    { clear -Hs. induction 1 as [|j pc' op Hj IH]; intros Hn.
      - exists 0. assert (n = 0)%nat as -> by lia. by apply starts_first.
      - destruct (decide (n = S j)) as [->|]; [eexists; by eapply starts_next|]. apply IH. lia. }
    destruct (Hdown i pc Hs ltac:(lia)) as [q Hq]. by apply (Hend q). }
  split_and!.
  - intros pc i. rewrite Hm. split; [by intros []|]. intros Hs. split; [by eapply Hlt|done].
  - intros pc i Hs. pose proof (starts_range _ _ _ Hs) as Hr.
    destruct (lookup_lt_is_Some_2 code (Z.to_nat pc)) as [op Eop]; [lia|].
    exists op. split; [|done]. rewrite <-Eop. apply Ho; [by eapply Hlt|done].
  - intros i Hi. apply He. lia.
Qed.

(** ** Decompression *)

(** Field [j] of an entry of the compressed map. *)
Definition field (j : nat) (instr : string) : string :=
  default EmptyString (Split colon instr !! j).

(** What compression means: the last value given for the field so far. *)
Definition last_given (j : nat) (instrs : list string) : string :=
  default EmptyString (last (filter (λ w, w ≠ EmptyString) (field j <$> instrs))).

Lemma copy_fields_lookup last instr j : length last = nMappingFields → (j < nMappingFields)%nat →
  zip_with merge_field last (copy_fields last (Split colon instr)) !! j
  = Some (merge_field (last !!! j) (field j instr)).
Proof.
  intros Hl Hj. unfold nMappingFields in *. rewrite lookup_zip_with.
  destruct (lookup_lt_is_Some_2 last j) as [w Ew]; [lia|]. rewrite Ew.
  rewrite (list_lookup_total_correct _ _ _ Ew). simpl. unfold copy_fields, field, nMappingFields.
  destruct (Split colon instr !! j) as [c|] eqn:Ec; simpl.
  - rewrite lookup_app_l by (rewrite length_take; apply lookup_lt_Some in Ec; lia).
    by rewrite lookup_take_lt, Ec by lia.
  - apply lookup_ge_None in Ec. rewrite lookup_app_r, lookup_drop by (rewrite length_take; lia).
    rewrite length_take. replace (length (Split colon instr) + (j - 5 `min` length (Split colon instr)))%nat with j by lia.
    rewrite Ew. simpl. unfold merge_field. by repeat case_decide.
Qed.

Lemma length_merged last instr : length last = nMappingFields →
  length (zip_with merge_field last (copy_fields last (Split colon instr))) = nMappingFields.
Proof.
  intros Hl. rewrite length_zip_with, Hl. unfold copy_fields.
  rewrite length_app, length_take, length_drop. unfold nMappingFields in *. lia.
Qed.

Lemma last_given_snoc j instrs instr :
  last_given j (instrs ++ [instr]) = merge_field (last_given j instrs) (field j instr).
Proof.
  unfold last_given, merge_field. rewrite fmap_app, filter_app. simpl.
  rewrite filter_cons, filter_nil. destruct (decide (field j instr = EmptyString)) as [E|E].
  - rewrite decide_False by (intros H; by apply H). by rewrite app_nil_r.
  - rewrite decide_True by done. by rewrite last_snoc.
Qed.

Lemma decompress_lookup prev instrs : ∀ last, length last = nMappingFields →
  (∀ j, (j < nMappingFields)%nat → last !!! j = last_given j prev) →
  length (decompress last last instrs) = length instrs ∧
  ∀ i j, (i < length instrs)%nat → (j < nMappingFields)%nat →
    ∃ node, decompress last last instrs !! i = Some node ∧
      node !!! j = last_given j (prev ++ take (S i) instrs).
Proof.
  revert prev. induction instrs as [|instr instrs IH]; intros prev last Hl Hlast; [split; [done|simpl; lia]|].
  cbn [decompress]. set (merged := zip_with _ _ _).
  assert (∀ j, (j < nMappingFields)%nat → merged !!! j = last_given j (prev ++ [instr])) as Hm.
  { intros j Hj. apply list_lookup_total_correct. unfold merged.
    rewrite copy_fields_lookup, Hlast by done. by rewrite last_given_snoc. }
  destruct (IH (prev ++ [instr]) merged) as [IHl IHi]; [by apply length_merged|done|].
  split; [simpl; by rewrite IHl|]. intros [|i] j Hi Hj.
  - exists merged. split; [done|]. simpl. rewrite take_0. by apply Hm.
  - destruct (IHi i j) as (node & Hn & Hv); [simpl in Hi; lia|done|].
    exists node. split; [done|]. rewrite Hv. by rewrite <-app_assoc.
Qed.

(** Decompressing a source map gives one node per entry, and each field of a
    node is the last value that the map gave for this field up to that entry (empty
    when it gave none). *)
Theorem decompress_spec instrs :
  length (decompress zeroNode zeroNode instrs) = length instrs ∧
  ∀ i j, (i < length instrs)%nat → (j < nMappingFields)%nat →
    ∃ node, decompress zeroNode zeroNode instrs !! i = Some node ∧
      node !!! j = last_given j (take (S i) instrs).
Proof.
  apply (decompress_lookup [] instrs zeroNode); [done|]. intros j Hj.
  unfold nMappingFields in Hj. do 5 (destruct j as [|j]; [done|]). lia.
Qed.

(** ** Registered contracts *)

Lemma parseSrcMap_numbers `{Mapper} sc m srcs locs i l :
  parseSrcMap sc m srcs = Ret locs → locs !! i = Some l → InstructionNumber l = i.
Proof.
  unfold parseSrcMap. cbv zeta. rewrite omapM_Ret. intros HF Hl.
  destruct (Forall2_lookup_r _ _ _ _ _ HF Hl) as ([k node] & Hz & He).
  rewrite lookup_zip_with in Hz. apply bind_Some in Hz as (k' & [-> _]%lookup_seq & Hz).
  apply bind_Some in Hz as (node' & _ & [= <- ->]).
  simpl in He. destruct (locationFromNode _ _ _); cbn [fmap outcome_fmap] in He; [|done|done].
  by injection He as <-.
Qed.

Lemma set_opcodes_spec locs ops locs' : set_opcodes locs ops = Ret locs' →
  (length locs ≤ length ops)%nat ∧
  ∀ i, locs' !! i = (λ l, with_opcode (ops !!! i) l) <$> locs !! i.
Proof.
  unfold set_opcodes. rewrite omapM_Ret. intros HF.
  assert (∀ i, match locs !! i with
    | Some l => ∃ op, ops !! i = Some op ∧ locs' !! i = Some (with_opcode op l)
    | None => locs' !! i = None end) as Hi.
  { intros i. assert (zip (seq 0 (length locs)) locs !! i = pair i <$> locs !! i) as Hz.
    { rewrite lookup_zip_with. destruct (locs !! i) as [l|] eqn:El; simpl.
      - apply lookup_lt_Some in El. by rewrite lookup_seq_lt.
      - apply lookup_ge_None in El. by rewrite lookup_seq_ge. }
    destruct (locs !! i) as [l|] eqn:El; simpl in Hz.
    - destruct (Forall2_lookup_l _ _ _ _ _ HF Hz) as (l' & Hl' & He). simpl in He.
      destruct (ops !! i) as [op|]; [|done]. injection He as <-. by exists op.
    - destruct (locs' !! i) as [l'|] eqn:El'; [|done].
      destruct (Forall2_lookup_r _ _ _ _ _ HF El') as (x & Hx & _). congruence. }
  split.
  - destruct (decide (length locs ≤ length ops)%nat) as [|Hlt]; [done|exfalso].
    destruct (lookup_lt_is_Some_2 locs (length ops)) as [l El]; [lia|].
    specialize (Hi (length ops)). rewrite El in Hi. destruct Hi as (op & Hop & _).
    apply lookup_lt_Some in Hop. lia.
  - intros i. specialize (Hi i). destruct (locs !! i) as [l|]; simpl; [|done].
    destruct Hi as (op & Hop & ->). by rewrite (list_lookup_total_correct _ _ _ Hop).
Qed.

(** C21. After [RegisterContract], looking a program counter up by the contract's
    name yields nothing off the instruction boundaries; on the boundary of the
    i-th instruction it yields the i-th location of the source map, numbered i and
    carrying the opcode at that position, and panics when the map is too short.
    A contract without library placeholders that is then deployed with its own
    code answers by address exactly as by name. *)
Theorem RegisterContract_Source {H} `{Countable H, Sha256 H, Regexp, OpCodes, Mapper}
    n c srcs (r r' : registry H) matchers addr :
  RegisterContract n c srcs r = Ret r' →
  ∃ instrs opCodes locs, parseCode (RuntimeCode c) = Ret (instrs, opCodes) ∧
    parseSrcMap (sourceCode r) (SrcMapRuntime c) srcs = Ret locs ∧
    (length locs ≤ length opCodes)%nat ∧
    (∀ pc, SourceByName r' n pc =
      match instrs !! pc with
      | None => Ret None
      | Some i => match locs !! i with
          | Some l => Ret (Some (with_opcode (opCodes !!! i) l))
          | None => Panic end
      end) ∧
    (∀ i l, locs !! i = Some l → InstructionNumber l = i) ∧
    (has_placeholder (Code c) = false →
      ∀ bin pc, DecodeString (TrimPrefix "0x" (Code c)) = Some bin →
        Source_at (RegisterDeployedContract matchers addr bin r') addr pc = SourceByName r' n pc).
Proof.
  unfold RegisterContract. destruct (parseCode (RuntimeCode c)) as [[instrs opCodes]| |]; [|done|done].
  cbn [map_err mbind outcome_mbind].
  destruct (parseSrcMap _ _ _) as [locs| |] eqn:Hmap; [|done|done]. cbn [map_err mbind outcome_mbind].
  destruct (set_opcodes locs opCodes) as [locs'| |] eqn:Hops; [|done|done]. cbn [mbind outcome_mbind].
  apply set_opcodes_spec in Hops as [Hlen Hops]. cbv zeta.
  set (cc := mkCompiled c n srcs locs' instrs). intros Hr.
  assert (contractsByName r' !! n = Some cc) as Hn.
  { unfold registerContractByRegexp, registerContractByHash in Hr.
    destruct (has_placeholder (Code c)); [destruct (negb _); [done|]|destruct (DecodeString _); [|done]];
      injection Hr as <-; simpl; by rewrite lookup_insert_eq. }
  exists instrs, opCodes, locs. split; [done|]. split; [done|]. split; [done|]. split; [|split].
  - intros pc. unfold SourceByName. rewrite Hn. simpl. destruct (instrs !! pc) as [i|]; [|done].
    rewrite Hops. by destruct (locs !! i).
  - intros i l. by eapply parseSrcMap_numbers.
  - intros Hp bin pc Hbin. rewrite Hp in Hr. unfold registerContractByHash in Hr. simpl in Hr.
    rewrite Hbin in Hr. injection Hr as <-. unfold RegisterDeployedContract. simpl.
    rewrite lookup_insert_eq. unfold Source_at, SourceByName. simpl. by rewrite !lookup_insert_eq.
Qed.

(** A location inside a registered file has the one-based line and column of
    its end; those of its start are set only when it is not empty: an empty range
    leaves them at zero, below every line. *)
Theorem locationFromNode_lines `{Mapper} sc node srcs loc file c :
  locationFromNode sc node srcs = Ret loc → FileIdx loc < Z.of_nat (length srcs) →
  srcs !! Z.to_nat (FileIdx loc) = Some file → sc !! file = Some c → mapper_Len (contents c) ≠ 0 →
  Source loc = file ∧
  (∃ l k, LineAndColumn (contents c) (i64 (Start loc + Length loc)) = Some (l, k) ∧
    EndLine loc = l + 1 ∧ EndCol loc = k + 1) ∧
  (if decide (Start loc = i64 (Start loc + Length loc)) then Line loc = 0 ∧ Col loc = 0
   else ∃ l k, LineAndColumn (contents c) (Start loc) = Some (l, k) ∧
     Line loc = l + 1 ∧ Col loc = k + 1).
Proof.
  unfold locationFromNode, parse_field.
  destruct (Atoi (node !!! 0%nat)) as [start|]; [|done].
  destruct (Atoi (node !!! 1%nat)) as [len|]; [|done].
  destruct (Atoi (node !!! 2%nat)) as [fi|]; [|done].
  destruct (Atoi (node !!! 4%nat)) as [md|]; [|done]. cbn [mbind outcome_mbind]. cbv zeta.
  set (idx := if (start <? 0) || (len <? 0) || (fi <? 0) then MaxInt64 else fi). destruct (Z.leb_spec (Z.of_nat (length srcs)) idx) as [Hle|Hlt].
  { intros [= <-]. simpl. lia. }
  destruct (sc !! (srcs !!! Z.to_nat idx)) as [c'|] eqn:Ec; [|done]. cbn [or_panic mbind outcome_mbind].
  destruct (Z.eqb_spec (mapper_Len (contents c')) 0) as [E0|Hne].
  { intros [= <-]. simpl. intros _ Hf Hc Hne. apply list_lookup_total_correct in Hf.
    rewrite Hf, Hc in Ec. injection Ec as <-. done. }
  unfold set_lines. case_decide as Eq; cbn [mbind outcome_mbind].
  - destruct (LineAndColumn (contents c') _) as [[l k]|] eqn:El; [|done]. cbn [mbind outcome_mbind].
    intros [= <-]. simpl. intros _ Hf Hc _. apply list_lookup_total_correct in Hf as Hf'.
    rewrite Hf', Hc in Ec. injection Ec as <-. split; [done|]. split; [by exists l, k|].
    by rewrite decide_True.
  - destruct (LineAndColumn (contents c') start) as [[l k]|] eqn:El; [|done]. cbn [mbind outcome_mbind].
    destruct (LineAndColumn (contents c') (i64 _)) as [[l' k']|] eqn:El'; [|done]. cbn [mbind outcome_mbind].
    intros [= <-]. simpl. intros _ Hf Hc _. apply list_lookup_total_correct in Hf as Hf'.
    rewrite Hf', Hc in Ec. injection Ec as <-. split; [done|]. split; [by exists l', k'|].
    rewrite decide_False by done. by exists l, k.
Qed.

(** ** Traces *)

Section traces.
Context {H : Type} `{Countable H, Sha256 H, Regexp, OpCodes, Mapper}.
Context (matchers : list (string * compiledContract)).

(** Steps and complete calls, in any nesting: what the EVM reports of the execution of a
    contract, inside the [CaptureStart] of a transaction or the [CaptureEnter] of a call. *)
Inductive balanced : list trace_event → Prop :=
| balanced_nil : balanced []
| balanced_step pc evs : balanced evs → balanced (CaptureStep pc :: evs)
| balanced_call to evs evs' : balanced evs → balanced evs' →
    balanced (CaptureEnter to :: evs ++ CaptureExit :: evs').

Lemma run_trace_app (r : registry H) cc evs evs' :
  run_trace matchers r cc (evs ++ evs')
  = ('(r, cc) ← run_trace matchers r cc evs; run_trace matchers r cc evs').
Proof.
  revert r cc. induction evs as [|ev evs IH]; intros r cc; [done|]. cbn [run_trace app].
  destruct (capture matchers r cc ev) as [[r1 cc1]| |]; cbn [mbind outcome_mbind]; [apply IH|done|done].
Qed.

(** The hits of a line, none if it was never hit. *)
Definition hits_of (cc : coverageCollector) (f : string) (line : Z) : Z := default 0 (lineHits cc !! f ≫= (.!! line)).

(** The collector after some steps: the same contracts and files, and each line as often hit
    as before or a few times more. *)
Definition grown (n : nat) (cc cc' : coverageCollector) : Prop :=
  contracts cc' = contracts cc ∧ dom (lineHits cc') = dom (lineHits cc) ∧
  ∀ f line, hits_of cc f line ≤ hits_of cc' f line ≤ hits_of cc f line + Z.of_nat n.

Lemma grown_refl cc : grown 0 cc cc.
Proof. split_and!; [done..|]. intros f line. lia. Qed.

Lemma grown_trans n n' cc cc' cc'' : grown n cc cc' → grown n' cc' cc'' → grown (n + n') cc cc''.
Proof.
  intros (C1 & D1 & H1') (C2 & D2 & H2'). split_and!; [congruence..|]. intros f line.
  specialize (H1' f line). specialize (H2' f line). lia.
Qed.

(** What makes a step at [pc] in the contract [addr] panic: its location is beyond the
    locations of the source map, or in a file that the collector does not know. *)
Definition unlocated (r : registry H) (cc : coverageCollector) (addr : bytes) (pc : Z) : Prop :=
  Source_at r addr pc = Panic ∨ ∃ loc, Source_at r addr pc = Ret (Some loc) ∧ Source loc ∉ dom (lineHits cc).

Lemma CaptureState_spec (r : registry H) pc cc addr : last (contracts cc) = Some addr →
  match CaptureState r pc cc with
  | Ret cc' => grown 1 cc cc'
  | Fail _ => False
  | Panic => unlocated r cc addr pc
  end.
Proof.
  intros Ha. assert (grown 1 cc cc) as Hrefl by (split_and!; [done..|intros f line; lia]).
  unfold CaptureState. rewrite Ha. cbn [or_panic mbind outcome_mbind].
  destruct (Source_at r addr pc) as [[loc|]|e|] eqn:Es; cbn [mbind outcome_mbind]; [|done| |by left].
  2: { unfold Source_at, location in Es. destruct (deployedContracts r !! addr) as [c|]; [|done].
       destruct (instructions c !! pc) as [i|]; [|done]. by destruct (locations c !! i). }
  destruct (_ || _); [done|]. destruct (_ || _); cbn [mbind outcome_mbind]; [|done].
  unfold hit. destruct (lineHits cc !! Source loc) as [lines|] eqn:El; cbn [or_panic mbind outcome_mbind].
  2: { right. exists loc. split; [done|]. by apply not_elem_of_dom. }
  split; [done|]. split; [simpl; rewrite dom_insert_L; apply elem_of_dom_2 in El; set_solver|].
  intros f line. unfold hits_of. simpl. destruct (decide (f = Source loc)) as [->|Hf]; [|rewrite lookup_insert_ne by done; lia].
  rewrite lookup_insert_eq, El. simpl. destruct (decide (line = Line loc)) as [->|Hline].
  - rewrite lookup_insert_eq. simpl. lia.
  - rewrite lookup_insert_ne by done. lia.
Qed.

Definition is_step (ev : trace_event) : bool :=
  match ev with CaptureStep _ => true | _ => false end.

Definition steps (evs : list trace_event) : nat := length (filter (λ ev, is_step ev = true) evs).

(** The contract that executes a step of a trace is at the top of the stack. *)
Lemma balanced_run evs : balanced evs → ∀ (r : registry H) cc, contracts cc ≠ [] →
  match run_trace matchers r cc evs with
  | Ret (r', cc') => r' = r ∧ grown (steps evs) cc cc'
  | Fail _ => False
  | Panic => ∃ addr pc, CaptureStep pc ∈ evs ∧ (last (contracts cc) = Some addr ∨ CaptureEnter addr ∈ evs) ∧ unlocated r cc addr pc
  end.
Proof.
  induction 1 as [|pc evs _ IH|to evs evs' _ IH1 _ IH2]; intros r cc Hne; cbn [run_trace].
  - split; [done|]. apply grown_refl.
  - destruct (last (contracts cc)) as [addr|] eqn:Ha; [|by apply last_None in Ha].
    unfold capture. pose proof (CaptureState_spec r pc cc addr Ha) as Hs.
    destruct (CaptureState r pc cc) as [cc1|e|]; cbn [mbind outcome_mbind]; [|done|].
    2: { exists addr, pc. split; [left|]. auto. }
    assert (contracts cc1 = contracts cc ∧ dom (lineHits cc1) = dom (lineHits cc)) as [Ec Ed] by (by destruct Hs as (? & ? & _)).
    specialize (IH r cc1 ltac:(by rewrite Ec)). destruct (run_trace matchers r cc1 evs) as [[r' cc']|e|]; [|done|].
    + destruct IH as [-> Hg]. split; [done|]. unfold steps in *. rewrite filter_cons_True by done.
      by apply (grown_trans 1 _ cc cc1).
    + destruct IH as (addr' & pc' & Hin & Hat & Hu). rewrite Ec, Ha in Hat. exists addr', pc'.
      split; [by right|]. split; [destruct Hat; [by left|right; by right]|]. unfold unlocated in *. by rewrite <-Ed.
  - cbn [capture mbind outcome_mbind]. rewrite run_trace_app. set (cc0 := mkCollector _ _ _).
    specialize (IH1 r cc0 ltac:(simpl; by destruct (contracts cc))).
    destruct (run_trace matchers r cc0 evs) as [[r1 cc1]|e|]; cbn [mbind outcome_mbind]; [|done|].
    2: { destruct IH1 as (addr & pc & Hin & Hat & Hu). exists addr, pc.
         split; [right; apply elem_of_app; by left|]. split; [|done]. right. simpl in Hat. rewrite last_snoc in Hat.
         destruct Hat as [[= ->]|Hat]; [left|right; apply elem_of_app; by left]. }
    destruct IH1 as [-> (Ec & Ed & Hh)]. simpl in Ec, Ed. cbn [run_trace capture].
    rewrite decide_False by (rewrite Ec; by destruct (contracts cc)). cbn [mbind outcome_mbind].
    rewrite Ec, removelast_last. set (cc2 := mkCollector _ _ _).
    specialize (IH2 r cc2 Hne). destruct (run_trace matchers r cc2 evs') as [[r' cc']|e|]; [|done|].
    + destruct IH2 as [-> Hg]. split; [done|].
      replace (steps _) with (steps evs + steps evs')%nat.
      * apply (grown_trans _ _ cc cc2); [|done]. split; [done|]. by split.
      * unfold steps. rewrite filter_cons_False, filter_app, length_app by done. by rewrite (filter_cons_False _ CaptureExit).
    + destruct IH2 as (addr & pc & Hin & Hat & Hu). exists addr, pc.
      split; [right; apply elem_of_app; right; by right|]. split; [|unfold unlocated in *; by rewrite <-Ed].
      destruct Hat as [?|Hat]; [by left|right; right; apply elem_of_app; right; by right].
Qed.
End traces.

(** C34. The trace of a transaction, from its start through calls in any nesting, whatever the
    collector saw before: a step is never taken, and a call never left, without a contract on
    the stack, so the only panics are of steps whose location is beyond the source map of a
    contract that was called, or in a file that was registered after the collector was made.
    Otherwise the contract of the transaction is left on the stack, a created contract is
    registered and nothing else, and no line loses hits or gains more than one per executed
    instruction. *)
Theorem transaction_trace {H} `{Countable H, Sha256 H, Regexp, OpCodes, Mapper}
    matchers (r : registry H) cc to (create : bool) input evs :
  balanced evs →
  let r0 := if create then RegisterDeployedContract matchers to input r else r in
  match run_trace matchers r cc (CaptureStart to create input :: evs) with
  | Ret (r', cc') => r' = r0 ∧ contracts cc' = [to] ∧ dom (lineHits cc') = dom (lineHits cc) ∧
      ∀ f line, hits_of cc f line ≤ hits_of cc' f line ≤ hits_of cc f line + Z.of_nat (steps evs)
  | Fail _ => False
  | Panic => ∃ addr pc, CaptureStep pc ∈ evs ∧ (addr = to ∨ CaptureEnter addr ∈ evs) ∧ unlocated r0 cc addr pc
  end.
Proof.
  intros Hb r0. cbn [run_trace capture mbind outcome_mbind]. fold r0.
  pose proof (balanced_run matchers evs Hb r0 (mkCollector [to] (lineHits cc) (last_loc cc)) ltac:(done)) as Hrun.
  destruct (run_trace _ _ _ _) as [[r' cc']|e|]; [|done|].
  - destruct Hrun as [-> (Hc & Hd & Hh)]. by split_and!.
  - destruct Hrun as (addr & pc & Hin & Hat & Hu). exists addr, pc. split; [done|]. split; [|done].
    destruct Hat as [[= ->]|?]; auto.
Qed.

(** ** The report *)

(** The LCOV record of a file lists the lines of its hit table in increasing
    order, each once with its count, and the numbers of hit lines and of lines that
    it declares are right. *)
Theorem file_counts_spec lh :
  StronglySorted line_le (file_counts lh) ∧ NoDup (file_counts lh).*1 ∧
  (∀ line n, (line, n) ∈ file_counts lh ↔ lh !! line = Some n) ∧
  length (file_counts lh) = size lh ∧
  nonZero (file_counts lh) = size (filter (λ kv : Z * Z, 0 < kv.2) lh).
Proof.
  unfold file_counts, nonZero. pose proof (merge_sort_Permutation line_le (map_to_list lh)) as Hp.
  split_and!.
  - apply StronglySorted_merge_sort; apply _.
  - rewrite Hp. apply NoDup_fst_map_to_list.
  - intros line n. rewrite Hp. apply elem_of_map_to_list.
  - rewrite Hp. apply length_map_to_list.
  - rewrite Hp, <-length_map_to_list. apply Permutation_length.
    apply NoDup_Permutation.
    + apply NoDup_filter, NoDup_map_to_list.
    + apply NoDup_map_to_list.
    + intros [line n]. rewrite list_elem_of_filter, !elem_of_map_to_list, map_lookup_filter_Some. naive_solver.
Qed.

(** ** Examples *)

#[local] Instance evm_opcodes : OpCodes := {
  IsPush op := (95 <=? op) && (op <=? 127);
  PUSH0 := 95;
}.

#[local] Instance evm_opcodes_laws : OpCodesLaws.
Proof. intros op. simpl. rewrite andb_true_iff, !Z.leb_le. lia. Qed.

#[local] Instance plain_sha : Sha256 bytes := λ b, b.
#[local] Instance plain_regexp : Regexp := {
  MustCompile _ := true;
  MatchString p s := bool_decide (p = s);
}.

(** A file of one line. *)
#[local] Instance one_line : Mapper := {
  mapper_Len s := Z.of_nat (String.length s);
  LineAndColumn s o := if decide (0 ≤ o ≤ Z.of_nat (String.length s)) then Some (0, o) else None;
}.

Definition example_code : string := "0x6001600201".
Definition example_instructions : pcToInstruction := {[0 := 0%nat; 2 := 1%nat; 4 := 2%nat]}.

Lemma parseCode_spec_witness :
  ∃ code, DecodeString "6001600201"%string = Some code ∧
    (∀ pc i, example_instructions !! pc = Some i ↔ starts code i pc) ∧
    (∀ pc i, starts code i pc → ∃ op, [96; 96; 1] !! i = Some op ∧ code !! Z.to_nat pc = Some op) ∧
    (∀ i, (i < 3)%nat → ∃ pc, starts code i pc).
Proof. refine (parseCode_spec example_code example_instructions [96; 96; 1] _). by vm_compute. Defined.

Definition example_contract : Contract := mkContract "0x00" example_code "0:4:0:-:0;:2;4:0".

Definition example_registry : registry bytes :=
  RegisterSourceCode "a.sol" "contract" false (mkRegistry ∅ ∅ ∅ ∅ ∅).

Definition example_registered : registry bytes :=
  match RegisterContract "a.sol:A" example_contract ["a.sol"%string] example_registry with
  | Ret r => r | _ => example_registry end.

Lemma RegisterContract_Source_witness :
  RegisterContract "a.sol:A" example_contract ["a.sol"%string] example_registry = Ret example_registered ∧
  ∃ instrs opCodes locs, parseCode example_code = Ret (instrs, opCodes) ∧
    parseSrcMap (sourceCode example_registry) (SrcMapRuntime example_contract) ["a.sol"%string] = Ret locs ∧
    (length locs ≤ length opCodes)%nat.
Proof.
  assert (RegisterContract "a.sol:A" example_contract ["a.sol"%string] example_registry
    = Ret example_registered) as E by (by vm_compute).
  split; [exact E|].
  destruct (RegisterContract_Source "a.sol:A" example_contract ["a.sol"%string] example_registry
    example_registered [] [] E) as (i & o & l & H1 & H2 & H3 & _).
  exists i, o, l. exact (conj H1 (conj H2 H3)).
Defined.

(** The third entry of the example is empty: its line is zero. *)
Lemma locationFromNode_lines_witness :
  ∃ loc, locationFromNode (sourceCode example_registry) ["4"; "0"; "0"; "-"; "0"]%string ["a.sol"%string] = Ret loc ∧
    Source loc = "a.sol"%string ∧ Line loc = 0 ∧ Col loc = 0.
Proof.
  eexists. split; [by vm_compute|].
  destruct (locationFromNode_lines (sourceCode example_registry) ["4"; "0"; "0"; "-"; "0"]%string
    ["a.sol"%string] (mkLocation 0 0 0 "a.sol" 4 0 0 0 1 5 "-" 0) "a.sol" (mkSourceFile "contract" false))
    as (W1 & _ & W2); [by vm_compute|done|done|done|done|]. by split.
Defined.

Definition example_collector : coverageCollector :=
  mkCollector [[9]; [9]] {["a.sol"%string := {[1 := 0]}]} (0, 0).

Lemma transaction_trace_witness :
  let evs := [CaptureStep 0; CaptureEnter [8]; CaptureStep 0; CaptureExit; CaptureStep 2] in
  ∃ cc', run_trace [] example_registered example_collector (CaptureStart [7] true [0] :: evs)
      = Ret (RegisterDeployedContract [] [7] [0] example_registered, cc') ∧
    contracts cc' = [[7]] ∧ 0 ≤ hits_of cc' "a.sol" 1 ≤ 3.
Proof.
  intros evs. assert (balanced evs) as Hb.
  { constructor. apply (balanced_call [8] [CaptureStep 0] [CaptureStep 2]); repeat constructor. }
  pose proof (transaction_trace [] example_registered example_collector [7] true [0] evs Hb) as W. cbv zeta in W.
  destruct (run_trace _ _ _ _) as [[r' cc']|e|] eqn:Er; [|done|by vm_compute in Er].
  destruct W as (-> & Hc & _ & Hh). exists cc'. split; [done|]. split; [done|]. exact (Hh "a.sol"%string 1).
Defined.
