(* ===== verification/Erc721.v ===== *)
(** * Erc721: the metadata server of [go/erc721], with [go/httperr]

    Token IDs ([tokenid.go]), the HTTP handlers ([server.go]), the display types
    and the JSON of metadata of [erc721.go], and the error handler of [httperr.go].
    An HTTP response is the list of writes to the [ResponseWriter]; messages are
    kept apart from the hashes that hide them. *)

From S2P Require Import Prelude GoStrings BigInt EthProto Nullable.
From stdpp Require Import gmap strings pretty.
Local Open Scope Z_scope.

(** ** Token IDs *)

(** A [TokenID] is a 32-byte array. *)
Abbreviation TokenID := (list Z).

(** [uint256.Int.Bytes32]. *)
Class Uint256Bytes := Bytes32 : Z → bytes.
Class Uint256BytesLaw `{Uint256Bytes} := Bytes32_spec : ∀ u, 0 ≤ u < 2 ^ 256 →
  length (Bytes32 u) = 32%nat ∧ Forall is_byte (Bytes32 u) ∧ SetBytes (Bytes32 u) = u.

Inductive token_err := Overflows (b : Z) | BadHex (h : string) | NoParam | NotParsed (raw : string) (base : Z).

Section token_ids.
Context `{EthCommon, Uint256Bytes, Uint256Hex}.

Definition Big (id : TokenID) : Z := SetBytes id.
Definition Uint256 (id : TokenID) : Z := (FromBig (Big id)).1.
Definition Cmp (id oID : TokenID) : comparison := Z.compare (Big id) (Big oID).
Definition TokenID_Text (id : TokenID) (base : Z) : string := Text (Big id) base.
Definition TokenID_String (id : TokenID) : string := TokenID_Text id 10.

Definition TokenIDFromUint256 (u : Z) : TokenID := Bytes32 u.
Definition TokenIDFromBig (b : Z) : outcome token_err TokenID :=
  let '(u, overflow) := FromBig b in
  if overflow then Fail (Overflows b) else Ret (TokenIDFromUint256 u).
Definition TokenIDFromHex (h : string) : outcome token_err TokenID :=
  match FromHex h with None => Fail (BadHex h) | Some u => Ret (TokenIDFromUint256 u) end.
Definition TokenIDFromUint64 (u : Z) : TokenID := TokenIDFromUint256 u.
Definition TokenIDFromInt (i : Z) : TokenID := TokenIDFromUint256 (u64 i).
End token_ids.

Section token_laws.
Context `{EthCommonLaws, Uint256BytesLaw}.

Lemma FromBig_small b : Z.abs b < 2 ^ 256 → FromBig b = (b mod 2 ^ 256, false).
Proof. intros Hb. rewrite FromBig_spec. by rewrite bool_decide_eq_false_2 by lia. Qed.
End token_laws.

(** Token IDs stand for the numbers below 2^256: a number in range becomes an ID
    that reads back as the number, in every base as text too; IDs compare like
    their numbers; what is 2^256 or more is rejected, and a negative number is
    taken for its two's complement. *)
Theorem TokenID_roundtrip `{EthCommonLaws, Uint256BytesLaw} b base : 2 ≤ base ≤ 62 →
  match TokenIDFromBig b with
  | Ret id => Z.abs b < 2 ^ 256 ∧ length id = 32%nat ∧ Big id = b mod 2 ^ 256 ∧
      Uint256 id = b mod 2 ^ 256 ∧ SetString (TokenID_Text id base) base = Some (b mod 2 ^ 256) ∧
      (∀ b' id', TokenIDFromBig b' = Ret id' →
         Cmp id id' = (b mod 2 ^ 256 ?= b' mod 2 ^ 256) ∧ (Cmp id id' = Eq → id = id'))
  | Fail e => e = Overflows b ∧ 2 ^ 256 ≤ Z.abs b
  | Panic => False
  end.
Proof.
  intros Hbase. unfold TokenIDFromBig, TokenIDFromUint256.
  assert (∀ c id, (let '(u, overflow) := FromBig c in
      if (overflow : bool) then Fail (Overflows c) else Ret (Bytes32 u)) = Ret id →
    Z.abs c < 2 ^ 256 ∧ length id = 32%nat ∧ Forall is_byte id ∧ Big id = c mod 2 ^ 256) as Hc.
  { intros c id. rewrite FromBig_spec. case_bool_decide; [done|]. intros [= <-].
    destruct (Bytes32_spec (c mod 2 ^ 256)) as (? & ? & ?); [by apply Z.mod_pos_bound|].
    split; [lia|]. by split_and!. }
  pose proof (Z.mod_pos_bound b (2 ^ 256) ltac:(done)) as Hm.
  specialize (Hc b) as Hb. rewrite FromBig_spec in Hb |- *. case_bool_decide; [split; [done|lia]|].
  destruct (Hb _ eq_refl) as (B1 & B2 & B3 & B4). split_and!; try done.
  - unfold Uint256. rewrite B4, FromBig_small by lia. by rewrite Z.mod_small by lia.
  - unfold TokenID_Text. rewrite B4. apply SetString_Text; lia.
  - intros b' id' (_ & L' & B' & E')%Hc. unfold Cmp. rewrite B4, E'. split; [done|].
    intros E%Z.compare_eq. apply SetBytes_inj; try done; [congruence|]. unfold Big in *. congruence.
Qed.

(** ** The server *)

Record Attribute := mkAttribute { TraitType : string; attr_Value : string + Z; DisplayType : Z }.

Record Metadata := mkMetadata {
  md_Name : string; Description : string; Image : string; AnimationURL : string;
  ExternalURL : string; CollectionName : string; Attributes : list Attribute
}.

Definition with_image (md : Metadata) (img : string) : Metadata :=
  mkMetadata (md_Name md) (Description md) img (AnimationURL md) (ExternalURL md) (CollectionName md)
    (Attributes md).

Definition TokenIDParam : string := "tokenId".
Definition fullTokenIDParam : string := ":tokenId".

(** [params.ByName]: the first value of the name, or the empty string. *)
Abbreviation Params := (list (string * string)).
Definition ByName (ps : Params) (name : string) : string :=
  default EmptyString (snd <$> find (λ p : string * string, bool_decide (p.1 = name)) ps).

(** The texts of errors, unprinted. *)
Inductive msg :=
| UnsupportedMethod (fnName : string)
| TokenIDMsg (e : token_err)
| NotMinted (raw : string)
| FnError (fnName : string) (id : TokenID) (e : string)
| CodeMsg (code : Z) (err : option string)
| UnsupportedCode (code : Z) (fnName : string) (id : TokenID)
| CopyError (fnName : string)
| OtherMsg (s : string).

(** [*httpError] is [HttpError]; another error type is [OtherError]. *)
Inductive http_err := HttpError (code : Z) (m : msg) | OtherError (m : msg).

Inductive body_text (D : Type) := Plain (m : msg) | SeeLog (id : D).
Arguments Plain {D} m.
Arguments SeeLog {D} id.

Inductive write (D : Type) :=
| AddContentType (ct : string)
| Body (b : string)
| Error (t : body_text D) (code : Z).
Arguments AddContentType {D} ct.
Arguments Body {D} b.
Arguments Error {D} t code.

Definition errorf (code : Z) (m : msg) : option http_err :=
  if code =? 200 then None else Some (HttpError code m).

(** The first bytes of the Keccak hash of a message, [json.Marshal] of metadata,
    and [url.URL] with its path replaced, printed. *)
Class ServerLib (D : Type) := {
  Keccak8 : msg → D;
  Marshal : Metadata → option string;
  url_String : string → string → string;
}.

(** An [io.Reader]: the bytes that it delivers, and whether it fails after them. *)
Record reader := mkBody { delivers : string; read_fails : bool }.

(** What a handler returns: metadata or an image body, either of which may be nil, the code
    and the error; or it panics. *)
Definition MetadataHandler : Type := TokenID → Params → outcome Empty_set (option Metadata * Z * option string).
Definition tokenDataFunc : Type := TokenID → Params → outcome Empty_set (option reader * string * Z * option string).

(** The connection to the client takes so many bytes of a body and then fails, or takes all. *)
Abbreviation connection := (option nat).

(** [io.Copy] to the response: what was sent, and whether all went well. *)
Definition Copy (room : connection) (body : reader) : string * bool :=
  match room with
  | Some n => if (n <? String.length (delivers body))%nat then (String.substring 0 n (delivers body), false)
              else (delivers body, negb (read_fails body))
  | None => (delivers body, negb (read_fails body))
  end.

(** A route: its path, its kind and its position among the endpoints. *)
Abbreviation route := (string * (bool * nat))%type.

(** [httprouter]: whether [GET] panics on a path, after the paths that it was given. *)
Class Router := GET_panics : list string → string → bool.
(** Paths begin with a slash, and have one handle each. *)
Class RouterLaws `{Router} :=
  GET_refuses : ∀ paths p, HasPrefix "/" p = false ∨ p ∈ paths → GET_panics paths p = true.

Record Server := mkServer {
  BaseURL : string;
  TokenIDBase : Z;
  Contract : option (Z → bool);  (* whether ownerOf succeeds *)
  MetadataPaths : list string;
  ImagePaths : list string;
}.

Section server.
Context {D : Type} `{ServerLib D, EthCommon, Uint256Bytes}.

Definition httpErrHandler (r : list (write D) * option http_err) : list (write D) :=
  let '(ws, err) := r in
  match err with
  | None => ws
  | Some (HttpError code m) =>
      if (code =? 400) || (code =? 404) then ws ++ [Error (Plain m) code]
      else ws ++ [Error (SeeLog (Keccak8 m)) code]
  | Some (OtherError m) => ws ++ [Error (SeeLog (Keccak8 m)) 500]
  end.

Definition tokenIDBase (s : Server) : Z := if TokenIDBase s =? 0 then 10 else TokenIDBase s.

(** [Ret None] is a token that does not exist. *)
Definition tokenID (s : Server) (params : Params) : outcome token_err (option TokenID) :=
  let rawID := ByName params TokenIDParam in
  if decide (rawID = EmptyString) then Fail NoParam
  else if (tokenIDBase s <? 2) || (62 <? tokenIDBase s) then Panic (* illegal number base *)
  else
    match SetString rawID (tokenIDBase s) with
    | None => Fail (NotParsed rawID (tokenIDBase s))
    | Some id =>
        match Contract s with
        | Some ownerOf => if negb (ownerOf id) then Ret None else Some <$> TokenIDFromBig id
        | None => Some <$> TokenIDFromBig id
        end
    end.

(** A copy that fails has sent a part of the body, with the code 200, before the error is
    reported; copying from a nil reader panics. *)
Definition tokenDataHandler (s : Server) (params : Params) (fnName : string)
    (fn : option tokenDataFunc) (room : connection) : outcome Empty_set (list (write D) * option http_err) :=
  match fn with
  | None => Ret ([], errorf 400 (UnsupportedMethod fnName))
  | Some fn =>
      match tokenID s params with
      | Fail e => Ret ([], errorf 500 (TokenIDMsg e))
      | Panic => Panic
      | Ret None => Ret ([], errorf 404 (NotMinted (ByName params TokenIDParam)))
      | Ret (Some id) =>
          '(body, contentType, code, err) ← fn id params;
          match err with
          | Some e => Ret ([], errorf 500 (FnError fnName id e))
          | None =>
              if code =? 200 then
                body ← or_panic body;
                let '(sent, ok) := Copy room body in
                Ret ([AddContentType contentType; Body sent], if (ok : bool) then None else errorf 500 (CopyError fnName))
              else if (code =? 400) || (code =? 404) || (code =? 500) then
                Ret ([], errorf code (CodeMsg code None))
              else Ret ([], errorf 500 (UnsupportedCode code fnName id))
          end
      end
  end.

(** [strings.ReplaceAll(path, ":tokenId", id)]. *)
Fixpoint ReplaceAll (fuel : nat) (s old new : string) : string :=
  match fuel, s with
  | O, _ | _, EmptyString => s
  | S fuel, String c s' =>
      match cut_prefix old s with
      | Some rest => new +:+ ReplaceAll fuel rest old new
      | None => String c (ReplaceAll fuel s' old new)
      end
  end.

(** Nil metadata without an error is dereferenced.  The clause without an error
    does not look at the handler's code. *)
Definition metadata_fn (s : Server) (handler : MetadataHandler) : tokenDataFunc := λ id params,
  '(md, code, err) ← handler id params;
  match err with
  | Some e => Ret (None, EmptyString, code, Some e)
  | None =>
      md ← or_panic md;
      let md :=
        match ImagePaths s with
        | p :: _ =>
            if bool_decide (Image md = EmptyString) && bool_decide (AnimationURL md = EmptyString)
            then with_image md (url_String (BaseURL s)
                   (ReplaceAll (String.length p) p fullTokenIDParam (TokenID_Text id (tokenIDBase s))))
            else md
        | [] => md
        end in
      match Marshal md with
      | None => Ret (None, EmptyString, 500, Some "json.Marshal"%string)
      | Some buf => Ret (Some (mkBody buf false), "application/json"%string, 200, None)
      end
  end.

Definition metadata (s : Server) (handler : MetadataHandler) (params : Params) (room : connection)
    : outcome Empty_set (list (write D)) :=
  httpErrHandler <$> tokenDataHandler s params "Metadata" (Some (metadata_fn s handler)) room.

Definition images (s : Server) (handler : option tokenDataFunc) (params : Params) (room : connection)
    : outcome Empty_set (list (write D)) :=
  httpErrHandler <$> tokenDataHandler s params "Image" handler room.

Fixpoint Contains (s sub : string) : bool :=
  HasPrefix sub s || match s with EmptyString => false | String _ s => Contains s sub end.


(** The calls of [GET], one after the other. *)
Fixpoint GETs `{Router} (registered : list string) (rs : list route) : outcome string (list route) :=
  match rs with
  | [] => Ret []
  | (p, h) :: rs =>
      if GET_panics registered p then Panic
      else rs ← GETs (registered ++ [p]) rs; Ret ((p, h) :: rs)
  end.

Definition Handler `{Router} (s : Server) : outcome string (list route) :=
  if forallb (λ p, Contains p fullTokenIDParam) (MetadataPaths s ++ ImagePaths s)
  then GETs [] (imap (λ i p, (p, (true, i))) (MetadataPaths s) ++ imap (λ i p, (p, (false, i))) (ImagePaths s))
  else Fail "Path must contain :tokenId"%string.

(** [http.ListenAndServe] runs until it fails with an error. *)
Definition ListenAndServe `{Router} {Err} (http_ListenAndServe : string → list route → Err)
    (s : Server) (addr : string) : outcome string Err :=
  http_ListenAndServe addr <$> Handler s.

(** *** JSON of metadata

    [Write]: the number of bytes written and the error of the writer. *)
Definition MarshalJSONTo (Write : string → Z * option string) (md : Metadata) : Z * option string :=
  match Marshal md with
  | None => (0, Some "json.Marshal(*erc721.Metadata)"%string)
  | Some buf => Write buf
  end.

(** An [Encoder] ends each value with a newline and writes nothing of a value that
    it cannot marshal; the error is dropped. *)
Definition newline : string := String (ascii_of_nat 10) EmptyString.
Definition encoded (md : Metadata) : string :=
  match Marshal md with None => EmptyString | Some buf => (buf +:+ newline)%string end.

Definition Hash {T} (Keccak256Hash : string → T) (md : Metadata) : T := Keccak256Hash (encoded md).

(** What is hashed determines the JSON; all metadata that has no JSON shares the
    hash of the empty string. *)
Lemma encoded_inj md md' : encoded md = encoded md' ↔ Marshal md = Marshal md'.
Proof.
  unfold encoded. split; [|by intros ->].
  destruct (Marshal md) as [b|], (Marshal md') as [b'|]; intros E; try done.
  - f_equal. revert b' E. induction b as [|c b IH]; intros [|c' b'] E; try done.
    + simpl in E. injection E as _ E. by destruct b'.
    + simpl in E. injection E as _ E. by destruct b.
    + injection E as <- E. f_equal. by apply IH.
  - by destruct b.
  - by destruct b'.
Qed.

Lemma Hash_failed {T} (Keccak256Hash : string → T) md md' :
  Marshal md = None → Marshal md' = None → Hash Keccak256Hash md = Hash Keccak256Hash md'.
Proof. unfold Hash, encoded. by intros -> ->. Qed.
End server.

(** ** What a client sees *)

Section responses.
Context {D : Type} `{ServerLib D, EthCommon, Uint256Bytes}.

(** One outcome per request: a body with its type, a readable client error, an
    obscured server error, or one of these after a body that could not be sent whole. *)
Definition response_ok (ws : list (write D)) : Prop :=
  (∃ ct b, ws = [AddContentType ct; Body b]) ∨
  (∃ m code, (code = 400 ∨ code = 404) ∧ ws = [Error (Plain m) code]) ∨
  (∃ m, ws = [Error (SeeLog (Keccak8 m)) 500]) ∨
  (∃ ct b m, ws = [AddContentType ct; Body b; Error (SeeLog (Keccak8 m)) 500]).

(** The code that the client gets: that of the first write with content. *)
Fixpoint status (ws : list (write D)) : Z :=
  match ws with
  | [] => 200
  | AddContentType _ :: ws => status ws
  | Body b :: ws => if decide (b = EmptyString) then status ws else 200
  | Error _ code :: _ => code
  end.

Lemma response_ok_status ws : response_ok ws → status ws ∈ [200; 400; 404; 500].
Proof.
  intros [(ct & b & ->)|[(m & code & [-> | ->] & ->)|[(m & ->)|(ct & b & m & ->)]]]; simpl;
    repeat case_decide; set_solver.
Qed.

(** What makes a request panic before a handler is asked. *)
Definition illegal_base (s : Server) (params : Params) : Prop :=
  ByName params TokenIDParam ≠ EmptyString ∧ (tokenIDBase s < 2 ∨ 62 < tokenIDBase s).

Lemma TokenIDFromBig_no_panic n : TokenIDFromBig n ≠ Panic.
Proof. unfold TokenIDFromBig. by repeat case_match. Qed.

Lemma tokenID_panics s params : tokenID s params = Panic ↔ illegal_base s params.
Proof.
  unfold tokenID, illegal_base. case_decide as Hp; [naive_solver|].
  destruct (Z.ltb_spec (tokenIDBase s) 2), (Z.ltb_spec 62 (tokenIDBase s)); simpl; try (split; [by auto|done]).
  split; [|lia]. pose proof TokenIDFromBig_no_panic as Hn. destruct (SetString _ _) as [n|]; [|done]. specialize (Hn n).
  destruct (Contract s) as [o|]; [destruct (negb (o n)); [done|]|]; by destruct (TokenIDFromBig n).
Qed.

(** A request panics or gets one response. *)
Lemma tokenDataHandler_spec s params fnName fn room :
  match tokenDataHandler s params fnName fn room with
  | Ret r => response_ok (httpErrHandler r)
  | Fail _ => False
  | Panic => ∃ f, fn = Some f ∧ (illegal_base s params ∨ ∃ id, tokenID s params = Ret (Some id) ∧
      (f id params = Panic ∨ ∃ ct, f id params = Ret (None, ct, 200, None)))
  end.
Proof.
  unfold tokenDataHandler, response_ok. destruct fn as [fn|].
  2:{ right. left. eexists _, 400. split; [by left|done]. }
  destruct (tokenID s params) as [[id|]|e|] eqn:Et.
  - destruct (fn id params) as [[[[b ct] code] [e|]]|[]|] eqn:Ef; cbn [mbind outcome_mbind].
    { right. right. left. by eexists. }
    2: { exists fn. eauto 6. }
    destruct (Z.eqb_spec code 200) as [->|].
    { destruct b as [b|]; cbn [or_panic mbind outcome_mbind]; [|exists fn; eauto 8].
      destruct (Copy room b) as [sent []]; [left; by eexists _, _|]. right. right. right. by eexists _, _, _. }
    destruct ((code =? 400) || (code =? 404) || (code =? 500)) eqn:Ec.
    + unfold errorf. rewrite (proj2 (Z.eqb_neq code 200)) by done. simpl.
      destruct ((code =? 400) || (code =? 404)) eqn:Ec'.
      * right. left. eexists _, code. split; [|done].
        apply orb_true_iff in Ec' as [?%Z.eqb_eq|?%Z.eqb_eq]; auto.
      * simpl in Ec. apply Z.eqb_eq in Ec as ->. right. right. left. by eexists.
    + right. right. left. by eexists.
  - right. left. eexists _, 404. split; [by right|done].
  - right. right. left. by eexists.
  - apply tokenID_panics in Et. exists fn. auto.
Qed.

(** When it panics. *)
Lemma tokenDataHandler_panics s params fnName f room :
  tokenDataHandler (D:=D) s params fnName (Some f) room = Panic ↔
  illegal_base s params ∨ ∃ id, tokenID s params = Ret (Some id) ∧
    (f id params = Panic ∨ ∃ ct, f id params = Ret (None, ct, 200, None)).
Proof.
  split.
  - intros Hp. pose proof (tokenDataHandler_spec s params fnName (Some f) room) as Hs. rewrite Hp in Hs.
    by destruct Hs as (f' & [= <-] & ?).
  - unfold tokenDataHandler. intros [->%tokenID_panics|(id & -> & [->|[ct ->]])]; done.
Qed.

Lemma metadata_fn_panics s handler id params :
  (metadata_fn s handler id params = Panic ↔ handler id params = Panic ∨ ∃ code, handler id params = Ret (None, code, None)) ∧
  ∀ ct, metadata_fn s handler id params ≠ Ret (None, ct, 200, None).
Proof.
  unfold metadata_fn. destruct (handler id params) as [[[md code] [e|]]|[]|]; cbn [mbind outcome_mbind]; [naive_solver| |naive_solver].
  destruct md as [md|]; cbn [or_panic mbind outcome_mbind]; [|split; [|done]; split; [|done]; eauto].
  destruct (Marshal _); naive_solver.
Qed.

(** When the handler of a request panics: the base of the server is illegal, or the endpoint
    was asked and panicked or returned nil without an error. *)
Definition metadata_panics (s : Server) (handler : MetadataHandler) (params : Params) : Prop :=
  ∃ id, tokenID s params = Ret (Some id) ∧
    (handler id params = Panic ∨ ∃ code, handler id params = Ret (None, code, None)).
Definition image_panics (s : Server) (image : option tokenDataFunc) (params : Params) : Prop :=
  ∃ f id, image = Some f ∧ tokenID s params = Ret (Some id) ∧
    (f id params = Panic ∨ ∃ ct, f id params = Ret (None, ct, 200, None)).

Definition not_minted (s : Server) (params : Params) : Prop :=
  ∃ ownerOf, Contract s = Some ownerOf ∧
    ∀ id, SetString (ByName params TokenIDParam) (tokenIDBase s) = Some id → ownerOf id = false.

Lemma tokenID_not_minted s params id : not_minted s params → tokenID s params ≠ Ret (Some id).
Proof.
  intros (ownerOf & Hc & Ho) Hid. unfold tokenID in Hid. rewrite Hc in Hid.
  case_decide; [done|]. destruct (_ || _); [done|]. destruct (SetString _ _) as [n|] eqn:E; [|done].
  rewrite (Ho n) in Hid; done.
Qed.
End responses.


(** What a handler returns, without the code. *)
Definition drop_code (r : outcome Empty_set (option Metadata * Z * option string)) : outcome Empty_set (option Metadata * option string) :=
  (λ x, (x.1.1, x.2)) <$> r.

(** The code that a metadata handler returns never reaches the client: handlers
    that agree on the metadata and on the error give the same responses. *)
Theorem metadata_code_ignored {D} `{ServerLib D, EthCommon, Uint256Bytes} (s : Server)
    (handler handler' : MetadataHandler) params room :
  (∀ id, drop_code (handler id params) = drop_code (handler' id params)) →
  metadata (D:=D) s handler params room = metadata s handler' params room.
Proof.
  intros Hh. unfold metadata, tokenDataHandler.
  destruct (tokenID s params) as [[id|]| |]; [|done..]. unfold metadata_fn. specialize (Hh id).
  destruct (handler id params) as [[[md code] e]| |], (handler' id params) as [[[md' code'] e']| |];
    simplify_eq/=; [|done..]. by destruct e'.
Qed.

(** ** [httperr] *)

Definition Formatf (code : Z) (m : msg) : option http_err := errorf code m.
Definition WithStatus (code : Z) (err : msg) : option http_err :=
  if code =? 200 then None else Some (HttpError code err).

(** [err.code/100 == 4], with Go's division. *)
Definition handleErr {D} `{ServerLib D} (err : option http_err) : list (write D) :=
  match err with
  | None => []
  | Some (HttpError code m) =>
      if Z.quot code 100 =? 4 then [Error (Plain m) code] else [Error (SeeLog (Keccak8 m)) code]
  | Some (OtherError m) => [Error (SeeLog (Keccak8 m)) 500]
  end.

(** ** Display types *)

Definition DisplayDefault : Z := 0.
Definition DisplayNumber : Z := 1.
Definition DisplayBoostNumber : Z := 2.
Definition DisplayBoostPercentage : Z := 3.
Definition DisplayDate : Z := 4.
Definition endDisplayTypes : Z := 5.

Definition DisplayType_String (t : Z) : string :=
  if t =? DisplayDefault then EmptyString
  else if t =? DisplayNumber then "number"
  else if t =? DisplayBoostNumber then "boost_number"
  else if t =? DisplayBoostPercentage then "boost_percentage"
  else if t =? DisplayDate then "date"
  else "erc721.OpenSeaDisplayType(" +:+ pretty t +:+ ")".

Inductive display_err := UnsupportedInt (t : Z) | UnsupportedString (s : string) | NotJSON.

Definition quote_char : string := String (ascii_of_nat 34) EmptyString.

(** [%q] of a string of plain characters. *)
Definition quote (s : string) : string := quote_char +:+ s +:+ quote_char.

Definition DisplayType_MarshalJSON (t : Z) : outcome display_err string :=
  if t =? DisplayDefault then Ret EmptyString
  else if endDisplayTypes <=? t then Fail (UnsupportedInt t)
  else Ret (quote (DisplayType_String t)).

Definition DisplayType_UnmarshalJSON `{JSON} (buf : string) : outcome display_err Z :=
  match json_Unmarshal buf with
  | None => Fail NotJSON
  | Some s =>
      if decide (s = EmptyString) then Ret DisplayDefault
      else if decide (s = "number"%string) then Ret DisplayNumber
      else if decide (s = "boost_number"%string) then Ret DisplayBoostNumber
      else if decide (s = "boost_percentage"%string) then Ret DisplayBoostPercentage
      else if decide (s = "date"%string) then Ret DisplayDate
      else Fail (UnsupportedString s)
  end.

(** Plain strings are read from their quotes. *)
Class JSONQuoted `{JSON} := json_quoted : ∀ s,
  mentions (ascii_of_nat 34) s = false → mentions (ascii_of_nat 92) s = false → ascii_only s = true →
  json_Unmarshal (quote s) = Some s.

(** The display types other than the default survive JSON, and numbers beyond
    them are rejected when marshalling; but negative ones are not: they marshal to
    a string that unmarshalling rejects. *)
Theorem DisplayType_JSON `{JSONQuoted} t : t ≠ DisplayDefault →
  match DisplayType_MarshalJSON t with
  | Ret buf => t < endDisplayTypes ∧ (0 < t → DisplayType_UnmarshalJSON buf = Ret t)
  | Fail e => e = UnsupportedInt t ∧ endDisplayTypes ≤ t
  | Panic => False
  end ∧
  (DisplayType_MarshalJSON (-1) ≫= DisplayType_UnmarshalJSON)
  = Fail (UnsupportedString "erc721.OpenSeaDisplayType(-1)").
Proof.
  intros Hd. split.
  - unfold DisplayType_MarshalJSON, DisplayDefault, endDisplayTypes in *.
    destruct (Z.eqb_spec t 0); [done|]. destruct (Z.leb_spec 5 t) as [Hge|Hlt]; [done|]. split; [done|].
    intros Ht. assert (t = 1 ∨ t = 2 ∨ t = 3 ∨ t = 4) as [->|[->|[->| ->]]] by lia;
      unfold DisplayType_UnmarshalJSON; by rewrite json_quoted.
  - change (DisplayType_UnmarshalJSON (quote "erc721.OpenSeaDisplayType(-1)")
      = Fail (UnsupportedString "erc721.OpenSeaDisplayType(-1)")).
    unfold DisplayType_UnmarshalJSON. by rewrite json_quoted.
Qed.

(** ** Examples *)

#[local] Existing Instance common.
#[local] Existing Instance common_laws.

#[local] Instance bytes32 : Uint256Bytes := λ u, LeftPadBytes (big_Bytes u) 32.
#[local] Instance bytes32_law : Uint256BytesLaw.
Proof.
  intros u Hu. destruct (SetBytes_big_Bytes u) as [E F].
  pose proof (big_Bytes_length u 32) as L. rewrite Z.abs_eq in * by lia.
  unfold Bytes32, bytes32. simpl. rewrite SetBytes_zeros, length_app, length_replicate. split_and!.
  - specialize (L ltac:(apply Hu)). lia.
  - apply Forall_app. split; [apply Forall_replicate; unfold is_byte; lia|done].
  - done.
Qed.

Lemma TokenID_roundtrip_witness :
  TokenIDFromBig 1000 = Ret (replicate 30 0 ++ [3; 232]) ∧
  SetString (TokenID_Text (replicate 30 0 ++ [3; 232]) 16) 16 = Some 1000.
Proof.
  split; [by vm_compute|].
  pose proof (TokenID_roundtrip 1000 16 ltac:(lia)) as Ht.
  replace (TokenIDFromBig 1000) with (Ret (E:=token_err) (replicate 30 0 ++ [3; 232])) in Ht
    by by vm_compute.
  destruct Ht as (_ & _ & _ & _ & -> & _). by vm_compute.
Defined.

#[local] Instance plain_json : JSON := {
  json_Marshal := quote;
  json_Unmarshal s := match cut_prefix quote_char s with
                      | Some r => Some (Cut (ascii_of_nat 34) r).1
                      | None => None
                      end;
}.

#[local] Instance plain_json_quoted : JSONQuoted.
Proof.
  intros s Hs _ _. simpl. unfold quote, quote_char. simpl.
  pose proof (Cut_app (ascii_of_nat 34) s EmptyString Hs) as E. simpl in E.
  by match goal with |- Some ?p.1 = _ => replace p with (s, Some EmptyString) by (symmetry; exact E) end.
Qed.

Lemma DisplayType_JSON_witness :
  (DisplayType_MarshalJSON DisplayDate ≫= DisplayType_UnmarshalJSON) = Ret DisplayDate.
Proof.
  destruct (DisplayType_JSON DisplayDate ltac:(done)) as [Hd _]. simpl in Hd.
  by apply (proj2 Hd).
Defined.

#[local] Instance lib : ServerLib msg := {
  Keccak8 m := m;
  Marshal md := Some (Image md);
  url_String base path := (base +:+ path)%string;
}.

Definition example_server : Server :=
  mkServer "https://x.io" 0 (Some (λ id, id <? 10)) ["/metadata/:tokenId"]%string ["/img/:tokenId"]%string.

Definition blank : Metadata := mkMetadata "" "" "" "" "" "" [].


(** The connection breaks after eight bytes of metadata: the client gets the code 200, these
    bytes and a reference to the log. *)
Example broken_copy :
  metadata example_server (λ _ _, Ret (Some blank, 200, None)) [(TokenIDParam, "7"%string)] (Some 8%nat)
    = Ret [AddContentType "application/json"; Body "https://"; Error (SeeLog (CopyError "Metadata")) 500] ∧
  status (D:=msg) [AddContentType "application/json"; Body "https://"; Error (SeeLog (CopyError "Metadata")) 500] = 200.
Proof. by vm_compute. Qed.

Lemma metadata_code_ignored_witness :
  metadata example_server (λ _ _, Ret (Some blank, 404, None)) [(TokenIDParam, "7"%string)] None
  = Ret [AddContentType "application/json"; Body "https://x.io/img/7"].
Proof.
  rewrite (metadata_code_ignored (D:=msg) example_server (λ _ _, Ret (Some blank, 404, None))
    (λ _ _, Ret (Some blank, 200, None)) [(TokenIDParam, "7"%string)] None) by done.
  by vm_compute.
Defined.
