(* ===== verification/Rarity.v ===== *)
(** * Rarity: the rarity scores of [go/erc721/rarity.go]

    The counting of [Collection.Rarity] over the integers (the code counts in
    floats, exactly below 2^53), and the entropy and scores over any type of
    floats.  A [Collection] is the list of its entries in the order in which the
    map is ranged over. *)

From S2P Require Import Prelude Erc721.
From stdpp Require Import gmap strings.
Local Open Scope Z_scope.

Abbreviation Collection := (list (TokenID * Metadata)).

(** [CollectionFromMetadata]: IDs count from zero. *)
Definition CollectionFromMetadata `{Uint256Bytes} (md : list Metadata) : Collection :=
  imap (λ i m, (TokenIDFromInt (Z.of_nat i), m)) md.

Record tally := mkTally {
  distributions : gmap string (gmap string Z);
  counts : gmap string Z;
  attributes : gmap TokenID (gmap string string);
}.

Definition zero_tally : tally := mkTally ∅ ∅ ∅.

(** [float64] with the operations that the code uses. *)
Class Float (F : Type) := {
  of_Z : Z → F;
  fadd : F → F → F;
  fmul : F → F → F;
  fdiv : F → F → F;
  fneg : F → F;
  Log2 : F → F;
  fpos : F → bool;
}.

Section rarity.
Context (bucket : Z → string).

(** Strings count as themselves, other values as their bucket. *)
Definition value_of (a : Attribute) : string :=
  match attr_Value a with inl s => s | inr v => bucket v end.

Definition incr (k : string) (m : gmap string Z) : gmap string Z := <[k := default 0 (m !! k) + 1]> m.

(** The body of the inner loop. *)
Definition tally_attr (id : TokenID) (st : tally) (a : Attribute) : tally :=
  let t := TraitType a in
  let v := value_of a in
  mkTally (<[t := incr v (default ∅ (distributions st !! t))]> (distributions st))
    (incr t (counts st))
    (<[id := <[t := v]> (default ∅ (attributes st !! id))]> (attributes st)).

Definition tally_token (st : tally) (e : TokenID * Metadata) : tally :=
  let st := mkTally (distributions st) (counts st) (<[e.1 := ∅]> (attributes st)) in
  foldl (tally_attr e.1) st (Attributes e.2).

Definition tally_all (coll : Collection) : tally := foldl tally_token zero_tally coll.

Definition collSize (coll : Collection) : Z := Z.of_nat (length coll).

(** The number of tokens that have what [id] has for a trait: its value, or none. *)
Definition score_count (coll : Collection) (st : tally) (id : TokenID) (attr : string) (numHaveAttr : Z) : Z :=
  match attributes st !! id ≫= (.!! attr) with
  | Some v => default 0 (default ∅ (distributions st !! attr) !! v)
  | None => collSize coll - numHaveAttr
  end.

(** The counts whose information makes up the entropy. *)
Definition entropy_counts (coll : Collection) (st : tally) : list Z :=
  map_to_list (distributions st) ≫= λ '(attr, dist),
    (snd <$> map_to_list dist) ++
    (let n := collSize coll - default 0 (counts st !! attr) in if n =? 0 then [] else [n]).

Section floats.
Context {F} `{Float F}.

Definition information (coll : Collection) (n : Z) : F :=
  let p := fdiv (of_Z n) (of_Z (collSize coll)) in fmul (fneg p) (Log2 p).

Definition entropy (coll : Collection) : F :=
  foldl (λ e n, fadd e (information coll n)) (of_Z 0) (entropy_counts coll (tally_all coll)).

Definition score (coll : Collection) (st : tally) (id : TokenID) : F :=
  foldl (λ s '(attr, n), fadd s (fneg (Log2
           (fdiv (of_Z (score_count coll st id attr n)) (of_Z (collSize coll))))))
    (of_Z 0) (map_to_list (counts st)).

(** No score is set when no token has attributes. *)
Definition Rarity (coll : Collection) : F * list (TokenID * F) :=
  let st := tally_all coll in
  let e := entropy coll in
  let scores := if decide (counts st = ∅) then [] else (λ x, (x.1, score coll st x.1)) <$> coll in
  (e, if fpos e then (λ x, (x.1, fdiv x.2 e)) <$> scores else scores).
End floats.

(** ** What the tallies count *)

(** Every attribute of the collection with its token, in order. *)
Definition occurrences (coll : Collection) : list (TokenID * string * string) :=
  coll ≫= λ e, (λ a, (e.1, TraitType a, value_of a)) <$> Attributes e.2.

Definition occ_count (p : TokenID * string * string → bool) (l : list (TokenID * string * string)) : nat :=
  length (filter (λ x, p x = true) l).

Definition with_trait (t : string) (x : TokenID * string * string) : bool := bool_decide (x.1.2 = t).
Definition with_value (t v : string) (x : TokenID * string * string) : bool :=
  bool_decide (x.1.2 = t) && bool_decide (x.2 = v).

Lemma occ_count_snoc p l x : occ_count p (l ++ [x]) = (occ_count p l + if p x then 1 else 0)%nat.
Proof.
  unfold occ_count. rewrite filter_app, length_app. f_equal.
  rewrite filter_cons, filter_nil. by destruct (p x).
Qed.

(** The sum of the values of a map. *)
Definition total (m : gmap string Z) : Z := map_fold (λ _ n s, n + s) 0 m.

Lemma total_incr k m : total (incr k m) = total m + 1.
Proof.
  unfold total, incr.
  assert (∀ m n, m !! k = None → map_fold (λ _ n s, n + s) 0 (<[k:=n]> m)
    = n + map_fold (λ (_ : string) n s, n + s) 0 m) as Hi.
  { intros m' n Hm. apply map_fold_insert_L; [intros; lia|done]. }
  destruct (m !! k) as [n|] eqn:E; simpl; [|rewrite Hi by done; lia].
  rewrite <-(insert_delete_eq m k), Hi by apply lookup_delete_eq.
  rewrite <-(insert_delete_id m k n E) at 2. rewrite Hi by apply lookup_delete_eq. lia.
Qed.

Lemma incr_lookup k k' m : default 0 (incr k m !! k') = default 0 (m !! k') + if decide (k = k') then 1 else 0.
Proof.
  unfold incr. case_decide as Hk; [subst; by rewrite lookup_insert_eq|].
  rewrite lookup_insert_ne by done. lia.
Qed.

Record counted (st : tally) (evs : list (TokenID * string * string)) : Prop := {
  counts_ok t : default 0 (counts st !! t) = Z.of_nat (occ_count (with_trait t) evs);
  dist_ok t v : default 0 (default ∅ (distributions st !! t) !! v) = Z.of_nat (occ_count (with_value t v) evs);
  total_ok t : total (default ∅ (distributions st !! t)) = default 0 (counts st !! t);
  attr_some id t v : attributes st !! id ≫= (.!! t) = Some v → (id, t, v) ∈ evs;
  attr_none id t v : attributes st !! id ≫= (.!! t) = None → (id, t, v) ∉ evs;
  counts_pos t n : counts st !! t = Some n → 0 < n;
  dist_pos t dist v n : distributions st !! t = Some dist → dist !! v = Some n → 0 < n;
}.

Lemma counted_zero : counted zero_tally [].
Proof.
  split; intros *; simpl; rewrite ?lookup_empty; simpl; rewrite ?lookup_empty; done || intros; set_solver.
Qed.

Lemma default_pos (o : option Z) n : default 0 o = n → (∀ k, o = Some k → 0 < k) → 0 ≤ n.
Proof. intros <-. destruct o; simpl; [|done]. intros H. specialize (H _ eq_refl). lia. Qed.

Lemma incr_pos k m k' n : (∀ n, m !! k' = Some n → 0 < n) → incr k m !! k' = Some n → 0 < n.
Proof.
  unfold incr. intros Hm [[<- <-]|[? ?]]%lookup_insert_Some; [|by apply Hm].
  destruct (m !! k) as [x|]; simpl; [specialize (Hm x eq_refl)|]; lia.
Qed.

Lemma counted_attr st evs id a : counted st evs →
  counted (tally_attr id st a) (evs ++ [(id, TraitType a, value_of a)]).
Proof.
  intros [Hc Hd Ht Hs Hn Hcp Hdp]. unfold tally_attr. set (t := TraitType a). set (v := value_of a).
  split; simpl.
  - intros t'. rewrite incr_lookup, Hc, occ_count_snoc. unfold with_trait at 3. simpl.
    destruct (decide (t = t')); [rewrite bool_decide_eq_true_2 by done|rewrite bool_decide_eq_false_2 by done]; lia.
  - intros t' v'. rewrite occ_count_snoc. unfold with_value at 2. simpl. destruct (decide (t = t')) as [<-|].
    + rewrite lookup_insert_eq. simpl. rewrite incr_lookup, Hd, bool_decide_eq_true_2 by done. simpl.
      destruct (decide (v = v')); [rewrite bool_decide_eq_true_2 by done|rewrite bool_decide_eq_false_2 by done]; lia.
    + rewrite lookup_insert_ne by done. rewrite Hd, bool_decide_eq_false_2 by done. simpl. lia.
  - intros t'. rewrite incr_lookup. destruct (decide (t = t')) as [<-|].
    + rewrite lookup_insert_eq. simpl. by rewrite total_incr, Ht.
    + rewrite lookup_insert_ne by done. rewrite Ht. lia.
  - intros id' t' v'. destruct (decide (id = id')) as [<-|].
    + rewrite lookup_insert_eq. simpl. intros [[<- <-]|[Ht' Hl]]%lookup_insert_Some; [set_solver|].
      apply elem_of_app. left. apply Hs. destruct (attributes st !! id); simpl in *; [done|]. by rewrite lookup_empty in Hl.
    + rewrite lookup_insert_ne by done. intros Hl%Hs. set_solver.
  - intros id' t' v'. destruct (decide (id = id')) as [<-|].
    + rewrite lookup_insert_eq. simpl. intros [Hl Ht']%lookup_insert_None.
      rewrite not_elem_of_app, list_elem_of_singleton. split; [|congruence].
      apply Hn. by destruct (attributes st !! id).
    + rewrite lookup_insert_ne by done. intros Hl. rewrite not_elem_of_app, list_elem_of_singleton.
      split; [by apply Hn|congruence].
  - intros t' n. apply incr_pos. apply Hcp.
  - intros t' dist v' n [[<- <-]|[? ?]]%lookup_insert_Some; [|by apply (Hdp t')].
    apply incr_pos. intros n'. destruct (distributions st !! t) eqn:E; simpl; [by apply (Hdp t)|].
    by rewrite lookup_empty.
Qed.

Lemma counted_token st evs e : counted st evs → (∀ t v, (e.1, t, v) ∉ evs) →
  counted (tally_token st e) (evs ++ ((λ a, (e.1, TraitType a, value_of a)) <$> Attributes e.2)).
Proof.
  intros Hst Hfresh. unfold tally_token.
  assert (counted (mkTally (distributions st) (counts st) (<[e.1:=∅]> (attributes st))) evs) as Hst'.
  { destruct Hst as [Hc Hd Ht Hs Hn Hcp Hdp]. split; simpl; try done.
    - intros id t v. destruct (decide (e.1 = id)) as [<-|].
      + rewrite lookup_insert_eq. simpl. by rewrite lookup_empty.
      + rewrite lookup_insert_ne by done. apply Hs.
    - intros id t v. destruct (decide (e.1 = id)) as [<-|]; [done|].
      rewrite lookup_insert_ne by done. apply Hn. }
  revert Hst'. generalize (mkTally (distributions st) (counts st) (<[e.1:=∅]> (attributes st))).
  clear Hst Hfresh st. revert evs. induction (Attributes e.2) as [|a l IH]; intros evs st Hst; simpl.
  - by rewrite app_nil_r.
  - specialize (IH _ _ (counted_attr st evs e.1 a Hst)). by rewrite <-app_assoc in IH.
Qed.

Lemma occurrences_snoc coll e :
  occurrences (coll ++ [e]) = occurrences coll ++ ((λ a, (e.1, TraitType a, value_of a)) <$> Attributes e.2).
Proof. unfold occurrences. rewrite bind_app. simpl. by rewrite app_nil_r. Qed.

Lemma occurrences_id coll id t v : (id, t, v) ∈ occurrences coll → id ∈ coll.*1.
Proof.
  unfold occurrences. rewrite list_elem_of_bind. intros (e & He & Hin).
  apply list_elem_of_fmap in He as (a & [= -> -> ->] & _). by apply list_elem_of_fmap_2.
Qed.

Lemma tally_all_counted coll : NoDup coll.*1 → counted (tally_all coll) (occurrences coll).
Proof.
  induction coll as [|e coll IH] using rev_ind; intros Hnd; [apply counted_zero|].
  rewrite fmap_app in Hnd. apply NoDup_app in Hnd as (Hnd & Hf & _).
  rewrite occurrences_snoc. unfold tally_all. rewrite foldl_app. simpl.
  apply counted_token; [by apply IH|]. intros t v Hin%occurrences_id. set_solver.
Qed.

(** No token repeats a trait type. *)
Definition distinct_traits (coll : Collection) : Prop :=
  Forall (λ e : TokenID * Metadata, NoDup (TraitType <$> Attributes e.2)) coll.

Lemma occurrences_nodup coll : NoDup coll.*1 → distinct_traits coll → NoDup (occurrences coll).*1.
Proof.
  unfold distinct_traits. induction coll as [|e coll IH]; [by constructor|].
  intros [Hf Hnd]%NoDup_cons [He Hd]%Forall_cons.
  change (occurrences (e :: coll)) with
    (((λ a, (e.1, TraitType a, value_of a)) <$> Attributes e.2) ++ occurrences coll).
  rewrite fmap_app. apply NoDup_app. split_and!; [| |by apply IH].
  - rewrite <-list_fmap_compose. change (NoDup (((λ t, (e.1, t)) ∘ TraitType) <$> Attributes e.2)).
    rewrite list_fmap_compose. apply NoDup_fmap_2; [|done]. by intros ? ? [=].
  - intros [id t]. rewrite <-list_fmap_compose. intros (a & [= -> ->] & _)%list_elem_of_fmap.
    intros ([[id' t'] v] & [= <- <-] & Hin%occurrences_id)%list_elem_of_fmap. done.
Qed.

Definition holders (t : string) (coll : Collection) : list TokenID :=
  (λ x, x.1.1) <$> filter (λ x, with_trait t x = true) (occurrences coll).

Lemma holders_nodup t coll : NoDup coll.*1 → distinct_traits coll → NoDup (holders t coll).
Proof.
  intros Hnd Hd. apply (NoDup_fmap_1 (λ id, (id, t))). unfold holders. rewrite <-list_fmap_compose.
  replace (((λ id, (id, t)) ∘ (λ x : TokenID * string * string, x.1.1)) <$>
      filter (λ x, with_trait t x = true) (occurrences coll))
    with (fst <$> filter (λ x, with_trait t x = true) (occurrences coll)).
  - eapply sublist_NoDup; [by apply occurrences_nodup|]. apply fmap_sublist, sublist_filter.
  - apply list_fmap_ext. intros i [[id t'] v] [Hb _]%list_elem_of_lookup_2%list_elem_of_filter.
    apply bool_decide_eq_true in Hb. simpl in *. by subst.
Qed.

Lemma holders_bound t coll l : NoDup coll.*1 → distinct_traits coll →
  NoDup l → (∀ id, id ∈ l → id ∈ coll.*1 ∧ id ∉ holders t coll) →
  Z.of_nat (occ_count (with_trait t) (occurrences coll)) + Z.of_nat (length l) ≤ collSize coll.
Proof.
  intros Hnd Hd Hl Hout.
  assert (length (holders t coll ++ l) ≤ length coll.*1)%nat as Hle.
  { apply submseteq_length, NoDup_submseteq.
    - apply NoDup_app. split_and!; [by apply holders_nodup| |done].
      intros id Hid Hid'. by destruct (Hout id Hid').
    - intros id [Hid|Hid]%elem_of_app; [|by apply Hout].
      apply list_elem_of_fmap in Hid as ([[id' t'] v] & -> & [_ Hin]%list_elem_of_filter).
      by eapply occurrences_id. }
  rewrite length_app, length_fmap in Hle. unfold holders in Hle. rewrite length_fmap in Hle.
  unfold collSize, occ_count. lia.
Qed.

Lemma occ_count_le p q l : (∀ x, p x = true → q x = true) → (occ_count p l ≤ occ_count q l)%nat.
Proof.
  intros Hpq. induction l as [|x l IH]; [done|]. unfold occ_count in *. rewrite !filter_cons.
  destruct (decide (p x = true)) as [Hp|]; [rewrite decide_True by auto; simpl; lia|].
  case_decide; simpl; lia.
Qed.

Lemma with_value_trait t v x : with_value t v x = true → with_trait t x = true.
Proof. unfold with_value, with_trait. by intros [? _]%andb_true_iff. Qed.
End rarity.

(** C32. In a collection whose tokens do not repeat trait types every probability that
    [Rarity] takes the logarithm of lies in (0,1]: the counts it divides by the
    size of the collection are between 1 and that size, for the entropy and for the
    score of each token, and the counts of the values of a trait add up to the
    number of tokens that have it. *)
Theorem Rarity_probabilities bucket coll : NoDup coll.*1 → distinct_traits coll →
  let st := tally_all bucket coll in
  Forall (λ n, 1 ≤ n ≤ collSize coll) (entropy_counts coll st) ∧
  (∀ id attr n, id ∈ coll.*1 → counts st !! attr = Some n → 1 ≤ score_count coll st id attr n ≤ collSize coll) ∧
  (∀ attr dist, distributions st !! attr = Some dist →
     total dist = default 0 (counts st !! attr) ∧ total dist ≤ collSize coll).
Proof.
  intros Hnd Hd st. destruct (tally_all_counted bucket coll Hnd) as [Hc Hdc Ht Hs Hn Hcp Hdp].
  assert (∀ t, default 0 (counts st !! t) ≤ collSize coll) as Hle.
  { intros t. unfold st. rewrite Hc. pose proof (holders_bound bucket t coll [] Hnd Hd) as Hb.
    simpl in Hb. rewrite Z.add_0_r in Hb. apply Hb; [constructor|]. by intros ? ?%not_elem_of_nil. }
  assert (∀ t v, default 0 (default ∅ (distributions st !! t) !! v) ≤ collSize coll) as Hdle.
  { intros t v. specialize (Hle t). unfold st in *. rewrite Hc in Hle. rewrite Hdc.
    pose proof (occ_count_le _ _ (occurrences bucket coll) (with_value_trait t v)). lia. }
  split_and!.
  - apply Forall_forall. intros n ([attr dist] & Hin & Hmem)%list_elem_of_bind.
    apply elem_of_map_to_list in Hmem. apply elem_of_app in Hin as [Hin|Hin].
    + apply list_elem_of_fmap in Hin as ([v k] & -> & Hv%elem_of_map_to_list). simpl.
      pose proof (Hdp _ _ _ _ Hmem Hv). specialize (Hdle attr v). rewrite Hmem in Hdle. simpl in Hdle.
      rewrite Hv in Hdle. simpl in Hdle. lia.
    + specialize (Hle attr). cbv zeta in Hin. destruct (Z.eqb_spec (collSize coll - default 0 (counts st !! attr)) 0) as [|E];
        [by apply not_elem_of_nil in Hin|].
      apply list_elem_of_singleton in Hin as ->. unfold st in *. rewrite Hc in *. lia.
  - intros id attr n Hid Hattr. unfold score_count.
    destruct (attributes st !! id ≫= (.!! attr)) as [v|] eqn:Ev.
    + split; [|done]. unfold st in *. rewrite Hdc. apply Hs in Ev. unfold occ_count.
      assert ((id, attr, v) ∈ filter (λ x, with_value attr v x = true) (occurrences bucket coll)) as Hin.
      { apply list_elem_of_filter. split; [|done]. unfold with_value. simpl. by rewrite !bool_decide_eq_true_2. }
      destruct (filter _ _); [by apply not_elem_of_nil in Hin|simpl; lia].
    + pose proof (Hcp _ _ Hattr). split; [|lia].
      pose proof (holders_bound bucket attr coll [id] Hnd Hd) as Hb.
      unfold st in *. rewrite <-Hc, Hattr in Hb. simpl in Hb.
      assert (n + 1 ≤ collSize coll); [|lia]. apply Hb; [apply NoDup_singleton|].
      intros id' ->%list_elem_of_singleton. split; [done|].
      intros ([[id' t'] v] & -> & [Hb' Hin]%list_elem_of_filter)%list_elem_of_fmap.
      apply bool_decide_eq_true in Hb'. simpl in *. subst. by eapply Hn.
  - intros attr dist Hdist. specialize (Ht attr). specialize (Hle attr). unfold st in *.
    rewrite Hdist in Ht. simpl in Ht. by rewrite Ht.
Qed.

(** ** Examples *)

Definition token (attrs : list (string * string)) : Metadata :=
  mkMetadata "" "" "" "" "" "" ((λ p, mkAttribute p.1 (inl p.2) 0) <$> attrs).

Definition hats : Collection :=
  [([1], token [("hat", "red"); ("eyes", "blue")]%string); ([2], token [("hat", "red")]%string); ([3], token [])].

Lemma Rarity_probabilities_witness :
  entropy_counts hats (tally_all (λ _, EmptyString) hats) = [1; 2; 2; 1] ∧
  1 ≤ score_count hats (tally_all (λ _, EmptyString) hats) [3] "hat"%string 2 ≤ 3.
Proof.
  split; [by vm_compute|].
  refine (proj1 (proj2 (Rarity_probabilities (λ _, EmptyString) hats _ _)) [3] "hat"%string 2 _ _).
  - by apply (bool_decide_unpack _).
  - by apply (bool_decide_unpack _).
  - by apply (bool_decide_unpack _).
  - by vm_compute.
Defined.

(** A token that repeats a trait type: a "probability" of 2 and one of -1. *)
Example repeated_trait :
  let coll := [([1], token [("hat", "red"); ("hat", "red")]%string)] in
  entropy_counts coll (tally_all (λ _, EmptyString) coll) = [2; -1].
Proof. by vm_compute. Qed.
