(* ===== verification/Attach.v ===== *)
(** * Attach: registering and mounting ERC721 servers ([go/erc721/erc721.go])

    The registry of servers, [AttachServers] with the binding to contracts, signed
    image URLs, and [path.Join] of the standard library, which prefixes the paths.
    The mux is the list of what is mounted on it, and panics on what it cannot take, as
    [httprouter] does. *)

From S2P Require Import Prelude GoStrings BigInt Erc721 EthProto.
From stdpp Require Import gmap strings.
Local Open Scope Z_scope.

(** ** [path.Clean] and [path.Join] *)

Definition slash : ascii := "/"%char.

(** The elements kept so far, innermost first. *)
Definition clean_element (rooted : bool) (out : list string) (e : string) : list string :=
  if bool_decide (e = EmptyString) || bool_decide (e = "."%string) then out
  else if decide (e = ".."%string) then
    match out with
    | [] => if rooted then [] else [e]
    | last :: rest => if decide (last = ".."%string) then e :: out else rest
    end
  else e :: out.

Definition Clean (p : string) : string :=
  let rooted := HasPrefix "/" p in
  let out := strings_Join slash (reverse (foldl (clean_element rooted) [] (Split slash p))) in
  if rooted then String slash out
  else if decide (out = EmptyString) then "."%string else out.

Definition path_Join (a b : string) : string :=
  match filter (λ s, s ≠ EmptyString) [a; b] with
  | [] => EmptyString
  | l => Clean (strings_Join slash l)
  end.

Example Clean_examples :
  Clean <$> ["/a//b/./c"; "/../a"; "a/../.."; ""; "/azuki/"]%string
  = ["/a/b/c"; "/a"; ".."; "."; "/azuki"]%string ∧
  path_Join "/azuki/" "/metadata/:tokenId" = "/azuki/metadata/:tokenId"%string.
Proof. by vm_compute. Qed.

(** ** Contracts and registered servers *)

Abbreviation Address := bytes.
Definition zero_address : Address := replicate 20 0.

(** A bound contract: whether [ownerOf] succeeds on an ID, and the answer of
    [SupportsInterface] to the ERC721 ID, if the binding has that method:
    [None] is an error. *)
Record Interface := mkInterface { OwnerOf : Z → bool; SupportsInterface : option (option bool) }.

Definition ChainAddressFunc : Type := Z → option Address.
Definition AsChainAddressFunc (chainAddrs : gmap Z Address) : ChainAddressFunc := λ chainID, chainAddrs !! chainID.

(** [None] is a failed binding. *)
Definition Constructor : Type := Address → option Interface.

Record server := mkRegistered {
  reg_Server : Server;
  chainAddrs : option ChainAddressFunc;
  ctor : Constructor;
}.

Inductive attach_err :=
| AlreadyRegistered (prefix : string)
| ContractNotNil
| NoChainID
| NotUint64 (id : Z)
| NoAddress (chainID : Z)
| BindError (addr : Address)
| NotERC165
| NotERC721
| BadHandler (prefix : string).

Definition with_paths (s : Server) (f : string → string) : Server :=
  mkServer (BaseURL s) (TokenIDBase s) (Contract s) (f <$> MetadataPaths s) (f <$> ImagePaths s).

Definition with_contract (s : server) (c : Z → bool) : server :=
  let b := reg_Server s in
  mkRegistered (mkServer (BaseURL b) (TokenIDBase b) (Some c) (MetadataPaths b) (ImagePaths b))
    (chainAddrs s) (ctor s).

(** [strings.HasSuffix(prefix, "/")]. *)
Fixpoint ends_with_slash (s : string) : bool :=
  match s with
  | EmptyString => false
  | String c EmptyString => bool_decide (c = slash)
  | String _ s => ends_with_slash s
  end.

Definition with_slash (prefix : string) : string :=
  if ends_with_slash prefix then prefix else (prefix +:+ "/")%string.

(** [init]: no server is registered. *)
Definition no_servers : gmap string server := ∅.

Section attach.
Context `{Router}.
(** The generic IERC721 constructor, of generated code. *)
Context (NewIERC721 : Constructor).

Definition registerServer (servers : gmap string server) (prefix : string) (s : Server)
    (addrs : option ChainAddressFunc) (ct : option Constructor) : gmap string server * option attach_err :=
  let prefix := with_slash prefix in
  match servers !! prefix with
  | Some _ => (servers, Some (AlreadyRegistered prefix))
  | None =>
      let s := with_paths s (path_Join prefix) in
      match Contract s with
      | Some _ => (servers, Some ContractNotNil)
      | None => (<[prefix := mkRegistered s addrs (default NewIERC721 ct)]> servers, None)
      end
  end.

(** The contract is set before its interface is confirmed. *)
Definition bindToContract (s : server) (chainID : Z) : server * outcome attach_err (option Address) :=
  match chainAddrs s with
  | None => (s, Ret None)
  | Some addrs =>
      match addrs chainID with
      | None => (s, Fail (NoAddress chainID))
      | Some addr =>
          if decide (addr = zero_address) then (s, Ret None)
          else
            match ctor s addr with
            | None => (s, Fail (BindError addr))
            | Some c =>
                let s := with_contract s (OwnerOf c) in
                match SupportsInterface c with
                | Some (Some true) => (s, Ret (Some addr))
                | Some _ => (s, Fail NotERC721)
                | None => (s, Fail NotERC165)
                end
            end
      end
  end.

(** What is mounted on a mux: patterns with their handlers. *)
Abbreviation mount := (string * list route)%type.

(** [http.ServeMux.Handle]: a pattern is not empty and has one handler. *)
Definition mux_Handle (mux : list mount) (pattern : string) (h : list route) : outcome attach_err (list mount) :=
  if decide (pattern = EmptyString ∨ pattern ∈ mux.*1) then Panic else Ret (mux ++ [(pattern, h)]).

(** The body of the loop: the server, which may have been bound, and the mux. *)
Definition attach_one (chainID : Z) (prefix : string) (s : server) (mux : list mount)
    : server * outcome attach_err (list mount) :=
  let '(s, boundTo) := bindToContract s chainID in
  (s, _ ← boundTo; h ← map_err (λ _, BadHandler prefix) (Handler (reg_Server s)); mux_Handle mux prefix h).

(** The loop over the sorted prefixes: the registry, the mux and the error that stops it. *)
Fixpoint attach_loop (chainID : Z) (prefixes : list string) (servers : gmap string server)
    (mux : list mount) : gmap string server * list mount * outcome attach_err () :=
  match prefixes with
  | [] => (servers, mux, Ret ())
  | prefix :: prefixes =>
      match servers !! prefix with
      | None => (servers, mux, Panic)
      | Some s =>
          let '(s, r) := attach_one chainID prefix s mux in
          let servers := <[prefix := s]> servers in
          match r with
          | Fail e => (servers, mux, Fail e)
          | Panic => (servers, mux, Panic)
          | Ret mux => attach_loop chainID prefixes servers mux
          end
      end
  end.

(** The client may be nil; otherwise it reports a chain ID or fails to. *)
Inductive ethclient := NilClient | EthClient (ChainID : option Z).

(** Asking a nil client for its chain ID panics. *)
Definition AttachServers (servers : gmap string server) (mux : list mount) (client : ethclient)
    : gmap string server * list mount * outcome attach_err () :=
  match client with
  | NilClient => (servers, mux, Panic)
  | EthClient None => (servers, mux, Fail NoChainID)
  | EthClient (Some bigChain) =>
      if (0 <=? bigChain) && (bigChain <? 2 ^ 64)
      then attach_loop bigChain (sort_Strings (map_to_list servers).*1) servers mux
      else (servers, mux, Fail (NotUint64 bigChain))
  end.
End attach.

(** ** Properties *)

(** The server after attaching to a chain: as it was without an address function or
    with the zero address, otherwise bound to a contract that says it is ERC721. *)
Definition attached (chainID : Z) (s s' : server) : Prop :=
  match chainAddrs s with
  | None => s' = s
  | Some addrs => ∃ addr, addrs chainID = Some addr ∧
      if decide (addr = zero_address) then s' = s
      else ∃ c, ctor s addr = Some c ∧ SupportsInterface c = Some (Some true) ∧
             s' = with_contract s (OwnerOf c)
  end.

Lemma bindToContract_attached s chainID s' a : bindToContract s chainID = (s', Ret a) → attached chainID s s'.
Proof.
  unfold bindToContract, attached. destruct (chainAddrs s) as [addrs|]; [|by intros [= <- _]].
  destruct (addrs chainID) as [addr|]; [|done]. case_decide as Hz.
  - intros [= <- _]. exists addr. by rewrite decide_True.
  - destruct (ctor s addr) as [c|] eqn:Ec; [|done].
    destruct (SupportsInterface c) as [[[]|]|] eqn:Es; intros [= <- _].
    exists addr. rewrite decide_False by done. eauto.
Qed.

Lemma bindToContract_no_panic s chainID : (bindToContract s chainID).2 ≠ Panic.
Proof. unfold bindToContract. by repeat case_match. Qed.

(** Why a server cannot be mounted, with the error, or the panic, that says so: no address on
    the chain, no binding, a contract that does not confirm the interface, a path without a
    token ID, a path that the router refuses, or a pattern that is taken. *)
Inductive refused `{Router} (chainID : Z) (mux : list (string * list route)) (p : string) (s : server)
    : outcome attach_err () → Prop :=
| no_address addrs : chainAddrs s = Some addrs → addrs chainID = None → refused chainID mux p s (Fail (NoAddress chainID))
| no_binding addrs addr : chainAddrs s = Some addrs → addrs chainID = Some addr → addr ≠ zero_address →
    ctor s addr = None → refused chainID mux p s (Fail (BindError addr))
| not_ERC165 addrs addr c : chainAddrs s = Some addrs → addrs chainID = Some addr → addr ≠ zero_address →
    ctor s addr = Some c → SupportsInterface c = None → refused chainID mux p s (Fail NotERC165)
| not_ERC721 addrs addr c : chainAddrs s = Some addrs → addrs chainID = Some addr → addr ≠ zero_address →
    ctor s addr = Some c → SupportsInterface c = Some None ∨ SupportsInterface c = Some (Some false) →
    refused chainID mux p s (Fail NotERC721)
| bad_path s' e : attached chainID s s' → Handler (reg_Server s') = Fail e → refused chainID mux p s (Fail (BadHandler p))
| bad_route s' : attached chainID s s' → Handler (reg_Server s') = Panic → refused chainID mux p s Panic
| taken s' h : attached chainID s s' → Handler (reg_Server s') = Ret h → p = EmptyString ∨ p ∈ mux.*1 →
    refused chainID mux p s Panic.

Lemma attach_one_spec `{Router} chainID p s mux :
  let '(s', r) := attach_one chainID p s mux in
  match r with
  | Ret mux' => ∃ h, attached chainID s s' ∧ Handler (reg_Server s') = Ret h ∧ mux' = mux ++ [(p, h)]
  | Fail e => refused chainID mux p s (Fail e)
  | Panic => refused chainID mux p s Panic
  end.
Proof.
  unfold attach_one. destruct (bindToContract s chainID) as [s' [a|e|]] eqn:Eb; cbn [mbind outcome_mbind].
  - apply bindToContract_attached in Eb. destruct (Handler (reg_Server s')) as [h|e|] eqn:Eh; cbn [map_err mbind outcome_mbind].
    + unfold mux_Handle. case_decide; [by eapply taken|]. by exists h.
    + by eapply bad_path.
    + by eapply bad_route.
  - unfold bindToContract in Eb. destruct (chainAddrs s) as [addrs|] eqn:Ea; [|done].
    destruct (addrs chainID) as [addr|] eqn:Eaddr; [|injection Eb as _ <-; by eapply no_address].
    destruct (decide (addr = zero_address)); [done|]. destruct (ctor s addr) as [c|] eqn:Ec; [|injection Eb as _ <-; by eapply no_binding].
    destruct (SupportsInterface c) as [[[]|]|] eqn:Es; [done| | |];
      injection Eb as _ <-; [eapply not_ERC721|eapply not_ERC721|eapply not_ERC165]; eauto.
  - pose proof (bindToContract_no_panic s chainID) as Hn. by rewrite Eb in Hn.
Qed.

(** The servers of the first [k] prefixes are mounted, the next one is refused. *)
Definition attached_up_to `{Router} (chainID : Z) (prefixes : list string) (servers servers' : gmap string server)
    (mux mux' : list (string * list route)) (r : outcome attach_err ()) : Prop :=
  ∃ k hs, mux' = mux ++ zip (take k prefixes) hs ∧ length hs = k ∧ (k ≤ length prefixes)%nat ∧
    (∀ i p, (i < k)%nat → prefixes !! i = Some p → ∃ s s' h, servers !! p = Some s ∧ servers' !! p = Some s' ∧
       attached chainID s s' ∧ Handler (reg_Server s') = Ret h ∧ hs !! i = Some h) ∧
    (∀ p, p ∉ take (S k) prefixes → servers' !! p = servers !! p) ∧
    match prefixes !! k with
    | None => r = Ret ()
    | Some p => ∃ s, servers !! p = Some s ∧ refused chainID mux' p s r
    end.

Lemma attach_loop_spec `{Router} chainID prefixes servers mux servers' mux' r :
  NoDup prefixes → (∀ p, p ∈ prefixes → is_Some (servers !! p)) →
  attach_loop chainID prefixes servers mux = (servers', mux', r) →
  attached_up_to chainID prefixes servers servers' mux mux' r.
Proof.
  revert servers mux. induction prefixes as [|p ps IH]; intros servers mux Hnd Hin; cbn [attach_loop].
  { intros [= <- <- <-]. exists 0%nat, []. split_and!; [by rewrite app_nil_r|done|done|intros; lia|done|done]. }
  apply NoDup_cons in Hnd as [Hp Hnd]. destruct (Hin p ltac:(left)) as [s Hs]. rewrite Hs.
  pose proof (attach_one_spec chainID p s mux) as Hone. destruct (attach_one chainID p s mux) as [s1 r1].
  assert (∀ r, refused chainID mux p s r →
    attached_up_to chainID (p :: ps) servers (<[p := s1]> servers) mux mux r) as Hstop.
  { intros r0 Hr. exists 0%nat, []. split_and!; [by rewrite app_nil_r|done|simpl; lia|intros; lia| |by exists s].
    intros p' Hp'. apply lookup_insert_ne. intros ->. apply Hp'. left. }
  destruct r1 as [mux1|e|]; [|by intros [= <- <- <-]; apply Hstop..].
  destruct Hone as (h & Hatt & Hh & ->). intros Hl.
  apply IH in Hl as (k & hs & -> & Hlen & Hk & Hok & Hout & Hnext); [|done|].
  2:{ intros p' Hp'. destruct (decide (p = p')) as [<-|]; [by rewrite lookup_insert_eq|].
      rewrite lookup_insert_ne by done. apply Hin. by right. }
  assert (p ∉ take (S k) ps) as Hpk by (intros Ht; apply Hp; eapply elem_of_prefix; [exact Ht|apply prefix_take]).
  exists (S k), (h :: hs). split_and!; [by rewrite <-app_assoc|simpl; lia|simpl; lia| | |].
  - intros [|i] p' Hi Hp'; simpl in Hp'.
    + injection Hp' as <-. exists s, s1, h. rewrite Hout by done. by rewrite lookup_insert_eq.
    + assert (p ≠ p') as Hne by (intros ->; apply Hp; by eapply list_elem_of_lookup_2).
      destruct (Hok i p' ltac:(lia) Hp') as (s0 & s' & h' & Hs0 & ? & ? & ? & ?). rewrite lookup_insert_ne in Hs0 by done.
      by exists s0, s', h'.
  - intros p' [Hne Hp']%not_elem_of_cons. rewrite Hout by done. by apply lookup_insert_ne.
  - cbn [lookup list_lookup]. destruct (ps !! k) as [p'|] eqn:Ep; [|done].
    destruct Hnext as (s0 & Hs0 & Hr). assert (p ≠ p') by (intros ->; apply Hp; by eapply list_elem_of_lookup_2).
    rewrite lookup_insert_ne in Hs0 by done. exists s0. by split.
Qed.

(** C31. [AttachServers] mounts servers in the order of their prefixes, up to the
    first that cannot be mounted: each of those before it is bound, unless it has no address
    function or the zero address, to a contract that confirmed the ERC721 interface, and those
    after it are as they were.  It ends with the error, or the panic, of the first that is
    refused: a router panics on a path, and a mux on a pattern, that it cannot take.  Without a
    chain ID of 64 bits nothing is mounted; a nil client panics. *)
Theorem AttachServers_correct `{Router} (servers : gmap string server) mux client :
  match AttachServers servers mux client, client with
  | (servers', mux', r), EthClient (Some chainID) =>
      if decide (0 ≤ chainID < 2 ^ 64)
      then attached_up_to chainID (sort_Strings (map_to_list servers).*1) servers servers' mux mux' r
      else servers' = servers ∧ mux' = mux ∧ r = Fail (NotUint64 chainID)
  | (servers', mux', r), EthClient None => servers' = servers ∧ mux' = mux ∧ r = Fail NoChainID
  | (servers', mux', r), NilClient => servers' = servers ∧ mux' = mux ∧ r = Panic
  end.
Proof.
  unfold AttachServers. destruct client as [|[chainID|]]; [done| |done].
  destruct (Z.leb_spec 0 chainID), (Z.ltb_spec chainID (2 ^ 64)); cbn [andb]; [|by rewrite decide_False by lia..].
  destruct (attach_loop _ _ _ _) as [[servers' mux'] r] eqn:El. rewrite decide_True by done.
  pose proof (sort_Strings_Permutation (map_to_list servers).*1) as Hperm.
  eapply attach_loop_spec; [|intros p Hp|done].
  - rewrite Hperm. apply NoDup_fst_map_to_list.
  - rewrite Hperm in Hp. apply list_elem_of_fmap in Hp as ([k v] & -> & Hp). apply elem_of_map_to_list in Hp. by exists v.
Qed.

(** A prefix without a slash at its start gives paths that the router refuses. *)
Lemma relative_prefix_panics `{RouterLaws} s chainID mux p path paths :
  chainAddrs s = None → MetadataPaths (reg_Server s) = path :: paths → HasPrefix "/" path = false →
  forallb (λ p, Contains p fullTokenIDParam) (MetadataPaths (reg_Server s) ++ ImagePaths (reg_Server s)) = true →
  refused chainID mux p s Panic.
Proof.
  intros Ha Hp Hs Hc. eapply (bad_route _ _ _ _ s); [by unfold attached; rewrite Ha|].
  unfold Handler. rewrite Hc, Hp. cbn [imap app GETs]. rewrite GET_refuses; auto.
Qed.

Lemma ends_with_slash_app s : ends_with_slash (s +:+ "/") = true.
Proof. induction s as [|c s IH]; [done|]. simpl. rewrite IH. by destruct (s +:+ "/")%string eqn:E; [destruct s|]. Qed.

Lemma with_slash_ends prefix : ends_with_slash (with_slash prefix) = true.
Proof.
  unfold with_slash. destruct (ends_with_slash prefix) eqn:E; [done|]. apply ends_with_slash_app.
Qed.

(** The registry before [AttachServers]: prefixes are subtrees of the mux and no
    server is bound. *)
Definition registry_ok (servers : gmap string server) : Prop :=
  map_Forall (λ prefix s, ends_with_slash prefix = true ∧ Contract (reg_Server s) = None) servers.

(** One call of [MustRegisterServer]. *)
Record registration := mkRegistration {
  rg_prefix : string; rg_Server : Server; rg_addrs : option ChainAddressFunc; rg_ctor : option Constructor }.

Definition register_all (NewIERC721 : Constructor) (rs : list registration) (servers : gmap string server)
    : gmap string server :=
  foldl (λ m r, (registerServer NewIERC721 m (rg_prefix r) (rg_Server r) (rg_addrs r) (rg_ctor r)).1) servers rs.

(** Registration: from a registry of unbound servers under prefixes that end in a
    slash every sequence of registrations leads to such a registry and keeps what
    was registered; a call fails, without effect, exactly when the prefix, with
    its slash, is taken or the server already has a contract. *)
Theorem registry_invariant NewIERC721 (servers : gmap string server) rs prefix s addrs ct :
  registry_ok servers →
  registry_ok (register_all NewIERC721 rs servers) ∧ servers ⊆ register_all NewIERC721 rs servers ∧
  let '(servers', e) := registerServer NewIERC721 servers prefix s addrs ct in
  match e with
  | None => servers !! with_slash prefix = None ∧ Contract s = None ∧
      ∃ reg, servers' = <[with_slash prefix := reg]> servers ∧
        MetadataPaths (reg_Server reg) = path_Join (with_slash prefix) <$> MetadataPaths s
  | Some _ => servers' = servers ∧ (is_Some (servers !! with_slash prefix) ∨ is_Some (Contract s))
  end.
Proof.
  intros Hok.
  assert (∀ m p s addrs ct, registry_ok m →
    registry_ok (registerServer NewIERC721 m p s addrs ct).1 ∧ m ⊆ (registerServer NewIERC721 m p s addrs ct).1) as Hstep.
  { intros m p s0 a c Hm. unfold registerServer. destruct (m !! with_slash p) eqn:El; [done|]. simpl.
    destruct (Contract s0) eqn:Ec; [done|]. simpl. split; [|by apply insert_subseteq].
    apply map_Forall_insert_2; [|done]. split; [apply with_slash_ends|done]. }
  split_and!.
  1,2: revert servers Hok; induction rs as [|r rs IH]; intros servers Hok; [done|]; simpl;
    destruct (Hstep servers (rg_prefix r) (rg_Server r) (rg_addrs r) (rg_ctor r) Hok).
  - by apply IH.
  - etrans; [done|]. by apply IH.
  - unfold registerServer. destruct (servers !! with_slash prefix) eqn:El; simpl; [eauto|].
    destruct (Contract s) eqn:Ec; [eauto|]. split_and!; try done. by eexists.
Qed.

(** ** Signed image URLs *)

(** [SignedURLImages]: [sign] is the [SignedURL] of the bucket.  The copy of the
    metadata is the functional update. *)
Definition SignedURLImages (sign : string → option string) (src : MetadataHandler) : MetadataHandler :=
  λ tokenID params,
    '(md, code, err) ← src tokenID params;
    if negb (code =? 200) || bool_decide (is_Some err) then Ret (None, code, err)
    else
      md ← or_panic md;
      match sign (Image md) with
      | None => Ret (None, 500, Some "SignURL"%string)
      | Some url => Ret (Some (with_image md url), 200, None)
      end.

(** The clock: nanoseconds since the zero time, of whose multiples [Truncate] takes the
    last.  The bucket signs a URL with its expiry. *)
Definition Truncate (now d : Z) : Z := now - now mod d.
Definition year : Z := 365 * 24 * 3600 * 10 ^ 9.
Definition expiry (now : Z) : Z := Truncate now year + year.
Definition SignedURL (bucket : string → Z → option string) (now : Z) (url : string) : option string :=
  bucket url (expiry now).

(** A signed URL expires within a year, but at the end of a fixed period of 365 days and not
    a year after it was signed: all the URLs of a period are the same and expire at once,
    and one that is signed at its end expires immediately after. *)
Theorem SignedURL_expiry bucket url now now' :
  now < expiry now ≤ now + year ∧ (expiry now = expiry now' ↔ now / year = now' / year) ∧
  (now / year = now' / year → SignedURL bucket now url = SignedURL bucket now' url) ∧
  expiry (now / year * year + (year - 1)) = now / year * year + (year - 1) + 1.
Proof.
  assert (0 < year) as Hy by done. assert (∀ t, expiry t = t / year * year + year) as He.
  { intros t. unfold expiry, Truncate. rewrite (Z.div_mod t year) at 1 by lia. lia. }
  pose proof (Z.div_mod now year) as Hd. pose proof (Z.mod_pos_bound now year Hy) as Hm.
  split_and!.
  - rewrite He. lia.
  - rewrite He. lia.
  - rewrite !He. split; [intros E; apply (Z.mul_reg_r _ _ year); lia|by intros ->].
  - intros E. unfold SignedURL. by rewrite !He, E.
  - rewrite He, Z.div_add_l by lia. rewrite (Z.div_small (year - 1)) by lia. lia.
Qed.

(** A metadata endpoint with signed images: a token whose handler answers with
    another code than 200 and no error, such as 404, makes the request panic
    instead of sending the code; one that answers with 200 gets the signed image. *)
Theorem SignedURLImages_metadata {D} `{ServerLib D, EthCommon, Uint256Bytes} (s : Server) sign
    (src : MetadataHandler) params room id md code :
  tokenID s params = Ret (Some id) → src id params = Ret (md, code, None) →
  if decide (code = 200) then ∀ m url buf, md = Some m → sign (Image m) = Some url → url ≠ EmptyString →
    Marshal (with_image m url) = Some buf →
    metadata (D:=D) s (SignedURLImages sign src) params None = Ret [AddContentType "application/json"; Body buf]
  else metadata (D:=D) s (SignedURLImages sign src) params room = Panic.
Proof.
  intros Hid Hsrc. case_decide as Hc; [intros m url buf -> Hsign Hurl Hbuf; subst code|];
    unfold metadata, tokenDataHandler, metadata_fn, SignedURLImages; rewrite Hid, Hsrc;
    cbn [mbind outcome_mbind].
  - simpl. rewrite Hsign. cbn [mbind outcome_mbind or_panic]. simpl. rewrite (bool_decide_eq_false_2 (url = _)) by done.
    simpl. by destruct (ImagePaths s); rewrite Hbuf.
  - by rewrite (proj2 (Z.eqb_neq code 200)) by done.
Qed.

(** ** Examples *)

#[local] Existing Instance common.
#[local] Existing Instance bytes32.
#[local] Existing Instance lib.

Lemma SignedURLImages_metadata_witness :
  metadata (D:=msg) example_server
    (SignedURLImages Some (λ _ _, Ret (None, 404, None))) [(TokenIDParam, "7"%string)] None = Panic.
Proof.
  exact (SignedURLImages_metadata (D:=msg) example_server Some (λ _ _, Ret (None, 404, None))
    [(TokenIDParam, "7"%string)] None (replicate 31 0 ++ [7]) None 404 eq_refl eq_refl).
Defined.

Definition azuki : Server := mkServer "https://x.io" 0 None ["metadata/:tokenId"]%string ["/img/:tokenId"]%string.

Lemma registry_invariant_witness :
  registry_ok (register_all (λ _, None)
    [mkRegistration "/a" azuki None None; mkRegistration "/a/" example_server None None] no_servers) ∧
  MetadataPaths ∘ reg_Server <$> register_all (λ _, None)
    [mkRegistration "/a" azuki None None; mkRegistration "/a/" example_server None None] no_servers
  = {["/a/"%string := ["/a/metadata/:tokenId"%string]]}.
Proof.
  split; [|by apply map_eq; intros i; vm_compute].
  apply (registry_invariant (λ _, None) ∅ _ EmptyString azuki None None). by apply map_Forall_empty.
Defined.
