(* ===== verification/Secrets.v ===== *)
(** * Secrets: identifiers of secrets ([go/secrets/secrets.go], [gcp.go])

    [Secret] as a flag value and what [Fetch] returns.  The environment is a map;
    the GCP client is a parameter. *)

From S2P Require Import Prelude GoStrings.
From stdpp Require Import gmap strings.

Definition Raw : string := "not-secret".
Definition GCP : string := "gcp".
Definition Environment : string := "env".

Record Secret := mkSecret { Source : string; ID : string }.

Inductive secret_err := InvalidString (raw : string) | InvalidSource (source raw : string)
| NotSet (id : string) | GCPErr | Unimplemented (source : string).

(** [strings.SplitN(raw, "://", 2)]: [None] when the separator is missing. *)
Fixpoint split_scheme (raw : string) : option (string * string) :=
  match cut_prefix "://" raw with
  | Some rest => Some (EmptyString, rest)
  | None =>
      match raw with
      | EmptyString => None
      | String c raw => '(a, b) ← split_scheme raw; Some (String c a, b)
      end
  end.

Definition Secret_String (s : option Secret) : string :=
  match s with
  | None => "invalid (nil) *secrets.Secret"
  | Some s => Source s +:+ "://" +:+ ID s
  end.

Definition known_source (source : string) : bool :=
  bool_decide (source = Raw) || bool_decide (source = GCP) || bool_decide (source = Environment).

(** The source is stored before it is checked. *)
Definition Set_ (s : Secret) (raw : string) : Secret * option secret_err :=
  match split_scheme raw with
  | None => (s, Some (InvalidString raw))
  | Some (source, id) =>
      let s := mkSecret source (ID s) in
      if known_source source then (mkSecret (Source s) id, None)
      else (s, Some (InvalidSource source raw))
  end.

(** [gcp]: access to the latest value of a name. *)
Definition Fetch (gcp : string → option string) (env : gmap string string) (s : Secret)
    : outcome secret_err string :=
  if decide (Source s = GCP) then
    match gcp (ID s) with Some v => Ret v | None => Fail GCPErr end
  else if decide (Source s = Raw) then Ret (ID s)
  else if decide (Source s = Environment) then
    match env !! ID s with Some v => Ret v | None => Fail (NotSet (ID s)) end
  else Fail (Unimplemented (Source s)).

(** ** Options *)

(** A [secretmanager.Client] and what it accesses, options of clients being [O]. *)
Class Secretmanager (O Cl : Type) := {
  NewClient : list O → option Cl;
  AccessSecretVersion : Cl → string → option string;
}.

(** [Option]: a [gcpOption] or another concrete type. *)
Inductive Option (O : Type) := GCPOption (val : O) | OtherOption.
Arguments GCPOption {O} val.
Arguments OtherOption {O}.

(** [filterOptions[gcpOption]]. *)
Fixpoint filterOptions {O} (opts : list (Option O)) : list O :=
  match opts with
  | [] => []
  | GCPOption o :: opts => o :: filterOptions opts
  | _ :: opts => filterOptions opts
  end.

(** The data, and the client that the call opens and closes. *)
Definition gcp {O Cl} `{Secretmanager O Cl} (clOpts : list O) (name : string) : option string * option Cl :=
  match NewClient clOpts with
  | None => (None, None)
  | Some client => (AccessSecretVersion client name, Some client)
  end.

Definition Fetch_options {O Cl} `{Secretmanager O Cl} (env : gmap string string) (opts : list (Option O)) (s : Secret)
    : outcome secret_err string :=
  Fetch (λ name, (gcp (Cl:=Cl) (filterOptions opts) name).1) env s.

Lemma Fetch_returns gcp env s : Fetch gcp env s ≠ Panic.
Proof. unfold Fetch. repeat case_decide; repeat case_match; done. Qed.

(** Options matter to the secrets that they are for. *)
Lemma Fetch_options_irrelevant {O Cl} `{Secretmanager O Cl} env (opts opts' : list (Option O)) s :
  Source s ≠ GCP ∨ filterOptions opts = filterOptions opts' →
  Fetch_options (Cl:=Cl) env opts s = Fetch_options (Cl:=Cl) env opts' s.
Proof. unfold Fetch_options, Fetch. intros [Hs| ->]; [by rewrite !(decide_False (P:=Source s = GCP)) by done|done]. Qed.

Lemma cut_prefix_Some p s r : cut_prefix p s = Some r → s = p +:+ r.
Proof.
  revert s. induction p as [|c p IH]; intros s.
  - destruct s; by intros [= <-].
  - destruct s as [|c' s]; [done|]. cbn [cut_prefix]. case_decide as Hc; [|done]. subst. by intros ->%IH.
Qed.

Lemma split_scheme_join raw a b : split_scheme raw = Some (a, b) → raw = a +:+ "://" +:+ b.
Proof.
  revert a b. induction raw as [|c raw IH]; intros a b; cbn [split_scheme].
  - done.
  - destruct (cut_prefix "://" (String c raw)) as [r|] eqn:E.
    + intros [= <- <-]. by apply cut_prefix_Some in E.
    + destruct (split_scheme raw) as [[a' b']|]; [|done]. intros [= <- <-].
      change (String c raw = String c (a' +:+ "://" +:+ b')). f_equal. by apply IH.
Qed.

(** What an accepted string sets. *)
Lemma Set_accepted s raw s' : Set_ s raw = (s', None) →
  Secret_String (Some s') = raw ∧ known_source (Source s') = true.
Proof.
  unfold Set_. destruct (split_scheme raw) as [[src id]|] eqn:E; [|done].
  destruct (known_source src) eqn:Hk; [|done]. intros [= <-]. split; [|done].
  by apply split_scheme_join in E as ->.
Qed.

(** [Set] is the inverse of [String]: a secret of a known source is restored from its
    string whatever its ID, and a string that is accepted is printed back and can
    be fetched, but for what the environment or GCP lack.  A string with an unknown
    source is rejected and yet overwrites the source. *)
Theorem Set_String (s old : Secret) raw gcp env :
  (known_source (Source s) = true → Set_ old (Secret_String (Some s)) = (s, None)) ∧
  match Set_ old raw with
  | (s', None) => Secret_String (Some s') = raw ∧ known_source (Source s') = true ∧
      (∀ e, Fetch gcp env s' = Fail e → e = GCPErr ∨ e = NotSet (ID s')) ∧ Fetch gcp env s' ≠ Panic
  | (s', Some (InvalidSource source _)) => s' = mkSecret source (ID old) ∧ known_source source = false
  | (s', Some e) => s' = old ∧ e = InvalidString raw ∧ split_scheme raw = None
  end.
Proof.
  split.
  - intros Hk. unfold Set_. simpl Secret_String. destruct s as [src id]. simpl in *.
    assert (split_scheme (src +:+ "://" +:+ id) = Some (src, id)) as ->.
    { unfold known_source in Hk. rewrite !orb_true_iff, !bool_decide_eq_true in Hk.
      by destruct Hk as [[-> | ->]| ->]. }
    by rewrite Hk.
  - unfold Set_. destruct (split_scheme raw) as [[src id]|] eqn:E; [|done].
    destruct (known_source src) eqn:Hk; simpl; [|done].
    split; [by apply split_scheme_join in E as ->|]. split; [done|].
    unfold Fetch. simpl. unfold known_source in Hk. rewrite !orb_true_iff, !bool_decide_eq_true in Hk.
    destruct Hk as [[-> | ->]| ->]; simpl.
    + by split.
    + destruct (gcp id); [by split|]. split; [|done]. intros e [= <-]. by left.
    + destruct (env !! id); [by split|]. split; [|done]. intros e [= <-]. by right.
Qed.

Example Set_overwrites_source :
  Set_ (mkSecret Raw "x") "unknown://y" = (mkSecret "unknown" "x", Some (InvalidSource "unknown" "unknown://y")).
Proof. by vm_compute. Qed.

Lemma Set_String_witness :
  Set_ (mkSecret GCP "old") "env://A://B" = (mkSecret Environment "A://B", None) ∧
  Set_ (mkSecret GCP "old") (Secret_String (Some (mkSecret Environment "A://B"))) = (mkSecret Environment "A://B", None).
Proof.
  split; [by vm_compute|].
  exact (proj1 (Set_String (mkSecret Environment "A://B") (mkSecret GCP "old") "" (λ _, None) ∅) eq_refl).
Defined.
