(* ===== verification/Signer.v ===== *)
(** * Signer: keys and signatures of [go/eth/signer.go]

    Derivation of keys from mnemonics and pseudo-random functions, and signing with
    the options of [sign].  The curve, the hash, BIP-39 and HD wallets are third
    party: the class [Crypto] has their functions, [CryptoLaws] what the signing
    code relies on. *)

From S2P Require Import Prelude GoStrings BigInt.
From stdpp Require Import gmap strings.
Local Open Scope Z_scope.

Inductive sign_err :=
| RandomErr                (* rand.Read *)
| CurveErr                 (* crypto.Sign *)
| EntropyErr | MnemonicErr | SeedErr | WalletErr | PathErr | DeriveErr | KeyErr | PRFErr.

(** [K]: private keys, [A]: addresses, [W]: wallets of [hdwallet]. *)
Class Crypto (K A W : Type) := {
  Keccak256 : bytes → bytes;
  PubkeyToAddress : K → A;
  curve_Sign : bytes → K → option bytes;
  SigToAddress : bytes → bytes → option A;
  NewEntropy : Z → option bytes;       (* of the randomness of the call *)
  entropy_mnemonic : bytes → option string;
  NewSeedWithErrorChecking : string → string → option bytes;
  NewFromSeed : bytes → option W;
  DerivedKey : W → string → option (option (option K));  (* parse, derive, key *)
}.

(** secp256k1 of go-ethereum: it signs exactly digests of 32 bytes, as R, S and the
    parity of Y, and the signer's address is recovered from the signature. *)
Class CryptoLaws (K A W : Type) `{Crypto K A W} := {
  Keccak256_length b : length (Keccak256 b) = 32%nat;
  curve_Sign_spec d k : match curve_Sign d k with
    | Some sig => length d = 32%nat ∧ length sig = 65%nat ∧ (sig !! 64%nat = Some 0 ∨ sig !! 64%nat = Some 1) ∧
                  SigToAddress d sig = Some (PubkeyToAddress k)
    | None => length d ≠ 32%nat
    end;
}.

Record Signer (K : Type) := mkSigner { key : K; mnemonic : string }.
Arguments mkSigner {K} key mnemonic.
Arguments key {K} _.
Arguments mnemonic {K} _.

Record signOpts := mkSignOpts { raw : bool; personal : bool; withNonce : bool }.

(** [fmt.Sprintf("%d", n)] of a number that is not negative. *)
Definition decimal (n : Z) : string := Text n 10.

Definition WithPersonalMessagePrefix (message : bytes) : bytes :=
  [25] ++ string_bytes "Ethereum Signed Message:" ++ [10] ++
  string_bytes (decimal (Z.of_nat (length message))) ++ message.

Section signer.
Context {K A W : Type} `{Crypto K A W}.

Definition Mnemonic (s : Signer K) : string := mnemonic s.
Definition Address (s : Signer K) : A := PubkeyToAddress (key s).

(** [rand]: the 32 bytes that [rand.Read] fills, or its error. *)
Definition appendRandomNonce (buf : bytes) (rand : option bytes) : outcome sign_err (bytes * bytes) :=
  match rand with
  | None => Fail RandomErr
  | Some nonce => Ret (buf ++ nonce, nonce)
  end.

(** [sig[64] += 27] on a byte. *)
Definition sign (s : Signer K) (buf : bytes) (opts : signOpts) (rand : option bytes)
    : outcome sign_err (bytes * option bytes) :=
  '(buf, nonce) ← (if withNonce opts then
                     '(buf, n) ← appendRandomNonce buf rand; Ret (buf, Some n)
                   else Ret (buf, None));
  let buf := if personal opts then WithPersonalMessagePrefix buf else buf in
  let buf := if negb (raw opts) then Keccak256 buf else buf in
  match curve_Sign buf (key s) with
  | None => Fail CurveErr
  | Some sig =>
      v ← or_panic (sig !! 64%nat);
      Ret (<[64%nat := u8 (v + 27)]> sig, nonce)
  end.

Definition RawSign (s : Signer K) (buf : bytes) : outcome sign_err bytes :=
  fst <$> sign s buf (mkSignOpts true false false) None.
Definition Sign (s : Signer K) (buf : bytes) : outcome sign_err bytes :=
  fst <$> sign s buf (mkSignOpts false false false) None.
Definition PersonalSign (s : Signer K) (buf : bytes) : outcome sign_err bytes :=
  fst <$> sign s buf (mkSignOpts false true false) None.
(** The nonce pointer is dereferenced. *)
Definition PersonalSignWithNonce (s : Signer K) (buf : bytes) (rand : option bytes)
    : outcome sign_err (bytes * bytes) :=
  '(sig, nonce) ← sign s buf (mkSignOpts false true true) rand;
  nonce ← or_panic nonce;
  Ret (sig, nonce).
Definition PersonalSignAddress (s : Signer K) (addr : bytes) : outcome sign_err bytes := PersonalSign s addr.

(** ** Derivation *)

Definition DefaultHDPathPrefix : string := "m/44'/60'/0'/0/".

Definition SignerFromSeedPhrase (hdp mn password : string) (account : Z) : outcome sign_err (Signer K) :=
  match NewSeedWithErrorChecking mn password with
  | None => Fail SeedErr
  | Some seed =>
      match NewFromSeed seed with
      | None => Fail WalletErr
      | Some wallet =>
          match DerivedKey wallet (hdp +:+ decimal account)%string with
          | None => Fail PathErr
          | Some None => Fail DeriveErr
          | Some (Some None) => Fail KeyErr
          | Some (Some (Some k)) => Ret (mkSigner k mn)
          end
      end
  end.

Definition NewMnemonic (bitSize : Z) : outcome sign_err string :=
  match NewEntropy bitSize with
  | None => Fail EntropyErr
  | Some buf => match entropy_mnemonic buf with None => Fail MnemonicErr | Some m => Ret m end
  end.

Definition NewSigner (bitSize : Z) : outcome sign_err (Signer K) :=
  m ← NewMnemonic bitSize; SignerFromSeedPhrase DefaultHDPathPrefix m EmptyString 0.

(** A [prf.PRF] computes bytes of a length from an input; it may fail. *)
Definition PRF : Type := bytes → Z → option bytes.

Definition SignerFromPRF (hdp : string) (src : PRF) (input : bytes) (account : Z)
    : outcome sign_err (Signer K) :=
  match src input 32 with
  | None => Fail PRFErr
  | Some entropy =>
      match entropy_mnemonic entropy with
      | None => Fail MnemonicErr
      | Some mn => SignerFromSeedPhrase hdp mn EmptyString account
      end
  end.

(** A missing primary PRF is a nil interface. *)
Definition SignerFromPRFSet (hdp : string) (PRFs : gmap Z PRF) (PrimaryID : Z) (input : bytes)
    (account : Z) : outcome sign_err (Signer K) :=
  src ← or_panic (PRFs !! PrimaryID); SignerFromPRF hdp src input account.
End signer.

(** ** Properties *)

(** No two messages have the same EIP-191 form. *)
Lemma WithPersonalMessagePrefix_inj a b : WithPersonalMessagePrefix a = WithPersonalMessagePrefix b → a = b.
Proof.
  unfold WithPersonalMessagePrefix. intros E. do 3 apply app_inv_head in E.
  assert (∀ a b : bytes, (length a < length b)%nat →
    string_bytes (decimal (Z.of_nat (length a))) ++ a
    ≠ string_bytes (decimal (Z.of_nat (length b))) ++ b) as Hlt.
  { intros x y Hxy Hc%(f_equal length). rewrite !length_app, !string_bytes_length in Hc.
    pose proof (Text_length 10 (Z.of_nat (length x)) (Z.of_nat (length y)) ltac:(lia) ltac:(lia)).
    unfold decimal in Hc. lia. }
  destruct (Nat.lt_trichotomy (length a) (length b)) as [Hl|[Hl|Hl]].
  - by apply Hlt in E.
  - rewrite Hl in E. by apply app_inv_head in E.
  - symmetry in E. by apply Hlt in E.
Qed.

(** What each kind of signature signs. *)
Definition digest `{Crypto K A W} (buf : bytes) (opts : signOpts) (nonce : option bytes) : bytes :=
  let buf := buf ++ default [] nonce in
  let buf := if personal opts then WithPersonalMessagePrefix buf else buf in
  if raw opts then buf else Keccak256 buf.

(** The signature as the curve made it. *)
Definition unshift (sig : bytes) : bytes := alter (λ v, v - 27) 64%nat sig.

Lemma sign_digest `{Crypto K A W} (s : Signer K) buf opts rand :
  let nonce := if withNonce opts then rand else None in
  sign s buf opts rand =
    if decide (withNonce opts = true ∧ rand = None) then Fail RandomErr
    else match curve_Sign (digest buf opts nonce) (key s) with
         | None => Fail CurveErr
         | Some sig => v ← or_panic (sig !! 64%nat); Ret (<[64%nat := u8 (v + 27)]> sig, nonce)
         end.
Proof.
  unfold sign, digest, appendRandomNonce. case_decide as Hr; [destruct Hr as [-> ->]; done|].
  destruct opts as [[] [] []], rand as [n|]; cbn [withNonce raw personal] in *;
    try (by destruct Hr); cbn [mbind outcome_mbind default negb]; by rewrite ?app_nil_r.
Qed.

Lemma sign_signs `{CryptoLaws K A W} (s : Signer K) buf opts rand :
  match sign s buf opts rand with
  | Ret (sig, nonce) =>
      length sig = 65%nat ∧ (sig !! 64%nat = Some 27 ∨ sig !! 64%nat = Some 28) ∧
      nonce = (if withNonce opts then rand else None) ∧ (is_Some nonce ↔ withNonce opts = true) ∧
      SigToAddress (digest buf opts nonce) (unshift sig) = Some (Address s)
  | Fail RandomErr => withNonce opts = true ∧ rand = None
  | Fail CurveErr => raw opts = true ∧ length (digest buf opts (if withNonce opts then rand else None)) ≠ 32%nat
  | Fail _ | Panic => False
  end.
Proof.
  rewrite sign_digest. case_decide as Hr; [done|].
  set (nonce := if withNonce opts then rand else None).
  assert (is_Some nonce ↔ withNonce opts = true) as Hn.
  { unfold nonce. destruct (withNonce opts), rand; naive_solver. }
  pose proof (curve_Sign_spec (digest buf opts nonce) (key s)) as Hc.
  destruct (curve_Sign _ _) as [sig|].
  - destruct Hc as (_ & Hlen & Hv & Hrec).
    assert (∀ v, sig !! 64%nat = Some v → unshift (<[64%nat := v + 27]> sig) = sig) as Hun.
    { intros v Hsv. unfold unshift. rewrite <-(list_insert_id sig 64 v Hsv) at 2.
      apply list_eq. intros i. destruct (decide (i = 64%nat)) as [->|].
      - rewrite list_lookup_alter_eq, !list_lookup_insert_eq by lia. simpl. f_equal. lia.
      - by rewrite list_lookup_alter_ne, !list_lookup_insert_ne. }
    destruct Hv as [Hv|Hv]; rewrite Hv; cbn [mbind outcome_mbind or_panic];
      (split_and!; [by rewrite length_insert|rewrite list_lookup_insert_eq by lia; auto|done|exact Hn|];
       etrans; [|exact Hrec]; f_equal; exact (Hun _ Hv)).
  - split; [|done]. unfold digest in Hc. destruct (raw opts); [done|]. by rewrite Keccak256_length in Hc.
Qed.

(** C29. Every signature has 65 bytes of which the last is 27 or 28, and recovers to the
    signer's address from the digest that the options describe: the message, with
    the random nonce that is returned appended, prefixed for personal messages, and
    hashed unless raw.  Signing fails only without randomness for a nonce, or raw
    on anything but 32 bytes; no two messages have the same personal form. *)
Theorem sign_correct `{CryptoLaws K A W} (s : Signer K) buf opts rand :
  match sign s buf opts rand with
  | Ret (sig, nonce) =>
      length sig = 65%nat ∧ (sig !! 64%nat = Some 27 ∨ sig !! 64%nat = Some 28) ∧
      nonce = (if withNonce opts then rand else None) ∧ (is_Some nonce ↔ withNonce opts = true) ∧
      SigToAddress (digest buf opts nonce) (unshift sig) = Some (Address s)
  | Fail RandomErr => withNonce opts = true ∧ rand = None
  | Fail CurveErr => raw opts = true ∧ length (digest buf opts (if withNonce opts then rand else None)) ≠ 32%nat
  | Fail _ | Panic => False
  end ∧
  (∀ buf', WithPersonalMessagePrefix buf = WithPersonalMessagePrefix buf' → buf = buf').
Proof. split; [apply sign_signs|apply WithPersonalMessagePrefix_inj]. Qed.

(** ** Examples *)

(** A toy curve: a key signs with its own value and the address is the key. *)
#[local] Instance toy : Crypto Z Z unit := {
  Keccak256 b := replicate 32 (SetBytes b mod 256);
  PubkeyToAddress k := k;
  curve_Sign d k := if decide (length d = 32%nat) then Some (replicate 64 k ++ [1]) else None;
  SigToAddress d sig := head sig;
  NewEntropy _ := None;
  entropy_mnemonic _ := None;
  NewSeedWithErrorChecking _ _ := None;
  NewFromSeed _ := None;
  DerivedKey _ _ := None;
}.
#[local] Instance toy_laws : CryptoLaws Z Z unit.
Proof. split; [done|]. intros d k. simpl. case_decide; [|done]. split_and!; auto. Qed.

Lemma sign_correct_witness :
  sign (mkSigner 9 "") [1; 2] (mkSignOpts false true true) (Some [5])
    = Ret (replicate 64 9 ++ [28], Some [5]) ∧
  SigToAddress (digest [1; 2] (mkSignOpts false true true) (Some [5])) (replicate 64 9 ++ [1]) = Some 9.
Proof.
  split; [done|].
  exact (proj2 (proj2 (proj2 (proj2 (proj1
    (sign_correct (mkSigner 9 "") [1; 2] (mkSignOpts false true true) (Some [5]))))))).
Defined.
