(* ===== verification/EntropyServer.v ===== *)
(** * EntropyServer: the block-signing server of [contracts/entropy/entropyserver]

    [main.go]: concurrent HTTP requests share one cached block number.  Each
    request runs in atomic steps (the load of the cache, the limiter, the call to
    the node, the compare-and-swap, the answer); a configuration interleaves any
    number of them. *)

From S2P Require Import Prelude GoStrings BigInt Secrets Signer.
From stdpp Require Import gmap strings.
Local Open Scope Z_scope.

(** [math.U256Bytes] of go-ethereum on numbers of 64 bits. *)
Class U256 := U256Bytes : Z → bytes.
Class U256Law `{U256} := U256Bytes_spec : ∀ x, 0 ≤ x < 2 ^ 256 →
  length (U256Bytes x) = 32%nat ∧ SetBytes (U256Bytes x) = x.

Inductive server_err :=
| OnlyGetMethod | NonNumericBlock | NegativeBlock | BlockNotMined
| FetchErr | SignErr (e : sign_err) | WriteErr.

(** Error texts are sent or hashed; a body is hexadecimal. *)
Inductive answer :=
| Hex (body : string)
| ErrText (e : server_err)
| Report (e : server_err).

(** [X-Cached-Block-Number], once set. *)
Record response := mkResponse { code : Z; resp_body : answer; isCached : option bool }.

(** [write_ok]: whether the body can be written. *)
Record request := mkRequest { Method : string; Path : string; write_ok : bool }.

Definition signerAddrEndpoint : string := "/signer".

Section server.
Context {K A W : Type} `{Crypto K A W, U256} (addr_bytes : A → bytes).

Record source := mkSource { signer : Signer K; chainID : Z }.
Context (s : source).

(** [ServeHTTP] on the result of a handler; 200 has written its body. *)
Definition respond (cached : option bool) (code : Z) (r : server_err + string) : response :=
  match r with
  | inr body => mkResponse 200 (Hex body) cached
  | inl e =>
      if (code =? 405) || (code =? 400) || (code =? 403)
      then mkResponse code (ErrText e) cached else mkResponse code (Report e) cached
  end.

Definition signerAddr (r : request) : response :=
  if write_ok r then respond None 200 (inr (EncodeToString (addr_bytes (Address (signer s)))))
  else respond None 500 (inl WriteErr).

Definition block_message (block chain : Z) : bytes := U256Bytes block ++ U256Bytes chain.

(** Where a request is: [blockMined] before the load, before the limiter, before
    the call to the node, before the compare-and-swap; then answered, or
    ended by a panic. *)
Inductive pc :=
| AtLoad (block : Z)
| AtAllow (block curr : Z)
| AtFetch (block curr : Z)
| AtSwap (block curr latest : Z)
| Answered (resp : response)
| Crashed.

(** [sign] once the block is known to be mined, on the request's block. *)
Definition sign_block (r : request) (cached : bool) (block : Z) : pc :=
  match PersonalSign (signer s) (block_message block (chainID s)) with
  | Ret sig =>
      if write_ok r then Answered (respond (Some cached) 200 (inr (EncodeToString sig)))
      else Answered (respond (Some cached) 500 (inl WriteErr))
  | Fail e => Answered (respond (Some cached) 500 (inl (SignErr e)))
  | Panic => Crashed
  end.

(** [ServeHTTP] and [sign] up to [blockMined]. *)
Definition start (r : request) : pc :=
  if bool_decide (Method r = "GET"%string) && bool_decide (Path r = signerAddrEndpoint)
  then Answered (signerAddr r)
  else if negb (bool_decide (Method r = "GET"%string)) then Answered (respond None 405 (inl OnlyGetMethod))
  else
    match Atoi (TrimPrefix "/" (Path r)) with
    | None => Answered (respond None 400 (inl NonNumericBlock))
    | Some reqBlock =>
        if reqBlock <? 0 then Answered (respond None 400 (inl NegativeBlock)) else AtLoad reqBlock
    end.

(** The shared block number, and (for the properties) what the node has reported. *)
Record shared := mkShared { currBlock : Z; reported : list Z }.

(** What the environment answers in a step: the limiter, and the node. *)
Record env := mkEnv { Allow : bool; latestBlock : option Z }.

Definition step_request (r : request) (e : env) (st : shared) (p : pc) : shared * pc :=
  match p with
  | AtLoad block =>
      let curr := currBlock st in
      if block <=? curr then (st, sign_block r true block) else (st, AtAllow block curr)
  | AtAllow block curr =>
      if Allow e then (st, AtFetch block curr)
      else (st, Answered (respond (Some true) 403 (inl BlockNotMined)))
  | AtFetch block curr =>
      match latestBlock e with
      | None => (st, Answered (respond (Some false) 500 (inl FetchErr)))
      | Some latest => (mkShared (currBlock st) (reported st ++ [latest]), AtSwap block curr latest)
      end
  | AtSwap block curr latest =>
      (mkShared (if currBlock st =? curr then latest else currBlock st) (reported st),
       if block <=? latest then sign_block r false block
       else Answered (respond (Some false) 403 (inl BlockNotMined)))
  | Answered _ | Crashed => (st, p)
  end.

Record config := mkConfig { cache : shared; requests : list (request * pc) }.

Definition init (rs : list request) : config := mkConfig (mkShared 0 []) ((λ r, (r, start r)) <$> rs).

(** Request [i] makes one step. *)
Definition step (c : config) (ie : nat * env) : config :=
  match requests c !! ie.1 with
  | None => c
  | Some (r, p) =>
      let '(st, p) := step_request r ie.2 (cache c) p in
      mkConfig st (<[ie.1 := (r, p)]> (requests c))
  end.

Definition run (c : config) (sched : list (nat * env)) : config := foldl step c sched.

(** ** Invariant *)

(** Mined, as far as the server can know: the genesis block, or one not beyond a
    block that the node reported. *)
Definition known_mined (st : shared) (block : Z) : Prop := block = 0 ∨ ∃ n, n ∈ reported st ∧ block ≤ n.

Definition requested_block (r : request) (block : Z) : Prop :=
  Method r = "GET"%string ∧ Path r ≠ signerAddrEndpoint ∧
  Atoi (TrimPrefix "/" (Path r)) = Some block ∧ 0 ≤ block.

(** What an answer of code 200 means. *)
Definition answer_ok (st : shared) (r : request) (resp : response) : Prop :=
  code resp = 200 →
    (Path r = signerAddrEndpoint ∧ resp_body resp = Hex (EncodeToString (addr_bytes (Address (signer s))))) ∨
    ∃ block sig, requested_block r block ∧ known_mined st block ∧
      PersonalSign (signer s) (block_message block (chainID s)) = Ret sig ∧
      resp_body resp = Hex (EncodeToString sig).

Definition request_ok (st : shared) (rp : request * pc) : Prop :=
  match rp.2 with
  | AtLoad block | AtAllow block _ | AtFetch block _ => requested_block rp.1 block
  | AtSwap block _ latest => requested_block rp.1 block ∧ latest ∈ reported st
  | Answered resp => answer_ok st rp.1 resp
  | Crashed => True
  end.

Definition cache_ok (st : shared) : Prop := currBlock st = 0 ∨ currBlock st ∈ reported st.

Lemma answer_error st r resp : code resp ≠ 200 → answer_ok st r resp.
Proof. by intros Hc Ha. Qed.

Lemma answer_signed st r cached block : requested_block r block → known_mined st block →
  request_ok st (r, sign_block r cached block).
Proof.
  intros Hr Hk. unfold sign_block, request_ok. destruct (PersonalSign _ _) as [sig|e|] eqn:E; simpl; [|by apply answer_error|done].
  destruct (write_ok r); [|by apply answer_error]. intros _. right. by exists block, sig.
Qed.

Lemma start_ok st r : request_ok st (r, start r).
Proof.
  unfold start, request_ok. simpl.
  destruct (bool_decide_reflect (Method r = "GET"%string)) as [Hm|Hm]; simpl.
  - case_bool_decide as Hp.
    + unfold signerAddr. destruct (write_ok r); [|by apply answer_error]. intros _. by left.
    + destruct (Atoi _) as [b|] eqn:Ea; [|by apply answer_error].
      destruct (Z.ltb_spec b 0); [by apply answer_error|]. done.
  - by apply answer_error.
Qed.

Lemma known_mined_mono st st' block : reported st ⊆ reported st' → known_mined st block → known_mined st' block.
Proof. intros Hs [?|(n & ? & ?)]; [by left|right; exists n; split; [by apply Hs|done]]. Qed.

Lemma request_ok_mono st st' rp : reported st ⊆ reported st' → request_ok st rp → request_ok st' rp.
Proof.
  intros Hs. destruct rp as [r p]. unfold request_ok. destruct p; simpl; try done.
  - intros [? ?]. split; [done|by apply Hs].
  - intros Ha Hc. destruct (Ha Hc) as [?|(b & sig & ? & ? & ? & ?)]; [by left|].
    right. exists b, sig. split_and!; try done. by eapply known_mined_mono.
Qed.

Lemma step_request_ok r e st p st' p' : cache_ok st → request_ok st (r, p) →
  step_request r e st p = (st', p') →
  reported st ⊆ reported st' ∧ cache_ok st' ∧ request_ok st' (r, p').
Proof.
  unfold cache_ok. intros Hc Hr. destruct p as [b|b c|b c|b c l|resp|]; simpl.
  - case_match eqn:Hb; intros [= <- <-]; (split_and!; [done|done|]); [|done].
    apply answer_signed; [done|]. apply Z.leb_le in Hb. destruct Hr as (_ & _ & _ & ?).
    destruct Hc as [Hc|Hc]; [left; lia|right; by exists (currBlock st)].
  - destruct (Allow e); intros [= <- <-]; (split_and!; [done|done|]); [done|by apply answer_error].
  - destruct (latestBlock e) as [l|]; intros [= <- <-]; [|split_and!; [done|done|by apply answer_error]].
    unfold request_ok. simpl. split_and!; [set_solver|set_solver|done|set_solver].
  - destruct Hr as [Hr Hl]. intros [= <- <-]. simpl. split_and!; [done|unfold cache_ok; simpl; destruct (currBlock st =? c); auto|].
    destruct (Z.leb_spec b l); [|by apply answer_error].
    apply answer_signed; [done|]. right. by exists l.
  - by intros [= <- <-].
  - by intros [= <- <-].
Qed.

Definition config_ok (c : config) : Prop := cache_ok (cache c) ∧ Forall (request_ok (cache c)) (requests c).

Lemma init_ok rs : config_ok (init rs).
Proof.
  split; [by left|]. simpl. apply Forall_fmap, Forall_forall. intros r _. apply start_ok.
Qed.

Lemma step_ok c ie : config_ok c → config_ok (step c ie).
Proof.
  intros [Hc Hr]. unfold step. destruct (requests c !! ie.1) as [[r p]|] eqn:El; [|done].
  destruct (step_request r ie.2 (cache c) p) as [st p'] eqn:Es.
  rewrite Forall_lookup in Hr. pose proof (Hr _ _ El) as Hp.
  apply step_request_ok in Es as (Hsub & Hc' & Hp'); [|done|done].
  split; [done|]. simpl. apply Forall_insert; [|done].
  apply Forall_lookup. intros i rp Hi. eapply request_ok_mono; [done|]. by eapply Hr.
Qed.

Lemma run_ok c sched : config_ok c → config_ok (run c sched).
Proof. revert c. induction sched as [|ie sched IH]; intros c Hc; [done|]. simpl. by apply IH, step_ok. Qed.
End server.

(** ** Termination of requests *)

(** The steps that a request still needs. *)
Definition to_go (p : pc) : nat :=
  match p with AtLoad _ => 4 | AtAllow _ _ => 3 | AtFetch _ _ => 2 | AtSwap _ _ _ => 1 | Answered _ | Crashed => 0 end.

Lemma start_to_go {K A W} `{Crypto K A W} (ab : A → bytes) s r : (to_go (start ab s r) ≤ 4)%nat.
Proof. unfold start. repeat case_match; simpl; lia. Qed.

Lemma sign_block_to_go {K A W} `{Crypto K A W, U256} (s : source) r cached b :
  to_go (sign_block s r cached b) = 0%nat.
Proof. unfold sign_block. by repeat case_match. Qed.

Lemma step_request_to_go {K A W} `{Crypto K A W, U256} (s : source) r e st p :
  (to_go (step_request s r e st p).2 ≤ to_go p - 1)%nat.
Proof. destruct p; simpl; repeat case_match; simpl; rewrite ?sign_block_to_go; lia. Qed.

Section properties.
Context {K A W : Type} `{CryptoLaws K A W, U256Law} (addr_bytes : A → bytes) (s : source (K:=K)).

Lemma PersonalSign_spec buf :
  match PersonalSign (signer s) buf with
  | Ret sig => SigToAddress (Keccak256 (WithPersonalMessagePrefix buf)) (unshift sig) = Some (Address (signer s))
  | Fail _ | Panic => False
  end.
Proof.
  unfold PersonalSign. pose proof (sign_signs (signer s) buf (mkSignOpts false true false) None) as Hs.
  destruct (sign _ _ _ _) as [[sig n]|e|]; simpl in *; [|by destruct e; naive_solver|done].
  destruct Hs as (_ & _ & Hn & _ & Hrec). unfold digest in Hrec. simpl in Hrec. rewrite Hn in Hrec.
  simpl in Hrec. by rewrite app_nil_r in Hrec.
Qed.

Lemma sign_block_answered r cached b : ∃ resp, sign_block s r cached b = Answered resp.
Proof.
  unfold sign_block. pose proof (PersonalSign_spec (block_message b (chainID s))).
  destruct (PersonalSign _ _); [|done..]. destruct (write_ok r); eauto.
Qed.

Lemma step_request_no_crash r e st p : p ≠ Crashed → (step_request s r e st p).2 ≠ Crashed.
Proof.
  intros Hp. destruct p; simpl; repeat case_match; simpl; try done;
    match goal with |- sign_block ?s ?r ?c ?b ≠ _ => destruct (sign_block_answered r c b) as [? ->] end; done.
Qed.

Lemma step_lookup c ie i r p : requests c !! i = Some (r, p) → p ≠ Crashed →
  ∃ p', requests (step s c ie) !! i = Some (r, p') ∧ p' ≠ Crashed ∧
    (to_go p' ≤ to_go p - if decide (ie.1 = i) then 1 else 0)%nat.
Proof.
  intros Hi Hp. unfold step. destruct (decide (ie.1 = i)) as [<-|Hne].
  - rewrite Hi. pose proof (step_request_no_crash r ie.2 (cache c) p Hp) as Hn.
    pose proof (step_request_to_go s r ie.2 (cache c) p) as Hg.
    destruct (step_request _ _ _ _ _) as [st p']. simpl in *. exists p'. split; [|done].
    apply list_lookup_insert_eq. by eapply lookup_lt_Some.
  - destruct (requests c !! ie.1) as [[r0 p0]|]; [|exists p; split_and!; [done|done|lia]].
    destruct (step_request _ _ _ _ _) as [st p']. simpl. exists p.
    rewrite list_lookup_insert_ne by done. split_and!; [done|done|lia].
Qed.

Definition steps_of (i : nat) (sched : list (nat * env)) : nat := length (filter (λ ie, ie.1 = i) sched).

Lemma run_lookup c sched i r p : requests c !! i = Some (r, p) → p ≠ Crashed →
  ∃ p', requests (run s c sched) !! i = Some (r, p') ∧ p' ≠ Crashed ∧ (to_go p' ≤ to_go p - steps_of i sched)%nat.
Proof.
  revert c p. induction sched as [|ie sched IH]; intros c p Hi Hp; [exists p; split_and!; [done|done|unfold steps_of; simpl; lia]|].
  destruct (step_lookup c ie i r p Hi Hp) as (p1 & Hi1 & Hp1 & Hg1).
  destruct (IH _ _ Hi1 Hp1) as (p2 & ? & ? & ?). exists p2. split_and!; [done|done|].
  unfold steps_of in *. rewrite filter_cons. destruct (decide (ie.1 = i)); simpl; lia.
Qed.

Lemma start_no_crash r : start addr_bytes s r ≠ Crashed.
Proof. unfold start. by repeat case_match. Qed.

Lemma block_message_inj b c b' c' : 0 ≤ b < 2 ^ 256 → 0 ≤ c < 2 ^ 256 → 0 ≤ b' < 2 ^ 256 → 0 ≤ c' < 2 ^ 256 →
  WithPersonalMessagePrefix (block_message b c) = WithPersonalMessagePrefix (block_message b' c') → b = b' ∧ c = c'.
Proof.
  intros Hb Hc Hb' Hc' E%WithPersonalMessagePrefix_inj. unfold block_message in E.
  destruct (U256Bytes_spec b Hb) as [L1 <-], (U256Bytes_spec c Hc) as [_ <-],
    (U256Bytes_spec b' Hb') as [L2 <-], (U256Bytes_spec c' Hc') as [_ <-].
  apply app_inj_1 in E as [-> ->]; [done|]. by rewrite L1, L2.
Qed.
End properties.

(** C10. In every interleaving of requests and whatever the node reports, a request
    answered with 200 either asked for the signer's address and got it, or got a
    signature on the block that it asked for and the server's chain, the signature
    recovers to the signer, and the block is zero or not beyond a block that the node
    had reported; no request crashes, and signatures of different blocks or chains
    are over different messages. *)
Theorem signed_only_mined {K A W} `{CryptoLaws K A W, U256Law} (addr_bytes : A → bytes) (s : source) rs sched i r p :
  let c := run s (init addr_bytes s rs) sched in
  requests c !! i = Some (r, p) →
  p ≠ Crashed ∧
  (∀ resp, p = Answered resp → code resp = 200 →
    (Path r = signerAddrEndpoint ∧ resp_body resp = Hex (EncodeToString (addr_bytes (Address (signer s))))) ∨
    ∃ block sig, requested_block r block ∧ (block = 0 ∨ ∃ n, n ∈ reported (cache c) ∧ block ≤ n) ∧
      resp_body resp = Hex (EncodeToString sig) ∧
      SigToAddress (Keccak256 (WithPersonalMessagePrefix (block_message block (chainID s)))) (unshift sig)
        = Some (Address (signer s)) ∧
      (∀ block' chain', 0 ≤ block < 2 ^ 256 → 0 ≤ chainID s < 2 ^ 256 → 0 ≤ block' < 2 ^ 256 →
         0 ≤ chain' < 2 ^ 256 →
         WithPersonalMessagePrefix (block_message block (chainID s))
         = WithPersonalMessagePrefix (block_message block' chain') → block = block' ∧ chainID s = chain')).
Proof.
  intros c Hi. split.
  - assert (i < length rs)%nat as Hlt.
    { apply lookup_lt_Some in Hi. unfold c in Hi. clear -Hi.
      assert (∀ c, length (requests (run s c sched)) = length (requests c)) as Hl.
      { clear. intros c. revert c. induction sched as [|ie l IH]; intros c; [done|]. simpl. rewrite IH.
        unfold step. destruct (requests c !! ie.1) as [[r p]|]; [|done].
        destruct (step_request _ _ _ _ _). simpl. by rewrite length_insert. }
      rewrite Hl in Hi. simpl in Hi. by rewrite length_fmap in Hi. }
    apply lookup_lt_is_Some in Hlt as [r0 Hr0].
    assert (requests (init addr_bytes s rs) !! i = Some (r0, start addr_bytes s r0)) as H0i.
    { simpl. by rewrite list_lookup_fmap, Hr0. }
    destruct (run_lookup s _ sched i _ _ H0i (start_no_crash addr_bytes s r0)) as (p' & Hp' & ? & _).
    unfold c in Hi. congruence.
  - intros resp -> Hcode.
    destruct (run_ok addr_bytes s _ sched (init_ok addr_bytes s rs)) as [_ Hok].
    rewrite Forall_lookup in Hok. destruct (Hok _ _ Hi Hcode) as [?|(b & sig & Hreq & Hk & Hsig & Hbody)]; [by left|].
    right. exists b, sig. split_and!; try done.
    + pose proof (PersonalSign_spec s (block_message b (chainID s))) as Hs. by rewrite Hsig in Hs.
    + intros *. apply block_message_inj.
Qed.

(** A request is answered after at most four of its own steps, whatever the other
    requests do in between. *)
Theorem requests_answered {K A W} `{CryptoLaws K A W} `{U256} (addr_bytes : A → bytes) (s : source) rs sched i r :
  rs !! i = Some r → (4 ≤ steps_of i sched)%nat →
  ∃ resp, requests (run s (init addr_bytes s rs) sched) !! i = Some (r, Answered resp).
Proof.
  intros Hr Hs.
  assert (requests (init addr_bytes s rs) !! i = Some (r, start addr_bytes s r)) as Hi.
  { simpl. by rewrite list_lookup_fmap, Hr. }
  destruct (run_lookup s _ sched i _ _ Hi (start_no_crash addr_bytes s r)) as (p & Hp & Hn & Hg).
  pose proof (start_to_go addr_bytes s r). destruct p as [| | | |resp|]; simpl in Hg; try lia; [by exists resp|done].
Qed.

(** ** Start-up *)

(** go-ethereum's client. *)
Class EthClient (C : Type) := { DialContext : string → option C; ChainID : C → option Z }.

Inductive start_err := FetchURL (e : secret_err) | DialErr | ChainIDErr | HotsignerErr (chain : bytes).

Section start_up.
(** The keys of [hotsigner], by seed and index. *)
Context {K A W C : Type} `{Crypto K A W, U256, EthClient C} (hotsigner_New : bytes → Z → option (Signer K)).

Definition uint256Bytes (x : Z) : bytes := U256Bytes x.

(** The interval of blocks only configures the limiter. *)
Definition newSource (s : Signer K) (chain : Z) : source (K:=K) := mkSource s chain.

(** Up to the source that is served, and the client that it asks for blocks. *)
Definition config_run (gcp : string → option string) (environ : gmap string string) (ethRPCURL : Secret)
    : outcome start_err (C * source (K:=K)) :=
  nodeURL ← map_err FetchURL (Fetch gcp environ ethRPCURL);
  match DialContext nodeURL with
  | None => Fail DialErr
  | Some client =>
      match ChainID client with
      | None => Fail ChainIDErr
      | Some id =>
          let chain := uint256Bytes (u64 id) in
          match hotsigner_New chain 0 with
          | None => Fail (HotsignerErr chain)
          | Some signer => Ret (client, newSource signer (u64 id))
          end
      end
  end.

(** The chain of the node, in 64 bits, is both what the messages name and the seed of the
    key, so that servers of different chains have keys of different seeds. *)
Lemma config_run_chain `{!U256Law} gcp environ url client src : config_run gcp environ url = Ret (client, src) →
  ∃ id, ChainID client = Some id ∧ chainID src = u64 id ∧ hotsigner_New (uint256Bytes (u64 id)) 0 = Some (signer src) ∧
    ∀ id', 0 ≤ id' < 2 ^ 64 → uint256Bytes id' = uint256Bytes (u64 id) → id' = u64 id.
Proof.
  unfold config_run. destruct (Fetch _ _ _) as [u|e|]; simpl; [|done..]. destruct (DialContext u) as [c|]; [|done].
  destruct (ChainID c) as [id|] eqn:Ei; [|done]. destruct (hotsigner_New _ _) as [sg|] eqn:Es; [|done]. intros [= -> <-].
  exists id. split_and!; [done..|]. intros id' Hid Hb.
  pose proof (uwrap_range 64 ltac:(done) id). destruct (U256Bytes_spec id') as [_ <-]; [lia|].
  destruct (U256Bytes_spec (u64 id)) as [_ <-]; [lia|]. by f_equal.
Qed.
End start_up.

(** ** Examples *)

#[local] Existing Instance toy.
#[local] Existing Instance toy_laws.

#[local] Instance u256 : U256 := λ x, replicate (32 - length (big_Bytes x)) 0 ++ big_Bytes x.
#[local] Instance u256_law : U256Law.
Proof.
  intros x Hx. unfold U256Bytes, u256. destruct (SetBytes_big_Bytes x) as [E _].
  pose proof (big_Bytes_length x 32) as L. rewrite Z.abs_eq in * by lia.
  rewrite SetBytes_zeros, length_app, length_replicate. split; [|done].
  specialize (L ltac:(apply Hx)). lia.
Qed.

Definition example_source : source := mkSource (mkSigner 9 "") 1.
Definition get (path : string) : request := mkRequest "GET" path true.
Definition node (n : Z) : env := mkEnv true (Some n).

(** Two requests race for the same cache; the third is refused by the limiter. *)
Definition race : list (nat * env) :=
  [(0, node 100); (1, node 100); (0, node 100); (1, node 100); (0, node 100); (1, node 101);
   (0, node 0); (1, node 0); (2, node 0); (2, mkEnv false None)]%nat.

Definition racing : config :=
  run example_source (init (λ a, [a]) example_source [get "/100"; get "/101"; get "/102"]) race.

Lemma signed_only_mined_witness :
  (code <$> (requests racing ≫= λ rp, match rp.2 with Answered a => [a] | _ => [] end)) = [200; 200; 403] ∧
  ∃ n, n ∈ reported (cache racing) ∧ 100 ≤ n.
Proof.
  split; [by vm_compute|].
  assert (∃ p, requests racing !! 0%nat = Some (get "/100", p)) as [p Hp] by (eexists; by vm_compute).
  destruct (signed_only_mined (λ a, [a]) example_source [get "/100"; get "/101"; get "/102"] race 0
    (get "/100") p Hp) as [_ Hsig].
  assert (∃ resp, p = Answered resp ∧ code resp = 200) as (resp & -> & Hc).
  { vm_compute in Hp. injection Hp as <-. eexists. by split. }
  destruct (Hsig resp eq_refl Hc) as [[? _]|(b & sig & (_ & _ & Hb & _) & Hk & _)]; [done|].
  vm_compute in Hb. injection Hb as <-. destruct Hk as [?|Hk]; done.
Defined.

Lemma requests_answered_witness :
  ∃ resp, requests racing !! 1%nat = Some (get "/101", Answered resp).
Proof.
  apply (requests_answered (λ a, [a]) example_source [get "/100"; get "/101"; get "/102"] race 1 (get "/101"));
    [done|by vm_compute; lia].
Defined.

(** The cache can go back: a node that reports an older block than the cached one
    makes the server forget what is mined. *)
Example cache_regresses :
  let c := run example_source (init (λ a, [a]) example_source [get "/100"; get "/101"])
             [(0, node 100); (0, node 100); (0, node 100); (0, node 100);
              (1, node 99); (1, node 99); (1, node 99); (1, node 99)]%nat in
  currBlock (cache c) = 99 ∧ reported (cache c) = [100; 99].
Proof. by vm_compute. Qed.
