(* ===== verification/Wallet.v ===== *)
(** * Wallet: USB hardware wallets of [go/usbwallet]

    The event loop ([eventloop.go]), account derivation and signing
    ([accounts.go]) and shutdown ([wallet.go]).  The entries of the wallet map are
    pointers, which a [SignerFn] keeps: they are positions in a heap.  The
    [available] Toggle is its state, which [Toggle] implements; shutdown is modelled
    apart, with its channels. *)

From S2P Require Import Prelude Switch Toggle GoStrings.
From stdpp Require Import gmap strings.
Local Open Scope Z_scope.

Abbreviation URL := string.

(** ** The status line of a Ledger *)

Fixpoint skip_digits (s : string) : string :=
  match s with
  | String c s' => if bool_decide (is_Some (digit_value c)) then skip_digits s' else s
  | EmptyString => s
  end.

(** [\d+] *)
Definition digits1 (s : string) : option string :=
  match s with
  | String c s' => if bool_decide (is_Some (digit_value c)) then Some (skip_digits s') else None
  | EmptyString => None
  end.

(** [ledgerAppOnlineRE]: no digit is a dot or a space, so longest matches suffice. *)
Definition ledgerAppOnline (status : string) : bool :=
  match (s ← cut_prefix "Ethereum app v" status;
         s ← digits1 s; s ← cut_prefix "." s; s ← digits1 s; s ← cut_prefix "." s; s ← digits1 s;
         cut_prefix " online" s) with
  | Some rest => bool_decide (rest = EmptyString)
  | None => false
  end.

Example ledgerAppOnline_examples :
  ledgerAppOnline <$> ["Ethereum app v1.10.2 online"; "Ethereum app v1.10 online"; "Ethereum app offline";
    "Ethereum app v1.10.2 online "]%string = [true; false; false; false].
Proof. by vm_compute. Qed.

(** ** State *)

Record walletAndStatus (W : Type) := mkWallet { dev : W; url : URL; deviceOpen : bool; appOpen : bool }.
Arguments mkWallet {W} dev url deviceOpen appOpen.
Arguments dev {W} _.
Arguments url {W} _.
Arguments deviceOpen {W} _.
Arguments appOpen {W} _.

Definition open {W} (w : walletAndStatus W) : bool := deviceOpen w && appOpen w.

Inductive wallet_err :=
| SubClosed | SubErr (e : string)
| OpenErr (u : URL) | StatusErr | UnrecognisedStatus (status : string) | CloseErr (u : URL)
| UnrecognisedKind (k : Z)
| NoWalletsOpen | AmbiguousDerivation | DeriveErr | NoAccount (index : Z)
| WrongAccount | ClosedSincePinned | SignTxErr.

(** [heap !! p] is what the pointer [p] points to. *)
Record Wallet (W : Type) := mkState {
  heap : list (walletAndStatus W);
  wallets : gmap URL nat;
  available : bool;
  errs : list wallet_err;
}.
Arguments mkState {W} heap wallets available errs.
Arguments heap {W} _.
Arguments wallets {W} _.
Arguments available {W} _.
Arguments errs {W} _.

Inductive event_kind := WalletArrived | WalletOpened | WalletDropped | OtherKind (k : Z).

(** An event with what the device answers while it is handled: whether [Open] and
    [Close] succeed, and its [Status]. *)
Record WalletEvent (W : Type) := mkEvent {
  ev_dev : W; ev_url : URL; ev_kind : event_kind;
  Open_ok : bool; Status : option string; Close_ok : bool;
}.
Arguments mkEvent {W} ev_dev ev_url ev_kind Open_ok Status Close_ok.
Arguments ev_dev {W} _.
Arguments ev_url {W} _.
Arguments ev_kind {W} _.
Arguments Open_ok {W} _.
Arguments Status {W} _.
Arguments Close_ok {W} _.

Definition errChanBuffer : nat := 16.

Section loop.
Context {W : Type}.

Definition construct : Wallet W := mkState [] ∅ false [].

(** [&walletAndStatus{...}] *)
Definition alloc (w : walletAndStatus W) (st : Wallet W) : Wallet W :=
  mkState (heap st ++ [w]) (<[url w := length (heap st)]> (wallets st)) (available st) (errs st).

Definition with_heap (st : Wallet W) (h : list (walletAndStatus W)) : Wallet W :=
  mkState h (wallets st) (available st) (errs st).

Definition set_deviceOpen (w : walletAndStatus W) : walletAndStatus W := mkWallet (dev w) (url w) true (appOpen w).
Definition set_appOpen (w : walletAndStatus W) : walletAndStatus W := mkWallet (dev w) (url w) (deviceOpen w) true.

(** [WalletOpened] up to the status. *)
Definition opened (ev : WalletEvent W) (st : Wallet W) : Wallet W :=
  let st := match wallets st !! ev_url ev with
            | Some _ => st
            | None => alloc (mkWallet (ev_dev ev) (ev_url ev) false false) st
            end in
  with_heap st (alter set_deviceOpen (default 0%nat (wallets st !! ev_url ev)) (heap st)).

(** The switch over the kind of an event. *)
Definition handle (ev : WalletEvent W) (st : Wallet W) : Wallet W * option wallet_err :=
  let u := ev_url ev in
  match ev_kind ev with
  | WalletArrived =>
      let st := alloc (mkWallet (ev_dev ev) u false false) st in
      if Open_ok ev then (st, None) else (st, Some (OpenErr u))
  | WalletOpened =>
      let st := opened ev st in
      let p := default 0%nat (wallets st !! u) in
      match Status ev with
      | None => (st, Some StatusErr)
      | Some status =>
          if decide (status = "Ethereum app offline"%string) then (st, None)
          else if ledgerAppOnline status then (with_heap st (alter set_appOpen p (heap st)), None)
          else (st, Some (UnrecognisedStatus status))
      end
  | WalletDropped =>
      match wallets st !! u with
      | None => (st, None)
      | Some _ =>
          if Close_ok ev
          then (mkState (heap st) (delete u (wallets st)) (available st) (errs st), None)
          else (st, Some (CloseErr u))
      end
  | OtherKind k => (st, Some (UnrecognisedKind k))
  end.

Definition any_open (st : Wallet W) : bool :=
  existsb (λ up : URL * nat, match heap st !! up.2 with Some w => open w | None => false end)
    (map_to_list (wallets st)).

(** The deferred update of the Toggle. *)
Definition set_available (st : Wallet W) : Wallet W :=
  mkState (heap st) (wallets st) (any_open st) (errs st).

(** What [select] receives: an event, or an error (or the close) of the subscription. *)
Inductive input := Event (ev : WalletEvent W) | SubscriptionErr (e : option string).

Definition eventLoop (i : input) (st : Wallet W) : Wallet W * option wallet_err :=
  match i with
  | SubscriptionErr None => (st, Some SubClosed)
  | SubscriptionErr (Some e) => (st, Some (SubErr e))
  | Event ev => let '(st, e) := handle ev st in (set_available st, e)
  end.

(** One iteration of [listen]: errors are dropped when the buffer is full. *)
Definition listen_step (st : Wallet W) (i : input) : Wallet W :=
  let '(st, e) := eventLoop i st in
  match e with
  | Some e => if (length (errs st) <? errChanBuffer)%nat
              then mkState (heap st) (wallets st) (available st) (errs st ++ [e]) else st
  | None => st
  end.

Definition listen (st : Wallet W) (ins : list input) : Wallet W := foldl listen_step st ins.
End loop.
Arguments input W : clear implicits.

(** ** Accounts *)

Section accounts.
Context {W A T : Type} `{EqDecision A} (zeroAddr : A).
(** [Wallet.Derive] and [Wallet.SignTx] of a device. *)
Context (Derive : W → list Z → option A) (SignTx : W → A → T → Z → option T).

(** [path[i] += index] on [uint32]; out of range panics. *)
Definition add_at (i : nat) (index : Z) (path : list Z) : outcome wallet_err (list Z) :=
  x ← or_panic (path !! i); Ret (<[i := u32 (x + index)]> path).

Definition derivationPath (ledger : bool) (basePath : list Z) (index : Z) : outcome wallet_err (list Z) :=
  if ledger then add_at 2 index basePath
  else if decide (basePath = []) then Panic else add_at (length basePath - 1) index basePath.

(** The loop over the wallets, in the order of the map's range. *)
Fixpoint derive_loop (st : Wallet W) (path : list Z) (addr : A) (index : Z) (ps : list nat)
    : outcome wallet_err (nat * A) :=
  match ps with
  | [] => Fail (NoAccount index)
  | p :: ps =>
      w ← or_panic (heap st !! p);
      if negb (open w) then derive_loop st path addr index ps
      else
        match Derive (dev w) path with
        | None => Fail DeriveErr
        | Some acc =>
            if negb (bool_decide (addr = zeroAddr)) && negb (bool_decide (acc = addr))
            then derive_loop st path addr index ps else Ret (p, acc)
        end
  end.

Definition derive (ledger : bool) (basePath : list Z) (st : Wallet W) (order : list nat) (index : Z)
    (expectedAddr : option A) : outcome wallet_err (nat * A) :=
  let addr := default zeroAddr expectedAddr in
  path ← derivationPath ledger basePath index;
  if decide (length order = 0%nat) then Fail NoWalletsOpen
  else if negb (bool_decide (length order = 1%nat)) && bool_decide (addr = zeroAddr)
  then Fail AmbiguousDerivation
  else derive_loop st path addr index order.

(** The closure that [SignerFn] returns, on the pinned pointer and account. *)
Definition sign_with (p : nat) (acc : A) (chainID : Z) (st : Wallet W) (signAddr : A) (tx : T)
    : outcome wallet_err T :=
  if negb (bool_decide (signAddr = acc)) then Fail WrongAccount
  else
    w ← or_panic (heap st !! p);
    if negb (open w) then Fail ClosedSincePinned
    else match SignTx (dev w) acc tx chainID with None => Fail SignTxErr | Some tx => Ret tx end.
End accounts.

(** ** What the map and the Toggle say about devices *)

Section properties.
Context {W : Type}.
Implicit Types (st : Wallet W) (ev : WalletEvent W).

(** What is known of a URL, as if there were no pointers: is it there, and are the
    device and the app open. *)
Definition view st (u : URL) : option (bool * bool) :=
  p ← wallets st !! u; w ← heap st !! p; Some (deviceOpen w, appOpen w).

(** The specification of an event on one URL. *)
Definition online (ev : WalletEvent W) : bool :=
  match Status ev with Some s => ledgerAppOnline s | None => false end.

Definition view_step ev (v : option (bool * bool)) : option (bool * bool) :=
  match ev_kind ev with
  | WalletArrived => Some (false, false)
  | WalletOpened => Some (true, online ev || match v with Some (_, a) => a | None => false end)
  | WalletDropped => if Close_ok ev then None else v
  | OtherKind _ => v
  end.

(** Every entry points to a wallet of its URL, each to its own. *)
Definition pointers_ok st : Prop :=
  ∀ u p, wallets st !! u = Some p → ∃ w, heap st !! p = Some w ∧ url w = u.

Lemma pointers_inj st u u' p : pointers_ok st → wallets st !! u = Some p → wallets st !! u' = Some p → u = u'.
Proof. intros Hok (w & Hw & <-)%Hok (w' & Hw' & <-)%Hok. congruence. Qed.

Lemma alloc_ok w st : pointers_ok st → pointers_ok (alloc w st).
Proof.
  intros Hok u p. simpl. intros [[<- <-]|[Hne Hp]]%lookup_insert_Some.
  - exists w. split; [|done]. by apply list_lookup_middle.
  - destruct (Hok u p Hp) as (w' & Hw' & <-). exists w'. split; [|done]. by apply lookup_app_l_Some.
Qed.

Lemma alloc_view w st u : pointers_ok st →
  view (alloc w st) u = if decide (u = url w) then Some (deviceOpen w, appOpen w) else view st u.
Proof.
  intros Hok. unfold view. simpl. case_decide as Hu.
  - subst. rewrite lookup_insert_eq. simpl. by rewrite list_lookup_middle.
  - rewrite lookup_insert_ne by done. destruct (wallets st !! u) as [p|] eqn:E; [|done]. simpl.
    destruct (Hok u p E) as (w' & Hw' & _). by rewrite Hw', (lookup_app_l_Some _ _ _ _ Hw').
Qed.

Lemma alter_ok f p st : (∀ w, url (f w) = url w) → pointers_ok st → pointers_ok (with_heap st (alter f p (heap st))).
Proof.
  intros Hf Hok u p' Hp'. destruct (Hok u p' Hp') as (w & Hw & <-). simpl.
  destruct (decide (p = p')) as [<-|].
  - exists (f w). split; [|done]. by rewrite list_lookup_alter_eq, Hw.
  - exists w. split; [|done]. by rewrite list_lookup_alter_ne.
Qed.

Lemma alter_view f st u p u' : pointers_ok st → wallets st !! u = Some p →
  view (with_heap st (alter f p (heap st))) u' =
    if decide (u' = u) then w ← heap st !! p; Some (deviceOpen (f w), appOpen (f w)) else view st u'.
Proof.
  intros Hok Hp. unfold view. simpl. case_decide as Hu.
  - subst. rewrite Hp. simpl. rewrite list_lookup_alter_eq. by destruct (heap st !! p).
  - destruct (wallets st !! u') as [p'|] eqn:E; [|done]. simpl.
    rewrite list_lookup_alter_ne; [done|]. intros <-. apply Hu. by eapply pointers_inj.
Qed.

Lemma opened_ok ev st : pointers_ok st → pointers_ok (opened ev st) ∧
  (∃ p, wallets (opened ev st) !! ev_url ev = Some p) ∧
  ∀ u, view (opened ev st) u =
    if decide (u = ev_url ev) then Some (true, match view st u with Some (_, a) => a | None => false end) else view st u.
Proof.
  intros Hok. unfold opened. destruct (wallets st !! ev_url ev) as [p|] eqn:E.
  - split_and!; [by apply alter_ok|by exists p|]. intros u. rewrite E. simpl default.
    rewrite (alter_view _ st (ev_url ev) p u Hok E). case_decide as Hu; [|done]. subst.
    destruct (Hok _ _ E) as (w & Hw & _). unfold view. by rewrite E, Hw; simpl; rewrite Hw.
  - set (st' := alloc _ st). assert (pointers_ok st') as Hok' by by apply alloc_ok.
    assert (wallets st' !! ev_url ev = Some (length (heap st))) as E' by (simpl; by rewrite lookup_insert_eq).
    split_and!; [by apply alter_ok|by eexists|]. intros u. rewrite E'. simpl default.
    rewrite (alter_view _ st' (ev_url ev) _ u Hok' E'). case_decide as Hu.
    + subst. simpl. rewrite list_lookup_middle by done. simpl. unfold view. by rewrite E.
    + unfold st'. rewrite alloc_view by done. simpl. by rewrite decide_False.
Qed.

Lemma handle_ok ev st st' e : pointers_ok st → handle ev st = (st', e) →
  pointers_ok st' ∧ errs st' = errs st ∧
  ∀ u, view st' u = if decide (u = ev_url ev) then view_step ev (view st u) else view st u.
Proof.
  intros Hok. unfold handle, view_step. destruct (ev_kind ev) eqn:Ek.
  - intros Hh. assert (st' = alloc (mkWallet (ev_dev ev) (ev_url ev) false false) st) as ->.
    { destruct (Open_ok ev); by simplify_eq. }
    split_and!; [by apply alloc_ok|done|]. intros u. by rewrite alloc_view.
  - destruct (opened_ok ev st Hok) as (Hok' & [p Hp] & Hview).
    assert (errs (opened ev st) = errs st) as He by (unfold opened; by destruct (wallets st !! ev_url ev)).
    revert Hok' Hp Hview He. generalize (opened ev st) as so. intros so Hok' Hp Hview He.
    assert (ledgerAppOnline "Ethereum app offline" = false) as Hoff by by vm_compute.
    unfold online. destruct (Status ev) as [status|]; [|by intros [= <- _]].
    destruct (decide (status = _)) as [->|]; [by rewrite Hoff; intros [= <- _]|].
    destruct (ledgerAppOnline status); intros [= <- _]; [|done].
    split_and!; [by apply alter_ok|done|]. intros u. rewrite Hp. simpl default.
    rewrite (alter_view _ _ _ _ u Hok' Hp). rewrite Hview. case_decide as Hu; [|done]. subst.
    specialize (Hview (ev_url ev)). rewrite decide_True in Hview by done. unfold view in Hview at 1.
    rewrite Hp in Hview. simpl in Hview. destruct (heap so !! p); simplify_eq/=. by f_equal; f_equal.
  - destruct (wallets st !! ev_url ev) as [p|] eqn:Hp.
    + destruct (Close_ok ev); intros [= <- _]; [|split_and!; [done|done|intros u; by case_decide; subst]].
      split_and!; [|done|].
      * intros u p'. simpl. intros [_ ?]%lookup_delete_Some. by apply Hok.
      * intros u. unfold view. simpl. case_decide as Hu; [subst; by rewrite lookup_delete_eq|].
        by rewrite lookup_delete_ne.
    + intros [= <- _]. split_and!; [done|done|]. intros u. case_decide as Hu; [|done]. subst.
      unfold view. rewrite Hp. simpl. by destruct (Close_ok ev).
  - intros [= <- _]. split_and!; [done|done|]. intros u. by case_decide; subst.
Qed.

(** The specification of a whole history on one URL. *)
Definition view_input (u : URL) (v : option (bool * bool)) (i : input W) : option (bool * bool) :=
  match i with
  | Event ev => if decide (u = ev_url ev) then view_step ev v else v
  | SubscriptionErr _ => v
  end.

Definition is_open (v : option (bool * bool)) : bool := match v with Some (d, a) => d && a | None => false end.

Lemma any_open_view st : pointers_ok st → any_open st = true ↔ ∃ u, is_open (view st u) = true.
Proof.
  intros Hok. unfold any_open. rewrite existsb_exists. unfold is_open, view. split.
  - intros ([u p] & Hin%list_elem_of_In%elem_of_map_to_list & Ho). exists u. simpl in *.
    rewrite Hin. simpl. by destruct (heap st !! p).
  - intros [u Ho]. destruct (wallets st !! u) as [p|] eqn:Hp; [|done]. simpl in Ho.
    exists (u, p). split; [by apply list_elem_of_In, elem_of_map_to_list|]. simpl. by destruct (heap st !! p).
Qed.

Definition state_ok st : Prop :=
  pointers_ok st ∧ available st = any_open st ∧ (length (errs st) ≤ errChanBuffer)%nat.

Lemma listen_step_ok st i : state_ok st →
  state_ok (listen_step st i) ∧ ∀ u, view (listen_step st i) u = view_input u (view st u) i.
Proof.
  intros (Hok & Ha & He).
  assert (∀ st' e, pointers_ok st' → available st' = any_open st' → errs st' = errs st →
    let st'' := (match e with Some e => if (length (errs st') <? errChanBuffer)%nat
      then mkState (heap st') (wallets st') (available st') (errs st' ++ [e]) else st' | None => st' end) in
    state_ok st'' ∧ ∀ u, view st'' u = view st' u) as Hpush.
  { intros st' e Hok' Ha' He'. destruct e as [e|]; simpl; [|split; [split_and!; [done|done|by rewrite He']|done]].
    destruct (Nat.ltb_spec (length (errs st')) errChanBuffer); (split; [|done]).
    - split_and!; [done|done|]. simpl. rewrite length_app. simpl. lia.
    - split_and!; [done|done|by rewrite He']. }
  unfold listen_step. destruct i as [ev|e]; simpl.
  - destruct (handle ev st) as [st' e] eqn:Eh. apply handle_ok in Eh as (Hok' & He' & Hv); [|done].
    destruct (Hpush (set_available st') e Hok' eq_refl He') as [Hs Hv'].
    split; [done|]. intros u. rewrite Hv'. change (view (set_available st') u) with (view st' u). apply Hv.
  - destruct (Hpush st (Some (match e with Some e => SubErr e | None => SubClosed end)) Hok Ha eq_refl) as [Hs Hv].
    destruct e; by split.
Qed.

Lemma listen_ok st ins : state_ok st →
  state_ok (listen st ins) ∧ ∀ u, view (listen st ins) u = foldl (view_input u) (view st u) ins.
Proof.
  revert st. induction ins as [|i ins IH]; intros st Hst; [done|]. simpl.
  destruct (listen_step_ok st i Hst) as [Hst' Hv]. destruct (IH _ Hst') as [? Hv'].
  split; [done|]. intros u. by rewrite Hv', Hv.
Qed.

(** *** What the devices are

    A device is ready when, by the last event of its URL, it is connected with its app
    online: a drop disconnects it, whether or not closing it succeeds, and its status is what
    it last said.  This is what [open] and [Wait] are documented to mean. *)
Definition ready_step (u : URL) (r : bool) (i : input W) : bool :=
  match i with
  | Event ev =>
      if decide (u = ev_url ev) then
        match ev_kind ev with
        | WalletArrived | WalletDropped => false
        | WalletOpened => online ev
        | OtherKind _ => r
        end
      else r
  | SubscriptionErr _ => r
  end.

Definition ready (ins : list (input W)) (u : URL) : bool := foldl (ready_step u) false ins.

(** An event that the loop follows: a ready device is closed when it is dropped, and stays
    online when it is opened again. *)
Definition follows (u : URL) (r : bool) (i : input W) : Prop :=
  match i with
  | Event ev => u = ev_url ev → r = true →
      (ev_kind ev = WalletDropped → Close_ok ev = true) ∧ (ev_kind ev = WalletOpened → online ev = true)
  | SubscriptionErr _ => True
  end.

Definition followed (ins : list (input W)) : Prop :=
  ∀ ins' i u, ins' ++ [i] `prefix_of` ins → follows u (ready ins' u) i.

Lemma followed_prefix ins ins' : ins' `prefix_of` ins → followed ins → followed ins'.
Proof. intros Hp Hf ins0 i u Hi. apply Hf. by etrans. Qed.

(** The app is held to be open only where the device is. *)
Definition coupled (v : option (bool * bool)) : Prop := match v with Some (d, a) => a = true → d = true | None => True end.

Lemma view_ready ins u :
  let v := foldl (view_input u) None ins in
  coupled v ∧ (ready ins u = true → is_open v = true) ∧ (followed ins → is_open v = ready ins u).
Proof.
  induction ins as [|i ins IH] using rev_ind; [done|]. cbv zeta in *. unfold ready in *. rewrite !foldl_app. cbn [foldl].
  destruct IH as (Hc & Hr & Hf).
  assert (followed (ins ++ [i]) → followed ins ∧ follows u (ready ins u) i) as Hsplit.
  { intros H. split; [|by apply H]. eapply followed_prefix; [|exact H]. by apply prefix_app_r. }
  unfold ready in Hsplit. revert Hc Hr Hf Hsplit.
  generalize (foldl (view_input u) None ins) as v, (foldl (ready_step u) false ins) as r. intros v r Hc Hr Hf Hsplit.
  destruct i as [ev|e]; cbn [view_input ready_step follows] in *; [|split_and!; [done..|]; intros ?%Hsplit; tauto].
  destruct (decide (u = ev_url ev)) as [Hu|Hu]; [|split_and!; [done..|]; intros ?%Hsplit; tauto].
  unfold view_step. destruct (ev_kind ev) eqn:Ek.
  - done.
  - split; [by intros _|]. split; [simpl; by intros ->|]. intros [Hfi Hi]%Hsplit. specialize (Hf Hfi). simpl.
    destruct r; [destruct (Hi Hu eq_refl) as [_ Hon]; by rewrite (Hon eq_refl)|].
    destruct v as [[[] []]|]; simpl in *; try congruence; try (by rewrite orb_false_r). by specialize (Hc eq_refl).
  - destruct (Close_ok ev) eqn:Ecl; [by split_and!|]. split; [done|]. split; [done|]. intros [Hfi Hi]%Hsplit.
    rewrite (Hf Hfi). destruct r; [|done]. by destruct (Hi Hu eq_refl) as [Hcl _]; specialize (Hcl eq_refl).
  - split_and!; [done..|]. intros ?%Hsplit. tauto.
Qed.

Lemma construct_ok : state_ok construct.
Proof. split_and!; [|done|simpl; lia]. by intros u p ?. Qed.
End properties.


(** ** Waiting for a device *)

(** The values that the event loop sets the Toggle to, one per event. *)
Fixpoint toggle_sets {W} (st : Wallet W) (ins : list (input W)) : list bool :=
  match ins with
  | [] => []
  | i :: ins =>
      let st := listen_step st i in
      match i with
      | Event _ => available st :: toggle_sets st ins
      | SubscriptionErr _ => toggle_sets st ins
      end
  end.

(** The last value set is what the events so far say. *)
Lemma toggle_sets_last {W} st (ins : list (input W)) l b : state_ok st →
  l ++ [b] `prefix_of` toggle_sets st ins →
  ∃ ins', ins' `prefix_of` ins ∧ toggle_sets st ins' = l ++ [b] ∧ available (listen st ins') = b.
Proof.
  revert st l. induction ins as [|i ins IH]; intros st l Hst Hp.
  { apply prefix_nil_inv in Hp. by destruct l. }
  destruct (listen_step_ok st i Hst) as [Hst' _]. cbn [toggle_sets] in Hp. destruct i as [ev|e].
  - destruct l as [|b' l]; cbn [app] in Hp.
    + exists [Event ev]. apply prefix_cons_inv_1 in Hp as ->. split; [apply prefix_cons, prefix_nil|done].
    + pose proof (prefix_cons_inv_1 _ _ _ _ Hp) as ->. apply prefix_cons_inv_2 in Hp.
      destruct (IH _ l Hst' Hp) as (ins' & Hpre & Hs & Ha). exists (Event ev :: ins').
      split; [by apply prefix_cons|]. split; [|done]. cbn [toggle_sets]. by rewrite Hs.
  - destruct (IH _ l Hst' Hp) as (ins' & Hpre & Hs & Ha). exists (SubscriptionErr e :: ins').
    split; [by apply prefix_cons|]. by split.
Qed.

(** C24. Over any switch, as [Toggle] is one: where the event loop is
    the only one that sets it, a [Wait] that gets through does so after some of the events
    have been handled and before the next one, and by those events the loop holds a device to be
    open.  That device is connected with its app online, as [Wait] promises, if every ready
    device that was dropped could be closed, and none went offline without a drop. *)
Theorem Wait_means_open {W C} `{SwitchLaws C} (c : C) (ins : list (input W)) h1 i h2 :
  histories c (h1 ++ (i, EWait) :: h2) → sets (h1 ++ (i, EWait) :: h2) `prefix_of` toggle_sets construct ins →
  ∃ ins' u, ins' `prefix_of` ins ∧ toggle_sets construct ins' = sets h1 ∧
    is_open (view (listen construct ins') u) = true ∧ (followed ins → ready ins' u = true).
Proof.
  intros Hh Hp. pose proof (wait_after_set c h1 i h2 Hh) as Hl. apply last_Some in Hl as [l Hl].
  destruct (toggle_sets_last construct ins l true construct_ok) as (ins' & Hpre & Hs & Ha).
  { rewrite sets_app in Hp. rewrite <-Hl. etrans; [|exact Hp]. by apply prefix_app_r. }
  destruct (listen_ok construct ins' construct_ok) as [(Hok & Hav & _) Hv]. rewrite Ha in Hav.
  symmetry in Hav. apply any_open_view in Hav as [u Hu]; [|done]. exists ins', u. split_and!; [done|congruence|done|].
  intros Hf%(followed_prefix _ _ Hpre). rewrite Hv in Hu. destruct (view_ready ins' u) as (_ & _ & E). by rewrite <-E.
Qed.

(** ** Pinned wallets *)

Section pinned.
Context {W : Type}.

(** The device stays, and what is open stays open. *)
Definition still (w w' : walletAndStatus W) : Prop :=
  dev w' = dev w ∧ (deviceOpen w = true → deviceOpen w' = true) ∧ (appOpen w = true → appOpen w' = true).

Definition heap_grows (h h' : list (walletAndStatus W)) : Prop :=
  ∀ p w, h !! p = Some w → ∃ w', h' !! p = Some w' ∧ still w w'.

#[local] Instance still_preorder : PreOrder still.
Proof. split; [by split|]. intros a b c (? & ? & ?) (? & ? & ?). split_and!; [congruence|auto..]. Qed.

#[local] Instance heap_grows_preorder : PreOrder heap_grows.
Proof.
  split; [intros h p w ?; by exists w|]. intros h1 h2 h3 H12 H23 p w Hw.
  destruct (H12 p w Hw) as (w' & Hw' & S1). destruct (H23 p w' Hw') as (w'' & ? & S2).
  exists w''. split; [done|]. by etrans.
Qed.

Lemma alloc_grows w st : heap_grows (heap st) (heap (alloc w st)).
Proof. intros p w' Hw'. exists w'. split; [by apply lookup_app_l_Some|done]. Qed.

Lemma alter_grows f p h : (∀ w, still w (f w)) → heap_grows h (alter f p h).
Proof.
  intros Hf p' w Hw. destruct (decide (p = p')) as [<-|].
  - exists (f w). by rewrite list_lookup_alter_eq, Hw.
  - exists w. by rewrite list_lookup_alter_ne.
Qed.

Lemma handle_grows ev st : heap_grows (heap st) (heap (handle ev st).1).
Proof.
  assert (heap_grows (heap st) (heap (opened ev st))) as Ho.
  { unfold opened. etrans; [|by apply alter_grows]. case_match; [done|apply alloc_grows]. }
  unfold handle. destruct (ev_kind ev).
  - destruct (Open_ok ev); apply alloc_grows.
  - destruct (Status ev); [|done]. case_decide; [done|]. case_match; [|done].
    etrans; [exact Ho|by apply alter_grows].
  - case_match; [|done]. by destruct (Close_ok ev).
  - done.
Qed.

Lemma listen_grows st ins : heap_grows (heap st) (heap (listen st ins)).
Proof.
  revert st. induction ins as [|i ins IH]; intros st; [done|]. simpl. etrans; [|apply IH].
  unfold listen_step. destruct i as [ev|[e|]]; simpl; try by case_match.
  pose proof (handle_grows ev st) as Hg. destruct (handle ev st) as [st' [e|]]; simpl in *; [|done].
  by case_match.
Qed.
End pinned.

Section accounts_properties.
Context {W A T : Type} `{EqDecision A} (zeroAddr : A).
Context (Derive : W → list Z → option A) (SignTx : W → A → T → Z → option T).

Lemma derive_loop_spec (st : Wallet W) path addr index ps : (∀ p, p ∈ ps → is_Some (heap st !! p)) →
  match derive_loop zeroAddr Derive st path addr index ps with
  | Ret (p, acc) => p ∈ ps ∧ ∃ w, heap st !! p = Some w ∧ open w = true ∧ Derive (dev w) path = Some acc ∧
      (addr ≠ zeroAddr → acc = addr)
  | Fail DeriveErr => ∃ p w, p ∈ ps ∧ heap st !! p = Some w ∧ open w = true ∧ Derive (dev w) path = None
  | Fail (NoAccount i) => i = index ∧ ∀ p w, p ∈ ps → heap st !! p = Some w → open w = true →
      ∃ acc, Derive (dev w) path = Some acc ∧ addr ≠ zeroAddr ∧ acc ≠ addr
  | Fail _ | Panic => False
  end.
Proof.
  induction ps as [|p ps IH]; intros Hps; simpl.
  { split; [done|]. by intros p w ?%not_elem_of_nil. }
  specialize (IH ltac:(intros; apply Hps; by right)).
  assert (∀ X, X = derive_loop zeroAddr Derive st path addr index ps →
    (∀ w, heap st !! p = Some w → open w = true →
      ∃ acc, Derive (dev w) path = Some acc ∧ addr ≠ zeroAddr ∧ acc ≠ addr) →
    match X with
    | Ret (p', acc) => p' ∈ p :: ps ∧ ∃ w, heap st !! p' = Some w ∧ open w = true ∧ Derive (dev w) path = Some acc ∧
        (addr ≠ zeroAddr → acc = addr)
    | Fail DeriveErr => ∃ p' w, p' ∈ p :: ps ∧ heap st !! p' = Some w ∧ open w = true ∧ Derive (dev w) path = None
    | Fail (NoAccount i) => i = index ∧ ∀ p' w, p' ∈ p :: ps → heap st !! p' = Some w → open w = true →
        ∃ acc, Derive (dev w) path = Some acc ∧ addr ≠ zeroAddr ∧ acc ≠ addr
    | Fail _ | Panic => False
    end) as Hskip.
  { intros X -> Hp. destruct (derive_loop _ _ _ _ _ _ _) as [[p' acc]|[]|]; try done.
    - destruct IH as [? ?]. split; [by right|done].
    - destruct IH as (p' & w & ? & ?). exists p', w. split; [by right|done].
    - destruct IH as [-> IH]. split; [done|]. intros p' w [->|?]%elem_of_cons; [apply Hp|by apply IH]. }
  destruct (Hps p ltac:(left)) as [w Hw]. rewrite Hw. cbn [mbind outcome_mbind or_panic].
  destruct (open w) eqn:Ho; simpl negb; cbv iota; [|apply Hskip; [done|]; intros; congruence].
  destruct (Derive (dev w) path) as [acc|] eqn:Ed.
  - destruct (bool_decide_reflect (addr = zeroAddr)) as [Hz|Hz]; simpl.
    + split; [left|]. exists w. by split_and!.
    + destruct (bool_decide_reflect (acc = addr)) as [Ha|Ha]; simpl.
      * split; [left|]. exists w. by split_and!.
      * apply Hskip; [done|]. intros w' Hw' _. assert (w' = w) as -> by congruence. by exists acc.
  - exists p, w. split_and!; [left|done..].
Qed.

Lemma order_wallets (st : Wallet W) order p : order ≡ₚ (map_to_list (wallets st)).*2 →
  p ∈ order ↔ ∃ u, wallets st !! u = Some p.
Proof.
  intros ->. rewrite list_elem_of_fmap. split.
  - intros ([u p'] & -> & ?%elem_of_map_to_list). by exists u.
  - intros [u Hu]. exists (u, p). split; [done|]. by apply elem_of_map_to_list.
Qed.

Lemma order_heap (st : Wallet W) order : pointers_ok st → order ≡ₚ (map_to_list (wallets st)).*2 →
  ∀ p, p ∈ order → is_Some (heap st !! p).
Proof. intros Hok Hord p Hp. apply (order_wallets st) in Hp as [u Hu]; [|done]. by destruct (Hok _ _ Hu) as (w & -> & _). Qed.

Lemma derive_open ledger basePath (st : Wallet W) order index expected p acc :
  pointers_ok st → order ≡ₚ (map_to_list (wallets st)).*2 →
  derive zeroAddr Derive ledger basePath st order index expected = Ret (p, acc) →
  ∃ w, heap st !! p = Some w ∧ open w = true.
Proof.
  intros Hok Hord (path & _ & Hd)%bind_Ret. case_decide; [done|]. destruct (_ && _); [done|].
  pose proof (derive_loop_spec st path (default zeroAddr expected) index order (order_heap _ _ Hok Hord)) as Hl.
  rewrite Hd in Hl. destruct Hl as (_ & w & ? & ? & _). by exists w.
Qed.
End accounts_properties.

(** Account derivation, on a map whose pointers are valid and in whatever order it
    is ranged over: an account comes from an open device and is the expected one,
    or the only device's if none is expected; otherwise the error says why: nothing
    is connected, several devices and no expected account, a device that does not
    derive, or no open device has the account. *)
Theorem derive_correct {W A : Type} `{EqDecision A} (zeroAddr : A) (Derive : W → list Z → option A)
    ledger basePath (st : Wallet W) order index expected path :
  pointers_ok st → order ≡ₚ (map_to_list (wallets st)).*2 →
  derivationPath ledger basePath index = Ret path →
  let addr := default zeroAddr expected in
  let connected p w := (∃ u, wallets st !! u = Some p) ∧ heap st !! p = Some w in
  match derive zeroAddr Derive ledger basePath st order index expected with
  | Ret (p, acc) => ∃ w, connected p w ∧ open w = true ∧ Derive (dev w) path = Some acc ∧
      (if decide (addr = zeroAddr) then size (wallets st) = 1%nat else acc = addr)
  | Fail NoWalletsOpen => wallets st = ∅
  | Fail AmbiguousDerivation => addr = zeroAddr ∧ (1 < size (wallets st))%nat
  | Fail DeriveErr => ∃ p w, connected p w ∧ open w = true ∧ Derive (dev w) path = None
  | Fail (NoAccount _) => ∀ p w, connected p w → open w = true →
      ∃ acc, Derive (dev w) path = Some acc ∧ addr ≠ zeroAddr ∧ acc ≠ addr
  | Fail _ | Panic => False
  end.
Proof.
  intros Hok Hord Hpath addr connected. unfold derive. rewrite Hpath. cbn [mbind outcome_mbind].
  assert (length order = size (wallets st)) as Hlen.
  { rewrite Hord, length_fmap. by rewrite length_map_to_list. }
  pose proof (λ p, order_wallets st order p Hord) as Hin.
  pose proof (order_heap st order Hok Hord) as Hps.
  pose proof (derive_loop_spec zeroAddr Derive st path addr index order Hps) as Hl.
  rewrite Hlen. case_decide as Hs0; [by apply map_size_empty_inv|]. fold addr.
  destruct (negb (bool_decide (size (wallets st) = 1%nat)) && bool_decide (addr = zeroAddr)) eqn:Ea.
  { apply andb_true_iff in Ea as [Hs1%negb_true_iff%bool_decide_eq_false Hz%bool_decide_eq_true]. split; [done|lia]. }
  destruct (derive_loop _ _ _ _ _ _ _) as [[p acc]|[]|]; try done.
  - destruct Hl as (Hp%Hin & w & ? & ? & ? & Ha). exists w. split_and!; try done.
    destruct (decide (addr = zeroAddr)) as [Hz|Hz]; [|by apply Ha]. rewrite (bool_decide_eq_true_2 (addr = zeroAddr)), andb_true_r in Ea by done.
    by apply negb_false_iff, bool_decide_eq_true in Ea.
  - destruct Hl as (p & w & Hp%Hin & ? & ?). by exists p, w.
  - destruct Hl as [_ Hl]. intros p w [Hp Hw] Ho. apply Hin in Hp. by eapply Hl.
Qed.

(** A signer stays usable for ever: once derived, its device counts as open after any
    events, also after it was dropped, so the check of [SignerFn] for a device
    closed since never fires and the device is always asked to sign. *)
Theorem pinned_never_closed {W A T : Type} `{EqDecision A} (zeroAddr : A) (Derive : W → list Z → option A)
    (SignTx : W → A → T → Z → option T) ledger basePath (st : Wallet W) order index expected p acc ins chainID tx :
  pointers_ok st → order ≡ₚ (map_to_list (wallets st)).*2 →
  derive zeroAddr Derive ledger basePath st order index expected = Ret (p, acc) →
  ∃ w, heap st !! p = Some w ∧
    sign_with SignTx p acc chainID (listen st ins) acc tx
    = match SignTx (dev w) acc tx chainID with None => Fail SignTxErr | Some tx => Ret tx end.
Proof.
  intros Hok Hord Hd.
  destruct (derive_open zeroAddr Derive ledger basePath st order index expected p acc Hok Hord Hd)
    as (w & Hw & Ho). exists w. split; [done|].
  destruct (listen_grows st ins p w Hw) as (w' & Hw' & Hdev & Hdo & Hao).
  apply andb_true_iff in Ho as [Ho1 Ho2]. unfold sign_with. rewrite bool_decide_eq_true_2 by done. simpl.
  rewrite Hw'. cbn [mbind outcome_mbind or_panic]. unfold open. rewrite Hdo, Hao by done. simpl. by rewrite Hdev.
Qed.

(** ** Shutdown

    [Close] against the goroutine of [listen]: a schedule says who runs next and
    which ready case a [select] takes.  An event is what matters of it here: the
    state that its handling gives to the Toggle. *)

Inductive loop_pc :=
| LSelect                (* eventLoop's outer select *)
| LTake (open_after : bool)  (* the select between w.wallets and w.quit *)
| LHold (open_after : bool)  (* holding the map *)
| LSet (open_after : bool)   (* map sent back, before available.Set *)
| LDone.                 (* eventLoopDone is closed *)

Inductive close_pc := CQuit | CToggle | CTake | CCloseMap | CWaitLoop | CDone.

Record shutdown := mkShutdown {
  loop : loop_pc; closer : close_pc; pending : list bool;
  quit : bool;                        (* closed *)
  map_buf : bool; map_closed : bool;  (* w.wallets *)
  tog : bool; tog_closed : bool       (* available *)
}.

Definition shutdown_init (tog : bool) (events : list bool) : shutdown :=
  mkShutdown LSelect CQuit events false true false tog false.

(** One step of [listen]; [alt] prefers the [quit] case.  [None] is a crash; a
    goroutine that cannot run leaves the state. *)
Definition loop_step (alt : bool) (s : shutdown) : option shutdown :=
  let to l ev mb t := Some (mkShutdown l (closer s) ev (quit s) mb (map_closed s) t (tog_closed s)) in
  let same := to (loop s) (pending s) (map_buf s) (tog s) in
  match loop s with
  | LSelect =>
      if quit s && (alt || bool_decide (pending s = [])) then to LDone (pending s) (map_buf s) (tog s)
      else match pending s with
           | b :: ev => to (LTake b) ev (map_buf s) (tog s)
           | [] => same
           end
  | LTake b =>
      if quit s && (alt || negb (map_buf s || map_closed s)) then to LDone (pending s) (map_buf s) (tog s)
      else if map_buf s then to (LHold b) (pending s) false (tog s)
      else if map_closed s then None   (* a nil map is assigned to, and sent on a closed channel *)
      else same
  | LHold b => if map_closed s then None else to (LSet b) (pending s) true (tog s)
  | LSet b =>
      if Bool.eqb b (tog s) then to LSelect (pending s) (map_buf s) (tog s)
      else if b && tog_closed s then None  (* send on a closed channel *)
      else to LSelect (pending s) (map_buf s) b
  | LDone => same
  end.

Definition close_step (s : shutdown) : option shutdown :=
  let to c q mb mc tc := Some (mkShutdown (loop s) c (pending s) q mb mc (tog s) tc) in
  match closer s with
  | CQuit => to CToggle true (map_buf s) (map_closed s) (tog_closed s)
  | CToggle => to CTake (quit s) (map_buf s) (map_closed s) true
  | CTake => if map_buf s then to CCloseMap (quit s) false (map_closed s) (tog_closed s) else Some s
  | CCloseMap => to CWaitLoop (quit s) (map_buf s) true (tog_closed s)
  | CWaitLoop =>
      match loop s with
      | LDone => to CDone (quit s) (map_buf s) (map_closed s) (tog_closed s)
      | _ => Some s
      end
  | CDone => Some s
  end.

Inductive turn := LoopRuns (alt : bool) | CloserRuns.

Definition shutdown_step (s : option shutdown) (t : turn) : option shutdown :=
  s ← s; match t with LoopRuns alt => loop_step alt s | CloserRuns => close_step s end.

Definition shutdown_run (s : shutdown) (sched : list turn) : option shutdown := foldl shutdown_step (Some s) sched.

(** The channel of the map while no event is being handled. *)
Definition quiet (s : shutdown) : Prop :=
  pending s = [] ∧ (loop s = LSelect ∨ loop s = LDone) ∧
  map_buf s = match closer s with CQuit | CToggle | CTake => true | _ => false end ∧
  quit s = match closer s with CQuit => false | _ => true end.

Lemma quiet_step s t : quiet s → ∃ s', shutdown_step (Some s) t = Some s' ∧ quiet s' ∧
  match t with
  | LoopRuns _ => closer s' = closer s ∧ (quit s = true → loop s' = LDone)
  | CloserRuns => (loop s = LDone → loop s' = LDone) ∧
      (closer s = CDone → closer s' = CDone) ∧ (closer s = CWaitLoop → loop s = LDone → closer s' = CDone)
  end.
Proof.
  intros (Hp & Hl & Hb & Hq). destruct s as [l c ev q mb mc tg tc]. simpl in *. subst.
  destruct t as [alt|]; simpl.
  - destruct Hl as [-> | ->]; simpl; [|eexists; split_and!; [done|split_and!; simpl; auto|done|done]].
    destruct c, alt; eexists; (split; [done|]); (split; [split_and!; simpl; auto|by split]).
  - destruct c; simpl; try (eexists; split; [done|]; split; [split_and!; simpl; auto|by split_and!]).
    destruct Hl as [-> | ->]; (eexists; split; [done|]; split; [split_and!; simpl; auto|by split_and!]).
Qed.

(** [Close] and the event loop: while no event is delivered, no schedule crashes and
    [Close] never loses the map; but an event delivered during [Close] can crash the
    process, either because its device opens after the Toggle was closed, or because
    the loop reads the closed channel of the map instead of [quit]. *)
Theorem Close_races_with_events tog0 :
  (∀ sched, ∃ s, shutdown_run (shutdown_init tog0 []) sched = Some s ∧ quiet s) ∧
  (∃ sched, shutdown_run (shutdown_init false [true]) sched = None) ∧
  (∃ sched s, shutdown_run (shutdown_init tog0 [tog0]) sched = Some s ∧ closer s = CWaitLoop ∧
     shutdown_step (Some s) (LoopRuns false) = None).
Proof.
  split_and!.
  - intros sched.
    assert (quiet (shutdown_init tog0 [])) as Hq by (split_and!; auto).
    revert Hq. unfold shutdown_run. generalize (shutdown_init tog0 []).
    induction sched as [|t sched IH]; intros s Hq; [by exists s|].
    destruct (quiet_step s t Hq) as (s' & Hs & Hq' & _).
    change (∃ s0, foldl shutdown_step (shutdown_step (Some s) t) sched = Some s0 ∧ quiet s0).
    rewrite Hs. by apply IH.
  - by exists [LoopRuns false; LoopRuns false; CloserRuns; CloserRuns; LoopRuns false; LoopRuns false].
  - by exists [LoopRuns false; CloserRuns; CloserRuns; CloserRuns; CloserRuns],
      (mkShutdown (LTake tog0) CWaitLoop [] true false true tog0 true).
Qed.

(** ** Examples *)

Definition ledger_events : list (input nat) :=
  [Event (mkEvent 7 "usb:1" WalletArrived true None true);
   Event (mkEvent 7 "usb:1" WalletOpened true (Some "Ethereum app v1.10.2 online"%string) true)]%nat.

Definition dropped : list (input nat) := [Event (mkEvent 7%nat "usb:1" WalletDropped true None true)].

Example available_again :
  available (listen construct ledger_events) = true ∧
  available (listen construct (ledger_events ++ dropped)) = false.
Proof. by vm_compute. Qed.

(** The event loop and a caller of [Wait], over a [Toggle]. *)
Lemma ledger_wait : histories [[CSet false; CSet true]; [CWait false]]
  ([(0, ESet false); (0, ESet true)] ++ [(1, EWait)])%nat.
Proof.
  split; [by repeat constructor|]. eexists. apply (hdrive_steps [1; 0; 0; 0; 1; 1]%nat). vm_compute. reflexivity.
Qed.

Lemma ledger_followed : followed ledger_events.
Proof.
  intros ins' i u Hp. unfold ledger_events in Hp. destruct ins' as [|i1 [|i2 ins']].
  - apply prefix_cons_inv_1 in Hp as ->. done.
  - pose proof (prefix_cons_inv_1 _ _ _ _ Hp) as ->. apply prefix_cons_inv_2, prefix_cons_inv_1 in Hp as ->.
    intros Hu Hr. unfold ready in Hr. simpl in Hr. by rewrite Hu, decide_True in Hr.
  - apply prefix_length in Hp. rewrite length_app in Hp. simpl in Hp. lia.
Qed.

Lemma Wait_means_open_witness :
  toggle_sets construct ledger_events = [false; true] ∧
  ∃ ins' u, ins' `prefix_of` ledger_events ∧ toggle_sets construct ins' = [false; true] ∧
    is_open (view (listen construct ins') u) = true ∧ ready ins' u = true.
Proof.
  split; [by vm_compute|].
  destruct (Wait_means_open [[CSet false; CSet true]; [CWait false]] ledger_events
    [(0, ESet false); (0, ESet true)]%nat 1%nat [] ledger_wait) as (ins' & u & Hp & Hs & Ho & Hr); [by exists []|].
  exists ins', u. by specialize (Hr ledger_followed).
Defined.

(** Where the loop does not follow: an unplugged device that cannot be closed, and one whose
    app is left without a drop, are both still available. *)
Lemma available_though_not_ready :
  let unclosed := ledger_events ++ [Event (mkEvent 7%nat "usb:1" WalletDropped true None false)] in
  let offline := ledger_events ++ [Event (mkEvent 7%nat "usb:1" WalletOpened true (Some "Ethereum app offline"%string) true)] in
  (available (listen construct unclosed) = true ∧ ∀ u, ready unclosed u = false) ∧
  (available (listen construct offline) = true ∧ ∀ u, ready offline u = false).
Proof.
  split; (split; [by vm_compute|]); intros u; unfold ready; cbn [foldl app ledger_events ready_step ev_url ev_kind];
    by destruct (decide (u = "usb:1"%string)).
Qed.

(** Account [i] of device [d] has address [100 d + i]. *)
Definition toy_derive (d : nat) (path : list Z) : option Z := Some (100 * Z.of_nat d + default 0 (path !! 2%nat)).

Lemma derive_correct_witness :
  derive 0 toy_derive true [44; 60; 0] (listen construct ledger_events) [0%nat] 5 None = Ret (0%nat, 705) ∧
  size (wallets (listen construct ledger_events)) = 1%nat.
Proof.
  split; [by vm_compute|].
  pose proof (derive_correct 0 toy_derive true [44; 60; 0] (listen construct ledger_events) [0%nat] 5 None [44; 60; 5]) as Hd.
  replace (derive 0 toy_derive true [44; 60; 0] (listen construct ledger_events) [0%nat] 5 None)
    with (Ret (E:=wallet_err) (0%nat, 705)) in Hd by by vm_compute.
  destruct Hd as (w & _ & _ & _ & Hs).
  - apply listen_ok, construct_ok.
  - by vm_compute.
  - by vm_compute.
  - exact Hs.
Defined.

(** The Ledger was unplugged, and still it is asked to sign. *)
Lemma pinned_never_closed_witness :
  sign_with (λ d acc tx c, Some (tx + c)) 0 705 1 (listen (listen construct ledger_events) dropped) 705 9 = Ret 10.
Proof.
  destruct (pinned_never_closed 0 toy_derive (λ (d : nat) acc tx c, Some (tx + c)) true [44; 60; 0]
    (listen construct ledger_events) [0%nat] 5 None 0 705 dropped 1 9) as (w & _ & ->).
  - apply listen_ok, construct_ok.
  - by vm_compute.
  - by vm_compute.
  - done.
Defined.
