(* ===== verification/Tracking.v ===== *)
(** * Tracking: wallets that were connected before ([go/usbwallet/eventloop.go])

    [listen] starts a goroutine that sends an arrival for every wallet that the hub lists,
    [trackExistingWallets], on the channel to which it has subscribed; when [Close] has
    closed the quit channel, [listen] closes that channel and waits for the goroutine.
    Both are a step relation here; what the event loop does with an arrival is in [Wallet]. *)

From S2P Require Import Prelude GoStrings Wallet.
From stdpp Require Import gmap strings.

Section tracking.
(** What [hub.Wallets] returns. *)
Context {W : Type} (Wallets : list W).

(** In [hub.Wallets], in its [select] with these wallets to come, or returned with [done]
    closed. *)
Inductive tracker := Listing | Selecting (ws : list W) | TrackerDone.

(** [listen] in its loop, or after these parts of its deferred function. *)
Inductive listener := Looping | Unsubscribed | ChClosed | ErrsClosed | LoopDone | Returned.

Record state := mkTracking { quit : bool; track : tracker; listening : listener; arrived : list W }.

Definition start : state := mkTracking false Listing Looping [].

Definition with_track (s : state) (x : tracker) : state := mkTracking (quit s) x (listening s) (arrived s).
Definition with_listener (s : state) (x : listener) : state := mkTracking (quit s) (track s) x (arrived s).

Definition ch_closed (l : listener) : bool := match l with Looping | Unsubscribed => false | _ => true end.

(** The next part of the deferred function, up to the wait for [done]. *)
Definition deferred (l : listener) : option listener :=
  match l with Unsubscribed => Some ChClosed | ChClosed => Some ErrsClosed | ErrsClosed => Some LoopDone | _ => None end.

Inductive closes : state → state → Prop :=
| close_quit s : quit s = false → closes s (mkTracking true (track s) (listening s) (arrived s)).

(** A step of the two goroutines; [None] is the process that panicked.  A [select] whose
    cases are both ready may take either, and sending on a closed channel panics. *)
Inductive moves : state → option state → Prop :=
| hub_Wallets s : track s = Listing → moves s (Some (with_track s (Selecting Wallets)))
| track_end s : track s = Selecting [] → moves s (Some (with_track s TrackerDone))
| track_quit s w ws : track s = Selecting (w :: ws) → quit s = true → moves s (Some (with_track s TrackerDone))
| track_send s w ws : track s = Selecting (w :: ws) → listening s = Looping →
    moves s (Some (mkTracking (quit s) (Selecting ws) Looping (arrived s ++ [w])))
| track_panic s w ws : track s = Selecting (w :: ws) → ch_closed (listening s) = true → moves s None
| listen_quit s : listening s = Looping → quit s = true → moves s (Some (with_listener s Unsubscribed))
| listen_defer s l : deferred (listening s) = Some l → moves s (Some (with_listener s l))
| listen_done s : listening s = LoopDone → track s = TrackerDone → moves s (Some (with_listener s Returned)).

Definition step (c c' : option state) : Prop :=
  ∃ s, c = Some s ∧ ((∃ s', c' = Some s' ∧ closes s s') ∨ moves s c').

(** ** Invariant *)

Definition tracking_ok (c : option state) : Prop :=
  match c with
  | None => Wallets ≠ []
  | Some s =>
      (quit s = true ∨ listening s = Looping) ∧
      match track s with
      | Listing => arrived s = []
      | Selecting ws => arrived s ++ ws = Wallets
      | TrackerDone => arrived s `prefix_of` Wallets ∧ (quit s = true ∨ arrived s = Wallets)
      end
  end.

Lemma tracking_step_ok c c' : tracking_ok c → step c c' → tracking_ok c'.
Proof.
  intros Hc (s & -> & [(s' & -> & Hs)|Hs]); destruct Hs; destruct s as [q t li a]; simpl in *; subst;
    destruct Hc as [Hq Ha]; unfold tracking_ok; simpl; rewrite ?app_nil_r in *; subst; try (split; [naive_solver|]).
  all: try naive_solver.
  - destruct t; naive_solver.
  - split; [by eexists|by left].
  - by rewrite <-app_assoc.
  - by destruct a.
Qed.

Lemma tracking_reach_ok c : rtc step (Some start) c → tracking_ok c.
Proof.
  intros Hr. revert c Hr. apply rtc_ind_r; [by split; [right|]|]. intros ?????. by eapply tracking_step_ok.
Qed.

(** ** Every run ends *)

Definition work (c : option state) : nat :=
  match c with
  | None => 0
  | Some s => S ((if quit s then 0 else 1) +
      match track s with Listing => 2 + length Wallets | Selecting ws => 1 + length ws | TrackerDone => 0 end +
      match listening s with Looping => 5 | Unsubscribed => 4 | ChClosed => 3 | ErrsClosed => 2 | LoopDone => 1 | Returned => 0 end)
  end.

Lemma tracking_step_work c c' : step c c' → work c' < work c.
Proof.
  intros (s & -> & [(s' & -> & Hs)|Hs]); destruct Hs; destruct s as [q t li a]; simpl in *; subst; simpl; try lia.
  destruct li; simplify_eq/=; lia.
Qed.

(** C25. Every run of [listen] with [trackExistingWallets] ends, but for events of the hub.  The
    event loop gets an arrival for each wallet of the hub at most once and in order, and
    for all of them by the time the goroutine is done, unless [Close] comes first.  Left
    alone both end up in the loop and done; after [Close] both return, or the process
    panics: for the goroutine may still send on the channel that [listen] has closed.
    That can happen exactly where the hub has a wallet. *)
Theorem tracking_correct c : rtc step (Some start) c →
  Acc (flip step) c ∧
  (∀ s, c = Some s → arrived s `prefix_of` Wallets ∧
    (track s = TrackerDone → quit s = true ∨ arrived s = Wallets) ∧
    ((∀ c', ¬ moves s c') → track s = TrackerDone ∧ listening s = if quit s then Returned else Looping)) ∧
  (c = None → Wallets ≠ []) ∧ (Wallets ≠ [] → rtc step (Some start) None).
Proof.
  intros Hr%tracking_reach_ok. split_and!.
  - apply (measure_terminates step work), tracking_step_work.
  - intros s ->. destruct Hr as [Hq Ha]. split_and!.
    + destruct (track s) as [|ws|]; [rewrite Ha; apply prefix_nil|rewrite <-Ha; by eexists|by destruct Ha].
    + intros Ht. rewrite Ht in Ha. by destruct Ha.
    + intros Hm. assert (track s = TrackerDone) as Ht.
      { destruct (track s) as [|[|w ws]|] eqn:Et; [..|done]; exfalso.
        - by eapply Hm, hub_Wallets.
        - by eapply Hm, track_end.
        - destruct Hq as [Hq|Hl]; [by eapply Hm, track_quit|by eapply Hm, track_send]. }
      split; [done|]. destruct (listening s) eqn:El; try (by edestruct Hm; eapply listen_defer; rewrite El).
      * destruct (quit s) eqn:Eq; [|done]. by edestruct Hm; eapply listen_quit.
      * by edestruct Hm; eapply listen_done.
      * by destruct Hq as [->|?].
  - by intros ->.
  - intros Hne. destruct Wallets as [|w ws] eqn:Ew; [done|].
    eapply rtc_l; [eexists; split; [done|right; by apply hub_Wallets]|].
    eapply rtc_l; [eexists; split; [done|left; eexists; split; [done|by apply close_quit]]|].
    eapply rtc_l; [eexists; split; [done|right; by apply listen_quit]|].
    eapply rtc_l; [eexists; split; [done|right; by apply listen_defer]|].
    apply rtc_once. eexists. split; [done|]. right. rewrite Ew. by eapply track_panic.
Qed.
End tracking.

(** A wallet that is listed may also be announced by an event.  When its arrival comes after
    it was opened the wallet is tracked anew, as a closed one, and opening it again fails:
    it is connected and open, but not available. *)
Example late_arrival :
  let arrival ok := Event (mkEvent 7%nat "usb:1" WalletArrived ok None true) in
  let online := Event (mkEvent 7%nat "usb:1" WalletOpened true (Some "Ethereum app v1.10.2 online"%string) true) in
  (available (listen construct [arrival true; online]), available (listen construct [arrival true; online; arrival false]),
   errs (listen construct [arrival true; online; arrival false])) = (true, false, [OpenErr "usb:1"]).
Proof. vm_compute. reflexivity. Qed.

Lemma tracking_correct_witness : rtc (step [7; 8]) (Some start) None ∧ [7; 8] ≠ [].
Proof.
  destruct (tracking_correct [7; 8] (Some start) ltac:(done)) as (_ & _ & _ & Hc). split; [by apply Hc|done].
Defined.
