(* ===== verification/Kms.v ===== *)
(** * Kms: transactions signed by a cloud key ([go/ethkms/gcp.go])

    [NewGCP]: the public key of the service in ASN.1 ([Asn1]).  [SignTx]: the service's DER
    signature, the low half of the curve for EIP-2, the 65 bytes of an Ethereum signature
    and the search for the parity.
    The service, the curve and go-ethereum's transactions are parameters. *)

From S2P Require Import Prelude GoStrings BigInt EthProto Asn1.
From stdpp Require Import strings.
Local Open Scope Z_scope.

(** ** Keys and signatures in ASN.1 *)

(** Bytes after the fields of a sequence are allowed; the rest is what follows the
    sequence. *)
Definition asn1_Unmarshal (b : bytes) : option (Z * Z * bytes) :=
  '(seq, rest) ← parse_element 48 b;
  '(r, seq) ← parse_element 2 seq;
  R ← parse_int r;
  '(s, _) ← parse_element 2 seq;
  S ← parse_int s;
  Some (R, S, rest).

(** [info] of [NewGCP]: the algorithm, whose parameters may be anything or absent, and the
    key. *)
Definition key_Unmarshal (b : bytes) : option (list Z * BitString * bytes) :=
  '(info, rest) ← parse_element 48 b;
  '(alg, info) ← parse_element 48 info;
  '(oid, params) ← parse_element 6 alg;
  oid ← parse_oid oid;
  _ ← (if bool_decide (params = []) then Some [] else skip_element params);
  '(key, _) ← parse_element 3 info;
  bits ← parse_bits key;
  Some (oid, bits, rest).

(** ** The key *)

Definition oidECDSAPubKey : list Z := [1; 2; 840; 10045; 2; 1].

Inductive new_err := NewClientErr | GetPublicKeyErr | WrongAlgorithm | NotPEM | KeyASN1Err | NotECDSA.

(** A point of the curve, [None] for nil coordinates. *)
Abbreviation point := (option (Z * Z)).

(** The service's answer, [encoding/pem], the curve's points from bytes and the address of a
    point. *)
Class KeyService (A : Type) := {
  GetPublicKey : string → option (bool * string);   (* whether the algorithm is right; the PEM *)
  pem_Decode : string → option bytes;
  elliptic_Unmarshal : bytes → point;
  PubkeyToAddress : Z * Z → A;
}.

Record gcp_key := mkGCP { keyID : string; pubKey : point }.

(** Whether the client can be made, and the name of the key. *)
Definition NewGCP {A} `{KeyService A} (client : bool) (key : string) : outcome new_err gcp_key :=
  if negb client then Fail NewClientErr
  else match GetPublicKey key with
       | None => Fail GetPublicKeyErr
       | Some (alg, pem) =>
           if negb alg then Fail WrongAlgorithm
           else match pem_Decode pem with
                | None => Fail NotPEM
                | Some block =>
                    match key_Unmarshal block with
                    | Some (oid, bits, []) =>
                        if bool_decide (oid = oidECDSAPubKey)
                        then Ret (mkGCP key (elliptic_Unmarshal (RightAlign bits)))
                        else Fail NotECDSA
                    | _ => Fail KeyASN1Err
                    end
                end
       end.

(** The address of nil coordinates panics. *)
Definition GCP_Address {A} `{KeyService A} (g : gcp_key) : outcome Empty_set A :=
  xy ← or_panic (pubKey g); Ret (PubkeyToAddress xy).

(** The SubjectPublicKeyInfo of a secp256k1 key with the bytes of its point. *)
Definition secp256k1_info (p : bytes) : bytes :=
  der_element 48
    (der_element 48 (der_element 6 [42; 134; 72; 206; 61; 2; 1] ++ der_element 6 [43; 129; 4; 0; 10]) ++
     der_element 3 (0 :: p)).

Lemma key_Unmarshal_info p : p ≠ [] → (length p < 100)%nat →
  key_Unmarshal (secp256k1_info p) = Some (oidECDSAPubKey, mkBits p (Z.of_nat (length p) * 8), []).
Proof.
  intros Hp Hl. unfold key_Unmarshal, secp256k1_info. rewrite <-(app_nil_r (der_element 48 _)).
  rewrite parse_der_element by (unfold der_element; simpl; lia). cbn [mbind option_bind].
  rewrite parse_der_element by (simpl; lia). cbn [mbind option_bind].
  rewrite parse_der_element by (simpl; lia). cbn [mbind option_bind].
  change (parse_oid _) with (Some oidECDSAPubKey). cbn [mbind option_bind].
  rewrite bool_decide_eq_false_2 by done.
  change (skip_element _) with (Some (@nil Z)). cbn [mbind option_bind].
  rewrite <-(app_nil_r (der_element 3 _)), parse_der_element by (simpl; lia). cbn [mbind option_bind].
  by rewrite (proj1 (parse_bits_bytes p Hp)).
Qed.

(** The DER signature of R and S. *)
Definition der_signature (R S : Z) : bytes := der_element 48 (der_int R ++ der_int S).

Lemma asn1_Unmarshal_der R S : 0 < R < 2 ^ 256 → 0 < S < 2 ^ 256 → asn1_Unmarshal (der_signature R S) = Some (R, S, []).
Proof.
  intros HR HS. pose proof (der_int_short R HR). pose proof (der_int_short S HS).
  unfold asn1_Unmarshal, der_signature. rewrite <-(app_nil_r (der_element 48 _)), parse_der_element by (rewrite length_app; lia).
  cbn [mbind option_bind]. destruct (parse_der_int R (der_int S) HR) as (c & -> & Hc). cbn [mbind option_bind]. rewrite Hc.
  cbn [mbind option_bind]. rewrite <-(app_nil_r (der_int S)).
  destruct (parse_der_int S [] HS) as (d & -> & Hd). cbn [mbind option_bind]. by rewrite Hd.
Qed.

(** ** Signing *)

Inductive kms_err := AsymmetricSignErr | ASN1Err | SignatureErr | SenderErr | NoMatch.

(** [curveOrder], the hash of a transaction, the service's signatures of digests,
    and signed transactions with their sender. *)
Class GCP (A T S : Type) := {
  curveOrder : Z;
  Hash : T → bytes;
  AsymmetricSign : bytes → option bytes;
  WithSignature : T → bytes → option S;
  Sender : S → option A;
}.

(** EIP-2. *)
Definition low_S (order S : Z) : Z := if Z.shiftr order 1 <? S then order - S else S.

Definition sig_bytes (R S v : Z) : bytes := copy_into 32 (big_Bytes R) ++ copy_into 32 (big_Bytes S) ++ [v].

Section sign.
Context {A T S : Type} `{EqDecision A, GCP A T S} (address : A).

Fixpoint try_parities (tx : T) (R S' : Z) (vs : list Z) : outcome kms_err S :=
  match vs with
  | [] => Fail NoMatch
  | v :: vs =>
      match WithSignature tx (sig_bytes R S' v) with
      | None => Fail SignatureErr
      | Some signed =>
          match Sender signed with
          | None => Fail SenderErr
          | Some sender => if decide (sender = address) then Ret signed else try_parities tx R S' vs
          end
      end
  end.

End sign.

(** With the key's address, which a key with nil coordinates has not. *)
Definition SignTx {A T S} `{EqDecision A, GCP A T S, KeyService A} (g : gcp_key) (tx : T) : outcome kms_err S :=
  match AsymmetricSign (Hash tx) with
  | None => Fail AsymmetricSignErr
  | Some resp =>
      match asn1_Unmarshal resp with
      | Some (R, S', []) =>
          match GCP_Address g with
          | Ret address => try_parities address tx R (low_S curveOrder S') [0; 1]
          | _ => Panic
          end
      | _ => Fail ASN1Err
      end
  end.

(** The 65 bytes that go-ethereum documents: R and S as 32 bytes each, big-endian,
    and the parity. *)
Definition ethereum_signature (R S v : Z) : bytes :=
  let pad b := replicate (32 - length b) 0 ++ b in pad (big_Bytes R) ++ pad (big_Bytes S) ++ [v].

(** The service signs with the key of the address: its response encodes R and S below the
    order, of which the form with the low S recovers, with both parities, to some sender,
    and with one of them to that address. *)
Class GCPLaws (A T S : Type) `{GCP A T S} (address : A) := {
  order_range : 2 < curveOrder (A:=A) (T:=T) (S:=S) < 2 ^ 256;
  AsymmetricSign_spec tx resp : AsymmetricSign (Hash tx) = Some resp → ∃ R s,
    resp = der_signature R s ∧ 0 < R < curveOrder ∧ 0 < s < curveOrder ∧
    let signed v := WithSignature tx (ethereum_signature R (low_S curveOrder s) v) in
    (∀ v, v = 0 ∨ v = 1 → ∃ t a, signed v = Some t ∧ Sender t = Some a) ∧
    (∃ v t, (v = 0 ∨ v = 1) ∧ signed v = Some t ∧ Sender t = Some address);
}.

Lemma full_length R : 2 ^ 248 ≤ R < 2 ^ 256 → length (big_Bytes R) = 32%nat.
Proof.
  intros HR. pose proof (big_Bytes_length R 32) as Hu. rewrite Z.abs_eq in Hu by lia.
  specialize (Hu ltac:(apply HR)).
  destruct (decide (length (big_Bytes R) ≤ 31)%nat) as [Hl|]; [|lia].
  apply big_Bytes_length_inv in Hl. rewrite Z.abs_eq in Hl by lia.
  assert (R < 2 ^ 248) by (apply Hl). lia.
Qed.

(** What the code sends instead: short numbers end up shifted to the left. *)
Lemma copy_into_value n : 0 < n < 2 ^ 256 →
  SetBytes (copy_into 32 (big_Bytes n)) = n * 256 ^ Z.of_nat (32 - length (big_Bytes n)) ∧
  (SetBytes (copy_into 32 (big_Bytes n)) = n ↔ 2 ^ 248 ≤ n).
Proof.
  intros Hn. destruct (SetBytes_big_Bytes n) as [En _]. rewrite Z.abs_eq in En by lia.
  pose proof (big_Bytes_length n 32) as Hu. rewrite Z.abs_eq in Hu by lia. specialize (Hu ltac:(apply Hn)).
  assert (SetBytes (copy_into 32 (big_Bytes n)) = n * 256 ^ Z.of_nat (32 - length (big_Bytes n))) as E.
  { unfold copy_into. rewrite take_ge by done. rewrite SetBytes_app, length_replicate, En.
    pose proof (SetBytes_zeros (32 - length (big_Bytes n)) []) as Hz. rewrite app_nil_r in Hz.
    rewrite Hz. change (SetBytes []) with 0. lia. }
  split; [done|]. rewrite E. split.
  - intros Heq. destruct (decide (length (big_Bytes n) ≤ 31)%nat) as [Hl|Hl].
    + assert (256 ≤ 256 ^ Z.of_nat (32 - length (big_Bytes n))); [|nia].
      change 256 with (256 ^ 1) at 1. apply Z.pow_le_mono_r; lia.
    + destruct (decide (2 ^ 248 ≤ n)); [done|]. exfalso. apply Hl. apply big_Bytes_length.
      rewrite Z.abs_eq by lia. change (256 ^ Z.of_nat 31) with (2 ^ 248). lia.
  - intros Hge. rewrite full_length by lia. simpl. lia.
Qed.

Lemma low_S_range order S : 0 < S < order → 0 < low_S order S ∧ 2 * low_S order S ≤ order.
Proof.
  intros HS. unfold low_S. rewrite Z.shiftr_div_pow2 by done. change (2 ^ 1) with 2.
  pose proof (Z.div_mod order 2). pose proof (Z.mod_pos_bound order 2).
  destruct (Z.ltb_spec (order / 2) S); lia.
Qed.

Lemma sig_bytes_ethereum R S v : 0 < R < 2 ^ 256 → 0 < S < 2 ^ 256 →
  sig_bytes R S v = ethereum_signature R S v ↔ 2 ^ 248 ≤ R ∧ 2 ^ 248 ≤ S.
Proof.
  intros HR HS. unfold sig_bytes, ethereum_signature.
  assert (∀ n, 0 < n < 2 ^ 256 → 2 ^ 248 ≤ n →
    copy_into 32 (big_Bytes n) = replicate (32 - length (big_Bytes n)) 0 ++ big_Bytes n) as Hfull.
  { intros n Hn Hge. unfold copy_into. rewrite full_length by lia. simpl replicate.
    rewrite app_nil_r. by rewrite take_ge by (rewrite full_length by lia; done). }
  assert (∀ n, 0 < n < 2 ^ 256 →
    length (copy_into 32 (big_Bytes n)) = length (replicate (32 - length (big_Bytes n)) 0 ++ big_Bytes n)) as Hlen.
  { intros n Hn. pose proof (big_Bytes_length n 32) as Hu. rewrite Z.abs_eq in Hu by lia.
    specialize (Hu ltac:(apply Hn)). unfold copy_into.
    rewrite take_ge, !length_app, !length_replicate by done. lia. }
  split.
  - intros (E1 & [E2 _]%app_inj_1)%app_inj_1; [|by apply Hlen..].
    apply (f_equal SetBytes) in E1. apply (f_equal SetBytes) in E2. rewrite SetBytes_zeros in E1, E2.
    destruct (SetBytes_big_Bytes R) as [ER _], (SetBytes_big_Bytes S) as [ES _].
    rewrite ER, Z.abs_eq in E1 by lia. rewrite ES, Z.abs_eq in E2 by lia.
    split; [by apply (copy_into_value R HR)|by apply (copy_into_value S HS)].
  - intros [??]. by rewrite !Hfull.
Qed.

(** C26. A transaction whose digest the service signs is returned signed, with the key's
    address as sender and S in the lower half of the curve, when R and that S have
    32 bytes; but when either is shorter, the bytes sent to go-ethereum are not the
    signature, with either parity: the short number is shifted to the left. *)
Theorem SignTx_correct {A T St : Type} `{EqDecision A, GCP A T St, KeyService A, !GCPLaws A T St address}
    (g : gcp_key) (tx : T) resp :
  GCP_Address g = Ret address → AsymmetricSign (Hash tx) = Some resp →
  ∃ R s, asn1_Unmarshal resp = Some (R, s, []) ∧
    let S' := low_S curveOrder s in
    2 * S' ≤ curveOrder ∧
    (2 ^ 248 ≤ R ∧ 2 ^ 248 ≤ S' → ∃ t, SignTx g tx = Ret t ∧ Sender t = Some address) ∧
    (R < 2 ^ 248 ∨ S' < 2 ^ 248 → ∀ v, sig_bytes R S' v ≠ ethereum_signature R S' v).
Proof.
  intros Hg Hresp. destruct (AsymmetricSign_spec tx resp Hresp) as (R & s & -> & HR & Hs & Hall & v & t & Hv & Ht & Hsender).
  pose proof (order_range (A:=A) (T:=T) (S:=St)) as Ho.
  exists R, s. split; [apply asn1_Unmarshal_der; lia|]. intros S'. destruct (low_S_range curveOrder s Hs) as [Hpos Hlow].
  fold S' in Hpos, Hlow.
  assert (∀ v, sig_bytes R S' v = ethereum_signature R S' v ↔ 2 ^ 248 ≤ R ∧ 2 ^ 248 ≤ S') as Hsig.
  { intros v'. apply sig_bytes_ethereum; lia. }
  split_and!; [done| |intros Hshort v' E%Hsig; lia].
  intros Hlong. unfold SignTx. rewrite Hresp, asn1_Unmarshal_der, Hg by lia. fold S'. cbn [try_parities].
  rewrite !(proj2 (Hsig _) Hlong).
  destruct (Hall 0 ltac:(by left)) as (t0 & a0 & E0 & S0). fold S' in E0, Ht. rewrite E0, S0.
  case_decide as Ha; [exists t0; split; [done|congruence]|].
  destruct Hv as [->| ->]; [congruence|]. rewrite Ht, Hsender. rewrite decide_True by done. by exists t.
Qed.

(** The signer of a secp256k1 key in the service's encoding has the point that the
    encoding carries, and the address of that point; when the bytes are not a point the
    signer is made all the same, and its address and its signatures panic. *)
Theorem NewGCP_point {A T St : Type} `{EqDecision A, GCP A T St, KeyService A} key pem (p : bytes) :
  GetPublicKey key = Some (true, pem) → pem_Decode pem = Some (secp256k1_info p) → length p = 65%nat →
  ∃ g, NewGCP true key = Ret g ∧ keyID g = key ∧
    match elliptic_Unmarshal p with
    | Some xy => GCP_Address g = Ret (PubkeyToAddress xy)
    | None => GCP_Address g = Panic ∧ ∀ (tx : T) R s, 0 < R < 2 ^ 256 → 0 < s < 2 ^ 256 →
        AsymmetricSign (Hash tx) = Some (der_signature R s) → SignTx g tx = Panic
    end.
Proof.
  intros Hk Hpem Hl. assert (p ≠ []) as Hp by by intros ->.
  exists (mkGCP key (elliptic_Unmarshal p)). split; [|split; [done|]].
  - unfold NewGCP. simpl. rewrite Hk. simpl. rewrite Hpem, key_Unmarshal_info by (done || lia).
    by rewrite bool_decide_eq_true_2, (proj2 (parse_bits_bytes p Hp)).
  - unfold SignTx, GCP_Address. simpl. destruct (elliptic_Unmarshal p) as [xy|]; [done|]. split; [done|].
    intros tx R s HR Hs Hresp. by rewrite Hresp, asn1_Unmarshal_der.
Qed.

(** ** Examples *)

(** R = 257 and S = -2 in DER, with a byte left in the sequence and one after it. *)
Example asn1_example : asn1_Unmarshal [48; 8; 2; 2; 1; 1; 2; 1; 254; 9; 7] = Some (257, -2, [7]).
Proof. by vm_compute. Qed.

(** A toy service with two transactions: it signs them with R = 2^249 and R = 1000, and S
    = 2^250; only the proper bytes of a signature of parity 1 recover to the key's
    address. *)
Definition toy_R (tx : bool) : Z := if tx then 2 ^ 249 else 1000.

#[local] Instance toy_kms : GCP bool bool (bool * bytes) := {
  curveOrder := 2 ^ 255;
  Hash tx := [if tx then 1 else 0];
  AsymmetricSign d := Some (der_signature (toy_R (bool_decide (d = [1]))) (2 ^ 250));
  WithSignature tx sig := Some (tx, sig);
  Sender t := Some (bool_decide (t.2 = ethereum_signature (toy_R t.1) (2 ^ 250) 1));
}.

#[local] Instance toy_kms_laws : GCPLaws bool bool (bool * bytes) true.
Proof.
  split; [by vm_compute|]. intros tx resp [= <-]. exists (toy_R tx), (2 ^ 250).
  split; [by destruct tx|]. split; [by destruct tx; vm_compute|]. split; [by vm_compute|].
  replace (low_S curveOrder (2 ^ 250)) with (2 ^ 250) by by vm_compute. split.
  - intros v _. by eexists _, _.
  - exists 1, (tx, ethereum_signature (toy_R tx) (2 ^ 250) 1). split; [by right|]. split; [done|].
    simpl. by rewrite bool_decide_eq_true_2.
Qed.

(** PEM by name; points that start with 4. *)
Definition toy_point (first : Z) : bytes := first :: replicate 64 7.

#[local] Instance toy_keys : KeyService bool := {
  GetPublicKey key := Some (true, key);
  pem_Decode pem := Some (secp256k1_info (toy_point (if decide (pem = "good"%string) then 4 else 0)));
  elliptic_Unmarshal b := if b !!! 0%nat =? 4 then Some (1, 2) else None;
  PubkeyToAddress xy := bool_decide (xy = (1, 2));
}.

Definition toy_signer (key : string) : gcp_key :=
  match NewGCP true key with Ret g => g | _ => mkGCP key None end.

Lemma SignTx_correct_witness :
  SignTx (toy_signer "good") true = Ret (true, ethereum_signature (2 ^ 249) (2 ^ 250) 1) ∧
  SignTx (T:=bool) (S:=bool * bytes) (toy_signer "good") false = Fail NoMatch ∧
  (∃ t, SignTx (toy_signer "good") true = Ret t ∧ Sender t = Some true).
Proof.
  split; [by vm_compute|]. split; [by vm_compute|].
  destruct (SignTx_correct (A:=bool) (St:=bool * bytes) (toy_signer "good") true (der_signature (toy_R true) (2 ^ 250))
    ltac:(by vm_compute) eq_refl) as (R & s & Hasn & _ & Hok & _).
  vm_compute in Hasn. injection Hasn as <- <-. apply Hok. split; by vm_compute.
Defined.

Lemma NewGCP_point_witness :
  NewGCP true "good" = Ret (mkGCP "good" (Some (1, 2))) ∧
  ∃ g, NewGCP true "bad" = Ret g ∧ keyID g = "bad"%string ∧ GCP_Address g = Panic.
Proof.
  split; [by vm_compute|].
  destruct (NewGCP_point (A:=bool) (T:=bool) (St:=bool * bytes) "bad" "bad" (toy_point 0)) as (g & Hg & Hk & Hp & _);
    [reflexivity..|]. by exists g.
Defined.
