(* ===== verification/Dbtx.v ===== *)
(** * Dbtx: database transactions of [go/dbtx/dbtx.go]

    [Transactor.Do] over a database whose committed state is a value: a transaction
    works on a copy, which a commit installs and a rollback drops.  Advisory locks
    are the statements that are executed; their keys are derived from a hash. *)

From S2P Require Import Prelude BigInt Memconv Eth.
From stdpp Require Import strings.
Local Open Scope Z_scope.

Inductive tx_err (E : Type) :=
| BeginErr
| FuncErr (e : E) (rollback_ok : bool)   (* multierror of both *)
| CommitErr.
Arguments BeginErr {E}.
Arguments FuncErr {E} e rollback_ok.
Arguments CommitErr {E}.

Section transactor.
Context {S E : Type}.

(** A [Func] acts on the state that its transaction sees. *)
Definition Func : Type := S → S * outcome E ().

(** What the connection answers for one transaction. *)
Record conn := mkConn { Begin_ok : bool; Commit_ok : bool; Rollback_ok : bool }.

(** The loop over [fns], with an answer of the connection for each.  A panicking
    function leaves its transaction open: nothing is committed. *)
Fixpoint Do (db : S) (fns : list (Func * conn)) : S * outcome (tx_err E) () :=
  match fns with
  | [] => (db, Ret ())
  | (fn, c) :: fns =>
      if negb (Begin_ok c) then (db, Fail BeginErr)
      else
        let '(tx, err) := fn db in
        match err with
        | Fail e => (db, Fail (FuncErr e (Rollback_ok c)))
        | Panic => (db, Panic)
        | Ret _ => if Commit_ok c then Do tx fns else (db, Fail CommitErr)
        end
  end.

(** The functions of a list, one after the other. *)
Definition run_all (fns : list Func) (db : S) : S := foldl (λ db fn, (fn db).1) db fns.

(** The state that function [i] sees. *)
Definition before (fns : list (Func * conn)) (i : nat) (db : S) : S := run_all (take i fns).*1 db.

(** What is known of the function at which [Do] ended with a result. *)
Definition ends_at (fns : list (Func * conn)) (n : nat) (db : S) (r : outcome (tx_err E) ()) : Prop :=
  match r with
  | Ret _ => n = length fns
  | Fail BeginErr => ∃ fn c, fns !! n = Some (fn, c) ∧ Begin_ok c = false
  | Fail (FuncErr e _) => ∃ fn c, fns !! n = Some (fn, c) ∧ (fn db).2 = Fail e
  | Fail CommitErr => ∃ fn c, fns !! n = Some (fn, c) ∧ (fn db).2 = Ret () ∧ Commit_ok c = false
  | Panic => ∃ fn c, fns !! n = Some (fn, c) ∧ (fn db).2 = Panic
  end.

(** The first [n] functions succeeded and were committed. *)
Definition committed (fns : list (Func * conn)) (n : nat) (db : S) : Prop :=
  ∀ i fn c, (i < n)%nat → fns !! i = Some (fn, c) → (fn (before fns i db)).2 = Ret () ∧ Commit_ok c = true.

Lemma ends_at_cons x fns n db r : ends_at fns n db r → ends_at (x :: fns) (Datatypes.S n) db r.
Proof. unfold ends_at. destruct r as [|[]|]; try done. by intros ->. Qed.

Lemma before_cons fn c fns i db : before ((fn, c) :: fns) (Datatypes.S i) db = before fns i (fn db).1.
Proof. done. Qed.

Lemma committed_cons fn c fns n db : (fn db).2 = Ret () → Commit_ok c = true →
  committed fns n (fn db).1 → committed ((fn, c) :: fns) (Datatypes.S n) db.
Proof.
  intros Hf Hc Hn [|i] fn' c' Hi; simpl; [by intros [= <- <-]|]. intros Hl.
  rewrite before_cons. apply (Hn i fn' c'); [lia|done].
Qed.
End transactor.

(** [Do] commits function after function and stops at the first failure: the
    database ends as the functions before it left it, with nothing of the failing
    one, and without an error it ends as all of them, each successful, left it. *)
Theorem Do_atomic {S E} (db : S) (fns : list (Func (S:=S) (E:=E) * conn)) :
  let '(db', r) := Do db fns in
  ∃ n, (n ≤ length fns)%nat ∧ db' = before fns n db ∧ committed fns n db ∧ ends_at fns n db' r.
Proof.
  revert db. induction fns as [|[fn c] fns IH]; intros db; simpl.
  { exists 0%nat. split_and!; [lia|done| |done]. intros i ? ? ?. lia. }
  assert (∀ r, ends_at ((fn, c) :: fns) 0 db r → ∃ n, (n ≤ Datatypes.S (length fns))%nat ∧
    db = before ((fn, c) :: fns) n db ∧ committed ((fn, c) :: fns) n db ∧ ends_at ((fn, c) :: fns) n db r) as Hstop.
  { intros r Hr. exists 0%nat. split_and!; [lia|done| |done]. intros i ? ? ?. lia. }
  destruct (Begin_ok c) eqn:Eb; simpl; [|apply (Hstop (Fail BeginErr)); by exists fn, c].
  destruct (fn db) as [tx [[]|e|]] eqn:Ef.
  - destruct (Commit_ok c) eqn:Ec; [|apply (Hstop (Fail CommitErr)); exists fn, c; by rewrite Ef].
    specialize (IH tx). destruct (Do tx fns) as [db' r]. destruct IH as (n & Hn & -> & Hi & Hr).
    assert (tx = (fn db).1) as -> by by rewrite Ef.
    exists (Datatypes.S n). split_and!; [lia|done| |by apply ends_at_cons].
    apply committed_cons; [by rewrite Ef|done|done].
  - apply (Hstop (Fail (FuncErr e (Rollback_ok c)))). exists fn, c. by rewrite Ef.
  - apply (Hstop Panic). exists fn, c. by rewrite Ef.
Qed.

(** ** Advisory locks *)

Definition UndefinedExclusivity : Z := 0.
Definition Exclusive : Z := 1.
Definition Shared : Z := 2.

Inductive lock_err := Unsupported (e : Z) | LockErr (key : Z).

(** The statement and its argument; [exec] is whether it succeeds. *)
Definition PgTxLock (exec : string → Z → bool) (e key : Z) : outcome lock_err () :=
  let run qry := if exec qry key then Ret () else Fail (LockErr key) in
  if e =? Exclusive then run "SELECT pg_advisory_xact_lock($1)"%string
  else if e =? Shared then run "SELECT pg_advisory_xact_lock_shared($1)"%string
  else Fail (Unsupported e).

(** [query]: the boolean that the statement yields, or its error. *)
Definition TryPgTxLock (query : string → Z → option bool) (e key : Z) : outcome lock_err bool :=
  let run qry := match query qry key with Some ok => Ret ok | None => Fail (LockErr key) end in
  if e =? Exclusive then run "SELECT pg_try_advisory_xact_lock($1)"%string
  else if e =? Shared then run "SELECT pg_try_advisory_xact_lock_shared($1)"%string
  else Fail (Unsupported e).

Definition PgLockKey (Sum256 : string → bytes) (key : string) : Z := Cast_of array8 int64 (take 8 (Sum256 key)).

(** Keys are [int64]s, and different first eight bytes give different ones. *)
Lemma PgLockKey_inj Sum256 k k' :
  (∀ k, length (Sum256 k) = 32%nat ∧ Forall is_byte (Sum256 k)) →
  - 2 ^ 63 ≤ PgLockKey Sum256 k < 2 ^ 63 ∧
  (PgLockKey Sum256 k = PgLockKey Sum256 k' → take 8 (Sum256 k) = take 8 (Sum256 k')).
Proof.
  intros Hsum. unfold PgLockKey. split; [by apply (swrap_range 64)|].
  destruct (Hsum k) as [L F], (Hsum k') as [L' F'].
  apply Cast_array8_i64_inj; try (by apply Forall_take); by rewrite length_take, ?L, ?L'.
Qed.
