(* ===== verification/SimBackend.v ===== *)
(** * SimBackend: the simulated chain of [go/ethtest/simbackend.go]

    The accounts that a new backend creates and funds, mocked entities, automatic
    commits, fast-forwarding and the single use of [Must].  go-ethereum's key
    derivation and its simulated chain are parameters. *)

From S2P Require Import Prelude GoStrings BigInt Eth.
From stdpp Require Import gmap strings pretty.
Local Open Scope Z_scope.

(** ** What is used of go-ethereum *)

(** [TransactOpts] as far as it is read here: the sender, what signs for it (the
    key) and the value. *)
Record TransactOpts (A K : Type) := mkOpts { From : A; Signer : K; Value : option Z }.
Arguments mkOpts {A K} From Signer Value.
Arguments From {A K}.
Arguments Signer {A K}.
Arguments Value {A K}.

Class Keys (A K : Type) := {
  BytesToAddress : bytes → A;
  Keccak256 : string → bytes;
  HexToECDSA : string → option K;
  (** The sender of a key, on a chain. *)
  NewKeyedTransactorWithChainID : K → Z → option (TransactOpts A K);
}.

(** The chain: [Chain alloc gasLimit], the outcome of adding a transaction, the
    receipt of a mined one. *)
Class Chain (B A Tx : Type) `{Countable A} := {
  NewChain : gmap A Z → Z → B;
  AdjustTime : B → Z → B;
  Commit : B → B;
  CurrentNumber : B → Z;
  PoolTransaction : B → Tx → option B;
  GasUsed : B → Tx → option Z;
  GasPrice : Tx → Z;
}.

Class ChainLaws (B A Tx : Type) `{Chain B A Tx} := {
  Commit_number : ∀ b : B, CurrentNumber (Commit b) = CurrentNumber b + 1;
}.

Definition OpenSea : string := "OpenSea".
Definition Chainlink : string := "Chainlink".
Definition Ethier : string := "Ethier".
Definition WETH : string := "wETH".

Inductive sim_err := HexToECDSAErr (seed : string) | TransactorErr (seed : string)
| UnsupportedEntity (mock : string) | EtherErr (e : eth_err) | SendErr | CallbackErr.

Section backend.
Context {B A K Tx : Type} `{Countable A, Keys A K, !Chain B A Tx}.
Abbreviation Opts := (TransactOpts A K).

Record SimulatedBackend := mkBackend {
  sim : B;
  AutoCommit : bool;
  accounts : list Opts;
  keys : list K;
  mockAccounts : gmap string Opts;
}.

Definition with_sim (sb : SimulatedBackend) (b : B) : SimulatedBackend :=
  mkBackend b (AutoCommit sb) (accounts sb) (keys sb) (mockAccounts sb).

(** ** Creation *)

Definition precompiles : gmap A Z :=
  foldl (λ alloc addr, <[BytesToAddress [addr] := 1]> alloc) ∅ (seqZ 1 8).

(** The new account and the allocation with its balance. *)
Definition createAccount (seed : string) (alloc : gmap A Z) : outcome sim_err (Opts * K * gmap A Z) :=
  match HexToECDSA (EncodeToString (Keccak256 seed)) with
  | None => Fail (HexToECDSAErr seed)
  | Some key =>
      match NewKeyedTransactorWithChainID key 1337 with
      | None => Fail (TransactorErr seed)
      | Some txOpts =>
          balance ← map_err EtherErr (Ether 100);
          Ret (txOpts, key, <[From txOpts := balance]> alloc)
      end
  end.

Definition account_seed (i : nat) : string := "account:" +:+ pretty i.

Fixpoint create_accounts (seeds : list string) (alloc : gmap A Z)
    : outcome sim_err (list (Opts * K) * gmap A Z) :=
  match seeds with
  | [] => Ret ([], alloc)
  | seed :: seeds =>
      '(o, k, alloc) ← createAccount seed alloc;
      '(rest, alloc) ← create_accounts seeds alloc;
      Ret ((o, k) :: rest, alloc)
  end.

Definition mocks : list string := [OpenSea; Chainlink; Ethier; WETH].

(** The balances at the first block, with the accounts. *)
Definition genesis (numAccounts : nat) : outcome sim_err (list (Opts * K) * list (Opts * K) * gmap A Z) :=
  '(accs, alloc) ← create_accounts (account_seed <$> seq 0 numAccounts) precompiles;
  '(mocked, alloc) ← create_accounts mocks alloc;
  Ret (accs, mocked, alloc).

Definition NewSimulatedBackend (numAccounts : nat) : outcome sim_err SimulatedBackend :=
  '(accs, mocked, alloc) ← genesis numAccounts;
  let b := Commit (AdjustTime (NewChain alloc 30000000) (365 * 24 * 3600 * 10 ^ 9)) in
  Ret (mkBackend b true accs.*1 accs.*2 (list_to_map (zip mocks mocked.*1))).

(** ** Accounts *)

(** An index out of range panics. *)
Definition Acc (sb : SimulatedBackend) (account : Z) : outcome sim_err Opts :=
  acc ← or_panic (if account <? 0 then None else accounts sb !! Z.to_nat account);
  Ret (mkOpts (From acc) (Signer acc) None).

Definition Addr (sb : SimulatedBackend) (account : Z) : outcome sim_err A :=
  acc ← or_panic (if account <? 0 then None else accounts sb !! Z.to_nat account); Ret (From acc).

(** [CallOpts] with the sender only. *)
Definition CallFrom (sb : SimulatedBackend) (account : Z) : outcome sim_err A :=
  acc ← or_panic (if account <? 0 then None else accounts sb !! Z.to_nat account); Ret (From acc).

(** [BalanceAt] at the latest block; [None]: the test ends with [Fatalf]. *)
Definition BalanceOf (BalanceAt : B → A → option Z) (sb : SimulatedBackend) (addr : A) : option Z := BalanceAt (sim sb) addr.

Definition PrivateKey (sb : SimulatedBackend) (account : Z) : outcome sim_err K :=
  or_panic (if account <? 0 then None else keys sb !! Z.to_nat account).

Definition WithValueFrom (sb : SimulatedBackend) (account value : Z) : outcome sim_err Opts :=
  opts ← Acc sb account; Ret (mkOpts (From opts) (Signer opts) (Some value)).

(** [fn] may use the backend; its error is propagated. *)
Definition AsMockedEntity (sb : SimulatedBackend) (mock : string)
    (fn : Opts → SimulatedBackend → SimulatedBackend * outcome sim_err ())
    : SimulatedBackend * outcome sim_err () :=
  match mockAccounts sb !! mock with
  | None => (sb, Fail (UnsupportedEntity mock))
  | Some a => fn a sb
  end.

(** ** The chain *)

Definition SendTransaction (sb : SimulatedBackend) (tx : Tx) : outcome sim_err SimulatedBackend :=
  match PoolTransaction (sim sb) tx with
  | None => Fail SendErr
  | Some b => Ret (with_sim sb (if AutoCommit sb then Commit b else b))
  end.

Definition BlockNumber (sb : SimulatedBackend) : Z := CurrentNumber (sim sb).

(** The loop of [FastForward]; [None] when the fuel runs out. *)
Fixpoint ff_loop (fuel : nat) (blockNumber : Z) (sb : SimulatedBackend) (done : bool)
    : option (SimulatedBackend * bool) :=
  match fuel with
  | O => None
  | S fuel =>
      match blockNumber ?= BlockNumber sb with
      | Gt => ff_loop fuel blockNumber (with_sim sb (Commit (sim sb))) true
      | _ => Some (sb, done)
      end
  end.

(** One commit per missing block, and the last check. *)
Definition FastForward (sb : SimulatedBackend) (blockNumber : Z) : option (SimulatedBackend * bool) :=
  ff_loop (S (Z.to_nat (blockNumber - BlockNumber sb))) blockNumber sb false.

(** [None] when waiting for the receipt fails, which ends the test. *)
Definition GasSpent (sb : SimulatedBackend) (tx : Tx) : option Z :=
  used ← GasUsed (sim sb) tx; Some (GasPrice tx * used).

(** ** [Must]: what the returned function reports to the test *)

Inductive report := MustBeUsedOnce | Fatal.

(** [used] is the captured variable; a fatal report ends the test, so that no
    transaction is returned. *)
Definition Must (used : bool) (tx : option Tx) (err : bool) : bool * list report * option Tx :=
  let errs := if used then [MustBeUsedOnce] else [] in
  if err then (true, errs ++ [Fatal], None) else (true, errs, tx).
End backend.
Arguments SimulatedBackend : clear implicits.
Arguments mkBackend {B A K} sim AutoCommit accounts keys mockAccounts.
Arguments sim {B A K}.
Arguments AutoCommit {B A K}.
Arguments accounts {B A K}.
Arguments keys {B A K}.
Arguments mockAccounts {B A K}.

(** ** Accounts of a new backend *)

Section creation.
Context {B A K Tx : Type} `{Countable A, Keys A K, !Chain B A Tx}.

(** The account of a seed, which is the same in every backend. *)
Definition account_of (seed : string) : option (TransactOpts A K * K) :=
  k ← HexToECDSA (EncodeToString (Keccak256 seed)); o ← NewKeyedTransactorWithChainID k 1337; Some (o, k).

Definition unavailable (seed : string) (e : sim_err) : Prop :=
  account_of seed = None ∧ (e = HexToECDSAErr seed ∨ e = TransactorErr seed).

Definition hundred_ether : Z := 100 * 10 ^ 18.

Lemma create_accounts_spec seeds alloc :
  match create_accounts seeds alloc with
  | Ret (l, alloc') => Forall2 (λ s p, account_of s = Some p) seeds l ∧
      ∀ a, alloc' !! a = if decide (a ∈ From <$> l.*1) then Some hundred_ether else alloc !! a
  | Fail e => ∃ seed, seed ∈ seeds ∧ unavailable seed e
  | Panic => False
  end.
Proof.
  revert alloc. induction seeds as [|seed seeds IH]; intros alloc; cbn [create_accounts].
  { split; [constructor|]. intros a. by rewrite decide_False by apply not_elem_of_nil. }
  unfold createAccount. destruct (HexToECDSA _) as [k|] eqn:Ek.
  2: { exists seed. split; [left|]. unfold unavailable, account_of. rewrite Ek. by auto. }
  destruct (NewKeyedTransactorWithChainID k 1337) as [o|] eqn:Eo.
  2: { exists seed. split; [left|]. unfold unavailable, account_of. rewrite Ek. simpl. rewrite Eo. by auto. }
  replace (Ether 100) with (Ret (E:=eth_err) hundred_ether) by by vm_compute.
  cbn [map_err mbind outcome_mbind].
  specialize (IH (<[From o:=hundred_ether]> alloc)).
  destruct (create_accounts seeds _) as [[l alloc']|e|]; cbn [mbind outcome_mbind]; [| |done].
  - destruct IH as [Hl Ha]. split.
    + constructor; [|done]. unfold account_of. rewrite Ek. simpl. by rewrite Eo.
    + intros a. rewrite Ha. simpl. destruct (decide (a ∈ From <$> l.*1)) as [Hin|Hin].
      { rewrite decide_True; [done|]. by right. }
      destruct (decide (a = From o)) as [->|Hne].
      * rewrite decide_True by left. by rewrite lookup_insert_eq.
      * rewrite decide_False by (rewrite elem_of_cons; naive_solver). by rewrite lookup_insert_ne.
  - destruct IH as (s & Hs & Hu). exists s. split; [by right|done].
Qed.

(** The accounts of a backend in the order of their creation. *)
Definition funded (sb : SimulatedBackend B A K) : list A :=
  From <$> (accounts sb ++ omap (λ mock, mockAccounts sb !! mock) mocks).

Definition precompiled : list A := (λ i, BytesToAddress [i]) <$> [1; 2; 3; 4; 5; 6; 7; 8].

Lemma precompiles_lookup (a : A) :
  precompiles !! a = if decide (a ∈ precompiled) then Some 1 else None.
Proof.
  unfold precompiles.
  assert (∀ l (m : gmap A Z), foldl (λ m i, <[BytesToAddress [i]:=1]> m) m l !! a
    = if decide (a ∈ (λ i, BytesToAddress [i]) <$> l) then Some 1 else m !! a) as Hf.
  { clear. induction l as [|i l IH]; intros m; [done|]. cbn [foldl fmap list_fmap].
    rewrite IH. destruct (decide (a ∈ (λ i, BytesToAddress [i]) <$> l)); [by rewrite decide_True by by right|].
    destruct (decide (a = BytesToAddress [i])) as [->|Hne].
    - by rewrite lookup_insert_eq, decide_True by left.
    - rewrite lookup_insert_ne by done. rewrite decide_False; [done|]. rewrite elem_of_cons. naive_solver. }
  by rewrite Hf, lookup_empty.
Qed.

(** The map of the mocked entities. *)
Lemma mocks_lookup (mocked : list (TransactOpts A K * K)) :
  Forall2 (λ s p, account_of s = Some p) mocks mocked →
  let m := list_to_map (zip mocks mocked.*1) : gmap string (TransactOpts A K) in
  (∀ mock, m !! mock = if decide (mock ∈ mocks) then fst <$> account_of mock else None) ∧
  omap (λ mock, m !! mock) mocks = mocked.*1.
Proof.
  intros Hm m. assert (∀ mock, m !! mock = if decide (mock ∈ mocks) then fst <$> account_of mock else None) as Hl.
  { assert (NoDup mocks) as Hd by by apply (bool_decide_unpack _); vm_compute.
    revert Hd. subst m. induction Hm as [|s p ss ps Hs _ IH]; intros Hd mock.
    { apply lookup_empty. }
    apply NoDup_cons in Hd as [Hn Hd]. simpl. destruct (decide (mock = s)) as [->|Hne].
    - rewrite lookup_insert_eq, decide_True by left. by rewrite Hs.
    - rewrite lookup_insert_ne by done. rewrite (IH Hd). apply decide_ext. rewrite elem_of_cons. naive_solver. }
  split; [done|]. assert (Forall2 (λ s p, m !! s = Some p.1) mocks mocked) as Hp.
  { clearbody m. apply Forall2_same_length_lookup. split; [by eapply Forall2_length|]. intros i s p Hs Hp.
    rewrite Hl, decide_True by by eapply list_elem_of_lookup_2.
    rewrite (Forall2_lookup_lr _ _ _ _ _ _ Hm Hs Hp). done. }
  clearbody m. clear -Hp. induction Hp as [|s p ss ps Hs _ IH]; [done|]. cbn [omap list_omap fmap list_fmap]. rewrite Hs. by f_equal.
Qed.
End creation.

(** A new backend has the requested accounts, which depend on their numbers only,
    and the four mocked entities; exactly these start with 100 Ether each, and
    besides them exactly the precompiled contracts with one Wei.  It fails only when
    the key of a seed is not usable, and names that seed. *)
Theorem NewSimulatedBackend_correct {B A K Tx} `{Countable A, Keys A K, !Chain B A Tx} (n : nat) :
  match NewSimulatedBackend (B:=B) (A:=A) (K:=K) n with
  | Ret sb => AutoCommit sb = true ∧
      Forall2 (λ seed p, account_of seed = Some p) (account_seed <$> seq 0 n) (zip (accounts sb) (keys sb)) ∧
      length (accounts sb) = n ∧ length (keys sb) = n ∧
      (∀ mock, mockAccounts sb !! mock = if decide (mock ∈ mocks) then fst <$> account_of mock else None) ∧
      ∃ alloc, sim sb = Commit (AdjustTime (NewChain alloc 30000000) (365 * 24 * 3600 * 10 ^ 9)) ∧
        ∀ a : A, alloc !! a = if decide (a ∈ funded sb) then Some (100 * 10 ^ 18)
          else if decide (a ∈ precompiled) then Some 1 else None
  | Fail e => ∃ seed, (seed ∈ account_seed <$> seq 0 n ∨ seed ∈ mocks) ∧ unavailable (A:=A) (K:=K) seed e
  | Panic => False
  end.
Proof.
  unfold NewSimulatedBackend, genesis.
  pose proof (create_accounts_spec (A:=A) (K:=K) (account_seed <$> seq 0 n) precompiles) as Ha.
  destruct (create_accounts _ precompiles) as [[accs alloc]|e|]; cbn [mbind outcome_mbind]; [| |done].
  2: { destruct Ha as (s & ? & ?). exists s. auto. }
  pose proof (create_accounts_spec (A:=A) (K:=K) mocks alloc) as Hm.
  destruct (create_accounts mocks alloc) as [[mocked alloc']|e|]; cbn [mbind outcome_mbind]; [| |done].
  2: { destruct Hm as (s & ? & ?). exists s. auto. }
  destruct Ha as [Haccs Halloc], Hm as [Hmocked Halloc']. cbv zeta. cbn [AutoCommit accounts keys mockAccounts sim].
  assert (length accs = n) as Hn by (rewrite <-(Forall2_length _ _ _ Haccs), length_fmap, length_seq; done).
  split; [done|]. split; [by rewrite zip_fst_snd|]. split; [by rewrite length_fmap|].
  split; [by rewrite length_fmap|]. destruct (mocks_lookup mocked Hmocked) as [Hlook Hfunded].
  split; [exact Hlook|]. eexists. split; [reflexivity|]. intros a.
  rewrite Halloc', Halloc, precompiles_lookup. unfold funded.
  cbn [accounts mockAccounts]. rewrite Hfunded, fmap_app.
  destruct (decide (a ∈ From <$> mocked.*1)); [by rewrite decide_True by (apply elem_of_app; by right)|].
  destruct (decide (a ∈ From <$> accs.*1)); [by rewrite decide_True by (apply elem_of_app; by left)|].
  rewrite (decide_False (P:=a ∈ _ ++ _)); [done|]. rewrite elem_of_app. naive_solver.
Qed.

(** [FastForward] stops at the requested block, or where it was when that is in the
    past: it commits once per missing block, changes nothing else, and reports whether
    it had to. *)
Theorem FastForward_correct {B A K Tx} `{ChainLaws B A Tx} (sb : SimulatedBackend B A K) (n : Z) :
  ∃ sb', FastForward sb n = Some (sb', bool_decide (BlockNumber sb < n)) ∧
    BlockNumber sb' = Z.max (BlockNumber sb) n ∧
    sb' = with_sim sb (Nat.iter (Z.to_nat (n - BlockNumber sb)) Commit (sim sb)).
Proof.
  unfold FastForward.
  assert (∀ k (sb : SimulatedBackend B A K) done, Z.to_nat (n - BlockNumber sb) = k → ∃ sb',
    ff_loop (S k) n sb done = Some (sb', bool_decide (BlockNumber sb < n) || done) ∧
    BlockNumber sb' = Z.max (BlockNumber sb) n ∧ sb' = with_sim sb (Nat.iter k Commit (sim sb))) as Hloop.
  { clear sb. induction k as [|k IH]; intros sb done Hk.
    - cbn [ff_loop]. exists sb. destruct (Z.compare_spec n (BlockNumber sb)); [| |lia];
        (rewrite bool_decide_eq_false_2 by lia; split_and!; [done|lia|by destruct sb]).
    - remember (S k) as k1. cbn [ff_loop]. destruct (Z.compare_spec n (BlockNumber sb)); [lia|lia|]. subst k1.
      set (next := with_sim sb (Commit (sim sb))).
      assert (BlockNumber next = BlockNumber sb + 1) as E by apply Commit_number.
      destruct (IH next true) as (sb' & Hl & Hb & ->); [lia|].
      eexists. split; [rewrite Hl, orb_true_r, bool_decide_eq_true_2 by lia; reflexivity|].
      split; [lia|]. rewrite Nat.iter_succ_r. done. }
  destruct (Hloop _ sb false eq_refl) as (sb' & Hl & Hb & Hs). exists sb'.
  rewrite Hl, orb_false_r. done.
Qed.

(** ** Examples *)

(** Keys are the hex digits of their hash and addresses the keys; a chain is its
    number, a transaction the number it must find. *)
#[local] Instance toy_keys : Keys string string := {
  BytesToAddress b := EncodeToString b;
  Keccak256 s := string_bytes s;
  HexToECDSA s := Some s;
  NewKeyedTransactorWithChainID k chain := if chain =? 1337 then Some (mkOpts k k None) else None;
}.

#[local] Instance toy_chain : Chain Z string Z := {
  NewChain _ _ := 0;
  AdjustTime b _ := b;
  Commit b := b + 1;
  CurrentNumber b := b;
  PoolTransaction b tx := if b =? tx then Some b else None;
  GasUsed b tx := if tx <? b then Some 21000 else None;
  GasPrice tx := 7;
}.

#[local] Instance toy_chain_laws : ChainLaws Z string Z.
Proof. by split. Qed.

Definition toy_backend (auto : bool) : SimulatedBackend Z string string :=
  mkBackend 1 auto [mkOpts "a" "k" (Some 5)] ["k"%string] ∅.

Example new_backend : (λ sb, (sim sb, length (accounts sb), size (mockAccounts sb)))
  <$> NewSimulatedBackend (B:=Z) (A:=string) (K:=string) 3 = Ret (2 - 1, 3%nat, 4%nat).
Proof. by vm_compute. Qed.

Example send_auto : SendTransaction (toy_backend true) 1 = Ret (with_sim (toy_backend true) 2) ∧
  SendTransaction (toy_backend false) 1 = Ret (toy_backend false) ∧
  SendTransaction (toy_backend true) 2 = Fail SendErr ∧
  GasSpent (toy_backend true) 0 = Some 147000.
Proof. by vm_compute. Qed.

Lemma FastForward_correct_witness :
  ∃ sb', FastForward (toy_backend true) 4 = Some (sb', true) ∧ BlockNumber sb' = 4 ∧
    sb' = with_sim (toy_backend true) 4.
Proof.
  destruct (FastForward_correct (toy_backend true) 4) as (sb' & E & Hn & Hs). exists sb'.
  rewrite bool_decide_eq_true_2 in E by done. split; [exact E|]. split; [exact Hn|exact Hs].
Defined.
