(* ===== verification/FirehoseFake.v ===== *)
(** * FirehoseFake: the test double of [go/firehose/firehosetest/firehosetest.go]

    Blocks mined on the simulated chain of [SimBackend], served by the fake Firehose
    [hose], fetched by the stream and the request loop of [Firehose] and received by
    [CollectAll].  The protobuf encoding of blocks and the chain are parameters. *)

From S2P Require Import Prelude GoStrings BigInt EthProto Firehose SimBackend.
From stdpp Require Import gmap strings pretty sorting.
Local Open Scope Z_scope.

(** ** Mining *)

(** Blocks and logs of go-ethereum, as far as they are read. *)
Record types_Log := mkEthLog { l_Address : bytes; l_Topics : list bytes; l_Data : bytes; l_Index : Z }.
Record types_Block := mkEthBlock {
  b_Number : Z; b_Time : Z; b_Hash : bytes; b_Transactions : list bytes
}.

(** [CommitHash]: the hash that [Commit] returns; a receipt has a transaction hash and
    logs. *)
Class Reader (B : Type) := {
  CommitHash : B → bytes;
  BlockByHash : B → bytes → option types_Block;
  TransactionReceipt : B → bytes → option (bytes * list types_Log);
}.

(** [anypb] of a block. *)
Class AnyPB (M : Type) := {
  anypb_New : SFBlock → option M;
  UnmarshalNew : M → option SFBlock;
}.

Class AnyPBLaws (M : Type) `{AnyPB M} := {
  UnmarshalNew_New : ∀ b m, anypb_New b = Some m → UnmarshalNew m = Some b;
}.

Inductive fake_err := BlockErr | ReceiptErr | NewBackendErr (e : sim_err) | RecvError (e : hose_err).

Definition log_of (l : types_Log) : Log :=
  mkLog (l_Address l) (l_Topics l) (l_Data l) (u32 (l_Index l)).

Section fake.
Context {B A K Tx M : Type} `{Countable A, Keys A K, !Chain B A Tx, Reader B, AnyPB M}.

Record Fake := mkFake { fake_sim : SimulatedBackend B A K; hose : list SFBlock }.

Definition NewFake : outcome fake_err Fake :=
  s ← map_err NewBackendErr (NewSimulatedBackend 1);
  Ret (mkFake (mkBackend (sim s) false (accounts s) (keys s) (mockAccounts s)) []).

Fixpoint mined_txs (b : B) (txs : list bytes) : outcome fake_err (list TransactionTrace) :=
  match txs with
  | [] => Ret []
  | tx :: txs =>
      match TransactionReceipt b tx with
      | None => Fail ReceiptErr
      | Some (txHash, logs) =>
          rest ← mined_txs b txs; Ret (mkTrace txHash (Some (log_of <$> logs)) :: rest)
      end
  end.

Definition MineBlock (f : Fake) : outcome fake_err (types_Block * Fake) :=
  let blockHash := CommitHash (sim (fake_sim f)) in
  let s := with_sim (fake_sim f) (Commit (sim (fake_sim f))) in
  match BlockByHash (sim s) blockHash with
  | None => Fail BlockErr
  | Some block =>
      txs ← mined_txs (sim s) (b_Transactions block);
      Ret (block, mkFake s (hose f ++
        [mkSFBlock (b_Number block) (Some (i64 (b_Time block))) (b_Hash block) txs]))
  end.

(** A transaction sent to [Backend()], the embedded chain: never committed here. *)
Definition send_to_backend (f : Fake) (tx : Tx) : outcome fake_err Fake :=
  match PoolTransaction (sim (fake_sim f)) tx with
  | None => Ret f
  | Some b => Ret (mkFake (with_sim (fake_sim f) b) (hose f))
  end.

(** ** Serving *)

Definition blockCursor (num : Z) : string := "block[" +:+ pretty num +:+ "]".
Definition Cursor_ (b : types_Block) : string := blockCursor (b_Number b).

Record Response := mkResponse { resp_Any : M; resp_Cursor : string; resp_Step : Z }.

Inductive serve_err := NegativeStart (s : Z) | AnyErr | SrvSendErr.

(** The loop over the blocks: what was sent, and the status of the stream. *)
Fixpoint hose_loop (blocks : list SFBlock) (start stop : Z) (Send : Response → bool)
    : list Response * option serve_err :=
  match blocks with
  | [] => ([], None)
  | b :: blocks =>
      if sf_Number b <? u64 start then hose_loop blocks start stop Send
      else if negb (stop =? 0) && (stop <? sf_Number b) then ([], None)
      else
        match anypb_New b with
        | None => ([], Some AnyErr)
        | Some m =>
            let resp := mkResponse m (blockCursor (sf_Number b)) 0 in
            if Send resp then
              let '(rs, e) := hose_loop blocks start stop Send in (resp :: rs, e)
            else ([], Some SrvSendErr)
        end
  end.

Definition hose_Blocks {H} (blocks : list SFBlock) (req : Request (H:=H)) (Send : Response → bool)
    : list Response * option serve_err :=
  if StartBlock req <? 0 then ([], Some (NegativeStart (StartBlock req)))
  else hose_loop blocks (StartBlock req) (StopBlock req) Send.

(** ** Receiving *)

(** What the client's stream yields of a response. *)
Definition received (r : Response) : stream_recv (SFBlock * string * Z) :=
  match UnmarshalNew (resp_Any r) with
  | Some b => RecvBlock (b, resp_Cursor r, resp_Step r)
  | None => RecvGarbage
  end.

(** The stream of the fake, by gRPC. *)
Definition fake_stream {H} (f : Fake) (req : Request (H:=H)) : list (stream_recv (SFBlock * string * Z)) :=
  let '(rs, status) := hose_Blocks (hose f) req (λ _, true) in
  (received <$> rs) ++ match status with None => [] | Some _ => [RecvErr] end.

(** [Proxy.Blocks] connected to the fake, while nothing is cancelled. *)
Definition proxy_Blocks {H} (f : Fake) (req : Request (H:=H))
    : option (list stream_input * option hose_err) :=
  let '(bs, e) := Blocks (fake_stream f req) [] in
  Some ((λ '(b, cursor, step), Received b cursor step) <$> bs, e).

(** The fuel of [CollectAll]: one call per queued response and one for the error. *)
Fixpoint collect_loop (fuel : nat) (client : ethAdaptor) (got : list BlockResponse)
    : outcome fake_err (list BlockResponse) :=
  match fuel with
  | O => Panic
  | S fuel =>
      let '(r, client) := Recv client in
      match r with
      | Fail EOF => Ret got
      | Fail e => Fail (RecvError e)
      | Ret b => collect_loop fuel client (got ++ [b])
      | Panic => Panic
      end
  end.

Definition CollectAll (client : ethAdaptor) : outcome fake_err (list BlockResponse) :=
  collect_loop (S (length (blocks client))) client [].

(** [Client.Events] and then [CollectAll]; a panic of the client's goroutine ends the
    process. *)
Definition collect_events {T H} `{Countable H, ABI T H, Decoder T H, EthCommon}
    (range_map : gmap string any → list (string * any)) (f : Fake) (req : EventsRequest)
    : outcome fake_err (list BlockResponse) :=
  client ← or_panic (newETHAdaptor (events (T:=T) (H:=H) range_map req (proxy_Blocks f) (λ _, None)));
  CollectAll client.
End fake.
Arguments Fake : clear implicits.
Arguments Response : clear implicits.

(** [Arg]. *)
Definition Arg (name : string) (val : any) (indexed : bool) : outcome proto_err Argument :=
  v ← AsValue val;
  p ← or_panic v;
  Ret (NewArgument name p indexed).

(** ** The served blocks *)

Definition in_range (start stop : Z) (b : SFBlock) : Prop :=
  start ≤ sf_Number b ∧ (stop = 0 ∨ sf_Number b ≤ stop).

#[export] Instance in_range_dec start stop b : Decision (in_range start stop b).
Proof. unfold in_range. apply _. Defined.

(** The order in which blocks are mined. *)
Definition mined_before (b c : SFBlock) : Prop := sf_Number b < sf_Number c.

(** The response of a block. *)
Definition respond {T H} `{Countable H, ABI T H, Decoder T H, EthCommon}
    (range_map : gmap string any → list (string * any))
    (exs : gmap H (ethEventExtractor (T:=T) (H:=H))) (contracts : gset bytes) (b : SFBlock)
    : outcome hose_err BlockResponse :=
  block ← extract range_map exs b contracts;
  Ret (mkBlockResponse block (blockCursor (sf_Number b)) b 0).

Section serving.
Context {M : Type} `{AnyPBLaws M}.

Definition encodable (b : SFBlock) : Prop := is_Some (anypb_New b).

(** A block and its response on the wire. *)
Definition serves (b : SFBlock) (r : Response M) : Prop :=
  anypb_New b = Some (resp_Any r) ∧ resp_Cursor r = blockCursor (sf_Number b) ∧ resp_Step r = 0.

(** The loop stops at the first block past the last one; as the blocks are sorted,
    it serves those in the range. *)
Lemma hose_loop_range blocks start stop : 0 ≤ start < 2 ^ 63 →
  StronglySorted mined_before blocks → Forall encodable blocks →
  let '(rs, e) := hose_loop blocks start stop (λ _, true) in
  e = None ∧ Forall2 serves (filter (in_range start stop) blocks) rs.
Proof.
  intros Hs. induction 1 as [|b blocks Hsort IH Hb]; intros Henc; cbn [hose_loop]; [by split|].
  apply Forall_cons in Henc as [[m Hm] Henc]. specialize (IH Henc).
  rewrite u64_small by lia. destruct (Z.ltb_spec (sf_Number b) start) as [Hlt|Hge].
  { rewrite filter_cons_False; [done|]. unfold in_range. lia. }
  destruct (negb (stop =? 0) && (stop <? sf_Number b)) eqn:Estop.
  { rewrite andb_true_iff, negb_true_iff, Z.eqb_neq, Z.ltb_lt in Estop. split; [done|].
    assert (filter (in_range start stop) (b :: blocks) = []) as ->; [|constructor].
    apply filter_none. constructor; [unfold in_range; lia|].
    eapply Forall_impl; [exact Hb|]. unfold in_range, mined_before. simpl. lia. }
  rewrite Hm. destruct (hose_loop blocks start stop (λ _, true)) as [rs e]. destruct IH as [-> IH].
  split; [done|]. rewrite andb_false_iff, negb_false_iff, Z.eqb_eq, Z.ltb_ge in Estop.
  rewrite filter_cons_True by (unfold in_range; lia). by constructor.
Qed.

Lemma Blocks_served bs rs : Forall2 serves bs rs →
  Blocks ((received <$> rs) ++ []) [] = ((λ b, (b, blockCursor (sf_Number b), 0)) <$> bs, None).
Proof.
  rewrite app_nil_r. induction 1 as [|b r bs rs (Hm & Hc & Hst) _ IH]; [done|].
  cbn [fmap list_fmap Blocks]. unfold received at 1. rewrite (UnmarshalNew_New _ _ Hm), Hc, Hst. simpl in *.
  by rewrite IH.
Qed.
End serving.

Section collecting.
Context {T H : Type} `{Countable H, ABI T H, Decoder T H, EthCommon}.
Context (range_map : gmap string any → list (string * any)).

(** The request loop over the blocks that are served. *)
Lemma events_loop_respond (exs : gmap H (ethEventExtractor (T:=T) (H:=H))) contracts bs :
  let '(outs, r) := events_loop range_map exs contracts
    ((λ b, Received b (blockCursor (sf_Number b)) 0) <$> bs) None (λ _, None) in
  omapM (respond range_map exs contracts) bs
  = match r with Ret _ => Ret outs | Fail e => Fail e | Panic => Panic end.
Proof.
  unfold respond. induction bs as [|b bs IH]; [done|]. cbn [fmap list_fmap events_loop omapM].
  destruct (extract range_map exs b contracts) as [blk|e|]; cbn [mbind outcome_mbind]; [|done..].
  destruct (events_loop _ _ _ _ _ _) as [outs r]. rewrite IH. by destruct r.
Qed.

(** [CollectAll] gets what [Recv] returns before its error. *)
Definition collected (outs : list BlockResponse) (e : hose_err) : outcome fake_err (list BlockResponse) :=
  match e with EOF => Ret outs | _ => Fail (RecvError e) end.

Lemma CollectAll_adaptor outs e : CollectAll (mkAdaptor outs e) = collected outs e.
Proof.
  unfold CollectAll. cbn [blocks]. change (collected outs e) with (collected ([] ++ outs) e).
  generalize (@nil BlockResponse) as got. induction outs as [|b outs IH]; intros got.
  - rewrite app_nil_r. by destruct e.
  - cbn [length]. remember (S (length outs)) as n. cbn [collect_loop]. unfold Recv. simpl. subst n.
    rewrite IH. by rewrite <-app_assoc.
Qed.

(** [CollectAll] on the in-process client. *)
Lemma CollectAll_client outs r : r ≠ Fail EOF →
  (client ← or_panic (newETHAdaptor (outs, r)); CollectAll client)
  = match r with Ret _ => Ret outs | Fail e => Fail (RecvError e) | Panic => Panic end.
Proof.
  intros Hr. unfold newETHAdaptor. destruct r as [[]|e|]; cbn [fst snd or_panic mbind outcome_mbind];
    rewrite ?CollectAll_adaptor; [done| |done]. by destruct e.
Qed.

Lemma extract_not_EOF (exs : gmap H (ethEventExtractor (T:=T) (H:=H))) contracts b : well_formed b →
  extract range_map exs b contracts ≠ Fail EOF.
Proof.
  intros [[t Ht] Htxs]. unfold extract. rewrite Ht. cbn [or_panic mbind outcome_mbind].
  pose proof (extract_txs_spec range_map exs contracts _ Htxs) as Hx.
  destruct (extract_txs _ _ _ _); cbn [mbind outcome_mbind]; [done| |done].
  destruct Hx as (? & ? & ? & ? & ? & ? & ? & ? & ->). done.
Qed.
End collecting.

(** ** Reachable fakes *)

(** The simulated chain: a committed block is found under its hash, with the number of
    the chain's head, and so are the receipts of its transactions; a transaction sent
    changes neither the head's number; addresses have 20 bytes. *)
Class ReaderLaws (B A Tx : Type) `{Chain B A Tx, Reader B} := {
  commit_block : ∀ b : B, ∃ blk, BlockByHash (Commit b) (CommitHash b) = Some blk ∧
    b_Number blk = CurrentNumber (Commit b) ∧ b_Hash blk = CommitHash b ∧
    Forall (λ tx, ∃ logs, TransactionReceipt (Commit b) tx = Some (tx, logs) ∧
      Forall (λ l, length (l_Address l) = 20%nat) logs) (b_Transactions blk);
  commit_number : ∀ b : B, CurrentNumber (Commit b) = CurrentNumber b + 1;
  pool_number : ∀ (b b' : B) tx, PoolTransaction b tx = Some b' → CurrentNumber b' = CurrentNumber b;
}.

Section mining.
Context {B A K Tx : Type} `{Countable A, Keys A K, !Chain B A Tx, !Reader B, !ReaderLaws B A Tx}.

Inductive reachable : Fake B A K → Prop :=
| reach_new f : NewFake = Ret f → reachable f
| reach_send f f' tx : reachable f → send_to_backend f tx = Ret f' → reachable f'
| reach_mine f blk f' : reachable f → MineBlock f = Ret (blk, f') → reachable f'.

Definition mined_well (f : Fake B A K) : Prop :=
  StronglySorted mined_before (hose f) ∧
  Forall (λ b, well_formed b ∧ sf_Number b ≤ CurrentNumber (sim (fake_sim f))) (hose f).

Lemma mined_txs_Ret (b : B) txs :
  Forall (λ tx, ∃ logs, TransactionReceipt b tx = Some (tx, logs) ∧
    Forall (λ l, length (l_Address l) = 20%nat) logs) txs →
  ∃ traces, mined_txs b txs = Ret traces ∧ Forall has_receipt traces ∧
    Forall2 (λ tx t, ∃ logs, TransactionReceipt b tx = Some (tx, logs) ∧
      t = mkTrace tx (Some (log_of <$> logs))) txs traces.
Proof.
  induction 1 as [|tx txs (logs & Hr & Hl) _ (traces & IH & Hw & Hx)]; cbn [mined_txs].
  { exists []. by split_and!. }
  rewrite Hr, IH. cbn [mbind outcome_mbind]. eexists. split; [reflexivity|]. split.
  - constructor; [|done]. eexists. split; [reflexivity|]. by apply Forall_fmap.
  - constructor; [by exists logs|done].
Qed.

(** What [MineBlock] returns and queues. *)
Lemma MineBlock_Ret (f : Fake B A K) : ∃ blk f' b, MineBlock f = Ret (blk, f') ∧
  hose f' = hose f ++ [b] ∧ sim (fake_sim f') = Commit (sim (fake_sim f)) ∧
  sf_Number b = CurrentNumber (sim (fake_sim f)) + 1 ∧ sf_Number b = b_Number blk ∧
  sf_Hash b = b_Hash blk ∧ Header b = Some (i64 (b_Time blk)) ∧ well_formed b ∧
  Forall2 (λ tx t, ∃ logs, TransactionReceipt (sim (fake_sim f')) tx = Some (tx, logs) ∧
    t = mkTrace tx (Some (log_of <$> logs))) (b_Transactions blk) (TransactionTraces b).
Proof.
  unfold MineBlock. set (s := sim (fake_sim f)).
  destruct (commit_block s) as (blk & Hb & Hn & Hh & Hr). simpl. rewrite Hb.
  destruct (mined_txs_Ret _ _ Hr) as (traces & -> & Hw & Hx). cbn [mbind outcome_mbind].
  eexists _, _, _. split; [reflexivity|]. simpl. split; [reflexivity|]. split; [done|]. simpl.
  rewrite Hn, commit_number. split_and!; try done.
Qed.

Lemma reachable_mined_well f : reachable f → mined_well f.
Proof.
  induction 1 as [f Hf|f f' tx _ [Hs Hw] Hf|f blk f' _ [Hs Hw] Hf].
  - unfold NewFake in Hf. apply bind_Ret in Hf as (s & _ & [= <-]). split; constructor.
  - unfold send_to_backend in Hf. destruct (PoolTransaction _ tx) as [b|] eqn:Hp; injection Hf as <-; [|done].
    split; [done|]. simpl. by rewrite (pool_number _ _ _ Hp).
  - destruct (MineBlock_Ret f) as (blk' & f1 & b & E & Hh & Hsim & Hn & _ & _ & _ & Hwf & _).
    rewrite E in Hf. injection Hf as <- <-. unfold mined_well. rewrite Hh, Hsim, commit_number. split.
    + apply StronglySorted_app_2; [|done|repeat constructor]. intros x y Hx ->%list_elem_of_singleton.
      rewrite Forall_forall in Hw. destruct (Hw _ Hx) as [_ Hle]. unfold mined_before. lia.
    + apply Forall_app. split; [|apply Forall_singleton; split; [done|lia]].
      eapply Forall_impl; [exact Hw|]. simpl. intros x [? ?]. split; [done|lia].
Qed.
End mining.

(** C12. The fake never fails to mine, and whatever was sent and mined before, its blocks
    are sorted by number, without gaps at the end, and each block mined is queued as
    Firehose would deliver it: its number, hash and time, its transactions in order,
    every one with the logs of its receipt. *)
Theorem MineBlock_correct {B A K Tx} `{Countable A, Keys A K, !Chain B A Tx, !Reader B, !ReaderLaws B A Tx}
    (f : Fake B A K) : reachable f →
  StronglySorted mined_before (hose f) ∧ Forall well_formed (hose f) ∧
  ∃ blk f' b, MineBlock f = Ret (blk, f') ∧ hose f' = hose f ++ [b] ∧
    BlockNumber (fake_sim f') = BlockNumber (fake_sim f) + 1 ∧
    sf_Number b = BlockNumber (fake_sim f') ∧ Cursor_ blk = blockCursor (sf_Number b) ∧
    sf_Hash b = b_Hash blk ∧ Header b = Some (i64 (b_Time blk)) ∧
    Forall2 (λ tx t, ∃ logs, TransactionReceipt (sim (fake_sim f')) tx = Some (tx, logs) ∧
      t = mkTrace tx (Some (log_of <$> logs))) (b_Transactions blk) (TransactionTraces b).
Proof.
  intros [Hs Hw]%reachable_mined_well. split; [done|].
  split; [by eapply Forall_impl; [exact Hw|intros b []]|].
  destruct (MineBlock_Ret f) as (blk & f' & b & E & Hh & Hsim & Hn & Hnb & Hx).
  destruct Hx as (? & ? & _ & ?). exists blk, f', b. unfold BlockNumber, Cursor_.
  rewrite Hnb in Hn |- *. split_and!; try done; rewrite Hsim, commit_number; done.
Qed.

(** Without contracts the responses have no transactions. *)
Lemma respond_no_contracts {T H} `{Countable H, ABI T H, Decoder T H, EthCommon}
    range_map (exs : gmap H (ethEventExtractor (T:=T) (H:=H))) bs : Forall well_formed bs →
  ∃ rs, omapM (respond range_map exs ∅) bs = Ret rs ∧ Forall (λ r, Transactions (resp_Block r) = []) rs.
Proof.
  induction 1 as [|b bs Hb _ (rs & IH & Hrs)]; [by exists []|]. cbn [omapM].
  destruct (extract_no_contracts range_map exs ∅ b eq_refl Hb) as (t & _ & Hx).
  assert (∃ r, respond range_map exs ∅ b = Ret r ∧ Transactions (resp_Block r) = []) as (r & -> & Hr)
    by (unfold respond; rewrite Hx; by eexists).
  cbn [mbind outcome_mbind]. rewrite IH. cbn [mbind outcome_mbind]. eexists. split; [done|]. by constructor.
Qed.

(** C2. From the chain to the client: what [CollectAll] gathers from a request for
    events is, in order, the conversion of each mined block from the first to the last
    number requested, the last one included and zero meaning no last one, with its
    cursor.  Of a valid request with signatures that are accepted, over blocks that can
    be encoded, a negative first number and a block that cannot be converted fail the
    test, and nothing else does.  A request without contracts gets the blocks without
    any transactions, where its description promises the events of every contract. *)
Theorem collect_events_correct {B A K Tx M T H}
    `{Countable A, Keys A K, !Chain B A Tx, !Reader B, !ReaderLaws B A Tx, AnyPBLaws M}
    `{Countable H, ABI T H, Decoder T H, EthCommon}
    range_map (f : Fake B A K) (req : EventsRequest) exs sigs :
  reachable f → Forall (encodable (M:=M)) (hose f) →
  req_Valid req = true → make_extractors (T:=T) (H:=H) (Signatures req) ∅ = Ret (exs, sigs) →
  - 2 ^ 63 ≤ StartBlockNum req < 2 ^ 63 →
  (collect_events (M:=M) (T:=T) (H:=H) range_map f req
  = if StartBlockNum req <? 0 then Fail (RecvError StreamRecv)
    else map_err RecvError
      (omapM (respond range_map exs (list_to_set (EthProto.BytesToAddress <$> Contracts req)))
        (filter (in_range (StartBlockNum req) (StopBlockNum req)) (hose f)))) ∧
  (Contracts req = [] → 0 ≤ StartBlockNum req →
    ∃ rs, collect_events (M:=M) (T:=T) (H:=H) range_map f req = Ret rs ∧
      Forall (λ r, Transactions (resp_Block r) = []) rs).
Proof.
  intros Hr Henc Hv Hx Hstart. assert (
    collect_events (M:=M) (T:=T) (H:=H) range_map f req
    = if StartBlockNum req <? 0 then Fail (RecvError StreamRecv)
      else map_err RecvError
        (omapM (respond range_map exs (list_to_set (EthProto.BytesToAddress <$> Contracts req)))
          (filter (in_range (StartBlockNum req) (StopBlockNum req)) (hose f)))) as Hmain.
  { apply reachable_mined_well in Hr as [Hs Hw]. unfold collect_events, events. rewrite Hv, Hx.
    simpl negb. cbv iota zeta. unfold proxy_Blocks, fake_stream, hose_Blocks. cbn [StartBlock StopBlock].
    destruct (Z.ltb_spec (StartBlockNum req) 0) as [Hneg|Hpos].
    { cbn [app fmap list_fmap Blocks events_loop]. by rewrite CollectAll_client. }
    pose proof (hose_loop_range (M:=M) (hose f) (StartBlockNum req) (StopBlockNum req)) as Hloop.
    destruct (hose_loop (hose f) _ _ _) as [rs e]. destruct Hloop as [-> Hserve]; [lia|done|done|].
    rewrite (Blocks_served _ _ Hserve). rewrite <-list_fmap_compose.
    set (bs := filter _ _) in *. set (contracts := list_to_set _).
    pose proof (events_loop_respond range_map exs contracts bs) as Hev.
    change (_ <$> bs) with ((λ b, Received b (blockCursor (sf_Number b)) 0) <$> bs).
    assert (omapM (respond range_map exs contracts) bs ≠ Fail EOF) as Hne.
    { apply omapM_not_Fail. intros b [_ Hb]%list_elem_of_filter. unfold respond.
      rewrite Forall_forall in Hw. destruct (Hw b Hb) as [Hwf _].
      pose proof (extract_not_EOF range_map exs contracts b Hwf).
      destruct (extract range_map exs b contracts); cbn [mbind outcome_mbind]; congruence. }
    destruct (events_loop _ _ _ _ _ _) as [outs r]. rewrite Hev in *.
    rewrite CollectAll_client by (intros ->; done). by destruct r as [[]| |]. }
  split; [exact Hmain|]. intros Hc Hpos. rewrite Hmain, Hc. apply reachable_mined_well in Hr as [_ Hw].
  destruct (Z.ltb_spec (StartBlockNum req) 0) as [|_]; [lia|]. simpl list_to_set.
  destruct (respond_no_contracts range_map exs (filter (in_range (StartBlockNum req) (StopBlockNum req)) (hose f)))
    as (rs & -> & Hrs); [|by exists rs].
  rewrite Forall_forall in Hw |- *. intros b [_ Hb]%list_elem_of_filter. apply (Hw b Hb).
Qed.

(** ** Examples *)

#[local] Existing Instance SimBackend.toy_keys.
#[local] Existing Instance SimBackend.toy_chain.
#[local] Existing Instance Firehose.example_abi.
#[local] Existing Instance Firehose.example_decoder.
#[local] Existing Instance EthProto.common.

(** Every block has one transaction with one log, that of [Firehose]'s example. *)
#[local] Instance toy_reader : Reader Z := {
  CommitHash b := [b + 1];
  BlockByHash b h := if decide (h = [b]) then Some (mkEthBlock b (1000 + b) [b] [[b; 1]]) else None;
  TransactionReceipt b tx := Some (tx, [mkEthLog (replicate 20 9) [example_topic; replicate 20 5] [1; 0] 3]);
}.

#[local] Instance toy_reader_laws : ReaderLaws Z string Z.
Proof.
  split.
  - intros b. eexists. split; [simpl; by rewrite decide_True|]. split; [done|]. split; [done|].
    apply Forall_singleton. eexists. split; [done|]. by apply Forall_singleton.
  - done.
  - simpl. intros b b' tx. by destruct (b =? tx); intros [= <-].
Qed.

#[local] Instance toy_any : AnyPB SFBlock := { anypb_New := Some; UnmarshalNew := Some }.
#[local] Instance toy_any_laws : AnyPBLaws SFBlock.
Proof. split. by intros b m [= ->]. Qed.

Definition toy_fake : Fake Z string string :=
  match NewFake with Ret f => f | _ => mkFake (toy_backend false) [] end.

Definition mine (f : Fake Z string string) : Fake Z string string :=
  match MineBlock f with Ret (_, f') => f' | _ => f end.

Lemma toy_reachable : reachable toy_fake ∧ ∀ f, reachable f → reachable (mine f).
Proof.
  split.
  - apply reach_new. unfold toy_fake. assert (is_Some (match NewFake (B:=Z) (A:=string) (K:=string) with Ret f => Some f | _ => None end)) as [f Hf] by (vm_compute; by eexists).
    destruct NewFake; done.
  - intros f Hf. unfold mine. destruct (MineBlock f) as [[blk f']| |] eqn:E; [|done..]. by eapply reach_mine.
Qed.

Lemma MineBlock_correct_witness :
  sf_Number <$> hose (mine (mine toy_fake)) = [2; 3] ∧ Forall well_formed (hose (mine (mine toy_fake))).
Proof.
  split; [by vm_compute|].
  refine (proj1 (proj2 (MineBlock_correct (mine (mine toy_fake)) _))).
  do 2 apply toy_reachable. apply toy_reachable.
Defined.

Definition toy_request (start stop : Z) : EventsRequest :=
  mkEventsRequest [example_sig] [replicate 20 9] start stop "" true.

Definition toy_response (n : Z) : BlockResponse :=
  mkBlockResponse (mkBlock n (1000 + n) [n] [mkTransaction [n; 1] [example_event]])
    (blockCursor n) (mkSFBlock n (Some (1000 + n)) [n] [mkTrace [n; 1] (Some [example_log])]) 0.

Example toy_extractors start stop :
  make_extractors (T:=string) (H:=bytes) (Signatures (toy_request start stop)) ∅
  = Ret ({[example_topic := example_extractor]}, [example_topic]).
Proof. vm_compute. reflexivity. Qed.

Lemma toy_encodable : Forall (encodable (M:=SFBlock)) (hose (mine (mine (mine toy_fake)))).
Proof. repeat constructor; by eexists. Qed.

Lemma collect_events_correct_witness :
  let f := mine (mine (mine toy_fake)) in
  collect_events (M:=SFBlock) (T:=string) (H:=bytes) map_to_list f (toy_request 3 4)
  = Ret [toy_response 3; toy_response 4] ∧
  collect_events (M:=SFBlock) (T:=string) (H:=bytes) map_to_list f (toy_request (-1) 4)
  = Fail (RecvError StreamRecv).
Proof.
  intros f. assert (reachable f) as Hr by (do 3 apply toy_reachable; apply toy_reachable).
  split.
  - refine (eq_trans (proj1 (collect_events_correct (M:=SFBlock) (T:=string) (H:=bytes) map_to_list f (toy_request 3 4)
      _ _ Hr toy_encodable eq_refl (toy_extractors 3 4) _)) _); [done|]. vm_compute. reflexivity.
  - refine (eq_trans (proj1 (collect_events_correct (M:=SFBlock) (T:=string) (H:=bytes) map_to_list f (toy_request (-1) 4)
      _ _ Hr toy_encodable eq_refl (toy_extractors (-1) 4) _)) _); [done|]. vm_compute. reflexivity.
Defined.
