(* ===== verification/Collect.v ===== *)
(** * Collect: the fake Firehose under every schedule

    [FirehoseFake] collects the events of a request as if the block stream, the request loop
    and the client ran one after the other.  Here they run as the goroutines of
    [Pipeline], on the stream of the fake, for [CollectAll] of
    [go/firehose/firehosetest/firehosetest.go], which calls [Recv] until it fails. *)

From S2P Require Import Prelude GoStrings BigInt EthProto Firehose SimBackend FirehoseFake Pipeline.
From stdpp Require Import gmap strings.
Local Open Scope Z_scope.

Section collect.
Context {B A K Tx M T H : Type}.
Context `{Countable A, Keys A K, !Chain B A Tx, !Reader B, AnyPB M}.
Context `{Countable H, ABI T H, Decoder T H, EthCommon}.
Context (range_map : gmap string any → list (string * any)) (f : Fake B A K) (req : EventsRequest).
Context (exs : gmap H (ethEventExtractor (T:=T) (H:=H))) (sigs : list H).
Hypothesis (Hvalid : req_Valid req = true) (Hexs : make_extractors (Signatures req) ∅ = Ret (exs, sigs)).

Let contracts : gset bytes := list_to_set (EthProto.BytesToAddress <$> Contracts req).

(** The stream that the fake serves for the request. *)
Definition served : list (stream_recv (SFBlock * string * Z)) :=
  fake_stream (M:=M) f (mkRequest (StartBlockNum req) (StopBlockNum req) sigs (Contracts req) (req_Cursor req)).

(** The goroutines for the request, with a client that reads until an error. *)
Definition collect_step := step (respond_block range_map exs contracts) true None.

Lemma collect_events_sequential :
  collect_events (M:=M) (T:=T) (H:=H) range_map f req =
    (client ← or_panic (newETHAdaptor (sequential range_map exs contracts served)); CollectAll client).
Proof using Hvalid Hexs.
  unfold collect_events, events. rewrite Hvalid, Hexs. cbv beta iota zeta delta [negb]. unfold proxy_Blocks, sequential.
  fold served. by destruct (Blocks served []).
Qed.

(** C6. Whatever the schedule of the goroutines between the fake Firehose and [CollectAll],
    collecting ends, and with the result of the sequential description, as long as the
    context is not cancelled: once nothing moves, [Recv] has failed, and what it returned
    before is what [collect_events] gathers; the process panics only if that does. *)
Theorem collect_concurrently c : rtc collect_step (Some (start served)) c →
  Wf.Acc (flip collect_step) c ∧
  match c with
  | None => collect_events (M:=M) (T:=T) (H:=H) range_map f req = Panic
  | Some p => cancelled p = false →
      at_rest (respond_block range_map exs contracts) true None p →
      ∃ e, client_err p = Some e ∧ collected (got p) e = collect_events (M:=M) (T:=T) (H:=H) range_map f req
  end.
Proof using Hvalid Hexs.
  intros Hr. split; [apply (measure_terminates collect_step work), pipeline_step_work|].
  rewrite collect_events_sequential. pose proof (pipeline_reach_ok _ _ _ _ _ Hr) as Hok. destruct c as [p|].
  - intros Hc Hrest. destruct Hok as [_ Ht].
    assert (is_Some (client_err p)) as [e He].
    { pose proof (reader_rest _ _ _ p Ht Hrest eq_refl) as Hd. destruct (fwd p); [|done|done].
      by destruct Hd as (_ & _ & ? & _). }
    exists e. split; [done|]. destruct (client_result _ _ _ _ _ _ _ Hr He) as [Ha|[? _]]; [|congruence].
    rewrite Ha. cbn [or_panic mbind outcome_mbind]. by rewrite CollectAll_adaptor.
  - unfold pipeline_ok in Hok. rewrite responses_sequential in Hok. injection Hok as Hp.
    unfold newETHAdaptor. by rewrite Hp.
Qed.
End collect.

(** ** Example *)

#[local] Existing Instance SimBackend.toy_keys.
#[local] Existing Instance SimBackend.toy_chain.
#[local] Existing Instance Firehose.example_abi.
#[local] Existing Instance Firehose.example_decoder.
#[local] Existing Instance EthProto.common.
#[local] Existing Instance FirehoseFake.toy_reader.
#[local] Existing Instance FirehoseFake.toy_any.

Definition toy_block : SFBlock := mkSFBlock 2 (Some 1002) [2] [mkTrace [2; 1] (Some [example_log])].

Lemma toy_served : served (M:=SFBlock) (H:=bytes) (mine toy_fake) (toy_request 2 0) [example_topic] = [RecvBlock (toy_block, "block[2]"%string, 0)].
Proof. vm_compute. reflexivity. Qed.

Definition toy_respond : SFBlock * string * Z → outcome hose_err BlockResponse :=
  respond_block map_to_list {[example_topic := example_extractor]} (list_to_set (EthProto.BytesToAddress <$> Contracts (toy_request 2 0))).

Lemma toy_responds : toy_respond (toy_block, "block[2]"%string, 0) = Ret (toy_response 2).
Proof. vm_compute. reflexivity. Qed.

(** The one block of the fake goes through the goroutines. *)
Lemma collect_concurrently_witness :
  ∃ e, Some EOF = Some e ∧ collected [toy_response 2] e =
    collect_events (M:=SFBlock) (T:=string) (H:=bytes) map_to_list (mine toy_fake) (toy_request 2 0).
Proof.
  refine (proj2 (collect_concurrently (M:=SFBlock) (T:=string) (H:=bytes) map_to_list (mine toy_fake) (toy_request 2 0)
    {[example_topic := example_extractor]} [example_topic] eq_refl (toy_extractors 2 0)
    (Some (mkPipeline [] false (Closed None) (Returned None) [toy_response 2] (Some EOF))) _) eq_refl _).
  - rewrite toy_served. unfold collect_step. fold toy_respond. unfold start.
    step_by (@recv_block (SFBlock * string * Z) BlockResponse).
    eapply rtc_l; [eexists; split; [reflexivity|right; by eapply (@range_block (SFBlock * string * Z) BlockResponse)]|].
    cbn -[toy_respond toy_response toy_block]. rewrite toy_responds. cbn -[toy_respond toy_response toy_block].
    read_by (@send_block (SFBlock * string * Z) BlockResponse).
    step_by (@recv_EOF (SFBlock * string * Z) BlockResponse).
    step_by (@range_closed (SFBlock * string * Z) BlockResponse).
    read_by (@client_end (SFBlock * string * Z) BlockResponse). done.
  - intros c Hm. inversion Hm as [| | | | | | | | | | |? ? ? [? _]]; simplify_eq/=.
Defined.
