(* ===== verification/Delegations.v ===== *)
(** * Delegations: delegate.cash delegations ([contracts/delegate/delegate.go],
    [go/cmd/delegations])

    The conversion of the registry's answers and the command that collects them: one
    goroutine per vault, each with three queries and an append under a lock, run by a
    scheduler that also decides when a query sees the context cancelled.  The
    registry's bindings and [gocsv] are parameters. *)

From S2P Require Import Prelude GoStrings Bufio BigInt Eth EthProto Nullable.
Local Open Scope Z_scope.

Record Delegation (A : Type) := mkDelegation {
  Vault : A; Delegate : A; Contract : Nullable A; TokenID : Nullable Z
}.
Arguments mkDelegation {A} Vault Delegate Contract TokenID.
Arguments Vault {A}.
Arguments Delegate {A}.
Arguments Contract {A}.
Arguments TokenID {A}.

(** The structures that the registry returns. *)
Record ContractDelegation (A : Type) := mkContract { cd_Contract : A; cd_Delegate : A }.
Record TokenDelegation (A : Type) := mkToken { td_Contract : A; td_TokenId : Z; td_Delegate : A }.
Arguments mkContract {A} cd_Contract cd_Delegate.
Arguments cd_Contract {A}.
Arguments cd_Delegate {A}.
Arguments mkToken {A} td_Contract td_TokenId td_Delegate.
Arguments td_Contract {A}.
Arguments td_TokenId {A}.
Arguments td_Delegate {A}.

Class IDelegationRegistry (A : Type) := {
  GetDelegatesForAll : A → option (list A);
  GetContractLevelDelegations : A → option (list (ContractDelegation A));
  GetTokenLevelDelegations : A → option (list (TokenDelegation A));
}.

Inductive fetch_err := QueryErr (kind : nat) | Canceled | Addresses (e : eth_err) | MarshalErr.

Section delegations.
Context {A : Type} `{EthAddress A, EthCommon, IDelegationRegistry A}.

Definition no_address : Nullable A := mkNullable (HexToAddress EmptyString) false.
Definition no_token : Nullable Z := mkNullable 0 false.

Definition Address_ : A := HexToAddress "0x00000000000076A84feF008CDAbe6409d2FE638B".

(** ** The three [DelegationBuilder]s *)

Definition delegatedForAll_Delegation (a vault : A) : outcome fetch_err (Delegation A) :=
  Ret (mkDelegation vault a no_address no_token).

Definition ContractDelegation_Delegation (d : ContractDelegation A) (vault : A) : outcome fetch_err (Delegation A) :=
  Ret (mkDelegation vault (cd_Delegate d) (mkNullable (cd_Contract d) true) no_token).

(** A token ID of more than 256 bits panics. *)
Definition TokenDelegation_Delegation (d : TokenDelegation A) (vault : A) : outcome fetch_err (Delegation A) :=
  let '(id, overflow) := FromBig (td_TokenId d) in
  if (overflow : bool) then Panic
  else Ret (mkDelegation vault (td_Delegate d) (mkNullable (td_Contract d) true) (mkNullable id true)).

(** [fetch] already returns what the registry answered to the query of kind [kind]. *)
Definition AppendDelegations {T} (kind : nat) (build : T → A → outcome fetch_err (Delegation A))
    (curr : list (Delegation A)) (fetch : A → option (list T)) (vault : A)
    : outcome fetch_err (list (Delegation A)) :=
  match fetch vault with
  | None => Fail (QueryErr kind)
  | Some raw => extra ← omapM (λ r, build r vault) raw; Ret (curr ++ extra)
  end.

(** The [k]-th query of a goroutine. *)
Definition query (k : nat) (curr : list (Delegation A)) (vault : A) : outcome fetch_err (list (Delegation A)) :=
  match k with
  | 0%nat => AppendDelegations 0 delegatedForAll_Delegation curr GetDelegatesForAll vault
  | 1%nat => AppendDelegations 1 ContractDelegation_Delegation curr GetContractLevelDelegations vault
  | _ => AppendDelegations 2 TokenDelegation_Delegation curr GetTokenLevelDelegations vault
  end.

(** ** The goroutines *)

Inductive goroutine := Running (k : nat) (acc : list (Delegation A)) | Appended | Failed.

(** [group_err]: the first error that a goroutine returned, after which the context of
    the group is cancelled. *)
Record state := mkState {
  threads : list (A * goroutine);
  vaultDelegates : list (Delegation A);
  group_err : option fetch_err;
  crashed : bool;
}.

Definition set_thread (i : nat) (v : A) (g : goroutine) (st : state) : state :=
  mkState (<[i := (v, g)]> (threads st)) (vaultDelegates st) (group_err st) (crashed st).

Definition fail_thread (i : nat) (v : A) (e : fetch_err) (st : state) : state :=
  mkState (<[i := (v, Failed)]> (threads st)) (vaultDelegates st)
    (Some (default e (group_err st))) (crashed st).

(** Goroutine [i] goes on; [cancelled] is whether its query notices that the context was
    cancelled. *)
Definition step (st : state) (s : nat * bool) : state :=
  let '(i, cancelled) := s in
  if crashed st then st else
  match threads st !! i with
  | Some (v, Running k acc) =>
      if (k <? 3)%nat then
        if cancelled && bool_decide (is_Some (group_err st)) then fail_thread i v Canceled st
        else match query k acc v with
             | Ret acc => set_thread i v (Running (S k) acc) st
             | Fail e => fail_thread i v e st
             | Panic => mkState (threads st) (vaultDelegates st) (group_err st) true
             end
      else mkState (<[i := (v, Appended)]> (threads st)) (vaultDelegates st ++ acc)
             (group_err st) (crashed st)
  | _ => st
  end.

Definition run (st : state) (schedule : list (nat * bool)) : state := foldl step st schedule.

Definition start (vaults : list A) : state := mkState ((λ v, (v, Running 0 [])) <$> vaults) [] None false.

(** [g.Wait()] returns. *)
Definition finished (st : state) : Prop :=
  Forall (λ t, match t.2 with Running _ _ => False | _ => True end) (threads st).

(** After the wait; [Marshal] writes the CSV. *)
Definition export (st : state) (Marshal : list (Delegation A) → bool) : outcome fetch_err (list (Delegation A)) :=
  if crashed st then Panic
  else match group_err st with
       | Some e => Fail e
       | None => if Marshal (vaultDelegates st) then Ret (vaultDelegates st) else Fail MarshalErr
       end.

Definition fetchDelegationsAndExportCSV (addrSrc : Reader) (schedule : list (nat * bool))
    (Marshal : list (Delegation A) → bool) : outcome fetch_err (list (Delegation A)) :=
  vaults ← map_err Addresses (AddressPerLine addrSrc);
  export (run (start vaults) schedule) Marshal.

(** ** What is expected for a vault *)

Fixpoint queries (n k : nat) (acc : list (Delegation A)) (vault : A) : outcome fetch_err (list (Delegation A)) :=
  match n with
  | O => Ret acc
  | S n => acc ← query k acc vault; queries n (S k) acc vault
  end.

(** The answers of a vault, one query after the other. *)
Definition delegations_of (vault : A) : outcome fetch_err (list (Delegation A)) := queries 3 0 [] vault.

(** ** Invariant *)

Definition appended (t : A * goroutine) : option A :=
  match t.2 with Appended => Some t.1 | _ => None end.

(** What is known of a goroutine's vault. *)
Definition thread_ok (err : option fetch_err) (t : A * goroutine) : Prop :=
  match t.2 with
  | Running k acc => (k ≤ 3)%nat ∧ queries k 0 [] t.1 = Ret acc
  | Appended => True
  | Failed => is_Some err
  end.

Record inv (vaults : list A) (st : state) : Prop := mkInv {
  inv_vaults : (threads st).*1 = vaults;
  inv_threads : Forall (thread_ok (group_err st)) (threads st);
  inv_order : ∃ order ls, order ≡ₚ omap appended (threads st) ∧
    Forall2 (λ v l, delegations_of v = Ret l) order ls ∧ vaultDelegates st = concat ls;
  inv_err : ∀ e, group_err st = Some e → ∃ v, v ∈ vaults ∧ delegations_of v = Fail e;
  inv_crashed : crashed st = true → ∃ v, v ∈ vaults ∧ delegations_of v = Panic;
}.

Lemma queries_add n m k acc v :
  queries (n + m) k acc v = acc ← queries n k acc v; queries m (n + k) acc v.
Proof.
  revert k acc. induction n as [|n IH]; intros k acc; [done|]. cbn [queries Nat.add].
  destruct (query k acc v); cbn [mbind outcome_mbind]; [|done..]. rewrite IH.
  by replace (n + S k)%nat with (S (n + k)) by lia.
Qed.

Lemma query_next k acc v : (k < 3)%nat → queries k 0 [] v = Ret acc →
  queries (S k) 0 [] v = query k acc v ∧
  (∀ e, query k acc v = Fail e → delegations_of v = Fail e) ∧
  (query k acc v = Panic → delegations_of v = Panic).
Proof.
  intros Hk Hq. assert (∀ m, queries (k + m) 0 [] v = queries m k acc v) as Hadd.
  { intros m. rewrite queries_add, Hq. cbn [mbind outcome_mbind]. by rewrite Nat.add_0_r. }
  assert (queries (S k) 0 [] v = query k acc v) as Hone.
  { rewrite <-Nat.add_1_r, Hadd. cbn [queries]. by destruct (query k acc v). }
  split; [done|]. unfold delegations_of. replace 3%nat with (k + S (2 - k))%nat by lia.
  rewrite !Hadd. cbn [queries]. by split; [intros e ->|intros ->].
Qed.

Lemma start_inv vaults : inv vaults (start vaults).
Proof.
  split; [|..|done|done]; simpl.
  - rewrite <-list_fmap_compose. apply list_fmap_id.
  - apply Forall_fmap, Forall_true. intros v. split; [lia|done].
  - exists [], []. split; [|by split; [constructor|]]. induction vaults as [|v vaults IH]; [done|]. apply IH.
Qed.

Lemma thread_ok_err err t e : thread_ok err t → thread_ok (Some (default e err)) t.
Proof. unfold thread_ok. by destruct t.2. Qed.

Lemma set_thread_vaults (l : list (A * goroutine)) i v g g' : l !! i = Some (v, g) → (<[i:=(v, g')]> l).*1 = l.*1.
Proof.
  intros Hi. rewrite list_fmap_insert. simpl. apply list_insert_id. by rewrite list_lookup_fmap, Hi.
Qed.

Lemma step_inv vaults st s : inv vaults st → inv vaults (step st s).
Proof.
  intros [Hv Ht Ho He Hc]. destruct s as [i cancelled]. unfold step.
  destruct (crashed st) eqn:Ec; [by split; rewrite ?Ec|].
  destruct (threads st !! i) as [[v g]|] eqn:Ei; [|by split; rewrite ?Ec].
  assert (v ∈ vaults) as Hin.
  { rewrite <-Hv. apply list_elem_of_fmap. exists (v, g). split; [done|]. by eapply list_elem_of_lookup_2. }
  pose proof (Forall_lookup_1 _ _ _ _ Ht Ei) as Hg. destruct g as [k acc| |]; [|by split; rewrite ?Ec..].
  destruct Hg as [Hk Hq]. simpl in Hq.
  assert (∀ g', appended (v, g') = None → omap appended (<[i:=(v, g')]> (threads st)) = omap appended (threads st)) as Hsame.
  { intros g' Hg'. by apply (omap_insert_None _ _ _ (v, Running k acc)). }
  destruct (Nat.ltb_spec k 3) as [Hk3|Hk3].
  - destruct (query_next k acc v Hk3 Hq) as (Hnext & Hfail & Hpanic).
    assert (∀ e, (∀ e', group_err st = None → e = e' → delegations_of v = Fail e') →
      inv vaults (fail_thread i v e st)) as Herr.
    { intros e Hev. split; simpl.
      - by erewrite set_thread_vaults.
      - apply Forall_insert; [|by eexists]. eapply Forall_impl; [exact Ht|]. intros t. apply thread_ok_err.
      - by rewrite Hsame.
      - intros e' [= <-]. destruct (group_err st) as [e0|] eqn:Eg; simpl; [by apply He|].
        exists v. split; [done|]. by apply Hev.
      - rewrite Ec. done. }
    destruct (cancelled && _) eqn:Ecan.
    { apply andb_true_iff in Ecan as [_ [e Hs]%bool_decide_eq_true]. apply Herr. congruence. }
    destruct (query k acc v) as [acc'|e|] eqn:Eq.
    + split; simpl; [by erewrite set_thread_vaults| |by rewrite Hsame|done|by rewrite Ec].
      apply Forall_insert; [done|]. split; [simpl; lia|exact Hnext].
    + apply Herr. intros e' _ <-. by apply Hfail.
    + split; try done. intros _. exists v. split; [done|]. by apply Hpanic.
  - assert (k = 3%nat) as -> by lia. split; simpl; [by erewrite set_thread_vaults| | |done|done].
    + by apply Forall_insert.
    + destruct Ho as (order & ls & Hp & Hl & Hd). exists (order ++ [v]), (ls ++ [acc]). split_and!.
      * rewrite (omap_insert_Some appended (threads st) i (v, Running 3 acc) (v, Appended) v) by done.
        by rewrite <-Hp, Permutation_app_comm.
      * apply Forall2_app; [done|]. by repeat constructor.
      * rewrite Hd, concat_app. simpl. by rewrite app_nil_r.
Qed.

Lemma run_inv vaults st schedule : inv vaults st → inv vaults (run st schedule).
Proof. revert st. induction schedule as [|s l IH]; intros st Hi; [done|]. by apply IH, step_inv. Qed.
End delegations.

(** ** Termination *)

(** Every goroutine returns after four of its own steps, whatever the others do. *)
Definition remaining {A} (st : state (A:=A)) (i : nat) : nat :=
  match threads st !! i with Some (_, Running k _) => 4 - k | _ => 0 end.

Definition steps_of (i : nat) (schedule : list (nat * bool)) : nat :=
  length (filter (λ s, s.1 = i) schedule).

Section finishing.
Context {A : Type} `{EthAddress A, EthCommon, IDelegationRegistry A}.

Lemma step_remaining (st : state (A:=A)) s i : crashed (step st s) = true ∨
  (remaining (step st s) i ≤ remaining st i - if decide (s.1 = i) then 1 else 0)%nat.
Proof.
  destruct s as [j c]. unfold step. destruct (crashed st) eqn:Ec; [by left|].
  assert (∀ v g g' st', threads st !! j = Some (v, g) → threads st' = <[j:=(v, g')]> (threads st) →
    (match g' with Running k _ => 4 - k | _ => 0 end ≤
     match g with Running k _ => 4 - k | _ => 0 end - 1)%nat →
    (remaining st' i ≤ remaining st i - if decide (j = i) then 1 else 0)%nat) as Hupd.
  { intros v g g' st' Hj Hst Hle. unfold remaining. rewrite Hst. destruct (decide (j = i)) as [->|Hne].
    - rewrite list_lookup_insert_eq by by eapply lookup_lt_Some. rewrite Hj. by destruct g', g.
    - rewrite list_lookup_insert_ne by done. lia. }
  destruct (threads st !! j) as [[v g]|] eqn:Ej.
  2: { right. simpl. destruct (decide (j = i)) as [<-|]; [unfold remaining; rewrite Ej|]; lia. }
  destruct g as [k acc| |].
  2,3: right; simpl; destruct (decide (j = i)) as [<-|]; [unfold remaining; rewrite Ej|]; lia.
  destruct (Nat.ltb_spec k 3).
  - destruct (c && _).
    { right. eapply (Hupd v _ Failed); [done|done|]. simpl. lia. }
    destruct (query k acc v) as [acc'|e|].
    + right. eapply (Hupd v _ (Running (S k) acc')); [done|done|]. simpl. lia.
    + right. eapply (Hupd v _ Failed); [done|done|]. simpl. lia.
    + by left.
  - right. eapply (Hupd v _ Appended); [done|done|]. simpl. lia.
Qed.

Lemma run_remaining schedule i (st : state (A:=A)) : crashed (run st schedule) = true ∨
  (remaining (run st schedule) i ≤ remaining st i - steps_of i schedule)%nat.
Proof.
  revert st. induction schedule as [|s l IH]; intros st; [right; unfold steps_of; simpl; lia|].
  unfold run in *. simpl foldl. destruct (IH (step st s)) as [?|IHs]; [by left|].
  destruct (step_remaining st s i) as [Hc|Hs].
  - left. clear -Hc. revert Hc. generalize (step st s) as st'. induction l as [|s' l IH]; intros st' Hc; [done|].
    simpl. apply IH. unfold step. destruct s'. by rewrite Hc.
  - right. unfold steps_of in *. rewrite filter_cons. destruct (decide (s.1 = i)); simpl; lia.
Qed.

Lemma run_finished vaults schedule :
  (∀ i, (i < length vaults)%nat → 4 ≤ steps_of i schedule)%nat →
  finished (run (start vaults) schedule) ∨ crashed (run (start vaults) schedule) = true.
Proof.
  intros Hn. destruct (crashed (run (start vaults) schedule)) eqn:Ec; [by right|]. left.
  destruct (run_inv _ _ schedule (start_inv vaults)) as [Hv Ht _ _ _].
  unfold finished. apply Forall_lookup. intros i [v g] Hi.
  destruct (run_remaining schedule i (start vaults)) as [?|Hr]; [congruence|].
  assert (i < length vaults)%nat as Hlt by (rewrite <-Hv, length_fmap; by eapply lookup_lt_Some).
  specialize (Hn i Hlt). pose proof (Forall_lookup_1 _ _ _ _ Ht Hi) as Hok. simpl. destruct g as [k acc| |]; [|done..].
  destruct Hok as [Hk _]. unfold remaining in Hr at 1. rewrite Hi in Hr.
  assert (remaining (start vaults) i ≤ 4)%nat as H4 by (unfold remaining; repeat case_match; lia).
  lia.
Qed.
End finishing.

(** C9. However the goroutines are scheduled, once each has taken its four steps the
    command is done, and its outcome is that of the registry: the delegations of every
    vault, those of one vault together and in the order of the queries, vaults in any
    order and as often as they are listed; or an error that the registry gave for some
    vault, never the cancellation that follows it; or the error of the CSV; or the panic of a
    token ID of more than 256 bits that the registry gave. *)
Theorem command_correct {A} `{EthAddress A, EthCommon, IDelegationRegistry A} src (vaults : list A) schedule Marshal :
  AddressPerLine src = Ret vaults →
  (∀ i, (i < length vaults)%nat → (4 ≤ steps_of i schedule)%nat) →
  match fetchDelegationsAndExportCSV src schedule Marshal with
  | Ret out => Marshal out = true ∧ ∃ order ls, order ≡ₚ vaults ∧
      Forall2 (λ v l, delegations_of v = Ret l) order ls ∧ out = concat ls
  | Fail e => (∃ v, v ∈ vaults ∧ delegations_of v = Fail e) ∨
      e = MarshalErr ∧ Forall (λ v, ∃ l, delegations_of v = Ret l) vaults
  | Panic => ∃ v, v ∈ vaults ∧ delegations_of v = Panic
  end.
Proof.
  intros Hsrc Hsteps. unfold fetchDelegationsAndExportCSV. rewrite Hsrc. cbn [map_err mbind outcome_mbind].
  pose proof (run_finished vaults schedule Hsteps) as Hf. set (st := run (start vaults) schedule) in *.
  destruct (run_inv _ _ schedule (start_inv vaults)) as [Hv Ht (order & ls & Hp & Hl & Hd) He Hc].
  fold st in Hv, Ht, Hp, Hd, He, Hc. unfold export.
  destruct (crashed st) eqn:Ec; [by apply Hc|]. destruct Hf as [Hf|]; [|done].
  destruct (group_err st) as [e|]; [left; by apply He|].
  assert (omap appended (threads st) = vaults) as Happ.
  { rewrite <-Hv. unfold finished in Hf. clear -Ht Hf. induction Ht as [|[v g] l Hg _ IH]; [done|].
    apply Forall_cons in Hf as [Hfg Hf]. simpl. destruct g; [done| |by destruct Hg]. simpl. f_equal. by apply IH. }
  rewrite Happ in Hp. destruct (Marshal (vaultDelegates st)) eqn:Em; [split; [done|]; by exists order, ls|].
  right. split; [done|]. rewrite <-Hp. clear -Hl. induction Hl; constructor; eauto.
Qed.

(** ** Examples *)

#[local] Existing Instance EthProto.common.

#[local] Instance toy_address : EthAddress string := {
  IsHexAddress s := HasPrefix "0x" s;
  HexToAddress s := s;
  Hex s := s;
}.

(** One vault with a delegation of each kind, one with none, one that fails. *)
#[local] Instance toy_registry : IDelegationRegistry string := {
  GetDelegatesForAll v := if decide (v = "0xbad") then None else Some (if decide (v = "0x1") then ["0xa"] else []);
  GetContractLevelDelegations v := Some (if decide (v = "0x1") then [mkContract "0xc" "0xb"] else []);
  GetTokenLevelDelegations v := Some (if decide (v = "0x1") then [mkToken "0xd" 42 "0xe"] else []);
}.

Definition toy_delegations : list (Delegation string) :=
  [mkDelegation "0x1" "0xa" no_address no_token; mkDelegation "0x1" "0xb" (mkNullable "0xc" true) no_token;
   mkDelegation "0x1" "0xe" (mkNullable "0xd" true) (mkNullable 42 true)].

(** The scheduler interleaves the two vaults; then the bad vault fails first and the good
    one is cancelled. *)
Definition interleaved : list (nat * bool) :=
  [(0, false); (1, false); (1, true); (0, false); (1, false); (1, false); (0, false); (0, false)]%nat.

Lemma command_correct_witness :
  fetchDelegationsAndExportCSV (mkReader (print_lines false ["0x1"; ""; "0x2"]) false) interleaved (λ _, true) = Ret toy_delegations ∧
  (fetchDelegationsAndExportCSV (mkReader (print_lines true ["0xbad"; "0x1"]) false)
    ([(1, false); (0, false); (1, true)] ++ interleaved)%nat (λ _, true) = Fail (QueryErr 0)) ∧
  ∃ order ls, order ≡ₚ ["0x1"; "0x2"] ∧ Forall2 (λ v l, delegations_of v = Ret l) order ls ∧ toy_delegations = concat ls.
Proof.
  assert (fetchDelegationsAndExportCSV (mkReader (print_lines false ["0x1"; ""; "0x2"]) false) interleaved (λ _, true) = Ret toy_delegations)
    as E by by vm_compute.
  split; [exact E|]. split; [by vm_compute|].
  pose proof (command_correct (mkReader (print_lines false ["0x1"; ""; "0x2"]) false) ["0x1"; "0x2"] interleaved (λ _, true)) as W.
  rewrite E in W. apply W; [by vm_compute|]. intros [|[|i]] Hi; [by vm_compute; lia..|simpl in Hi; lia].
Defined.
