(* ===== verification/Holders.v ===== *)
(** * Holders: balances of ERC721 collections ([go/cmd/holders])

    The command counts, for each collection of its input, how many tokens every holder
    owns.  The owners of a collection are fetched by concurrent goroutines, of which
    only the order in which they take the lock matters.  The contracts are parameters. *)

From S2P Require Import Prelude GoStrings Bufio Csv Eth.
From stdpp Require Import gmap strings pretty.
Local Open Scope Z_scope.

(** [NewIERC721Enumerable], [TotalSupply] and [OwnerOf] of the contract at an address. *)
Class IERC721Enumerable (A : Type) := {
  bound : A → bool;
  TotalSupply : A → option Z;
  OwnerOf : A → Z → option A;
}.

Inductive holders_err := BindErr | SupplyErr | OwnerErr | ReadErr (e : eth_err) | WriteErr.

Section holders.
Context {A : Type} `{Countable A, EthAddress A, IERC721Enumerable A}.

Abbreviation ledger := (gmap A (gmap A Z)).

(** [balances[owner][tokenAddress]++]. *)
Definition increment (token owner : A) (balances : ledger) : ledger :=
  let bs := default ∅ (balances !! owner) in
  <[owner := <[token := u64 (default 0 (bs !! token) + 1)]> bs]> balances.

(** The goroutines of a collection in the order in which their queries end: the
    balances, and whether a query failed. *)
Fixpoint count_owners (token : A) (ids : list Z) (balances : ledger) (err : bool) : ledger * bool :=
  match ids with
  | [] => (balances, err)
  | id :: ids =>
      match OwnerOf token id with
      | None => count_owners token ids balances true
      | Some owner => count_owners token ids (increment token owner balances) err
      end
  end.

(** The token IDs of a collection: [supply.Int64()] keeps 64 bits. *)
Definition token_ids (supply : Z) : list Z := seqZ 0 (i64 supply).

(** The loop over the collections; [order] is the order of each one's goroutines. *)
Fixpoint count_tokens (order : nat → list Z → list Z) (addrs : list A) (balances : ledger)
    : outcome holders_err ledger :=
  match addrs with
  | [] => Ret balances
  | token :: addrs =>
      if negb (bound token) then Fail BindErr
      else match TotalSupply token with
           | None => Fail SupplyErr
           | Some supply =>
               match count_owners token (order (length addrs) (token_ids supply)) balances false with
               | (_, true) => Fail OwnerErr
               | (balances, false) => count_tokens order addrs balances
               end
           end
  end.

(** The rows; [range] is the order in which Go ranges over the holders. *)
Definition table (range : ledger → list (A * gmap A Z)) (tokenAddrs : list A) (balances : ledger)
    : list (list string) :=
  ("address"%string :: (Hex <$> tokenAddrs)) ::
  ((λ hb : A * gmap A Z, Hex hb.1 :: ((λ a, pretty (default 0 (hb.2 !! a))) <$> tokenAddrs)) <$> range balances).

(** The text of the table; [out]: whether the writer takes it. *)
Definition writeCSV (range : ledger → list (A * gmap A Z)) (out : string → bool) (tokenAddrs : list A)
    (balances : ledger) : outcome holders_err string :=
  let text := WriteAll (table range tokenAddrs balances) in if out text then Ret text else Fail WriteErr.

Definition run_holders (order : nat → list Z → list Z) (range : ledger → list (A * gmap A Z)) (src : Reader)
    (out : string → bool) : outcome holders_err string :=
  addrs ← map_err ReadErr (AddressPerLine src);
  balances ← count_tokens order addrs ∅;
  writeCSV range out addrs balances.

(** ** Specification *)

Definition balance (balances : ledger) (owner token : A) : Z := default 0 (default ∅ (balances !! owner) !! token).

(** The tokens of a list that somebody owns. *)
Definition owned (token owner : A) (ids : list Z) : list Z := filter (λ id, OwnerOf token id = Some owner) ids.

Lemma owned_cons token o id ids : owned token o (id :: ids) =
  if decide (OwnerOf token id = Some o) then id :: owned token o ids else owned token o ids.
Proof. unfold owned. by rewrite filter_cons. Qed.

(** How often a collection is listed. *)
Definition times (token : A) (addrs : list A) : nat := length (filter (λ a, a = token) addrs).

Lemma balance_increment token owner balances owner' token' :
  balance (increment token owner balances) owner' token' =
  if decide (owner' = owner ∧ token' = token) then u64 (balance balances owner token + 1)
  else balance balances owner' token'.
Proof.
  unfold balance, increment. destruct (decide (owner' = owner)) as [->|Ho].
  - rewrite lookup_insert_eq. simpl. destruct (decide (token' = token)) as [->|Ht].
    + rewrite lookup_insert_eq, decide_True by done. done.
    + rewrite lookup_insert_ne by done. by destruct (decide (owner = owner ∧ token' = token)) as [[]|].
  - rewrite lookup_insert_ne by done. by destruct (decide (owner' = owner ∧ token' = token)) as [[]|].
Qed.

(** A holder appears once it has been counted. *)
Lemma increment_holders token owner balances h :
  is_Some (increment token owner balances !! h) ↔ h = owner ∨ is_Some (balances !! h).
Proof. unfold increment. rewrite lookup_insert_is_Some'. naive_solver. Qed.

Definition counted (token : A) (ids : list Z) : Prop := Forall (λ id, is_Some (OwnerOf token id)) ids.

Lemma count_owners_spec token ids balances err :
  (∀ o, 0 ≤ balance balances o token ∧ balance balances o token + Z.of_nat (length ids) < 2 ^ 64) →
  let '(b, e) := count_owners token ids balances err in
  (e = false ↔ err = false ∧ counted token ids) ∧
  (∀ o t, balance b o t = balance balances o t + if decide (t = token) then Z.of_nat (length (owned token o ids)) else 0) ∧
  (∀ o, is_Some (b !! o) ↔ is_Some (balances !! o) ∨ owned token o ids ≠ []).
Proof.
  revert balances err. induction ids as [|id ids IH]; intros balances err Hb; cbn [count_owners].
  { split; [by split; [split; [done|constructor]|intros []]|]. split.
    - intros o t. simpl. destruct (decide (t = token)); lia.
    - intros o. naive_solver. }
  destruct (OwnerOf token id) as [owner|] eqn:Eo.
  - specialize (IH (increment token owner balances) err).
    assert (∀ o t, balance (increment token owner balances) o t
      = balance balances o t + if decide (o = owner ∧ t = token) then 1 else 0) as Hinc.
    { intros o t. rewrite balance_increment. destruct (decide (o = owner ∧ t = token)) as [[-> ->]|]; [|lia].
      apply u64_small. specialize (Hb owner). simpl length in Hb. lia. }
    destruct (count_owners _ _ _ _) as [b e]. destruct IH as (IHe & IHb & IHs).
    { intros o. rewrite Hinc. specialize (Hb o). simpl length in Hb. destruct (decide _); lia. }
    split; [rewrite IHe; unfold counted; rewrite Forall_cons, Eo; naive_solver|]. split.
    + intros o t. rewrite IHb, Hinc, owned_cons, Eo.
      destruct (decide (t = token)) as [->|]; [|destruct (decide (o = owner ∧ t = token)); [naive_solver|lia]].
      destruct (decide (o = owner ∧ token = token)) as [[-> _]|Ho].
      * rewrite decide_True by done. simpl length. lia.
      * rewrite (decide_False (P:=Some owner = Some o)) by naive_solver. lia.
    + intros o. rewrite IHs, increment_holders, owned_cons, Eo.
      destruct (decide (Some owner = Some o)) as [[= ->]|]; naive_solver.
  - specialize (IH balances true). destruct (count_owners _ _ _ _) as [b e].
    destruct IH as (IHe & IHb & IHs). { intros o. specialize (Hb o). simpl length in Hb. lia. }
    split; [|by split; [intros o t; rewrite IHb, owned_cons, Eo; by rewrite (decide_False (P:=None = Some o)) by done|
      intros o; rewrite IHs, owned_cons, Eo; by rewrite (decide_False (P:=None = Some o)) by done]].
    rewrite IHe. unfold counted. rewrite Forall_cons, Eo. split; [by intros []|]. by intros (_ & [? [=]] & _).
Qed.

(** The tokens of a collection. *)
Definition ids_of (token : A) : list Z := token_ids (default 0 (TotalSupply token)).

Definition minted (addrs : list A) : nat := sum_list_with (λ a, length (ids_of a)) addrs.

(** The collection can be read as a whole. *)
Definition readable (token : A) : Prop :=
  bound token = true ∧ is_Some (TotalSupply token) ∧ counted token (ids_of token).

#[local] Instance owned_proper token o : Proper ((≡ₚ) ==> (≡ₚ)) (owned token o).
Proof. intros ids ids' E. unfold owned. by rewrite E. Qed.

#[local] Instance counted_proper token : Proper ((≡ₚ) ==> (↔)) (counted token).
Proof. intros ids ids' E. unfold counted. by rewrite E. Qed.

Lemma times_cons t a addrs : times t (a :: addrs) = ((if decide (t = a) then 1 else 0) + times t addrs)%nat.
Proof.
  unfold times. rewrite filter_cons. destruct (decide (a = t)) as [->|Hne].
  - by rewrite decide_True.
  - by rewrite (decide_False (P:=t = a)) by done.
Qed.

Lemma count_tokens_spec order addrs balances : (∀ n l, order n l ≡ₚ l) →
  (∀ o t, 0 ≤ balance balances o t ∧ balance balances o t + Z.of_nat (minted addrs) < 2 ^ 64) →
  match count_tokens order addrs balances with
  | Ret b => Forall readable addrs ∧
      (∀ o t, balance b o t = balance balances o t + Z.of_nat (times t addrs * length (owned t o (ids_of t)))) ∧
      (∀ o, is_Some (b !! o) ↔ is_Some (balances !! o) ∨ ∃ t, t ∈ addrs ∧ owned t o (ids_of t) ≠ [])
  | Fail e => ∃ t, t ∈ addrs ∧ ¬ readable t
  | Panic => False
  end.
Proof.
  intros Hord. revert balances. induction addrs as [|t addrs IH]; intros balances Hb; cbn [count_tokens].
  { split; [constructor|]. split; [intros; simpl; lia|]. intros o. split; [by left|].
    by intros [?|(? & ?%not_elem_of_nil & _)]. }
  destruct (bound t) eqn:Eb; cbn [negb]; [|exists t; split; [left|intros [? _]; congruence]].
  destruct (TotalSupply t) as [supply|] eqn:Es; [|exists t; split; [left|intros (_ & [? ?] & _); congruence]].
  assert (ids_of t = token_ids supply) as Eids by (unfold ids_of; by rewrite Es).
  set (ids := order (length addrs) (token_ids supply)).
  assert (ids ≡ₚ ids_of t) as Hids by (rewrite Eids; apply Hord).
  assert (minted (t :: addrs) = length ids + minted addrs)%nat as Hm by (unfold minted; simpl; by rewrite Hids).
  pose proof (count_owners_spec t ids balances false) as Hc.
  destruct (count_owners t ids balances false) as [b e]. destruct Hc as (He & Hbal & Hs).
  { intros o. specialize (Hb o t). lia. }
  destruct e.
  { exists t. split; [left|]. intros (_ & _ & Hcount). rewrite <-Hids in Hcount. naive_solver. }
  destruct (proj1 He eq_refl) as [_ Hcount]. rewrite Hids in Hcount.
  assert (∀ o, length (owned t o ids) ≤ length ids)%nat as Hle by (intros o; apply length_filter).
  assert (∀ o, length (owned t o ids) = length (owned t o (ids_of t))) as Hlen
    by (intros o; by rewrite Hids).
  specialize (IH b). destruct (count_tokens order addrs b) as [b'|e|]; cycle 1.
  - destruct IH as (t' & ? & ?); [|exists t'; split; [by right|done]].
    intros o t'. rewrite Hbal. specialize (Hb o t'). specialize (Hle o). destruct (decide (t' = t)); lia.
  - apply IH. intros o t'. rewrite Hbal. specialize (Hb o t'). specialize (Hle o). destruct (decide (t' = t)); lia.
  - destruct IH as (Hr & Hbal' & Hs').
    { intros o t'. rewrite Hbal. specialize (Hb o t'). specialize (Hle o). destruct (decide (t' = t)); lia. }
    split; [constructor; [by split_and!; rewrite ?Es|done]|]. split.
    + intros o t'. rewrite Hbal', Hbal, times_cons. destruct (decide (t' = t)) as [->|]; [rewrite Hlen|]; lia.
    + intros o. rewrite Hs', Hs.
      assert (owned t o ids ≠ [] ↔ owned t o (ids_of t) ≠ []) as ->.
      { assert (owned t o ids ≡ₚ owned t o (ids_of t)) as Hp by by rewrite Hids.
        split; intros Hn E; apply Hn; rewrite E in Hp; [|symmetry in Hp]; by apply Permutation_nil_r in Hp. }
      setoid_rewrite elem_of_cons. naive_solver.
Qed.
End holders.

(** Addresses and numbers need no care in CSV. *)
Lemma table_plain {A} `{Countable A, EthAddressLaws A} range (addrs : list A) (b : gmap A (gmap A Z)) :
  (∀ h t, 0 ≤ default 0 (default ∅ (b !! h) !! t)) → (∀ b, range b ≡ₚ map_to_list b) →
  Forall plain (table range addrs b).
Proof.
  intros Hb Hrange. assert (∀ a : A, mentions CR (Hex a) = false ∧ Hex a ≠ EmptyString) as Hhex.
  { intros a. destruct (IsHexAddress_chars _ (Hex_is_address a)) as (Hne & _ & Hc). split; [|done].
    destruct (mentions CR (Hex a)) eqn:E; [|done]. by apply Hc in E. }
  unfold table. constructor.
  - apply plain_fields; [done|]. constructor; [done|]. apply Forall_fmap, Forall_true. intros a. apply Hhex.
  - apply Forall_fmap, Forall_forall. intros [h m] Hm. rewrite Hrange in Hm. apply elem_of_map_to_list in Hm.
    apply plain_fields; [apply Hhex|]. constructor; [apply Hhex|]. apply Forall_fmap, Forall_true. intros t.
    apply mentions_pretty_Z; [|intros d _; unfold pretty_N_char; repeat case_match; done|done].
    specialize (Hb h t). by rewrite Hm in Hb.
Qed.

Lemma table_width {A} `{Countable A, EthAddress A} range (addrs : list A) (b : gmap A (gmap A Z)) :
  Forall (λ r, length r = S (length addrs)) (table range addrs b).
Proof.
  unfold table. constructor; [simpl; by rewrite length_fmap|]. apply Forall_fmap, Forall_true.
  intros h. simpl. by rewrite length_fmap.
Qed.

(** Whatever the order of the queries, the table has the collections of the input as
    columns and as rows, once each, exactly the holders of some token, in each cell the
    number of the collection's tokens that the holder owns, times how often the
    collection is listed: listing it twice doubles its balances.  A reader of CSV gets
    this table from the text that is written.  The command fails when a collection
    cannot be read as a whole, and otherwise only in writing. *)
Theorem run_holders_correct {A} `{Countable A, EthAddressLaws A, IERC721Enumerable A} order range src out (addrs : list A) :
  (∀ n l, order n l ≡ₚ l) → (∀ b, range b ≡ₚ map_to_list b) →
  AddressPerLine src = Ret addrs → Z.of_nat (minted addrs) < 2 ^ 64 →
  match run_holders order range src out with
  | Ret text => out text = true ∧ Forall readable addrs ∧ ∃ hs, NoDup hs ∧
      (∀ h, h ∈ hs ↔ ∃ t, t ∈ addrs ∧ owned t h (ids_of t) ≠ []) ∧
      ReadAll text = Some (("address"%string :: (Hex <$> addrs)) :: ((λ h, Hex h ::
        ((λ t, pretty (Z.of_nat (times t addrs * length (owned t h (ids_of t))))) <$> addrs)) <$> hs))
  | Fail e => (∃ t, t ∈ addrs ∧ ¬ readable t) ∨ e = WriteErr ∧ Forall readable addrs
  | Panic => False
  end.
Proof.
  intros Hord Hrange Hsrc Hm. unfold run_holders. rewrite Hsrc. cbn [map_err mbind outcome_mbind].
  assert (∀ o t : A, balance ∅ o t = 0) as H00.
  { intros o t. unfold balance. rewrite lookup_empty. simpl. by rewrite lookup_empty. }
  pose proof (count_tokens_spec order addrs ∅ Hord) as Hc.
  destruct (count_tokens order addrs ∅) as [b|e|]; cbn [mbind outcome_mbind];
    [|left; apply Hc|apply Hc]; try (intros o t; rewrite H00; lia).
  destruct Hc as (Hr & Hbal & Hs); [intros o t; rewrite H00; lia|].
  unfold writeCSV. destruct (out _) eqn:Eout; [|by right]. do 2 (split; [done|]). exists (range b).*1.
  split; [rewrite Hrange; apply NoDup_fst_map_to_list|]. split.
  - intros h. rewrite Hrange. rewrite list_elem_of_fmap.
    transitivity (is_Some (b !! h)); [|rewrite Hs, lookup_empty; naive_solver].
    split; [intros ([h' m] & -> & Hm'%elem_of_map_to_list); by eexists|].
    intros [m Hm']. exists (h, m). split; [done|]. by apply elem_of_map_to_list.
  - rewrite (ReadAll_WriteAll _ _ (table_width range addrs b)), read_back_plain.
    2: { apply table_plain; [|done]. intros h t. change (0 ≤ balance b h t). rewrite Hbal, H00. lia. }
    unfold table. do 2 f_equal. rewrite <-list_fmap_compose. apply list_fmap_ext. intros i [h m] Hi. simpl. f_equal.
    assert (b !! h = Some m) as Hh.
    { apply elem_of_map_to_list. rewrite <-Hrange. by eapply list_elem_of_lookup_2. }
    apply list_fmap_ext. intros _ t _. f_equal. specialize (Hbal h t).
    rewrite H00 in Hbal. unfold balance in Hbal. by rewrite Hh in Hbal.
Qed.

(** ** Examples *)

#[local] Existing Instance two_addresses.
#[local] Existing Instance two_addresses_laws.

(** Collection 0xA has tokens of 0xA, 0xB and 0xA; collection 0xB one that cannot be read. *)
#[local] Instance toy_contracts : IERC721Enumerable bool := {
  bound _ := true;
  TotalSupply t := Some (if t then 3 else 1);
  OwnerOf t id := if t then Some (negb (Z.eqb id 1)) else None;
}.

Definition toy_source (crlf : bool) (addrs : list string) : Reader := mkReader (print_lines crlf addrs) false.
Definition toy_text : string := WriteAll [["address"; "0xA"; "0xA"]; ["0xB"; "2"; "2"]; ["0xA"; "4"; "4"]]%string.

(** Listed twice, the collection's balances are doubled. *)
Lemma run_holders_correct_witness :
  run_holders (λ _, reverse) map_to_list (toy_source false ["0xA"; "0xA"]%string) (λ _, true) = Ret toy_text ∧
  run_holders (λ _, reverse) map_to_list (toy_source true ["0xA"; "0xB"]%string) (λ _, true) = Fail OwnerErr ∧
  Forall readable [true; true].
Proof.
  assert (run_holders (λ _, reverse) map_to_list (toy_source false ["0xA"; "0xA"]%string) (λ _, true) = Ret toy_text)
    as E by by vm_compute.
  split; [exact E|]. split; [by vm_compute|].
  pose proof (run_holders_correct (λ _, reverse) map_to_list (toy_source false ["0xA"; "0xA"]%string) (λ _, true) [true; true]) as W.
  rewrite E in W. apply W; [|done|by vm_compute|by vm_compute]. intros _ l. apply reverse_Permutation.
Defined.
