(* ===== verification/Polling.v ===== *)
(** * Polling: asking until an answer is final, with growing waits

    The loop that the two clients of flipside.xyz share ([go/flipside/getQueryRun.go] and
    [flipside.go]), over any server, and the durations and binary floats that its waits
    are made of. *)

From S2P Require Import Prelude.
From Stdlib Require Import SpecFloat.
Local Open Scope Z_scope.

(** ** Durations *)

(** float64. *)
Definition float64 (n : Z) : spec_float := binary_normalize 53 1024 n 0 false.
Definition f64_mul (x y : spec_float) : spec_float := SFmul 53 1024 x y.
Definition f64_add (x y : spec_float) : spec_float := SFadd 53 1024 x y.
Definition f64_div (x y : spec_float) : spec_float := SFdiv 53 1024 x y.

(** Conversion to an integer truncates; out of range it is up to the machine. *)
Definition trunc (x : spec_float) : option Z :=
  let n := match x with
           | S754_zero _ => Some 0
           | S754_finite s m e =>
               let a := if 0 <=? e then Z.pos m * 2 ^ e else Z.pos m / 2 ^ (- e) in
               Some (if s then - a else a)
           | _ => None
           end in
  n ← n; if (- 2 ^ 63 <=? n) && (n <? 2 ^ 63) then Some n else None.

(** Nanoseconds. *)
Definition Second : Z := 10 ^ 9.
Definition Minute : Z := 60 * Second.
Definition Hour : Z := 60 * Minute.

(** [time.Duration.Hours] and [Minutes], as the standard library computes them. *)
Definition duration_in (unit d : Z) : spec_float :=
  f64_add (float64 (Z.quot d unit)) (f64_div (float64 (Z.rem d unit)) (float64 unit)).

(** The machine's conversion of a float that is no int64, which the language leaves open. *)
Class Machine := out_of_range : spec_float → Z.

(** [time.Duration(factor*float64(b.Nanoseconds()))]. *)
Definition next_backoff `{Machine} (factor : spec_float) (b : Z) : Z :=
  let x := f64_mul factor (float64 b) in default (out_of_range x) (trunc x).

(** The waits between polls. *)
Fixpoint backoffs `{Machine} (n : nat) (factor : spec_float) (b : Z) : list Z :=
  match n with
  | O => []
  | S n => b :: backoffs n factor (next_backoff factor b)
  end.

(** ** The loop *)

(** Where a client is once its fuel is used up: done, or still at it, with the server then. *)
Inductive progress (St E A : Type) := Done (s : St) (r : outcome E A) | Pending (s : St).
Arguments Done {St E A} s r.
Arguments Pending {St E A} s.

Section polling.
Context `{Machine} {St A E : Type} (ask : St → St * outcome E A) (ended : A → bool) (context_err : E).
Context (cancelled : nat → bool) (factor : spec_float).

(** [cancelled n]: the context ends during the wait after poll [n].  One fuel is one poll;
    the waits are recorded. *)
Fixpoint poll (fuel n : nat) (s : St) (backoff : Z) : progress St E A * list Z :=
  match fuel with
  | O => (Pending s, [])
  | S fuel =>
      let '(s, answer) := ask s in
      match answer with
      | Fail e => (Done s (Fail e), [])
      | Panic => (Done s Panic, [])
      | Ret a =>
          if ended a then (Done s (Ret a), [])
          else if cancelled n then (Done s (Fail context_err), [])
          else
            let '(r, waits) := poll fuel (S n) s (next_backoff factor backoff) in
            (r, backoff :: waits)
      end
  end.

(** The server before poll [k], counting from the first. *)
Fixpoint server_at (k : nat) (s : St) : St :=
  match k with O => s | S k => server_at k (ask s).1 end.

(** The outcome when the loop ends with poll [k]. *)
Definition stops (k : nat) (s : St) : option (outcome E A) :=
  match (ask s).2 with
  | Ret a => if ended a then Some (Ret a) else if cancelled k then Some (Fail context_err) else None
  | r => Some r
  end.

(** A poll that does not stop is followed by a wait and the next poll. *)
Lemma poll_goes_on fuel n s b : stops n s = None →
  poll (S fuel) n s b
  = let '(r, waits) := poll fuel (S n) (ask s).1 (next_backoff factor b) in (r, b :: waits).
Proof.
  unfold stops. cbn [poll]. destruct (ask s) as [s' [a|e|]]; simpl; [|done..].
  destruct (ended a); [done|]. by destruct (cancelled n).
Qed.

(** The first [k] polls do not stop. *)
Definition unfinished (k n : nat) (s : St) : Prop := ∀ j, (j < k)%nat → stops (n + j) (server_at j s) = None.

Lemma unfinished_S k n s : unfinished (S k) n s → stops n s = None ∧ unfinished k (S n) (ask s).1.
Proof.
  intros Hj. split; [pose proof (Hj 0%nat ltac:(lia)) as Hs; by rewrite Nat.add_0_r in Hs|].
  intros j Hlt. specialize (Hj (S j) ltac:(lia)). by rewrite Nat.add_succ_r in Hj.
Qed.

(** It ends with the first poll that is final. *)
Lemma poll_stops n s b k r fuel : (k < fuel)%nat →
  unfinished k n s → stops (n + k) (server_at k s) = Some r →
  poll fuel n s b = (Done (server_at (S k) s) r, backoffs k factor b).
Proof.
  revert n s b fuel. induction k as [|k IH]; intros n s b [|fuel] Hf Hj Hk; try lia.
  - rewrite Nat.add_0_r in Hk. unfold stops in Hk. simpl in Hk |- *.
    destruct (ask s) as [s' [a|e|]]; simpl in *; [|by simplify_eq..].
    destruct (ended a); [by simplify_eq|]. destruct (cancelled n); by simplify_eq.
  - apply unfinished_S in Hj as [Hs Hj]. rewrite poll_goes_on by done. rewrite Nat.add_succ_r in Hk.
    by rewrite (IH (S n) (ask s).1 _ fuel) by (done || lia).
Qed.

(** As long as no poll is final it goes on: it has polled once for each fuel. *)
Lemma poll_pending n s b fuel : unfinished fuel n s →
  poll fuel n s b = (Pending (server_at fuel s), backoffs fuel factor b).
Proof.
  revert n s b. induction fuel as [|fuel IH]; intros n s b Hj; [done|].
  apply unfinished_S in Hj as [Hs Hj]. rewrite poll_goes_on by done. by rewrite IH.
Qed.
End polling.
