(* ===== verification/Flipside.v ===== *)
(** * Flipside: queries of flipside.xyz ([go/flipside])

    Requests and responses of the JSON-RPC API ([common.go], [createQueryRun.go]),
    waiting for a query ([getQueryRun.go]) and its pages ([getQueryRunResults.go]).
    The server is a state machine that answers requests; [encoding/json] is applied on
    its side of the interface: a body either does not decode, or decodes to a result
    or an API error.  The loop that waits is that of [Polling]. *)

From S2P Require Import Prelude GoStrings Secrets Polling.
From stdpp Require Import strings.
From Stdlib Require Import SpecFloat.
Local Open Scope Z_scope.

(** ** Durations in JSON *)

(** What [MarshalJSON] hands to [json.Marshal]. *)
Definition Hours_MarshalJSON (h : Z) : spec_float := duration_in Hour h.
Definition Minutes_MarshalJSON (m : Z) : spec_float := duration_in Minute m.

(** [json.Unmarshal] into the int64 that both types are: integers only. *)
Definition int64_UnmarshalJSON (x : spec_float) : option Z :=
  n ← trunc x; if SFeqb (float64 n) x then Some n else None.

(** 1.2, rounded to a float64. *)
Definition backoffFactor : spec_float := f64_div (float64 12) (float64 10).

(** ** Requests *)

Record createQueryRunRequestParams := mkCreateParams {
  SQL : string; ResultsTTL : Z; MaxAge : Z; Tags : list (string * string);
  DataSource : string; DataProvider : string
}.

Inductive method_params :=
| createQueryRun (p : createQueryRunRequestParams)
| getQueryRun (id : string)
| getQueryRunResults (id format : string) (number size : Z).

(** The headers and the body of a request. *)
Record http_request := mkHttp {
  x_api_key : string; Content_Type : string; url : string; JSONRPC : string; req_ID : Z; Params : method_params
}.

Record Config := mkConfig { APIKey : string; APIURL : string }.

Definition apiURL : string := "https://api-v2.flipsidecrypto.xyz/json-rpc".

(** Of a query run only the state is looked at. *)
Record QueryRun := mkRun { run_ID : string; State : string }.

(** A page of the results with rows of any type. *)
Record ResultsPage := mkPage { CurrentPageNumber : Z; CurrentPageSize : Z; TotalRows : Z; TotalPages : Z }.
Record QueryRunResults (R : Type) := mkResults { Rows : list R; Page : ResultsPage }.
Arguments mkResults {R} Rows Page.
Arguments Rows {R}.
Arguments Page {R}.

(** A decoded body: [response[U]] by the method that was called. *)
Inductive result (R : Type) :=
| CreatedRun (run : QueryRun)
| GotRun (run : QueryRun)
| GotResults (r : QueryRunResults R).
Arguments CreatedRun {R} run.
Arguments GotRun {R} run.
Arguments GotResults {R} r.

Inductive body (R : Type) := NotJSON | APIError (e : string) | Result (r : result R).
Arguments NotJSON {R}.
Arguments APIError {R} e.
Arguments Result {R} r.

(** What [http.DefaultClient.Do] yields: no response, or a status and a body; the body
    of an error may be unreadable. *)
Inductive http_response (R : Type) := NoResponse | Response (StatusCode : Z) (text : option string) (b : body R).
Arguments NoResponse {R}.
Arguments Response {R} StatusCode text b.

Inductive flip_err := DoErr | HTTPErr (status : Z) (text : option string) | DecodeErr | FlipsideErr (e : string)
| Unsuccessful (run : QueryRun) | ContextErr | FetchErr (e : secret_err).

Section api.
Context `{Machine} {S R : Type} (serve : S → http_request → S * http_response R).

Definition NewFromSecret (apiKey : outcome secret_err string) : outcome flip_err Config :=
  key ← map_err FetchErr apiKey; Ret (mkConfig key apiURL).

(** [submitParams] and [submitRequest]. *)
Definition submitParams (cfg : Config) (s : S) (p : method_params) : S * outcome flip_err (body R) :=
  let '(s, resp) := serve s (mkHttp (APIKey cfg) "application/json" (APIURL cfg) "2.0" 1 p) in
  (s, match resp with
      | NoResponse => Fail DoErr
      | Response status text b => if status =? 200 then Ret b else Fail (HTTPErr status text)
      end).

Definition parseResults (b : body R) : outcome flip_err (result R) :=
  match b with
  | NotJSON => Fail DecodeErr
  | APIError e => Fail (FlipsideErr e)
  | Result r => Ret r
  end.

Definition submitParamsAndParseResults (cfg : Config) (s : S) (p : method_params) : S * outcome flip_err (result R) :=
  let '(s, raw) := submitParams cfg s p in (s, b ← raw; parseResults b).

(** The result of another method does not have the fields: its decoding leaves zeros. *)
Definition no_run : QueryRun := mkRun "" "".
Definition no_results : QueryRunResults R := mkResults [] (mkPage 0 0 0 0).

Definition CreateQueryRun (cfg : Config) (s : S) (sql : string) : S * outcome flip_err QueryRun :=
  let '(s, r) := submitParamsAndParseResults cfg s (createQueryRun
    (mkCreateParams sql (10 * Hour) (10 * Minute) [("env", "proof")]%string "snowflake-default" "flipside")) in
  (s, r ← r; Ret match r with CreatedRun run => run | _ => no_run end).

Definition GetQueryRun (cfg : Config) (s : S) (id : string) : S * outcome flip_err QueryRun :=
  let '(s, r) := submitParamsAndParseResults cfg s (getQueryRun id) in
  (s, r ← r; Ret match r with GotRun run => run | _ => no_run end).

Definition GetQueryRunResults (cfg : Config) (s : S) (id : string) (pageNumber : Z)
    : S * outcome flip_err (QueryRunResults R) :=
  let '(s, r) := submitParamsAndParseResults cfg s (getQueryRunResults id "json" pageNumber 100000) in
  (s, r ← r; Ret match r with GotResults res => res | _ => no_results end).

(** ** Waiting *)

Definition ended (run : QueryRun) : bool :=
  bool_decide (State run = "QUERY_STATE_SUCCESS")%string || bool_decide (State run = "QUERY_STATE_FAILED")%string
  || bool_decide (State run = "QUERY_STATE_CANCELED")%string.

Definition AwaitQueryRunExecution (fuel : nat) (cancelled : nat → bool) (factor : spec_float)
    (cfg : Config) (s : S) (id : string) (initialBackoff : Z) : progress S flip_err QueryRun * list Z :=
  poll (λ s, GetQueryRun cfg s id) ended ContextErr cancelled factor fuel 0 s initialBackoff.

Definition success (r : outcome flip_err QueryRun) : outcome flip_err () :=
  run ← r;
  if decide (State run = "QUERY_STATE_SUCCESS"%string) then Ret () else Fail (Unsuccessful run).

Definition AwaitQueryRunSuccess (fuel : nat) (cancelled : nat → bool) (factor : spec_float)
    (cfg : Config) (s : S) (id : string) (backoff : Z) : progress S flip_err () :=
  match (AwaitQueryRunExecution fuel cancelled factor cfg s id backoff).1 with
  | Done s r => Done s (success r)
  | Pending s => Pending s
  end.

(** ** Pages *)

(** One fuel is one page or the end of the loop. *)
Fixpoint pages_loop (fuel : nat) (cfg : Config) (s : S) (id : string) (i numPages : Z) (results : list (QueryRunResults R))
    : progress S flip_err (list (QueryRunResults R)) :=
  match fuel with
  | O => Pending s
  | Datatypes.S fuel =>
      if i <=? numPages then
        let '(s, res) := GetQueryRunResults cfg s id i in
        match res with
        | Fail e => Done s (Fail e)
        | Panic => Done s Panic
        | Ret res => pages_loop fuel cfg s id (i + 1) (TotalPages (Page res)) (results ++ [res])
        end
      else Done s (Ret results)
  end.

Definition FetchQueryResults (fuel : nat) (cancelled : nat → bool) (cfg : Config) (s : S) (id : string)
    : progress S flip_err (list (QueryRunResults R)) :=
  match AwaitQueryRunSuccess fuel cancelled backoffFactor cfg s id Second with
  | Pending s => Pending s
  | Done s (Fail e) => Done s (Fail e)
  | Done s Panic => Done s Panic
  | Done s (Ret _) => pages_loop fuel cfg s id 1 1 []
  end.
End api.

Section paging.
Context {S R : Type} (serve : S → http_request → S * http_response R) (cfg : Config) (id : string).

(** One poll of a query. *)
Definition asks (s : S) : S * outcome flip_err QueryRun := GetQueryRun serve cfg s id.

(** The server, from a state on, answers the requests for the pages from the first up to
    [k] in turn with [page], or fails to. *)
Inductive serves (page : Z → outcome flip_err (QueryRunResults R)) (k : Z) : Z → S → Prop :=
| serves_end i s : k < i → serves page k i s
| serves_page i s s' : GetQueryRunResults serve cfg s id i = (s', page i) →
    serves page k (i + 1) s' → serves page k i s.

(** Page [k] is the first that says that there are no more. *)
Definition last_page (page : Z → outcome flip_err (QueryRunResults R)) (k : Z) : Prop :=
  1 ≤ k ∧ ∀ i res, 1 ≤ i ≤ k → page i = Ret res → TotalPages (Page res) ≤ i ↔ i = k.

Lemma pages_spec page k fuel s i numPages results :
  serves page k i s → last_page page k → 1 ≤ i ≤ k + 1 → i ≤ numPages ↔ i ≤ k → k + 1 - i < Z.of_nat fuel →
  ∃ s', pages_loop serve fuel cfg s id i numPages results
    = Done s' (ps ← omapM page (seqZ i (k + 1 - i)); Ret (results ++ ps)).
Proof.
  intros Hs [Hk Hlast]. revert s i numPages results Hs.
  induction fuel as [|fuel IH]; intros s i numPages results Hs Hi Hn Hf; [lia|].
  cbn [pages_loop]. destruct (Z.leb_spec i numPages) as [Hle|Hgt].
  - destruct Hs as [i s Hlt|i s s' Hget Hs]; [lia|]. rewrite Hget, (seqZ_cons i) by lia. cbn [omapM].
    replace (Z.pred (k + 1 - i)) with (k + 1 - (i + 1)) by lia. replace (Z.succ i) with (i + 1) by lia.
    specialize (Hlast i). destruct (page i) as [res|e|]; cbn [mbind outcome_mbind]; [|by eexists..].
    specialize (Hlast res ltac:(lia) eq_refl).
    destruct (IH s' (i + 1) (TotalPages (Page res)) (results ++ [res])) as [s'' ->]; [done|lia|lia|lia|].
    exists s''. destruct (omapM _ _) as [ps|e|]; cbn [mbind outcome_mbind]; [|done..]. by rewrite <-app_assoc.
  - exists s. rewrite (seqZ_nil i) by lia. cbn [omapM mbind outcome_mbind mret outcome_mret]. by rewrite app_nil_r.
Qed.
End paging.

(** C18. Fetching the results of a query polls it until it has ended, failed to be polled
    or the context is cancelled, and then gives the reason or, for a successful query,
    its pages: each once and in order, from the first to the first that says that it is
    the last, or the first failure to get one.  As long as no poll is final it polls on:
    after any number of polls, whatever their waits, it asks again. *)
Theorem FetchQueryResults_correct `{Machine} {S R} (serve : S → http_request → S * http_response R) cfg id cancelled s :
  let ask := asks serve cfg id in
  (∀ n r fuel, (n < fuel)%nat → unfinished ask ended ContextErr cancelled n 0 s →
    stops ask ended ContextErr cancelled n (server_at ask n s) = Some r →
    let s1 := server_at ask (Datatypes.S n) s in
    match r with
    | Ret run =>
        if decide (State run = "QUERY_STATE_SUCCESS"%string) then
          ∀ page k, serves serve cfg id page k 1 s1 → last_page page k → k < Z.of_nat fuel →
            ∃ s', FetchQueryResults serve fuel cancelled cfg s id = Done s' (omapM page (seqZ 1 k))
        else FetchQueryResults serve fuel cancelled cfg s id = Done s1 (Fail (Unsuccessful run))
    | Fail e => FetchQueryResults serve fuel cancelled cfg s id = Done s1 (Fail e)
    | Panic => FetchQueryResults serve fuel cancelled cfg s id = Done s1 Panic
    end) ∧
  (∀ fuel, unfinished ask ended ContextErr cancelled fuel 0 s →
    FetchQueryResults serve fuel cancelled cfg s id = Pending (server_at ask fuel s)).
Proof.
  intros ask. unfold FetchQueryResults, AwaitQueryRunSuccess, AwaitQueryRunExecution.
  fold (asks serve cfg id). fold ask. split.
  - intros n r fuel Hf Hj Hr. set (s1 := server_at ask (Datatypes.S n) s). cbv zeta. rewrite (poll_stops ask ended ContextErr cancelled backoffFactor 0 s Second n r fuel) by done.
    cbn [fst]. fold s1. destruct r as [run|e|]; cbn [success mbind outcome_mbind]; [|done..].
    destruct (decide (State run = "QUERY_STATE_SUCCESS"%string)); [|done]. intros page k Hs Hk Hkf.
    destruct (pages_spec serve cfg id page k fuel s1 1 1 []) as [s' ->]; [done|done|destruct Hk; lia|destruct Hk; lia|lia|].
    exists s'. replace (k + 1 - 1) with k by lia. by destruct (omapM page (seqZ 1 k)).
  - intros fuel Hj. by rewrite (poll_pending ask ended ContextErr cancelled).
Qed.

(** ** Examples *)

(** The waits grow by a fifth. *)
Example first_waits : @backoffs (λ _, 0) 4 backoffFactor Second = [1000000000; 1200000000; 1440000000; 1728000000].
Proof. by vm_compute. Qed.

(** [Hours] and [Minutes] are written as numbers of hours and minutes, but read as
    numbers of nanoseconds. *)
Example durations_JSON :
  int64_UnmarshalJSON (Hours_MarshalJSON (10 * Hour)) = Some 10 ∧
  int64_UnmarshalJSON (Minutes_MarshalJSON (90 * Second)) = None.
Proof. by vm_compute. Qed.

(** A server that counts polls: the query succeeds at the third, with two pages. *)
Definition toy_serve (polls : Z) (req : http_request) : Z * http_response Z :=
  match Params req with
  | createQueryRun _ => (polls, Response 200 None (Result (CreatedRun (mkRun "q" "QUERY_STATE_READY"))))
  | getQueryRun id => (polls + 1, Response 200 None (Result (GotRun
      (mkRun id (if Z.eqb polls 2 then "QUERY_STATE_SUCCESS" else "QUERY_STATE_RUNNING")%string))))
  | getQueryRunResults id _ n _ => (polls, Response 200 None (Result (GotResults (mkResults [n] (mkPage n 1 2 2)))))
  end.

#[local] Instance toy_machine : Machine := λ _, - 2 ^ 63.
Definition toy_page (n : Z) : outcome flip_err (QueryRunResults Z) := Ret (mkResults [n] (mkPage n 1 2 2)).

(** The waits are positive up to the range of durations. *)
Example long_waits : forallb (Z.ltb 0) (backoffs 126 backoffFactor Second) = true ∧
  forallb (Z.ltb 0) (backoffs 128 backoffFactor Second) = false.
Proof. by vm_compute. Qed.

Lemma FetchQueryResults_correct_witness :
  FetchQueryResults toy_serve 5 (λ _, false) (mkConfig "k" apiURL) 0 "q"
  = Done 3 (Ret [mkResults [1] (mkPage 1 1 2 2); mkResults [2] (mkPage 2 1 2 2)]) ∧
  (∃ s', FetchQueryResults toy_serve 5 (λ _, false) (mkConfig "k" apiURL) 0 "q"
    = Done s' (omapM toy_page (seqZ 1 2))) ∧
  FetchQueryResults toy_serve 2 (λ _, false) (mkConfig "k" apiURL) 0 "q" = Pending 2.
Proof.
  assert (unfinished (asks toy_serve (mkConfig "k" apiURL) "q") ended ContextErr (λ _, false) 2 0 0) as Hu
    by (intros [|[|j]] Hj; [by vm_compute..|lia]).
  split; [by vm_compute|].
  destruct (FetchQueryResults_correct toy_serve (mkConfig "k" apiURL) "q" (λ _, false) 0) as [W1 W2].
  split; [|exact (W2 2%nat Hu)].
  refine (W1 2%nat (Ret (mkRun "q" "QUERY_STATE_SUCCESS")) 5%nat _ Hu _ toy_page 2 _ _ _); [lia|by vm_compute| | |lia].
  - do 2 (eapply serves_page; [by vm_compute|]). by apply serves_end.
  - split; [lia|]. intros i res Hi [= <-]. simpl. lia.
Defined.
