(* ===== verification/FlipsideV1.v ===== *)
(** * FlipsideV1: the older client of flipside.xyz ([go/flipside/flipside.go])

    Submitting a query, polling its results and writing them as CSV.  The file declares
    again what the newer client ([Flipside]) declares and is not part of the build target.
    The server is a state machine; a body decodes, or not, to each of the two types. *)

From S2P Require Import Prelude GoStrings Csv Attach Polling.
From stdpp Require Import strings pretty.
From Stdlib Require Import SpecFloat.
Local Open Scope Z_scope.

Definition apiHost : string := "https://node-api.flipsidecrypto.com".
Definition apiPath : string := "/queries".
Definition apiURL : string := apiHost +:+ apiPath.

Record Config := mkConfig { APIKey : string; BackoffFactor : spec_float }.

(** The body of a submission, with the number that [minutes.MarshalJSON] hands to
    [json.Marshal]. *)
Record querySubmissionRequest := mkSubmission { SQL : string; TTL : spec_float }.
Definition minutes_MarshalJSON (m : Z) : spec_float := duration_in Minute m.

Record headers := mkHeaders { Accept : string; Content_Type : string; x_api_key : string }.
Definition addHeaders (cfg : Config) : headers := mkHeaders "application/json" "application/json" (APIKey cfg).

Record http_request := mkHttp {
  method : string; url : string; query : list (string * string); header : headers; req_body : option querySubmissionRequest
}.

(** The values of a row are of any type; the times are not looked at. *)
Record QueryExecutionResponse (V : Type) := mkExecution {
  Results : list (list V); ColumnLabels : list string; ColumnTypes : list string;
  Status : string; PageNumber : Z; PageSize : Z
}.
Arguments mkExecution {V} Results ColumnLabels ColumnTypes Status PageNumber PageSize.
Arguments Results {V}.
Arguments ColumnLabels {V}.
Arguments ColumnTypes {V}.
Arguments Status {V}.
Arguments PageNumber {V}.
Arguments PageSize {V}.

(** What a body decodes to as an execution; [null] makes the pointer nil. *)
Inductive decoded (V : Type) := Undecodable | Null | Execution (r : QueryExecutionResponse V).
Arguments Undecodable {V}.
Arguments Null {V}.
Arguments Execution {V} r.

(** [http.DefaultClient.Do]: no response, or a status, the text of the body, if it can be
    read, and what the body decodes to as a token, if it does, and as an execution. *)
Inductive http_response (V : Type) :=
| NoResponse
| Response (StatusCode : Z) (text : option string) (token : option string) (execution : decoded V).
Arguments NoResponse {V}.
Arguments Response {V} StatusCode text token execution.

Inductive v1_err := DoErr | HTTPErr (status : Z) (text : option string) | DecodeErr | ContextErr | CSVErr.

Section client.
Context `{Machine} {St V : Type} (serve : St → http_request → St * http_response V).

(** Doing a request and decoding the body of an OK. *)
Definition do_request {T} (decode : option string → decoded V → outcome v1_err T) (s : St) (req : http_request)
    : St * outcome v1_err T :=
  let '(s, resp) := serve s req in
  (s, match resp with
      | NoResponse => Fail DoErr
      | Response status text token execution =>
          if status =? 200 then decode token execution else Fail (HTTPErr status text)
      end).

Definition SubmitQuery (cfg : Config) (s : St) (sql : string) : St * outcome v1_err string :=
  do_request (λ token _, match token with Some t => Ret t | None => Fail DecodeErr end) s
    (mkHttp "POST" apiURL [] (addHeaders cfg) (Some (mkSubmission sql (minutes_MarshalJSON (15 * Minute))))).

(** [url.JoinPath(apiURL, token)], for tokens without percent signs: a slash at the end
    is kept. *)
Definition JoinPath (token : string) : string :=
  let p := path_Join apiPath token in
  apiHost +:+ (if ends_with_slash token && negb (ends_with_slash p) then p +:+ "/" else p).

(** One poll; the status of a nil execution panics. *)
Definition fetch (cfg : Config) (token : string) (pageNumber : Z) (s : St) : St * outcome v1_err (QueryExecutionResponse V) :=
  do_request (λ _ execution, match execution with Undecodable => Fail DecodeErr | Null => Panic | Execution r => Ret r end) s
    (mkHttp "GET" (JoinPath token) [("pageNumber", pretty pageNumber); ("pageSize", "100000")]%string (addHeaders cfg) None).

Definition finished (r : QueryExecutionResponse V) : bool := bool_decide (Status r = "finished"%string).

Definition fetchQueryResults (fuel : nat) (cancelled : nat → bool) (cfg : Config) (s : St) (token : string)
    (pageNumber backoff : Z) : progress St v1_err (QueryExecutionResponse V) * list Z :=
  poll (fetch cfg token pageNumber) finished ContextErr cancelled (BackoffFactor cfg) fuel 0 s backoff.

Definition FetchQueryResults (fuel : nat) (cancelled : nat → bool) (cfg : Config) (s : St) (token : string)
    (pageNumber : Z) : progress St v1_err (QueryExecutionResponse V) * list Z :=
  fetchQueryResults fuel cancelled cfg s token pageNumber Second.

(** ** Results as CSV *)

Context (Sprint : V → string).   (* [fmt.Sprint] *)

Definition results_table (r : QueryExecutionResponse V) : list (list string) :=
  ColumnLabels r :: ((fmap Sprint : list V → list string) <$> Results r).

(** [takes]: whether the writer takes the text; every error of the [csv.Writer] is one
    of the writer below. *)
Definition WriteCSV (takes : string → bool) (r : QueryExecutionResponse V) : outcome v1_err string :=
  let text := WriteAll (results_table r) in if takes text then Ret text else Fail CSVErr.

(** [gocsv.Unmarshal] reads from a pipe: the value it makes or its error, and how many
    bytes it read.  Nobody closes the reading end, so writing never fails, but the
    goroutine that writes is only done when all has been read; its errors could not be
    returned anyway, since the function assigns its result after it. *)
Definition Unmarshal {T} (gocsv_Unmarshal : string → (option T) * nat) (r : QueryExecutionResponse V) : option T * bool :=
  let text := WriteAll (results_table r) in
  let '(v, n) := gocsv_Unmarshal text in (v, (String.length text <=? n)%nat).
End client.

(** ** Fetching *)

(** A poll finds the query finished, or unfinished. *)
Definition answers {V} (resp : http_response V) (r : QueryExecutionResponse V) : Prop :=
  ∃ text token, resp = Response 200 text token (Execution r).

(** Fetching polls until a poll finds the query finished, fails or is followed by the end of
    the context, and gives what that poll gave.  A query with another status than
    finished is polled again after any number of polls, also when it has failed. *)
Theorem v1_FetchQueryResults_correct `{Machine} {St V} (serve : St → http_request → St * http_response V) cfg token
    pageNumber cancelled s :
  let ask := fetch serve cfg token pageNumber in
  (∀ n r fuel, (n < fuel)%nat → unfinished ask finished ContextErr cancelled n 0 s →
    stops ask finished ContextErr cancelled n (server_at ask n s) = Some r →
    FetchQueryResults serve fuel cancelled cfg s token pageNumber
    = (Done (server_at ask (S n) s) r, backoffs n (BackoffFactor cfg) Second)) ∧
  ((∀ n, cancelled n = false) →
    (∀ s req, ∃ r, answers (serve s req).2 r ∧ Status r ≠ "finished"%string) →
    ∀ fuel, (FetchQueryResults serve fuel cancelled cfg s token pageNumber).1 = Pending (server_at ask fuel s)).
Proof.
  intros ask. unfold FetchQueryResults, fetchQueryResults. split.
  - intros n r fuel Hn Hj Hr. by apply (poll_stops ask finished ContextErr cancelled (BackoffFactor cfg) 0).
  - intros Hc Hs fuel.
    assert (∀ s, ∃ r, (ask s).2 = Ret r ∧ finished r = false) as Ha.
    { intros s1. unfold ask, fetch, do_request. set (req := mkHttp _ _ _ _ _).
      destruct (Hs s1 req) as (r & (text & tok & E) & Hr). destruct (serve s1 req) as [s' resp]. simpl in E. subst resp.
      exists r. split; [done|]. unfold finished. by rewrite bool_decide_eq_false_2. }
    fold ask. rewrite (poll_pending ask finished ContextErr cancelled); [done|].
    intros j _. unfold stops. destruct (Ha (server_at ask j s)) as (r & E & Hr). by rewrite E, Hr, Hc.
Qed.

(** ** CSV *)

(** What a reader of CSV gets from the results, when all rows have a value for each label:
    the labels and the printed values, with line breaks of one character and without
    rows that are a single empty text. *)
Theorem v1_WriteCSV_read {V} (Sprint : V → string) takes r text :
  Forall (λ row, length row = length (ColumnLabels r)) (Results r) → WriteCSV Sprint takes r = Ret text →
  takes text = true ∧ ReadAll text = Some (read_back (results_table Sprint r)).
Proof.
  intros Hl. unfold WriteCSV. destruct (takes _) eqn:Et; [|done]. intros [= <-]. split; [done|].
  apply (ReadAll_WriteAll (results_table Sprint r) (length (ColumnLabels r))). unfold results_table.
  constructor; [done|]. apply Forall_fmap.
  eapply Forall_impl; [exact Hl|]. intros row Hrow. simpl. by rewrite length_fmap.
Qed.

(** The pipe of [Unmarshal] is written to the end exactly when it is read to the end. *)
Lemma Unmarshal_done {V T} (Sprint : V → string) (gocsv : string → option T * nat) r v :
  Unmarshal Sprint gocsv r = (v, true) ↔
  (gocsv (WriteAll (results_table Sprint r))).1 = v ∧
  (String.length (WriteAll (results_table Sprint r)) ≤ (gocsv (WriteAll (results_table Sprint r))).2)%nat.
Proof.
  unfold Unmarshal. destruct (gocsv _) as [v' n]. simpl. rewrite <-Nat.leb_le. split; [by intros [= -> ->]|by intros [-> ->]].
Qed.

(** ** Examples *)

(** A server that counts polls: the query is finished at the third. *)
Definition toy_execution (status : string) : QueryExecutionResponse string :=
  mkExecution [["a"; ""]; ["x y"; "1"]]%string ["c"; "d"]%string [] status 1 100000.
Definition toy_serve (polls : Z) (req : http_request) : Z * http_response string :=
  (polls + 1, Response 200 None (Some "token"%string)
    (Execution (toy_execution (if Z.eqb polls 2 then "finished" else "running")%string))).
Definition toy_config : Config := mkConfig "key" (float64 2).

Example toy_submit : SubmitQuery toy_serve toy_config 0 "select 1" = (1, Ret "token"%string) ∧
  JoinPath "a//b/" = "https://node-api.flipsidecrypto.com/queries/a/b/"%string.
Proof. by vm_compute. Qed.

#[local] Instance toy_machine : Machine := λ _, 0.

Lemma v1_FetchQueryResults_correct_witness :
  FetchQueryResults toy_serve 4 (λ _, false) toy_config 0 "token" 1
  = (Done 3 (Ret (toy_execution "finished")), [1000000000; 2000000000]).
Proof.
  refine (proj1 (v1_FetchQueryResults_correct toy_serve toy_config "token" 1 (λ _, false) 0) 2%nat _ 4%nat _ _ _);
    [lia| |by vm_compute]. intros [|[|j]] Hj; [by vm_compute..|lia].
Defined.

Lemma v1_WriteCSV_read_witness :
  ReadAll (WriteAll (results_table (λ s, s) (toy_execution "finished"))) = Some [["c"; "d"]; ["a"; ""]; ["x y"; "1"]]%string ∧
  ReadAll (WriteAll (results_table (λ s, s) (toy_execution "finished")))
  = Some (read_back (results_table (λ s, s) (toy_execution "finished"))).
Proof.
  split; [by vm_compute|].
  by refine (proj2 (v1_WriteCSV_read (λ s : string, s) (λ _, true) (toy_execution "finished") _ _ eq_refl)); repeat constructor.
Defined.
