(* ===== verification/Ipfs.v ===== *)
(** * Ipfs: the IPFS helpers of [go/ipfs/ipfs.go]

    Plugins, nodes, peer addresses, connections and the files added from a file system.  Addresses of
    the libp2p stack and the IPFS node are parameters; [fs.WalkDir] of the standard
    library is modelled over a tree. *)

From S2P Require Import Prelude GoStrings.
From stdpp Require Import gmap strings.

Inductive ipfs_err := NewMultiaddrErr (addr : string) | P2pAddrErr (addr : string) | ContextErr
| SubErr (root : string)
| NewPluginLoaderErr | InitializeErr | InjectErr | InitErr | NilRepoErr | RepoErr | OpenErr (path : string) | NewNodeErr | NewCoreAPIErr.

(** ** Peers *)

Class Multiaddr (I M : Type) := {
  NewMultiaddr : string → option M;
  AddrInfoFromP2pAddr : M → option (I * list M);
}.

Section peers.
Context {I M : Type} `{Countable I, Multiaddr I M}.

Record AddrInfo := mkInfo { ID : I; Addrs : list M }.

Definition parse_address (addr : string) : outcome ipfs_err (I * list M) :=
  match NewMultiaddr addr with
  | None => Fail (NewMultiaddrErr addr)
  | Some ma => match AddrInfoFromP2pAddr ma with None => Fail (P2pAddrErr addr) | Some ai => Ret ai end
  end.

(** [peerAddrs[ai.ID] = append(peerAddrs[ai.ID], ai.Addrs...)]. *)
Definition add_info (peerAddrs : gmap I (list M)) (ai : I * list M) : gmap I (list M) :=
  <[ai.1 := default [] (peerAddrs !! ai.1) ++ ai.2]> peerAddrs.

Fixpoint group (addrs : list string) (peerAddrs : gmap I (list M)) : outcome ipfs_err (gmap I (list M)) :=
  match addrs with
  | [] => Ret peerAddrs
  | addr :: addrs => ai ← parse_address addr; group addrs (add_info peerAddrs ai)
  end.

(** [range_map]: the order in which Go ranges over the groups. *)
Definition ParsePeerAddresses (range_map : gmap I (list M) → list (I * list M)) (addrs : list string)
    : outcome ipfs_err (list AddrInfo) :=
  peerAddrs ← group addrs ∅;
  Ret ((λ p, mkInfo p.1 p.2) <$> range_map peerAddrs).

(** The global variable after the call, and the error. *)
Definition ResetDefaultPeers (range_map : gmap I (list M) → list (I * list M))
    (DefaultBootstrapAddresses : list string) (DefaultPeers : list AddrInfo) (extra : list string)
    : list AddrInfo * option ipfs_err :=
  match ParsePeerAddresses range_map (DefaultBootstrapAddresses ++ extra) with
  | Ret peers => (peers, None)
  | Fail e => (DefaultPeers, Some e)
  | Panic => (DefaultPeers, None)
  end.

(** Addresses of Kubo that do not parse crash every program that links the package. *)
Definition init (range_map : gmap I (list M) → list (I * list M)) (DefaultBootstrapAddresses : list string)
    : outcome ipfs_err (list AddrInfo) :=
  match ResetDefaultPeers range_map DefaultBootstrapAddresses [] [] with
  | (DefaultPeers, None) => Ret DefaultPeers
  | (_, Some _) => Panic
  end.

(** The goroutines in the order in which they end. *)
Definition TryConnect (connect : AddrInfo → bool) (peers : list AddrInfo) : Z :=
  foldl (λ success p, if connect p then u64 (success + 1) else success) 0%Z peers.

(** The addresses of a peer in a list of parsed addresses, in their order. *)
Definition addresses_of (id : I) (infos : list (I * list M)) : list M :=
  concat (snd <$> filter (λ ai, ai.1 = id) infos).

Lemma group_spec addrs m :
  match group addrs m with
  | Ret m' => ∃ infos, Forall2 (λ a ai, parse_address a = Ret ai) addrs infos ∧
      (∀ id, default [] (m' !! id) = default [] (m !! id) ++ addresses_of id infos) ∧
      (∀ id, is_Some (m' !! id) ↔ is_Some (m !! id) ∨ id ∈ infos.*1)
  | Fail e => ∃ addr, addr ∈ addrs ∧ parse_address addr = Fail e
  | Panic => False
  end.
Proof.
  revert m. induction addrs as [|a addrs IH]; intros m; cbn [group].
  { exists []. split_and!; [constructor|intros; by rewrite app_nil_r|]. intros id. simpl. set_solver. }
  destruct (parse_address a) as [[i l]|e|] eqn:Ea; cbn [mbind outcome_mbind].
  - specialize (IH (add_info m (i, l))). destruct (group addrs _) as [m'|e|]; [| |done].
    + destruct IH as (infos & Hp & Hm & Hs). exists ((i, l) :: infos). split; [by constructor|].
      unfold add_info in Hm, Hs. simpl in Hm, Hs. split.
      * intros id. rewrite Hm. unfold addresses_of. rewrite filter_cons. simpl.
        destruct (decide (i = id)) as [->|Hne]; [rewrite lookup_insert_eq; simpl; by rewrite <-app_assoc|].
        by rewrite lookup_insert_ne.
      * intros id. rewrite Hs, lookup_insert_is_Some'. simpl. set_solver.
    + destruct IH as (addr & ? & ?). exists addr. split; [by right|done].
  - exists a. split; [left|done].
  - unfold parse_address in Ea. by repeat case_match.
Qed.
End peers.
Arguments AddrInfo : clear implicits.

(** The peers are the distinct IDs of the addresses, once each, and every peer has all
    its addresses in the order of the input; the call fails on an address that does not
    parse, with that address. *)
Theorem ParsePeerAddresses_correct {I M} `{Countable I, Multiaddr I M} range_map addrs :
  (∀ m : gmap I (list M), range_map m ≡ₚ map_to_list m) →
  match ParsePeerAddresses range_map addrs with
  | Ret peers => ∃ infos, Forall2 (λ a ai, parse_address a = Ret ai) addrs infos ∧
      NoDup (ID <$> peers) ∧ (∀ id, id ∈ ID <$> peers ↔ id ∈ infos.*1) ∧
      Forall (λ p, Addrs p = addresses_of (ID p) infos) peers
  | Fail e => ∃ addr, addr ∈ addrs ∧ parse_address (I:=I) (M:=M) addr = Fail e
  | Panic => False
  end.
Proof.
  intros Hrange. unfold ParsePeerAddresses. pose proof (group_spec (I:=I) (M:=M) addrs ∅) as Hg.
  destruct (group addrs ∅) as [m|e|]; cbn [mbind outcome_mbind]; [|done..].
  destruct Hg as (infos & Hp & Hm & Hs). exists infos. split; [done|].
  assert (ID <$> ((λ p, mkInfo p.1 p.2) <$> range_map m) = (range_map m).*1) as ->
    by (by rewrite <-list_fmap_compose).
  split; [rewrite Hrange; apply NoDup_fst_map_to_list|]. split.
  - intros id. rewrite Hrange. transitivity (is_Some (m !! id)); [|rewrite Hs, lookup_empty; naive_solver].
    rewrite list_elem_of_fmap. split; [intros ([id' l] & -> & Hl%elem_of_map_to_list); by eexists|].
    intros [l Hl]. exists (id, l). split; [done|]. by apply elem_of_map_to_list.
  - apply Forall_fmap. rewrite Hrange. apply Forall_forall. intros [id l] Hl%elem_of_map_to_list. simpl.
    specialize (Hm id). by rewrite Hl, lookup_empty in Hm.
Qed.

(** The package crashes its program exactly on a default address that does not parse. *)
Lemma init_crashes {I M} `{Countable I, Multiaddr I M} range_map addrs :
  init range_map addrs = Panic ↔ ∃ addr, addr ∈ addrs ∧ ∀ ai, parse_address (I:=I) (M:=M) addr ≠ Ret ai.
Proof.
  unfold init, ResetDefaultPeers, ParsePeerAddresses. rewrite app_nil_r.
  pose proof (group_spec (I:=I) (M:=M) addrs ∅) as Hg.
  destruct (group addrs ∅) as [m|e|]; cbn [mbind outcome_mbind]; [|split; [|done]|done].
  - destruct Hg as (infos & Hp & _). split; [done|]. intros (addr & Hin & Hbad).
    apply list_elem_of_lookup in Hin as [i Hi]. destruct (Forall2_lookup_l _ _ _ _ _ Hp Hi) as (ai & _ & Hai). by destruct (Hbad ai).
  - intros _. destruct Hg as (addr & Hin & He). exists addr. split; [done|]. intros ai. by rewrite He.
Qed.

(** Waiting polls until the context is done or there are enough peers; an observation is
    whether the context is done and the peers that the node lists, if it does. *)
Fixpoint WaitForConnections (min : Z) (observations : list (bool * option nat)) : option (outcome ipfs_err ()) :=
  match observations with
  | [] => None
  | (true, _) :: _ => Some (Fail ContextErr)
  | (false, Some p) :: observations =>
      if (min <=? Z.of_nat p)%Z then Some (Ret ()) else WaitForConnections min observations
  | (false, None) :: observations => WaitForConnections min observations
  end.

(** ** Plugins and nodes *)

(** Kubo: the plugin loader, repositories in the file system, nodes and their APIs. *)
Class Kubo (L R N A : Type) := {
  NewPluginLoader : string → option L;
  Initialize : L → bool;
  Inject : L → bool;
  fsrepo_Init : string → bool;
  fsrepo_Open : string → option R;
  NewNode : R → option N;
  NewCoreAPI : N → option A;
}.

Section kubo.
Context {L R N A : Type} `{Kubo L R N A}.

(** The result, and the loader that the deferred function closes. *)
Definition LoadPlugins (repoPath : string) : outcome ipfs_err L * option L :=
  match NewPluginLoader repoPath with
  | None => (Fail NewPluginLoaderErr, None)
  | Some l =>
      if negb (Initialize l) then (Fail InitializeErr, Some l)
      else if negb (Inject l) then (Fail InjectErr, Some l)
      else (Ret l, None)
  end.

Definition InitFS (repoPath : string) : outcome ipfs_err () := if fsrepo_Init repoPath then Ret () else Fail InitErr.

(** [core.BuildCfg], as far as it is used. *)
Record BuildCfg := mkBuildCfg { NilRepo : bool; Repo : option R }.

Record IPFS := mkIPFS { CoreAPI : A; ipfs_node : N }.

(** The configuration, which is the caller's, and the result: the repository is stored in it
    before anything else can fail. *)
Definition FromFS (repoPath : string) (nodeCfg : BuildCfg) : BuildCfg * outcome ipfs_err IPFS :=
  if NilRepo nodeCfg then (nodeCfg, Fail NilRepoErr)
  else match Repo nodeCfg with
       | Some _ => (nodeCfg, Fail RepoErr)
       | None =>
           match fsrepo_Open repoPath with
           | None => (nodeCfg, Fail (OpenErr repoPath))
           | Some repo =>
               let nodeCfg := mkBuildCfg (NilRepo nodeCfg) (Some repo) in
               (nodeCfg,
                match NewNode repo with
                | None => Fail NewNodeErr
                | Some node => match NewCoreAPI node with None => Fail NewCoreAPIErr | Some api => Ret (mkIPFS api node) end
                end)
           end
       end.

(** Calls with one configuration, one after the other. *)
Fixpoint attempts (nodeCfg : BuildCfg) (paths : list string) : list (outcome ipfs_err IPFS) :=
  match paths with
  | [] => []
  | path :: paths => let '(nodeCfg, r) := FromFS path nodeCfg in r :: attempts nodeCfg paths
  end.

Lemma attempts_used nodeCfg paths : NilRepo nodeCfg = false → is_Some (Repo nodeCfg) →
  attempts nodeCfg paths = replicate (length paths) (Fail RepoErr).
Proof.
  intros Hn [r Hr]. induction paths as [|path paths IH]; [done|]. cbn [attempts length replicate].
  unfold FromFS. by rewrite Hn, Hr, IH.
Qed.

(** Every loader that is not returned is closed. *)
Lemma LoadPlugins_closes path l : NewPluginLoader path = Some l →
  match LoadPlugins path with
  | (Ret l', closed) => l' = l ∧ closed = None ∧ Initialize l = true ∧ Inject l = true
  | (_, closed) => closed = Some l
  end.
Proof. intros Hl. unfold LoadPlugins. rewrite Hl. by destruct (Initialize l); [destruct (Inject l)|]. Qed.

(** A configuration serves for one repository: calls with it fail to open the repository up
    to one that opens it, which ends as that repository's node does, and every later one
    is refused, also when the node could not be made and the call should be repeated. *)
Theorem FromFS_once cfg paths : NilRepo cfg = false → Repo cfg = None →
  attempts cfg paths = ((λ path, Fail (OpenErr path)) <$> paths) ∧ Forall (λ path, fsrepo_Open path = None) paths ∨
  ∃ before path after repo,
    paths = before ++ path :: after ∧ Forall (λ path, fsrepo_Open path = None) before ∧ fsrepo_Open path = Some repo ∧
    attempts cfg paths = ((λ path, Fail (OpenErr path)) <$> before) ++
      (node ← (match NewNode repo with None => Fail NewNodeErr | Some node => Ret node end);
       match NewCoreAPI node with None => Fail NewCoreAPIErr | Some api => Ret (mkIPFS api node) end)
      :: replicate (length after) (Fail RepoErr).
Proof.
  intros Hn Hr. induction paths as [|path paths IH]; [by left|]. cbn [attempts]. unfold FromFS at 1 2.
  rewrite Hn, Hr. destruct (fsrepo_Open path) as [repo|] eqn:Eo.
  - right. exists [], path, paths, repo. split_and!; [done..|]. rewrite attempts_used by done.
    by destruct (NewNode repo).
  - destruct IH as [[-> Hf]|(before & p & after & repo & -> & Hb & Ho & ->)].
    + left. split; [done|]. by constructor.
    + right. exists (path :: before), p, after, repo. split_and!; [done|by constructor|done..].
Qed.
End kubo.

(** ** Files *)

Section files.
Context {C : Type}.

(** A file that opens or not; a directory that can be listed or not, its entries sorted
    by name. *)
Inductive node := File (content : option C) | Dir (readable : bool) (entries : list (string * node)).

Definition slash : Ascii.ascii := Ascii.ascii_of_nat 47.

(** [path.Join] of a clean path and a name. *)
Definition Join (p name : string) : string :=
  if decide (p = "."%string) then name else p +:+ String slash name.

(** [fs.ValidPath]. *)
Definition ValidPath (p : string) : bool :=
  bool_decide (p = "."%string) ||
  forallb (λ e, negb (bool_decide (e = EmptyString ∨ e = "."%string ∨ e = ".."%string))) (Split slash p).

Fixpoint find_node (n : node) (elements : list string) : option node :=
  match elements with
  | [] => Some n
  | e :: elements =>
      match n with
      | File _ => None
      | Dir _ entries =>
          n ← list_to_map (M:=gmap string node) entries !! e; find_node n elements
      end
  end.

(** [fs.Stat]. *)
Definition Stat (fsys : node) (p : string) : option node :=
  if negb (ValidPath p) then None
  else if decide (p = "."%string) then Some fsys else find_node fsys (Split slash p).

(** [fs.WalkDir] from a node with the callback of [AddFS]: the files opened, in order, and
    whether the walk failed. *)
Fixpoint walkDir (p : string) (n : node) : list (string * C) * bool :=
  match n with
  | File None => ([], true)
  | File (Some c) => ([(p, c)], false)
  | Dir false _ => ([], true)
  | Dir true entries =>
      (fix walk_entries (entries : list (string * node)) : list (string * C) * bool :=
        match entries with
        | [] => ([], false)
        | (name, n) :: entries =>
            match walkDir (Join p name) n with
            | (fs, true) => (fs, true)
            | (fs, false) => let '(fs', e) := walk_entries entries in (fs ++ fs', e)
            end
        end) entries
  end.

Definition WalkDir (fsys : node) (root : string) : list (string * C) * bool :=
  match Stat fsys root with None => ([], true) | Some n => walkDir root n end.

(** [ipfsDir[path] = ...] for one file after the other. *)
Definition map_of (l : list (string * C)) : gmap string C := foldl (λ m f, <[f.1 := f.2]> m) ∅ l.

(** [rh]: whether the root is kept.  The result is the map of the files that [Add] gets:
    the error of the walk is not looked at. *)
Definition AddFS (fsys : node) (root : string) (rh : bool) : outcome ipfs_err (gmap string C) :=
  if rh then Ret (map_of (WalkDir fsys root).1)
  else if negb (ValidPath root) then Fail (SubErr root)
  else Ret (map_of match Stat fsys root with None => [] | Some n => (walkDir "." n).1 end).

(** Every file under a node in the order of the walk, and whether each can be reached. *)
Fixpoint files (p : string) (n : node) : list (string * option C) :=
  match n with
  | File c => [(p, c)]
  | Dir readable entries =>
      (if readable then [] else [(p, None)]) ++ concat (map (λ e, files (Join p e.1) e.2) entries)
  end.

(** The files up to the first that cannot be reached. *)
Fixpoint readable_prefix (l : list (string * option C)) : list (string * C) * bool :=
  match l with
  | [] => ([], false)
  | (_, None) :: _ => ([], true)
  | (p, Some c) :: l => let '(fs, e) := readable_prefix l in ((p, c) :: fs, e)
  end.

Lemma readable_prefix_app l l' :
  readable_prefix (l ++ l') =
  let '(fs, e) := readable_prefix l in
  if (e : bool) then (fs, true) else let '(fs', e') := readable_prefix l' in (fs ++ fs', e').
Proof.
  induction l as [|[p [c|]] l IH]; simpl; [by destruct (readable_prefix l')| |done].
  rewrite IH. destruct (readable_prefix l) as [fs []]; [done|]. by destruct (readable_prefix l').
Qed.

Lemma map_of_dom l q : is_Some (map_of l !! q) ↔ q ∈ l.*1.
Proof.
  unfold map_of. assert (∀ m : gmap string C, is_Some (foldl (λ m f, <[f.1:=f.2]> m) m l !! q) ↔ is_Some (m !! q) ∨ q ∈ l.*1) as Hm.
  { induction l as [|f l IH]; intros m; simpl; [set_solver|]. rewrite IH, lookup_insert_is_Some'. set_solver. }
  rewrite Hm, lookup_empty. naive_solver.
Qed.

Lemma map_of_lookup l q c : map_of l !! q = Some c → (q, c) ∈ l.
Proof.
  unfold map_of. assert (∀ m : gmap string C, foldl (λ m f, <[f.1:=f.2]> m) m l !! q = Some c → m !! q = Some c ∨ (q, c) ∈ l) as Hm.
  { induction l as [|[p d] l IH]; intros m; simpl; [by left|]. intros [Hl|?]%IH; [|right; by right].
    apply lookup_insert_Some in Hl as [[-> ->]|[_ ?]]; [right; left|by left]. }
  intros Hl. destruct (Hm ∅ Hl) as [Hx|?]; [by rewrite lookup_empty in Hx|done].
Qed.

(** The walk visits the files in order and stops at the first that it cannot reach. *)
Lemma walkDir_files p n : walkDir p n = readable_prefix (files p n).
Proof.
  revert p n. fix IH 2. intros p [[c|]|[|] entries]; [done|done| |done]. simpl.
  induction entries as [|[name n] entries IHe]; [done|]. simpl. rewrite readable_prefix_app, <-IH, <-IHe.
  by destruct (walkDir (Join p name) n) as [fs []].
Qed.

Lemma readable_prefix_spec l :
  let '(fs, e) := readable_prefix l in
  ((λ f, (f.1, Some f.2)) <$> fs) `prefix_of` l ∧
  (if e then ∃ q, ((λ f, (f.1, Some f.2)) <$> fs) ++ [(q, None)] `prefix_of` l
   else ((λ f : string * C, (f.1, Some f.2)) <$> fs) = l).
Proof.
  induction l as [|[p [c|]] l IH]; simpl.
  - by split; [apply prefix_nil|].
  - destruct (readable_prefix l) as [fs e]. destruct IH as [Hp He]. simpl.
    split; [by apply prefix_cons|]. destruct e; [|by f_equal].
    destruct He as [q Hq]. exists q. by apply prefix_cons.
  - split; [apply prefix_nil|]. exists p. apply prefix_cons, prefix_nil.
Qed.
End files.
Arguments node : clear implicits.

(** C36. What is added is, from a root that exists, the files below it in lexical order up
    to the first file or directory that cannot be read, with the root as prefix of
    their paths or without it; without such a failure every file is added.  The failure
    itself is lost: the call never fails for it. *)
Theorem AddFS_correct {C} (fsys : node C) root rh n : Stat fsys root = Some n → ∃ added e,
  let all := files (if (rh : bool) then root else ".") n in
  AddFS fsys root rh = Ret (map_of added) ∧
  (∀ p, is_Some (map_of added !! p) ↔ p ∈ added.*1) ∧ (∀ p c, map_of added !! p = Some c → (p, c) ∈ added) ∧
  ((λ f, (f.1, Some f.2)) <$> added) `prefix_of` all ∧
  (if (e : bool) then ∃ p, ((λ f, (f.1, Some f.2)) <$> added) ++ [(p, None)] `prefix_of` all
   else ((λ f, (f.1, Some f.2)) <$> added) = all).
Proof.
  intros Hn. set (base := if rh then root else "."%string).
  pose proof (readable_prefix_spec (files base n)) as Hs. rewrite <-walkDir_files in Hs.
  destruct (walkDir base n) as [added e] eqn:Ew. exists added, e. cbv zeta. destruct Hs as [Hp He].
  split_and!; [|apply map_of_dom|apply map_of_lookup|exact Hp|exact He].
  unfold AddFS, WalkDir. rewrite Hn. subst base. destruct rh; cbv iota in *; rewrite Ew; [done|].
  assert (ValidPath root = true) as -> by (unfold Stat in Hn; by destruct (ValidPath root)). done.
Qed.

(** ** Examples *)

#[local] Instance toy_multiaddr : Multiaddr string string := {
  NewMultiaddr s := if HasPrefix "/" s then Some s else None;
  AddrInfoFromP2pAddr s :=
    match Split slash s with [_; a; id] => Some (id, [a]) | [_; id] => Some (id, []) | _ => None end;
}.

Lemma ParsePeerAddresses_correct_witness :
  ParsePeerAddresses map_to_list ["/a/x"; "/y"; "/b/x"]%string = Ret [mkInfo "y" []; mkInfo "x" ["a"; "b"]]%string ∧
  ParsePeerAddresses (I:=string) (M:=string) map_to_list ["/a/x"; "b"]%string = Fail (NewMultiaddrErr "b") ∧
  NoDup ["y"; "x"]%string.
Proof.
  assert (ParsePeerAddresses map_to_list ["/a/x"; "/y"; "/b/x"]%string
    = Ret [mkInfo "y" []; mkInfo "x" ["a"; "b"]]%string) as E by by vm_compute.
  split; [exact E|]. split; [by vm_compute|].
  pose proof (ParsePeerAddresses_correct (I:=string) (M:=string) map_to_list ["/a/x"; "/y"; "/b/x"]%string) as W.
  rewrite E in W. destruct W as (infos & _ & W & _); [done|exact W].
Defined.

(** A directory with a file that cannot be opened: the ones after it are missing. *)
Definition toy_fs : node nat :=
  Dir true [("a", File (Some 1)); ("d", Dir true [("x", File (Some 2)); ("y", File None)]); ("z", File (Some 3))]%string.

Lemma AddFS_correct_witness :
  AddFS toy_fs "." false = Ret (map_of [("a", 1); ("d/x", 2)]%string) ∧
  AddFS toy_fs "d" true = Ret (map_of [("d/x", 2)]%string) ∧
  ∃ added e, AddFS toy_fs "d" false = Ret (map_of added) ∧ (e : bool) = e.
Proof.
  split; [by vm_compute|]. split; [by vm_compute|].
  destruct (AddFS_correct toy_fs "d" false (Dir true [("x", File (Some 2)); ("y", File None)]%string)
    ltac:(by vm_compute)) as (added & e & W & _).
  exists added, e. split; [exact W|done].
Defined.
