(* ===== verification/Spawner.v ===== *)
(** * Spawner: processes for tests ([go/spawner])

    The service as a state machine over the containers of a Docker daemon:
    [spawner.go] and the launcher of [postgres.go].  What the daemon, the database and
    the random source answer is part of each operation; [net.SplitHostPort] and
    [url.PathEscape] of the standard library are modelled. *)

From S2P Require Import Prelude GoStrings.
From stdpp Require Import gmap strings.
Local Open Scope Z_scope.

(** ** Strings *)

Definition chr (n : nat) : Ascii.ascii := Ascii.ascii_of_nat n.
Definition colon := chr 58.
Definition lbracket := chr 91.
Definition rbracket := chr 93.

(** [net.SplitHostPort]: the port follows the last colon; a host with colons is in
    brackets. *)
Definition SplitHostPort (hostport : string) : option (string * string) :=
  match hostport with
  | String c rest =>
      if decide (c = lbracket) then
        match Cut rbracket rest with
        | (host, Some (String c' port)) =>
            if decide (c' = colon) then
              if mentions colon port || mentions lbracket (host +:+ port) || mentions rbracket port then None
              else Some (host, port)
            else None
        | _ => None
        end
      else if mentions lbracket hostport || mentions rbracket hostport then None
      else match Split colon hostport with [host; port] => Some (host, port) | _ => None end
  | EmptyString => None
  end.

(** [url.PathEscape] leaves letters, digits and these. *)
Definition path_safe (c : Ascii.ascii) : bool :=
  let n := Z.of_nat (nat_of_ascii c) in
  (48 <=? n) && (n <=? 57) || (65 <=? n) && (n <=? 90) || (97 <=? n) && (n <=? 122)
  || bool_decide (c ∈ String.list_ascii_of_string "-_.~$&+:=@").

Definition upper_hex (n : Z) : Ascii.ascii := chr (Z.to_nat (if n <? 10 then n + 48 else n + 55)).

Fixpoint PathEscape (s : string) : string :=
  match s with
  | EmptyString => EmptyString
  | String c s =>
      if path_safe c then String c (PathEscape s)
      else let n := Z.of_nat (nat_of_ascii c) in
           String (chr 37) (String (upper_hex (n / 16)) (String (upper_hex (n mod 16)) (PathEscape s)))
  end.

(** ** Requests *)

Record PostgresRequest := mkPostgres { DockerTag : string; DbName : string; Ttl : Z }.
Record PostgresResponse := mkPostgresResponse {
  Dsn : string; User : string; Password : string; HostAndPort : string; Host : string; Port : Z; resp_DbName : string
}.

Inductive spawn_err := InvalidProcess | MkdirErr | RunErr | RetryErr | DBCloseErr | HostPortErr (s : string)
| PortErr (s : string) | UUIDErr | KilledToo (e : spawn_err) | NotKilled (e : spawn_err)
| InvalidID (id : list Z) | NotFound (id : list Z) | PurgeErr | PoolErr.

(** What happens outside while a process is spawned. *)
Record world (C : Type) := mkWorld {
  mkdir : option string;       (* the data directory *)
  container : option C;        (* the container that Docker starts *)
  hostPort : string;           (* its port *)
  pings : bool;                (* whether the database answers in time *)
  closes : bool;
  uuid : option (list Z);      (* the random ID, of 16 bytes *)
  purges : bool;               (* whether Docker can remove the container *)
}.
Arguments mkWorld {C} mkdir container hostPort pings closes uuid purges.
Arguments mkdir {C}.
Arguments container {C}.
Arguments hostPort {C}.
Arguments pings {C}.
Arguments closes {C}.
Arguments uuid {C}.
Arguments purges {C}.

Section spawner.
Context {C : Type} `{Countable C}.

(** [running]: the containers of the daemon that were started here, with the seconds
    after which they expire. *)
Record spawner := mkSpawner { running : gmap C Z; resources : gmap (list Z) C }.

Definition New : spawner := mkSpawner ∅ ∅.

Definition kill (st : spawner) (c : C) (ok : bool) : spawner * option spawn_err :=
  if ok && bool_decide (is_Some (running st !! c)) then (mkSpawner (delete c (running st)) (resources st), None)
  else (st, Some PurgeErr).

Definition db_name (req : PostgresRequest) : string :=
  if decide (DbName req = EmptyString) then "dbname"%string else DbName req.

Definition dsn (w : world C) (req : PostgresRequest) : string :=
  "postgres://user:password@" +:+ hostPort w +:+ "/" +:+ PathEscape (db_name req) +:+ "?sslmode=disable".

(** [postgres]: a container that was started keeps running when a later step fails. *)
Definition postgres (st : spawner) (w : world C) (req : PostgresRequest)
    : spawner * outcome spawn_err (C * PostgresResponse) :=
  match mkdir w with
  | None => (st, Fail MkdirErr)
  | Some _ =>
      match container w with
      | None => (st, Fail RunErr)
      | Some c =>
          let st := mkSpawner (<[c := u64 (Z.quot (Ttl req) (10 ^ 9))]> (running st)) (resources st) in
          (st, if negb (pings w) then Fail RetryErr
               else if negb (closes w) then Fail DBCloseErr
               else match SplitHostPort (hostPort w) with
                    | None => Fail (HostPortErr (hostPort w))
                    | Some (host, portStr) =>
                        match Atoi portStr with
                        | None => Fail (PortErr portStr)
                        | Some port => Ret (c, mkPostgresResponse (dsn w req) "user" "password" (hostPort w)
                                              host port (db_name req))
                        end
                    end)
      end
  end.

(** The request's process: Postgres, or another one. *)
Definition Spawn (st : spawner) (w : world C) (process : option PostgresRequest)
    : spawner * outcome spawn_err (PostgresResponse * list Z) :=
  match process with
  | None => (st, Fail InvalidProcess)
  | Some req =>
      match postgres st w req with
      | (st, Ret (c, resp)) =>
          match uuid w with
          | Some id => (mkSpawner (running st) (<[id := c]> (resources st)), Ret (resp, id))
          | None =>
              match kill st c (purges w) with
              | (st, None) => (st, Fail UUIDErr)
              | (st, Some _) => (st, Fail (NotKilled UUIDErr))
              end
          end
      | (st, Fail e) => (st, Fail e)
      | (st, Panic) => (st, Panic)
      end
  end.

(** The entry of the map stays. *)
Definition Kill (st : spawner) (ProcId : list Z) (purge : bool) : spawner * outcome spawn_err () :=
  if negb (length ProcId =? 16)%nat then (st, Fail (InvalidID ProcId))
  else match resources st !! ProcId with
       | None => (st, Fail (NotFound ProcId))
       | Some c => match kill st c purge with
                   | (st, None) => (st, Ret ())
                   | (st, Some e) => (st, Fail e)
                   end
       end.

(** ** A single process *)

(** [NewPostgres] makes a spawner for one process, whose daemon may be out of reach; its
    [cleanup] is [singleton_cleanup]. *)
Definition NewPostgres (pool : bool) (w : world C) (dockerTag : string) (ttl : Z)
    : spawner * outcome spawn_err (PostgresResponse * list Z) :=
  if pool then Spawn New w (Some (mkPostgres dockerTag EmptyString ttl)) else (New, Fail PoolErr).

Definition singleton_cleanup (st : spawner) (ToKill : list Z) (purge : bool) : outcome spawn_err () :=
  (Kill st ToKill purge).2.

(** ** Histories *)

Inductive call := SpawnCall (w : world C) (process : option PostgresRequest) | KillCall (id : list Z) (purge : bool).

Definition after (st : spawner) (c : call) : spawner :=
  match c with SpawnCall w p => (Spawn st w p).1 | KillCall id purge => (Kill st id purge).1 end.

Definition history (calls : list call) : spawner := foldl after New calls.

(** The container that a failed spawn leaves behind. *)
Definition leaked (c : call) : option C :=
  match c with
  | SpawnCall w (Some req) =>
      match mkdir w, container w with
      | Some _, Some c =>
          match (postgres New w req).2 with
          | Ret _ => match uuid w with Some _ => None | None => if purges w then None else Some c end
          | _ => Some c
          end
      | _, _ => None
      end
  | _ => None
  end.

(** The containers and IDs of a history. *)
Definition started (c : call) : option C :=
  match c with SpawnCall w (Some _) => match mkdir w with Some _ => container w | None => None end | _ => None end.
Definition issued (c : call) : option (list Z) := match c with SpawnCall w (Some _) => uuid w | _ => None end.

Record accounted (calls : list call) (st : spawner) : Prop := mkAccounted {
  (** Each running container was registered or leaked. *)
  acc_running : ∀ c, is_Some (running st !! c) → c ∈ omap leaked calls ∨ ∃ id, resources st !! id = Some c;
  acc_registered : ∀ id c, resources st !! id = Some c → c ∈ omap started calls ∧ id ∈ omap issued calls;
  acc_started : ∀ c, is_Some (running st !! c) → c ∈ omap started calls;
}.

Lemma postgres_res (st st' : spawner) w req : (postgres st w req).2 = (postgres st' w req).2.
Proof. unfold postgres. by repeat case_match. Qed.

Lemma postgres_state (st : spawner) w req :
  (postgres st w req).1 = match mkdir w, container w with
    | Some _, Some c => mkSpawner (<[c := u64 (Z.quot (Ttl req) (10 ^ 9))]> (running st)) (resources st)
    | _, _ => st
    end ∧ resources (postgres st w req).1 = resources st ∧
  ∀ c resp, (postgres st w req).2 = Ret (c, resp) → is_Some (mkdir w) ∧ container w = Some c.
Proof.
  unfold postgres. destruct (mkdir w); [|done]. destruct (container w) as [c|]; [|done]. simpl.
  split; [done|]. split; [done|]. intros c' resp. repeat case_match; intros; simplify_eq; by split.
Qed.
End spawner.
Arguments spawner : clear implicits.
Arguments call : clear implicits.

Section accounting.
Context {C : Type} `{Countable C}.

Lemma history_snoc (calls : list (call C)) c : history (calls ++ [c]) = after (history calls) c.
Proof. unfold history. by rewrite foldl_app. Qed.

Lemma accounted_kill (calls : list (call C)) st c ok : accounted calls st → accounted calls (kill st c ok).1.
Proof.
  intros [Hr Hg Hs]. unfold kill. destruct (ok && _); [|done]. split; simpl; [|done|].
  - intros c' [x Hc]%lookup_delete_is_Some. by apply Hr.
  - intros c' [x Hc]%lookup_delete_is_Some. by apply Hs.
Qed.

(** A new container is accounted for when it is registered under a new ID, leaked, or
    removed again. *)
Lemma accounted_started (calls : list (call C)) st cl c ttl : accounted calls st →
  c ∈ option_list (started cl) → c ∈ option_list (leaked cl) →
  accounted (calls ++ [cl]) (mkSpawner (<[c := ttl]> (running st)) (resources st)).
Proof.
  intros [Hr Hg Hs] Hc Hl. split; simpl; setoid_rewrite omap_app; simpl.
  - intros c' [<-|?]%lookup_insert_is_Some'; [left; destruct (leaked cl); set_solver|].
    destruct (Hr c') as [?|?]; [done|left; set_solver|by right].
  - intros id c' ?%Hg. set_solver.
  - intros c' [<-|?%Hs]%lookup_insert_is_Some'; [destruct (started cl); set_solver|set_solver].
Qed.

Lemma accounted_more (calls : list (call C)) cl st : accounted calls st → accounted (calls ++ [cl]) st.
Proof.
  intros [Hr Hg Hs]. split; setoid_rewrite omap_app.
  - intros c ?%Hr. set_solver.
  - intros id c ?%Hg. set_solver.
  - intros c ?%Hs. set_solver.
Qed.
(** A call with a fresh container and a fresh ID keeps the account. *)
Lemma accounted_after (calls : list (call C)) st cl : accounted calls st →
  (∀ c, started cl = Some c → c ∉ omap started calls) → (∀ id, issued cl = Some id → id ∉ omap issued calls) →
  accounted (calls ++ [cl]) (after st cl).
Proof.
  intros IH Hcf Hif.
  destruct cl as [w [req|]|id purge]; simpl; [|by apply accounted_more|].
  2: { unfold Kill. apply accounted_more. destruct (negb _); [done|]. destruct (resources st !! id) as [c|]; [|done].
       pose proof (accounted_kill calls st c purge IH). by destruct (kill st c purge) as [? []]. }
  unfold Spawn. destruct (postgres_state st w req) as (E & _ & Hret).
  destruct (mkdir w) as [dir|] eqn:Ed; [destruct (container w) as [c|] eqn:Ew|].
  2,3: destruct (postgres st w req) as [st' [[c resp]|e|]]; simpl in E, Hret; subst st';
    [by destruct (Hret c resp eq_refl) as [[]]|by apply accounted_more..].
  assert (∀ ttl, c ∈ option_list (leaked (SpawnCall w (Some req))) →
    accounted (calls ++ [SpawnCall w (Some req)]) (mkSpawner (<[c:=ttl]> (running st)) (resources st))) as Hleak.
  { intros ttl. apply accounted_started; [done|]. simpl. rewrite Ed, Ew. set_solver. }
  simpl in Hleak. rewrite Ed, Ew, (postgres_res New st) in Hleak.
  destruct (postgres st w req) as [st' [[c' resp]|e|]] eqn:Ep; simpl in E, Hret, Hleak; subst st'; [|by apply Hleak; set_solver..].
  destruct (Hret c' resp eq_refl) as [_ [= <-]]. destruct (uuid w) as [id|] eqn:Eu.
  + destruct IH as [Hr Hg Hs]. simpl in Hcf, Hif. rewrite Ed, Ew in Hcf. rewrite Eu in Hif.
    assert (resources st !! id = None) as Hfresh.
    { destruct (resources st !! id) as [c'|] eqn:Er; [|done]. apply Hg in Er as [_ Er].
      by destruct (Hif id eq_refl). }
    split; simpl; setoid_rewrite omap_app; simpl.
    * intros c' [<-|Hc']%lookup_insert_is_Some'; [right; exists id; by rewrite lookup_insert_eq|].
      destruct (Hr c' Hc') as [?|[id' Hid']]; [left; set_solver|]. right. exists id'.
      rewrite lookup_insert_ne by congruence. done.
    * intros id' c'. rewrite Ed, Ew, Eu. intros [[<- <-]|[_ ?%Hg]]%lookup_insert_Some; set_solver.
    * intros c'. rewrite Ed, Ew. intros [<-|?%Hs]%lookup_insert_is_Some'; set_solver.
  + unfold kill. destruct (purges w); simpl.
    * rewrite bool_decide_eq_true_2 by (rewrite lookup_insert_eq; by eexists). simpl.
      assert (running st !! c = None) as Hn.
      { apply eq_None_not_Some. intros Hx%(acc_started _ _ IH). simpl in Hcf. rewrite Ed, Ew in Hcf.
        by apply (Hcf c). }
      rewrite delete_insert_id by done. destruct IH as [Hr Hg Hs]. destruct st as [ru re]. apply accounted_more. by split.
    * apply Hleak. set_solver.
Qed.
End accounting.

(** C23. In every history with fresh containers and IDs, each running container either has
    an ID under which it can be killed or was left behind by a spawn that failed after
    it was started; killing it under its ID removes it and nothing else, but its ID is
    never forgotten, so that a second kill reports an internal error. *)
Theorem containers_accounted {C} `{Countable C} (calls : list (call C)) :
  NoDup (omap started calls) → NoDup (omap issued calls) →
  accounted calls (history calls) ∧
  ∀ id c, resources (history calls) !! id = Some c → length id = 16%nat → is_Some (running (history calls) !! c) →
    let '(st, r) := Kill (history calls) id true in
    r = Ret () ∧ running st = delete c (running (history calls)) ∧ resources st = resources (history calls) ∧
    ∀ purge, Kill st id purge = (st, Fail PurgeErr).
Proof.
  intros Hc Hi. split.
  - revert Hc Hi. induction calls as [|cl calls IH] using rev_ind; intros Hc Hi.
    { split; [intros c|intros id c|intros c]; simpl; rewrite lookup_empty; [intros [? [=]]|intros [=]|intros [? [=]]]. }
    rewrite omap_app in Hc. rewrite omap_app in Hi. apply NoDup_app in Hc as (Hc & Hcf & _). apply NoDup_app in Hi as (Hi & Hif & _).
    rewrite history_snoc. apply accounted_after; [by apply IH| |].
    + intros c E Hin. apply (Hcf c Hin). simpl. rewrite E. left.
    + intros id E Hin. apply (Hif id Hin). simpl. rewrite E. left.
  - intros id c Hid Hl [x Hc']. unfold Kill. rewrite Hl. simpl. rewrite Hid. unfold kill.
    rewrite bool_decide_eq_true_2 by (by eexists). simpl. split_and!; [done..|]. intros purge.
    rewrite Hid. rewrite lookup_delete_eq, bool_decide_eq_false_2 by (by intros []). by rewrite andb_false_r.
Qed.

Lemma kill_single {C} `{Countable C} (c : C) t res ok :
  kill (mkSpawner (<[c := t]> ∅) res) c ok
  = if (ok : bool) then (mkSpawner ∅ res, None) else (mkSpawner (<[c := t]> ∅) res, Some PurgeErr).
Proof.
  unfold kill. simpl. rewrite bool_decide_eq_true_2 by (rewrite lookup_insert_eq; by eexists).
  rewrite andb_true_r. destruct ok; [|done]. by rewrite delete_insert_id by apply lookup_empty.
Qed.

(** The cleanup of a single process leaves no container; but when [NewPostgres] fails after
    its container was started, the container is left and there is no cleanup for it. *)
Theorem NewPostgres_cleanup {C} `{Countable C} (w : world C) tag ttl :
  (∀ id, uuid w = Some id → length id = 16%nat) →
  match NewPostgres true w tag ttl with
  | (st, Ret (resp, id)) => resp_DbName resp = "dbname"%string ∧ singleton_cleanup st id true = Ret () ∧
      running (Kill st id true).1 = ∅
  | (st, _) => dom (running st) = list_to_set (option_list (leaked (SpawnCall w (Some (mkPostgres tag "" ttl)))))
  end.
Proof.
  intros Hu. unfold NewPostgres, Spawn, singleton_cleanup, leaked, postgres, New. simpl.
  destruct (mkdir w); [destruct (container w) as [c|]|]; simpl; [|by rewrite dom_empty_L..].
  destruct (pings w); simpl; [|by rewrite dom_insert_L; set_solver].
  destruct (closes w); simpl; [|by rewrite dom_insert_L; set_solver].
  destruct (SplitHostPort (hostPort w)) as [[host port]|]; simpl; [|by rewrite dom_insert_L; set_solver].
  destruct (Atoi port); simpl; [|by rewrite dom_insert_L; set_solver].
  destruct (uuid w) as [id|] eqn:E.
  - unfold Kill. rewrite (Hu id eq_refl). simpl. by rewrite lookup_insert_eq, kill_single.
  - rewrite kill_single. destruct (purges w); simpl; [by rewrite dom_empty_L|by rewrite dom_insert_L; set_solver].
Qed.

(** ** Examples *)

Example SplitHostPort_examples :
  SplitHostPort "localhost:55432" = Some ("localhost", "55432")%string ∧
  SplitHostPort "[::1]:80" = Some ("::1", "80")%string ∧ SplitHostPort "::1:80" = None ∧
  PathEscape "a b/c" = "a%20b%2Fc"%string.
Proof. by vm_compute. Qed.

Definition toy_world (c : nat) (pings : bool) : world nat :=
  mkWorld (Some "/tmp/d"%string) (Some c) "localhost:5432" pings true (Some (replicate 16 (Z.of_nat c))) true.

Definition toy_request : PostgresRequest := mkPostgres "14" "" (90 * 10 ^ 9).

(** The second database never answers: its container is leaked. *)
Definition toy_calls : list (call nat) :=
  [SpawnCall (toy_world 1 true) (Some toy_request); SpawnCall (toy_world 2 false) (Some toy_request)].

Lemma containers_accounted_witness :
  running (history toy_calls) = {[1%nat := 90; 2%nat := 90]} ∧ omap leaked toy_calls = [2%nat] ∧
  (Kill (history toy_calls) (replicate 16 1) true).2 = Ret () ∧ accounted toy_calls (history toy_calls).
Proof.
  split; [by vm_compute|]. split; [by vm_compute|]. split; [by vm_compute|].
  refine (proj1 (containers_accounted toy_calls _ _)); apply (bool_decide_unpack _); by vm_compute.
Defined.
