(* ===== verification/Tenderly.v ===== *)
(** * Tenderly: forks of chains ([go/tenderly/tenderly.go])

    Creating and deleting forks through the REST API and the client with its cleanup.
    The server is a state machine; [encoding/json] is applied on its side of the
    interface: the body of a response decodes to the fork or does not.
    [url.JoinPath] and [ethclient] are parameters. *)

From S2P Require Import Prelude GoStrings.
From stdpp Require Import strings.
Local Open Scope Z_scope.

Record Config := mkConfig { APIKey : string; APIURL : string }.

Definition apiURL : string := "https://api.tenderly.co".

Definition NewFromSecret {E} (apiKey : outcome E string) : outcome E Config :=
  key ← apiKey; Ret (mkConfig key apiURL).

(** [Accounts]: addresses and keys as the wire has them. *)
Record Fork := mkFork {
  ID : string; Name : string; Description : string; NetworkID : string; BlockNumber : string;
  ChainID : string; Accounts : list (string * string); NodeURL : string
}.

Record NewForkParams := mkParams {
  ProjectSlug : string; p_Name : string; p_Description : string; p_NetworkID : Z; p_BlockNumber : Z
}.

(** The body of a request: the parameters without the slug, or an empty object. *)
Inductive payload := ForkPayload (name description : string) (network block : Z) | NoPayload.
Record http_request := mkHttp {
  method : string; path : string; Content_Type : string; X_Access_Key : string; request_body : payload
}.

(** No response, or a status and a body: its text, if it can be read, and the fork that
    it decodes to. *)
Inductive http_response := NoResponse | Response (StatusCode : Z) (text : option string) (decoded : option Fork).

Inductive tenderly_err := JoinErr | RequestErr (method path : string) | DoErr | HTTPErr (status : Z) (text : option string)
| DecodeErr | DialErr (url : string).

Section api.
Context {S Client : Type} (serve : S → http_request → S * http_response).
Context (JoinPath : string → list string → option string) (valid_url : string → bool) (Dial : string → option Client).

Definition sendRequest (cfg : Config) (s : S) (method path : string) (request : payload)
    : S * outcome tenderly_err Fork :=
  if negb (valid_url path) then (s, Fail (RequestErr method path))
  else
    let '(s, resp) := serve s (mkHttp method path "application/json" (APIKey cfg) request) in
    (s, match resp with
        | NoResponse => Fail DoErr
        | Response status text decoded =>
            if negb (status =? 200) then Fail (HTTPErr status text)
            else match decoded with None => Fail DecodeErr | Some fork => Ret fork end
        end).

Definition forks_path (cfg : Config) (slug : string) (more : list string) : option string :=
  JoinPath (APIURL cfg) (["/api/v2/project"; slug; "forks"]%string ++ more).

Definition NewFork (cfg : Config) (s : S) (params : NewForkParams) : S * outcome tenderly_err Fork :=
  match forks_path cfg (ProjectSlug params) [] with
  | None => (s, Fail JoinErr)
  | Some path => sendRequest cfg s "POST" path
      (ForkPayload (p_Name params) (p_Description params) (p_NetworkID params) (p_BlockNumber params))
  end.

(** The decoded response is not looked at, but it must decode. *)
Definition DeleteFork (cfg : Config) (s : S) (projectSlug forkID : string) : S * outcome tenderly_err () :=
  match forks_path cfg projectSlug [forkID] with
  | None => (s, Fail JoinErr)
  | Some path => let '(s, r) := sendRequest cfg s "DELETE" path NoPayload in (s, _ ← r; Ret ())
  end.

(** The client, its cleanup and the fork. *)
Definition NewForkClient (cfg : Config) (s : S) (params : NewForkParams)
    : S * outcome tenderly_err (Client * (S → S * outcome tenderly_err ()) * Fork) :=
  let '(s, fork) := NewFork cfg s params in
  (s, fork ← fork;
      match Dial (NodeURL fork) with
      | None => Fail (DialErr (NodeURL fork))
      | Some client => Ret (client, λ s, DeleteFork cfg s (ProjectSlug params) (ID fork), fork)
      end).
End api.

(** The forks that exist on a server: a POST that succeeds creates the fork it answers
    with, a DELETE that succeeds removes one, nothing else changes them. *)
Class Server (S : Type) (serve : S → http_request → S * http_response)
    (JoinPath : string → list string → option string) := {
  forks : S → list (string * string);    (* project and ID *)
  created : ∀ s cfg slug path p f text, forks_path JoinPath cfg slug [] = Some path →
    (serve s (mkHttp "POST" path "application/json" (APIKey cfg) p)).2 = Response 200 text (Some f) →
    forks (serve s (mkHttp "POST" path "application/json" (APIKey cfg) p)).1 = forks s ++ [(slug, ID f)];
  deleted : ∀ s cfg slug id path f text, forks_path JoinPath cfg slug [id] = Some path →
    (serve s (mkHttp "DELETE" path "application/json" (APIKey cfg) NoPayload)).2 = Response 200 text (Some f) →
    forks (serve s (mkHttp "DELETE" path "application/json" (APIKey cfg) NoPayload)).1
    = filter (λ x, x ≠ (slug, id)) (forks s);
}.

Section lifecycle.
Context {S Client : Type} `{Server S serve JoinPath} (valid_url : string → bool) (Dial : string → option Client).

Lemma sendRequest_Ret cfg s method path p f s' :
  sendRequest serve valid_url cfg s method path p = (s', Ret f) → ∃ text,
  s' = (serve s (mkHttp method path "application/json" (APIKey cfg) p)).1 ∧
  (serve s (mkHttp method path "application/json" (APIKey cfg) p)).2 = Response 200 text (Some f).
Proof.
  unfold sendRequest. destruct (valid_url path); simpl; [|done].
  destruct (serve s _) as [s1 [|status text [f'|]]]; simpl; [done| |by destruct (status =? 200)].
  destruct (Z.eqb_spec status 200) as [->|]; simpl; [|done]. intros [= <- <-]. by eexists.
Qed.

Lemma NewFork_created cfg s params f s' :
  NewFork serve JoinPath valid_url cfg s params = (s', Ret f) → forks s' = forks s ++ [(ProjectSlug params, ID f)].
Proof.
  unfold NewFork. destruct (forks_path _ _ _ _) as [path|] eqn:Ep; [|done].
  intros (text & -> & Hr)%sendRequest_Ret. by eapply created.
Qed.

Lemma DeleteFork_deleted cfg s slug id s' :
  DeleteFork serve JoinPath valid_url cfg s slug id = (s', Ret ()) → forks s' = filter (λ x, x ≠ (slug, id)) (forks s).
Proof.
  unfold DeleteFork. destruct (forks_path _ _ _ _) as [path|] eqn:Ep; [|done].
  destruct (sendRequest _ _ _ _ _ _ _) as [s1 [f|e|]] eqn:E; simpl; [|done..]. intros [= <-].
  apply sendRequest_Ret in E as (text & -> & Hr). by eapply deleted.
Qed.
End lifecycle.

(** A client comes with a new fork and a cleanup that, when it succeeds, removes that
    fork and leaves the others of before; but when the node of the fork cannot be
    dialled, the fork exists and nothing to remove it is returned. *)
Theorem NewForkClient_lifecycle {S Client} `{Server S serve JoinPath} valid_url (Dial : string → option Client)
    cfg s params s' r :
  NewForkClient serve JoinPath valid_url Dial cfg s params = (s', r) →
  match r with
  | Ret (client, cleanup, fork) => Dial (NodeURL fork) = Some client ∧
      forks s' = forks s ++ [(ProjectSlug params, ID fork)] ∧
      ∀ t t', cleanup t = (t', Ret ()) → forks t' = filter (λ x, x ≠ (ProjectSlug params, ID fork)) (forks t)
  | Fail (DialErr url) => Dial url = None ∧ ∃ id, forks s' = forks s ++ [(ProjectSlug params, id)]
  | Fail e => NewFork serve JoinPath valid_url cfg s params = (s', Fail e)
  | Panic => False
  end.
Proof.
  unfold NewForkClient. destruct (NewFork serve JoinPath valid_url cfg s params) as [s1 [f|e|]] eqn:E; simpl.
  - pose proof (NewFork_created _ _ _ _ _ _ E) as Hf.
    destruct (Dial (NodeURL f)) as [client|] eqn:Ed; intros [= <- <-].
    + split_and!; [done|done|]. intros t t' Ht. by eapply DeleteFork_deleted.
    + split; [done|]. by exists (ID f).
  - intros [= <- <-]. unfold NewFork in E. destruct e; try done.
    destruct (forks_path _ _ _ _); [|done]. unfold sendRequest in E.
    destruct (negb _); [done|]. destruct (serve s _) as [? []]; [done|]. by repeat case_match.
  - unfold NewFork in E. destruct (forks_path _ _ _ _); [|done]. unfold sendRequest in E.
    destruct (negb _); [done|]. destruct (serve s _) as [? []]; [done|]. by repeat case_match.
Qed.

(** ** Example: a server with one project, whose forks are numbered by their length. *)

Definition toy_join (base : string) (elements : list string) : option string :=
  match elements with
  | [_; slug; _] => if decide (slug = "p"%string) then Some "p"%string else None
  | [_; slug; _; id] => if decide (slug = "p"%string) then Some ("p/" +:+ id) else None
  | _ => None
  end.

Definition toy_fork (id : string) : Fork := mkFork id "" "" "1" "2" "3" [] ("node/" +:+ id).

Definition toy_serve (s : list (string * string)) (req : http_request) : list (string * string) * http_response :=
  if decide (method req = "POST"%string) then
    let f := toy_fork (String.concat "" (replicate (length s) "i"%string)) in
    (s ++ [("p"%string, ID f)], Response 200 None (Some f))
  else match cut_prefix "p/" (path req) with
       | Some id => (filter (λ x, x ≠ ("p"%string, id)) s, Response 200 None (Some (toy_fork id)))
       | None => (s, Response 404 (Some "not found"%string) None)
       end.

#[local] Instance toy_server : Server (list (string * string)) toy_serve toy_join.
Proof.
  refine {| forks := λ s, s |}.
  - intros s cfg slug path p f text. unfold forks_path. simpl. case_decide as Hs; [|done]. subst slug.
    intros [= <-]. simpl. by intros [= _ <-].
  - intros s cfg slug id path f text. unfold forks_path. cbn [toy_join app]. case_decide as Hs; [|done]. subst slug.
    intros [= <-] _. unfold toy_serve. simpl method. simpl path. by rewrite cut_prefix_app.
Defined.

Definition toy_params : NewForkParams := mkParams "p" "name" "" 1 2.

(** A fork that can be dialled and deleted, and one that cannot be dialled and stays. *)
Lemma NewForkClient_lifecycle_witness :
  (NewForkClient toy_serve toy_join (λ _, true) (λ url, Some url) (mkConfig "k" apiURL) [("p", "x")]%string toy_params).1
  = [("p", "x"); ("p", "i")]%string ∧
  NewForkClient (Client:=string) toy_serve toy_join (λ _, true) (λ _, None) (mkConfig "k" apiURL) [] toy_params
  = ([("p", "")]%string, Fail (DialErr "node/")) ∧
  ∃ id, [("p", "")]%string = [] ++ [("p"%string, id)].
Proof.
  assert (NewForkClient (Client:=string) toy_serve toy_join (λ _, true) (λ _, None) (mkConfig "k" apiURL) [] toy_params
    = ([("p", "")]%string, Fail (DialErr "node/"))) as E by by vm_compute.
  split; [by vm_compute|]. split; [exact E|].
  exact (proj2 (NewForkClient_lifecycle _ _ _ _ _ _ _ E)).
Defined.
