(* ===== verification/Oauth.v ===== *)
(** * Oauth: OAuth2 tokens over HTTP ([go/oauthsrc/oauthsrc.go])

    [httpSource.Token], with the token of [go/firehose/firehose.go] as the value that
    responses are decoded into.  The pointer that [NewHTTP] is given is dereferenced,
    so that the state of a source is the value behind it.  [encoding/json] is modelled on
    objects: a field that is absent keeps its value. *)

From S2P Require Import Prelude GoStrings.
From stdpp Require Import strings.
Local Open Scope Z_scope.

Record Token := mkToken { AccessToken : string; TokenType : string; Expiry : Z }.

(** A type that JSON objects are decoded into and that converts to a token: decoding
    starts from a value, and an error may leave it changed. *)
Class Tokener (T J : Type) := {
  decode : J → T → T * bool;
  AsToken : T → Token;
}.

Inductive oauth_err := NewRequestErr | DoErr | StatusErr (status : Z) (body : string) | DecodeErr.

(** What the token URL answers: a status and a body, its text if it can be read and the
    JSON in it. *)
Inductive answer (J : Type) := NoRequest | NoResponse | Response (status : Z) (text : option string) (json : option J).
Arguments NoRequest {J}.
Arguments NoResponse {J}.
Arguments Response {J} status text json.

(** [src.empty] afterwards, and the token. *)
Definition httpSource_Token {T J} `{Tokener T J} (empty : T) (a : answer J) : T * outcome oauth_err Token :=
  match a with
  | NoRequest => (empty, Fail NewRequestErr)
  | NoResponse => (empty, Fail DoErr)
  | Response status text json =>
      if negb (status =? 200) then (empty, Fail (StatusErr status (default "[error reading response body]"%string text)))
      else match json with
           | None => (empty, Fail DecodeErr)
           | Some j => let '(raw, ok) := decode j empty in
                       (raw, if (ok : bool) then Ret (AsToken raw) else Fail DecodeErr)
           end
  end.

(** A source: where it asks, with which body, and the value that it decodes into. *)
Record httpSource (T : Type) := NewHTTP { method : string; tokenURL : string; body : string; empty : T }.
Arguments NewHTTP {T} method tokenURL body empty.
Arguments method {T}.
Arguments tokenURL {T}.
Arguments body {T}.
Arguments empty {T}.

(** [Token] on a source, [ask] being what is at the other end. *)
Definition Source_Token {T J} `{Tokener T J} (ask : string → string → string → answer J) (src : httpSource T)
    : httpSource T * outcome oauth_err Token :=
  let '(raw, r) := httpSource_Token (empty src) (ask (method src) (tokenURL src) (body src)) in
  (NewHTTP (method src) (tokenURL src) (body src) raw, r).

(** The answers of successive calls on one source. *)
Fixpoint tokens {T J} `{Tokener T J} (empty : T) (answers : list (answer J)) : list (outcome oauth_err Token) :=
  match answers with
  | [] => []
  | a :: answers => let '(empty, r) := httpSource_Token empty a in r :: tokens empty answers
  end.

(** ** The token of Firehose *)

Record dfuseToken := mkDfuse { Payload : string; ExpiresAt : Z }.

(** The members of a JSON object that the struct names. *)
Record dfuse_json := mkDfuseJSON { json_token : option string; json_expires_at : option Z }.

#[export] Instance dfuse_tokener : Tokener dfuseToken dfuse_json := {
  decode j t := (mkDfuse (default (Payload t) (json_token j)) (default (ExpiresAt t) (json_expires_at j)), true);
  AsToken t := mkToken (Payload t) "Bearer" (ExpiresAt t);
}.

Definition empty_dfuse : dfuseToken := mkDfuse "" 0.

(** What a new instance for every call would give. *)
Definition fresh_token {T J} `{Tokener T J} (empty : T) (a : answer J) : outcome oauth_err Token :=
  (httpSource_Token empty a).2.

(** A source is as good as one with a new instance while every answer that decodes has
    all members; an answer without one gets what an earlier answer had. *)
Lemma tokens_fresh (answers : list (answer dfuse_json)) t :
  Forall (λ a, match a with
    | Response 200 _ (Some j) => is_Some (json_token j) ∧ is_Some (json_expires_at j)
    | _ => True
    end) answers →
  tokens t answers = fresh_token empty_dfuse <$> answers.
Proof.
  revert t. induction answers as [|a answers IH]; intros t Ha; [done|].
  apply Forall_cons in Ha as [Ha Hs]. cbn [tokens fmap list_fmap].
  assert (∃ t', httpSource_Token t a = (t', fresh_token empty_dfuse a)) as [t' ->].
  { unfold fresh_token, httpSource_Token. destruct a as [| |status text [j|]]; try by eexists.
    - destruct (Z.eqb_spec status 200) as [->|]; simpl; [|by eexists].
      destruct Ha as [[x ->] [y ->]]. by eexists.
    - destruct (negb _); by eexists. }
  by rewrite (IH t' Hs).
Qed.

(** A source reuses the value that it decodes into: as long as every decoded answer has
    all its members the tokens are those of their answers, but a later answer that lacks
    one is completed with an earlier one's, expired tokens included. *)
Theorem Token_reuses (answers : list (answer dfuse_json)) token expiry text :
  Forall (λ a, match a with
    | Response 200 _ (Some j) => is_Some (json_token j) ∧ is_Some (json_expires_at j)
    | _ => True
    end) answers →
  tokens empty_dfuse answers = fresh_token empty_dfuse <$> answers ∧
  tokens empty_dfuse [Response 200 text (Some (mkDfuseJSON (Some token) (Some expiry)));
    Response 200 text (Some (mkDfuseJSON None (Some (expiry + 3600))));
    Response 200 text (Some (mkDfuseJSON None None))]
  = [Ret (mkToken token "Bearer" expiry); Ret (mkToken token "Bearer" (expiry + 3600));
     Ret (mkToken token "Bearer" (expiry + 3600))].
Proof. intros Ha. split; [by apply tokens_fresh|done]. Qed.

Lemma Token_reuses_witness :
  let a := Response 200 None (Some (mkDfuseJSON (Some "t"%string) (Some 5))) in
  tokens empty_dfuse [a; NoResponse; a] = [Ret (mkToken "t" "Bearer" 5); Fail DoErr; Ret (mkToken "t" "Bearer" 5)].
Proof.
  intros a. refine (proj1 (Token_reuses [a; NoResponse; a] "t" 5 None _)). by repeat constructor; try (by eexists).
Defined.
