(* ===== verification/Protovalid.v ===== *)
(** * Protovalid: validating interceptors ([go/protovalid/protovalid.go])

    The interceptors of a gRPC server and client around a handler; whether a message has
    the generated methods and is valid is given with it. *)

From S2P Require Import Prelude.
From stdpp Require Import strings.

(** A message: [ValidateAll]'s error when it has the methods, [None] when it has not. *)
Class Message (M : Type) := ValidateAll : M → option (option string).

Inductive grpc_code := InvalidArgument | Internal.

(** An error of the interceptors (with the format string that [status.Errorf] is given), or
    one of the handler, passed on. *)
Inductive grpc_err (E : Type) := Status (code : grpc_code) (msg : string) | Handler (e : E).
Arguments Status {E} code msg.
Arguments Handler {E} e.

Section interceptors.
Context {M E : Type} `{Message M}.

Definition validate (m : M) (errCode : grpc_code) : option (grpc_err E) :=
  match ValidateAll m with
  | None => None
  | Some None => None
  | Some (Some err) => Some (Status errCode err)
  end.

(** The handler acts on a state, which shows whether it was called. *)
Definition UnaryServerInterceptor {S} (s : S) (req : M) (h : S → M → S * outcome E M) : S * outcome (grpc_err E) M :=
  match validate req InvalidArgument with
  | Some err => (s, Fail err)
  | None =>
      match h s req with
      | (s, Ret reply) => (s, match validate reply Internal with Some err => Fail err | None => Ret reply end)
      | (s, Fail e) => (s, Fail (Handler e))
      | (s, Panic) => (s, Panic)
      end
  end.

Definition UnaryClientInterceptor {S} (s : S) (req : M) (invoker : S → M → S * outcome E M)
    : S * outcome (grpc_err E) M :=
  match validate req InvalidArgument with
  | Some err => (s, Fail err)
  | None => let '(s, r) := invoker s req in (s, map_err Handler r)
  end.

Definition valid (m : M) : Prop := ∀ e, ValidateAll m ≠ Some (Some e).

Lemma validate_None m c : validate m c = None ↔ valid m.
Proof. unfold validate, valid. destruct (ValidateAll m) as [[]|]; naive_solver. Qed.

Lemma validate_Some m c e : validate m c = Some e → ¬ valid m ∧ ∃ msg, e = Status c msg.
Proof. unfold validate, valid. destruct (ValidateAll m) as [[]|]; naive_solver. Qed.
End interceptors.

(** Behind the server's interceptor a handler sees valid requests only, and before it a
    caller sees valid replies only: an invalid request is rejected as the caller's fault
    and never handled, an invalid reply is reported as the server's after it was handled,
    and errors of the handler pass.  A client with its interceptor whose requests are
    handled cannot tell the server's check of them. *)
Theorem interceptors_correct {M E S} `{Message M} (s : S) (req : M) (h : S → M → S * outcome E M) :
  match UnaryServerInterceptor s req h with
  | (s', Ret reply) => valid req ∧ valid reply ∧ h s req = (s', Ret reply)
  | (s', Fail (Status InvalidArgument _)) => ¬ valid req ∧ s' = s
  | (s', Fail (Status Internal _)) => valid req ∧ ∃ reply, ¬ valid reply ∧ h s req = (s', Ret reply)
  | (s', Fail (Handler e)) => valid req ∧ h s req = (s', Fail e)
  | (s', Panic) => valid req ∧ h s req = (s', Panic)
  end ∧
  (valid req → UnaryClientInterceptor s req h = (let '(s', r) := h s req in (s', map_err Handler r))) ∧
  (¬ valid req → UnaryClientInterceptor s req h = UnaryServerInterceptor s req h).
Proof.
  split_and!.
  - unfold UnaryServerInterceptor. destruct (validate req InvalidArgument) as [e|] eqn:Er.
    { apply validate_Some in Er as (? & msg & ->). done. }
    apply validate_None in Er. destruct (h s req) as [s' [reply|e|]]; [|done..].
    destruct (validate reply Internal) as [e|] eqn:Ep; [|apply validate_None in Ep; done].
    apply validate_Some in Ep as (? & msg & ->). split; [done|]. by exists reply.
  - intros Hv. unfold UnaryClientInterceptor. by rewrite (proj2 (validate_None req InvalidArgument) Hv).
  - intros Hv. unfold UnaryClientInterceptor, UnaryServerInterceptor.
    destruct (validate req InvalidArgument) eqn:Ev; [done|]. by apply validate_None in Ev.
Qed.

(** Numbers up to ten; doubling makes some invalid. *)
#[local] Instance toy_message : Message nat := λ n, Some (if (n <=? 10)%nat then None else Some "too large"%string).

Example server_checks :
  (λ n, (UnaryServerInterceptor (E:=unit) 0 n (λ calls n, (S calls, Ret (n + n))))) <$> [4; 8; 12]
  = [(1, Ret 8); (1, Fail (Status Internal "too large")); (0, Fail (Status InvalidArgument "too large"))].
Proof. by vm_compute. Qed.
