(* ===== verification/Demo.v ===== *)
(** * Demo: the demonstration server ([demo/server/server.go])

    A stream of numbers and an echo through a contract and an interceptor.  The contract,
    the stream and the other handlers are parameters. *)

From S2P Require Import Prelude.
From stdpp Require Import strings.
Local Open Scope Z_scope.

Inductive demo_err (E : Type) := InvalidArgument (end_ : Z) | SendErr (e : E) | EchoErr (e : E) | OtherErr (e : E).
Arguments InvalidArgument {E} end_.
Arguments SendErr {E} e.
Arguments EchoErr {E} e.
Arguments OtherErr {E} e.

Section demo.
Context {E : Type}.

(** The numbers that were sent, and the error of the call.  [send n] is the error of sending
    [n]; the counter is a uint32, and the fuel, the distance to the end, bounds the loop:
    [None] when it runs out. *)
Fixpoint count_loop (fuel : nat) (end_ : Z) (send : Z → option E) (i : Z) (sent : list Z)
    : option (list Z * option (demo_err E)) :=
  if i <? end_ then
    match fuel with
    | O => None
    | S fuel => match send i with
                | Some e => Some (sent, Some (SendErr e))
                | None => count_loop fuel end_ send (u32 (i + 1)) (sent ++ [i])
                end
    end
  else Some (sent, None).

Definition Count (send : Z → option E) (End_ : Z) : option (list Z * option (demo_err E)) :=
  if 16 <? End_ then Some ([], Some (InvalidArgument End_)) else count_loop (Z.to_nat End_) End_ send 0 [].

(** [Echo] over the contract's answer. *)
Definition Echo (contract : string → string + E) (Payload : string) : outcome (demo_err E) string :=
  match contract Payload with
  | inr e => Fail (EchoErr e)
  | inl resp => Ret ("Go: " +:+ resp)%string
  end.

(** Responses: of [Echo], or of another method. *)
Inductive response (R : Type) := EchoResponse (Payload : string) | OtherResponse (r : R).
#[global] Arguments EchoResponse {R} Payload.
#[global] Arguments OtherResponse {R} r.

Definition intercept {Q R} (handler : Q → outcome (demo_err E) (response R)) (req : Q)
    : outcome (demo_err E) (response R) :=
  resp ← handler req;
  Ret match resp with EchoResponse p => EchoResponse ("gRPC: " +:+ p)%string | other => other end.

(** The served method. *)
Definition served_echo {R} (contract : string → string + E) : string → outcome (demo_err E) (response R) :=
  intercept (λ p, EchoResponse <$> Echo contract p).

Lemma count_loop_spec end_ send fuel i sent : 0 ≤ i → end_ ≤ 16 → end_ - i ≤ Z.of_nat fuel →
  ∃ n r, count_loop fuel end_ send i sent = Some (sent ++ seqZ i (Z.of_nat n), r) ∧
    (∀ k, i ≤ k < i + Z.of_nat n → send k = None) ∧
    match r with
    | None => Z.of_nat n = Z.max 0 (end_ - i)
    | Some e => i + Z.of_nat n < end_ ∧ ∃ x, e = SendErr x ∧ send (i + Z.of_nat n) = Some x
    end.
Proof.
  intros Hi He. revert i sent Hi. induction fuel as [|fuel IH]; intros i sent Hi Hf; cbn [count_loop];
    destruct (Z.ltb_spec i end_); [lia| | |].
  1, 3: exists 0%nat, None; rewrite app_nil_r; split; [done|split; lia].
  destruct (send i) as [e|] eqn:Es.
  - exists 0%nat, (Some (SendErr e)). rewrite app_nil_r, Z.add_0_r. split; [done|]. split; [lia|]. split; [lia|by exists e].
  - rewrite uwrap_small by lia. destruct (IH (i + 1) (sent ++ [i])) as (n & r & -> & Hk & Hr); [lia..|].
    exists (S n), r. split; [|split].
    + rewrite <-app_assoc, (seqZ_cons i (Z.of_nat (S n))) by lia.
      by replace (Z.pred (Z.of_nat (S n))) with (Z.of_nat n) by lia.
    + intros k Hki. destruct (decide (k = i)) as [->|]; [done|apply Hk; lia].
    + replace (i + Z.of_nat (S n)) with (i + 1 + Z.of_nat n) by lia. destruct r; [exact Hr|lia].
Qed.
End demo.

(** The stream counts from zero: up to the end of the request, which may not exceed 16, or
    up to the first number that cannot be sent.  An echo comes back with both prefixes. *)
Theorem Count_correct {E} (send : Z → option E) End_ contract payload : 0 ≤ End_ < 2 ^ 32 →
  (∃ n r, Count send End_ = Some (seqZ 0 (Z.of_nat n), r) ∧ (∀ k, 0 ≤ k < Z.of_nat n → send k = None) ∧
   match r with
   | None => Z.of_nat n = End_ ∧ End_ ≤ 16
   | Some (InvalidArgument m) => m = End_ ∧ 16 < End_ ∧ n = 0%nat
   | Some (SendErr e) => Z.of_nat n < End_ ≤ 16 ∧ send (Z.of_nat n) = Some e
   | Some _ => False
   end) ∧
  (∀ resp, contract payload = inl resp →
    served_echo contract payload = Ret (EchoResponse (R:=unit) ("gRPC: Go: " +:+ resp)%string)) ∧
  ∀ e, contract payload = inr e → served_echo (R:=unit) contract payload = Fail (EchoErr (E:=E) e).
Proof.
  intros He. split; [|by unfold served_echo, intercept, Echo; split; intros ? ->].
  unfold Count. destruct (Z.ltb_spec 16 End_) as [H16|H16].
  - exists 0%nat, (Some (InvalidArgument End_)). split; [done|]. split; [lia|done].
  - destruct (count_loop_spec End_ send (Z.to_nat End_) 0 []) as (n & r & -> & Hk & Hr); [lia..|].
    exists n, r. split; [done|split; [done|]]. destruct r as [e|]; [|lia].
    destruct Hr as (Hlt & x & -> & Hx). split; [lia|done].
Qed.

Example counting : Count (λ n, if n =? 3 then Some "gone"%string else None) 5
  = Some ([0; 1; 2], Some (SendErr "gone"%string)).
Proof. by vm_compute. Qed.
