(* ===== verification/Gnosis.v ===== *)
(** * Gnosis: transfers of Gnosis Safe's CSV app ([go/gnosis/csv.go])

    The constructors and the addresses that print as nothing.  A [decimal.Decimal] is a
    coefficient and an exponent of ten. *)

From S2P Require Import Prelude Eth.
From stdpp Require Import strings.
Local Open Scope Z_scope.

Definition ERC721 : string := "nft".
Definition ERC1155 : string := "nft".
Definition ERC20 : string := "erc20".
Definition ETH : string := "native".

Record Decimal := mkDecimal { coef : Z; exp : Z }.
Definition NewFromInt32 (n : Z) : Decimal := mkDecimal n 0.

Section gnosis.
Context {A : Type} `{EqDecision A, EthAddress A}.

Definition zero_address : A := HexToAddress EmptyString.

(** [EmptyAddress.String]. *)
Definition EmptyAddress_String (a : A) : string := if decide (a = zero_address) then EmptyString else Hex a.

Record GnosisCSVTransfer := mkTransfer {
  TokenType : string; TokenAddress : A; Receiver : A; Amount : Decimal; ID : Z
}.

Definition NewERC1155Transfer (collection : A) (id amount : Z) (receiver : A) : GnosisCSVTransfer :=
  mkTransfer ERC721 collection receiver (NewFromInt32 (i32 amount)) id.
Definition NewERC721Transfer (collection : A) (id : Z) (receiver : A) : GnosisCSVTransfer :=
  mkTransfer ERC721 collection receiver (mkDecimal 0 0) id.
Definition NewERC20Transfer (coin : A) (amount : Decimal) (receiver : A) : GnosisCSVTransfer :=
  mkTransfer ERC20 coin receiver amount 0.
Definition NewETHTransfer (amount : Decimal) (receiver : A) : GnosisCSVTransfer :=
  mkTransfer ETH zero_address receiver amount 0.
End gnosis.

(** An ERC1155 transfer has the amount it was given exactly when that has 31 bits; from
    2^31 on the amount in the CSV is negative. *)
Theorem ERC1155_amount {A} `{EqDecision A, EthAddress A} (collection receiver : A) id amount : 0 <= amount < 2 ^ 32 →
  let a := Amount (NewERC1155Transfer collection id amount receiver) in
  exp a = 0 ∧ (coef a = amount ↔ amount < 2 ^ 31) ∧ (2 ^ 31 <= amount → coef a = amount - 2 ^ 32 ∧ coef a < 0).
Proof.
  intros Ha. simpl. unfold swrap. change (32 - 1) with 31. split; [done|].
  destruct (decide (amount < 2 ^ 31)) as [Hl|Hl].
  - rewrite Z.mod_small by lia. lia.
  - assert ((amount + 2 ^ 31) mod 2 ^ 32 = amount + 2 ^ 31 - 2 ^ 32) as ->; [|lia].
    symmetry. apply (Z.mod_unique_pos _ _ 1); lia.
Qed.

#[local] Instance toy_address : EthAddress string := { IsHexAddress _ := true; HexToAddress s := s; Hex s := s }.

Lemma ERC1155_amount_witness :
  coef (Amount (NewERC1155Transfer "a" 1 (2 ^ 32 - 1) "b")) = 2 ^ 32 - 1 - 2 ^ 32 ∧ (-1 < 0).
Proof.
  refine (proj2 (proj2 (ERC1155_amount "a"%string "b"%string 1 (2 ^ 32 - 1) _)) _); lia.
Defined.
