(* ===== verification/Discord.v ===== *)
(** * Discord: reactions seen by a bot ([go/discordbot])

    The callbacks of [reactions.go] over the events of a session, with the error handler
    of [discordbot.go], and the goroutines of its [Connect] as a step relation.  The
    Discord session is a parameter. *)

From S2P Require Import Prelude.
From stdpp Require Import strings.

(** What the code reads of discordgo's events and messages; pointers may be nil. *)
Record MessageReaction (U : Type) := mkReaction {
  ChannelID : string; MessageID : string; UserID : string; emoji_APIName : string; Member : option U
}.
Arguments mkReaction {U} ChannelID MessageID UserID emoji_APIName Member.
Arguments ChannelID {U}.
Arguments MessageID {U}.
Arguments UserID {U}.
Arguments emoji_APIName {U}.
Arguments Member {U}.

Inductive bot_err (E : Type) := ChannelMessageErr (channel message : string) | UserErr (id : string) | CallbackErr (e : E).
Arguments ChannelMessageErr {E} channel message.
Arguments UserErr {E} id.
Arguments CallbackErr {E} e.

(** [ChannelMessage] gives the author of a message, who is absent for some. *)
Class Session (U : Type) := {
  ChannelMessage : string → string → option (option U);
  session_User : string → option U;
}.

Section reactions.
Context {U E : Type} `{Session U}.

Record Reaction := mkReactionOf { message_reaction : MessageReaction U; Giver : U; Receiver : option U }.

(** What a callback does to the world [S] of the bot, and its error. *)
Definition callback (S : Type) : Type := S → Reaction → S * option E.

Definition shouldProcessEmoji (apiName name : string) : bool :=
  bool_decide (name = EmptyString) || bool_decide (name = apiName).

(** The errors that the handler got, the last one at the end; [None] is a nil error.
    Without a handler errors are only logged. *)
Definition handleErr (has_handler : bool) (handled : list (bot_err E)) (err : option (bot_err E)) : list (bot_err E) :=
  match err with
  | None => handled
  | Some e => if has_handler then handled ++ [e] else handled
  end.

Section bot.
Context {S : Type} (has_handler : bool).

(** The handler that [OnEmojiAdded] registers; a reaction outside a guild has no member,
    and the goroutine panics. *)
Definition on_added (name : string) (cb : callback S) (s : S) (handled : list (bot_err E))
    (r : MessageReaction U) : option (S * list (bot_err E)) :=
  if negb (shouldProcessEmoji (emoji_APIName r) name) then Some (s, handled)
  else match ChannelMessage (ChannelID r) (MessageID r) with
       | None => Some (s, handleErr has_handler handled (Some (ChannelMessageErr (ChannelID r) (MessageID r))))
       | Some author =>
           giver ← Member r;
           let '(s, err) := cb s (mkReactionOf r giver author) in
           Some (s, handleErr has_handler handled (CallbackErr <$> err))
       end.

Definition on_removed (name : string) (cb : callback S) (s : S) (handled : list (bot_err E))
    (r : MessageReaction U) : option (S * list (bot_err E)) :=
  if negb (shouldProcessEmoji (emoji_APIName r) name) then Some (s, handled)
  else match ChannelMessage (ChannelID r) (MessageID r) with
       | None => Some (s, handleErr has_handler handled (Some (ChannelMessageErr (ChannelID r) (MessageID r))))
       | Some author =>
           match session_User (UserID r) with
           | None => Some (s, handleErr has_handler handled (Some (UserErr (UserID r))))
           | Some giver =>
               let '(s, err) := cb s (mkReactionOf r giver author) in
               Some (s, handleErr has_handler handled (CallbackErr <$> err))
           end
       end.
End bot.

(** The reactions that a callback should see, or the error of looking them up. *)
Definition resolved (giver : MessageReaction U → option U) (r : MessageReaction U) : bot_err E + Reaction :=
  match ChannelMessage (ChannelID r) (MessageID r) with
  | None => inl (ChannelMessageErr (ChannelID r) (MessageID r))
  | Some author => match giver r with None => inl (UserErr (UserID r)) | Some g => inr (mkReactionOf r g author) end
  end.
End reactions.
Arguments Reaction : clear implicits.

(** A callback that records what it sees. *)
Definition recorder {U E} (fails : Reaction U → option E) : callback (E:=E) (list (Reaction U)) :=
  λ seen r, (seen ++ [r], fails r).

(** The events that match a name. *)
Definition matches {U} (name : string) (r : MessageReaction U) : Prop := name = EmptyString ∨ name = emoji_APIName r.

#[export] Instance matches_dec {U} name (r : MessageReaction U) : Decision (matches name r).
Proof. unfold matches. apply _. Defined.

Section run.
Context {U E : Type} `{Session U} (name : string) (fails : Reaction U → option E) (giver : MessageReaction U → option U).
Context (step : list (Reaction U) → list (bot_err E) → MessageReaction U → option (list (Reaction U) * list (bot_err E))).

Definition run_events (rs : list (MessageReaction U)) : option (list (Reaction U) * list (bot_err E)) :=
  foldl (λ st r, '(s, h) ← st; step s h r) (Some ([], [])) rs.

Definition seen (rs : list (MessageReaction U)) : list (Reaction U) :=
  omap (λ r, match resolved (E:=E) giver r with inr x => Some x | inl _ => None end) (filter (matches name) rs).

Definition reported (rs : list (MessageReaction U)) : list (bot_err E) :=
  omap (λ r, match resolved giver r with inr x => CallbackErr <$> fails x | inl e => Some e end) (filter (matches name) rs).

(** One event, as both handlers treat it. *)
Definition treats (r : MessageReaction U) : Prop := ∀ s h, step s h r =
  Some (if decide (matches name r) then
          match resolved giver r with
          | inr x => (s ++ [x], h ++ option_list (CallbackErr <$> fails x))
          | inl e => (s, h ++ [e])
          end
        else (s, h)).

Lemma run_events_spec rs : Forall treats rs → run_events rs = Some (seen rs, reported rs).
Proof.
  intros Hrs. unfold run_events.
  assert (∀ s h, foldl (λ st r, '(s, h) ← st; step s h r) (Some (s, h)) rs = Some (s ++ seen rs, h ++ reported rs)) as ->; [|done].
  induction Hrs as [|r rs Hr _ IH]; intros s h; [by rewrite !app_nil_r|].
  cbn [foldl mbind option_bind]. rewrite Hr. unfold seen, reported. rewrite !filter_cons.
  destruct (decide (matches name r)); [|apply IH]. simpl.
  destruct (resolved giver r) as [e|x]; rewrite IH; fold (seen rs) (reported rs); simpl; [by rewrite <-app_assoc|].
  destruct (fails x); simpl; by rewrite <-?app_assoc, ?app_nil_r.
Qed.
End run.

Lemma shouldProcessEmoji_matches {U} name (r : MessageReaction U) :
  shouldProcessEmoji (emoji_APIName r) name = bool_decide (matches name r).
Proof. unfold shouldProcessEmoji, matches. repeat case_bool_decide; naive_solver. Qed.

(** A callback for an emoji sees, in order, the reactions with that emoji, every one for
    the empty name, whose message and user are found, with the one who reacted and the
    author; each failed lookup and each error of the callback reaches the error handler
    once, in order.  A reaction added outside a guild ends the bot. *)
Theorem reactions_correct {U E} `{Session U} name (fails : Reaction U → option E) (rs : list (MessageReaction U)) :
  let by_id r := session_User (UserID r) in
  run_events (on_removed true name (recorder fails)) rs
  = Some (seen (E:=E) name by_id rs, reported name fails by_id rs) ∧
  (Forall (λ r, is_Some (Member r)) rs →
    run_events (on_added true name (recorder fails)) rs
    = Some (seen (E:=E) name Member rs, reported name fails Member rs)) ∧
  ∀ r s h has, matches name r → Member r = None → is_Some (ChannelMessage (U:=U) (ChannelID r) (MessageID r)) →
    on_added has name (recorder fails) s h r = None.
Proof.
  intros by_id. split_and!.
  - apply run_events_spec, Forall_true. intros r s h. unfold on_removed, resolved.
    rewrite shouldProcessEmoji_matches. case_bool_decide as Hm; [rewrite decide_True by done|by rewrite decide_False by done].
    simpl. destruct (ChannelMessage _ _) as [a|]; [|done]. unfold by_id. destruct (session_User (UserID r)) as [g|]; [|done].
    simpl. by destruct (fails _); simpl; rewrite ?app_nil_r.
  - intros Hrs. apply run_events_spec. eapply Forall_impl; [exact Hrs|]. intros r [g Hg] s h. unfold on_added, resolved.
    rewrite shouldProcessEmoji_matches. case_bool_decide as Hm; [rewrite decide_True by done|by rewrite decide_False by done].
    simpl. destruct (ChannelMessage _ _) as [a|]; [|done]. rewrite Hg.
    simpl. by destruct (fails _); simpl; rewrite ?app_nil_r.
  - intros r s h has Hm Hn [a Ha]. unfold on_added. rewrite shouldProcessEmoji_matches, bool_decide_eq_true_2 by done.
    simpl. by rewrite Ha, Hn.
Qed.

(** ** Connecting

    [Connect] waits for the Ready event, which a callback of the session hands over on an
    unbuffered channel.  The calls of discordgo and the cancellation of the context are
    steps of the environment; the event, of any type [R], may come at any time once the
    callback is registered. *)

(** The callback: not called yet, at its [select], or after it closed the channel. *)
Inductive callback_pc (R : Type) := NotCalled | Offering (r : R) | Ended.
Arguments NotCalled {R}.
Arguments Offering {R} r.
Arguments Ended {R}.

Inductive connect_err := NewErr | OpenErr | ContextErr.

(** [Connect]: in [Open], at its [select], or returned; a receive from the closed channel
    yields the nil event. *)
Inductive connect_pc (R : Type) := Opening | Awaiting | Connected (r : option R) | Refused (e : connect_err).
Arguments Opening {R}.
Arguments Awaiting {R}.
Arguments Connected {R} r.
Arguments Refused {R} e.

Record connecting (R : Type) := mkConnecting {
  ctx_done : bool; ready_closed : bool; session_open : bool; callback_at : callback_pc R; connect_at : connect_pc R
}.
Arguments mkConnecting {R} ctx_done ready_closed session_open callback_at connect_at.
Arguments ctx_done {R}.
Arguments ready_closed {R}.
Arguments session_open {R}.
Arguments callback_at {R}.
Arguments connect_at {R}.

(** Before the callback is registered only [discord.New] can fail. *)
Definition Connect_start {R} (new_ok : bool) : connecting R :=
  mkConnecting false false false NotCalled (if new_ok then Opening else Refused NewErr).

Section connect.
Context {R : Type}.
Implicit Type c : connecting R.

(** The context is cancelled, the event comes, [Open] succeeds or fails. *)
Inductive outside : connecting R → connecting R → Prop :=
| ctx_cancel c : ctx_done c = false →
    outside c (mkConnecting true (ready_closed c) (session_open c) (callback_at c) (connect_at c))
| ready_event c r : callback_at c = NotCalled → connect_at c ≠ Refused NewErr →
    outside c (mkConnecting (ctx_done c) (ready_closed c) (session_open c) (Offering r) (connect_at c))
| open_ok c : connect_at c = Opening →
    outside c (mkConnecting (ctx_done c) (ready_closed c) true (callback_at c) Awaiting)
| open_err c : connect_at c = Opening →
    outside c (mkConnecting (ctx_done c) (ready_closed c) false (callback_at c) (Refused OpenErr)).

(** The two [select] statements, whose sending and receiving cases meet. *)
Inductive selects : connecting R → connecting R → Prop :=
| ready_sent c r : callback_at c = Offering r → connect_at c = Awaiting →
    selects c (mkConnecting (ctx_done c) true (session_open c) Ended (Connected (Some r)))
| callback_done c r : callback_at c = Offering r → ctx_done c = true →
    selects c (mkConnecting true true (session_open c) Ended (connect_at c))
| connect_done c : connect_at c = Awaiting → ctx_done c = true →
    selects c (mkConnecting true (ready_closed c) false (callback_at c) (Refused ContextErr))
| ready_nil c : connect_at c = Awaiting → ready_closed c = true →
    selects c (mkConnecting (ctx_done c) true (session_open c) (callback_at c) (Connected None)).

Definition connect_step c c' : Prop := outside c c' ∨ selects c c'.

(** What holds of [Connect] wherever it is. *)
Record connect_ok c : Prop := mkConnectOk {
  ok_closed : ready_closed c = match callback_at c with Ended => true | _ => false end;
  ok_session : session_open c = match connect_at c with Awaiting | Connected _ => true | _ => false end;
  ok_result : match connect_at c with
    | Connected (Some r) => ready_closed c = true
    | Connected None => ready_closed c = true ∧ ctx_done c = true
    | Refused ContextErr => ctx_done c = true
    | _ => ready_closed c = true → ctx_done c = true
    end;
}.

Lemma connect_start_ok b : connect_ok (Connect_start b).
Proof. by destruct b. Qed.

Lemma connect_step_ok c c' : connect_ok c → connect_step c c' → connect_ok c'.
Proof.
  intros [Hc Hs Hr] [Hst|Hst]; destruct Hst; destruct c as [d rc so cb co]; simpl in *; subst; split; simpl in *;
    repeat case_match; naive_solver.
Qed.

Lemma connect_reach_ok b c : rtc connect_step (Connect_start b) c → connect_ok c.
Proof.
  intros Hr. revert c Hr. apply rtc_ind_r; [apply connect_start_ok|].
  intros y z _ Hyz Hy. by apply (connect_step_ok y).
Qed.

(** Each step uses up something. *)
Definition connect_left c : nat :=
  (if ctx_done c then 0 else 1) +
  match callback_at c with NotCalled => 2 | Offering _ => 1 | Ended => 0 end +
  match connect_at c with Opening => 2 | Awaiting => 1 | _ => 0 end.

Lemma connect_terminates c : Acc (flip connect_step) c.
Proof.
  revert c. apply (measure_terminates connect_step connect_left). intros c c' Hst.
  unfold connect_left. destruct Hst as [Hst|Hst]; destruct Hst; simpl;
    repeat match goal with H : _ = _ |- _ => rewrite H end; lia.
Qed.
End connect.

(** C39. No run of [Connect] and its callback is endless, whatever the order of events.
    [Connect] returns a bot with the event, or an error, of discordgo or of the context, with
    the session closed; but when the context ends while the event is on offer it may also
    return a bot without event and without error, its session open.  Where neither [select]
    can proceed, either [Connect] has returned, or it waits, maybe for ever, for an event that
    has not come, its context alive.  A callback that is not done there is stuck at its send,
    which nobody receives any more, until the context ends. *)
Theorem Connect_correct {R} (c : connecting R) b : rtc connect_step (Connect_start b) c →
  Acc (flip connect_step) c ∧
  (match connect_at c with
   | Connected (Some r) => session_open c = true ∧ callback_at c = Ended
   | Connected None => session_open c = true ∧ callback_at c = Ended ∧ ctx_done c = true
   | Refused e => session_open c = false ∧ (e = ContextErr → ctx_done c = true)
   | Awaiting => session_open c = true
   | Opening => session_open c = false
   end) ∧
  ((∀ c', ¬ selects c c') →
    (connect_at c = Awaiting → callback_at c = NotCalled ∧ ctx_done c = false) ∧
    (∀ r, callback_at c = Offering r → ctx_done c = false ∧ connect_at c ≠ Awaiting)).
Proof.
  intros Hr. pose proof (connect_reach_ok b c Hr) as [Hc Hs Hn]. split; [apply connect_terminates|]. split.
  - destruct c as [d rc so [] [| |[r|]|[]]]; simpl in *; subst; by intuition congruence.
  - intros Hsel. split.
    + intros Ha. destruct (ctx_done c) eqn:Ed; [by destruct (Hsel _ (connect_done c Ha Ed))|].
      destruct (callback_at c) as [|r|] eqn:Ecb; [done| |].
      * by destruct (Hsel _ (ready_sent c r Ecb Ha)).
      * by destruct (Hsel _ (ready_nil c Ha Hc)).
    + intros r Hcb. split.
      * destruct (ctx_done c) eqn:Ed; [|done]. by destruct (Hsel _ (callback_done c r Hcb Ed)).
      * intros Ha. by destruct (Hsel _ (ready_sent c r Hcb Ha)).
Qed.

Definition nil_ready : connecting string := mkConnecting true true true Ended (Connected None).

(** The bot without event: the callback sees the end of the context first and closes the
    channel, from which [Connect] receives. *)
Lemma nil_ready_reached : rtc connect_step (Connect_start true) nil_ready.
Proof.
  eapply rtc_l; [by left; apply open_ok|]. eapply rtc_l; [left; apply (ready_event _ "r"%string); [done|discriminate]|].
  eapply rtc_l; [by left; apply ctx_cancel|]. eapply rtc_l; [by right; eapply callback_done|].
  eapply rtc_l; [by right; apply ready_nil|]. done.
Qed.

Lemma Connect_correct_witness : connect_at nil_ready = Connected None ∧
  session_open nil_ready = true ∧ callback_at nil_ready = Ended ∧ ctx_done nil_ready = true.
Proof. split; [done|]. exact (proj1 (proj2 (Connect_correct nil_ready true nil_ready_reached))). Defined.

(** ** Example *)

#[local] Instance toy_session : Session string := {
  ChannelMessage c m := if decide (m = "gone"%string) then None else Some (Some (c +:+ m)%string);
  session_User id := Some id;
}.

Definition toy_reaction (m emoji : string) (member : option string) : MessageReaction string := mkReaction "c" m "u" emoji member.

Lemma reactions_correct_witness :
  run_events (on_added true "x" (recorder (λ _, Some tt)))
    [toy_reaction "m" "x" (Some "g"); toy_reaction "m" "y" None; toy_reaction "gone" "x" (Some "g")]%string
  = Some ([mkReactionOf (toy_reaction "m" "x" (Some "g")) "g" (Some "cm")]%string,
          [CallbackErr tt; ChannelMessageErr "c" "gone"]) ∧
  on_added (E:=unit) true "x" (recorder (λ _, None)) [] [] (toy_reaction "m" "x" None) = None.
Proof.
  split; [by vm_compute|].
  refine (proj2 (proj2 (reactions_correct "x" (λ _, None : option unit) [])) (toy_reaction "m" "x" None) [] [] true _ _ _);
    [by right|done|by eexists].
Defined.
