(* ===== verification/Dialer.v ===== *)
(** * Dialer: nodes behind secrets ([go/eth/client.go])

    A [Dialer] and the flag that configures it share a secret, which is a cell of a
    store here.  The dialled clients are parameters. *)

From S2P Require Import Prelude GoStrings Secrets.
From stdpp Require Import gmap strings.

(** ** The flag *)

Definition DialerFlag : string := "dialer_eth_node_url".

(** A [flag.FlagSet] with the variables of its flags. *)
Record FlagSet := mkFlagSet { Parsed : bool; vars : gmap string Secret }.

Inductive dial_err := AlreadyParsed | FetchErr (url : string) (e : secret_err) | DialContextErr (url : string)
| UndefinedFlag (name : string) | FlagErr (name : string) (e : secret_err).

(** The name of the flag whose variable the dialer points to. *)
Record Dialer := mkDialer { nodeURL : string }.

(** A second flag of a name panics. *)
Definition NewDialerFromFlag (fs : FlagSet) (defaultNodeURL : option Secret) : outcome dial_err (FlagSet * Dialer) :=
  if Parsed fs then Fail AlreadyParsed
  else match vars fs !! DialerFlag with
       | Some _ => Panic
       | None => Ret (mkFlagSet (Parsed fs) (<[DialerFlag := default (mkSecret "" "") defaultNodeURL]> (vars fs)),
                      mkDialer DialerFlag)
       end.

Definition MustNewDialerFromFlag (fs : FlagSet) (defaultNodeURL : option Secret) : outcome dial_err (FlagSet * Dialer) :=
  match NewDialerFromFlag fs defaultNodeURL with Fail _ => Panic | r => r end.

(** [fs.Parse] of arguments [-name=value], one after the other, until one fails. *)
Fixpoint set_flags (vs : gmap string Secret) (args : list (string * string)) : gmap string Secret * option dial_err :=
  match args with
  | [] => (vs, None)
  | (name, value) :: args =>
      match vs !! name with
      | None => (vs, Some (UndefinedFlag name))
      | Some s => match Secrets.Set_ s value with
                  | (s, Some e) => (<[name := s]> vs, Some (FlagErr name e))
                  | (s, None) => set_flags (<[name := s]> vs) args
                  end
      end
  end.

Definition flag_Parse (fs : FlagSet) (args : list (string * string)) : FlagSet * option dial_err :=
  let '(vs, e) := set_flags (vars fs) args in (mkFlagSet true vs, e).

Section dial.
Context {Client : Type} (gcp : string → option string) (env : gmap string string).

Definition Dial (DialContext : string → option Client) (fs : FlagSet) (d : Dialer) : outcome dial_err Client :=
  s ← or_panic (vars fs !! nodeURL d);
  url ← map_err (FetchErr (Secret_String (Some s))) (Fetch gcp env s);
  match DialContext url with None => Fail (DialContextErr url) | Some c => Ret c end.
End dial.

(** ** A backend split into reading and writing *)

(** The methods of [bind.ContractBackend]: reads by their name, and the two writes. *)
Record ContractBackend (Q R Tx Call : Type) := mkContractBackend {
  read : Q → R; SendTransaction : Tx → bool; EstimateGas : Call → option Z
}.
Arguments mkContractBackend {Q R Tx Call} read SendTransaction EstimateGas.
Arguments read {Q R Tx Call}.
Arguments SendTransaction {Q R Tx Call}.
Arguments EstimateGas {Q R Tx Call}.

Definition RWDemuxBackend {Q R Tx Call} (r w : ContractBackend Q R Tx Call) : ContractBackend Q R Tx Call :=
  mkContractBackend (read r) (SendTransaction w) (EstimateGas w).

(** ** The flag and the dialer *)

(** The last value given for a flag. *)
Definition last_value (name : string) (args : list (string * string)) : option string :=
  snd <$> last (filter (λ a, a.1 = name) args).

Lemma set_flags_spec vs args vs' name s : set_flags vs args = (vs', None) → vs !! name = Some s →
  ∃ s', vs' !! name = Some s' ∧
    match last_value name args with
    | None => s' = s
    | Some v => Secret_String (Some s') = v ∧ known_source (Source s') = true
    end.
Proof.
  revert vs s. induction args as [|[n v] args IH]; intros vs s; cbn [set_flags].
  { intros [= <-] Hs. by exists s. }
  destruct (vs !! n) as [s0|] eqn:En; [|done]. destruct (Secrets.Set_ s0 v) as [s1 [e|]] eqn:Es; [done|].
  intros Hf Hs. unfold last_value in *. rewrite filter_cons. simpl.
  destruct (decide (n = name)) as [->|Hne].
  - rewrite En in Hs. injection Hs as ->. destruct (IH _ s1 Hf) as (s' & Hs' & IHs); [by rewrite lookup_insert_eq|].
    exists s'. split; [done|]. destruct (filter (λ a, a.1 = name) args) as [|a l] eqn:Ef.
    + simpl in *. subst s'. by apply Set_accepted in Es.
    + rewrite last_cons_cons. by destruct (last (a :: l)) as [[]|] eqn:El; [|apply last_None in El].
  - apply (IH _ s Hf). by rewrite lookup_insert_ne.
Qed.

(** A dialer made from a flag set dials, once the flags are parsed, the node of the
    last URL given with its flag, and without one that of the default, which the flag
    never changes; it dials nothing when the URL has an unknown source or is missing. *)
Theorem Dialer_flag {Client} gcp env (DialContext : string → option Client) fs dflt fs1 d args fs2 :
  NewDialerFromFlag fs dflt = Ret (fs1, d) → flag_Parse fs1 args = (fs2, None) →
  ∃ s, (match last_value DialerFlag args with
        | Some v => Secret_String (Some s) = v ∧ known_source (Source s) = true
        | None => s = default (mkSecret "" "") dflt
        end) ∧
    Dial gcp env DialContext fs2 d =
      match Fetch gcp env s with
      | Ret url => match DialContext url with Some c => Ret c | None => Fail (DialContextErr url) end
      | Fail e => Fail (FetchErr (Secret_String (Some s)) e)
      | Panic => Panic
      end.
Proof.
  unfold NewDialerFromFlag. destruct (Parsed fs); [done|]. destruct (vars fs !! DialerFlag) eqn:Ev; [done|].
  intros [= <- <-]. unfold flag_Parse. simpl. destruct (set_flags _ args) as [vs e] eqn:Es. intros [= <- ->].
  destruct (set_flags_spec _ _ _ DialerFlag (default (mkSecret "" "") dflt) Es) as (s & Hs & Hv);
    [by rewrite lookup_insert_eq|].
  exists s. split; [by destruct (last_value DialerFlag args)|]. unfold Dial. simpl. rewrite Hs. simpl.
  destruct (Fetch gcp env s) as [url|e|]; simpl; [by destruct (DialContext url)|done..].
Qed.

Lemma Dialer_flag_witness :
  let fs := mkFlagSet false ∅ in
  let fs1 := mkFlagSet false {[DialerFlag := mkSecret "env" "NODE"]} in
  let fs2 := mkFlagSet true {[DialerFlag := mkSecret "not-secret" "http://node"]} in
  NewDialerFromFlag fs (Some (mkSecret "env" "NODE")) = Ret (fs1, mkDialer DialerFlag) ∧
  Dial (λ _, None) ∅ Some fs2 (mkDialer DialerFlag) = Ret "http://node"%string ∧
  ∃ s, Secret_String (Some s) = "not-secret://http://node"%string ∧ known_source (Source s) = true.
Proof.
  intros fs fs1 fs2. split; [by vm_compute|]. split; [by vm_compute|].
  destruct (Dialer_flag (λ _, None) ∅ Some fs (Some (mkSecret "env" "NODE")) fs1 (mkDialer DialerFlag)
    [(DialerFlag, "not-secret://http://node"%string)] fs2) as (s & Hs & _); [by vm_compute|by vm_compute|].
  exists s. exact Hs.
Defined.
