(* ===== verification/Commands.v ===== *)
(** * Commands: the binaries [go/cmd/delegations] and [go/cmd/holders]

    Both make a dialer from their flags, dial one client, work with it and close it.
    The work is that of [Delegations] and [Holders]; here is what is around it, from
    the arguments to the exit code. *)

From S2P Require Import Prelude GoStrings Bufio Csv Eth EthProto Secrets Dialer Delegations Holders.
From stdpp Require Import gmap strings pretty.

Inductive command_err (E : Type) := DialErr (e : dial_err) | BindRegistryErr | WorkErr (e : E).
Arguments DialErr {E} e.
Arguments BindRegistryErr {E}.
Arguments WorkErr {E} e.

Inductive client_event (Client : Type) := Dialled (c : Client) | HungUp (c : Client).
Arguments Dialled {Client} c.
Arguments HungUp {Client} c.

(** How a binary ends: [exit] prints the error; [flag.Parse] exits by itself. *)
Inductive ending (E T : Type) := Success (out : T) | Exit1 (e : command_err E) | UsageError (e : dial_err) | Crash.
Arguments Success {E T} out.
Arguments Exit1 {E T} e.
Arguments UsageError {E T} e.
Arguments Crash {E T}.

Section commands.
Context {Client A : Type} `{Countable A, EthAddress A, EthCommon}.
Context (gcp : string → option string) (env : gmap string string) (DialContext : string → option Client).
(** The generated bindings over a client. *)
Context (NewIDelegationRegistry : A → Client → option (IDelegationRegistry A)) (NewIERC721Enumerable : Client → IERC721Enumerable A).

(** [delegate.New]. *)
Definition delegate_New (client : Client) : option (IDelegationRegistry A) := NewIDelegationRegistry Address_ client.

(** The client is closed when the work is done, and when it panics. *)
Definition with_client {E T} (fs : FlagSet) (d : Dialer) (work : Client → outcome (command_err E) T)
    : list (client_event Client) * outcome (command_err E) T :=
  match Dial gcp env DialContext fs d with
  | Ret client => ([Dialled client; HungUp client], work client)
  | Fail e => ([], Fail (DialErr e))
  | Panic => ([], Panic)
  end.

Definition delegations_run (src : Reader) (schedule : list (nat * bool)) (Marshal : list (Delegation A) → bool)
    (fs : FlagSet) (d : Dialer) : list (client_event Client) * outcome (command_err fetch_err) (list (Delegation A)) :=
  with_client fs d (λ client,
    match delegate_New client with
    | None => Fail BindRegistryErr
    | Some reg => map_err WorkErr (fetchDelegationsAndExportCSV src schedule Marshal)
    end).

Definition holders_run (order : nat → list Z → list Z) (range : gmap A (gmap A Z) → list (A * gmap A Z))
    (src : Reader) (out : string → bool) (fs : FlagSet) (d : Dialer)
    : list (client_event Client) * outcome (command_err holders_err) string :=
  with_client fs d (λ client,
    let tokens := NewIERC721Enumerable client in map_err WorkErr (run_holders order range src out)).

(** [main], over the flags that the packages have registered. *)
Definition main {E T} (run : FlagSet → Dialer → list (client_event Client) * outcome (command_err E) T)
    (CommandLine : FlagSet) (InfuraMainnetURL : Secret) (args : list (string * string))
    : list (client_event Client) * ending E T :=
  match MustNewDialerFromFlag CommandLine (Some InfuraMainnetURL) with
  | Ret (fs, d) =>
      match flag_Parse fs args with
      | (fs, None) =>
          let '(tr, r) := run fs d in
          (tr, match r with Ret out => Success out | Fail e => Exit1 e | Panic => Crash end)
      | (_, Some e) => ([], UsageError e)
      end
  | _ => ([], Crash)
  end.
End commands.

(** ** Which node a command works with *)

(** The secret of the node: the default, or the last one given with the flag. *)
Definition node_secret (InfuraMainnetURL : Secret) (args : list (string * string)) (s : Secret) : Prop :=
  match last_value DialerFlag args with
  | Some v => Secret_String (Some s) = v ∧ known_source (Source s) = true
  | None => s = InfuraMainnetURL
  end.

Section mains.
Context {Client : Type} (gcp : string → option string) (env : gmap string string) (DialContext : string → option Client).

Definition dials (s : Secret) (client : Client) : Prop :=
  ∃ url, Fetch gcp env s = Ret url ∧ DialContext url = Some client.

Definition ending_of {E T} (r : outcome (command_err E) T) : ending E T :=
  match r with Ret out => Success out | Fail e => Exit1 e | Panic => Crash end.

(** A command that works with a client. *)
Lemma main_with_client {E T} (work : Client → outcome (command_err E) T) fs dflt args :
  Parsed fs = false → vars fs !! DialerFlag = None →
  let run := with_client gcp env DialContext in
  (∃ e, main (λ fs d, run fs d work) fs dflt args = ([], UsageError e)) ∨
  ∃ s, node_secret dflt args s ∧
    ((∃ client, dials s client ∧
       main (λ fs d, run fs d work) fs dflt args = ([Dialled client; HungUp client], ending_of (work client))) ∨
     (∃ e, (∀ client, ¬ dials s client) ∧ main (λ fs d, run fs d work) fs dflt args = ([], Exit1 (DialErr e)))).
Proof.
  intros Hp Hv run. unfold main, MustNewDialerFromFlag.
  destruct (NewDialerFromFlag fs (Some dflt)) as [[fs1 d]|e|] eqn:En; unfold NewDialerFromFlag in En;
    rewrite Hp, Hv in En; [|done..].
  destruct (flag_Parse fs1 args) as [fs2 [e|]] eqn:Ep; [left; by exists e|]. right.
  destruct (Dialer_flag gcp env DialContext fs (Some dflt) fs1 d args fs2) as (s & Hs & Hd); [|done|].
  { unfold NewDialerFromFlag. by rewrite Hp, Hv. }
  exists s. split; [exact Hs|]. unfold run, with_client, dials. rewrite Hd.
  destruct (Fetch gcp env s) as [url|e|] eqn:Ef; [|right; eexists; split; [naive_solver|reflexivity]|].
  - destruct (DialContext url) as [client|] eqn:Ec; [left|right].
    + exists client. split; [by exists url|done].
    + eexists. split; [|reflexivity]. intros client (url' & [= <-] & ?). congruence.
  - by destruct (Fetch_returns gcp env s).
Qed.
End mains.

(** C17. The holders command works with one node, that of its flag or of the default, and hangs
    up.  When it succeeds, a reader of CSV gets from what it wrote the collections of
    the input as columns and as rows, once each, exactly the holders of some token of a
    collection on that node, in each cell the number of the collection's tokens that
    the holder owns, times how often the collection is listed.  It fails without a
    node, on a collection that cannot be read as a whole, or in writing. *)
Theorem holders_main_correct {Client A} `{Countable A, EthAddressLaws A} gcp env (DialContext : string → option Client)
    (tokens : Client → IERC721Enumerable A) order range src out (addrs : list A) fs dflt args :
  Parsed fs = false → vars fs !! DialerFlag = None →
  (∀ n l, order n l ≡ₚ l) → (∀ b, range b ≡ₚ map_to_list b) → AddressPerLine src = Ret addrs →
  (∀ c, let _ := tokens c in Z.of_nat (minted addrs) < 2 ^ 64)%Z →
  let '(tr, r) := main (holders_run gcp env DialContext tokens order range src out) fs dflt args in
  match r with
  | Success text => ∃ s client (t := tokens client), node_secret dflt args s ∧ dials gcp env DialContext s client ∧
      tr = [Dialled client; HungUp client] ∧ out text = true ∧ ∃ hs, NoDup hs ∧
      (∀ h, h ∈ hs ↔ ∃ token, token ∈ addrs ∧ owned token h (ids_of token) ≠ []) ∧
      ReadAll text = Some (("address"%string :: (Hex <$> addrs)) :: ((λ h, Hex h ::
        ((λ token, pretty (Z.of_nat (times token addrs * length (owned token h (ids_of token))))) <$> addrs)) <$> hs))
  | Exit1 (WorkErr e) => ∃ s client (t := tokens client), node_secret dflt args s ∧ dials gcp env DialContext s client ∧
      tr = [Dialled client; HungUp client] ∧
      ((∃ token, token ∈ addrs ∧ ¬ readable token) ∨ e = WriteErr ∧ Forall readable addrs)
  | Exit1 (DialErr _) => tr = [] ∧ ∃ s, node_secret dflt args s ∧ ∀ client, ¬ dials gcp env DialContext s client
  | UsageError _ => tr = []
  | Exit1 BindRegistryErr | Crash => False
  end.
Proof.
  intros Hp Hv Hord Hrange Hsrc Hm. unfold holders_run.
  match goal with |- context [main ?run _ _ _] =>
    match eval cbv beta in (λ fs d, run fs d) with (λ fs d, with_client _ _ _ fs d ?work) =>
      destruct (main_with_client gcp env DialContext work fs dflt args Hp Hv)
    as [[e ->]|(s & Hs & [(client & Hd & ->)|(e & Hd & ->)])]; [done| |by eauto]
    end end.
  pose proof (run_holders_correct (H2:=tokens client) order range src out addrs Hord Hrange Hsrc (Hm client)) as Hr.
  cbv zeta. destruct (run_holders order range src out) as [text|e|]; [| |done].
  - destruct Hr as (Ho & _ & Hr). by exists s, client.
  - by exists s, client.
Qed.

(** ** Examples *)

#[local] Existing Instance two_addresses.
#[local] Existing Instance two_addresses_laws.

Definition toy_main (crlf : bool) (lines : list string) (url : string) : list (client_event ()) * ending holders_err string :=
  main (holders_run (λ _, None) ∅ (λ url, if decide (url = "http://node"%string) then Some () else None)
      (λ _, toy_contracts) (λ _, reverse) map_to_list (toy_source crlf lines) (λ _, true))
    (mkFlagSet false ∅) (mkSecret "env" "INFURA") [(DialerFlag, url)].

Lemma holders_main_correct_witness :
  toy_main false ["0xA"; "0xA"]%string "not-secret://http://node" = ([Dialled (); HungUp ()], Success toy_text) ∧
  toy_main true ["0xA"; "0xB"]%string "not-secret://http://node" = ([Dialled (); HungUp ()], Exit1 (WorkErr OwnerErr)) ∧
  toy_main true ["0xA"]%string "not-secret://http://else" = ([], Exit1 (DialErr (DialContextErr "http://else"))) ∧
  toy_main true ["0xA"]%string "unknown" = ([], UsageError (FlagErr DialerFlag (InvalidString "unknown"))) ∧
  is_Some (ReadAll toy_text).
Proof.
  assert (toy_main false ["0xA"; "0xA"]%string "not-secret://http://node" = ([Dialled (); HungUp ()], Success toy_text))
    as E by by vm_compute.
  split; [exact E|]. do 3 (split; [by vm_compute|]).
  pose proof (holders_main_correct (λ _, None) ∅ (λ url, if decide (url = "http://node"%string) then Some () else None)
    (λ _, toy_contracts) (λ _, reverse) map_to_list (toy_source false ["0xA"; "0xA"]%string) (λ _, true) [true; true]
    (mkFlagSet false ∅) (mkSecret "env" "INFURA") [(DialerFlag, "not-secret://http://node"%string)]) as W.
  specialize (W ltac:(vm_compute; reflexivity) ltac:(vm_compute; reflexivity) (λ _ l, reverse_Permutation l)
    (λ b, reflexivity (map_to_list b)) ltac:(vm_compute; reflexivity) ltac:(intros; vm_compute; reflexivity)).
  unfold toy_main in E. rewrite E in W. destruct W as (s & client & _ & _ & _ & _ & hs & _ & _ & ->). by eexists.
Defined.
