(* ===== verification/Hydrant.v ===== *)
(** * Hydrant: connections to Firehose and the services over them

    [Dial] of [go/firehose/firehose.go], the constructors and methods of the server and the
    in-process client of [ethservice.go], and the server binary [hydrant/main.go].  The
    request handler is [Firehose.events]; gRPC is a class. *)

From S2P Require Import Prelude GoStrings BigInt Secrets Oauth EthProto Firehose.
From stdpp Require Import gmap strings.
Local Open Scope Z_scope.

(** ** Dialling *)

Definition ETHMainnetURL : string := "mainnet.eth.streamingfast.io:443".
Definition ETHGoerliURL : string := "goerli.eth.streamingfast.io:443".
Definition TokenURL : string := "https://auth.dfuse.io/v1/auth/issue".

(** [grpc.DialOption]: those that the code makes, and a caller's own. *)
Inductive DialOption (R O : Type) :=
| WithTransportCredentials (roots : R)
| WithPerRPCCredentials (src : httpSource dfuseToken)
| WithTimeout (d : Z)
| UserOption (o : O).
Arguments WithTransportCredentials {R O} roots.
Arguments WithPerRPCCredentials {R O} src.
Arguments WithTimeout {R O} d.
Arguments UserOption {R O} o.

(** Connections, pools of certificates and options of callers; [Quote] is what the verb
    %q prints. *)
Class Grpc (C R O : Type) := {
  SystemCertPool : option R;
  DialContext : string → list (DialOption R O) → option C;
  conn_Close : C → option string;
  Quote : string → string;
  secures : O → bool;   (* whether the option says how the transport is secured *)
}.

Definition secure {C R O} `{Grpc C R O} (o : DialOption R O) : bool :=
  match o with WithTransportCredentials _ => true | UserOption o => secures o | _ => false end.

(** gRPC does not dial before it is told how to secure the transport. *)
Class GrpcLaws (C R O : Type) `{Grpc C R O} :=
  DialContext_insecure : ∀ url opts, existsb secure opts = false → DialContext url opts = None.

Inductive hydrant_err := CertPoolErr | DialContextErr (url : string)
| UnsupportedChain (id : Z) | UnknownNetwork (name : string) | FetchErr (secret : string) (e : secret_err)
| ListenErr (port : Z) | ServeErr (e : string) | CloseErr (e : string).

Section dial.
Context {C R O : Type} `{Grpc C R O}.
Abbreviation options := (list (DialOption R O)).

(** [{"api_key":%q}], the quotation mark being character 34. *)
Definition token_body (apiKey : string) : string :=
  let mark := String "034"%char "" in "{" +:+ mark +:+ "api_key" +:+ mark +:+ ":" +:+ Quote apiKey +:+ "}".

Definition DefaultDialOptions (tokenURL apiKey : string) : outcome hydrant_err options :=
  match SystemCertPool with
  | None => Fail CertPoolErr
  | Some roots =>
      Ret [WithTransportCredentials roots;
           WithPerRPCCredentials (NewHTTP "POST" tokenURL (token_body apiKey) empty_dfuse)]
  end.

(** A [Proxy] is its connection. *)
Definition Dial (endpointURL tokenURL apiKey : string) (opts : options) : outcome hydrant_err C :=
  opts ← (if (length opts =? 0)%nat then DefaultDialOptions tokenURL apiKey else Ret opts);
  match DialContext endpointURL opts with None => Fail (DialContextErr endpointURL) | Some conn => Ret conn end.

Definition DialETHMainnet (apiKey : string) (opts : options) : outcome hydrant_err C := Dial ETHMainnetURL TokenURL apiKey opts.
Definition DialETHGoerli (apiKey : string) (opts : options) : outcome hydrant_err C := Dial ETHGoerliURL TokenURL apiKey opts.

(** ** Servers and clients *)

Record ethHandler := mkHandler { proxy : C }.
Inductive service := ethServer (h : ethHandler) | ethClient (h : ethHandler).

Definition conn_of (s : service) : C := match s with ethServer h | ethClient h => proxy h end.

(** A value of type [func() error]: nil, one that does nothing, or [proxy.Close]. *)
Inductive cleanup := NilFunc | NoCleanup | CloseConn (conn : C).

Definition call_cleanup (f : cleanup) : outcome Empty_set (option string) :=
  match f with
  | NilFunc => Panic
  | NoCleanup => Ret None
  | CloseConn conn => Ret (conn_Close conn)
  end.

(** A cleanup function comes with an error, too. *)
Definition newETHHandler (endpointURL tokenURL apiKey : string) (opts : options) : outcome hydrant_err ethHandler * cleanup :=
  match Dial endpointURL tokenURL apiKey opts with
  | Ret conn => (Ret (mkHandler conn), CloseConn conn)
  | Fail e => (Fail e, NoCleanup)
  | Panic => (Panic, NilFunc)
  end.

Definition ETHServer (endpointURL tokenURL apiKey : string) (opts : options) : outcome hydrant_err service * cleanup :=
  let '(h, f) := newETHHandler endpointURL tokenURL apiKey opts in (ethServer <$> h, f).

Definition ETHClient (endpointURL tokenURL apiKey : string) (opts : options) : outcome hydrant_err service * cleanup :=
  let '(h, f) := newETHHandler endpointURL tokenURL apiKey opts in (ethClient <$> h, f).

Definition ETHMainnetServer (apiKey : string) (opts : options) := ETHServer ETHMainnetURL TokenURL apiKey opts.
Definition ETHGoerliServer (apiKey : string) (opts : options) := ETHServer ETHGoerliURL TokenURL apiKey opts.
Definition ETHMainnetClient (apiKey : string) (opts : options) := ETHClient ETHMainnetURL TokenURL apiKey opts.
Definition ETHGoerliClient (apiKey : string) (opts : options) := ETHClient ETHGoerliURL TokenURL apiKey opts.

Context (gcp : string → option string) (env : gmap string string).

(** Here an error comes with a nil function. *)
Definition ETHClientFromSecret (chainID : Z) (apiKey : Secret) : outcome hydrant_err service * cleanup :=
  match (if chainID =? 1 then Some ETHMainnetClient else if chainID =? 5 then Some ETHGoerliClient else None) with
  | None => (Fail (UnsupportedChain chainID), NilFunc)
  | Some dial =>
      match map_err (FetchErr (Secret_String (Some apiKey))) (Fetch gcp env apiKey) with
      | Ret key =>
          match dial key [] with
          | (Ret client, f) => (Ret client, f)
          | (r, _) => (r, NilFunc)
          end
      | Fail e => (Fail e, NilFunc)
      | Panic => (Panic, NilFunc)
      end
  end.

(** ** The server binary *)

Record config := mkConfig {
  ethChain : string; firehoseAPIKey : Secret; grpcStreamTimeout : Z; port : Z
}.

(** What [run] does to the outside. *)
Inductive effect := Opened (conn : C) | Listening (port : Z) | Serving (srv : service) | Closed (conn : C).

(** From the services to the return of [Serve]; [listen] says whether a port is free,
    [serve] what [Serve] returns. *)
Definition serve_on (listen : Z → bool) (serve : option string) (port : Z) (srv : service) : list effect * option hydrant_err :=
  if negb (listen port) then ([], Some (ListenErr port))
  else ([Listening port; Serving srv], ServeErr <$> serve).

(** The deferred cleanup: its error counts only when there is no other. *)
Definition run (listen : Z → bool) (serve : option string) (cfg : config) : outcome Empty_set (list effect * option hydrant_err) :=
  match (if decide (ethChain cfg = "mainnet"%string) then Some ETHMainnetServer
         else if decide (ethChain cfg = "goerli"%string) then Some ETHGoerliServer else None) with
  | None => Ret ([], Some (UnknownNetwork (ethChain cfg)))
  | Some dial =>
      let opts := if 0 <? grpcStreamTimeout cfg then [WithTimeout (grpcStreamTimeout cfg)] else [] in
      match map_err (FetchErr (Secret_String (Some (firehoseAPIKey cfg)))) (Fetch gcp env (firehoseAPIKey cfg)) with
      | Fail e => Ret ([], Some e)
      | Panic => Panic
      | Ret key =>
          match dial key opts with
          | (Fail e, _) => Ret ([], Some e)
          | (Panic, _) => Panic
          | (Ret srv, f) =>
              let '(tr, retErr) := serve_on listen serve (port cfg) srv in
              err ← call_cleanup f;
              let closed := match f with CloseConn conn => [Closed conn] | _ => [] end in
              Ret (Opened (conn_of srv) :: tr ++ closed, match retErr with None => CloseErr <$> err | _ => retErr end)
          end
      end
  end.
End dial.
Arguments service : clear implicits.
Arguments effect : clear implicits.

(** ** The methods *)

Section methods.
Context {T H : Type} `{Countable H, ABI T H, Decoder T H, EthCommon}.
Context (range_map : gmap string any → list (string * any)).
Context (Blocks : Request (H:=H) → option (list stream_input * option hose_err)).

(** The server gets its own request for each call, decoded from the connection. *)
Definition server_Events (req : EventsRequest) (send : BlockResponse → option hose_err) : list BlockResponse * outcome hose_err () :=
  events (T:=T) (H:=H) range_map req Blocks send.

Definition server_ERC721TransferEvents (req : EventsRequest) (send : BlockResponse → option hose_err) : list BlockResponse * outcome hose_err () :=
  match withERC721TransferSig req with
  | Ret req => events (T:=T) (H:=H) range_map req Blocks send
  | Fail e => ([], Fail e)
  | Panic => ([], Panic)
  end.

(** The in-process client gets a pointer to the request of its caller: the requests live in
    a store. *)
Abbreviation store := (gmap nat EventsRequest).

Definition client_Events (st : store) (req : nat) : outcome hose_err ethAdaptor :=
  req ← or_panic (st !! req);
  or_panic (newETHAdaptor (events (T:=T) (H:=H) range_map req Blocks (λ _, None))).

Definition client_ERC721TransferEvents (st : store) (req : nat) : store * outcome hose_err ethAdaptor :=
  match r ← or_panic (st !! req); withERC721TransferSig r with
  | Ret r => let st := <[req := r]> st in (st, client_Events st req)
  | Fail e => (st, Fail e)
  | Panic => (st, Panic)
  end.

(** Calls one after the other, until one panics. *)
Fixpoint transfer_calls (st : store) (reqs : list nat) : list (outcome hose_err ethAdaptor) :=
  match reqs with
  | [] => []
  | req :: reqs =>
      match client_ERC721TransferEvents st req with
      | (_, Panic) => [Panic]
      | (st, r) => r :: transfer_calls st reqs
      end
  end.
End methods.

(** ** Connections are closed *)

Section lifecycle.
Context {C R O : Type} `{GrpcLaws C R O}.

Lemma Dial_default url tokenURL key :
  (∃ opts conn, DefaultDialOptions tokenURL key = Ret opts ∧ DialContext url opts = Some conn ∧
    Dial url tokenURL key [] = Ret conn) ∨
  ∃ e, Dial url tokenURL key [] = Fail e.
Proof.
  unfold Dial. simpl. destruct (DefaultDialOptions tokenURL key) as [opts|e|] eqn:Eo; simpl; [|by right; eexists|].
  - destruct (DialContext url opts) as [conn|] eqn:Ec; [|by right; eexists]. left. by exists opts, conn.
  - unfold DefaultDialOptions in Eo. by destruct SystemCertPool.
Qed.

Lemma Dial_timeout url tokenURL key d : Dial url tokenURL key [WithTimeout d] = Fail (DialContextErr url).
Proof. unfold Dial. simpl. by rewrite DialContext_insecure. Qed.

Lemma serve_on_spec listen serve port (srv : service C) :
  serve_on listen serve port srv =
    if listen port then ([Listening port; Serving srv], ServeErr <$> serve) else ([], Some (ListenErr port)).
Proof. unfold serve_on. by destruct (listen port). Qed.

(** The server of one chain, with its key. *)
Lemma run_chain gcp env listen serve cfg url key :
  (ethChain cfg, url) ∈ [("mainnet", ETHMainnetURL); ("goerli", ETHGoerliURL)]%string →
  Fetch gcp env (firehoseAPIKey cfg) = Ret key →
  run gcp env listen serve cfg =
    match Dial url TokenURL key (if 0 <? grpcStreamTimeout cfg then [WithTimeout (grpcStreamTimeout cfg)] else []) with
    | Fail e => Ret ([], Some e)
    | Panic => Panic
    | Ret conn =>
        let '(tr, e) := serve_on listen serve (port cfg) (ethServer (mkHandler conn)) in
        Ret (Opened conn :: tr ++ [Closed conn], match e with None => CloseErr <$> conn_Close conn | _ => e end)
    end.
Proof.
  intros Hc Hk. unfold run. rewrite Hk. cbn [map_err].
  apply list_elem_of_In in Hc as [[= <- <-]|[[= <- <-]|[]]];
    [rewrite decide_True by done|rewrite decide_False, decide_True by done];
    unfold ETHMainnetServer, ETHGoerliServer, ETHServer, newETHHandler;
    destruct (Dial _ _ _ _) as [conn|e|]; done.
Qed.

(** A client from a secret closes its own connection, to the chain it was asked for.  Unlike
    the other constructors, whose cleanup function can always be called, a failure comes
    with one that panics. *)
Lemma ETHClientFromSecret_spec gcp env id key r f : ETHClientFromSecret gcp env id key = (r, f) →
  match r with
  | Ret s => f = CloseConn (conn_of s) ∧ ∃ k url, Fetch gcp env key = Ret k ∧
      (id, url) ∈ [(1, ETHMainnetURL); (5, ETHGoerliURL)] ∧ Dial url TokenURL k [] = Ret (conn_of s)
  | _ => call_cleanup f = Panic
  end.
Proof.
  unfold ETHClientFromSecret, ETHMainnetClient, ETHGoerliClient, ETHClient, newETHHandler.
  destruct (Z.eqb_spec id 1) as [->|Hn]; [|destruct (Z.eqb_spec id 5) as [->|]; [|by intros [= <- <-]]];
    destruct (Fetch gcp env key) as [k|e|]; simpl; try (by intros [= <- <-]).
  all: destruct (Dial _ _ _ _) as [conn|e|] eqn:Ed; simpl; intros [= <- <-]; try done; split; [done|].
  - exists k, ETHMainnetURL. split_and!; [done|set_solver|done].
  - exists k, ETHGoerliURL. split_and!; [done|set_solver|done].
Qed.

Lemma ETHServer_cleanup url tok key opts r f : ETHServer url tok key opts = (r, f) → r ≠ Panic → call_cleanup f ≠ Panic.
Proof. unfold ETHServer, newETHHandler. by destruct (Dial _ _ _ _); intros [= <- <-]. Qed.
End lifecycle.

(** C27. [hydrant] closes the connection that it has opened, once and last, whatever happens in
    between, and reports the first error; it opens one only for a known chain, with the
    key that it could fetch and the default options.  With a timeout it never opens one:
    the timeout replaces the default options, without which gRPC does not dial. *)
Theorem run_lifecycle {C R O} `{GrpcLaws C R O} gcp env listen serve cfg : ∃ tr e,
  run gcp env listen serve cfg = Ret (tr, e) ∧
  (tr = [] ∧ is_Some e ∨
   ∃ conn url key opts,
     (ethChain cfg, url) ∈ [("mainnet", ETHMainnetURL); ("goerli", ETHGoerliURL)]%string ∧
     Fetch gcp env (firehoseAPIKey cfg) = Ret key ∧ grpcStreamTimeout cfg ≤ 0 ∧
     DefaultDialOptions TokenURL key = Ret opts ∧ DialContext url opts = Some conn ∧
     if listen (port cfg)
     then tr = [Opened conn; Listening (port cfg); Serving (ethServer (mkHandler conn)); Closed conn] ∧
          e = match serve with Some e => Some (ServeErr e) | None => CloseErr <$> conn_Close conn end
     else tr = [Opened conn; Closed conn] ∧ e = Some (ListenErr (port cfg))).
Proof.
  destruct (Fetch gcp env (firehoseAPIKey cfg)) as [key|e|] eqn:Ek; [| |by destruct (Fetch_returns _ _ _ Ek)].
  2: { unfold run. rewrite Ek. cbn [map_err]. repeat case_decide; do 2 eexists; (split; [reflexivity|]; left; split; [done|by eexists]). }
  destruct (decide (ethChain cfg = "mainnet" ∨ ethChain cfg = "goerli")%string) as [Hc|Hc].
  2: { exists [], (Some (UnknownNetwork (ethChain cfg))). split; [|left; split; [done|by eexists]].
       unfold run. by rewrite !decide_False by tauto. }
  assert (∃ url, (ethChain cfg, url) ∈ [("mainnet", ETHMainnetURL); ("goerli", ETHGoerliURL)]%string) as [url Hu].
  { destruct Hc as [->| ->]; [exists ETHMainnetURL|exists ETHGoerliURL]; set_solver. }
  rewrite (run_chain gcp env listen serve cfg url key) by done. destruct (Z.ltb_spec 0 (grpcStreamTimeout cfg)) as [Ht|Ht].
  { rewrite Dial_timeout. do 2 eexists. split; [reflexivity|]. left. split; [done|by eexists]. }
  destruct (Dial_default url TokenURL key) as [(opts & conn & Ho & Hc' & ->)|[e ->]].
  - rewrite serve_on_spec. destruct (listen (port cfg)) eqn:El; do 2 eexists; (split; [reflexivity|]);
      right; exists conn, url, key, opts; rewrite ?El; split_and!; try done. by destruct serve.
  - do 2 eexists. split; [reflexivity|]. left. split; [done|by eexists].
Qed.

(** ** Requests are used once *)

Section requests.
Context {T H : Type} `{Countable H, ABI T H, Decoder T H, EthCommon}.
Context (range_map : gmap string any → list (string * any)).
Context (Blocks : Request (H:=H) → option (list stream_input * option hose_err)).
Abbreviation server req := (server_ERC721TransferEvents (T:=T) (H:=H) range_map Blocks req (λ _, None)).
Abbreviation client := (client_ERC721TransferEvents (T:=T) (H:=H) range_map Blocks).

Definition signed (req : EventsRequest) : EventsRequest :=
  mkEventsRequest [ERC721TransferEvent] (Contracts req) (StartBlockNum req) (StopBlockNum req) (req_Cursor req) (req_Valid req).

(** A first call answers as the server does and leaves the request signed. *)
Lemma first_call st r req : st !! r = Some req → Signatures req = [] →
  client st r = (<[r := signed req]> st, or_panic (newETHAdaptor (server req))).
Proof.
  intros Hr Hs. unfold client_ERC721TransferEvents, server_ERC721TransferEvents, client_Events, withERC721TransferSig.
  by rewrite Hr; simpl; rewrite Hs; simpl; rewrite lookup_insert_eq.
Qed.

Lemma signed_call st r req : st !! r = Some req → Signatures req ≠ [] → client st r = (st, Fail AlreadySigned).
Proof.
  intros Hr Hs. unfold client_ERC721TransferEvents, withERC721TransferSig. rewrite Hr. simpl.
  by destruct (Signatures req).
Qed.

(** C28. A request serves for one call of the in-process client: the first call with an unsigned
    request answers what the server would, and every later call with the same request
    fails, because the first has signed it. *)
Theorem ERC721TransferEvents_once st reqs i r req res :
  reqs !! i = Some r → st !! r = Some req → transfer_calls (T:=T) (H:=H) range_map Blocks st reqs !! i = Some res →
  res = if decide (r ∈ take i reqs ∨ Signatures req ≠ []) then Fail AlreadySigned
        else or_panic (newETHAdaptor (server req)).
Proof.
  revert st i req. induction reqs as [|q reqs IH]; intros st i req Hi Hr; [done|]. cbn [transfer_calls].
  destruct i as [|i]; simpl in Hi.
  - injection Hi as ->. destruct (decide (Signatures req = [])) as [Hs|Hs].
    + rewrite (first_call st r req) by done. rewrite decide_False by (intros [Hn|Hn]; [by apply elem_of_nil in Hn|done]).
      by destruct (or_panic _); intros [= <-].
    + rewrite (signed_call st r req) by done. intros [= <-]. by rewrite decide_True by tauto.
  - destruct (client st q) as [st' rq] eqn:Eq. intros Hres.
    assert (transfer_calls (T:=T) (H:=H) range_map Blocks st' reqs !! i = Some res) as Hres'
      by by destruct rq. clear Hres.
    destruct (decide (q = r)) as [->|Hne].
    + rewrite decide_True by (left; simpl; set_solver).
      destruct (decide (Signatures req = [])) as [Hs|Hs].
      * rewrite (first_call st r req) in Eq by done. injection Eq as <- _.
        rewrite (IH _ i (signed req) Hi ltac:(by rewrite lookup_insert_eq) Hres'). by rewrite decide_True by (by right).
      * rewrite (signed_call st r req) in Eq by done. injection Eq as <- _.
        rewrite (IH _ i req Hi Hr Hres'). by rewrite decide_True by (by right).
    + assert (st' !! r = Some req) as Hr'.
      { revert Eq. unfold client_ERC721TransferEvents. repeat case_match; intros [= <- _]; try done. by rewrite lookup_insert_ne. }
      rewrite (IH _ i req Hi Hr' Hres'). apply decide_ext. cbn [take]. set_solver.
Qed.
End requests.

(** ** Examples *)

(** Connections are their URLs; a connection to Goerli does not close. *)
#[local] Instance toy_grpc : Grpc string () bool := {
  SystemCertPool := Some ();
  DialContext url opts :=
    if existsb (λ o, match o with WithTransportCredentials _ => true | UserOption b => b | _ => false end) opts
    then Some url else None;
  conn_Close url := if decide (url = ETHGoerliURL) then Some "busy"%string else None;
  Quote s := s;
  secures b := b;
}.

#[local] Instance toy_grpc_laws : GrpcLaws string () bool.
Proof.
  intros url opts Ho. unfold DialContext, toy_grpc.
  match goal with |- (if ?b then _ else _) = _ => replace b with (existsb (secure (C:=string)) opts); [by rewrite Ho|] end.
  clear Ho. induction opts as [|[] opts IH]; simpl; by rewrite ?IH.
Qed.

Definition toy_config (chain : string) (timeout : Z) : config := mkConfig chain (mkSecret Raw "key") timeout 8080.

Lemma run_lifecycle_witness :
  let run cfg := run (λ _, None) ∅ (λ _, true) None cfg in
  run (toy_config "goerli" 0) =
    Ret ([Opened ETHGoerliURL; Listening 8080; Serving (ethServer (mkHandler ETHGoerliURL)); Closed ETHGoerliURL],
         Some (CloseErr "busy")) ∧
  ∃ e, run (toy_config "mainnet" 30) = Ret ([], Some e).
Proof.
  split; [vm_compute; reflexivity|].
  destruct (run_lifecycle (C:=string) (λ _, None) ∅ (λ _, true) None (toy_config "mainnet" 30)) as (tr & e & Hr & Hcases).
  destruct Hcases as [[-> [e' ->]]|(conn & url & key & opts & _ & _ & Ht & _)]; [by exists e'|]. by destruct Ht.
Defined.

#[local] Existing Instance common.
#[local] Existing Instance example_abi.
#[local] Existing Instance example_decoder.

Definition toy_request : EventsRequest := mkEventsRequest [] [replicate 20 9] 1 5 "" true.

(** The same request twice, for a Firehose that has no blocks. *)
Lemma ERC721TransferEvents_once_witness :
  let Blocks (_ : Request (H:=bytes)) := Some ([], None) in
  transfer_calls (T:=string) map_to_list Blocks {[5%nat := toy_request]} [5; 5]%nat =
    [Ret (mkAdaptor [] EOF); Fail AlreadySigned].
Proof.
  intros Blocks. set (calls := transfer_calls _ _ _ _).
  assert (length calls = 2%nat) as Hl by (vm_compute; reflexivity).
  destruct calls as [|r0 [|r1 [|]]] eqn:Ec; try discriminate Hl. f_equal; [|f_equal].
  - pose proof (ERC721TransferEvents_once (T:=string) map_to_list Blocks {[5%nat := toy_request]} [5; 5]%nat 0 5 toy_request r0
      eq_refl eq_refl ltac:(fold calls; by rewrite Ec)) as ->. vm_compute. reflexivity.
  - pose proof (ERC721TransferEvents_once (T:=string) map_to_list Blocks {[5%nat := toy_request]} [5; 5]%nat 1 5 toy_request r1
      eq_refl eq_refl ltac:(fold calls; by rewrite Ec)) as ->. vm_compute. reflexivity.
Defined.
