(* ===== verification/GrpcTest.v ===== *)
(** * GrpcTest: services registered for tests ([go/grpctest/grpctest.go])

    [RegisterService] with its checks by reflection, its generic replacement, and what the
    constructors start and their cleanup functions stop.  Types, gRPC servers and the
    registering functions are parameters; of [reflect] the code needs the kinds and
    signatures of types and the rules for calling a function. *)

From S2P Require Import Prelude.
From stdpp Require Import list.

(** ** Reflection *)

(** [reflect.Kind]; the others are kinds of values that are never nil for [isNil]. *)
Inductive kind := Chan | Func | Interface | Map | Ptr | Slice | OtherKind.

Record signature (T : Type) := mkSignature { In : list T; Out : list T; variadic : option T }.
Arguments mkSignature {T} In Out variadic.
Arguments In {T}.
Arguments Out {T}.
Arguments variadic {T}.

(** Go types: their kinds, the signatures of functions (with the element type of a variadic
    last argument) and when a value of one can be assigned to another. *)
Class Types (T : Type) := {
  Kind : T → kind;
  sig_of : T → option (signature T);
  AssignableTo : T → T → bool;
  ServerType : T;   (* *grpc.Server *)
}.

(** Functions have signatures, and nothing else has. *)
Class TypesLaws (T : Type) `{Types T} := sig_of_Func : ∀ t, Kind t = Func ↔ is_Some (sig_of t).

Inductive register_err := Recovered | NilRegister | NilImplementation | NotFunc (k : kind)
| InputCount (n : nat) | OutputCount (n : nat) | NotAssignable (i : nat).

Section register.
(** [V]: what values of Go hold, [S]: servers. *)
Context {T V S : Type} `{Types T}.

(** A value in an interface; pointers and the like may be nil. *)
Record value := mkValue { TypeOf : T; IsNil : bool; contents : V }.

(** What a function does to the server, and whether it returns. *)
Context (apply : V → S → V → S * bool).

Definition isNil (v : option value) : bool :=
  match v with
  | None => true
  | Some v => match Kind (TypeOf v) with OtherKind => false | _ => IsNil v end
  end.

(** [reflect.Value.Call] with the server and one more argument: it panics, before the
    call, where an argument cannot be assigned, and for a variadic function the second
    argument is the first of the rest. *)
Definition Call (f : value) (st : S) (impl : value) : S * option register_err :=
  match sig_of (TypeOf f) with
  | Some sig =>
      let ok := match variadic sig with Some elem => AssignableTo (TypeOf impl) elem | None => true end in
      if negb ok then (st, Some Recovered)
      else let '(st, returns) := apply (contents f) st (contents impl) in
           (st, if (returns : bool) then None else Some Recovered)
  | None => (st, Some Recovered)
  end.

(** The first argument that cannot be assigned. *)
Fixpoint check_args (i : nat) (args : list T) (params : list T) : outcome register_err () :=
  match args with
  | [] => Ret ()
  | argT :: args =>
      match params with
      | [] => Panic
      | got :: params => if negb (AssignableTo argT got) then Fail (NotAssignable i) else check_args (Datatypes.S i) args params
      end
  end.

(** [Tester.RegisterService]: the server afterwards, and the error. *)
Definition Tester_RegisterService (st : S) (registerFunc implementation : option value) : S * option register_err :=
  if isNil registerFunc then (st, Some NilRegister)
  else if isNil implementation then (st, Some NilImplementation)
  else match registerFunc, implementation with
       | Some f, Some impl =>
           match Kind (TypeOf f) with
           | Func =>
               match sig_of (TypeOf f) with
               | None => (st, Some Recovered)
               | Some sig =>
                   if negb (length (In sig) =? 2) then (st, Some (InputCount (length (In sig))))
                   else if negb (length (Out sig) =? 0) then (st, Some (OutputCount (length (Out sig))))
                   else match check_args 0 [ServerType; TypeOf impl] (In sig) with
                        | Fail e => (st, Some e)
                        | Panic => (st, Some Recovered)
                        | Ret _ => Call f st impl
                        end
               end
           | k => (st, Some (NotFunc k))
           end
       | _, _ => (st, Some Recovered)
       end.

(** The generic [RegisterService]: the types are checked by the compiler, and a panic is
    the caller's. *)
Definition RegisterService (st : S) (register impl : V) : outcome Empty_set S :=
  let '(st, returns) := apply register st impl in if (returns : bool) then Ret st else Panic.

(** A function that the generic one accepts with the implementation. *)
Definition registers (f impl : value) : Prop :=
  ∃ paramT, Kind (TypeOf f) = Func ∧ IsNil f = false ∧ isNil (Some impl) = false ∧
    sig_of (TypeOf f) = Some (mkSignature [ServerType; paramT] [] None) ∧
    AssignableTo ServerType ServerType = true ∧ AssignableTo (TypeOf impl) paramT = true.
End register.
Arguments value : clear implicits.

(** ** Servers for tests *)

(** What happens to a [Tester]: its server gets services and is served by a goroutine, which
    is awaited; stopping the server and closing its listener is [Close]. *)
Inductive effect := Register | GoServe | GracefulStop | CloseListener | AwaitServe | CallUser.

Inductive dial_err := DialingServer.

(** [Tester.Close]. *)
Definition Close : list effect := [GracefulStop; CloseListener].

(** The effects of the call, and those of the cleanup function that it returns; [returns]
    says whether the registering function does. *)
Definition NewWithRegistered (returns : bool) : outcome Empty_set (list effect * list effect) :=
  if returns then Ret ([Register; GoServe], Close ++ [AwaitServe]) else Panic.

(** [dial] says whether [Dial] succeeds; after an error the cleanup has been done. *)
Definition NewClientConn (returns dial : bool) : outcome Empty_set (list effect * outcome dial_err () * list effect) :=
  '(tr, cleanup) ← NewWithRegistered returns;
  Ret (if dial then (tr, Ret (), cleanup) else (tr ++ cleanup, Fail DialingServer, [])).

(** With a test: its cleanup functions run when it ends, also after [Fatalf]; [user] is
    what the test does with the connection. *)
Definition NewClientConnTB (returns dial : bool) (user : list effect) : outcome Empty_set (list effect) :=
  '(tr, r, cleanup) ← NewClientConn returns dial;
  Ret match r with Ret _ => tr ++ user ++ cleanup | _ => tr end.

Section dial_options.
Context {O : Type} (dialer insecure_credentials : O).

(** The options of the code come last. *)
Definition DialOpts (user : list O) : list O := user ++ [dialer; insecure_credentials].
End dial_options.

(** ** Registering by reflection *)

Section correct.
Context {T V S : Type} `{TypesLaws T} (apply : V → S → V → S * bool).
Implicit Types (f impl : value T V) (st : S).

Lemma check_args_two (a b : T) ps : length ps = 2 →
  match check_args 0 [a; b] ps with
  | Ret _ => ∃ p q, ps = [p; q] ∧ AssignableTo a p = true ∧ AssignableTo b q = true
  | Fail e => ∃ i, e = NotAssignable i
  | Panic => False
  end.
Proof.
  destruct ps as [|p [|q [|]]]; try done. intros _. simpl. destruct (AssignableTo a p) eqn:Ea; simpl; [|by eexists].
  destruct (AssignableTo b q) eqn:Eb; simpl; [|by eexists]. by exists p, q.
Qed.

Lemma register_checked st f impl : isNil (Some f) = false → isNil (Some impl) = false →
  let r := Tester_RegisterService apply st (Some f) (Some impl) in
  (∃ e, r = (st, Some e) ∧ e ≠ Recovered) ∨
  (∃ sig p q, Kind (TypeOf f) = Func ∧ sig_of (TypeOf f) = Some sig ∧ In sig = [p; q] ∧ Out sig = [] ∧
     AssignableTo ServerType p = true ∧ AssignableTo (TypeOf impl) q = true ∧ r = Call apply f st impl).
Proof.
  intros Hf Hi. unfold Tester_RegisterService. rewrite Hf, Hi.
  destruct (Kind (TypeOf f)) eqn:Ek; try (left; eexists; split; [reflexivity|done]).
  destruct (proj1 (sig_of_Func (TypeOf f)) Ek) as [sig Es]. rewrite Es.
  destruct (Nat.eqb_spec (length (In sig)) 2) as [Hl|]; cbn [negb]; [|left; by eexists].
  destruct (Nat.eqb_spec (length (Out sig)) 0) as [Ho|]; cbn [negb]; [|left; by eexists].
  pose proof (check_args_two ServerType (TypeOf impl) (In sig) Hl) as Hc.
  destruct (check_args _ _ _) as [u|e|]; [|destruct Hc as [i ->]; left; by eexists|done].
  destruct Hc as (p & q & Hin & Hp & Hq). right. exists sig, p, q. apply nil_length_inv in Ho. done.
Qed.

(** C38. Registering by reflection never panics.  An error of the checks leaves the server as it
    was; after a panic of the function, which is recovered, it is what the function left.
    Without an error the function was called with the server and the implementation,
    which its type allows.  Where the generic function can be used, with an
    implementation that is not nil, both do the same. *)
Theorem RegisterService_correct st (f impl : option (value T V)) st' e :
  Tester_RegisterService apply st f impl = (st', e) →
  match e with
  | None => ∃ vf vi sig p q, f = Some vf ∧ impl = Some vi ∧ isNil f = false ∧ isNil impl = false ∧
      sig_of (TypeOf vf) = Some sig ∧ In sig = [p; q] ∧ Out sig = [] ∧
      AssignableTo ServerType p = true ∧ AssignableTo (TypeOf vi) q = true ∧
      RegisterService apply st (contents vf) (contents vi) = Ret st'
  | Some Recovered => st' = st ∨ ∃ vf vi, f = Some vf ∧ impl = Some vi ∧ apply (contents vf) st (contents vi) = (st', false)
  | Some _ => st' = st
  end ∧
  ∀ vf vi, f = Some vf → impl = Some vi → registers vf vi →
    match RegisterService apply st (contents vf) (contents vi) with
    | Ret st'' => st' = st'' ∧ e = None
    | _ => e = Some Recovered
    end.
Proof.
  intros Hr. destruct (isNil f) eqn:Hf.
  { assert (st' = st ∧ e = Some NilRegister) as [-> ->]
      by (revert Hr; unfold Tester_RegisterService; rewrite Hf; by intros [= <- <-]).
    split; [done|]. intros vf vi -> _ (paramT & Hk & Hn & _). simpl in Hf. rewrite Hk in Hf. congruence. }
  destruct (isNil impl) eqn:Hi.
  { assert (st' = st ∧ e = Some NilImplementation) as [-> ->]
      by (revert Hr; unfold Tester_RegisterService; rewrite Hf, Hi; by intros [= <- <-]).
    split; [done|]. intros vf vi _ -> (paramT & _ & _ & Hn & _). congruence. }
  destruct f as [vf|], impl as [vi|]; try done.
  destruct (register_checked st vf vi Hf Hi) as [(e' & He & Hne)|(sig & p & q & Hk & Hs & Hin & Hout & Hp & Hq & Hc)].
  - rewrite He in Hr. injection Hr as <- <-. split; [by destruct e'|]. intros ? ? [= <-] [= <-] Hreg. exfalso.
    destruct Hreg as (paramT & Hk & _ & _ & Hs & Hp & Hq). revert He. unfold Tester_RegisterService.
    rewrite Hf, Hi, Hk, Hs. cbn. rewrite Hp. cbn. rewrite Hq. cbn. unfold Call. rewrite Hs. cbn.
    destruct (apply _ _ _) as [? []]; congruence.
  - rewrite Hc in Hr. unfold Call in Hr. rewrite Hs in Hr. unfold RegisterService. split.
    + destruct (negb _); [injection Hr as <- <-; by left|]. destruct (apply _ st _) as [st'' []] eqn:Ea; injection Hr as <- <-.
      * exists vf, vi, sig, p, q. by rewrite Ea.
      * right. by exists vf, vi.
    + intros ? ? [= <-] [= <-] (paramT & _ & _ & _ & Hs' & _). rewrite Hs in Hs'. injection Hs' as ->. simpl in Hr.
      by destruct (apply _ st _) as [st'' []]; injection Hr as <- <-.
Qed.
End correct.

(** ** Everything that is started is stopped *)

(** Whether dialling succeeds or not, the server is stopped, its listener closed and its
    goroutine awaited once, after all else, if the caller uses the cleanup function, which
    does nothing after an error. *)
Theorem NewClientConn_stops dial tr r cleanup : NewClientConn true dial = Ret (tr, r, cleanup) →
  tr ++ cleanup = [Register; GoServe; GracefulStop; CloseListener; AwaitServe] ∧
  (∀ e, r = Fail e → cleanup = []) ∧
  ∀ user, NewClientConnTB true dial user =
    Ret ([Register; GoServe] ++ (if dial then user else []) ++ [GracefulStop; CloseListener; AwaitServe]).
Proof. destruct dial; intros [= <- <- <-]; split_and!; done. Qed.

(** ** Examples *)

(** Five types: the server, a pointer to an implementation, an interface that it implements, a
    function of the server and the interface, and one of too few arguments. *)
Inductive toy := Server | Impl | Service | RegisterFunc | ShortFunc.

#[local] Instance toy_types : Types toy := {
  Kind t := match t with RegisterFunc | ShortFunc => Func | Service => Interface | _ => Ptr end;
  sig_of t := match t with
    | RegisterFunc => Some (mkSignature [Server; Service] [] None)
    | ShortFunc => Some (mkSignature [Server] [] None)
    | _ => None
    end;
  AssignableTo a b := match a, b with Server, Server | Impl, Impl | Impl, Service => true | _, _ => false end;
  ServerType := Server;
}.

#[local] Instance toy_types_laws : TypesLaws toy.
Proof. intros []; split; try done; by intros []. Qed.

(** The implementations registered; a second one makes the function panic. *)
Definition toy_apply (f : nat) (st : list nat) (impl : nat) : list nat * bool :=
  (impl :: st, bool_decide (st = [])).

Lemma RegisterService_correct_witness :
  let f := Some (mkValue RegisterFunc false 0) in
  let impl := Some (mkValue Impl false 7) in
  Tester_RegisterService toy_apply [] f impl = ([7], None) ∧
  Tester_RegisterService toy_apply [7] f impl = ([7; 7], Some Recovered) ∧
  Tester_RegisterService toy_apply [] (Some (mkValue ShortFunc false 0)) impl = ([], Some (InputCount 1)) ∧
  RegisterService toy_apply [] 0 7 = Ret [7].
Proof.
  intros f impl. assert (Tester_RegisterService toy_apply [] f impl = ([7], None)) as E by (vm_compute; reflexivity).
  split; [exact E|]. split; [vm_compute; reflexivity|]. split; [vm_compute; reflexivity|].
  destruct (RegisterService_correct toy_apply [] f impl [7] None E) as [(vf & vi & sig & p & q & Hf & Hi & _ & _ & _ & _ & _ & _ & _ & Hr) _].
  injection Hf as <-. injection Hi as <-. exact Hr.
Defined.
