(* ===== verification/FakeSetup.v ===== *)
(** * FakeSetup: what a test with a fake Firehose opens and closes
    ([go/firehose/firehosetest/firehosetest.go], with the constructors for tests of
    [grpctest.go] and [simbackend.go])

    [Config.NewFake] puts together the in-memory servers of [GrpcTest], the adaptor of
    [Hydrant] and the chain of [FirehoseFake].  A test is the log of what happens to
    them and a stack of cleanup functions. *)

From S2P Require Import Prelude GoStrings Secrets Oauth Hydrant SimBackend FirehoseFake GrpcTest.
From stdpp Require Import gmap strings.

(** ** Tests *)

(** A server of [GrpcTest] with its connection, for the fake or for Hydrant; the adaptor's
    connection; the chain; what the test itself does. *)
Inductive event (C U : Type) :=
| OnFirehose (e : effect) | OnHydrant (e : effect) | DialFirehose | DialHydrant
| Opened (conn : C) | Closed (conn : C) | CleanupPanic | NewBackend | CloseBackend | Errorf | ByUser (u : U).
Arguments OnFirehose {C U} e.
Arguments OnHydrant {C U} e.
Arguments DialFirehose {C U}.
Arguments DialHydrant {C U}.
Arguments Opened {C U} conn.
Arguments Closed {C U} conn.
Arguments CleanupPanic {C U}.
Arguments NewBackend {C U}.
Arguments CloseBackend {C U}.
Arguments Errorf {C U}.
Arguments ByUser {C U} u.

(** [testing.TB]: the log and the registered cleanup functions, the last one first. *)
Record TB (Ev : Type) := mkTB { tb_log : list Ev; tb_cleanups : list (list Ev) }.
Arguments mkTB {Ev} tb_log tb_cleanups.
Arguments tb_log {Ev}.
Arguments tb_cleanups {Ev}.

(** [None]: the test ended with [Fatalf]. *)
Definition Test (Ev A : Type) : Type := TB Ev → TB Ev * option A.

#[export] Instance test_ret Ev : MRet (Test Ev) := λ A a tb, (tb, Some a).
#[export] Instance test_bind Ev : MBind (Test Ev) := λ A B f m tb,
  match m tb with (tb, Some a) => f a tb | (tb, None) => (tb, None) end.

Section tests.
Context {Ev : Type}.

Definition happen (evs : list Ev) : Test Ev () := λ tb, (mkTB (tb_log tb ++ evs) (tb_cleanups tb), Some ()).
Definition Fatalf {A} : Test Ev A := λ tb, (tb, None).
Definition Cleanup (evs : list Ev) : Test Ev () := λ tb, (mkTB (tb_log tb) (evs :: tb_cleanups tb), Some ()).

(** Cleanup functions run after the body, and after [Fatalf]. *)
Definition run_test {A} (t : Test Ev A) : list Ev * option A :=
  let '(tb, r) := t (mkTB [] []) in (tb_log tb ++ concat (tb_cleanups tb), r).
End tests.

(** ** The parts *)

Section setup.
Context {C R O U : Type} `{Grpc C R O}.
Context {B A K Tx : Type} `{Countable A, Keys A K, !Chain B A Tx}.
Abbreviation T := (Test (event C U)).

(** The registering functions are generated, and return. *)
Definition NewWithRegisteredTB (on : effect → event C U) : T () :=
  match NewWithRegistered true with
  | Ret (tr, cleanup) => _ ← happen (on <$> tr); Cleanup (on <$> cleanup)
  | _ => Fatalf
  end.

(** [dial]: whether dialling the new server succeeds. *)
Definition NewClientConnTB (on : effect → event C U) (dialled : event C U) (dial : bool) : T () :=
  match NewClientConn true dial with
  | Ret (tr, Ret _, cleanup) => _ ← happen ((on <$> tr) ++ [dialled]); Cleanup (on <$> cleanup)
  | Ret (tr, _, _) => _ ← happen (on <$> tr); Fatalf
  | _ => Fatalf
  end.

(** [closes]: whether closing the chain succeeds. *)
Definition NewSimulatedBackendTB (closes : bool) (numAccounts : nat) : T (SimulatedBackend B A K) :=
  match NewSimulatedBackend numAccounts with
  | Ret sim => _ ← happen [NewBackend]; _ ← Cleanup (CloseBackend :: if closes then [] else [Errorf]); mret sim
  | _ => Fatalf
  end.

(** What calling the adaptor's cleanup function does; its error is dropped. *)
Definition close_events (f : cleanup) : list (event C U) :=
  match f with NilFunc => [CleanupPanic] | NoCleanup => [] | CloseConn conn => [Closed conn] end.

Definition open_events (f : cleanup) : list (event C U) :=
  match f with CloseConn conn => [Opened conn] | _ => [] end.

(** ** [Config.NewFake] *)

Record Config := mkConfig { UseETHServer : bool }.

Context (dialer insecure_credentials : O).   (* the options of the Tester of the fake *)
Context (dial_firehose dial_hydrant closes : bool).

Definition adaptor (c : Config) : outcome hydrant_err (service C) * cleanup (C:=C) :=
  let opts := UserOption <$> DialOpts dialer insecure_credentials [] in
  if UseETHServer c then ETHServer EmptyString EmptyString EmptyString opts
  else ETHClient EmptyString EmptyString EmptyString opts.

(** The fake, with the service behind its client. *)
Definition Config_NewFake (c : Config) : T (Fake B A K * service C) :=
  _ ← NewWithRegisteredTB OnFirehose;
  _ ← (if dial_firehose then happen [DialFirehose] else Fatalf);
  let '(srv, clean) := adaptor c in
  match srv with
  | Ret srv =>
      _ ← happen (open_events clean);
      _ ← (if UseETHServer c then NewClientConnTB OnHydrant DialHydrant dial_hydrant else mret ());
      _ ← Cleanup (close_events clean);
      s ← NewSimulatedBackendTB closes 1;
      mret (mkFake (mkBackend (sim s) false (accounts s) (keys s) (mockAccounts s)) [], srv)
  | _ => Fatalf
  end.

(** The function [NewFake]. *)
Definition default_NewFake : T (Fake B A K * service C) := Config_NewFake (mkConfig false).

(** A test that sets up a fake and then does something with it. *)
Definition testing_with (c : Config) (user : Fake B A K * service C → list U)
    : list (event C U) * option () :=
  run_test (f ← Config_NewFake c; happen (ByUser <$> user f)).
End setup.

(** ** What stays open *)

Inductive resource (C : Type) :=
| FirehoseServer | HydrantServer | FirehoseConn | HydrantConn | Proxy (conn : C) | Backend.
Arguments FirehoseServer {C}.
Arguments HydrantServer {C}.
Arguments FirehoseConn {C}.
Arguments HydrantConn {C}.
Arguments Proxy {C} conn.
Arguments Backend {C}.

Definition acquired {C U} (ev : event C U) : option (resource C) :=
  match ev with
  | OnFirehose GoServe => Some FirehoseServer
  | OnHydrant GoServe => Some HydrantServer
  | DialFirehose => Some FirehoseConn
  | DialHydrant => Some HydrantConn
  | Opened conn => Some (Proxy conn)
  | NewBackend => Some Backend
  | _ => None
  end.

(** A server is gone when its goroutine has ended. *)
Definition released {C U} (ev : event C U) : option (resource C) :=
  match ev with
  | OnFirehose AwaitServe => Some FirehoseServer
  | OnHydrant AwaitServe => Some HydrantServer
  | Closed conn => Some (Proxy conn)
  | CloseBackend => Some Backend
  | _ => None
  end.

Section lifecycle.
Context {C R O U : Type} `{Grpc C R O}.
Context {B A K Tx : Type} `{Countable A, Keys A K, !Chain B A Tx}.
Context (dialer insecure_credentials : O) (dial_firehose dial_hydrant closes : bool).
Abbreviation adaptor_of := (adaptor dialer insecure_credentials).
Abbreviation test_with := (testing_with (U:=U) (B:=B) (A:=A) (K:=K) dialer insecure_credentials
  dial_firehose dial_hydrant closes).

Lemma user_events (l : list U) :
  omap acquired (ByUser (C:=C) <$> l) = [] ∧ omap released (ByUser (C:=C) <$> l) = [] ∧
  CleanupPanic ∉ (ByUser (C:=C) <$> l).
Proof.
  induction l as [|u l (IH1 & IH2 & IH3)]; [split_and!; [done..|apply not_elem_of_nil]|].
  split_and!; [exact IH1|exact IH2|]. cbn [fmap list_fmap]. by intros [?|?]%elem_of_cons.
Qed.

Ltac perm := apply NoDup_Permutation;
  [repeat (constructor; [set_solver|]); constructor..|set_solver].

(** The cleanup function of an adaptor closes the connection it serves with. *)
Lemma adaptor_cleanup c srv f : adaptor_of c = (Ret srv, f) → f = CloseConn (conn_of srv).
Proof.
  unfold adaptor, ETHServer, ETHClient, newETHHandler. destruct (UseETHServer c);
    destruct (Dial _ _ _ _); simpl; intros [= <- <-]; done.
Qed.

(** The resources that a test leaves open. *)
Definition leaked (c : Config) : list (resource C) :=
  if dial_firehose then
    FirehoseConn :: match adaptor_of c with
      | (Ret srv, _) => if UseETHServer c then [if dial_hydrant then HydrantConn else Proxy (conn_of srv)] else []
      | _ => []
      end
  else [].

(** What the beginning and the end of a test do, in this order. *)
Definition setup (c : Config) (conn : C) : list (event C U) :=
  (OnFirehose <$> [Register; GoServe]) ++ [DialFirehose; Opened conn] ++
  (if UseETHServer c then (OnHydrant <$> [Register; GoServe]) ++ [DialHydrant] else []) ++ [NewBackend].

Definition teardown (c : Config) (conn : C) : list (event C U) :=
  (CloseBackend :: if closes then [] else [Errorf]) ++ [Closed conn] ++
  (if UseETHServer c then OnHydrant <$> [GracefulStop; CloseListener; AwaitServe] else []) ++
  (OnFirehose <$> [GracefulStop; CloseListener; AwaitServe]).

(** A test with a fake closes everything that it opened, once each, but for the
    connections that the servers of [grpctest] hand out and, when Hydrant's server
    cannot be dialled, the connection to Firehose behind it.  The body sees everything open, and
    only when every part was set up; afterwards the connection to Firehose is closed
    before the Hydrant server that uses it stops. *)
Theorem testing_with_lifecycle c user tr r : test_with c user = (tr, r) →
  omap acquired tr ≡ₚ (omap released tr ++ leaked c) ∧ (CleanupPanic ∉ tr) ∧
  match r with
  | None => ∀ u, ByUser u ∉ tr
  | Some _ => ∃ f srv, NewFake = Ret f ∧ (adaptor_of c).1 = Ret srv ∧ dial_firehose = true ∧
      (UseETHServer c = true → dial_hydrant = true) ∧
      tr = setup c (conn_of srv) ++ (ByUser <$> user (f, srv)) ++ teardown c (conn_of srv)
  end.
Proof.
  unfold testing_with, run_test, Config_NewFake, leaked, NewFake, NewWithRegisteredTB, NewClientConnTB,
    NewSimulatedBackendTB, happen, Fatalf, Cleanup, mbind, test_bind, mret, test_ret.
  destruct (adaptor_of c) as [srv f] eqn:Ea. destruct (NewSimulatedBackend 1) as [s|e|].
  all: destruct dial_firehose; [|intros [= <- <-]; simpl; split_and!; [done|set_solver..]].
  all: destruct srv as [srv|e'|]; [|intros [= <- <-]; simpl; split_and!; [perm|set_solver..]..].
  all: apply adaptor_cleanup in Ea as ->; unfold setup, teardown.
  all: destruct (UseETHServer c); [destruct dial_hydrant|]; intros [= <- <-].
  all: try (simpl; split_and!; [perm|set_solver..]; fail).
  all: match goal with |- context [ByUser <$> ?l] => destruct (user_events l) as (E1 & E2 & E3) end.
  all: simpl; rewrite !omap_app, E1, E2; simpl; split_and!; [destruct closes; simpl; perm|destruct closes; set_solver|].
  all: by do 2 eexists.
Qed.
End lifecycle.
