(* ===== verification/GrpcGenTs.v ===== *)
(** * GrpcGenTs: TypeScript clients from service descriptors
    ([bazel/ts_proto_library/grpc_gen_ts])

    [main.go] and its template [servicedef.go.tmpl], whose actions are executed in order
    and write as they go, so that an error, also of the destination, leaves what was written
    before it.  The
    descriptors of [protobuf] are parsed by a parameter; a field of theirs is a pointer,
    nil when it was not set. *)

From S2P Require Import Prelude GoStrings.
From stdpp Require Import strings.

(** ** Descriptors *)

Record MethodDescriptorProto := mkMethod {
  method_Name : option string; InputType : option string; OutputType : option string;
  ClientStreaming : option bool; ServerStreaming : option bool
}.
Record ServiceDescriptorProto := mkService { service_Name : option string; Method : list MethodDescriptorProto }.
Record FileDescriptorProto := mkFile { Package : option string; Service : list ServiceDescriptorProto }.

Definition GetClientStreaming (m : MethodDescriptorProto) : bool := default false (ClientStreaming m).
Definition GetServerStreaming (m : MethodDescriptorProto) : bool := default false (ServerStreaming m).

(** ** Functions of the template *)

Definition namespaces (pkg : string) : list string := Split "." pkg.

Fixpoint join (delim : string) (s : list string) : string :=
  match s with
  | [] => EmptyString
  | [w] => w
  | w :: s => w +:+ delim +:+ join delim s
  end.

Definition streaming (m : MethodDescriptorProto) : string :=
  match GetClientStreaming m, GetServerStreaming m with
  | true, true => "bidi"
  | true, false => "client"
  | false, true => "server"
  | false, false => "unary"
  end.

(** ** Execution *)

Inductive gen_err := ReadAllErr | UnmarshalErr | NilPointer | WriteErr.

(** What the template does: write a text, or pass a pointer to a function of strings, which
    fails on nil. *)
Inductive action := Text (s : string) | Deref (p : option string).

(** The destination: the failure of the write with this number and text, after how many of
    its bytes.  A write that fails ends the execution. *)
Definition writer : Type := nat → string → option nat.

Fixpoint execute (dest : writer) (i : nat) (l : list action) : string * option gen_err :=
  match l with
  | [] => (EmptyString, None)
  | Text s :: l =>
      match dest i s with
      | None => let '(out, e) := execute dest (S i) l in (s +:+ out, e)
      | Some n => (String.substring 0 n s, Some WriteErr)
      end
  | Deref None :: _ => (EmptyString, Some NilPointer)
  | Deref (Some _) :: l => execute dest i l
  end.

(** A pointer is printed as what it points to. *)
Definition print_ptr (p : option string) : action := Text (default "<nil>"%string p).
Definition print_bool (b : bool) : action := Text (if b then "true" else "false")%string.

(** [join "" "pb" p], after [Deref p]. *)
Definition pb_type (p : option string) : string := join "" ["pb"%string; default EmptyString p].

Definition quotation_mark : string := String "034" EmptyString.

(** ** The template *)

(** An entry of the definition of a service. *)
Definition definition_entry (pkg svc : option string) (m : MethodDescriptorProto) : list action :=
  let name := method_Name m in
  let input := pb_type (InputType m) in
  let output := pb_type (OutputType m) in
  [Deref (InputType m);
   Deref (OutputType m);
   print_ptr name;
   Text ": {
				path: '/";
   print_ptr pkg;
   Text ".";
   print_ptr svc;
   Text "/";
   print_ptr name;
   Text "',
				requestStream: ";
   print_bool (GetClientStreaming m);
   Text ",
				responseStream: ";
   print_bool (GetServerStreaming m);
   Text ",
				requestSerialize: (msg: ";
   Text input;
   Text ") => Buffer.from(";
   Text input;
   Text ".encode(msg).finish()),
				requestDeserialize: (buf: Buffer) => ";
   Text input;
   Text ".decode(new Uint8Array(buf)),
				responseSerialize: (msg: ";
   Text output;
   Text ") => Buffer.from(";
   Text output;
   Text ".encode(msg).finish()),
				responseDeserialize: (buf: Buffer) => ";
   Text output;
   Text ".decode(new Uint8Array(buf)),
			},
		"].

(** It waits for one response. *)
Definition unary_method (name : option string) (input output : string) : list action :=
  [Text "
    public ";
   print_ptr name;
   Text "(req: ";
   Text input;
   Text "): Promise<";
   Text output;
   Text "> {
        return new Promise<";
   Text output;
   Text ">((resolve, reject) => {
            this.client.";
   print_ptr name;
   Text "(req, (err: Error | null, resp: ";
   Text output;
   Text ") => {
                err ? reject(err) : resolve(resp);
            });
        });
    }
        "].

(** It is not supported. *)
Definition client_method (name : option string) (input : string) : list action :=
  [Text "
    public ";
   print_ptr name;
   Text "(req: ";
   Text input;
   Text "): void {
        throw `";
   print_ptr name;
   Text ": client streaming unsupported`;
    }
        "].

(** It gives a stream to read. *)
Definition server_method (name : option string) (input output : string) : list action :=
  [Text "
    public ";
   print_ptr name;
   Text "(req: ";
   Text input;
   Text "): proofgrpc.ClientReadableStream<";
   Text output;
   Text "> {
        return new proofgrpc.ClientReadableStream<";
   Text output;
   Text ">(this.client.";
   print_ptr name;
   Text "(req));
    }
        "].

(** It gives a stream in both directions. *)
Definition bidi_method (name : option string) (input output : string) : list action :=
  [Text "
    public ";
   print_ptr name;
   Text "(req: ";
   Text input;
   Text "): grpc.ClientDuplexStream<";
   Text output;
   Text "> {
        return this.client.";
   print_ptr name;
   Text "(req);
    }
        "].

(** A method of the client, by its kind. *)
Definition client_class_method (m : MethodDescriptorProto) : list action :=
  let name := method_Name m in
  let input := pb_type (InputType m) in
  let output := pb_type (OutputType m) in
  [Text "
        ";
   Text "
        ";
   Deref (InputType m);
   Deref (OutputType m)] ++
  (if decide (streaming m = "unary"%string) then unary_method name input output else []) ++ [Text "

        "] ++
  (if decide (streaming m = "client"%string) then client_method name input else []) ++ [Text "

        "] ++
  (if decide (streaming m = "server"%string) then server_method name input output else []) ++ [Text "

        "] ++
  (if decide (streaming m = "bidi"%string) then bidi_method name input output else []) ++ [Text "
    "].

(** The definition of a service, its constructor and the class of its clients. *)
Definition service_actions (pkg : option string) (s : ServiceDescriptorProto) : list action :=
  let svc := service_Name s in
  [Text "
	";
   Text "

export const ";
   print_ptr svc;
   Text "Definition: grpc.ServiceDefinition = {
		"] ++
  (Method s ≫= definition_entry pkg svc) ++
  [Text "};

const ";
   print_ptr svc;
   Text "Ctor = grpc.makeGenericClientConstructor(
    ";
   print_ptr svc;
   Text "Definition, ";
   Text quotation_mark] ++
  [Deref pkg; Deref svc; Text (join "." [default EmptyString pkg; default EmptyString svc])] ++
  [Text quotation_mark;
   Text "
);

export class ";
   print_ptr svc;
   Text "Client {
    private client;

    constructor(serverAddr: string, credentials: grpc.ChannelCredentials) {
        this.client = new ";
   print_ptr svc;
   Text "Ctor(serverAddr, credentials);
    }

    "] ++
  (Method s ≫= client_class_method) ++
  [Text "
}

	"].

(** A file: its package opens a namespace for each of its parts, and closes it. *)
Definition file_actions (f : FileDescriptorProto) : list action :=
  let pkg := Package f in
  [Deref pkg] ++
  (namespaces (default EmptyString pkg) ≫= λ ns, [Text "

export namespace ";
   Text ns;
   Text " {"]) ++
  (Service f ≫= service_actions pkg) ++
  [Deref pkg] ++
  (namespaces (default EmptyString pkg) ≫= λ _, [Text "
}"]) ++
  [Text "
"].

Definition tmpl (pbTarget workspaceRelPath : string) (files : list FileDescriptorProto) : list action :=
  [Text "/**
GENERATED CODE - DO NOT EDIT
**/

import * as grpc from '@grpc/grpc-js';
import * as pb from './";
   Text pbTarget;
   Text "';
import * as proofgrpc from '";
   Text workspaceRelPath;
   Text "/typescript/grpc';

"] ++
  (files ≫= file_actions) ++ [Text "
";
   Text "
"].

(** ** The generator *)

Section generator.
Context (Unmarshal : list Z → option (list FileDescriptorProto)).

(** [None]: the reader failed. *)
Definition descriptors (r : option (list Z)) : outcome gen_err (list FileDescriptorProto) :=
  match r with
  | None => Fail ReadAllErr
  | Some buf => match Unmarshal buf with None => Fail UnmarshalErr | Some set => Ret set end
  end.

(** What is written, and the error. *)
Definition run (src : option (list Z)) (dest : writer) (pbTarget workspaceRelPath : string) : string * option gen_err :=
  match descriptors src with
  | Ret files => execute dest 0 (tmpl pbTarget workspaceRelPath files)
  | Fail e => (EmptyString, Some e)
  | Panic => (EmptyString, None)
  end.
End generator.

(** ** What is written *)

Definition text_of (a : action) : string := match a with Text s => s | Deref _ => EmptyString end.
Definition text (l : list action) : string := foldr (λ a s, text_of a +:+ s) EmptyString l.
Definition is_set (a : action) : Prop := match a with Deref p => is_Some p | Text _ => True end.

Lemma substring_prefix n s : ∃ rest, s = String.substring 0 n s +:+ rest.
Proof.
  revert n. induction s as [|c s IH]; intros [|n]; [by exists EmptyString..|by exists (String c s)|].
  destruct (IH n) as [rest Hr]. exists rest. cbn [String.substring]. change (String c s = String c (String.substring 0 n s +:+ rest)). by f_equal.
Qed.

(** The writer fails on a write of the text. *)
Definition fails_on (dest : writer) (l : list action) : Prop := ∃ i s n, Text s ∈ l ∧ dest i s = Some n.

(** What is written is a beginning of the whole, and the whole if there is no error. *)
Lemma execute_prefix dest i l : ∃ rest, text l = (execute dest i l).1 +:+ rest ∧ ((execute dest i l).2 = None → rest = EmptyString).
Proof.
  revert i. induction l as [|[s|[p|]] l IH]; intros i; cbn [execute text foldr text_of]; [by exists EmptyString| |apply IH|].
  - destruct (dest i s) as [n|]; simpl.
    + destruct (substring_prefix n s) as [rest Hr]. exists (rest +:+ text l). split; [|done].
      by rewrite string_app_assoc, <-Hr.
    + destruct (IH (S i)) as (rest & Hr & Hn). destruct (execute dest (S i) l) as [out e]. simpl in *. exists rest.
      split; [by rewrite <-string_app_assoc, <-Hr|done].
  - exists (text l). done.
Qed.

(** It ends well exactly when every field is set and every write succeeds; otherwise the error
    is that of the first of these that is met. *)
Lemma execute_err dest i l :
  match (execute dest i l).2 with
  | None => Forall is_set l
  | Some WriteErr => fails_on dest l
  | Some NilPointer => ¬ Forall is_set l
  | Some _ => False
  end.
Proof.
  revert i. induction l as [|[s|[p|]] l IH]; intros i; cbn [execute]; [constructor| | |].
  - destruct (dest i s) as [n|] eqn:Ed; [exists i, s, n; split; [left|done]|].
    specialize (IH (S i)). destruct (execute dest (S i) l) as [out e]. cbn [snd] in *.
    destruct e as [[]|]; [done|done| | |].
    + intros [_ Hs]%Forall_cons. by apply IH.
    + destruct IH as (i' & s' & n & ? & ?). exists i', s', n. split; [by right|done].
    + by apply Forall_cons.
  - specialize (IH i). destruct (execute dest i l).2 as [[]|]; [done|done| | |].
    + intros [_ Hs]%Forall_cons. by apply IH.
    + destruct IH as (i' & s' & n & ? & ?). exists i', s', n. split; [by right|done].
    + apply Forall_cons. split; [by eexists|done].
  - simpl. intros [Hs _]%Forall_cons. by destruct Hs.
Qed.

(** A descriptor that has what the template passes to functions. *)
Definition method_complete (m : MethodDescriptorProto) : Prop := is_Some (InputType m) ∧ is_Some (OutputType m).
Definition service_complete (s : ServiceDescriptorProto) : Prop := is_Some (service_Name s) ∧ Forall method_complete (Method s).
Definition file_complete (f : FileDescriptorProto) : Prop := is_Some (Package f) ∧ Forall service_complete (Service f).

Lemma Forall_bind_iff {A B} (P : B → Prop) (Q : A → Prop) (f : A → list B) l :
  (∀ x, Forall P (f x) ↔ Q x) → Forall P (l ≫= f) ↔ Forall Q l.
Proof.
  intros Hf. induction l as [|x l IH]; [by split|]. change ((x :: l) ≫= f) with (f x ++ (l ≫= f)).
  by rewrite Forall_app, Forall_cons, IH, Hf.
Qed.

Lemma method_set pkg svc m :
  (Forall is_set (definition_entry pkg svc m) ↔ method_complete m) ∧ (Forall is_set (client_class_method m) ↔ method_complete m).
Proof.
  assert (∀ l : list action, Forall is_set (Deref (InputType m) :: Deref (OutputType m) :: l) ↔ method_complete m ∧ Forall is_set l) as Hc
    by (intros l; rewrite !Forall_cons; unfold method_complete; simpl; tauto).
  split.
  - unfold definition_entry. cbv zeta. rewrite Hc. split; [tauto|]. split; [done|]. by repeat constructor.
  - unfold client_class_method. cbv zeta. cbn [app]. rewrite !Forall_cons. cbn [is_set].
    rewrite !Forall_app. unfold method_complete. repeat case_decide; repeat split; try tauto; by repeat constructor.
Qed.

Lemma service_set pkg s : is_Some pkg → Forall is_set (service_actions pkg s) ↔ service_complete s.
Proof.
  intros Hp. unfold service_actions, service_complete. cbv zeta. rewrite !Forall_app.
  rewrite (Forall_bind_iff is_set method_complete) by apply method_set.
  rewrite (Forall_bind_iff is_set method_complete) by (intros m; apply (method_set pkg (service_Name s))).
  split; [intros (_ & Hm & _ & Hd & _); split; [|done]; by inversion Hd as [|? ? _ Hd']; inversion Hd'|].
  intros [Hn Hm]. split_and!; try done; by repeat constructor.
Qed.

Lemma file_set f : Forall is_set (file_actions f) ↔ file_complete f.
Proof.
  unfold file_actions, file_complete. cbv zeta. rewrite !Forall_app, Forall_singleton. cbn [is_set]. split.
  - intros (Hp & _ & Hs & _). split; [done|]. revert Hs. apply Forall_bind_iff. intros s. by apply service_set.
  - intros [Hp Hs]. split_and!; try done; try (apply Forall_bind_iff with (Q := λ _, True); [|by apply Forall_true]; intros ns; split; [done|by repeat constructor]).
    + revert Hs. apply Forall_bind_iff. intros s. by apply service_set.
    + by repeat constructor.
Qed.

(** ** Braces *)

(** How many braces are open after a text, or [None] when one is closed that is not. *)
Fixpoint nested (d : nat) (s : string) : option nat :=
  match s with
  | EmptyString => Some d
  | String c s =>
      if Ascii.eqb c "{" then nested (S d) s
      else if Ascii.eqb c "}" then match d with O => None | S d => nested d s end
      else nested d s
  end.

Definition braceless (s : string) : Prop := mentions "{" s = false ∧ mentions "}" s = false.
Definition braceless_opt (p : option string) : Prop := from_option braceless True p.

Lemma nested_app d s t : nested d (s +:+ t) = d ← nested d s; nested d t.
Proof.
  revert d. induction s as [|c s IH]; intros d; [done|].
  change (String c s +:+ t) with (String c (s +:+ t)). cbn [nested].
  destruct (Ascii.eqb c "{"); [apply IH|]. destruct (Ascii.eqb c "}"); [|apply IH]. destruct d; [done|apply IH].
Qed.

Lemma nested_braceless d s : braceless s → nested d s = Some d.
Proof.
  unfold braceless. revert d. induction s as [|c s IH]; intros d; [done|]. cbn [mentions nested].
  intros [[Ho Hs]%orb_false_iff [Hc Hs']%orb_false_iff]. rewrite bool_decide_eq_false in Ho, Hc.
  rewrite (proj2 (Ascii.eqb_neq c "{")), (proj2 (Ascii.eqb_neq c "}")) by done. auto.
Qed.

Lemma braceless_app s t : braceless s → braceless t → braceless (s +:+ t).
Proof. unfold braceless. rewrite !mentions_app. intros [-> ->] [-> ->]. done. Qed.

(** The braces of what is written; a text list is neutral if it closes all that it opens. *)
Definition neutral (l : list action) : Prop := ∀ d, nested d (text l) = Some d.

Lemma text_app l k : text (l ++ k) = text l +:+ text k.
Proof. induction l as [|a l IH]; [done|]. cbn [app text foldr]. change (foldr _ _ ?x) with (text x). by rewrite IH, string_app_assoc. Qed.

Lemma nested_text_app d l k : nested d (text (l ++ k)) = d ← nested d (text l); nested d (text k).
Proof. by rewrite text_app, nested_app. Qed.

Lemma nested_cons d a l : nested d (text (a :: l)) = d ← nested d (text_of a); nested d (text l).
Proof. apply nested_app. Qed.

Lemma neutral_bind {A} (f : A → list action) l : Forall (λ x, neutral (f x)) l → neutral (l ≫= f).
Proof.
  induction 1 as [|x l Hx _ IH]; intros d; [done|]. change ((x :: l) ≫= f) with (f x ++ (l ≫= f)).
  rewrite nested_text_app, Hx. simpl. apply IH.
Qed.

Lemma nested_ptr d p : braceless_opt p → nested d (text_of (print_ptr p)) = Some d.
Proof. intros Hp. apply nested_braceless. by destruct p. Qed.

Lemma nested_bool d b : nested d (text_of (print_bool b)) = Some d.
Proof. by destruct b. Qed.

Lemma nested_Text d s : braceless s → nested d (text_of (Text s)) = Some d.
Proof. apply nested_braceless. Qed.

Lemma nested_nil d : nested d (text []) = Some d.
Proof. done. Qed.

(** Goes through a list of actions, computing the braces of its constant texts. *)
Ltac braces :=
  repeat first
    [ rewrite nested_text_app | rewrite nested_cons | rewrite nested_nil
    | rewrite nested_ptr by done | rewrite nested_bool | rewrite nested_Text by done
    | progress cbn [mbind option_bind nested text_of Ascii.eqb Bool.eqb] ].

Definition method_plain (m : MethodDescriptorProto) : Prop :=
  braceless_opt (method_Name m) ∧ braceless_opt (InputType m) ∧ braceless_opt (OutputType m).
Definition service_plain (s : ServiceDescriptorProto) : Prop := braceless_opt (service_Name s) ∧ Forall method_plain (Method s).
Definition file_plain (f : FileDescriptorProto) : Prop := braceless_opt (Package f) ∧ Forall service_plain (Service f).

Lemma pb_type_braceless p : braceless_opt p → braceless (pb_type p).
Proof. intros Hp. unfold pb_type, join. by destruct p; repeat apply braceless_app. Qed.

Lemma definition_entry_neutral pkg svc m : braceless_opt pkg → braceless_opt svc → method_plain m →
  neutral (definition_entry pkg svc m).
Proof.
  intros Hp Hs (Hn & Hi%pb_type_braceless & Ho%pb_type_braceless) d. unfold definition_entry. cbv zeta.
  braces. done.
Qed.

Lemma client_class_method_neutral m : method_plain m → neutral (client_class_method m).
Proof.
  intros (Hn & Hi%pb_type_braceless & Ho%pb_type_braceless) d. unfold client_class_method. cbv zeta.
  unfold streaming. destruct (GetClientStreaming m), (GetServerStreaming m);
    repeat (case_decide; try congruence);
    unfold unary_method, client_method, server_method, bidi_method; braces; done.
Qed.

Lemma service_neutral pkg s : braceless_opt pkg → service_plain s → neutral (service_actions pkg s).
Proof.
  intros Hp [Hn Hm] d. unfold service_actions. cbv zeta.
  assert (neutral (Method s ≫= definition_entry pkg (service_Name s))) as Hd.
  { apply neutral_bind. eapply Forall_impl; [exact Hm|]. intros m. by apply definition_entry_neutral. }
  assert (neutral (Method s ≫= client_class_method)) as Hc.
  { apply neutral_bind. eapply Forall_impl; [exact Hm|]. apply client_class_method_neutral. }
  assert (∀ d, nested d (join "." [default EmptyString pkg; default EmptyString (service_Name s)]) = Some d) as Hj.
  { intros d'. apply nested_braceless. cbn [join]. apply braceless_app; [by destruct pkg|].
    apply braceless_app; [done|by destruct (service_Name s)]. }
  braces. rewrite Hd. braces. rewrite Hj. braces. rewrite Hc. braces. done.
Qed.

Lemma Split_braceless sep s : braceless s → Forall braceless (Split sep s).
Proof.
  unfold braceless. induction s as [|c s IH]; [by repeat constructor|]. cbn [mentions Split].
  intros [[Ho Hs]%orb_false_iff [Hc Hs']%orb_false_iff]. specialize (IH (conj Hs Hs')).
  destruct (decide (c = sep)); [by constructor|]. destruct (Split sep s) as [|w ws]; [by constructor; [simpl; by rewrite Ho, Hc|]|].
  apply Forall_cons in IH as [[Hw Hw'] Hws]. constructor; [|done]. simpl. by rewrite Ho, Hc.
Qed.

Lemma open_namespaces d l : Forall braceless l →
  nested d (text (l ≫= λ ns, [Text "

export namespace "; Text ns; Text " {"])) = Some (length l + d).
Proof.
  intros Hl. revert d. induction Hl as [|ns l Hns _ IH]; intros d; [done|].
  match goal with |- context [(ns :: l) ≫= ?f] => change ((ns :: l) ≫= f) with (f ns ++ (l ≫= f)) end.
  braces. rewrite IH. simpl. f_equal. lia.
Qed.

Lemma close_namespaces {A} d (l : list A) : nested (length l + d) (text (l ≫= λ _, [Text "
}"])) = Some d.
Proof.
  induction l as [|x l IH]; [done|].
  match goal with |- context [(x :: l) ≫= ?f] => change ((x :: l) ≫= f) with (f x ++ (l ≫= f)) end.
  cbn [length Nat.add]. braces. exact IH.
Qed.

Lemma file_neutral f : file_plain f → neutral (file_actions f).
Proof.
  intros [Hp Hs] d. unfold file_actions. cbv zeta.
  assert (Forall braceless (namespaces (default EmptyString (Package f)))) as Hn by (apply Split_braceless; by destruct (Package f)).
  assert (neutral (Service f ≫= service_actions (Package f))) as Hsv.
  { apply neutral_bind. eapply Forall_impl; [exact Hs|]. intros s. by apply service_neutral. }
  braces. rewrite open_namespaces by done. cbn [mbind option_bind]. braces. rewrite Hsv. braces.
  rewrite close_namespaces. braces. done.
Qed.

Lemma tmpl_set target path files : Forall is_set (tmpl target path files) ↔ Forall file_complete files.
Proof.
  unfold tmpl. rewrite !Forall_app. rewrite (Forall_bind_iff is_set file_complete) by apply file_set.
  split; [tauto|]. intros Hf. split_and!; [by repeat constructor|done|by repeat constructor].
Qed.

Lemma tmpl_neutral target path files : braceless target → braceless path → Forall file_plain files →
  nested 0 (text (tmpl target path files)) = Some 0.
Proof.
  intros Ht Hw Hf. unfold tmpl.
  assert (neutral (files ≫= file_actions)) as Hn.
  { apply neutral_bind. eapply Forall_impl; [exact Hf|]. apply file_neutral. }
  braces. rewrite Hn. braces. done.
Qed.

(** C37. The generator fails where it cannot read descriptors, where a file has no
    package, a service no name or a method no types, or where the destination fails to take
    what is written, and nowhere else; what it has written by then is a
    beginning of the whole.  Otherwise it writes every file, and if no name holds a brace
    every brace that is opened is closed, and none is closed that was not opened. *)
Theorem run_correct Unmarshal src dest target path :
  let '(out, e) := run Unmarshal src dest target path in
  match descriptors Unmarshal src with
  | Ret files =>
      (∃ rest, text (tmpl target path files) = out +:+ rest) ∧
      match e with
      | None => Forall file_complete files ∧ out = text (tmpl target path files) ∧
          (braceless target → braceless path → Forall file_plain files → nested 0 out = Some 0)
      | Some NilPointer => ¬ Forall file_complete files
      | Some WriteErr => fails_on dest (tmpl target path files)
      | Some _ => False
      end
  | Fail e' => e = Some e' ∧ out = EmptyString
  | Panic => False
  end.
Proof.
  unfold run. destruct (descriptors Unmarshal src) as [files|e|] eqn:Ed; [|done|].
  2: { unfold descriptors in Ed. by repeat case_match. }
  destruct (execute_prefix dest 0 (tmpl target path files)) as (rest & Hr & Hn).
  pose proof (execute_err dest 0 (tmpl target path files)) as He.
  destruct (execute dest 0 (tmpl target path files)) as [out [[]|]]; cbn [fst snd] in *;
    (split; [by exists rest|]); try done.
  - by rewrite <-(tmpl_set target path).
  - rewrite (Hn eq_refl), string_app_nil_r in Hr. rewrite <-Hr. split; [by apply (tmpl_set target path)|].
    split; [done|]. apply tmpl_neutral.
Qed.

(** ** Examples *)

Definition toy_method : MethodDescriptorProto := mkMethod (Some "Echo") (Some ".demo.v1.Req") (Some ".demo.v1.Resp") None (Some true).
Definition toy_file (pkg : option string) : FileDescriptorProto := mkFile pkg [mkService (Some "Demo") [toy_method]].

Example toy_server_method : text (client_class_method toy_method) = "
        
        

        

        
    public Echo(req: pb.demo.v1.Req): proofgrpc.ClientReadableStream<pb.demo.v1.Resp> {
        return new proofgrpc.ClientReadableStream<pb.demo.v1.Resp>(this.client.Echo(req));
    }
        

        
    "%string.
Proof. vm_compute. reflexivity. Qed.

(** A file without a package, which protobuf allows, is where the generator stops, after
    the imports; a destination that takes two writes is where it stops in between. *)
Lemma run_correct_witness :
  let run pkg dest := run (λ _, Some [toy_file pkg]) (Some []) dest "demo" "." in
  (run None (λ _ _, None)).2 = Some NilPointer ∧
  (run (Some "demo.v1") (λ i _, if decide (i = 2) then Some 3 else None)).2 = Some WriteErr ∧
  nested 0 (run (Some "demo.v1") (λ _ _, None)).1 = Some 0 ∧ (run (Some "demo.v1") (λ _ _, None)).2 = None.
Proof.
  intros run0. assert ((run0 (Some "demo.v1") (λ _ _, None)).2 = None) as E by (vm_compute; reflexivity).
  split; [vm_compute; reflexivity|]. split; [vm_compute; reflexivity|]. split; [|exact E].
  pose proof (run_correct (λ _, Some [toy_file (Some "demo.v1")]) (Some []) (λ _ _, None) "demo" ".") as W.
  unfold run0 in *. destruct (run (λ _, Some [toy_file (Some "demo.v1")]) (Some []) (λ _ _, None) "demo" ".") as [out e].
  simpl in E. subst e. destruct W as (_ & _ & _ & Hb). apply Hb; [done|done|]. by repeat constructor.
Defined.
